(* ===== verification/_CoqProject ===== *)
-Q . S2P
Prelude.v
FlatSet.v
PcPackage.v
PcParser.v
PcParserCorrect.v
PkgConfig.v
PkgConfigCorrect.v
Token.v
Lexer.v
LexerCorrect.v
CppScanner.v
CppScannerCorrect.v
BuildGraph.v
CycleDetector.v
BuildGraphCorrect.v
CycleDetectorCorrect.v
ArtifactRemoval.v
ArtifactLookup.v
RuleGraph.v
RuleGraphCorrect.v
RuleDependencies.v
JobLimits.v
StateMonad.v
ExecutorJob.v
ExecutorState.v
Executor.v
ExecutorFrame.v
ExecutorJobs.v
ExecutorStatic.v
ExecutorOrder.v
ExecutorStart.v
DataStream.v
LauncherPackets.v
Launcher.v
LauncherCorrect.v
LauncherInvariant.v
Persistence.v
PersistenceCorrect.v
PersistenceObjects.v
PersistenceFile.v
ChangeTracking.v
ChangeTrackingCorrect.v
ChangeRecording.v
ChangeTrackingExact.v
ChangeTrackingExamples.v
BuildGraphLoader.v
BuildGraphLoaderCorrect.v
ProductTracking.v
ProjectTracking.v
BuildGraphLoaderExamples.v
BuildDataRescue.v
ProductRemoval.v
BuildDataRescueCorrect.v
RescueDecision.v
RescueCorrect.v
RescueRoundtrip.v
RescueExamples.v
RuleApplication.v
RuleApplicationGraph.v
RuleApplicationRemoval.v
RuleDecision.v
RuleApplicationInvariant.v
RuleOutputs.v
RuleApplicationCorrect.v
RuleApplicationExamples.v
