(* ===== verification/Prelude.v ===== *)
(** * A verification development for the Qbs build tool

    Qbs resolves project files to products, rules and source files, keeps a graph of
    rule nodes and artifacts between its runs, and executes the commands that bring
    the artifacts up to date.  The development models the parts that do this in
    [src/lib/corelib], with the process launcher ([src/libexec]), the pkg-config
    library ([src/lib/pkgconfig]) and the C++ scanner ([src/plugins/scanner/cpp]).
    Definitions have the names of the functions and members they translate;
    [PROJECT.json] lists the lines of each.

    ** How the parts work together

    A session starts with a project on disk.  [PersistentPool] loads its objects;
    [BuildGraphLoader] decides whether it has to be resolved again and which products
    keep their build data.  For new products [RuleGraph] orders the rules and
    [CreateRuleNodes] makes rule nodes of them.  The [Executor] walks over the graph
    from the roots to the leaves, applies rules ([RulesApplicator]), runs transformers
    with [ExecutorJob]s, as many as the [JobLimits] allow, and connects and removes
    nodes with the functions of [buildgraph.cpp]; [TrafoChangeTracker] tells whether what a script has read
    earlier is still true.  Commands are run by [QbsProcess] through the process
    launcher, a program of its own at the other end of a socket.  The C++ scanner
    finds the includes of a file with its lexer; the pkg-config library answers what
    modules ask about installed packages.

    ** Files

    - [Prelude]: characters, exceptions ([exn]), strict orders with a boolean test,
      sorting; [FlatSet]: the sorted vectors of [tools/set.h], with their algebra;
      [StateMonad]: member functions that change an object and may throw, with the
      tactics for what they leave alone ([moves]) and throw ([throws]).
    - pkg-config: [PcPackage] (pcpackage.h, .cpp), [PcParser] (pcparser.cpp) and
      [PkgConfig] (pkgconfig.cpp); the parser is proved against the class
      [VariableSource], which [PkgConfig] implements.
    - C++ scanner: [Token], [Lexer] and [CppScanner] for the files of these names.
    - Build graph: [BuildGraph] is the heap of nodes, transformers, rules and products
      with the functions of buildgraph.cpp, artifact.cpp, rulenode.cpp,
      productbuilddata.cpp and projectbuilddata.cpp; [CycleDetector] has
      cycledetector.cpp and the sanity checks; [RuleGraph] has rulegraph.cpp and the
      rule nodes of a product.
    - Executor: [JobLimits] (tools/joblimits.cpp), [ExecutorJob] (executorjob.cpp),
      [ExecutorState] and [Executor] (executor.h, executor.cpp).  The scripts that it
      runs are the class [Scripts], the priority queue is [PriorityQueue].
    - Process launcher: [DataStream] (Qt's [QDataStream], a class with its laws),
      [LauncherPackets] (launcherpackets.cpp) and [Launcher] (qbsprocess.cpp,
      launchersocket.cpp, launchersockethandler.cpp).
    - Storage: [Persistence] (persistence.h, .cpp).
    - Change tracking: [ChangeTracking] (transformerchangetracking.cpp,
      requestedartifacts.cpp, requesteddependencies.cpp and what the script engine
      records); variants are the class [QtVariant].
    - Loading: [BuildGraphLoader] (buildgraphloader.cpp and the comparisons of
      language.cpp) chooses the products that keep their build data and lists what is
      to be done to the artifacts; [BuildDataRescue] does it for products that are
      removed or changed, on the heap of [BuildGraph] and the records of [Executor].
    - Rule application: [RuleApplication] (rulesapplicator.cpp and [RuleNode::apply]);
      what scripts evaluate to is the class [RuleScripts].

    The proofs about a file [X] are in [XCorrect] and in the files that follow it:
    [ArtifactRemoval], [ArtifactLookup] and [RuleDependencies] for the build graph;
    [ExecutorFrame],
    [ExecutorJobs], [ExecutorStatic], [ExecutorOrder] and [ExecutorStart] for the
    executor; [LauncherCorrect] and [LauncherInvariant]; [PersistenceObjects] and
    [PersistenceFile]; [ChangeRecording], [ChangeTrackingExact] and
    [ChangeTrackingExamples]; [ProductTracking], [ProjectTracking] and
    [BuildGraphLoaderExamples]; [ProductRemoval], [BuildDataRescueCorrect] (the
    loader's part), [RescueDecision] and [RescueCorrect] (the executor's part),
    [RescueRoundtrip] and [RescueExamples]; for rule application [RuleApplicationGraph] and
    [RuleApplicationRemoval] (what its steps do to the graph), [RuleDecision],
    [RuleOutputs], [RuleApplicationInvariant], with the theorems in
    [RuleApplicationCorrect] and their use in [RuleApplicationExamples].

    ** What is shown

    - Builds: in a graph whose rules have been applied, a build ends, builds each node
      after its children, and without a failure it builds all of them; every job is
      available or runs one transformer, the job counts are those of the running jobs
      and never exceed a limit; a build that is not over can go on.
    - The graph: [safeConnect] never closes a cycle, [existsPath] decides
      reachability, the cycle detector ends and finds every cycle it can reach, the
      removal of artifacts ends and leaves no reference behind, the rule nodes mirror
      the rule graph, and the sanity checks imply the invariant.
    - The launcher: both ends agree on what runs in every reachable state while they
      are connected, no [QbsProcess] waits for ever, packets survive any division of
      the byte stream, and the sizes stay in their ranges.
    - Storage: what was stored is loaded again, pointers included, and a file whose
      writing was interrupted is refused.
    - Change tracking: a script runs again exactly when one of its reads would give
      something else; the memory of the tracker never changes its answers.
    - Loading: the project is resolved again exactly when something recorded has
      changed; exactly the products that have not changed, and depend on no changed
      product, keep their build data.  A product that is removed leaves the rest of
      the graph as it is; what is recorded of a changed product comes back to the
      artifacts that are made again, exactly when it is still true.
    - Rules: a rule node is skipped exactly when nothing it depends on has changed, and
      applied to exactly the inputs that ask for it; an output has its tags, properties
      and edges, or the conflict is reported; however an application ends, the graph
      and the tables of the project are consistent.
    - pkg-config: lines, library flags and module lists can be printed and parsed
      again, the parser ends, merging solves the merge equations, versions are
      compared as a linear order.
    - C++ scanner: lexer and scanner read only inside the buffer and end; each token
      is where it says.

    Defects that the models show are proved as examples and listed as findings.

    ** Bounds

    Recursion that is not structural has fuel, and the theorems show that it is
    enough: [graphFuel] and [dependencyFuel] are above the number of nodes or
    products, which no path without repetition exceeds; the loops of the parser and
    the lexer have the length of their input; [moveBuildData] uses up a new or a
    restored product in each round.  The fuel of [scheduleJobs] is the number of leaves
    that may be taken from the queue; [scheduling_terminates] shows that there is
    always enough of it.  Integers of the launcher packets, the persistent pool and the
    job limits have their widths; other integers are those of the C++ type [int] in
    ranges that are not reached.

    ** What is not modelled

    The module loader, the project resolver and the evaluator work on QML items whose
    properties are QtScript expressions: what they resolve to is an argument.  The
    effects of scripts (in rules, scanners and commands) are arguments or classes with
    laws; the executor is proved against the class [Scripts], not against
    [RuleApplication].
    The QML parser and the JSON and variant libraries are third-party code.  Command
    line tools, settings, project generators, toolchain detection and the public API
    are input and output around the core; the language files of the modules are no
    C++.  Of loading, the update of generated artifacts is recorded as a call, and
    the removal of files and directories is left out.  In rule
    application the script objects, the moc scanner and cancelation are left out, and a
    pointer to a node that the program has deleted ends the run ([DanglingPointer]). *)

From stdpp Require Export prelude strings gmap list sorting.
From Stdlib Require Export Ascii.
From Stdlib Require Import Lia.

Declare Scope qbs_scope.
Delimit Scope qbs_scope with qbs.
Open Scope qbs_scope.
#[export] Set Default Goal Selector "!".

(** ** Characters and strings

    A [char] is one byte, a [std::string] or [std::string_view] is the list of
    its bytes.  String literals of the source are written as Rocq string
    literals and turned into byte lists by the coercion [lit]. *)

Abbreviation char := Ascii.ascii.
Abbreviation str := (list Ascii.ascii).

Definition lit (s : string) : list Ascii.ascii := String.list_ascii_of_string s.

Coercion lit : string >-> list.

Infix "=c" := Ascii.eqb (at level 70) : qbs_scope.

(** Control characters the sources mention. *)
Definition NUL : char := "000"%char.
Definition TAB : char := "009"%char.
Definition LF : char := "010"%char.
Definition CR : char := "013"%char.
Definition DQUOTE : char := "034"%char.
Definition SQUOTE : char := "039"%char.
Definition BACKSLASH : char := "092"%char.

(** The code of a byte as an [unsigned char]. *)
Definition code (c : char) : N := N_of_ascii c.

Definition in_range (lo hi : N) (c : char) : bool :=
  (lo <=? code c)%N && (code c <=? hi)%N.

(** [<cctype>] in the "C" locale. *)
Definition isspace (c : char) : bool := in_range 9 13 c || (c =c " ").
Definition isdigit (c : char) : bool := in_range 48 57 c.
Definition isupper (c : char) : bool := in_range 65 90 c.
Definition islower (c : char) : bool := in_range 97 122 c.
Definition isalpha (c : char) : bool := isupper c || islower c.
Definition isalnum (c : char) : bool := isalpha c || isdigit c.
Definition toupper (c : char) : char :=
  if islower c then ascii_of_N (code c - 32) else c.

(** ** Errors

    C++ exceptions: a computation returns normally or throws. *)
Inductive exn (E A : Type) : Type :=
  | Ok (a : A)
  | Throw (e : E).
Arguments Ok {_ _} _.
Arguments Throw {_ _} _.

Definition exn_bind {E A B} (m : exn E A) (k : A → exn E B) : exn E B :=
  match m with Ok a => k a | Throw e => Throw e end.

Notation "'let*' x := m 'in' k" := (exn_bind m (λ x, k))
  (at level 10, x pattern, m at level 100, k at level 200) : qbs_scope.

(** ** Strict orders given by a boolean test

    What [std::sort], [std::lower_bound] and the containers built on them
    require of [operator<], with the totality that makes the order linear. *)
Class StrictOrderB {T} (ltb : T → T → bool) : Prop := {
  ltb_irrefl x : ltb x x = false;
  ltb_trans x y z : ltb x y = true → ltb y z = true → ltb x z = true;
  ltb_total x y : ltb x y = false → ltb y x = false → x = y
}.

#[export] Instance nat_ltb_order : StrictOrderB Nat.ltb.
Proof.
  split; intros *; rewrite ?Nat.ltb_lt, ?Nat.ltb_ge; lia.
Qed.

Lemma ltb_asym {T} {ltb : T → T → bool} {O : StrictOrderB ltb} x y :
  ltb x y = true → ltb y x = false.
Proof.
  intros Hxy. destruct (ltb y x) eqn:E; [|done].
  pose proof (ltb_trans _ _ _ Hxy E) as H. by rewrite ltb_irrefl in H.
Qed.

(** Case analysis on the comparison of two elements, as a view that rewrites
    both tests at once. *)
Inductive ltb_view {T} (ltb : T → T → bool) (x y : T) : bool → bool → Prop :=
  | ltb_view_lt : ltb x y = true → ltb_view ltb x y true false
  | ltb_view_eq : x = y → ltb_view ltb x y false false
  | ltb_view_gt : ltb y x = true → ltb_view ltb x y false true.

Lemma ltbP {T} {ltb : T → T → bool} {O : StrictOrderB ltb} x y :
  ltb_view ltb x y (ltb x y) (ltb y x).
Proof.
  destruct (ltb x y) eqn:E1.
  - rewrite (ltb_asym _ _ E1). by constructor.
  - destruct (ltb y x) eqn:E2; constructor; [done|by apply ltb_total].
Qed.

(** [std::char_traits<char>::lt] compares bytes as unsigned chars, and
    [std::string]'s [operator<] is lexicographic. *)
Fixpoint str_ltb (a b : str) : bool :=
  match a, b with
  | _, [] => false
  | [], _ :: _ => true
  | x :: a', y :: b' =>
      if (code x <? code y)%N then true
      else if (code y <? code x)%N then false
      else str_ltb a' b'
  end.

(** ** Lists *)

(** The longest prefix whose elements satisfy [p], and what follows it. *)
Fixpoint take_while {A} (p : A → bool) (l : list A) : list A :=
  match l with
  | [] => []
  | x :: l' => if p x then x :: take_while p l' else []
  end.

Fixpoint drop_while {A} (p : A → bool) (l : list A) : list A :=
  match l with
  | [] => []
  | x :: l' => if p x then drop_while p l' else l
  end.

(** [std::sort] with the comparison [ltb]. *)
Fixpoint insort {A} (ltb : A → A → bool) (x : A) (l : list A) : list A :=
  match l with
  | [] => [x]
  | y :: l' => if ltb y x then y :: insort ltb x l' else x :: l
  end.

Definition std_sort {A} (ltb : A → A → bool) (l : list A) : list A :=
  foldr (insort ltb) [] l.

Lemma take_drop_while {A} (p : A → bool) l :
  take_while p l ++ drop_while p l = l.
Proof. induction l as [|x l IH]; simpl; [done|]. case_match; by simpl; rewrite ?IH. Qed.

Lemma take_while_elem {A} (p : A → bool) l x : x ∈ take_while p l → p x = true.
Proof.
  induction l as [|y l IH]; simpl; [by intros ?%elem_of_nil|].
  case_match; [|by intros ?%elem_of_nil].
  rewrite elem_of_cons; naive_solver.
Qed.

Lemma drop_while_head {A} (p : A → bool) l x l' :
  drop_while p l = x :: l' → p x = false.
Proof.
  induction l as [|y l IH]; simpl; [done|]. case_match; [done|]. naive_solver.
Qed.

Lemma take_while_app_stop {A} (p : A → bool) l x l' :
  Forall (λ y, p y = true) l → p x = false → take_while p (l ++ x :: l') = l.
Proof. induction 1 as [|y l Hy Hl IH]; simpl; intros Hx; [by rewrite Hx|].
  rewrite Hy, IH; done. Qed.

Lemma drop_while_app_stop {A} (p : A → bool) l x l' :
  Forall (λ y, p y = true) l → p x = false → drop_while p (l ++ x :: l') = x :: l'.
Proof. induction 1 as [|y l Hy Hl IH]; simpl; intros Hx; [by rewrite Hx|].
  rewrite Hy, IH; done. Qed.

Lemma take_while_all {A} (p : A → bool) l :
  Forall (λ y, p y = true) l → take_while p l = l.
Proof. induction 1 as [|y l Hy Hl IH]; simpl; [done|]. by rewrite Hy, IH. Qed.

Lemma drop_while_all {A} (p : A → bool) l :
  Forall (λ y, p y = true) l → drop_while p l = [].
Proof. induction 1 as [|y l Hy Hl IH]; simpl; [done|]. by rewrite Hy. Qed.

Lemma drop_while_length {A} (p : A → bool) l : length (drop_while p l) ≤ length l.
Proof. induction l as [|x l IH]; simpl; [done|]. case_match; simpl; lia. Qed.

Lemma insort_perm {A} (ltb : A → A → bool) x l : insort ltb x l ≡ₚ x :: l.
Proof.
  induction l as [|y l IH]; simpl; [done|]. case_match; [|done].
  rewrite IH. apply Permutation_swap.
Qed.

Lemma std_sort_perm {A} (ltb : A → A → bool) l : std_sort ltb l ≡ₚ l.
Proof. induction l as [|x l IH]; simpl; [done|]. by rewrite insort_perm, IH. Qed.

Lemma std_sort_sorted {A} (ltb : A → A → bool) `{!StrictOrderB ltb} l :
  StronglySorted (λ x y, ltb y x = false) (std_sort ltb l).
Proof.
  induction l as [|x l IH]; simpl; [constructor|].
  induction IH as [|y l' Hs IH Hy]; simpl; [repeat constructor|].
  destruct (ltbP y x) as [Hyx| -> |Hxy].
  - constructor; [done|]. rewrite insort_perm. constructor; [by apply ltb_asym|done].
  - constructor; [by constructor|]. constructor; [apply ltb_irrefl|done].
  - constructor; [by constructor|]. constructor; [by apply ltb_asym|].
    eapply Forall_impl; [exact Hy|]. simpl. intros z Hz.
    destruct (ltb z x) eqn:E; [|done].
    by rewrite (ltb_trans _ _ _ E Hxy) in Hz.
Qed.

Lemma existsb_false {A} (f : A → bool) l : existsb f l = false ↔ ∀ x, x ∈ l → f x = false.
Proof.
  rewrite <-not_true_iff_false, existsb_exists. split.
  - intros H x Hx. apply not_true_iff_false. intros E. apply H. exists x.
    by rewrite <-list_elem_of_In.
  - intros H (x & Hx & E). rewrite <-list_elem_of_In in Hx. by rewrite (H x Hx) in E.
Qed.

Lemma forallb_elem {A} (f : A → bool) l x : forallb f l = true → x ∈ l → f x = true.
Proof. rewrite forallb_forall. intros H Hx. by apply H, list_elem_of_In. Qed.

(** ** Facts about characters and prefixes *)

Lemma ascii_eqb_spec (a b : char) : (a =c b) = bool_decide (a = b).
Proof.
  destruct (Ascii.eqb_spec a b) as [->|H]; [by rewrite bool_decide_eq_true_2|].
  by rewrite bool_decide_eq_false_2.
Qed.

Lemma ascii_eqb_refl (a : char) : (a =c a) = true.
Proof. apply Ascii.eqb_refl. Qed.

Lemma ascii_eqb_ne (a b : char) : a ≠ b → (a =c b) = false.
Proof. apply Ascii.eqb_neq. Qed.

(** Decide the character tests of a goal from hypotheses [c ≠ d]. *)
Ltac char_simpl :=
  repeat first
    [ rewrite ascii_eqb_refl
    | rewrite ascii_eqb_ne by (try congruence; done) ].

Definition is_nil {A} (l : list A) : bool :=
  match l with [] => true | _ :: _ => false end.

Lemma is_nil_true {A} (l : list A) : is_nil l = true ↔ l = [].
Proof. by destruct l. Qed.

Lemma is_nil_false {A} (l : list A) : is_nil l = false ↔ l ≠ [].
Proof. by destruct l. Qed.

Lemma take_while_Forall {A} (p : A → bool) l : Forall (λ x, p x = true) (take_while p l).
Proof. apply Forall_forall. intros x. apply take_while_elem. Qed.

(** ** Strings are linearly ordered *)

Lemma code_inj (x y : char) : code x = code y → x = y.
Proof.
  intros H. unfold code in H.
  by rewrite <-(ascii_N_embedding x), <-(ascii_N_embedding y), H.
Qed.

#[export] Instance str_ltb_order : StrictOrderB str_ltb.
Proof.
  split.
  - intros x. induction x as [|c x IH]; [done|]. simpl. by rewrite N.ltb_irrefl.
  - intros x y. revert x. induction y as [|d y IH]; intros [|c x] [|e z]; simpl; try done.
    destruct (N.ltb_spec (code c) (code d)), (N.ltb_spec (code d) (code e)),
      (N.ltb_spec (code c) (code e)), (N.ltb_spec (code d) (code c)),
      (N.ltb_spec (code e) (code d)), (N.ltb_spec (code e) (code c)); try done; try lia.
    apply IH.
  - intros x. induction x as [|c x IH]; intros [|d y]; simpl; try done.
    destruct (N.ltb_spec (code c) (code d)), (N.ltb_spec (code d) (code c)); try done.
    intros H1 H2. rewrite (code_inj c d) by lia. by rewrite (IH y).
Qed.
