(* ===== verification/FlatSet.v ===== *)
(** * The sorted-vector set ([tools/set.h])

    [Set<T>] keeps its elements in a [std::vector<T>] that is sorted by
    [operator<].  A set is modelled as that vector, a list; an iterator that
    only moves forward is modelled by the part of the vector it still has to
    visit, the part before it being what the operation has already emitted. *)

From S2P Require Import Prelude.

Section FlatSet.
Context {T : Type} `{EqDecision T} (ltb : T → T → bool).

Implicit Types (m o : list T) (v x : T).

(** [std::lower_bound]: the index of the first element not less than [v]. *)
Definition lower_bound m v : nat := length (take_while (λ x, ltb x v) m).

(** [std::unique] followed by the erasure of the tail it leaves. *)
Fixpoint unique_from x m : list T :=
  match m with
  | [] => [x]
  | y :: m' =>
      if bool_decide (x = y) then unique_from x m' else x :: unique_from y m'
  end.

Definition unique m : list T :=
  match m with [] => [] | x :: m' => unique_from x m' end.

(** [Set(const std::initializer_list<T> &)] *)
Definition set_of_list m : list T := unique (std_sort ltb m).

(** [Set(InputIterator first, InputIterator last)] *)
Definition set_of_range m : list T := std_sort ltb m.

(** [intersect]: [*this] is changed in place, with two iterators. *)
Fixpoint set_intersect m o {struct m} : list T :=
  (fix inner o : list T :=
     match m with
     | [] => []
     | x :: m' =>
         match o with
         | [] => []
         | y :: o' =>
             if ltb x y then set_intersect m' o
             else if negb (ltb y x) then x :: set_intersect m' o'
             else inner o'
         end
     end) o.

(** [insert]: the new vector, the index of the element, whether it was new. *)
Definition set_insert m v : list T * (nat * bool) :=
  let it := lower_bound m v in
  match m !! it with
  | None => (take it m ++ v :: drop it m, (it, true))
  | Some x =>
      if ltb v x then (take it m ++ v :: drop it m, (it, true))
      else (m, (it, false))
  end.

(** [binary_search], behind [contains(const T &)]. *)
Definition set_mem m v : bool :=
  match m !! lower_bound m v with
  | None => false
  | Some x => negb (ltb v x)
  end.

(** [contains(const Set<T> &)] *)
Fixpoint set_contains m o : bool :=
  match o with
  | [] => true
  | y :: o' =>
      match m with
      | [] => false
      | x :: m' =>
          if ltb y x then false
          else set_contains m' (if negb (ltb x y) then o' else o)
      end
  end.

(** [intersects] *)
Fixpoint set_intersects m o {struct m} : bool :=
  (fix inner o : bool :=
     match m with
     | [] => false
     | x :: m' =>
         match o with
         | [] => false
         | y :: o' =>
             if ltb x y then set_intersects m' o
             else if ltb y x then inner o'
             else true
         end
     end) o.

(** The loop of [unite]: [m] is the part of the vector from [lowerBound] on. *)
Fixpoint unite_loop m o : list T :=
  match o with
  | [] => m
  | y :: o' =>
      let before := take_while (λ x, ltb x y) m in
      before ++
        match drop_while (λ x, ltb x y) m with
        | [] => o
        | z :: m' =>
            if ltb y z then unite_loop (y :: z :: m') o'
            else unite_loop (z :: m') o'
        end
  end.

Definition set_unite m o : list T :=
  match o, m with
  | [], _ => m
  | _, [] => o
  | _, _ => unite_loop m o
  end.

(** [remove]: the new vector and whether the element was there. *)
Definition set_remove m v : list T * bool :=
  let it := lower_bound m v in
  match m !! it with
  | Some x =>
      if negb (ltb v x) then (take it m ++ drop (S it) m, true) else (m, false)
  | None => (m, false)
  end.

(** The loop of [subtract]. *)
Fixpoint subtract_loop m o : list T :=
  match o with
  | [] => m
  | y :: o' =>
      take_while (λ x, ltb x y) m ++
        match drop_while (λ x, ltb x y) m with
        | [] => []
        | z :: m' =>
            if negb (ltb y z) then subtract_loop m' o'
            else subtract_loop (z :: m') o'
        end
  end.

Definition set_subtract m o : list T :=
  match m, o with
  | [], _ => m
  | _, [] => m
  | _, _ => subtract_loop m o
  end.

(** [operator-(const Set<T> &, const Set<T> &)] *)
Fixpoint minus_loop m o {struct m} : list T :=
  (fix inner o : list T :=
     match m with
     | [] => []
     | x :: m' =>
         match o with
         | [] => m
         | y :: o' =>
             if ltb x y then x :: minus_loop m' o
             else if ltb y x then inner o'
             else minus_loop m' o'
         end
     end) o.

Definition set_minus m o : list T :=
  match m, o with
  | [], _ => m
  | _, [] => m
  | _, _ => minus_loop m o
  end.

(** [operator&(const Set<T> &, const Set<T> &)] *)
Fixpoint set_and m o {struct m} : list T :=
  (fix inner o : list T :=
     match m with
     | [] => []
     | x :: m' =>
         match o with
         | [] => []
         | y :: o' =>
             if ltb x y then set_and m' o
             else if ltb y x then inner o'
             else x :: set_and m' o'
         end
     end) o.

(** [operator+] and [operator|] *)
Definition set_plus m o : list T := set_unite m o.

(** The class invariant: the vector is strictly increasing. *)
Definition ssorted m : Prop := StronglySorted (λ x y, ltb x y = true) m.

End FlatSet.

Section Facts.
Context {T : Type} `{EqDecision T} {ltb : T → T → bool} {O : StrictOrderB ltb}.

Implicit Types (m o : list T) (v x : T).

Lemma ssorted_cons x m :
  ssorted ltb (x :: m) ↔ ssorted ltb m ∧ ∀ y, y ∈ m → ltb x y = true.
Proof.
  unfold ssorted. split.
  - inversion_clear 1 as [|? ? Hs Hx]. split; [done|]. by apply Forall_forall.
  - intros [Hs Hx]. constructor; [done|]. by apply Forall_forall.
Qed.

Lemma ssorted_sublist m o : sublist m o → ssorted ltb o → ssorted ltb m.
Proof.
  induction 1 as [|x m o Hs IH|x m o Hs IH]; [done| |].
  - rewrite !ssorted_cons. intros [Ho Hx]. split; [by apply IH|].
    intros y Hy. apply Hx. by eapply elem_of_sublist.
  - rewrite ssorted_cons. intros [Ho _]. by apply IH.
Qed.

Lemma ssorted_app m o :
  ssorted ltb (m ++ o) ↔
  ssorted ltb m ∧ ssorted ltb o ∧ ∀ x y, x ∈ m → y ∈ o → ltb x y = true.
Proof.
  induction m as [|z m IH]; simpl.
  - split; [|naive_solver]. intros Ho. split; [constructor|]. split; [done|].
    by intros x y ?%elem_of_nil.
  - rewrite !ssorted_cons, IH. setoid_rewrite elem_of_app.
    setoid_rewrite elem_of_cons. naive_solver.
Qed.

Lemma ssorted_NoDup m : ssorted ltb m → NoDup m.
Proof.
  induction m as [|x m IH]; [constructor|]. rewrite ssorted_cons. intros [Hs Hx].
  constructor; [|auto]. intros Hin. pose proof (Hx x Hin) as Hc.
  by rewrite ltb_irrefl in Hc.
Qed.

Lemma ssorted_nil : ssorted ltb [].
Proof. constructor. Qed.

(** The two parts [lower_bound] separates. *)
Lemma ssorted_drop_while m v y :
  ssorted ltb m → y ∈ drop_while (λ x, ltb x v) m → ltb y v = false.
Proof.
  induction m as [|x m IH]; simpl; [by intros _ ?%elem_of_nil|].
  rewrite ssorted_cons. intros [Hs Hx]. destruct (ltb x v) eqn:E; [by auto|].
  rewrite elem_of_cons. intros [->|Hy]; [done|].
  destruct (ltb y v) eqn:E'; [|done].
  by rewrite (ltb_trans _ _ _ (Hx _ Hy) E') in E.
Qed.

Lemma elem_of_take_drop_while (p : T → bool) m x :
  x ∈ m ↔ x ∈ take_while p m ∨ x ∈ drop_while p m.
Proof. by rewrite <-elem_of_app, take_drop_while. Qed.

Lemma take_lower_bound m v :
  take (lower_bound ltb m v) m = take_while (λ x, ltb x v) m.
Proof.
  unfold lower_bound. rewrite <-(take_drop_while (λ x, ltb x v) m) at 2.
  by rewrite take_app_length.
Qed.

Lemma drop_lower_bound m v :
  drop (lower_bound ltb m v) m = drop_while (λ x, ltb x v) m.
Proof.
  unfold lower_bound. rewrite <-(take_drop_while (λ x, ltb x v) m) at 2.
  by rewrite drop_app_length.
Qed.

Lemma lookup_lower_bound m v :
  m !! lower_bound ltb m v = head (drop_while (λ x, ltb x v) m).
Proof. by rewrite <-drop_lower_bound, head_lookup, lookup_drop, Nat.add_0_r. Qed.

(** An element is in a sorted vector iff the lower bound points to it. *)
Lemma ssorted_elem_lower_bound m v :
  ssorted ltb m →
  v ∈ m ↔ ∃ m', drop_while (λ x, ltb x v) m = v :: m'.
Proof.
  intros Hs. split.
  - intros Hv. rewrite (elem_of_take_drop_while (λ x, ltb x v)) in Hv.
    destruct Hv as [Hv%take_while_elem|Hv]; [by rewrite ltb_irrefl in Hv|].
    destruct (drop_while _ m) as [|z m'] eqn:E; [by apply elem_of_nil in Hv|].
    exists m'. f_equal. pose proof (drop_while_head _ _ _ _ E) as Hz. simpl in Hz.
    rewrite elem_of_cons in Hv. destruct Hv as [->|Hv]; [done|].
    rewrite <-(take_drop_while (λ x, ltb x v) m), E in Hs.
    apply ssorted_app in Hs as (_ & [_ Hzv]%ssorted_cons & _).
    by rewrite (Hzv v Hv) in Hz.
  - intros [m' E]. rewrite (elem_of_take_drop_while (λ x, ltb x v)), E.
    right. by left.
Qed.

Lemma set_mem_spec m v : ssorted ltb m → set_mem ltb m v = true ↔ v ∈ m.
Proof.
  intros Hs. rewrite ssorted_elem_lower_bound by done. unfold set_mem.
  rewrite lookup_lower_bound.
  destruct (drop_while _ m) as [|z m'] eqn:E; simpl; [naive_solver|].
  pose proof (drop_while_head _ _ _ _ E) as Hz. simpl in Hz.
  destruct (ltbP v z) as [H|H|H]; simpl.
  - split; [done|]. intros [? [= -> _]]. by rewrite ltb_irrefl in H.
  - subst. naive_solver.
  - congruence.
Qed.

Lemma ssorted_insert_at m v :
  ssorted ltb m → v ∉ m →
  ssorted ltb (take_while (λ x, ltb x v) m ++ v :: drop_while (λ x, ltb x v) m).
Proof.
  intros Hs Hv. pose proof Hs as Hs'.
  rewrite <-(take_drop_while (λ x, ltb x v) m) in Hs.
  apply ssorted_app in Hs as (H1 & H2 & H12).
  apply ssorted_app. split; [done|]. split.
  - apply ssorted_cons. split; [done|]. intros y Hy.
    pose proof (ssorted_drop_while _ _ _ Hs' Hy) as Hyv.
    destruct (ltbP v y) as [| ->|]; [done| |congruence].
    destruct Hv. apply (elem_of_take_drop_while (λ x, ltb x y)). by right.
  - intros x y Hx. rewrite elem_of_cons. intros [->|Hy]; [|by auto].
    by apply take_while_elem in Hx.
Qed.
(** *** The operations, one membership and one order lemma each *)

Lemma elem_of_set_insert m v x :
  ssorted ltb m → x ∈ (set_insert ltb m v).1 ↔ x = v ∨ x ∈ m.
Proof.
  intros Hs. pose proof (ssorted_elem_lower_bound m v Hs) as Hv.
  unfold set_insert. rewrite lookup_lower_bound, take_lower_bound, drop_lower_bound.
  assert (x ∈ take_while (λ x, ltb x v) m ++ v :: drop_while (λ x, ltb x v) m ↔
          x = v ∨ x ∈ m) as Hins.
  { rewrite elem_of_app, elem_of_cons, (elem_of_take_drop_while (λ x, ltb x v) m).
    tauto. }
  destruct (drop_while _ m) as [|z m'] eqn:E; simpl; [done|].
  pose proof (drop_while_head _ _ _ _ E) as Hz. simpl in Hz.
  destruct (ltbP v z) as [H| -> |H]; simpl; [done| |congruence].
  split; [by right|]. intros [->|?]; [|done]. apply Hv. by eexists.
Qed.

Lemma set_insert_sorted m v :
  ssorted ltb m → ssorted ltb (set_insert ltb m v).1.
Proof.
  intros Hs. pose proof (ssorted_elem_lower_bound m v Hs) as Hv.
  pose proof (ssorted_insert_at m v Hs) as Hins.
  unfold set_insert. rewrite lookup_lower_bound, take_lower_bound, drop_lower_bound.
  destruct (drop_while _ m) as [|z m'] eqn:E; simpl.
  - apply Hins. rewrite Hv. naive_solver.
  - destruct (ltbP v z) as [H| -> |H]; simpl; [|done|done].
    apply Hins. rewrite Hv. intros [? [= -> _]]. by rewrite ltb_irrefl in H.
Qed.

(** The flag tells whether the element is new, the iterator points to it. *)
Lemma set_insert_result m v :
  ssorted ltb m →
  let r := set_insert ltb m v in
  r.1 !! r.2.1 = Some v ∧ (r.2.2 = true ↔ v ∉ m).
Proof.
  intros Hs. pose proof (ssorted_elem_lower_bound m v Hs) as Hv.
  pose proof (lookup_lower_bound m v) as Hl. unfold set_insert.
  assert ((take (lower_bound ltb m v) m ++ v :: drop (lower_bound ltb m v) m)
            !! lower_bound ltb m v = Some v) as Hat.
  { rewrite take_lower_bound. by apply list_lookup_middle. }
  rewrite Hl in *.
  destruct (drop_while _ m) as [|z m'] eqn:E; simpl in *.
  - split; [done|]. rewrite Hv. naive_solver.
  - pose proof (drop_while_head _ _ _ _ E) as Hz. simpl in Hz.
    destruct (ltbP v z) as [H| -> |H]; simpl; [| |congruence].
    + split; [done|]. rewrite Hv. split; [|done]. intros _ [? [= -> _]].
      by rewrite ltb_irrefl in H.
    + split; [done|]. split; [done|]. intros []. apply Hv. by eexists.
Qed.

Lemma set_remove_sublist m v : sublist (set_remove ltb m v).1 m.
Proof.
  unfold set_remove. destruct (m !! lower_bound ltb m v) as [x|] eqn:E; [|done].
  case_match; simpl; [|done].
  set (i := lower_bound ltb m v) in *. clearbody i.
  pose proof (take_drop_middle m _ x E) as Hm.
  trans (take i m ++ x :: drop (S i) m); [|by rewrite Hm].
  apply sublist_app; [done|]. by constructor.
Qed.

Lemma elem_of_set_remove m v x :
  ssorted ltb m → x ∈ (set_remove ltb m v).1 ↔ x ∈ m ∧ x ≠ v.
Proof.
  intros Hs. pose proof (ssorted_elem_lower_bound m v Hs) as Hv.
  unfold set_remove. rewrite take_lower_bound, lookup_lower_bound.
  replace (drop (S (lower_bound ltb m v)) m)
    with (drop 1 (drop_while (λ x, ltb x v) m))
    by (rewrite <-drop_lower_bound, drop_drop; f_equal; lia).
  destruct (drop_while _ m) as [|z m'] eqn:E; simpl.
  { split; [|naive_solver]. intros Hx. split; [done|]. intros ->. naive_solver. }
  pose proof (drop_while_head _ _ _ _ E) as Hz. simpl in Hz.
  destruct (ltbP v z) as [H| -> |H]; simpl; [| |congruence].
  - split; [|naive_solver]. intros Hx. split; [done|]. intros ->.
    apply Hv in Hx as [? [= -> _]]. by rewrite ltb_irrefl in H.
  - pose proof Hs as Hnd%ssorted_NoDup.
    rewrite <-(take_drop_while (λ x, ltb x z) m), E in Hnd.
    rewrite (elem_of_take_drop_while (λ x, ltb x z) m x), E.
    rewrite !elem_of_app, elem_of_cons, drop_0.
    apply NoDup_app in Hnd as (_ & H1 & [H2 _]%NoDup_cons).
    split; [|naive_solver]. intros [Hx|Hx].
    + split; [by left|]. intros ->. apply (H1 _ Hx). by left.
    + split; [by right; right|]. by intros ->.
Qed.

Lemma set_intersect_sublist m o : sublist (set_intersect ltb m o) m.
Proof.
  revert o. induction m as [|x m IHm]; intros o; [by destruct o|].
  induction o as [|y o IHo]; simpl; [apply sublist_nil_l|].
  destruct (ltb x y), (ltb y x); simpl; auto using sublist_cons, sublist_skip.
Qed.

Lemma set_and_sublist m o : sublist (set_and ltb m o) m.
Proof.
  revert o. induction m as [|x m IHm]; intros o; [by destruct o|].
  induction o as [|y o IHo]; simpl; [apply sublist_nil_l|].
  destruct (ltb x y), (ltb y x); simpl; auto using sublist_cons, sublist_skip.
Qed.

Lemma minus_loop_sublist m o : sublist (minus_loop ltb m o) m.
Proof.
  revert o. induction m as [|x m IHm]; intros o; [by destruct o|].
  induction o as [|y o IHo]; simpl; [done|].
  destruct (ltb x y), (ltb y x); simpl; auto using sublist_cons, sublist_skip.
Qed.

(** An element of one of two sorted vectors that is below the head of the
    other one is not in that other one. *)
Lemma ssorted_below x y m :
  ssorted ltb (y :: m) → ltb x y = true → x ∉ y :: m.
Proof.
  rewrite ssorted_cons. intros [_ Hy] Hxy. rewrite elem_of_cons. intros [->|Hin].
  - by rewrite ltb_irrefl in Hxy.
  - pose proof (ltb_trans _ _ _ Hxy (Hy _ Hin)) as H. by rewrite ltb_irrefl in H.
Qed.

Lemma elem_of_set_intersect m o x :
  ssorted ltb m → ssorted ltb o → x ∈ set_intersect ltb m o ↔ x ∈ m ∧ x ∈ o.
Proof.
  revert o. induction m as [|a m IHm]; intros o Hm Ho.
  { destruct o; simpl; rewrite elem_of_nil; naive_solver. }
  induction o as [|b o IHo]; simpl; [rewrite elem_of_nil; naive_solver|].
  pose proof (ssorted_below a b o Ho) as Hab.
  pose proof (ssorted_below b a m Hm) as Hba.
  pose proof Hm as [Hm' Ham]%ssorted_cons. pose proof Ho as [Ho' Hbo]%ssorted_cons.
  destruct (ltbP a b) as [H| -> |H]; simpl.
  - rewrite IHm by done. set_solver.
  - rewrite elem_of_cons, IHm by done. rewrite !elem_of_cons.
    naive_solver.
  - rewrite IHo by done. set_solver.
Qed.

Lemma elem_of_set_and m o x :
  ssorted ltb m → ssorted ltb o → x ∈ set_and ltb m o ↔ x ∈ m ∧ x ∈ o.
Proof.
  revert o. induction m as [|a m IHm]; intros o Hm Ho.
  { destruct o; simpl; rewrite elem_of_nil; naive_solver. }
  induction o as [|b o IHo]; simpl; [rewrite elem_of_nil; naive_solver|].
  pose proof (ssorted_below a b o Ho) as Hab.
  pose proof (ssorted_below b a m Hm) as Hba.
  pose proof Hm as [Hm' Ham]%ssorted_cons. pose proof Ho as [Ho' Hbo]%ssorted_cons.
  destruct (ltbP a b) as [H| -> |H]; simpl.
  - rewrite IHm by done. set_solver.
  - rewrite elem_of_cons, IHm by done. rewrite !elem_of_cons.
    naive_solver.
  - rewrite IHo by done. set_solver.
Qed.

Lemma elem_of_minus_loop m o x :
  ssorted ltb m → ssorted ltb o → x ∈ minus_loop ltb m o ↔ x ∈ m ∧ x ∉ o.
Proof.
  revert o. induction m as [|a m IHm]; intros o Hm Ho.
  { destruct o; simpl; rewrite elem_of_nil; naive_solver. }
  induction o as [|b o IHo]; simpl; [set_solver|].
  pose proof (ssorted_below a b o Ho) as Hab.
  pose proof (ssorted_below b a m Hm) as Hba.
  pose proof Hm as [Hm' Ham]%ssorted_cons. pose proof Ho as [Ho' Hbo]%ssorted_cons.
  assert (a ∉ m) by (intros Hin; pose proof (Ham _ Hin) as Hc;
    by rewrite ltb_irrefl in Hc).
  destruct (ltbP a b) as [H1| -> |H1]; simpl.
  - rewrite elem_of_cons, IHm by done. set_solver.
  - rewrite IHm by done. set_solver.
  - rewrite IHo by done. set_solver.
Qed.

Lemma set_contains_spec m o :
  ssorted ltb m → ssorted ltb o → set_contains ltb m o = true ↔ o ⊆ m.
Proof.
  revert o. induction m as [|a m IHm]; intros o Hm Ho.
  { destruct o as [|b o]; simpl; [naive_solver|]. split; [done|].
    intros H. by destruct (not_elem_of_nil b); apply H; left. }
  destruct o as [|b o]; simpl.
  { split; [|done]. intros _ x. by rewrite elem_of_nil. }
  pose proof (ssorted_below a b o Ho) as Hab.
  pose proof (ssorted_below b a m Hm) as Hba.
  pose proof Hm as [Hm' Ham]%ssorted_cons. pose proof Ho as [Ho' Hbo]%ssorted_cons.
  destruct (ltbP b a) as [H1| -> |H1]; simpl.
  - split; [done|]. intros H. destruct (Hba eq_refl). apply H. by left.
  - rewrite IHm by done. split; [set_solver|].
    intros H x Hx. specialize (Hbo x Hx).
    assert (x ∈ a :: m) as [->|?]%elem_of_cons by (apply H; by right); [|done].
    by rewrite ltb_irrefl in Hbo.
  - rewrite IHm by done. split; [set_solver|].
    intros H x Hx. assert (x ∈ a :: m) as [->|?]%elem_of_cons by auto; [|done].
    by destruct (Hab eq_refl).
Qed.

Lemma set_intersects_spec m o :
  ssorted ltb m → ssorted ltb o →
  set_intersects ltb m o = true ↔ ∃ x, x ∈ m ∧ x ∈ o.
Proof.
  intros Hm Ho. transitivity (∃ x, x ∈ set_and ltb m o).
  { clear Hm Ho. revert o. induction m as [|a m IHm]; intros o.
    { destruct o; simpl; set_solver. }
    induction o as [|b o IHo]; simpl; [set_solver|].
    destruct (ltb a b); [done|]. destruct (ltb b a); [done|]. set_solver. }
  by setoid_rewrite elem_of_set_and.
Qed.
(** One round of the loops that keep a lower bound: what precedes the bound is
    below [y], what follows is not. *)
Lemma ssorted_split_at m y :
  ssorted ltb m →
  ssorted ltb (take_while (λ x, ltb x y) m) ∧
  ssorted ltb (drop_while (λ x, ltb x y) m) ∧
  (∀ x, x ∈ take_while (λ x, ltb x y) m → ltb x y = true) ∧
  (∀ x, x ∈ drop_while (λ x, ltb x y) m → ltb x y = false).
Proof.
  intros Hs. pose proof Hs as Hs'.
  rewrite <-(take_drop_while (λ x, ltb x y) m) in Hs.
  apply ssorted_app in Hs as (H1 & H2 & _).
  split; [done|]. split; [done|]. split; [by intros x ?%take_while_elem|].
  intros x. by apply ssorted_drop_while.
Qed.

Lemma elem_of_unite_loop m o x :
  ssorted ltb m → ssorted ltb o → x ∈ unite_loop ltb m o ↔ x ∈ m ∨ x ∈ o.
Proof.
  revert m. induction o as [|y o IH]; intros m Hm Ho; simpl; [set_solver|].
  pose proof (ssorted_split_at m y Hm) as (_ & Hd & _ & _).
  pose proof Ho as [Ho' _]%ssorted_cons.
  rewrite (elem_of_take_drop_while (λ x, ltb x y) m x), elem_of_app.
  destruct (drop_while _ m) as [|z m'] eqn:E; [set_solver|].
  pose proof (drop_while_head _ _ _ _ E) as Hz. simpl in Hz.
  destruct (ltbP y z) as [H| -> |H]; [| |congruence].
  - rewrite IH; [set_solver| |done]. apply ssorted_cons. split; [done|].
    apply ssorted_cons in Hd as [_ Hzm]. intros w [->|Hw]%elem_of_cons; [done|].
    by eapply ltb_trans, Hzm.
  - rewrite IH by done. set_solver.
Qed.

Lemma unite_loop_sorted m o :
  ssorted ltb m → ssorted ltb o → ssorted ltb (unite_loop ltb m o).
Proof.
  revert m. induction o as [|y o IH]; intros m Hm Ho; simpl; [done|].
  pose proof (ssorted_split_at m y Hm) as (Ht & Hd & Hty & _).
  pose proof Ho as [Ho' Hyo]%ssorted_cons.
  assert (∀ R, ssorted ltb R → (∀ w, w ∈ R → w = y ∨ ltb y w = true) →
    ssorted ltb (take_while (λ x, ltb x y) m ++ R)) as Hglue.
  { intros R HR Hw. apply ssorted_app. split; [done|]. split; [done|].
    intros x w Hx [->|?]%Hw; [by auto|]. eapply ltb_trans; eauto. }
  destruct (drop_while _ m) as [|z m'] eqn:E.
  { apply Hglue; [done|]. set_solver. }
  pose proof (drop_while_head _ _ _ _ E) as Hz. simpl in Hz.
  pose proof Hd as [Hm' Hzm]%ssorted_cons.
  destruct (ltbP y z) as [H| -> |H]; [| |congruence]; apply Hglue.
  - apply IH; [|done]. apply ssorted_cons. split; [done|].
    intros w [->|Hw]%elem_of_cons; [done|]. by eapply ltb_trans, Hzm.
  - intros w. rewrite elem_of_unite_loop; [|apply ssorted_cons|done].
    + rewrite !elem_of_cons. intros [[?|[->|?]]|?]; eauto using ltb_trans.
    + split; [done|]. intros w' [->|Hw]%elem_of_cons; eauto using ltb_trans.
  - by apply IH.
  - intros w. rewrite elem_of_unite_loop by done.
    rewrite elem_of_cons. intros [[?|?]|?]; auto.
Qed.

Lemma subtract_loop_sublist m o : sublist (subtract_loop ltb m o) m.
Proof.
  revert m. induction o as [|y o IH]; intros m; simpl; [done|].
  trans (take_while (λ x, ltb x y) m ++ drop_while (λ x, ltb x y) m);
    [|by rewrite take_drop_while].
  apply sublist_app; [done|]. destruct (drop_while _ m) as [|z m']; [done|].
  case_match; auto using sublist_cons.
Qed.

Lemma elem_of_subtract_loop m o x :
  ssorted ltb m → ssorted ltb o → x ∈ subtract_loop ltb m o ↔ x ∈ m ∧ x ∉ o.
Proof.
  revert m. induction o as [|y o IH]; intros m Hm Ho; simpl; [set_solver|].
  pose proof (ssorted_split_at m y Hm) as (Ht & Hd & Hty & Hdy).
  pose proof Ho as [Ho' Hyo]%ssorted_cons.
  assert (∀ w, w ∈ take_while (λ x, ltb x y) m → w ∉ y :: o) as Hto.
  { intros w Hw. by apply ssorted_below, Hty. }
  rewrite (elem_of_take_drop_while (λ x, ltb x y) m x), elem_of_app.
  destruct (drop_while _ m) as [|z m'] eqn:E; [set_solver|].
  pose proof (Hdy z ltac:(by left)) as Hz. pose proof Hd as [Hm' Hzm]%ssorted_cons.
  destruct (ltbP y z) as [H| -> |H]; [| |congruence]; simpl.
  - rewrite IH by done. assert (∀ w, w ∈ z :: m' → w ≠ y) as Hne; [|set_solver].
    intros w Hw ->. by destruct (ssorted_below y z m' Hd H).
  - rewrite IH by done. assert (∀ w, w ∈ m' → w ≠ z) as Hne; [|set_solver].
    intros w Hw ->. specialize (Hzm z Hw). by rewrite ltb_irrefl in Hzm.
Qed.

Lemma unique_from_spec x m :
  StronglySorted (λ x y, ltb y x = false) (x :: m) →
  ssorted ltb (unique_from x m) ∧ ∀ y, y ∈ unique_from x m ↔ y ∈ x :: m.
Proof.
  revert x. induction m as [|z m IH]; intros x; simpl.
  { intros _. split; [|done]. apply ssorted_cons. split; [constructor|].
    by intros y ?%elem_of_nil. }
  inversion_clear 1 as [|? ? Hzm Hx]. case_bool_decide as E.
  - subst z. destruct (IH x Hzm) as [IH1 IH2]. split; [done|]. set_solver.
  - destruct (IH z Hzm) as [IH1 IH2]. split; [|set_solver].
    apply ssorted_cons. split; [done|]. intros y. rewrite IH2.
    rewrite Forall_forall in Hx. inversion_clear Hzm as [|? ? _ Hz].
    rewrite Forall_forall in Hz.
    assert (ltb x z = true) as Hxz.
    { pose proof (Hx z ltac:(by left)) as Hzx. by destruct (ltbP x z). }
    intros [->|Hy]%elem_of_cons; [done|]. specialize (Hz y Hy).
    destruct (ltbP z y) as [H| -> |H]; [|done|congruence].
    by eapply ltb_trans.
Qed.

Lemma set_of_list_spec m :
  ssorted ltb (set_of_list ltb m) ∧ ∀ y, y ∈ set_of_list ltb m ↔ y ∈ m.
Proof.
  unfold set_of_list, unique. pose proof (std_sort_sorted ltb m) as Hs.
  pose proof (std_sort_perm ltb m) as Hp.
  destruct (std_sort ltb m) as [|x l].
  - split; [apply ssorted_nil|]. intros y. by rewrite <-Hp.
  - apply unique_from_spec in Hs as [H1 H2]. split; [done|].
    intros y. by rewrite H2, Hp.
Qed.

Lemma set_of_range_sorted m : ssorted ltb (set_of_range ltb m) ↔ NoDup m.
Proof.
  unfold set_of_range. split.
  - intros H%ssorted_NoDup. by rewrite std_sort_perm in H.
  - intros Hnd0. assert (NoDup (std_sort ltb m)) as Hnd1 by by rewrite std_sort_perm.
    clear Hnd0. revert Hnd1. pose proof (std_sort_sorted ltb m) as Hs.
    induction Hs as [|x l Hs IH Hx]; [intros _; apply ssorted_nil|].
    intros [Hni Hnd]%NoDup_cons. apply ssorted_cons. split; [by auto|].
    intros y Hy. rewrite Forall_forall in Hx. specialize (Hx y Hy).
    by destruct (ltbP x y) as [| ->|].
Qed.

(** The whole-set operations keep the invariant; the ones that do not add
    elements only remove some. *)
Lemma set_unite_sorted m o :
  ssorted ltb m → ssorted ltb o → ssorted ltb (set_unite ltb m o).
Proof. unfold set_unite. destruct o, m; auto using unite_loop_sorted. Qed.

Lemma elem_of_set_unite m o x :
  ssorted ltb m → ssorted ltb o → x ∈ set_unite ltb m o ↔ x ∈ m ∨ x ∈ o.
Proof.
  intros Hm Ho. unfold set_unite.
  destruct o as [|b o]; [set_solver|]. destruct m as [|a m]; [set_solver|].
  by apply elem_of_unite_loop.
Qed.

Lemma elem_of_set_subtract m o x :
  ssorted ltb m → ssorted ltb o → x ∈ set_subtract ltb m o ↔ x ∈ m ∧ x ∉ o.
Proof.
  intros Hm Ho. unfold set_subtract.
  destruct m as [|a m]; [set_solver|]. destruct o as [|b o]; [set_solver|].
  by apply elem_of_subtract_loop.
Qed.

Lemma set_subtract_sublist m o : sublist (set_subtract ltb m o) m.
Proof.
  unfold set_subtract. destruct m, o; try done. apply subtract_loop_sublist.
Qed.

Lemma elem_of_set_minus m o x :
  ssorted ltb m → ssorted ltb o → x ∈ set_minus ltb m o ↔ x ∈ m ∧ x ∉ o.
Proof.
  intros Hm Ho. unfold set_minus.
  destruct m as [|a m]; [set_solver|]. destruct o as [|b o]; [set_solver|].
  by apply elem_of_minus_loop.
Qed.

Lemma set_minus_sublist m o : sublist (set_minus ltb m o) m.
Proof. unfold set_minus. destruct m, o; try done. apply minus_loop_sublist. Qed.

Lemma set_insert_sorted_remove m v :
  ssorted ltb m → ssorted ltb (set_remove ltb m v).1.
Proof. apply ssorted_sublist, set_remove_sublist. Qed.

Lemma set_remove_removed m v : ssorted ltb m → (set_remove ltb m v).2 = true ↔ v ∈ m.
Proof.
  intros Hm. rewrite <-(set_mem_spec m v Hm). unfold set_remove, set_mem.
  destruct (m !! _) as [x|]; [|done]. by destruct (ltb v x).
Qed.
End Facts.

Create HintDb flatset.
#[export] Hint Resolve ssorted_nil set_insert_sorted set_insert_sorted_remove
  set_unite_sorted : flatset.
#[export] Hint Resolve set_intersect_sublist set_and_sublist set_minus_sublist
  set_subtract_sublist set_remove_sublist : flatset.

(** ** Refinement of finite sets

    The abstract set a vector stands for. *)
Definition abs {T} `{Countable T} (m : list T) : gset T := list_to_set m.

Section Theorems.
Context {T : Type} `{Countable T} {ltb : T → T → bool} {O : StrictOrderB ltb}.

Implicit Types (m o : list T).

Lemma elem_of_abs m x : x ∈ abs m ↔ x ∈ m.
Proof. apply elem_of_list_to_set. Qed.

Lemma abs_eq m (X : gset T) : (∀ x, x ∈ m ↔ x ∈ X) → abs m = X.
Proof. intros Hm. apply set_eq. intros x. by rewrite elem_of_abs. Qed.

(** C40: Refinement of the set algebra of [Set<T>]: on sorted vectors, [unite]
    (and [+], [|]), [intersect], [operator&], [operator-] and [subtract] compute
    the union, intersection and difference of the represented sets, and every
    result is again a strictly sorted vector. *)
Theorem set_algebra_refines m o :
  ssorted ltb m → ssorted ltb o →
  (abs (set_plus ltb m o) = abs m ∪ abs o ∧ ssorted ltb (set_plus ltb m o)) ∧
  (abs (set_intersect ltb m o) = abs m ∩ abs o ∧ ssorted ltb (set_intersect ltb m o)) ∧
  (abs (set_and ltb m o) = abs m ∩ abs o ∧ ssorted ltb (set_and ltb m o)) ∧
  (abs (set_minus ltb m o) = abs m ∖ abs o ∧ ssorted ltb (set_minus ltb m o)) ∧
  (abs (set_subtract ltb m o) = abs m ∖ abs o ∧ ssorted ltb (set_subtract ltb m o)).
Proof.
  intros Hm Ho. split_and!; try (apply abs_eq; intros x;
    rewrite ?elem_of_union, ?elem_of_intersection, ?elem_of_difference, !elem_of_abs).
  - by apply elem_of_set_unite.
  - by apply set_unite_sorted.
  - by apply elem_of_set_intersect.
  - eapply ssorted_sublist, Hm. auto with flatset.
  - by apply elem_of_set_and.
  - eapply ssorted_sublist, Hm. auto with flatset.
  - by apply elem_of_set_minus.
  - eapply ssorted_sublist, Hm. auto with flatset.
  - by apply elem_of_set_subtract.
  - eapply ssorted_sublist, Hm. auto with flatset.
Qed.

(** [insert] and [remove] on a sorted vector: the represented set gains or
    loses exactly the element, the vector stays sorted, [insert]'s iterator
    points to the element and both flags tell whether the set changed. *)
Theorem set_insert_remove_correct m v :
  ssorted ltb m →
  let i := set_insert ltb m v in
  let r := set_remove ltb m v in
  (abs i.1 = {[v]} ∪ abs m ∧ ssorted ltb i.1 ∧ i.1 !! i.2.1 = Some v ∧
    (i.2.2 = true ↔ v ∉ m)) ∧
  (abs r.1 = abs m ∖ {[v]} ∧ ssorted ltb r.1 ∧ (r.2 = true ↔ v ∈ m)).
Proof.
  intros Hm i r. destruct (set_insert_result m v Hm) as [Hi1 Hi2].
  split_and!; try done.
  - apply abs_eq. intros x. unfold i.
    rewrite elem_of_set_insert, elem_of_union, elem_of_singleton, elem_of_abs;
      [done|done].
  - by apply set_insert_sorted.
  - apply abs_eq. intros x. unfold r.
    rewrite elem_of_set_remove, elem_of_difference, elem_of_singleton, elem_of_abs;
      [done|done].
  - by apply set_insert_sorted_remove.
  - by apply set_remove_removed.
Qed.

(** The queries on sorted vectors: [contains] of an element decides
    membership, [contains] of a set decides inclusion and [intersects] decides
    whether the intersection is inhabited. *)
Theorem set_queries_correct m o v :
  ssorted ltb m → ssorted ltb o →
  (set_mem ltb m v = true ↔ v ∈ abs m) ∧
  (set_contains ltb m o = true ↔ abs o ⊆ abs m) ∧
  (set_intersects ltb m o = true ↔ abs m ∩ abs o ≠ ∅).
Proof.
  intros Hm Ho. split_and!.
  - by rewrite elem_of_abs, set_mem_spec.
  - rewrite set_contains_spec by done. unfold subseteq, set_subseteq_instance.
    by setoid_rewrite elem_of_abs.
  - rewrite set_intersects_spec by done. split.
    + intros (x & Hx1 & Hx2) Hempty. apply (not_elem_of_empty (C := gset T) x).
      by rewrite <-Hempty, elem_of_intersection, !elem_of_abs.
    + intros [x Hx]%set_choose_L. exists x.
      by rewrite elem_of_intersection, !elem_of_abs in Hx.
Qed.

(** The two constructors.  The one from an initializer list establishes the
    invariant for every list and represents its elements; the one from an
    iterator range sorts but does not remove duplicates, so it establishes the
    invariant exactly for the ranges without duplicates, and after [remove] of
    an element that occurred twice the set still contains it. *)
Theorem set_constructors m v :
  (ssorted ltb (set_of_list ltb m) ∧ abs (set_of_list ltb m) = abs m) ∧
  (ssorted ltb (set_of_range ltb m) ↔ NoDup m) ∧
  abs (set_of_range ltb m) = abs m ∧
  set_mem ltb (set_remove ltb (set_of_range ltb [v; v]) v).1 v = true.
Proof.
  destruct (set_of_list_spec m) as [H1 H2]. split_and!; [done| | | |].
  - apply abs_eq. intros x. by rewrite H2, elem_of_abs.
  - apply set_of_range_sorted.
  - apply abs_eq. intros x. unfold set_of_range.
    by rewrite std_sort_perm, elem_of_abs.
  - unfold set_of_range, set_remove, set_mem, lower_bound.
    repeat (simpl; rewrite ltb_irrefl). done.
Qed.
End Theorems.

(** *** The theorems at concrete sets of numbers *)

Lemma ssorted_nat_check (m : list nat) :
  bool_decide (Sorted Nat.lt m) = true → ssorted Nat.ltb m.
Proof.
  rewrite bool_decide_eq_true. intros Hs%Sorted_StronglySorted.
  - unfold ssorted. induction Hs; constructor; [done|].
    eapply Forall_impl; [done|]. intros y. by rewrite Nat.ltb_lt.
  - intros ???. lia.
Qed.

Lemma set_algebra_refines_witness :
  abs (set_plus Nat.ltb [1; 3; 5] [2; 3; 9]) = abs [1; 3; 5] ∪ abs [2; 3; 9] ∧
  set_plus Nat.ltb [1; 3; 5] [2; 3; 9] = [1; 2; 3; 5; 9].
Proof.
  split; [|by vm_compute].
  refine (proj1 (proj1 (set_algebra_refines (ltb := Nat.ltb)
    [1; 3; 5] [2; 3; 9] _ _))); by apply ssorted_nat_check.
Defined.

Lemma set_insert_remove_correct_witness :
  abs (set_insert Nat.ltb [1; 5] 3).1 = {[3]} ∪ abs [1; 5] ∧
  set_remove Nat.ltb [1; 5] 5 = ([1], true).
Proof.
  split; [|by vm_compute].
  refine (proj1 (proj1 (set_insert_remove_correct (ltb := Nat.ltb) [1; 5] 3 _))).
  by apply ssorted_nat_check.
Defined.

Lemma set_queries_correct_witness :
  (set_contains Nat.ltb [1; 2; 5] [2; 5] = true ↔ abs [2; 5] ⊆ abs [1; 2; 5]) ∧
  set_contains Nat.ltb [1; 2; 5] [2; 5] = true.
Proof.
  split; [|by vm_compute].
  refine (proj1 (proj2 (set_queries_correct (ltb := Nat.ltb) [1; 2; 5] [2; 5] 2 _ _)));
    by apply ssorted_nat_check.
Defined.

Lemma set_constructors_witness :
  ¬ ssorted Nat.ltb (set_of_range Nat.ltb [2; 1; 2]) ∧
  ssorted Nat.ltb (set_of_list Nat.ltb [2; 1; 2]).
Proof.
  split.
  - intros H. cut (NoDup [2; 1; 2]); [by apply (bool_decide_eq_false_1 (NoDup [2; 1; 2]))|].
    refine (proj1 (proj1 (proj2 (set_constructors (ltb := Nat.ltb) [2; 1; 2] 0))) H).
  - refine (proj1 (proj1 (set_constructors (ltb := Nat.ltb) [2; 1; 2] 0))).
Defined.
