(* ===== verification/PcPackage.v ===== *)
(** * Packages of the pkg-config library ([lib/pkgconfig/pcpackage.h], [.cpp])

    The data types of a parsed [.pc] file, the printing and parsing of their
    enumerations and the two transformations applied to a package. *)

From S2P Require Import Prelude.

Module Flag.

(** [PcPackage::Flag::Type], a bit per flag kind. *)
Inductive Type_ : Set :=
  | LibraryName | StaticLibraryName | LibraryPath | Framework | FrameworkPath
  | LinkerFlag | IncludePath | SystemIncludePath | DirAfterIncludePath | Define
  | CompilerFlag.

Definition to_bit (t : Type_) : Z :=
  match t with
  | LibraryName => Z.shiftl 1 0
  | StaticLibraryName => Z.shiftl 1 1
  | LibraryPath => Z.shiftl 1 2
  | Framework => Z.shiftl 1 3
  | FrameworkPath => Z.shiftl 1 4
  | LinkerFlag => Z.shiftl 1 5
  | IncludePath => Z.shiftl 1 6
  | SystemIncludePath => Z.shiftl 1 7
  | DirAfterIncludePath => Z.shiftl 1 8
  | Define => Z.shiftl 1 9
  | CompilerFlag => Z.shiftl 1 10
  end.

Record t : Set := mk { type : Type_; value : list ascii }.

#[global] Instance type_eq_dec : EqDecision Type_.
Proof. solve_decision. Defined.

#[global] Instance eq_dec : EqDecision t.
Proof. solve_decision. Defined.

Definition typeToString (ty : Type_) : str :=
  match ty with
  | LibraryName => "LibraryName"
  | StaticLibraryName => "StaticLibraryName"
  | LibraryPath => "LibraryPath"
  | Framework => "Framework"
  | FrameworkPath => "FrameworkPath"
  | LinkerFlag => "LinkerFlag"
  | IncludePath => "IncludePath"
  | SystemIncludePath => "SystemIncludePath"
  | DirAfterIncludePath => "DirAfterIncludePath"
  | Define => "Define"
  | CompilerFlag => "CompilerFlag"
  end.

Definition typeFromString (s : str) : option Type_ :=
  if bool_decide (s = "LibraryName") then Some LibraryName
  else if bool_decide (s = "StaticLibraryName") then Some StaticLibraryName
  else if bool_decide (s = "LibraryPath") then Some LibraryPath
  else if bool_decide (s = "Framework") then Some Framework
  else if bool_decide (s = "FrameworkPath") then Some FrameworkPath
  else if bool_decide (s = "LinkerFlag") then Some LinkerFlag
  else if bool_decide (s = "IncludePath") then Some IncludePath
  else if bool_decide (s = "SystemIncludePath") then Some SystemIncludePath
  else if bool_decide (s = "DirAfterIncludePath") then Some DirAfterIncludePath
  else if bool_decide (s = "Define") then Some Define
  else if bool_decide (s = "CompilerFlag") then Some CompilerFlag
  else None.
End Flag.

Module RequiredVersion.

Inductive ComparisonType : Set :=
  | LessThan | GreaterThan | LessThanEqual | GreaterThanEqual | Equal | NotEqual
  | AlwaysMatch.

Record t : Set := mk {
  name : list ascii;
  comparison : ComparisonType;
  version : list ascii
}.

#[global] Instance comparison_eq_dec : EqDecision ComparisonType.
Proof. solve_decision. Defined.

#[global] Instance eq_dec : EqDecision t.
Proof. solve_decision. Defined.

Definition comparisonToString (c : ComparisonType) : str :=
  match c with
  | LessThan => "LessThan"
  | GreaterThan => "GreaterThan"
  | LessThanEqual => "LessThanEqual"
  | GreaterThanEqual => "GreaterThanEqual"
  | Equal => "Equal"
  | NotEqual => "NotEqual"
  | AlwaysMatch => "AlwaysMatch"
  end.

Definition comparisonFromString (s : str) : option ComparisonType :=
  if bool_decide (s = "LessThan") then Some LessThan
  else if bool_decide (s = "GreaterThan") then Some GreaterThan
  else if bool_decide (s = "LessThanEqual") then Some LessThanEqual
  else if bool_decide (s = "GreaterThanEqual") then Some GreaterThanEqual
  else if bool_decide (s = "Equal") then Some Equal
  else if bool_decide (s = "NotEqual") then Some NotEqual
  else if bool_decide (s = "AlwaysMatch") then Some AlwaysMatch
  else None.
End RequiredVersion.

(** [class PcPackage] *)
Record PcPackage : Set := mkPcPackage {
  filePath : list ascii;
  baseFileName : list ascii;
  name : list ascii;
  version : list ascii;
  description : list ascii;
  url : list ascii;
  libs : list Flag.t;
  libsPrivate : list Flag.t;
  cflags : list Flag.t;
  requiresPublic : list RequiredVersion.t;
  requiresPrivate : list RequiredVersion.t;
  conflicts : list RequiredVersion.t;
  variables : gmap (list ascii) (list ascii);
  uninstalled : bool
}.

(** The default-constructed package. *)
Definition emptyPackage : PcPackage :=
  mkPcPackage [] [] [] [] [] [] [] [] [] [] [] [] ∅ false.

(** [class PcBrokenPackage] *)
Record PcBrokenPackage : Set := mkPcBrokenPackage {
  broken_filePath : list ascii;
  broken_baseFileName : list ascii;
  errorText : list ascii
}.

(** [class PcPackageVariant] *)
Inductive PcPackageVariant : Set :=
  | Valid (p : PcPackage)
  | Broken (b : PcBrokenPackage).

Definition isBroken (v : PcPackageVariant) : bool :=
  match v with Valid _ => false | Broken _ => true end.

Definition getBaseFileName (v : PcPackageVariant) : str :=
  match v with Valid p => baseFileName p | Broken b => broken_baseFileName b end.

(** Assignments to the members of a package. *)
Definition set_filePath x p := mkPcPackage x (baseFileName p) (name p) (version p)
  (description p) (url p) (libs p) (libsPrivate p) (cflags p) (requiresPublic p)
  (requiresPrivate p) (conflicts p) (variables p) (uninstalled p).
Definition set_baseFileName x p := mkPcPackage (filePath p) x (name p) (version p)
  (description p) (url p) (libs p) (libsPrivate p) (cflags p) (requiresPublic p)
  (requiresPrivate p) (conflicts p) (variables p) (uninstalled p).
Definition set_name x p := mkPcPackage (filePath p) (baseFileName p) x (version p)
  (description p) (url p) (libs p) (libsPrivate p) (cflags p) (requiresPublic p)
  (requiresPrivate p) (conflicts p) (variables p) (uninstalled p).
Definition set_version x p := mkPcPackage (filePath p) (baseFileName p) (name p) x
  (description p) (url p) (libs p) (libsPrivate p) (cflags p) (requiresPublic p)
  (requiresPrivate p) (conflicts p) (variables p) (uninstalled p).
Definition set_description x p := mkPcPackage (filePath p) (baseFileName p) (name p)
  (version p) x (url p) (libs p) (libsPrivate p) (cflags p) (requiresPublic p)
  (requiresPrivate p) (conflicts p) (variables p) (uninstalled p).
Definition set_url x p := mkPcPackage (filePath p) (baseFileName p) (name p)
  (version p) (description p) x (libs p) (libsPrivate p) (cflags p)
  (requiresPublic p) (requiresPrivate p) (conflicts p) (variables p) (uninstalled p).
Definition set_libs x p := mkPcPackage (filePath p) (baseFileName p) (name p)
  (version p) (description p) (url p) x (libsPrivate p) (cflags p)
  (requiresPublic p) (requiresPrivate p) (conflicts p) (variables p) (uninstalled p).
Definition set_libsPrivate x p := mkPcPackage (filePath p) (baseFileName p) (name p)
  (version p) (description p) (url p) (libs p) x (cflags p)
  (requiresPublic p) (requiresPrivate p) (conflicts p) (variables p) (uninstalled p).
Definition set_cflags x p := mkPcPackage (filePath p) (baseFileName p) (name p)
  (version p) (description p) (url p) (libs p) (libsPrivate p) x
  (requiresPublic p) (requiresPrivate p) (conflicts p) (variables p) (uninstalled p).
Definition set_requiresPublic x p := mkPcPackage (filePath p) (baseFileName p)
  (name p) (version p) (description p) (url p) (libs p) (libsPrivate p) (cflags p)
  x (requiresPrivate p) (conflicts p) (variables p) (uninstalled p).
Definition set_requiresPrivate x p := mkPcPackage (filePath p) (baseFileName p)
  (name p) (version p) (description p) (url p) (libs p) (libsPrivate p) (cflags p)
  (requiresPublic p) x (conflicts p) (variables p) (uninstalled p).
Definition set_conflicts x p := mkPcPackage (filePath p) (baseFileName p)
  (name p) (version p) (description p) (url p) (libs p) (libsPrivate p) (cflags p)
  (requiresPublic p) (requiresPrivate p) x (variables p) (uninstalled p).
Definition set_variables x p := mkPcPackage (filePath p) (baseFileName p)
  (name p) (version p) (description p) (url p) (libs p) (libsPrivate p) (cflags p)
  (requiresPublic p) (requiresPrivate p) (conflicts p) x (uninstalled p).

(** The lambda [doAppend] of [prependSysroot]. *)
Definition takesSysroot (ty : Flag.Type_) : bool :=
  match ty with
  | Flag.IncludePath | Flag.SystemIncludePath | Flag.DirAfterIncludePath
  | Flag.LibraryPath => true
  | _ => false
  end.

Definition doAppend (sysroot : str) (flags : list Flag.t) : list Flag.t :=
  if bool_decide (sysroot = []) then flags
  else map (λ f, if takesSysroot (Flag.type f)
                 then Flag.mk (Flag.type f) (sysroot ++ Flag.value f) else f) flags.

Definition prependSysroot (sysroot : str) (p : PcPackage) : PcPackage :=
  let p := set_libs (doAppend sysroot (libs p)) p in
  let p := set_libsPrivate (doAppend sysroot (libsPrivate p)) p in
  set_cflags (doAppend sysroot (cflags p)) p.

(** The lambda [doRemove] of [removeSystemLibraryPaths]. *)
Definition doRemove (libraryPaths : gset (list ascii)) (flags : list Flag.t) :
    list Flag.t :=
  filter (λ f, ¬ (Flag.type f = Flag.LibraryPath ∧ Flag.value f ∈ libraryPaths)) flags.

Definition removeSystemLibraryPaths (libraryPaths : gset (list ascii))
    (p : PcPackage) : PcPackage :=
  if bool_decide (libraryPaths = ∅) then p
  else
    let p := set_libs (doRemove libraryPaths (libs p)) p in
    set_libsPrivate (doRemove libraryPaths (libsPrivate p)) p.

(** ** Facts *)

Lemma typeFromString_to ty : Flag.typeFromString (Flag.typeToString ty) = Some ty.
Proof. by destruct ty. Qed.

Lemma comparisonFromString_to c :
  RequiredVersion.comparisonFromString (RequiredVersion.comparisonToString c) = Some c.
Proof. by destruct c. Qed.

Lemma typeFromString_Some s ty :
  Flag.typeFromString s = Some ty → s = Flag.typeToString ty.
Proof.
  unfold Flag.typeFromString. intros H.
  repeat (case_bool_decide; [by simplify_eq|]). done.
Qed.

Lemma comparisonFromString_Some s c :
  RequiredVersion.comparisonFromString s = Some c →
  s = RequiredVersion.comparisonToString c.
Proof.
  unfold RequiredVersion.comparisonFromString. intros H.
  repeat (case_bool_decide; [by simplify_eq|]). done.
Qed.

Module Flag_countable.
Definition flag_key (f : Flag.t) : list ascii * list ascii :=
  (Flag.typeToString (Flag.type f), Flag.value f).

Definition flag_unkey (k : list ascii * list ascii) : option Flag.t :=
  ty ← Flag.typeFromString k.1; Some (Flag.mk ty k.2).

Lemma flag_unkey_key f : flag_unkey (flag_key f) = Some f.
Proof. unfold flag_unkey. simpl. rewrite typeFromString_to. by destruct f. Qed.
End Flag_countable.

#[export] Instance flag_countable : Countable Flag.t :=
  inj_countable Flag_countable.flag_key Flag_countable.flag_unkey
    Flag_countable.flag_unkey_key.

(** The flag kinds and the version comparisons round-trip through their
    string forms, and a string that is not the form of any of them parses to
    nothing. *)
Theorem enum_strings_roundtrip s :
  (∀ ty, Flag.typeFromString s = Some ty ↔ s = Flag.typeToString ty) ∧
  (∀ c, RequiredVersion.comparisonFromString s = Some c ↔
        s = RequiredVersion.comparisonToString c).
Proof.
  split; intros x; (split; [|intros ->]).
  - apply typeFromString_Some.
  - apply typeFromString_to.
  - apply comparisonFromString_Some.
  - apply comparisonFromString_to.
Qed.
