(* ===== verification/PcParser.v ===== *)
(** * The [.pc] file parser ([lib/pkgconfig/pcparser.cpp])

    The string helpers, the field parsers and the line parser.  The parser asks
    its [PkgConfig] object for the value of a variable: that is the only thing it
    needs of it, and it is the class [VariableSource], which [PkgConfig.v]
    implements. *)

From S2P Require Import Prelude PcPackage.

(** [const PkgConfig &m_pkgConfig] *)
Class VariableSource := packageGetVariable : PcPackage → list ascii → list ascii.

(** ** String helpers *)

(** The loop of [readOneLine]; the file is what [ifstream::get] has not
    delivered yet.  The result is the returned flag, the line, and the rest of
    the file. *)
Fixpoint readOneLine_loop (file line : str) (quoted comment : bool) (n_read : Z) :
    bool * str * str :=
  match file with
  | [] => ((0 <? n_read)%Z, if quoted then line ++ [BACKSLASH] else line, [])
  | c :: file' =>
      let n_read := (n_read + 1)%Z in
      if c =c CR then readOneLine_loop file' line quoted comment (n_read - 1)
      else if quoted then
        if c =c "#" then readOneLine_loop file' (line ++ ["#"%char]) false comment n_read
        else if c =c LF then readOneLine_loop file' line false comment n_read
        else readOneLine_loop file' (line ++ [BACKSLASH; c]) false comment n_read
      else if c =c "#" then readOneLine_loop file' line quoted true n_read
      else if c =c BACKSLASH then
        readOneLine_loop file' line (negb comment) comment n_read
      else if c =c LF then ((0 <? n_read)%Z, line, file')
      else
        readOneLine_loop file' (if comment then line else line ++ [c]) quoted comment
          n_read
  end.

Definition readOneLine (file : str) : bool * str * str :=
  readOneLine_loop file [] false false 0.

Definition trimmed (s : str) : str :=
  let left := length (take_while isspace s) in
  let right := length s - length (take_while isspace (reverse s)) in
  if right <=? left then [] else take (right - left) (drop left s).

(** The loop of [splitCommand]; [None] is [std::nullopt]. *)
Fixpoint splitCommand_loop (s : str) (result : list str) (arg : str) (quote : char) :
    option (list str) :=
  match s with
  | [] => Some (if is_nil arg then result else result ++ [arg])
  | c :: s' =>
      if quote =c c then splitCommand_loop s' result arg NUL
      else if negb (quote =c NUL) then
        if c =c BACKSLASH then
          match s' with
          | [] => None
          | d :: s'' =>
              let arg := if negb (d =c quote) then arg ++ [BACKSLASH] else arg in
              splitCommand_loop s'' result (arg ++ [d]) quote
          end
        else splitCommand_loop s' result (arg ++ [c]) quote
      else if isspace c then
        if is_nil arg then splitCommand_loop s' result arg quote
        else splitCommand_loop s' (result ++ [arg]) [] quote
      else if (c =c DQUOTE) || (c =c SQUOTE) then splitCommand_loop s' result arg c
      else if c =c BACKSLASH then
        match s' with
        | [] => None
        | d :: s'' => splitCommand_loop s'' result (arg ++ [d]) quote
        end
      else splitCommand_loop s' result (arg ++ [c]) quote
  end.

Definition splitCommand (s : str) : option (list str) :=
  splitCommand_loop s [] [] NUL.

Definition startsWith (haystack needle : str) : bool :=
  (length needle <=? length haystack) &&
  bool_decide (take (length needle) haystack = needle).

Definition endsWith (haystack needle : str) : bool :=
  (length needle <=? length haystack) &&
  bool_decide (drop (length haystack - length needle) haystack = needle).

(** ** The exceptions

    A [PcException] is its message. *)

Definition quote_ : str := "'".

Definition unknownComparisonMessage (pkg : PcPackage) (verName comp : str) : str :=
  lit "Unknown version comparison operator '" ++ comp ++
  lit "' after package name '" ++ verName ++ lit "' in file '" ++ filePath pkg ++ quote_.

Definition duplicateFieldMessage (fieldName path : str) : str :=
  fieldName ++ lit " field occurs twice in '" ++ path ++ quote_.

Definition emptyPackageNameMessage (pkg : PcPackage) : str :=
  lit "Empty package name in Requires or Conflicts in file '" ++ filePath pkg ++ quote_.

Definition noVersionMessage (pkg : PcPackage) (verName : str) : str :=
  lit "Comparison operator but no version after package name '" ++ verName ++
  lit "' in file '" ++ filePath pkg ++ quote_.

Definition duplicateVariableMessage (pkg : PcPackage) (variable : str) : str :=
  lit "Duplicate definition of variable '" ++ variable ++ lit "' in '" ++ filePath pkg.

Definition undefinedVariableMessage (pkg : PcPackage) (variable : str) : str :=
  lit "Variable '" ++ variable ++ lit "' not defined in '" ++ filePath pkg.

(** ** Module lists *)

Definition isModuleSeparator (c : char) : bool := (c =c ",") || isspace c.
Definition isModuleOperator (c : char) : bool :=
  (c =c "<") || (c =c ">") || (c =c "!") || (c =c "=").

Inductive State : Set :=
  | OutsideModule | InModuleName | BeforeOperator | InOperator | AfterOperator
  | InModuleVersion.

#[export] Instance State_eq_dec : EqDecision State.
Proof. solve_decision. Defined.

(** The switch of [splitModuleList] on the current character [c], with the text
    [rest] after it for the look-ahead. *)
Definition nextState (state : State) (c : char) (rest : str) : State :=
  match state with
  | OutsideModule => if negb (isModuleSeparator c) then InModuleName else state
  | InModuleName =>
      if isspace c then
        match drop_while isspace (c :: rest) with
        | s :: _ => if isModuleOperator s then BeforeOperator else OutsideModule
        | [] => OutsideModule
        end
      else if isModuleSeparator c then OutsideModule else state
  | BeforeOperator =>
      if isspace c then state
      else if isModuleOperator c then InOperator else state
  | InOperator => if negb (isModuleOperator c) then AfterOperator else state
  | AfterOperator => if negb (isspace c) then InModuleVersion else state
  | InModuleVersion => if isModuleSeparator c then OutsideModule else state
  end.

(** The loop of [splitModuleList].  [seg] is the text from [start] to [p]; the
    skip of separators at [start] stays inside it, because a module is left only
    after a name character has been read. *)
Fixpoint splitModuleList_loop (p : str) (state last_state : State) (seg : str)
    (result : list str) : list str :=
  match p with
  | [] =>
      if is_nil seg then result
      else result ++ [drop_while isModuleSeparator seg]
  | c :: p' =>
      let state := nextState state c p' in
      if bool_decide (state = OutsideModule) && negb (bool_decide (last_state = OutsideModule))
      then splitModuleList_loop p' state state [c]
             (result ++ [drop_while isModuleSeparator seg])
      else splitModuleList_loop p' state state (seg ++ [c]) result
  end.

Definition splitModuleList (s : str) : list str :=
  splitModuleList_loop s OutsideModule OutsideModule [] [].

Definition comparisonFromString (pkg : PcPackage) (verName comp : str) :
    exn str RequiredVersion.ComparisonType :=
  if is_nil comp then Ok RequiredVersion.AlwaysMatch
  else if bool_decide (comp = "=") then Ok RequiredVersion.Equal
  else if bool_decide (comp = ">=") then Ok RequiredVersion.GreaterThanEqual
  else if bool_decide (comp = "<=") then Ok RequiredVersion.LessThanEqual
  else if bool_decide (comp = ">") then Ok RequiredVersion.GreaterThan
  else if bool_decide (comp = "<") then Ok RequiredVersion.LessThan
  else if bool_decide (comp = "!=") then Ok RequiredVersion.NotEqual
  else Throw (unknownComparisonMessage pkg verName comp).

(** [rfind(c)]: what precedes and what follows the last [c], if there is one. *)
Definition rsplit (c : char) (s : str) : option (str * str) :=
  let tail := reverse (take_while (λ d, negb (d =c c)) (reverse s)) in
  if bool_decide (length tail = length s) then None
  else Some (take (length s - S (length tail)) s, tail).

Definition baseName (path : str) : str :=
  let fileName := match rsplit "/" path with None => [] | Some (_, f) => f end in
  match rsplit "." fileName with None => [] | Some (b, _) => b end.

(** ** The parser *)

Section PcParser.
Context {varSource : VariableSource}.

(** The loop of [trimAndSubstitute]; every round drops at least one character,
    the fuel being the length of the text. *)
Fixpoint substitute_loop (fuel : nat) (pkg : PcPackage) (s result : str) :
    option (exn str str) :=
  match fuel with
  | O => None
  | S fuel =>
      match s with
      | [] => Some (Ok result)
      | c :: s' =>
          if startsWith s "$$" then
            substitute_loop fuel pkg (drop 2 s) (result ++ ["$"%char])
          else if startsWith s "${" then
            let s := drop 2 s in
            let varname := take_while (λ d, negb (d =c "}")) s in
            match drop_while (λ d, negb (d =c "}")) s with
            | [] => Some (Throw (lit "Missing closing '}'"))
            | _ :: s =>
                let varval := packageGetVariable pkg varname in
                if is_nil varval then
                  Some (Throw (undefinedVariableMessage pkg varname))
                else substitute_loop fuel pkg s (result ++ varval)
            end
          else substitute_loop fuel pkg s' (result ++ [c])
      end
  end.

Definition trimAndSubstitute (pkg : PcPackage) (s : str) : exn str str :=
  let s := trimmed s in
  default (Ok []) (substitute_loop (S (length s)) pkg s []).

(** [parseStringField]: [field] is the current value of the member, the result
    the value to assign. *)
Definition parseStringField (pkg : PcPackage) (field fieldName s : str) : exn str str :=
  if negb (is_nil field) then Throw (duplicateFieldMessage fieldName (filePath pkg))
  else trimAndSubstitute pkg s.

Definition mkFlag (ty : Flag.Type_) (value : str) : Flag.t := Flag.mk ty value.

(** The branches of the loop of [doParseLibs] that look at one argument only. *)
Definition classifyLib (arg : str) : list Flag.t :=
  if startsWith arg "-l" && negb (startsWith arg "-lib:") then
    [mkFlag Flag.LibraryName (trimmed (drop 2 arg))]
  else if startsWith arg "-L" then
    [mkFlag Flag.LibraryPath (trimmed (drop 2 arg))]
  else if startsWith arg "-F" then
    [mkFlag Flag.FrameworkPath (trimmed (drop 2 arg))]
  else if negb (startsWith arg "-") && (endsWith arg ".a" || endsWith arg ".lib") then
    [mkFlag Flag.StaticLibraryName arg]
  else if negb (is_nil arg) then [mkFlag Flag.LinkerFlag arg]
  else [].

(** The loop; [-framework] takes the next argument, if there is one. *)
Fixpoint doParseLibs (argv : list str) : list Flag.t :=
  match argv with
  | [] => []
  | a :: rest =>
      let arg := trimmed a in
      match rest with
      | f :: rest' =>
          if bool_decide (arg = "-framework") then
            mkFlag Flag.Framework (trimmed f) :: doParseLibs rest'
          else classifyLib arg ++ doParseLibs rest
      | [] => classifyLib arg
      end
  end.

Definition parseLibs (pkg : PcPackage) (libs : list Flag.t) (fieldName s : str) :
    exn str (list Flag.t) :=
  if negb (is_nil libs) then Throw (duplicateFieldMessage fieldName (filePath pkg))
  else
    let* trimmed := trimAndSubstitute pkg s in
    let argv := splitCommand trimmed in
    if negb (is_nil trimmed) && bool_decide (argv = None)
    then Throw (lit "Couldn't parse Libs field into an argument vector")
    else Ok (doParseLibs (default [] argv)).

Definition classifyCFlag (arg : str) : list Flag.t :=
  if startsWith arg "-I" then [mkFlag Flag.IncludePath (trimmed (drop 2 arg))]
  else if startsWith arg "-D" then [mkFlag Flag.Define (trimmed (drop 2 arg))]
  else if negb (is_nil arg) then [mkFlag Flag.CompilerFlag arg]
  else [].

(** The loop of [parseCFlags]. *)
Fixpoint doParseCFlags (argv : list str) : list Flag.t :=
  match argv with
  | [] => []
  | a :: rest =>
      let arg := trimmed a in
      match rest with
      | f :: rest' =>
          if bool_decide (arg = "-isystem") then
            mkFlag Flag.SystemIncludePath (trimmed f) :: doParseCFlags rest'
          else if bool_decide (arg = "-idirafter") then
            mkFlag Flag.DirAfterIncludePath (trimmed f) :: doParseCFlags rest'
          else classifyCFlag arg ++ doParseCFlags rest
      | [] => classifyCFlag arg
      end
  end.

Definition parseCFlags (pkg : PcPackage) (s : str) : exn str PcPackage :=
  if negb (is_nil (cflags pkg)) then Throw (duplicateFieldMessage "Cflags" (filePath pkg))
  else
    let* command := trimAndSubstitute pkg s in
    let argv := splitCommand command in
    if negb (is_nil command) && bool_decide (argv = None)
    then Throw (lit "Couldn't parse Cflags field into an argument vector")
    else Ok (set_cflags (doParseCFlags (default [] argv)) pkg).

(** The body of the loop of [parseModuleList]. *)
Definition parseModule (pkg : PcPackage) (module : str) : exn str RequiredVersion.t :=
  let isName c := negb (c =c NUL) && negb (isspace c) in
  let name := take_while isName module in
  let p := drop_while isName module in
  if is_nil name then Throw (emptyPackageNameMessage pkg)
  else
    let p := drop_while isspace p in
    let comp := take_while (λ c, negb (isspace c)) p in
    let p := drop_while (λ c, negb (isspace c)) p in
    let* comparison := comparisonFromString pkg name comp in
    let p := drop_while isspace p in
    let version := take_while (λ c, negb (isspace c)) p in
    if negb (bool_decide (comparison = RequiredVersion.AlwaysMatch)) && is_nil version
    then Throw (noVersionMessage pkg name)
    else Ok (RequiredVersion.mk name comparison version).

Fixpoint parseModules (pkg : PcPackage) (modules : list str) :
    exn str (list RequiredVersion.t) :=
  match modules with
  | [] => Ok []
  | m :: modules' =>
      let* ver := parseModule pkg m in
      let* result := parseModules pkg modules' in
      Ok (ver :: result)
  end.

Definition parseModuleList (pkg : PcPackage) (s : str) : exn str (list RequiredVersion.t) :=
  parseModules pkg (splitModuleList s).

(** [trimmed.c_str()] as a [string_view] ends at the first NUL. *)
Definition parseVersionsField (pkg : PcPackage) (modules : list RequiredVersion.t)
    (fieldName s : str) : exn str (list RequiredVersion.t) :=
  if negb (is_nil modules) then Throw (duplicateFieldMessage fieldName (filePath pkg))
  else
    let* trimmed := trimAndSubstitute pkg s in
    parseModuleList pkg (take_while (λ c, negb (c =c NUL)) trimmed).

Definition isWordChar (c : char) : bool := isalnum c || (c =c "_") || (c =c ".").

Definition getFirstWord (s : str) : str := take_while isWordChar s.

(** The keyword branch of [parseLine]. *)
Definition parseKeyword (pkg : PcPackage) (tag s : str) : exn str PcPackage :=
  if bool_decide (tag = "Name") then
    let* x := parseStringField pkg (name pkg) tag s in Ok (set_name x pkg)
  else if bool_decide (tag = "Description") then
    let* x := parseStringField pkg (description pkg) tag s in Ok (set_description x pkg)
  else if bool_decide (tag = "Version") then
    let* x := parseStringField pkg (version pkg) tag s in Ok (set_version x pkg)
  else if bool_decide (tag = "Requires.private") then
    let* x := parseVersionsField pkg (requiresPrivate pkg) tag s in
    Ok (set_requiresPrivate x pkg)
  else if bool_decide (tag = "Requires") then
    let* x := parseVersionsField pkg (requiresPublic pkg) tag s in
    Ok (set_requiresPublic x pkg)
  else if bool_decide (tag = "Libs.private") then
    let* x := parseLibs pkg (libsPrivate pkg) "Libs.private" s in
    Ok (set_libsPrivate x pkg)
  else if bool_decide (tag = "Libs") then
    let* x := parseLibs pkg (libs pkg) "Libs" s in Ok (set_libs x pkg)
  else if bool_decide (tag = "Cflags") || bool_decide (tag = "CFlags") then
    parseCFlags pkg s
  else if bool_decide (tag = "Conflicts") then
    let* x := parseVersionsField pkg (conflicts pkg) tag s in Ok (set_conflicts x pkg)
  else if bool_decide (tag = "URL") then
    let* x := parseStringField pkg (url pkg) tag s in Ok (set_url x pkg)
  else Ok pkg.

(** The variable branch of [parseLine]. *)
Definition parseVariable (pkg : PcPackage) (tag s : str) : exn str PcPackage :=
  let* value := trimAndSubstitute pkg s in
  match variables pkg !! tag with
  | Some _ => Throw (duplicateVariableMessage pkg tag)
  | None => Ok (set_variables (<[tag := value]> (variables pkg)) pkg)
  end.

Definition parseLine (pkg : PcPackage) (s : str) : exn str PcPackage :=
  let s := trimmed s in
  if is_nil s then Ok pkg
  else
    let tag := getFirstWord s in
    let s := trimmed (drop (length tag) s) in
    match s with
    | [] => Ok pkg
    | c :: s' =>
        if c =c ":" then parseKeyword pkg tag (trimmed s')
        else if c =c "=" then parseVariable pkg tag (trimmed s')
        else Ok pkg
    end.

(** The loop of [parsePackageFile] over the lines. *)
Fixpoint parseLines (fuel : nat) (file : str) (pkg : PcPackage) :
    option (exn str PcPackage) :=
  match fuel with
  | O => None
  | S fuel =>
      let '(more, line, file') := readOneLine file in
      if more then
        match parseLine pkg line with
        | Ok pkg' => parseLines fuel file' pkg'
        | Throw e => Some (Throw e)
        end
      else Some (Ok pkg)
  end.

(** The file system as the parser sees it: the contents of a file that can be
    opened, and the two path functions of [std::filesystem]. *)
Context (open_file : list ascii → option (list ascii)).
Context (generic_string parent_path : list ascii → list ascii).

Definition parsePackageFile_body (path : str) : exn str PcPackage :=
  match open_file path with
  | None => Throw (lit "Can't open file " ++ path)
  | Some file =>
      let package := set_baseFileName (baseName path) emptyPackage in
      let package := set_filePath (generic_string path) package in
      let package :=
        set_variables
          (<[lit "pcfiledir" := generic_string (parent_path path)]> (variables package))
          package in
      default (Ok package) (parseLines (S (length file)) file package)
  end.

Definition parsePackageFile (path : str) : PcPackageVariant :=
  if is_nil path then Valid emptyPackage
  else
    match parsePackageFile_body path with
    | Ok package => Valid package
    | Throw what => Broken (mkPcBrokenPackage path (baseName path) what)
    end.
End PcParser.
