(* ===== verification/PcParserCorrect.v ===== *)
(** * Correctness of the [.pc] file parser

    Facts about the definitions of [PcParser.v] and the round trips:
    reading lines, trimming, splitting and substituting undo printing; the
    parser terminates; a package file is written once. *)

From S2P Require Import Prelude PcPackage PcParser.

(** ** White space *)

Definition all_space (s : str) : Prop := Forall (λ c, isspace c = true) s.

(** A text that neither starts nor ends with white space. *)
Definition tight (s : str) : Prop :=
  (∀ c, head s = Some c → isspace c = false) ∧
  (∀ c, last s = Some c → isspace c = false).

Lemma trimmed_middle ws1 s ws2 :
  all_space ws1 → all_space ws2 → tight s → trimmed (ws1 ++ s ++ ws2) = s.
Proof.
  intros H1 H2 [Hh Hl]. unfold trimmed. destruct s as [|c s].
  { assert (all_space (ws1 ++ ws2)) by by apply Forall_app. simpl.
    rewrite !take_while_all by first [done | by apply Forall_reverse].
    by rewrite length_reverse, Nat.sub_diag. }
  assert (take_while isspace (ws1 ++ (c :: s) ++ ws2) = ws1) as ->.
  { simpl. apply take_while_app_stop; auto. }
  destruct (last (c :: s)) as [d|] eqn:Hd; [|by apply last_None in Hd].
  specialize (Hl d eq_refl). apply last_Some in Hd as [s' Hs']. rewrite Hs'.
  assert (take_while isspace (reverse (ws1 ++ (s' ++ [d]) ++ ws2)) = reverse ws2) as ->.
  { rewrite !reverse_app, <-!(assoc_L (++)). simpl.
    apply take_while_app_stop; [by apply Forall_reverse|done]. }
  rewrite length_reverse, !length_app. simpl.
  case_match eqn:E; [apply Nat.leb_le in E; lia|].
  rewrite drop_app_length, take_app_le by (rewrite length_app; simpl; lia).
  apply take_ge. rewrite length_app. simpl. lia.
Qed.

Lemma tight_decompose s :
  ∃ ws1 t ws2, s = ws1 ++ t ++ ws2 ∧ all_space ws1 ∧ all_space ws2 ∧ tight t.
Proof.
  set (r := drop_while isspace s).
  exists (take_while isspace s), (reverse (drop_while isspace (reverse r))),
    (reverse (take_while isspace (reverse r))).
  split.
  { rewrite <-reverse_app, take_drop_while, reverse_involutive.
    by unfold r; rewrite take_drop_while. }
  split; [apply take_while_Forall|].
  split; [apply Forall_reverse, take_while_Forall|]. split.
  - intros c Hc.
    assert (head r = Some c) as Hr.
    { rewrite <-(reverse_involutive r), <-(take_drop_while isspace (reverse r)).
      rewrite reverse_app. by destruct (reverse (drop_while _ _)). }
    destruct r as [|c' r'] eqn:Er; [done|]. injection Hr as ->.
    by eapply drop_while_head.
  - intros c Hc. rewrite last_reverse in Hc.
    destruct (drop_while isspace (reverse r)) as [|c' r'] eqn:Er; [done|].
    injection Hc as ->. by eapply drop_while_head.
Qed.

Lemma trimmed_tight s : tight (trimmed s).
Proof.
  destruct (tight_decompose s) as (ws1 & t & ws2 & -> & ? & ? & ?).
  by rewrite trimmed_middle.
Qed.

Lemma trimmed_id s : tight s → trimmed s = s.
Proof.
  intros Hs. pose proof (trimmed_middle [] s []) as H.
  rewrite app_nil_r in H. by apply H; [constructor|constructor|].
Qed.

Lemma trimmed_length s : length (trimmed s) ≤ length s.
Proof.
  destruct (tight_decompose s) as (ws1 & t & ws2 & -> & ? & ? & ?).
  rewrite trimmed_middle by done. rewrite !length_app. lia.
Qed.

(** ** Reading lines *)

Lemma readOneLine_loop_length file line quoted comment n ok line' rest :
  readOneLine_loop file line quoted comment n = (ok, line', rest) →
  length rest ≤ length file ∧
  ((n ≤ 0)%Z → ok = true → length rest < length file).
Proof.
  revert line quoted comment n.
  induction file as [|c file IH]; intros line quoted comment n; simpl.
  { intros [= <- _ <-]. split; [done|]. rewrite Z.ltb_lt. lia. }
  destruct (c =c CR).
  { intros H. apply IH in H as [H1 H2]. split; [lia|].
    intros Hn Hok. specialize (H2 ltac:(lia) Hok). lia. }
  assert (∀ line q cm, readOneLine_loop file line q cm (n + 1) = (ok, line', rest) →
    length rest ≤ S (length file) ∧
    ((n ≤ 0)%Z → ok = true → length rest < S (length file))) as Hrec.
  { intros ??? H. apply IH in H as [H1 _]. lia. }
  repeat case_match; try apply Hrec.
  intros [= _ _ <-]. lia.
Qed.

(** A line that was delivered consumed at least one character. *)
Lemma readOneLine_consumes file ok line rest :
  readOneLine file = (ok, line, rest) →
  length rest ≤ length file ∧ (ok = true → length rest < length file).
Proof.
  intros H. apply readOneLine_loop_length in H as [H1 H2]. split; [done|]. by apply H2.
Qed.

(** The text that makes [readOneLine] deliver [t]: a [#] has to be escaped. *)
Definition escapeLine (t : str) : str :=
  t ≫= λ c, if c =c "#" then [BACKSLASH; "#"%char] else [c].

Definition plainLine (t : str) : Prop :=
  Forall (λ c, c ≠ LF ∧ c ≠ CR ∧ c ≠ BACKSLASH) t.

Lemma readOneLine_loop_escaped (t file line : str) n :
  plainLine t → (0 ≤ n)%Z →
  ∃ n', (0 ≤ n')%Z ∧ (t ≠ [] → (0 < n')%Z) ∧
  readOneLine_loop (escapeLine t ++ file) line false false n =
  readOneLine_loop file (line ++ t) false false n'.
Proof.
  intros Ht. revert line n. induction Ht as [|c t (H1 & H2 & H3) Ht IH]; intros line n Hn.
  { exists n. by rewrite app_nil_r. }
  unfold escapeLine. simpl. fold (escapeLine t).
  destruct (Ascii.eqb_spec c "#") as [->|H4].
  - destruct (IH (line ++ ["#"%char]) (n + 1 + 1)%Z ltac:(lia)) as (n' & Hn' & Hp & E).
    destruct t as [|d t].
    { exists (n + 1 + 1)%Z. split_and!; [lia..|done]. }
    exists n'. rewrite <-(assoc_L (++)) in E. simpl in E.
    split; [done|]. split; [by intros _; apply Hp|]. simpl. rewrite <-E. done.
  - destruct (IH (line ++ [c]) (n + 1)%Z ltac:(lia)) as (n' & Hn' & Hp & E).
    destruct t as [|d t].
    { exists (n + 1)%Z. split_and!; [lia..|]. simpl. by char_simpl. }
    exists n'. rewrite <-(assoc_L (++)) in E. simpl in E.
    split; [done|]. split; [by intros _; apply Hp|]. simpl. char_simpl. done.
Qed.

Lemma readOneLine_loop_comment (text file line : str) n :
  Forall (λ c, c ≠ LF) text → (0 ≤ n)%Z →
  readOneLine_loop (text ++ LF :: file) line false true n = (true, line, file).
Proof.
  intros Ht. revert n. induction Ht as [|c text Hc Ht IH]; intros n Hn; simpl.
  { f_equal. f_equal. apply Z.ltb_lt. lia. }
  destruct (c =c CR); [apply IH; lia|].
  destruct (c =c "#"); [apply IH; lia|].
  destruct (c =c BACKSLASH); [apply IH; lia|].
  rewrite (ascii_eqb_ne c LF) by done. apply IH. lia.
Qed.

(** ** Termination of the fuelled loops *)

Section Termination.
Context {varSource : VariableSource}.

Lemma substitute_loop_total fuel pkg s result :
  length s < fuel → ∃ r, substitute_loop fuel pkg s result = Some r.
Proof.
  revert s result. induction fuel as [|fuel IH]; intros s result Hs; [lia|].
  destruct s as [|c s]; simpl; [by eexists|]. simpl in Hs.
  destruct (startsWith _ _).
  { apply IH. rewrite length_drop. simpl. lia. }
  destruct (startsWith _ _); [|apply IH; lia].
  destruct (drop_while _ _) as [|d rest] eqn:E; [by eexists|].
  destruct (is_nil _); [by eexists|]. apply IH.
  match type of E with drop_while ?p ?l = _ =>
    pose proof (drop_while_length p l) as Hl; rewrite E in Hl end.
  simpl in Hl. rewrite length_drop in Hl. simpl in Hl. lia.
Qed.

Lemma parseLines_total fuel file pkg :
  length file < fuel → ∃ r, parseLines fuel file pkg = Some r.
Proof.
  revert file pkg. induction fuel as [|fuel IH]; intros file pkg Hf; [lia|]. simpl.
  destruct (readOneLine file) as [[ok line] rest] eqn:E.
  apply readOneLine_consumes in E as [_ E].
  destruct ok; [|by eexists]. specialize (E eq_refl).
  destruct (parseLine pkg line); [|by eexists]. apply IH. lia.
Qed.
End Termination.

(** ** Splitting a command *)

(** Escape every character of an argument. *)
Fixpoint escapeArg (a : str) : str :=
  match a with [] => [] | c :: a => BACKSLASH :: c :: escapeArg a end.

Fixpoint joinWith (sep : str) (l : list str) : str :=
  match l with
  | [] => []
  | [a] => a
  | a :: l' => a ++ sep ++ joinWith sep l'
  end.

Lemma splitCommand_escapeArg a s result arg :
  splitCommand_loop (escapeArg a ++ s) result arg NUL =
  splitCommand_loop s result (arg ++ a) NUL.
Proof.
  revert arg. induction a as [|c a IH]; intros arg; [by rewrite app_nil_r|].
  simpl. rewrite IH.
  by rewrite <-(assoc_L (++)).
Qed.

Lemma splitCommand_roundtrip_loop args result :
  Forall (λ a, a ≠ []) args →
  splitCommand_loop (joinWith " " (map escapeArg args)) result [] NUL =
  Some (result ++ args).
Proof.
  intros Hargs. revert result. induction Hargs as [|a args Ha Hargs IH]; intros result.
  { simpl. by rewrite app_nil_r. }
  destruct args as [|b args]; simpl.
  - rewrite <-(app_nil_r (escapeArg a)), splitCommand_escapeArg. simpl. by destruct a.
  - rewrite splitCommand_escapeArg. simpl. destruct a as [|c a]; [done|]. simpl.
    specialize (IH (result ++ [c :: a])). simpl in IH. rewrite IH.
    by rewrite <-(assoc_L (++)).
Qed.

(** ** Module lists *)

Definition comparisonOperator (c : RequiredVersion.ComparisonType) : str :=
  match c with
  | RequiredVersion.LessThan => "<"
  | RequiredVersion.GreaterThan => ">"
  | RequiredVersion.LessThanEqual => "<="
  | RequiredVersion.GreaterThanEqual => ">="
  | RequiredVersion.Equal => "="
  | RequiredVersion.NotEqual => "!="
  | RequiredVersion.AlwaysMatch => []
  end.

(** A requirement the way a [.pc] file states it. *)
Definition printModule (r : RequiredVersion.t) : str :=
  if bool_decide (RequiredVersion.comparison r = RequiredVersion.AlwaysMatch)
  then RequiredVersion.name r
  else RequiredVersion.name r ++ " "%char ::
       comparisonOperator (RequiredVersion.comparison r) ++ " "%char ::
       RequiredVersion.version r.

Definition isModuleChar (c : char) : Prop :=
  isModuleSeparator c = false ∧ c ≠ NUL.

Definition wfModule (r : RequiredVersion.t) : Prop :=
  RequiredVersion.name r ≠ [] ∧ Forall isModuleChar (RequiredVersion.name r) ∧
  Forall isModuleChar (RequiredVersion.version r) ∧
  (RequiredVersion.comparison r = RequiredVersion.AlwaysMatch ↔
   RequiredVersion.version r = []).

#[export] Instance wfModule_dec r : Decision (wfModule r).
Proof. unfold wfModule, isModuleChar. apply _. Defined.

Lemma isModuleChar_not_space c : isModuleChar c → isspace c = false.
Proof. unfold isModuleChar, isModuleSeparator. intros [[_ ?]%orb_false_iff _]. done. Qed.

Lemma isModuleChar_not_comma c : isModuleChar c → (c =c ",") = false.
Proof. unfold isModuleChar, isModuleSeparator. intros [[? _]%orb_false_iff _]. done. Qed.

Lemma isModuleOperator_not_space c : isModuleOperator c = true → isspace c = false.
Proof. destruct c as [[][][][][][][][]]; done. Qed.

Lemma isModuleOperator_not_sep c : isModuleOperator c = true → isModuleSeparator c = false.
Proof. destruct c as [[][][][][][][][]]; done. Qed.

(** A run of characters that do not change the state is appended to the
    segment. *)
Lemma split_run st t rest seg result :
  st ≠ OutsideModule → Forall (λ c, ∀ rest', nextState st c rest' = st) t →
  splitModuleList_loop (t ++ rest) st st seg result =
  splitModuleList_loop rest st st (seg ++ t) result.
Proof.
  intros Hst Ht. revert seg. induction Ht as [|c t Hc Ht IH]; intros seg; simpl.
  { by rewrite app_nil_r. }
  rewrite Hc. rewrite bool_decide_eq_false_2 by done. simpl.
  by rewrite IH, <-(assoc_L (++)).
Qed.

(** One character that leads to a state inside a module. *)
Lemma split_step st last c rest seg result st' :
  nextState st c rest = st' → st' ≠ OutsideModule →
  splitModuleList_loop (c :: rest) st last seg result =
  splitModuleList_loop rest st' st' (seg ++ [c]) result.
Proof. intros <- Hst. simpl. by rewrite bool_decide_eq_false_2. Qed.

Lemma run_in_name t :
  Forall isModuleChar t →
  Forall (λ c, ∀ rest, nextState InModuleName c rest = InModuleName) t.
Proof.
  intros Ht. eapply Forall_impl; [exact Ht|]. intros c Hc rest. simpl.
  rewrite (isModuleChar_not_space c Hc). by rewrite (proj1 Hc).
Qed.

Lemma run_in_version t :
  Forall isModuleChar t →
  Forall (λ c, ∀ rest, nextState InModuleVersion c rest = InModuleVersion) t.
Proof.
  intros Ht. eapply Forall_impl; [exact Ht|]. intros c Hc rest. simpl.
  by rewrite (proj1 Hc).
Qed.

Lemma comparisonOperator_cons cmp :
  cmp ≠ RequiredVersion.AlwaysMatch →
  ∃ o op, comparisonOperator cmp = o :: op ∧ isModuleOperator o = true ∧
    Forall (λ c, isModuleOperator c = true) op.
Proof.
  destruct cmp; try done; intros _; (eexists _, _; split; [reflexivity|];
    split; [done|]; repeat constructor).
Qed.

(** Reading one printed requirement, starting between modules. *)
Lemma split_printModule r rest seg result :
  wfModule r →
  ∃ st, (st = InModuleName ∨ st = InModuleVersion) ∧
  splitModuleList_loop (printModule r ++ rest) OutsideModule OutsideModule seg result =
  splitModuleList_loop rest st st (seg ++ printModule r) result.
Proof.
  intros (Hn & Hname & Hver & Hcmp). unfold printModule.
  destruct r as [name cmp version]; simpl in *.
  destruct name as [|c name]; [done|]. inversion_clear Hname as [|? ? Hc Hname'].
  assert (∀ rest', splitModuleList_loop ((c :: name) ++ rest') OutsideModule
      OutsideModule seg result =
    splitModuleList_loop rest' InModuleName InModuleName (seg ++ c :: name) result)
    as Hn1.
  { intros rest'. simpl app. rewrite (split_step _ _ _ _ _ _ InModuleName); [|..|done].
    - rewrite split_run by (done || by apply run_in_name).
      by rewrite <-(assoc_L (++)).
    - simpl. by rewrite (proj1 Hc). }
  destruct (decide (cmp = RequiredVersion.AlwaysMatch)) as [->|Hne].
  { exists InModuleName. split; [by left|]. apply Hn1. }
  rewrite bool_decide_eq_false_2 by done.
  destruct (comparisonOperator_cons cmp Hne) as (o & op & -> & Ho & Hop).
  assert (version ≠ []) as Hv by naive_solver.
  destruct version as [|v version]; [done|]. inversion_clear Hver as [|? ? Hv1 Hver'].
  exists InModuleVersion. split; [by right|].
  rewrite <-(assoc_L (++)), Hn1. simpl app.
  rewrite (split_step InModuleName _ _ _ _ _ BeforeOperator); [| |done].
  2: { simpl. rewrite (isModuleOperator_not_space o Ho). by rewrite Ho. }
  rewrite (split_step BeforeOperator _ _ _ _ _ InOperator); [| |done].
  2: { simpl. rewrite (isModuleOperator_not_space o Ho). by rewrite Ho. }
  rewrite <-(assoc_L (++) op), split_run; [|done|].
  2: { eapply Forall_impl; [exact Hop|]. intros d Hd rest'. simpl. by rewrite Hd. }
  simpl app. rewrite (split_step InOperator _ _ _ _ _ AfterOperator); [|done|done].
  rewrite (split_step AfterOperator _ _ _ _ _ InModuleVersion); [| |done].
  2: { simpl. by rewrite (isModuleChar_not_space v Hv1). }
  rewrite split_run by (done || by apply run_in_version).
  f_equal. rewrite <-!(assoc_L (++)). done.
Qed.

Lemma printModule_head r :
  wfModule r → ∃ c s, printModule r = c :: s ∧ isModuleSeparator c = false.
Proof.
  intros (Hn & Hname & _). unfold printModule.
  destruct r as [name cmp version]; simpl in *. destruct name as [|c name]; [done|].
  inversion_clear Hname as [|? ? Hc _].
  case_bool_decide; (eexists _, _; split; [reflexivity|apply Hc]).
Qed.

Lemma splitModuleList_printed rs r seg result :
  Forall wfModule (r :: rs) → Forall (λ c, isModuleSeparator c = true) seg →
  splitModuleList_loop (joinWith ", " (map printModule (r :: rs)))
    OutsideModule OutsideModule seg result =
  result ++ map printModule (r :: rs).
Proof.
  revert r seg result. induction rs as [|r' rs IH]; intros r seg result Hwf Hseg.
  - inversion_clear Hwf as [|? ? Hr _]. simpl.
    destruct (split_printModule r [] seg result Hr) as (st & _ & E).
    rewrite app_nil_r in E. rewrite E. simpl.
    destruct (printModule_head r Hr) as (c & s & -> & Hc).
    rewrite drop_while_app_stop by done. by destruct seg.
  - inversion_clear Hwf as [|? ? Hr Hrs].
    change (joinWith ", " (map printModule (r :: r' :: rs)))
      with (printModule r ++ ","%char :: " "%char ::
            joinWith ", " (map printModule (r' :: rs))).
    destruct (split_printModule r (","%char :: " "%char ::
            joinWith ", " (map printModule (r' :: rs))) seg result Hr) as (st & Hst & E).
    rewrite E. destruct (printModule_head r Hr) as (c & s & Epm & Hc).
    assert (splitModuleList_loop (","%char :: " "%char ::
        joinWith ", " (map printModule (r' :: rs))) st st (seg ++ printModule r) result =
      splitModuleList_loop (joinWith ", " (map printModule (r' :: rs)))
        OutsideModule OutsideModule [","%char; " "%char]
        (result ++ [drop_while isModuleSeparator (seg ++ printModule r)])) as ->
      by by destruct Hst as [-> | ->].
    rewrite IH by first [done | repeat constructor].
    rewrite Epm, drop_while_app_stop by done. simpl. rewrite Epm.
    by rewrite <-(assoc_L (++)).
Qed.

(** ** One module *)

Lemma isModuleChar_isName c :
  isModuleChar c → negb (c =c NUL) && negb (isspace c) = true.
Proof.
  intros Hc. rewrite (isModuleChar_not_space c Hc).
  by rewrite (ascii_eqb_ne c NUL) by apply Hc.
Qed.

Lemma comparisonFromString_operator pkg verName c :
  comparisonFromString pkg verName (comparisonOperator c) = Ok c.
Proof. by destruct c. Qed.

Lemma parseModule_print pkg r : wfModule r → parseModule pkg (printModule r) = Ok r.
Proof.
  intros (Hn & Hname & Hver & Hcmp). unfold printModule, parseModule.
  destruct r as [name cmp version]; simpl in *.
  assert (Forall (λ c, negb (c =c NUL) && negb (isspace c) = true) name) as Hn'
    by (eapply Forall_impl; [exact Hname|]; apply isModuleChar_isName).
  assert (Forall (λ c, negb (isspace c) = true) version) as Hv'.
  { eapply Forall_impl; [exact Hver|]. intros c Hc. simpl.
    by rewrite (isModuleChar_not_space c Hc). }
  destruct (decide (cmp = RequiredVersion.AlwaysMatch)) as [->|Hne].
  { rewrite (take_while_all _ name), (drop_while_all _ name) by done. simpl.
    rewrite (proj1 Hcmp eq_refl). by destruct name. }
  rewrite bool_decide_eq_false_2 by done.
  rewrite take_while_app_stop, drop_while_app_stop by done.
  destruct (is_nil name) eqn:En; [by apply is_nil_true in En|].
  destruct (comparisonOperator_cons cmp Hne) as (o & op & Eo & Ho & Hop).
  assert (Forall (λ c, negb (isspace c) = true) (o :: op)) as Hop'.
  { constructor; [by rewrite isModuleOperator_not_space|].
    eapply Forall_impl; [exact Hop|]. intros d Hd. simpl.
    by rewrite isModuleOperator_not_space. }
  assert (drop_while isspace (" "%char :: comparisonOperator cmp ++ " "%char :: version) =
    comparisonOperator cmp ++ " "%char :: version) as ->.
  { rewrite Eo. simpl. by rewrite (isModuleOperator_not_space o Ho). }
  rewrite <-Eo in Hop'. rewrite take_while_app_stop, drop_while_app_stop by done.
  rewrite comparisonFromString_operator. simpl.
  assert (version ≠ []) as Hv by naive_solver.
  destruct version as [|v version]; [done|]. inversion_clear Hver as [|? ? Hv1 Hver'].
  simpl. rewrite (isModuleChar_not_space v Hv1). simpl.
  rewrite (isModuleChar_not_space v Hv1). simpl.
  inversion_clear Hv' as [|? ? _ Hv2]. rewrite (take_while_all _ version) by done.
  by rewrite andb_false_r.
Qed.

Lemma parseModules_print pkg rs :
  Forall wfModule rs → parseModules pkg (map printModule rs) = Ok rs.
Proof.
  induction 1 as [|r rs Hr Hrs IH]; [done|]. simpl.
  rewrite parseModule_print by done. simpl. by rewrite IH.
Qed.

(** ** Variable substitution *)

(** The text of a field as a sequence of pieces, and its meaning. *)
Inductive piece : Set :=
  | PChar (c : char)
  | PDollar
  | PVar (var : list ascii).

Definition printPiece (p : piece) : str :=
  match p with
  | PChar c => [c]
  | PDollar => "$$"
  | PVar var => lit "${" ++ var ++ ["}"%char]
  end.

Fixpoint printPieces (ps : list piece) : str :=
  match ps with
  | [] => []
  | p :: ps => printPiece p ++ printPieces ps
  end.

Definition wfPiece (p : piece) : Prop :=
  match p with
  | PChar c => c ≠ "$"%char
  | PDollar => True
  | PVar var => Forall (λ c, c ≠ "}"%char) var
  end.

Section Substitution.
Context {varSource : VariableSource}.

Fixpoint evalPieces (pkg : PcPackage) (ps : list piece) : exn str str :=
  match ps with
  | [] => Ok []
  | PChar c :: ps => let* t := evalPieces pkg ps in Ok (c :: t)
  | PDollar :: ps => let* t := evalPieces pkg ps in Ok ("$"%char :: t)
  | PVar var :: ps =>
      if is_nil (packageGetVariable pkg var)
      then Throw (undefinedVariableMessage pkg var)
      else let* t := evalPieces pkg ps in Ok (packageGetVariable pkg var ++ t)
  end.

Lemma substitute_loop_print fuel pkg ps result :
  Forall wfPiece ps → length (printPieces ps) < fuel →
  substitute_loop fuel pkg (printPieces ps) result =
  Some (let* t := evalPieces pkg ps in Ok (result ++ t)).
Proof.
  intros Hps. revert fuel result.
  induction Hps as [|p ps Hp Hps IH]; intros fuel result Hf.
  { destruct fuel; simpl in *; [lia|]. by rewrite app_nil_r. }
  destruct fuel as [|fuel]; [lia|].
  destruct p as [c| |var]; simpl in *.
  - assert (∀ e t, startsWith (c :: t) ["$"%char; e] = false) as Hne.
    { intros e t. apply andb_false_intro2, bool_decide_eq_false_2. simpl. congruence. }
    rewrite !Hne.
    rewrite IH by lia. destruct (evalPieces pkg ps); simpl; [|done].
    by rewrite <-(assoc_L (++)).
  - rewrite !drop_0. rewrite IH by lia.
    destruct (evalPieces pkg ps); simpl; [|done]. by rewrite <-(assoc_L (++)).
  - rewrite !drop_0, <-(assoc_L (++)). simpl.
    assert (Forall (λ d, negb (d =c "}") = true) var) as Hv.
    { eapply Forall_impl; [exact Hp|]. intros d Hd. simpl. by rewrite ascii_eqb_ne. }
    rewrite take_while_app_stop, drop_while_app_stop by done.
    destruct (is_nil (packageGetVariable pkg var)); [done|].
    rewrite IH by (rewrite !length_app in Hf; simpl in Hf; lia).
    destruct (evalPieces pkg ps); simpl; [|done]. by rewrite <-(assoc_L (++)).
Qed.
End Substitution.

(** ** Linker flags *)

(** The command line arguments a flag stands for. *)
Definition flagToArgs (f : Flag.t) : list str :=
  match Flag.type f with
  | Flag.LibraryName => [lit "-l" ++ Flag.value f]
  | Flag.LibraryPath => [lit "-L" ++ Flag.value f]
  | Flag.FrameworkPath => [lit "-F" ++ Flag.value f]
  | Flag.Framework => [lit "-framework"; Flag.value f]
  | _ => [Flag.value f]
  end.

Definition wfLibFlag (f : Flag.t) : Prop :=
  trimmed (Flag.value f) = Flag.value f ∧
  match Flag.type f with
  | Flag.LibraryName => startsWith (lit "-l" ++ Flag.value f) "-lib:" = false
  | Flag.LibraryPath | Flag.FrameworkPath | Flag.Framework => True
  | Flag.StaticLibraryName | Flag.LinkerFlag =>
      Flag.value f ≠ lit "-framework" ∧ classifyLib (Flag.value f) = [f]
  | _ => False
  end.

#[export] Instance wfLibFlag_dec f : Decision (wfLibFlag f).
Proof. unfold wfLibFlag. destruct (Flag.type f); apply _. Defined.

Lemma tight_prefix p v :
  (∃ c d, head p = Some c ∧ last p = Some d ∧ isspace c = false ∧ isspace d = false) →
  tight v → tight (p ++ v).
Proof.
  intros (c & d & Hc & Hd & Hc' & Hd') [Hh Hl]. split.
  - intros e He. destruct p; [done|]. simpl in *. naive_solver.
  - intros e He. rewrite last_app in He. destruct (last v) eqn:E; naive_solver.
Qed.

Lemma trimmed_prefix p v :
  (∃ c d, head p = Some c ∧ last p = Some d ∧ isspace c = false ∧ isspace d = false) →
  trimmed v = v → trimmed (p ++ v) = p ++ v.
Proof.
  intros Hp Hv. apply trimmed_id, tight_prefix; [done|]. rewrite <-Hv. apply trimmed_tight.
Qed.

Lemma doParseLibs_cons a rest :
  trimmed a ≠ lit "-framework" →
  doParseLibs (a :: rest) = classifyLib (trimmed a) ++ doParseLibs rest.
Proof.
  intros Ha. simpl. destruct rest; [by rewrite app_nil_r|].
  by rewrite bool_decide_eq_false_2.
Qed.

Lemma startsWith_app p v : startsWith (p ++ v) p = true.
Proof.
  unfold startsWith. rewrite take_app_length, bool_decide_eq_true_2 by done.
  rewrite andb_true_r. apply Nat.leb_le. rewrite length_app. lia.
Qed.

Lemma doParseLibs_flag f rest :
  wfLibFlag f → doParseLibs (flagToArgs f ++ rest) = f :: doParseLibs rest.
Proof.
  intros [Hv Hf]. unfold flagToArgs. destruct f as [ty v]; simpl in *.
  assert (∀ c, isspace c = false →
    trimmed ("-"%char :: c :: v) = "-"%char :: c :: v) as Hp.
  { intros c Hc. apply (trimmed_prefix ["-"%char; c]); [|done]. by exists "-"%char, c. }
  destruct ty; try done; simpl app; simpl in Hf.
  - rewrite doParseLibs_cons; rewrite (Hp "l"%char) by done; [|done].
    unfold classifyLib. simpl. rewrite Hf. simpl. by rewrite drop_0, Hv.
  - rewrite doParseLibs_cons; [|rewrite Hv; apply Hf]. rewrite Hv. by destruct Hf as [_ ->].
  - rewrite doParseLibs_cons; rewrite (Hp "L"%char) by done; [|done].
    unfold classifyLib. simpl. by rewrite drop_0, Hv.
  - simpl. by rewrite Hv.
  - rewrite doParseLibs_cons; rewrite (Hp "F"%char) by done; [|done].
    unfold classifyLib. simpl. by rewrite drop_0, Hv.
  - rewrite doParseLibs_cons; [|rewrite Hv; apply Hf]. rewrite Hv. by destruct Hf as [_ ->].
Qed.

Fixpoint flagsToArgs (fs : list Flag.t) : list str :=
  match fs with
  | [] => []
  | f :: fs => flagToArgs f ++ flagsToArgs fs
  end.

Lemma doParseLibs_flags fs : Forall wfLibFlag fs → doParseLibs (flagsToArgs fs) = fs.
Proof.
  induction 1 as [|f fs Hf Hfs IH]; [done|]. simpl.
  by rewrite doParseLibs_flag, IH.
Qed.

(** ** Base names *)

Lemma rsplit_app c (a b : str) : c ∉ b → rsplit c (a ++ c :: b) = Some (a, b).
Proof.
  intros Hb. unfold rsplit. rewrite reverse_app, reverse_cons, <-(assoc_L (++)). simpl.
  rewrite take_while_app_stop.
  - rewrite reverse_involutive, length_app. simpl.
    rewrite bool_decide_eq_false_2 by lia.
    replace (length a + S (length b) - S (length b)) with (length a) by lia.
    by rewrite take_app_length.
  - apply Forall_reverse, Forall_forall. intros d Hd.
    rewrite ascii_eqb_ne; [done|]. by intros ->.
  - by rewrite ascii_eqb_refl.
Qed.

Lemma rsplit_None c (s : str) : c ∉ s → rsplit c s = None.
Proof.
  intros Hs. unfold rsplit. rewrite take_while_all.
  - rewrite reverse_involutive. by rewrite bool_decide_eq_true_2.
  - apply Forall_reverse, Forall_forall. intros d Hd.
    rewrite ascii_eqb_ne; [done|]. by intros ->.
Qed.

(** ** Members are written once

    [kept x y]: a member [x] that has been set is not changed to another value
    [y].  [extends pkg pkg']: [pkg'] was obtained from [pkg] by parsing further
    lines. *)
Definition kept {A} (x y : list A) : Prop := x ≠ [] → y = x.

#[export] Instance kept_preorder {A} : PreOrder (@kept A).
Proof.
  split; [by intros x _|]. intros x y z Hxy Hyz Hx.
  rewrite <-(Hxy Hx). apply Hyz. by rewrite Hxy.
Qed.

Record extends (pkg pkg' : PcPackage) : Prop := {
  ext_filePath : filePath pkg' = filePath pkg;
  ext_baseFileName : baseFileName pkg' = baseFileName pkg;
  ext_uninstalled : uninstalled pkg' = uninstalled pkg;
  ext_name : kept (name pkg) (name pkg');
  ext_version : kept (version pkg) (version pkg');
  ext_description : kept (description pkg) (description pkg');
  ext_url : kept (url pkg) (url pkg');
  ext_libs : kept (libs pkg) (libs pkg');
  ext_libsPrivate : kept (libsPrivate pkg) (libsPrivate pkg');
  ext_cflags : kept (cflags pkg) (cflags pkg');
  ext_requiresPublic : kept (requiresPublic pkg) (requiresPublic pkg');
  ext_requiresPrivate : kept (requiresPrivate pkg) (requiresPrivate pkg');
  ext_conflicts : kept (conflicts pkg) (conflicts pkg');
  ext_variables : variables pkg ⊆ variables pkg'
}.

#[export] Instance extends_preorder : PreOrder extends.
Proof.
  split.
  - intros pkg. by split.
  - intros p1 p2 p3 [] []. split; first [congruence | by etrans].
Qed.

Section Extends.
Context {varSource : VariableSource}.

Lemma parseStringField_Ok pkg field fieldName s x :
  parseStringField pkg field fieldName s = Ok x → field = [].
Proof. unfold parseStringField. by destruct field. Qed.

Lemma parseLibs_Ok pkg field fieldName s x :
  parseLibs pkg field fieldName s = Ok x → field = [].
Proof. unfold parseLibs. by destruct field. Qed.

Lemma parseVersionsField_Ok pkg field fieldName s x :
  parseVersionsField pkg field fieldName s = Ok x → field = [].
Proof. unfold parseVersionsField. by destruct field. Qed.

Lemma parseCFlags_Ok pkg s pkg' :
  parseCFlags pkg s = Ok pkg' → cflags pkg = [] ∧ ∃ x, pkg' = set_cflags x pkg.
Proof.
  unfold parseCFlags. destruct (cflags pkg); [|done]. simpl. intros H. split; [done|].
  destruct (trimAndSubstitute pkg s); simpl in H; [|done].
  case_match; [done|]. injection H as <-. by eexists.
Qed.

Lemma exn_bind_Ok {A B} (m : exn str A) (k : A → exn str B) y :
  exn_bind m k = Ok y → ∃ x, m = Ok x ∧ k x = Ok y.
Proof. destruct m; simpl; [by eauto|done]. Qed.

Lemma parseKeyword_extends pkg tag s pkg' :
  parseKeyword pkg tag s = Ok pkg' → extends pkg pkg'.
Proof.
  unfold parseKeyword. intros H.
  repeat match type of H with
  | (if ?b then _ else _) = _ => destruct b
  end;
  first
  [ apply exn_bind_Ok in H as (x & Hx & [= <-]);
    first [ apply parseStringField_Ok in Hx | apply parseLibs_Ok in Hx
          | apply parseVersionsField_Ok in Hx ];
    split; simpl; try done; intros ?; congruence
  | apply parseCFlags_Ok in H as (Hc & x & ->);
    split; simpl; try done; intros ?; congruence
  | by injection H as <- ].
Qed.

Lemma parseVariable_extends pkg tag s pkg' :
  parseVariable pkg tag s = Ok pkg' → extends pkg pkg'.
Proof.
  unfold parseVariable. intros (x & Hx & H)%exn_bind_Ok.
  destruct (variables pkg !! tag) eqn:E; [done|]. injection H as <-.
  split; simpl; try done. by apply insert_subseteq.
Qed.

Lemma parseLine_extends_aux pkg s pkg' : parseLine pkg s = Ok pkg' → extends pkg pkg'.
Proof.
  unfold parseLine. intros H. repeat case_match; simplify_eq; try done.
  - by eapply parseKeyword_extends.
  - by eapply parseVariable_extends.
Qed.

Lemma parseLines_extends fuel file pkg pkg' :
  parseLines fuel file pkg = Some (Ok pkg') → extends pkg pkg'.
Proof.
  revert file pkg. induction fuel as [|fuel IH]; intros file pkg; simpl; [done|].
  destruct (readOneLine file) as [[ok line] rest]. destruct ok; [|by intros [= <-]].
  destruct (parseLine pkg line) eqn:E; [|done]. intros H%IH.
  etrans; [by eapply parseLine_extends_aux|done].
Qed.
End Extends.

(** ** A printed flag field *)

(** The pieces that print an argument: every character is escaped for
    [splitCommand], and a dollar sign is doubled for [trimAndSubstitute]. *)
Fixpoint argPieces (a : str) : list piece :=
  match a with
  | [] => []
  | c :: a => PChar BACKSLASH :: (if c =c "$" then PDollar else PChar c) :: argPieces a
  end.

Fixpoint commandPieces (args : list str) : list piece :=
  match args with
  | [] => []
  | [a] => argPieces a
  | a :: args' => argPieces a ++ PChar " " :: commandPieces args'
  end.

Definition printFlags (fs : list Flag.t) : str :=
  printPieces (commandPieces (flagsToArgs fs)).

Lemma printPieces_app ps qs : printPieces (ps ++ qs) = printPieces ps ++ printPieces qs.
Proof. induction ps as [|p ps IH]; [done|]. simpl. by rewrite IH, (assoc_L (++)). Qed.

Lemma argPieces_wf a : Forall wfPiece (argPieces a).
Proof.
  induction a as [|c a IH]; [constructor|]. simpl.
  constructor; [done|]. constructor; [|done].
  by destruct (Ascii.eqb_spec c "$").
Qed.

Lemma commandPieces_wf args : Forall wfPiece (commandPieces args).
Proof.
  induction args as [|a [|b args] IH]; [constructor|apply argPieces_wf|].
  apply Forall_app. split; [apply argPieces_wf|]. by constructor.
Qed.

Section FlagField.
Context {varSource : VariableSource}.

Lemma evalPieces_app pkg ps qs :
  evalPieces pkg (ps ++ qs) =
  let* s := evalPieces pkg ps in let* t := evalPieces pkg qs in Ok (s ++ t).
Proof.
  induction ps as [|p ps IH]; simpl.
  { by destruct (evalPieces pkg qs). }
  rewrite IH. destruct p; try (destruct (is_nil _); [done|]);
    destruct (evalPieces pkg ps), (evalPieces pkg qs); simpl; try done.
  by rewrite (assoc_L (++)).
Qed.

Lemma evalPieces_arg pkg a : evalPieces pkg (argPieces a) = Ok (escapeArg a).
Proof.
  induction a as [|c a IH]; [done|]. simpl.
  destruct (Ascii.eqb_spec c "$") as [->|]; simpl; by rewrite IH.
Qed.

Lemma evalPieces_command pkg args :
  evalPieces pkg (commandPieces args) = Ok (joinWith " " (map escapeArg args)).
Proof.
  induction args as [|a [|b args] IH]; [done|apply evalPieces_arg|].
  change (commandPieces (a :: b :: args))
    with (argPieces a ++ PChar " " :: commandPieces (b :: args)).
  rewrite evalPieces_app, evalPieces_arg. simpl evalPieces. simpl in IH. rewrite IH. done.
Qed.
End FlagField.

Lemma last_argPieces a d :
  last a = Some d → last (printPieces (argPieces a)) = Some d.
Proof.
  induction a as [|c a IH]; [done|]. intros Hd. simpl.
  assert (last (printPiece (if c =c "$" then PDollar else PChar c)) = Some c) as Hc
    by (by destruct (Ascii.eqb_spec c "$") as [->|]).
  destruct a as [|c' a].
  - injection Hd as <-. rewrite <-Hc. by destruct (c =c "$").
  - rewrite last_cons, last_app, IH by done. done.
Qed.

Definition goodArg (a : str) : Prop := a ≠ [] ∧ ∀ d, last a = Some d → isspace d = false.

Lemma command_tight args :
  Forall goodArg args → tight (printPieces (commandPieces args)).
Proof.
  intros Hargs. split.
  - intros c Hc. destruct Hargs as [|a args [Ha _] _]; [done|].
    destruct a as [|c' a]; [done|]. by destruct args; injection Hc as <-.
  - induction Hargs as [|a args [Ha Hl] Hargs IH]; [done|]. intros d Hd.
    destruct args as [|b args].
    + destruct (last a) as [e|] eqn:E; [|by apply last_None in E].
      simpl in Hd. rewrite (last_argPieces a e E) in Hd. injection Hd as <-. by apply Hl.
    + change (commandPieces (a :: b :: args))
        with (argPieces a ++ PChar " " :: commandPieces (b :: args)) in Hd.
      rewrite printPieces_app, last_app in Hd.
      change (printPieces (PChar " " :: commandPieces (b :: args)))
        with (" "%char :: printPieces (commandPieces (b :: args))) in Hd.
      rewrite last_cons in Hd.
      destruct (last (printPieces (commandPieces (b :: args)))) as [e|] eqn:E.
      { injection Hd as <-. by apply IH. }
      exfalso. apply last_None in E. inversion_clear Hargs as [|? ? [Hb _] _].
      destruct b; [done|]. by destruct args.
Qed.

Lemma flagsToArgs_good fs :
  Forall wfLibFlag fs → Forall (λ f, Flag.type f = Flag.Framework → Flag.value f ≠ []) fs →
  Forall goodArg (flagsToArgs fs).
Proof.
  induction 1 as [|f fs [Hv Hf] _ IH]; intros Hfs; [constructor|].
  inversion_clear Hfs as [|? ? Hfw Hfs']. apply Forall_app. split; [|by apply IH].
  assert (tight (Flag.value f)) as Ht by (rewrite <-Hv; apply trimmed_tight).
  assert (∀ c, isspace c = false → goodArg ("-"%char :: c :: Flag.value f)) as Hp.
  { intros c Hc. split; [done|].
    apply (tight_prefix ["-"%char; c]); [by exists "-"%char, c|done]. }
  destruct f as [ty v]; unfold flagToArgs; simpl in *.
  assert (classifyLib v = [Flag.mk ty v] → goodArg v) as Hg.
  { intros Hc. split; [by intros ->|apply Ht]. }
  destruct ty; try done;
    (apply Forall_cons; split;
     [|first [ apply Forall_nil_2 | apply Forall_cons; split; [|apply Forall_nil_2]]]);
    first [ by apply Hp | by apply Hg | by apply Hg, Hf | idtac ].
  - split; [done|]. by intros d [= <-].
  - split; [by apply Hfw|apply Ht].
Qed.

Lemma goodArg_nonempty args : Forall goodArg args → Forall (λ a, a ≠ []) args.
Proof. intros H. eapply Forall_impl; [exact H|]. by intros a [? _]. Qed.

(** ** Properties *)

(** [readOneLine] delivers the text of a line whose [#] characters are
    escaped, without the comment that may follow it, and leaves the file behind
    the newline; at the end of the file it delivers the last line, and says that
    there was one exactly when the file was not exhausted. *)
Theorem readOneLine_correct (t comment rest : str) :
  plainLine t → Forall (λ c, c ≠ LF) comment →
  readOneLine (escapeLine t ++ LF :: rest) = (true, t, rest) ∧
  readOneLine (escapeLine t ++ "#"%char :: comment ++ LF :: rest) = (true, t, rest) ∧
  readOneLine (escapeLine t) = (negb (is_nil t), t, []).
Proof.
  intros Ht Hc. unfold readOneLine. split_and!.
  - destruct (readOneLine_loop_escaped t (LF :: rest) [] 0 Ht) as (n & Hn & _ & ->); [lia|].
    simpl. f_equal. f_equal. apply Z.ltb_lt. lia.
  - destruct (readOneLine_loop_escaped t ("#"%char :: comment ++ LF :: rest) [] 0 Ht)
      as (n & Hn & _ & ->); [lia|].
    simpl. rewrite readOneLine_loop_comment by first [done|lia]. done.
  - rewrite <-(app_nil_r (escapeLine t)).
    destruct t as [|c t]; [done|].
    destruct (readOneLine_loop_escaped (c :: t) [] [] 0 Ht) as (n & Hn & Hp & ->); [lia|].
    simpl. f_equal. f_equal. apply Z.ltb_lt. by apply Hp.
Qed.

Lemma readOneLine_correct_witness :
  readOneLine (lit "Name: a\#b # c" ++ LF :: lit "x") =
  (true, lit "Name: a#b ", lit "x").
Proof.
  refine (proj1 (proj2 (readOneLine_correct "Name: a#b " " c" "x" _ _))).
  - repeat constructor; by vm_compute.
  - repeat constructor; by vm_compute.
Defined.

(** [trimmed] removes the white space at both ends of a text and nothing
    else: the text is the result between two runs of white space, and the result
    is the only text without white space at its ends with that property. *)
Theorem trimmed_correct (s t ws1 ws2 : str) :
  (∃ l r, s = l ++ trimmed s ++ r ∧ all_space l ∧ all_space r) ∧
  tight (trimmed s) ∧
  (s = ws1 ++ t ++ ws2 → all_space ws1 → all_space ws2 → tight t → trimmed s = t).
Proof.
  split_and!.
  - destruct (tight_decompose s) as (l & u & r & -> & ? & ? & ?).
    exists l, r. by rewrite trimmed_middle.
  - apply trimmed_tight.
  - intros -> ???. by apply trimmed_middle.
Qed.

Lemma trimmed_correct_witness : trimmed "  a b " = "a b".
Proof.
  refine (proj2 (proj2 (trimmed_correct "  a b " "a b" "  " " ")) _ _ _ _).
  - done.
  - repeat constructor.
  - repeat constructor.
  - split; intros c [= <-]; done.
Defined.

(** A list of requirements written the way a [.pc] file states it, names
    with an optional operator and version, separated by commas, is parsed back
    to the same requirements. *)
Theorem parseModuleList_roundtrip (pkg : PcPackage) (rs : list RequiredVersion.t) :
  Forall wfModule rs →
  parseModuleList pkg (joinWith ", " (map printModule rs)) = Ok rs.
Proof.
  intros Hrs. unfold parseModuleList, splitModuleList. destruct rs as [|r rs]; [done|].
  rewrite splitModuleList_printed by done. by apply parseModules_print.
Qed.

Definition example_modules : list RequiredVersion.t :=
  [RequiredVersion.mk "glib-2.0" RequiredVersion.GreaterThanEqual "2.40";
   RequiredVersion.mk "zlib" RequiredVersion.AlwaysMatch [];
   RequiredVersion.mk "foo" RequiredVersion.NotEqual "1.2.3"].

Lemma parseModuleList_roundtrip_witness :
  parseModuleList emptyPackage "glib-2.0 >= 2.40, zlib, foo != 1.2.3" =
  Ok example_modules.
Proof.
  refine (parseModuleList_roundtrip emptyPackage example_modules _).
  by apply (bool_decide_unpack _).
Defined.

Section Properties.
Context {varSource : VariableSource}.

(** C31: [trimAndSubstitute] gives a field its meaning: [$$] is a dollar sign,
    [${var}] is the value of the variable, every other character stands for
    itself, and the first variable without a value is the error reported. *)
Theorem trimAndSubstitute_correct (pkg : PcPackage) (ps : list piece) (ws1 ws2 : str) :
  Forall wfPiece ps → tight (printPieces ps) → all_space ws1 → all_space ws2 →
  trimAndSubstitute pkg (ws1 ++ printPieces ps ++ ws2) = evalPieces pkg ps.
Proof.
  intros Hps Ht H1 H2. unfold trimAndSubstitute. rewrite trimmed_middle by done.
  rewrite substitute_loop_print by first [done|lia]. simpl.
  by destruct (evalPieces pkg ps).
Qed.


(** C39: the parser terminates on every input: [substitute_loop] and the loop
    over the lines of a file always finish within the fuel they are given, so
    that the defaults of [trimAndSubstitute] and [parsePackageFile] are never
    used. *)
Theorem parser_terminates (pkg : PcPackage) (s file : str) :
  (∃ r, substitute_loop (S (length (trimmed s))) pkg (trimmed s) [] = Some r ∧
        trimAndSubstitute pkg s = r) ∧
  (∃ r, parseLines (S (length file)) file pkg = Some r).
Proof.
  split.
  - destruct (substitute_loop_total (S (length (trimmed s))) pkg (trimmed s) [])
      as (r & E); [lia|].
    exists r. split; [done|]. unfold trimAndSubstitute. by rewrite E.
  - apply parseLines_total. lia.
Qed.

(** A line only adds to a package: the members that are already set and
    the variables already defined keep their values, a second definition being
    an error. *)
Theorem parseLine_extends (pkg pkg' : PcPackage) (line : str) :
  parseLine pkg line = Ok pkg' → extends pkg pkg'.
Proof. apply parseLine_extends_aux. Qed.

(** [parsePackageFile] returns a package for every path; a valid package
    carries the path's generic form, its base name and the directory of the file
    as [pcfiledir], whatever the file says; a broken one carries the path and
    its base name, and a file that cannot be opened gives a broken package. *)
Theorem parsePackageFile_identity
    (open_file : str → option str) (generic_string parent_path : str → str) (path : str) :
  path ≠ [] →
  match parsePackageFile open_file generic_string parent_path path with
  | Valid pkg =>
      (∃ file, open_file path = Some file) ∧
      filePath pkg = generic_string path ∧ baseFileName pkg = baseName path ∧
      variables pkg !! lit "pcfiledir" = Some (generic_string (parent_path path))
  | Broken b =>
      broken_filePath b = path ∧ broken_baseFileName b = baseName path ∧
      (open_file path = None →
       errorText b = lit "Can't open file " ++ path)
  end.
Proof.
  intros Hpath. unfold parsePackageFile, parsePackageFile_body.
  destruct (is_nil path) eqn:E; [by apply is_nil_true in E|].
  destruct (open_file path) as [file|] eqn:Ef; [|done].
  destruct (parseLines_total (S (length file)) file
    (set_variables (<[lit "pcfiledir" := generic_string (parent_path path)]> (variables
       (set_filePath (generic_string path) (set_baseFileName (baseName path) emptyPackage))))
       (set_filePath (generic_string path) (set_baseFileName (baseName path) emptyPackage))))
    as ([pkg|e] & Er); [lia| |]; rewrite Er; simpl.
  - apply parseLines_extends in Er as []. simpl in *.
    split; [by exists file|]. split; [done|]. split; [done|].
    eapply lookup_weaken; [apply lookup_insert_eq|done].
  - done.
Qed.
End Properties.

Definition example_vars : VariableSource :=
  λ pkg var, if bool_decide (var = "prefix") then lit "/usr" else [].

Lemma trimAndSubstitute_correct_witness :
  trimAndSubstitute (varSource := example_vars) emptyPackage " ${prefix}$$a " =
  Ok (lit "/usr$a").
Proof.
  refine (trimAndSubstitute_correct (varSource := example_vars) emptyPackage
    [PVar "prefix"; PDollar; PChar "a"] " " " " _ _ _ _).
  - repeat constructor; by vm_compute.
  - split; intros c [= <-]; done.
  - repeat constructor.
  - repeat constructor.
Defined.

Definition example_flags : list Flag.t :=
  [Flag.mk Flag.LibraryPath "/usr/my lib"; Flag.mk Flag.LibraryName "foo";
   Flag.mk Flag.Framework "Cocoa"; Flag.mk Flag.StaticLibraryName "/usr/$lib/bar.a";
   Flag.mk Flag.LinkerFlag "-lib:baz"].


Lemma parseLine_extends_witness :
  extends (set_name "n" emptyPackage) (set_url "u" (set_name "n" emptyPackage)).
Proof.
  refine (parseLine_extends (varSource := example_vars) _ _ " URL : u" _).
  by vm_compute.
Defined.

Lemma parsePackageFile_identity_witness :
  errorText (mkPcBrokenPackage "/a/b.pc" "b" "Can't open file /a/b.pc") =
  lit "Can't open file /a/b.pc".
Proof.
  refine (proj2 (proj2 (parsePackageFile_identity (varSource := example_vars)
    (λ _, None) id id "/a/b.pc" _)) _); done.
Defined.

(** The base name of a path is the name of the file after the last slash,
    up to its last dot; a path without a slash, or a file name without a dot,
    has the empty base name. *)
Theorem baseName_correct (dir b ext : str) :
  "/"%char ∉ b → "/"%char ∉ ext → "."%char ∉ ext →
  baseName (dir ++ "/"%char :: b ++ "."%char :: ext) = b ∧
  baseName (b ++ "."%char :: ext) = [] ∧
  baseName (dir ++ "/"%char :: ext) = [].
Proof.
  intros Hb He Hd. assert ("/"%char ∉ b ++ "."%char :: ext) as Hbe.
  { intros [?|[?|?]%elem_of_cons]%elem_of_app; [done| |done]. congruence. }
  unfold baseName. split_and!.
  - rewrite rsplit_app by done. by rewrite rsplit_app.
  - by rewrite (rsplit_None "/") by done.
  - rewrite rsplit_app by done. by rewrite rsplit_None.
Qed.

Lemma baseName_correct_witness : baseName "/usr/lib/foo-2.0.pc" = "foo-2.0".
Proof.
  refine (proj1 (baseName_correct "/usr/lib" "foo-2.0" "pc" _ _ _));
    by apply (bool_decide_unpack _).
Defined.
