(* ===== verification/PkgConfig.v ===== *)
(** * The package database ([lib/pkgconfig/pkgconfig.cpp])

    Version comparison, the lookup of packages and variables, the merging of
    dependencies and the search for package files.  Pointers to the packages of a
    [std::vector] are their indices.  [PkgConfig] is the variable source of the
    parser of [PcParser.v]. *)

From S2P Require Import Prelude PcPackage PcParser.

(** ** Helpers *)

Definition varToEnvVar (pkg var : str) : str :=
  map (λ p, let c := toupper p in if negb (isalnum c) then "_"%char else c)
    (lit "PKG_CONFIG_" ++ pkg ++ "_"%char :: var).

(** The loop of [split]: [token] is the text since the last delimiter. *)
Fixpoint split_loop (delim : char) (s token : str) (result : list str) : list str :=
  let push := if is_nil token then result else result ++ [token] in
  match s with
  | [] => push
  | c :: s' =>
      if c =c delim then split_loop delim s' [] push
      else split_loop delim s' (token ++ [c]) result
  end.

Definition split (s : str) (delim : char) : list str := split_loop delim s [] [].

Definition listSeparator : char := ":".

(** [v[i] - '0'] for a signed [char]. *)
Definition digit (c : char) : Z :=
  (if (code c <? 128)%N then Z.of_N (code c) else Z.of_N (code c) - 256) - 48.

(** One component of a version: the [size_t] accumulated up to the next dot, and
    the text after the dot. *)
Fixpoint versionComponent (v : str) (acc : Z) : Z * str :=
  match v with
  | [] => (acc, [])
  | c :: v' =>
      if c =c "." then (acc, v')
      else versionComponent v' ((acc * 10 + digit c) mod 2 ^ 64)
  end.

Fixpoint compareVersions_loop (fuel : nat) (v1 v2 : str) : option Z :=
  match fuel with
  | O => None
  | S fuel =>
      if is_nil v1 && is_nil v2 then Some 0%Z
      else
        let '(acc1, v1) := versionComponent v1 0 in
        let '(acc2, v2) := versionComponent v2 0 in
        if (acc1 <? acc2)%Z then Some (-1)%Z
        else if (acc2 <? acc1)%Z then Some 1%Z
        else compareVersions_loop fuel v1 v2
  end.

Definition compareVersions (v1 v2 : str) : Z :=
  default 0%Z (compareVersions_loop (S (length v1 + length v2)) v1 v2).

Definition versionTest (comparison : RequiredVersion.ComparisonType) (a b : str) : bool :=
  match comparison with
  | RequiredVersion.LessThan => (compareVersions a b <? 0)%Z
  | RequiredVersion.GreaterThan => (0 <? compareVersions a b)%Z
  | RequiredVersion.LessThanEqual => (compareVersions a b <=? 0)%Z
  | RequiredVersion.GreaterThanEqual => (0 <=? compareVersions a b)%Z
  | RequiredVersion.Equal => (compareVersions a b =? 0)%Z
  | RequiredVersion.NotEqual => negb (compareVersions a b =? 0)%Z
  | RequiredVersion.AlwaysMatch => true
  end.

Definition unknownPackageMessage (package : str) : str :=
  lit "Can't find package '" ++ package ++ quote_.

(** ** Options, packages and variables *)

Record Options : Set := mkOptions {
  libDirs : list (list ascii);
  extraPaths : list (list ascii);
  sysroot : list ascii;
  topBuildDir : list ascii;
  allowSystemLibraryPaths : bool;
  systemLibraryPaths : list (list ascii);
  disableUninstalled : bool;
  staticMode : bool;
  opt_mergeDependencies : bool;
  globalVariables : gmap (list ascii) (list ascii);
  systemVariables : gmap (list ascii) (list ascii)
}.

Definition defaultOptions : Options :=
  mkOptions [] [] [] [] false [] true false true ∅ ∅.

(** The options the constructor settles on; the two arguments are the macros of
    the build, [PKG_CONFIG_PC_PATH] and [PKG_CONFIG_SYSTEM_LIBRARY_PATH]. *)
Definition completeOptions (pcPath systemLibraryPath : str) (o : Options) : Options :=
  let libDirs :=
    if is_nil (libDirs o) then split pcPath listSeparator else libDirs o in
  let topBuildDir :=
    if is_nil (topBuildDir o) then lit "$(top_builddir)" else topBuildDir o in
  let systemLibraryPaths :=
    if is_nil (systemLibraryPaths o) then split systemLibraryPath ":"
    else systemLibraryPaths o in
  let sysrootdir := if is_nil (sysroot o) then lit "/" else sysroot o in
  mkOptions libDirs (extraPaths o) (sysroot o) topBuildDir (allowSystemLibraryPaths o)
    systemLibraryPaths (disableUninstalled o) (staticMode o) (opt_mergeDependencies o)
    (<[lit "pc_top_builddir" := topBuildDir]>
       (<[lit "pc_sysrootdir" := sysrootdir]> (globalVariables o)))
    (systemVariables o).

(** [std::lower_bound] on the packages, sorted by their base names. *)
Definition getPackage (packages : list PcPackageVariant) (name : str) :
    exn str PcPackageVariant :=
  match drop_while (λ p, str_ltb (getBaseFileName p) name) packages with
  | [] => Throw (unknownPackageMessage name)
  | p :: _ =>
      if bool_decide (name = getBaseFileName p) then Ok p
      else Throw (unknownPackageMessage name)
  end.

Definition options_packageGetVariable (o : Options) (pkg : PcPackage) (var : str) : str :=
  if is_nil var then []
  else
    let varval := default [] (globalVariables o !! var) in
    let override :=
      if negb (is_nil (baseFileName pkg))
      then systemVariables o !! varToEnvVar (baseFileName pkg) var else None in
    match override with
    | Some val => val
    | None => if is_nil varval then default [] (variables pkg !! var) else varval
    end.

#[export] Instance options_variables (o : Options) : VariableSource :=
  options_packageGetVariable o.

(** ** Broken dependencies *)

Definition makeMissingDependency (package : PcPackage) (d : RequiredVersion.t) :
    PcBrokenPackage :=
  mkPcBrokenPackage (filePath package) (baseFileName package)
    (lit "Package " ++ name package ++ lit " requires package " ++ RequiredVersion.name d ++
     lit " but it is not found").

Definition makeBrokenDependency (package : PcPackage) (d : RequiredVersion.t) :
    PcBrokenPackage :=
  mkPcBrokenPackage (filePath package) (baseFileName package)
    (lit "Package " ++ name package ++ lit " requires package " ++ RequiredVersion.name d ++
     lit " but it is broken").

Definition makeVersionMismatchDependency (package depPackage : PcPackage)
    (d : RequiredVersion.t) : PcBrokenPackage :=
  mkPcBrokenPackage (filePath package) (baseFileName package)
    (lit "Package " ++ name package ++ lit " requires version " ++
     RequiredVersion.comparisonToString (RequiredVersion.comparison d) ++
     RequiredVersion.version d ++ lit " but " ++ version depPackage ++ lit " is present").

(** ** Merging the dependencies *)

Definition canHaveDuplicates (ty : Flag.Type_) : bool :=
  bool_decide (ty = Flag.LinkerFlag) || bool_decide (ty = Flag.CompilerFlag).

(** [mergeFlags]: [target] grows, [visitedFlags] remembers what was seen. *)
Fixpoint mergeFlags (visitedFlags : gset Flag.t) (target source : list Flag.t) :
    gset Flag.t * list Flag.t :=
  match source with
  | [] => (visitedFlags, target)
  | flag :: source' =>
      if canHaveDuplicates (Flag.type flag) then
        mergeFlags visitedFlags (target ++ [flag]) source'
      else if bool_decide (flag ∈ visitedFlags) then mergeFlags visitedFlags target source'
      else mergeFlags ({[flag]} ∪ visitedFlags) (target ++ [flag]) source'
  end.

Record MergedHashEntry : Set := mkEntry {
  entry_package : PcPackageVariant;
  entry_deps : list nat
}.

(** What [mergedHash[key]] inserts. *)
Definition emptyEntry : MergedHashEntry := mkEntry (Valid emptyPackage) [].

Abbreviation mergedHash_t := (gmap (list ascii) MergedHashEntry).

Section MergeDependencies.
Context (isStatic : bool) (packages : list PcPackageVariant).

(** The loop that fills [packageHash]: the last package with a name stays. *)
Fixpoint packageHash_loop (i : nat) (ps : list PcPackageVariant)
    (hash : gmap (list ascii) nat) : gmap (list ascii) nat :=
  match ps with
  | [] => hash
  | p :: ps' => packageHash_loop (S i) ps' (<[getBaseFileName p := i]> hash)
  end.

Definition packageHash : gmap (list ascii) nat := packageHash_loop 0 packages ∅.

Definition metaInfo (package : PcPackage) : PcPackage :=
  set_variables (variables package)
    (set_url (url package)
      (set_description (description package)
        (set_version (version package)
          (set_name (name package)
            (set_baseFileName (baseFileName package)
              (set_filePath (filePath package) emptyPackage)))))).

Definition allDependencies (package : PcPackage) : list RequiredVersion.t :=
  requiresPublic package ++ (if isStatic then requiresPrivate package else []).

(** [entry.deps.push_back(dep)] for the entry of [key]. *)
Definition pushDep (key : str) (dep : nat) (hash : mergedHash_t) : mergedHash_t :=
  alter (λ e, mkEntry (entry_package e) (entry_deps e ++ [dep])) key hash.

(** The loop over [childEntry.deps]. *)
Fixpoint pushDeps (key : str) (deps : list nat) (visitedDeps : gset nat)
    (hash : mergedHash_t) : gset nat * mergedHash_t :=
  match deps with
  | [] => (visitedDeps, hash)
  | dep :: deps' =>
      if bool_decide (dep ∈ visitedDeps) then pushDeps key deps' visitedDeps hash
      else pushDeps key deps' ({[dep]} ∪ visitedDeps) (pushDep key dep hash)
  end.

(** The loop over [allDependencies]; [f] is the recursive call.  [Some] of a
    broken package is an early return. *)
Fixpoint dependencyLoop
    (f : mergedHash_t → nat → option (mergedHash_t * MergedHashEntry))
    (key : str) (result : PcPackage) (dependencies : list RequiredVersion.t)
    (visitedDeps : gset nat) (hash : mergedHash_t) :
    option (mergedHash_t * option PcBrokenPackage) :=
  match dependencies with
  | [] => Some (hash, None)
  | dependency :: dependencies' =>
      match packageHash !! RequiredVersion.name dependency with
      | None => Some (hash, Some (makeMissingDependency result dependency))
      | Some child =>
          match f hash child with
          | None => None
          | Some (hash, childEntry) =>
              match entry_package childEntry with
              | Broken _ => Some (hash, Some (makeBrokenDependency result dependency))
              | Valid mergedPackage =>
                  if negb (versionTest (RequiredVersion.comparison dependency)
                             (version mergedPackage) (RequiredVersion.version dependency))
                  then Some (hash,
                         Some (makeVersionMismatchDependency result mergedPackage dependency))
                  else
                    let '(visitedDeps, hash) :=
                      pushDeps key (entry_deps childEntry) visitedDeps hash in
                    dependencyLoop f key result dependencies' visitedDeps hash
              end
          end
      end
  end.

(** The loop over [entry.deps] that merges the flags. *)
Fixpoint mergeDepFlags (visitedFlags : gset Flag.t) (deps : list nat) (result : PcPackage) :
    PcPackage :=
  match deps with
  | [] => result
  | dep :: deps' =>
      match packages !! dep with
      | Some (Valid p) =>
          let '(visitedFlags, libs') := mergeFlags visitedFlags (libs result) (libs p) in
          let '(visitedFlags, cflags') := mergeFlags visitedFlags (cflags result) (cflags p) in
          mergeDepFlags visitedFlags deps' (set_cflags cflags' (set_libs libs' result))
      | _ => mergeDepFlags visitedFlags deps' result
      end
  end.

Definition setEntryPackage (key : str) (p : PcPackageVariant) (hash : mergedHash_t) :
    mergedHash_t :=
  alter (λ e, mkEntry p (entry_deps e)) key hash.

(** The visitor; the entry of [key] has been inserted. *)
Definition visitor (f : mergedHash_t → nat → option (mergedHash_t * MergedHashEntry))
    (i : nat) (key : str) (variant : PcPackageVariant) (hash : mergedHash_t) :
    option (mergedHash_t * PcPackageVariant) :=
  match variant with
  | Broken b => Some (hash, Broken b)
  | Valid package =>
      let result := metaInfo package in
      match dependencyLoop f key result (allDependencies package) ∅ hash with
      | None => None
      | Some (hash, Some broken) => Some (hash, Broken broken)
      | Some (hash, None) =>
          let hash := pushDep key i hash in
          let deps := entry_deps (default emptyEntry (hash !! key)) in
          Some (hash, Valid (mergeDepFlags ∅ deps result))
      end
  end.

(** [func]; the package is given by its index. *)
Fixpoint func (fuel : nat) (hash : mergedHash_t) (i : nat) :
    option (mergedHash_t * MergedHashEntry) :=
  match fuel, packages !! i with
  | S fuel, Some package =>
      let key := getBaseFileName package in
      match hash !! key with
      | Some entry => Some (hash, entry)
      | None =>
          match visitor (func fuel) i key package (<[key := emptyEntry]> hash) with
          | None => None
          | Some (hash, p) =>
              let hash := setEntryPackage key p hash in
              Some (hash, default emptyEntry (hash !! key))
          end
      end
  | _, _ => None
  end.

Fixpoint funcs (fuel : nat) (idxs : list nat) (hash : mergedHash_t) : option mergedHash_t :=
  match idxs with
  | [] => Some hash
  | i :: idxs' =>
      match func fuel hash i with
      | None => None
      | Some (hash, _) => funcs fuel idxs' hash
      end
  end.

Definition mergedHash : option mergedHash_t :=
  funcs (S (length packages)) (seq 0 (length packages)) ∅.
End MergeDependencies.

(** The result lists the hash in the order of its iteration, [hash_order]. *)
Definition mergeDependencies
    (hash_order : mergedHash_t → list (list ascii * MergedHashEntry))
    (o : Options) (packages : list PcPackageVariant) : list PcPackageVariant :=
  map (λ kv, entry_package kv.2)
    (hash_order (default ∅ (mergedHash (staticMode o) packages))).

(** ** Finding the packages *)

(** [s.find(needle) != npos] *)
Fixpoint containsSubstring (s needle : str) : bool :=
  startsWith s needle || match s with [] => false | _ :: s' => containsSubstring s' needle end.

Definition lessThanPackage (lhs rhs : PcPackageVariant) : bool :=
  str_ltb (getBaseFileName lhs) (getBaseFileName rhs).

Section FindPackages.
(** The file system, as [std::filesystem] shows it. *)
Context (path_exists : list ascii → bool).
Context (directory_entries : list ascii → list (list ascii)).
Context (extension generic_string parent_path : list ascii → list ascii).
Context (open_file : list ascii → option (list ascii)).
(** The order in which [mergedHash] is iterated. *)
Context (hash_order : mergedHash_t → list (list ascii * MergedHashEntry)).

Definition getPcFilePaths (searchPaths : list str) : list str :=
  let paths :=
    flat_map (λ searchPath,
      if path_exists searchPath
      then List.filter (λ entry, bool_decide (extension entry = ".pc"))
             (directory_entries searchPath)
      else []) searchPaths in
  map generic_string paths.

(** The body of the loop of [findPackages]. *)
Definition loadPackage (o : Options) (pcFilePath : str) : PcPackageVariant :=
  let systemLibraryPaths : gset (list ascii) :=
    if negb (allowSystemLibraryPaths o) then list_to_set (systemLibraryPaths o) else ∅ in
  match parsePackageFile (varSource := options_variables o)
          open_file generic_string parent_path pcFilePath with
  | Valid p => Valid (prependSysroot (sysroot o) (removeSystemLibraryPaths systemLibraryPaths p))
  | Broken b => Broken b
  end.

Definition skipped (o : Options) (pcFilePath : str) : bool :=
  disableUninstalled o && containsSubstring pcFilePath "-uninstalled.pc".

Definition findPackages (o : Options) : list PcPackageVariant :=
  let pcFilePaths := getPcFilePaths (extraPaths o ++ libDirs o) in
  let result := map (loadPackage o) (List.filter (λ p, negb (skipped o p)) pcFilePaths) in
  let result :=
    if opt_mergeDependencies o then mergeDependencies hash_order o result else result in
  std_sort lessThanPackage result.
End FindPackages.
