(* ===== verification/PkgConfigCorrect.v ===== *)
(** * Correctness of the package database

    Facts about [PkgConfig.v]: merging terminates
    and, without cyclic requirements, computes the solution of the merge
    equations; the flags and dependencies of a merged package; the order of
    versions; the lookup of packages after [findPackages]. *)

From S2P Require Import Prelude PcPackage PcParser PcParserCorrect PkgConfig.

(** ** The package hash *)

Section MergeProofs.
Context (isStatic : bool) (packages : list PcPackageVariant).
Notation packageHash := (packageHash packages).
Notation allDependencies := (allDependencies isStatic).
Notation func := (func isStatic packages).

Definition lastWithName (ps : list PcPackageVariant) (k : list ascii) (i : nat) : Prop :=
  (∃ p, ps !! i = Some p ∧ getBaseFileName p = k) ∧
  ∀ j p, ps !! j = Some p → getBaseFileName p = k → j ≤ i.

Lemma packageHash_loop_spec n ps h k i :
  packageHash_loop n ps h !! k = Some i ↔
  (∃ j, i = n + j ∧ lastWithName ps k j) ∨
  (h !! k = Some i ∧ ∀ p, p ∈ ps → getBaseFileName p ≠ k).
Proof.
  revert n h. induction ps as [|p ps IH]; intros n h; simpl.
  { split.
    - intros H. right. split; [done|]. by intros p ?%elem_of_nil.
    - intros [(j & _ & (p & Hp & _) & _)|[H _]]; [by rewrite lookup_nil in Hp|done]. }
  rewrite IH. split.
  - intros [(j & -> & (q & Hq & Hk) & Hmax)|[Hl Hno]].
    + left. exists (S j). split; [lia|]. split; [by exists q|].
      intros [|j'] q'; simpl; [lia|]. intros ? ?. apply le_n_S. by eapply Hmax.
    + destruct (decide (getBaseFileName p = k)) as [Hk|Hk].
      * rewrite Hk, lookup_insert_eq in Hl. injection Hl as <-. left. exists 0.
        split; [lia|]. split; [by exists p|].
        intros [|j'] q' Hq' Hk'; [lia|]. exfalso. eapply Hno; [|done].
        by eapply list_elem_of_lookup_2.
      * rewrite lookup_insert_ne in Hl by done. right. split; [done|].
        intros q [->|Hq]%elem_of_cons; [done|]. by apply Hno.
  - intros [(j & -> & (q & Hq & Hk) & Hmax)|[Hl Hno]].
    + destruct j as [|j].
      * right. simpl in Hq. injection Hq as ->. rewrite Hk, lookup_insert_eq.
        split; [f_equal; lia|]. intros q' [j Hj]%list_elem_of_lookup_1 Hk'.
        specialize (Hmax (S j) q' Hj Hk'). lia.
      * left. exists j. split; [lia|]. split; [by exists q|].
        intros j' q' Hq' Hk'. specialize (Hmax (S j') q' Hq' Hk'). lia.
    + right. split.
      * rewrite lookup_insert_ne; [done|]. apply Hno. left.
      * intros q Hq. apply Hno. by right.
Qed.

Lemma packageHash_spec k i : packageHash !! k = Some i ↔ lastWithName packages k i.
Proof.
  unfold PkgConfig.packageHash. rewrite packageHash_loop_spec. split.
  - intros [(j & -> & H)|[H _]]; [done|by rewrite lookup_empty in H].
  - intros H. left. by exists i.
Qed.

Lemma packageHash_Some k i :
  packageHash !! k = Some i → ∃ p, packages !! i = Some p ∧ getBaseFileName p = k.
Proof. by intros [? _]%packageHash_spec. Qed.

(** ** Merging, seen from one entry

    [addDeps acc ds]: the dependencies after the loop over [childEntry.deps]. *)
Definition addDeps (acc ds : list nat) : list nat :=
  foldl (λ acc d, if bool_decide (d ∈ acc) then acc else acc ++ [d]) acc ds.

(** The result of the loop over the dependencies of a package, when [R name e]
    says that [e] is the entry used for the dependency [name]. *)
Inductive resolves (R : list ascii → MergedHashEntry → Prop) (result : PcPackage) :
    list RequiredVersion.t → list nat → PcBrokenPackage + list nat → Prop :=
  | resolves_done acc : resolves R result [] acc (inr acc)
  | resolves_missing d ds acc :
      packageHash !! RequiredVersion.name d = None →
      resolves R result (d :: ds) acc (inl (makeMissingDependency result d))
  | resolves_broken d ds acc c e b :
      packageHash !! RequiredVersion.name d = Some c → R (RequiredVersion.name d) e →
      entry_package e = Broken b →
      resolves R result (d :: ds) acc (inl (makeBrokenDependency result d))
  | resolves_mismatch d ds acc c e p :
      packageHash !! RequiredVersion.name d = Some c → R (RequiredVersion.name d) e →
      entry_package e = Valid p →
      versionTest (RequiredVersion.comparison d) (version p) (RequiredVersion.version d)
        = false →
      resolves R result (d :: ds) acc (inl (makeVersionMismatchDependency result p d))
  | resolves_next d ds acc c e p out :
      packageHash !! RequiredVersion.name d = Some c → R (RequiredVersion.name d) e →
      entry_package e = Valid p →
      versionTest (RequiredVersion.comparison d) (version p) (RequiredVersion.version d)
        = true →
      resolves R result ds (addDeps acc (entry_deps e)) out →
      resolves R result (d :: ds) acc out.

(** [e] is what merging gives for the package [i]. *)
Definition merged_at (R : list ascii → MergedHashEntry → Prop) (i : nat)
    (v : PcPackageVariant) (e : MergedHashEntry) : Prop :=
  match v with
  | Broken b => e = mkEntry (Broken b) []
  | Valid p =>
      ∃ out, resolves R (metaInfo p) (allDependencies p) [] out ∧
      match out with
      | inl b => entry_package e = Broken b
      | inr acc =>
          e = mkEntry (Valid (mergeDepFlags packages ∅ (acc ++ [i]) (metaInfo p)))
                (acc ++ [i])
      end
  end.

Definition complete (R : list ascii → MergedHashEntry → Prop) (k : list ascii)
    (e : MergedHashEntry) : Prop :=
  ∃ i v, packages !! i = Some v ∧ getBaseFileName v = k ∧ merged_at R i v e.

Lemma resolves_mono (R R' : list ascii → MergedHashEntry → Prop) result ds acc out :
  (∀ d e, d ∈ ds → is_Some (packageHash !! RequiredVersion.name d) →
          R (RequiredVersion.name d) e → R' (RequiredVersion.name d) e) →
  resolves R result ds acc out → resolves R' result ds acc out.
Proof.
  intros HR. induction 1.
  - constructor.
  - by apply resolves_missing.
  - eapply resolves_broken; eauto. apply HR; [left|by eexists|done].
  - eapply resolves_mismatch; eauto. apply HR; [left|by eexists|done].
  - eapply resolves_next; eauto; [apply HR; [left|by eexists|done]|].
    apply IHresolves. intros d' e' Hd'. apply HR. by right.
Qed.

Lemma pushDeps_spec key ds acc h e :
  h !! key = Some e → entry_deps e = acc →
  pushDeps key ds (list_to_set acc) h =
  (list_to_set (addDeps acc ds),
   alter (λ e, mkEntry (entry_package e) (addDeps acc ds)) key h).
Proof.
  revert acc h e. induction ds as [|d ds IH]; intros acc h e He Hacc; simpl.
  { f_equal. symmetry. apply alter_id. intros e' He'.
    assert (e' = e) as -> by congruence. destruct e; simpl in *. by subst. }
  rewrite (bool_decide_ext (d ∈ list_to_set (C := gset nat) acc) (d ∈ acc))
    by apply elem_of_list_to_set.
  case_bool_decide as Hd.
  { by eapply IH. }
  assert ({[d]} ∪ list_to_set acc =@{gset nat} list_to_set (acc ++ [d])) as ->.
  { rewrite list_to_set_app_L. simpl. set_solver. }
  erewrite (IH (acc ++ [d])); [|by unfold pushDep; rewrite lookup_alter_eq, He|].
  2: { simpl. by rewrite Hacc. }
  f_equal. unfold pushDep. apply map_eq. intros k.
  destruct (decide (k = key)) as [->|Hk]; [|by rewrite !lookup_alter_ne].
  rewrite !lookup_alter_eq, He. done.
Qed.

(** ** One call of [func] *)

Section Func.
Context (rank : list ascii → nat) (acyc : Prop).
Hypothesis Hacyc : acyc → ∀ i p d,
  packages !! i = Some (Valid p) → d ∈ allDependencies p →
  is_Some (packageHash !! RequiredVersion.name d) →
  rank (RequiredVersion.name d) < rank (baseFileName p).

Definition looked_up (h : mergedHash_t) (k : list ascii) (e : MergedHashEntry) : Prop :=
  acyc → h !! k = Some e.

(** The entries are the old ones and completed ones of rank below [bound]. *)
Definition grown (bound : nat) (h0 h : mergedHash_t) : Prop :=
  h0 ⊆ h ∧
  ∀ k e, h !! k = Some e →
    h0 !! k = Some e ∨ (complete (looked_up h) k e ∧ (acyc → rank k < bound)).

Lemma complete_mono h h' k e :
  (acyc → ∀ k' e', rank k' < rank k → h !! k' = Some e' → h' !! k' = Some e') →
  complete (looked_up h) k e → complete (looked_up h') k e.
Proof.
  intros Hh (i & v & Hi & Hk & He). exists i, v. split_and!; [done..|].
  destruct v as [p|b]; [|done]. destruct He as (out & Hout & He).
  exists out. split; [|done]. eapply resolves_mono; [|exact Hout].
  intros d e' Hd Hs Hl Ha. apply Hh; [done| |by apply Hl].
  rewrite <-Hk. by eapply Hacyc.
Qed.

Lemma grown_refl n h : grown n h h.
Proof. split; [done|]. by left. Qed.

(** Entry [key] is under construction: the others have grown from [h0]. *)
Definition building (key : list ascii) (h0 h : mergedHash_t) : Prop :=
  h0 !! key = None ∧ grown (rank key) h0 (delete key h) ∧ is_Some (h !! key).

Lemma building_alter key h0 h g :
  building key h0 h → building key h0 (alter g key h).
Proof.
  intros (Hk & Hg & He). split; [done|]. rewrite delete_alter_eq. split; [done|].
  rewrite lookup_alter_eq. by rewrite fmap_is_Some.
Qed.

Lemma building_grown key h0 h h' n :
  building key h0 h → grown n h h' → (acyc → n ≤ rank key) →
  building key h0 h' ∧ delete key h ⊆ delete key h' ∧ h' !! key = h !! key.
Proof.
  intros (Hk & [Hsub Hg] & [e He]) [Hsub' Hg'] Hn.
  assert (h' !! key = h !! key) as Hsame.
  { rewrite He. by eapply lookup_weaken. }
  assert (delete key h ⊆ delete key h') as Hdel by by apply delete_mono.
  split_and!; [split_and!|..]; [done| |by rewrite Hsame|done|done].
  split; [by etrans|]. intros k e' Hke.
  assert (k ≠ key) as Hne by (intros ->; by rewrite lookup_delete_eq in Hke).
  rewrite lookup_delete_ne in Hke by done.
  destruct (Hg' k e' Hke) as [Hold|[Hc Hr]].
  - destruct (Hg k e') as [Hold'|[Hc Hr]]; [by rewrite lookup_delete_ne|by left|].
    right. split; [|done]. eapply complete_mono; [|exact Hc].
    intros _ k' e'' _ Hl. by eapply lookup_weaken.
  - right. split; [|intros Ha; specialize (Hr Ha); specialize (Hn Ha); lia].
    eapply complete_mono; [|exact Hc]. intros Ha k' e'' Hrk Hl.
    rewrite lookup_delete_ne; [done|]. intros <-.
    specialize (Hr Ha). specialize (Hn Ha). lia.
Qed.

Definition func_correct (f : mergedHash_t → nat → option (mergedHash_t * MergedHashEntry)) :
    Prop :=
  ∀ h c h' e v, f h c = Some (h', e) → packages !! c = Some v →
    grown (S (rank (getBaseFileName v))) h h' ∧ h' !! getBaseFileName v = Some e.

Lemma dependencyLoop_spec f i p h0 ds acc h e0 h' r :
  func_correct f →
  packages !! i = Some (Valid p) → ds ⊆ allDependencies p →
  let key := baseFileName p in
  building key h0 h → h !! key = Some e0 → entry_deps e0 = acc →
  dependencyLoop packages f key (metaInfo p) ds (list_to_set acc) h = Some (h', r) →
  building key h0 h' ∧ delete key h ⊆ delete key h' ∧
  ∃ out e', h' !! key = Some e' ∧
    resolves (looked_up (delete key h')) (metaInfo p) ds acc out ∧
    match out with
    | inl b => r = Some b
    | inr acc' => r = None ∧ entry_deps e' = acc'
    end.
Proof.
  intros Hf Hi Hds key. revert acc h e0.
  induction ds as [|d ds IH]; intros acc h e0 Hb He0 Hacc; simpl.
  { intros [= <- <-]. split_and!; [done..|]. exists (inr acc), e0.
    split_and!; [done|constructor|done|done]. }
  destruct (packageHash !! RequiredVersion.name d) as [c|] eqn:Hc.
  2: { intros [= <- <-]. split_and!; [done..|]. eexists (inl _), e0.
       split_and!; [done|by constructor|done]. }
  destruct (f h c) as [[h1 ce]|] eqn:Efc; [|done].
  destruct (packageHash_Some _ _ Hc) as (v & Hv & Hname).
  destruct (Hf _ _ _ _ _ Efc Hv) as [Hg Hce]. rewrite Hname in Hg, Hce.
  assert (acyc → rank (RequiredVersion.name d) < rank key) as Hrank.
  { intros Ha. eapply Hacyc; [done..|by apply Hds; left|by eexists]. }
  destruct (building_grown _ _ _ _ _ Hb Hg Hrank) as (Hb1 & Hsub & Hkey).
  rewrite He0 in Hkey.
  assert (looked_up (delete key h1) (RequiredVersion.name d) ce) as Hl.
  { intros Ha. rewrite lookup_delete_ne; [done|]. intros Heq.
    specialize (Hrank Ha). rewrite Heq in Hrank. lia. }
  destruct (entry_package ce) as [mp|b] eqn:Ecp.
  2: { intros [= <- <-]. split_and!; [done..|]. eexists (inl _), e0.
       split_and!; [done|by eapply resolves_broken|done]. }
  destruct (negb _) eqn:Evt.
  { apply negb_true_iff in Evt. intros [= <- <-]. split_and!; [done..|].
    eexists (inl _), e0. split_and!; [done|by eapply resolves_mismatch|done]. }
  apply negb_false_iff in Evt. erewrite pushDeps_spec by done.
  intros Hloop. eapply IH in Hloop as (Hb' & Hsub' & out & e' & He' & Hout & Hr).
  - rewrite delete_alter_eq in Hsub'. split_and!; [done|by etrans|].
    exists out, e'. split_and!; [done| |done].
    eapply resolves_next; [done| |done..].
    intros Ha. eapply lookup_weaken; [by apply Hl|done].
  - intros x Hx. apply Hds. by right.
  - by apply building_alter.
  - by rewrite lookup_alter_eq, Hkey.
  - done.
Qed.

Lemma building_finish i v h0 h e pkg :
  let key := getBaseFileName v in
  packages !! i = Some v → building key h0 h → h !! key = Some e →
  merged_at (looked_up (delete key h)) i v (mkEntry pkg (entry_deps e)) →
  grown (S (rank key)) h0 (setEntryPackage key pkg h) ∧
  setEntryPackage key pkg h !! key = Some (mkEntry pkg (entry_deps e)).
Proof.
  intros key Hi (Hk & [Hsub Hg] & _) He Hm.
  assert (setEntryPackage key pkg h !! key = Some (mkEntry pkg (entry_deps e))) as Hke
    by (unfold setEntryPackage; by rewrite lookup_alter_eq, He).
  split; [|done].
  assert (delete key h ⊆ setEntryPackage key pkg h) as Hdel.
  { rewrite <-(delete_alter_eq h key (λ e, mkEntry pkg (entry_deps e))).
    apply delete_subseteq. }
  split; [by etrans|]. intros k e' Hl.
  destruct (decide (k = key)) as [->|Hne].
  - rewrite Hke in Hl. injection Hl as <-. right. split; [|lia].
    eapply (complete_mono (delete key h)); [|by exists i, v].
    intros _ k' e' _ Hl. by eapply lookup_weaken.
  - unfold setEntryPackage in Hl. rewrite lookup_alter_ne in Hl by done.
    destruct (Hg k e') as [Hold|[Hc Hr]]; [by rewrite lookup_delete_ne|by left|].
    right. split; [|intros Ha; specialize (Hr Ha); lia].
    eapply complete_mono; [|exact Hc]. intros _ k' e'' _ Hl'. by eapply lookup_weaken.
Qed.

Lemma func_spec fuel : func_correct (func fuel).
Proof.
  induction fuel as [|fuel IH]; intros h i h' e v; simpl; [done|].
  intros Hf Hi. rewrite Hi in Hf. set (key := getBaseFileName v) in *.
  destruct (h !! key) as [entry|] eqn:Ek.
  { injection Hf as <- <-. split; [apply grown_refl|done]. }
  assert (building key h (<[key:=emptyEntry]> h)) as Hb.
  { split; [done|]. rewrite delete_insert_id by done. split; [apply grown_refl|].
    rewrite lookup_insert_eq. by eexists. }
  assert ((<[key:=emptyEntry]> h) !! key = Some emptyEntry) as Hke
    by apply lookup_insert_eq.
  destruct v as [p|b]; simpl in Hf.
  2: { destruct (building_finish i (Broken b) h (<[key:=emptyEntry]> h) emptyEntry
         (Broken b)) as [Hg Hl];
         [done|exact Hb|done|done|].
       fold key in Hg, Hl. rewrite Hl in Hf. by injection Hf as <- <-. }
  change (getBaseFileName (Valid p)) with (baseFileName p) in key. fold key in Hf.
  destruct (dependencyLoop _ _ _ _ _ _ _) as [[h1 r]|] eqn:El; [|done].
  eapply (dependencyLoop_spec _ i p h _ [] _ emptyEntry) in El
    as (Hb1 & _ & out & e1 & He1 & Hout & Hr); [|done..].
  fold key in He1, Hout, Hb1. destruct out as [b|acc].
  - subst r.
    edestruct (building_finish i (Valid p) h h1 e1 (Broken b)) as [Hg Hl];
      [done|exact Hb1|done|by exists (inl b)|].
    change (getBaseFileName (Valid p)) with key in Hg, Hl.
    rewrite Hl in Hf. by injection Hf as <- <-.
  - destruct Hr as [-> Hdeps].
    assert (pushDep key i h1 !! key = Some (mkEntry (entry_package e1) (acc ++ [i]))) as He2
      by (unfold pushDep; by rewrite lookup_alter_eq, He1, <-Hdeps).
    rewrite He2 in Hf. simpl in Hf.
    edestruct (building_finish i (Valid p) h (pushDep key i h1)) as [Hg Hl];
      [done|by apply building_alter|exact He2| |].
    { exists (inr acc). unfold pushDep. rewrite delete_alter_eq. by split; [exact Hout|]. }
    change (getBaseFileName (Valid p)) with key in Hg, Hl. simpl in Hg, Hl.
    rewrite Hl in Hf. injection Hf as <- <-. by split.
Qed.
End Func.

(** ** Enough fuel *)

Lemma size_list_to_set_le (l : list (list ascii)) :
  size (list_to_set l : gset (list ascii)) ≤ length l.
Proof.
  induction l as [|x l IH]; simpl; [done|].
  rewrite size_union_alt, size_singleton. apply le_n_S. etrans; [|exact IH].
  apply subseteq_size. set_solver.
Qed.

Definition names : gset (list ascii) := list_to_set (map getBaseFileName packages).

Lemma elem_of_names k : k ∈ names ↔ ∃ i v, packages !! i = Some v ∧ getBaseFileName v = k.
Proof.
  unfold names. rewrite elem_of_list_to_set, list_elem_of_fmap. split.
  - intros (v & -> & [i Hi]%list_elem_of_lookup_1). by exists i, v.
  - intros (i & v & Hi & <-). exists v. split; [done|]. by eapply list_elem_of_lookup_2.
Qed.

Lemma dom_pushDeps (key : list ascii) (ds : list nat) (vs : gset nat) (h : mergedHash_t) : dom (pushDeps key ds vs h).2 = dom h.
Proof.
  revert vs h. induction ds as [|d ds IH]; intros vs h; simpl; [done|].
  case_bool_decide; rewrite IH; [done|]. unfold pushDep. by rewrite dom_alter_L.
Qed.

Lemma dependencyLoop_total
    (f : mergedHash_t → nat → option (mergedHash_t * MergedHashEntry)) (key : list ascii) (result : PcPackage) (ds : list RequiredVersion.t) (vs : gset nat) (h : mergedHash_t) (D : gset (list ascii)) :
  (∀ (h : mergedHash_t) c, D ⊆ dom h → c < length packages →
    ∃ h' e, f h c = Some (h', e) ∧ dom h ⊆ dom h') →
  D ⊆ dom h →
  ∃ h' r, dependencyLoop packages f key result ds vs h = Some (h', r) ∧ dom h ⊆ dom h'.
Proof.
  intros Hf. revert vs h. induction ds as [|d ds IH]; intros vs h HD; simpl.
  { by eexists _, _. }
  destruct (packageHash !! _) as [c|] eqn:Hc; [|by eexists _, _].
  apply packageHash_Some in Hc as (v & Hv%lookup_lt_Some & _).
  destruct (Hf h c HD Hv) as (h1 & e & -> & Hd1).
  destruct (entry_package e) as [p|b]; [|by eexists _, _].
  destruct (negb _); [by eexists _, _|].
  destruct (pushDeps key (entry_deps e) vs h1) as [vs' h2] eqn:E.
  pose proof (dom_pushDeps key (entry_deps e) vs h1) as Hd2. rewrite E in Hd2. simpl in Hd2.
  destruct (IH vs' h2) as (h' & r & -> & Hd3); [set_solver|].
  eexists _, _. split; [done|]. set_solver.
Qed.

Lemma func_total (fuel : nat) (h : mergedHash_t) (i : nat) :
  i < length packages → size (names ∖ dom h) < fuel →
  ∃ h' e, func fuel h i = Some (h', e) ∧ dom h ⊆ dom h'.
Proof.
  revert h i. induction fuel as [|fuel IH]; intros h i Hi Hsz; [lia|]. simpl.
  destruct (lookup_lt_is_Some_2 packages i Hi) as [v Hv]. rewrite Hv.
  destruct (h !! getBaseFileName v) as [e|] eqn:Eh; [by eexists _, _|].
  assert (size (names ∖ ({[getBaseFileName v]} ∪ dom h)) < fuel) as Hsz'.
  { enough (size (names ∖ ({[getBaseFileName v]} ∪ dom h)) < size (names ∖ dom h)) by lia.
    apply subset_size. apply not_elem_of_dom_2 in Eh.
    assert (getBaseFileName v ∈ names) by (apply elem_of_names; by exists i, v).
    set_solver. }
  assert (∀ h' : mergedHash_t, {[getBaseFileName v]} ∪ dom h ⊆ dom h' →
    ∀ c, c < length packages → ∃ h'' e, func fuel h' c = Some (h'', e) ∧ dom h' ⊆ dom h'')
    as Hrec.
  { intros h' Hd c Hc. apply IH; [done|]. eapply Nat.le_lt_trans; [|exact Hsz'].
    apply subseteq_size. set_solver. }
  destruct v as [p|b]; simpl.
  - destruct (dependencyLoop_total (func fuel) (baseFileName p) (metaInfo p)
      (allDependencies p) ∅ (<[baseFileName p:=emptyEntry]> h)
      ({[baseFileName p]} ∪ dom h)) as (h1 & r & -> & Hd).
    { intros h' c Hd Hc. by apply Hrec. }
    { by rewrite dom_insert_L. }
    rewrite dom_insert_L in Hd. destruct r as [b|]; eexists _, _; split; try done;
      unfold setEntryPackage, pushDep; rewrite !dom_alter_L; set_solver.
  - eexists _, _. split; [done|]. unfold setEntryPackage.
    rewrite dom_alter_L, dom_insert_L. set_solver.
Qed.

(** ** The whole hash *)

Lemma grown_trans rank acyc n m h h1 h2 :
  grown rank acyc n h h1 → grown rank acyc m h1 h2 → grown rank acyc (n + m) h h2.
Proof.
  intros [Hs1 Hg1] [Hs2 Hg2]. split; [by etrans|]. intros k e Hk.
  destruct (Hg2 k e Hk) as [Hk1|[Hc Hr]]; [|right; split; [done|]].
  2: { intros Ha. specialize (Hr Ha). lia. }
  destruct (Hg1 k e Hk1) as [Hk0|[Hc Hr]]; [by left|]. right. split.
  2: { intros Ha. specialize (Hr Ha). lia. }
  destruct Hc as (i & v & Hi & Hn & He). exists i, v. split_and!; [done..|].
  destruct v as [p|b]; [|done]. destruct He as (out & Hout & He).
  exists out. split; [|done]. eapply resolves_mono; [|exact Hout].
  intros d e' _ _ Hl Ha. eapply lookup_weaken; [by apply Hl|done].
Qed.

(** The dependencies of every package have a smaller rank than the package. *)
Definition decreasing (rank : list ascii → nat) : Prop :=
  ∀ i p d, packages !! i = Some (Valid p) → d ∈ allDependencies p →
    is_Some (packageHash !! RequiredVersion.name d) →
    rank (RequiredVersion.name d) < rank (baseFileName p).

Lemma funcs_spec (rank : list ascii → nat) (acyc : Prop) (fuel : nat) (idxs : list nat) (h : mergedHash_t) :
  (acyc → decreasing rank) → Forall (λ i, i < length packages) idxs → size names < fuel →
  ∃ h' n, funcs isStatic packages fuel idxs h = Some h' ∧ grown rank acyc n h h' ∧
    ∀ i v, i ∈ idxs → packages !! i = Some v → getBaseFileName v ∈ dom h'.
Proof.
  intros Hacyc Hidx Hfuel. revert h.
  induction Hidx as [|i idxs Hi Hidx IH]; intros h; simpl.
  { exists h, 0. split_and!; [done|apply grown_refl|by intros i v ?%elem_of_nil]. }
  destruct (func_total fuel h i Hi) as (h1 & e & Ef & _).
  { eapply Nat.le_lt_trans; [|exact Hfuel]. apply subseteq_size. set_solver. }
  rewrite Ef. destruct (IH h1) as (h' & n & -> & Hg & Hdom).
  destruct (lookup_lt_is_Some_2 packages i Hi) as [v Hv].
  destruct (func_spec rank acyc Hacyc fuel h i h1 e v Ef Hv) as [Hg1 Hl].
  exists h', (S (rank (getBaseFileName v)) + n).
  split_and!; [done|by eapply grown_trans|].
  intros j w [->|Hj]%elem_of_cons Hw; [|by eapply Hdom].
  assert (w = v) as -> by congruence. apply elem_of_dom. exists e.
  eapply lookup_weaken; [exact Hl|apply Hg].
Qed.

Lemma complete_names R k e : complete R k e → k ∈ names.
Proof. intros (i & v & Hi & Hk & _). apply elem_of_names. by exists i, v. Qed.

Lemma mergedHash_spec (rank : list ascii → nat) (acyc : Prop) :
  (acyc → decreasing rank) →
  ∃ hash, mergedHash isStatic packages = Some hash ∧ dom hash = names ∧
    ∀ k e, hash !! k = Some e → complete (looked_up acyc hash) k e.
Proof.
  intros Hacyc. unfold mergedHash.
  assert (size names < S (length packages)) as Hsz.
  { apply Nat.lt_succ_r. unfold names. rewrite <-(length_map getBaseFileName packages).
    apply size_list_to_set_le. }
  destruct (funcs_spec rank acyc (S (length packages)) (seq 0 (length packages)) ∅)
    as (h & n & -> & [_ Hg] & Hdom); [done| |done|].
  { apply Forall_forall. intros i Hi%elem_of_seq. lia. }
  assert (∀ k e, h !! k = Some e → complete (looked_up acyc h) k e) as Hc.
  { intros k e Hk. destruct (Hg k e Hk) as [Hk0|[? _]]; [|done].
    by rewrite lookup_empty in Hk0. }
  exists h. split_and!; [done| |done]. apply set_eq. intros k. split.
  - intros [e He]%elem_of_dom. by eapply complete_names, Hc.
  - intros (i & v & Hi & <-)%elem_of_names. eapply Hdom; [|done].
    apply elem_of_seq. apply lookup_lt_Some in Hi. lia.
Qed.

(** Entries that a dependent package cannot tell apart: what a broken package
    has collected is not looked at. *)
Definition entry_equiv (e e' : MergedHashEntry) : Prop :=
  entry_package e = entry_package e' ∧
  (∀ p, entry_package e = Valid p → entry_deps e = entry_deps e').

Lemma resolves_functional R R' result ds acc out out' :
  (∀ d e e', d ∈ ds → is_Some (packageHash !! RequiredVersion.name d) →
    R (RequiredVersion.name d) e → R' (RequiredVersion.name d) e' → entry_equiv e e') →
  resolves R result ds acc out → resolves R' result ds acc out' → out = out'.
Proof.
  intros HR H. revert out'. induction H; intros out' H'; inversion H'; subst;
    try congruence;
    (assert (entry_equiv e e0) as [Hpk Hdeps]
       by (apply (HR d); [left|by eexists|done|done]));
    try congruence.
  rewrite <-(Hdeps p) in * by done. apply IHresolves; [|done].
  intros d' ?? Hd'. apply HR. by right.
Qed.

Lemma merged_at_name R i v e :
  merged_at R i v e → getBaseFileName (entry_package e) = getBaseFileName v.
Proof.
  destruct v as [p|b]; simpl; [|by intros ->].
  assert (∀ ds vs r, baseFileName (mergeDepFlags packages vs ds r) = baseFileName r) as Hm.
  { induction ds as [|d ds IH]; intros vs r; simpl; [done|].
    destruct (packages !! d) as [[q|b]|]; [|apply IH..].
    destruct (mergeFlags _ _ _) as [vs1 l1]. destruct (mergeFlags _ _ _) as [vs2 l2].
    by rewrite IH. }
  intros (out & Hout & He). destruct out as [b|acc]; [|subst e; simpl; by rewrite Hm].
  rewrite He. simpl. clear He. remember (metaInfo p) as r eqn:Er.
  assert (broken_baseFileName b = baseFileName r) as -> by
    by (remember (inl b) as o; induction Hout; simplify_eq; eauto).
  by subst r.
Qed.
End MergeProofs.

(** ** Merged flags *)

Definition repeatable (f : Flag.t) : bool := canHaveDuplicates (Flag.type f).
Definition single (f : Flag.t) : bool := negb (repeatable f).

(** The flags [added] of [src] are pushed when [vs] has been seen before. *)
Record pushed (vs vs' : gset Flag.t) (src added : list Flag.t) : Prop := {
  pushed_sound f : f ∈ added → f ∈ src;
  pushed_complete f : f ∈ src → f ∈ added ∨ f ∈ vs;
  pushed_seen f : f ∈ vs' ↔ f ∈ vs ∨ (f ∈ added ∧ single f = true);
  pushed_NoDup : NoDup (List.filter single added);
  pushed_new f : f ∈ added → single f = true → f ∉ vs;
  pushed_repeatable : List.filter repeatable added = List.filter repeatable src
}.

Lemma elem_of_Lfilter {A} (p : A → bool) l x : x ∈ List.filter p l ↔ x ∈ l ∧ p x = true.
Proof. rewrite !list_elem_of_In. apply filter_In. Qed.

Lemma pushed_nil vs : pushed vs vs [] [].
Proof.
  split; try (by intros f ?%elem_of_nil); [|constructor|done].
  intros f. split; [by left|]. by intros [?|[?%elem_of_nil _]].
Qed.

Lemma pushed_cons_repeatable vs vs' src added f :
  repeatable f = true → pushed vs vs' src added → pushed vs vs' (f :: src) (f :: added).
Proof.
  intros Hf []. unfold single in *. split; simpl; unfold single; rewrite ?Hf; simpl.
  - intros g [->|?]%elem_of_cons; [by left|right; auto].
  - intros g [->|Hg]%elem_of_cons; [left; by left|].
    destruct (pushed_complete0 g Hg); [left; by right|by right].
  - intros g. rewrite pushed_seen0, elem_of_cons. split.
    + intros [?|[? ?]]; auto.
    + intros [?|[[->|?] Hr]]; auto. by rewrite Hf in Hr.
  - done.
  - intros g [->|Hg]%elem_of_cons Hr; [by rewrite Hf in Hr|by apply pushed_new0].
  - by rewrite pushed_repeatable0.
Qed.

Lemma pushed_cons_seen vs vs' src added f :
  repeatable f = false → f ∈ vs → pushed vs vs' src added → pushed vs vs' (f :: src) added.
Proof.
  intros Hf Hv []. split; try done; simpl; rewrite ?Hf; try done.
  - intros g Hg. right. auto.
  - intros g [->|Hg]%elem_of_cons; [by right|auto].
Qed.

Lemma pushed_cons_new vs vs' src added f :
  repeatable f = false → f ∉ vs → pushed ({[f]} ∪ vs) vs' src added →
  pushed vs vs' (f :: src) (f :: added).
Proof.
  intros Hf Hv []. assert (single f = true) as Hs by (unfold single; by rewrite Hf).
  assert (f ∉ added) as Hfa.
  { intros Hin. apply (pushed_new0 f Hin Hs). set_solver. }
  split; simpl; rewrite ?Hf, ?Hs.
  - intros g [->|?]%elem_of_cons; [by left|right; auto].
  - intros g [->|Hg]%elem_of_cons; [left; by left|].
    destruct (pushed_complete0 g Hg) as [?|[->%elem_of_singleton|?]%elem_of_union];
      [left; by right|left; by left|by right].
  - intros g. rewrite pushed_seen0, elem_of_cons, elem_of_union, elem_of_singleton.
    split; [intros [[->|?]|[? ?]]; auto|]. intros [?|[[->|?] ?]]; auto.
  - constructor; [|done]. by intros [? _]%elem_of_Lfilter.
  - intros g [->|Hg]%elem_of_cons Hr; [done|].
    specialize (pushed_new0 g Hg Hr). set_solver.
  - done.
Qed.

Lemma mergeFlags_pushed vs t src vs' t' :
  mergeFlags vs t src = (vs', t') → ∃ added, t' = t ++ added ∧ pushed vs vs' src added.
Proof.
  revert vs t. induction src as [|f src IH]; intros vs t; simpl.
  { intros [= <- <-]. exists []. rewrite app_nil_r. split; [done|apply pushed_nil]. }
  fold (repeatable f). destruct (repeatable f) eqn:Er; [|case_bool_decide as Hf].
  - intros (added & -> & H)%IH. exists (f :: added). rewrite <-(assoc_L (++)).
    split; [done|by apply pushed_cons_repeatable].
  - intros (added & -> & H)%IH. exists added.
    split; [done|by apply pushed_cons_seen].
  - intros (added & -> & H)%IH. exists (f :: added). rewrite <-(assoc_L (++)).
    split; [done|by apply pushed_cons_new].
Qed.

Section MergedFlags.
Context (packages : list PcPackageVariant).

(** The flag [f] is in [field], [libs] or [cflags], of one of the packages
    [deps]. *)
Definition flag_of (field : PcPackage → list Flag.t) (deps : list nat) (f : Flag.t) : Prop :=
  ∃ j q, j ∈ deps ∧ packages !! j = Some (Valid q) ∧ f ∈ field q.

Definition dep_field (field : PcPackage → list Flag.t) (j : nat) : list Flag.t :=
  match packages !! j with Some (Valid q) => field q | _ => [] end.

Lemma dep_field_eq field j :
  dep_field field j = match packages !! j with Some (Valid q) => field q | _ => [] end.
Proof. done. Qed.

(** What is known while the flags of dependencies are merged into [r]. *)
Record flags_inv (vs : gset Flag.t) (r : PcPackage) : Prop := {
  flags_seen f : f ∈ vs ↔ f ∈ libs r ++ cflags r ∧ single f = true;
  flags_NoDup : NoDup (List.filter single (libs r ++ cflags r))
}.

Lemma filter_app_swap (p : Flag.t → bool) a b c :
  List.filter p ((a ++ b) ++ c) ≡ₚ List.filter p (a ++ c) ++ List.filter p b.
Proof. rewrite !List.filter_app, <-!(assoc_L (++)). by rewrite (comm (++) (List.filter p b)). Qed.

Lemma NoDup_pushed vs vs' src added all :
  NoDup (List.filter single all) → (∀ f, f ∈ all ∧ single f = true → f ∈ vs) →
  pushed vs vs' src added → NoDup (List.filter single all ++ List.filter single added).
Proof.
  intros Hall Hvs []. apply NoDup_app. split_and!; [done| |done].
  intros f [Hf Hs]%elem_of_Lfilter [Hf' _]%elem_of_Lfilter.
  by apply (pushed_new0 f Hf' Hs), Hvs.
Qed.

Lemma flags_inv_libs vs vs' r src added :
  flags_inv vs r → pushed vs vs' src added →
  flags_inv vs' (set_libs (libs r ++ added) r).
Proof.
  intros [Hs Hn] Hp. split; simpl.
  - intros f. rewrite (pushed_seen _ _ _ _ Hp), Hs, !elem_of_app. naive_solver.
  - rewrite filter_app_swap. eapply NoDup_pushed; [done| |done].
    intros f. by rewrite Hs.
Qed.

Lemma flags_inv_cflags vs vs' r src added :
  flags_inv vs r → pushed vs vs' src added →
  flags_inv vs' (set_cflags (cflags r ++ added) r).
Proof.
  intros [Hs Hn] Hp. split; simpl.
  - intros f. rewrite (pushed_seen _ _ _ _ Hp), Hs, !elem_of_app. naive_solver.
  - rewrite (assoc_L (++)), List.filter_app. eapply NoDup_pushed; [done| |done].
    intros f. by rewrite Hs.
Qed.

Record merged_flags (deps : list nat) (r r' : PcPackage) : Prop := {
  merged_libs_sound f : f ∈ libs r' → f ∈ libs r ∨ flag_of libs deps f;
  merged_cflags_sound f : f ∈ cflags r' → f ∈ cflags r ∨ flag_of cflags deps f;
  merged_kept f : f ∈ libs r ++ cflags r → f ∈ libs r' ++ cflags r';
  merged_complete f :
    flag_of libs deps f ∨ flag_of cflags deps f → f ∈ libs r' ++ cflags r';
  merged_NoDup : NoDup (List.filter single (libs r' ++ cflags r'));
  merged_libs_repeatable :
    List.filter repeatable (libs r') =
    List.filter repeatable (libs r ++ flat_map (dep_field libs) deps);
  merged_cflags_repeatable :
    List.filter repeatable (cflags r') =
    List.filter repeatable (cflags r ++ flat_map (dep_field cflags) deps)
}.

Lemma flag_of_cons field j deps f :
  flag_of field (j :: deps) f ↔
  (∃ q, packages !! j = Some (Valid q) ∧ f ∈ field q) ∨ flag_of field deps f.
Proof.
  unfold flag_of. split.
  - intros (i & q & [->|Hi]%elem_of_cons & Hq & Hf); [left; eauto|right; eauto].
  - intros [(q & Hq & Hf)|(i & q & Hi & Hq & Hf)].
    + exists j, q. split_and!; [left|done..].
    + exists i, q. split_and!; [by right|done..].
Qed.

Lemma mergeDepFlags_spec vs deps r :
  flags_inv vs r → merged_flags deps r (mergeDepFlags packages vs deps r).
Proof.
  revert vs r. induction deps as [|j deps IH]; intros vs r Hr; simpl.
  { destruct Hr. split; simpl; rewrite ?app_nil_r; auto.
    by intros f [(i & _ & ?%elem_of_nil & _)|(i & _ & ?%elem_of_nil & _)]. }
  destruct (packages !! j) as [[q|b]|] eqn:Ej.
  2, 3: destruct (IH vs r Hr);
    (split; cbn [flat_map]; rewrite ?(dep_field_eq _ j), ?Ej; auto;
     intros f; rewrite !flag_of_cons, Ej; naive_solver).
  destruct (mergeFlags vs (libs r) (libs q)) as [vs1 l1] eqn:E1.
  destruct (mergeFlags vs1 (cflags r) (cflags q)) as [vs2 l2] eqn:E2.
  apply mergeFlags_pushed in E1 as (a1 & -> & P1).
  apply mergeFlags_pushed in E2 as (a2 & -> & P2).
  assert (flags_inv vs2 (set_cflags (cflags r ++ a2) (set_libs (libs r ++ a1) r))) as Hr2.
  { apply (flags_inv_cflags vs1 vs2 _ _ _ (flags_inv_libs _ _ _ _ _ Hr P1) P2). }
  destruct (IH _ _ Hr2) as [I1 I2 I3 I4 I5 I6 I7]; simpl in *.
  split.
  - intros f Hf. rewrite flag_of_cons. destruct (I1 f Hf) as [[?|?]%elem_of_app|?]; auto.
    right. left. exists q. split; [done|]. by eapply pushed_sound.
  - intros f Hf. rewrite flag_of_cons. destruct (I2 f Hf) as [[?|?]%elem_of_app|?]; auto.
    right. left. exists q. split; [done|]. by eapply pushed_sound.
  - intros f Hf. apply I3. rewrite !elem_of_app. apply elem_of_app in Hf. tauto.
  - intros f. rewrite !flag_of_cons.
    assert (∀ g, g ∈ libs q ++ cflags q → g ∈ (libs r ++ a1) ++ cflags r ++ a2) as Hq.
    { intros g. rewrite !elem_of_app. intros [Hg|Hg].
      - destruct (pushed_complete _ _ _ _ P1 g Hg) as [?|[Hg' _]%(flags_seen _ _ Hr)];
          [tauto|]. rewrite elem_of_app in Hg'. tauto.
      - destruct (pushed_complete _ _ _ _ P2 g Hg) as [?|Hg']; [tauto|].
        apply (pushed_seen _ _ _ _ P1) in Hg' as [[Hg' _]%(flags_seen _ _ Hr)|[? _]]; [|tauto].
        rewrite elem_of_app in Hg'. tauto. }
    intros [[(q' & Hq' & Hf)|Hf]|[(q' & Hq' & Hf)|Hf]]; [|by apply I4; left| |by apply I4; right];
      (assert (q' = q) as -> by congruence); apply I3, Hq, elem_of_app; auto.
  - done.
  - rewrite I6. cbn [flat_map]. rewrite (dep_field_eq _ j), Ej, !List.filter_app.
    rewrite (pushed_repeatable _ _ _ _ P1). by rewrite <-(assoc_L (++)).
  - rewrite I7. cbn [flat_map]. rewrite (dep_field_eq _ j), Ej, !List.filter_app.
    rewrite (pushed_repeatable _ _ _ _ P2). by rewrite <-(assoc_L (++)).
Qed.
End MergedFlags.

(** ** The dependencies that an entry collects *)

Section Closure.
Context (isStatic : bool) (packages : list PcPackageVariant).
Notation packageHash := (packageHash packages).
Notation allDependencies := (allDependencies isStatic).

Lemma addDeps_elem acc ds j : j ∈ addDeps acc ds ↔ j ∈ acc ∨ j ∈ ds.
Proof.
  unfold addDeps. revert acc. induction ds as [|d ds IH]; intros acc; simpl.
  { rewrite elem_of_nil. tauto. }
  rewrite IH, elem_of_cons. case_bool_decide as Hd.
  - split; [tauto|]. intros [?|[->|?]]; tauto.
  - rewrite elem_of_app, list_elem_of_singleton. tauto.
Qed.

Lemma addDeps_NoDup acc ds : NoDup acc → NoDup (addDeps acc ds).
Proof.
  unfold addDeps. revert acc. induction ds as [|d ds IH]; intros acc Ha; simpl; [done|].
  apply IH. case_bool_decide as Hd; [done|]. apply NoDup_app.
  split_and!; [done| |by apply NoDup_singleton].
  by intros j Hj ->%list_elem_of_singleton.
Qed.

(** Package [i] states a dependency that package [j] provides. *)
Definition depends (i j : nat) : Prop :=
  ∃ p d, packages !! i = Some (Valid p) ∧ d ∈ allDependencies p ∧
    packageHash !! RequiredVersion.name d = Some j.

Lemma resolves_inr R result ds acc out acc' :
  resolves packages R result ds acc out → out = inr acc' →
  (∀ d, d ∈ ds → ∃ c e p, packageHash !! RequiredVersion.name d = Some c ∧
    R (RequiredVersion.name d) e ∧ entry_package e = Valid p ∧
    versionTest (RequiredVersion.comparison d) (version p) (RequiredVersion.version d)
      = true ∧
    ∀ j, j ∈ entry_deps e → j ∈ acc') ∧
  (∀ j, j ∈ acc → j ∈ acc') ∧
  (∀ j, j ∈ acc' → j ∈ acc ∨ ∃ d e, d ∈ ds ∧ R (RequiredVersion.name d) e ∧
     is_Some (packageHash !! RequiredVersion.name d) ∧
     (∃ p, entry_package e = Valid p) ∧ j ∈ entry_deps e) ∧
  (NoDup acc → NoDup acc').
Proof.
  induction 1 as [| | | |d ds acc c e p out Hc HR He Hv Hres IH]; intros Hout; try done.
  { injection Hout as ->. split_and!; auto. by intros d ?%elem_of_nil. }
  destruct (IH Hout) as (I1 & I2 & I3 & I4). split_and!.
  - intros d' [->|Hd']%elem_of_cons; [|by apply I1]. exists c, e, p.
    split_and!; [done..|]. intros j Hj. apply I2, addDeps_elem. by right.
  - intros j Hj. apply I2, addDeps_elem. by left.
  - intros j Hj. destruct (I3 j Hj) as [[?|?]%addDeps_elem|(d' & e' & Hd' & Hrest)];
      [by left| |].
    + right. exists d, e. split_and!; [left|done|by eexists|by eexists|done].
    + right. exists d', e'. split; [by right|done].
  - intros Hn. apply I4. by apply addDeps_NoDup.
Qed.

Section Acyclic.
Context (rank : list ascii → nat).
Hypothesis Hrank : decreasing isStatic packages rank.
Hypothesis Hunique : NoDup (map getBaseFileName packages).

Lemma unique_index i j v w :
  packages !! i = Some v → packages !! j = Some w →
  getBaseFileName v = getBaseFileName w → i = j.
Proof.
  intros Hi Hj Hn. eapply NoDup_lookup; [exact Hunique| |].
  - change (map getBaseFileName packages) with (getBaseFileName <$> packages).
    by rewrite list_lookup_fmap, Hi.
  - change (map getBaseFileName packages) with (getBaseFileName <$> packages).
    rewrite list_lookup_fmap, Hj. simpl. by rewrite Hn.
Qed.

Lemma depends_rank i j v w :
  depends i j → packages !! i = Some v → packages !! j = Some w →
  rank (getBaseFileName w) < rank (getBaseFileName v).
Proof.
  intros (p & d & Hi & Hd & Hj) Hv Hw.
  assert (v = Valid p) as -> by congruence.
  destruct (packageHash_Some packages _ _ Hj) as (w' & Hw' & Hn).
  assert (w' = w) as -> by congruence. rewrite Hn.
  eapply Hrank; [done..|by eexists].
Qed.

(** A solution of the equations of all entries. *)
Definition solution (hash : mergedHash_t) : Prop :=
  ∀ i v, packages !! i = Some v → ∃ e, hash !! getBaseFileName v = Some e ∧
    merged_at isStatic packages (λ k e, hash !! k = Some e) i v e.

Lemma solution_entry hash k i e :
  solution hash → packageHash !! k = Some i → hash !! k = Some e →
  ∃ v, packages !! i = Some v ∧ getBaseFileName v = k ∧
    merged_at isStatic packages (λ k e, hash !! k = Some e) i v e.
Proof.
  intros Hs Hk He. destruct (packageHash_Some packages _ _ Hk) as (v & Hv & <-).
  destruct (Hs i v Hv) as (e' & He' & Hm). exists v.
  assert (e' = e) as -> by congruence. done.
Qed.

Lemma solution_unique h1 h2 i v e1 e2 :
  solution h1 → solution h2 → packages !! i = Some v →
  h1 !! getBaseFileName v = Some e1 → h2 !! getBaseFileName v = Some e2 →
  entry_equiv e1 e2.
Proof.
  intros H1 H2. remember (rank (getBaseFileName v)) as n eqn:En.
  revert i v e1 e2 En. induction n as [n IH] using lt_wf_ind.
  intros i v e1 e2 -> Hv L1 L2.
  destruct (H1 i v Hv) as (e1' & L1' & M1), (H2 i v Hv) as (e2' & L2' & M2).
  assert (e1' = e1) as -> by congruence. assert (e2' = e2) as -> by congruence.
  destruct v as [p|b]; simpl in M1, M2; [|by subst].
  destruct M1 as (o1 & R1 & E1), M2 as (o2 & R2 & E2).
  assert (o1 = o2) as <-.
  { eapply resolves_functional; [|exact R1|exact R2].
    intros d e e' Hd [c Hc] Hl Hl'.
    destruct (packageHash_Some packages _ _ Hc) as (w & Hw & Hn).
    assert (rank (getBaseFileName w) < rank (baseFileName p)) as Hlt.
    { rewrite Hn. eapply Hrank; [done..|by eexists]. }
    eapply (IH _ Hlt c w); [done|done| |]; by rewrite Hn. }
  destruct o1 as [b|acc]; [|by subst]. split; [congruence|]. intros q Hq. congruence.
Qed.

Lemma merged_valid R i v e q :
  merged_at isStatic packages R i v e → entry_package e = Valid q →
  ∃ p acc, v = Valid p ∧ e = mkEntry (Valid q) (acc ++ [i]) ∧
    resolves packages R (metaInfo p) (allDependencies p) [] (inr acc) ∧
    q = mergeDepFlags packages ∅ (acc ++ [i]) (metaInfo p).
Proof.
  destruct v as [p|b]; simpl; [|by intros ->].
  intros (out & Hout & He) Hq. destruct out as [b|acc]; [congruence|].
  subst e. injection Hq as <-. by exists p, acc.
Qed.

(** The entry of a package that merging accepts has collected the package and
    everything it depends on, directly or not. *)
Lemma solution_closure hash i v e q :
  solution hash → packages !! i = Some v → hash !! getBaseFileName v = Some e →
  entry_package e = Valid q →
  NoDup (entry_deps e) ∧ ∀ j, j ∈ entry_deps e ↔ rtc depends i j.
Proof.
  intros Hs. remember (rank (getBaseFileName v)) as n eqn:En.
  revert i v e q En. induction n as [n IH] using lt_wf_ind.
  intros i v e q -> Hv He Hq.
  destruct (Hs i v Hv) as (e' & He' & Hm). assert (e' = e) as -> by congruence.
  destruct (merged_valid _ _ _ _ _ Hm Hq) as (p & acc & -> & -> & Hres & _). simpl.
  destruct (resolves_inr _ _ _ _ _ _ Hres eq_refl) as (I1 & _ & I3 & I4).
  assert (∀ d e q', d ∈ allDependencies p → is_Some (packageHash !! RequiredVersion.name d) →
    hash !! RequiredVersion.name d = Some e → entry_package e = Valid q' →
    ∃ c, packageHash !! RequiredVersion.name d = Some c ∧ depends i c ∧
    ∀ j, j ∈ entry_deps e ↔ rtc depends c j) as Hdep.
  { intros d e' q' Hd [c Hc] He1 Hq'. exists c. split; [done|]. split.
    { exists p, d. done. }
    destruct (packageHash_Some packages _ _ Hc) as (w & Hw & Hn).
    rewrite <-Hn in He1. eapply (IH (rank (getBaseFileName w))); [|done..].
    rewrite Hn. eapply Hrank; [done..|by eexists]. }
  assert (∀ j, j ∈ acc ↔ ∃ c, depends i c ∧ rtc depends c j) as Hacc.
  { intros j. split.
    - intros Hj. destruct (I3 j Hj) as [?%elem_of_nil|(d & e' & Hd & He1 & Hc & [q' Hq'] & Hje)];
        [done|].
      destruct (Hdep d e' q' Hd Hc He1 Hq') as (c & _ & Hic & Hrtc).
      exists c. split; [done|]. by apply Hrtc.
    - intros (c & (p' & d & Hp' & Hd & Hc) & Hcj). assert (p' = p) as -> by congruence.
      destruct (I1 d Hd) as (c' & e' & q' & Hc' & He1 & Hq' & _ & Hsub).
      apply Hsub. destruct (Hdep d e' q' Hd ltac:(by eexists) He1 Hq') as (c'' & Hc'' & _ & Hrtc).
      apply Hrtc. congruence. }
  assert (i ∉ acc) as Hi.
  { intros (c & Hic & Hci)%Hacc.
    assert (∀ a b, rtc depends a b → ∀ w u, packages !! a = Some w → packages !! b = Some u →
      rank (getBaseFileName u) ≤ rank (getBaseFileName w)) as Hmono.
    { intros a b. induction 1 as [a|a c' b Hac Hcb IHr]; intros w u Hw Hu.
      - by assert (w = u) as -> by congruence.
      - destruct Hac as (? & d & ? & ? & Hc). destruct (packageHash_Some packages _ _ Hc)
          as (w' & Hw' & _).
        etrans; [by eapply IHr|]. apply Nat.lt_le_incl. eapply depends_rank; [|done..].
        by eexists _, d. }
    destruct Hic as (p' & d & Hp' & Hd & Hc).
    destruct (packageHash_Some packages _ _ Hc) as (w & Hw & _).
    assert (rank (getBaseFileName w) < rank (getBaseFileName (Valid p))) as Hlt.
    { eapply depends_rank; [|exact Hv|done]. by exists p', d. }
    specialize (Hmono _ _ Hci _ _ Hw Hv). lia. }
  split.
  - apply NoDup_app. split_and!; [by apply I4, NoDup_nil| |by apply NoDup_singleton].
    by intros j Hj ->%list_elem_of_singleton.
  - intros j. rewrite elem_of_app, list_elem_of_singleton, Hacc. split.
    + intros [(c & Hic & Hcj)| ->]; [by eapply rtc_l|done].
    + intros Hj. inversion Hj as [|? c ? Hic Hcj]; subst; [by right|]. left. by exists c.
Qed.

Lemma complete_solution hash :
  dom hash = names packages →
  (∀ k e, hash !! k = Some e →
    complete isStatic packages (looked_up True hash) k e) →
  solution hash.
Proof.
  intros Hdom Hc i v Hv.
  assert (getBaseFileName v ∈ dom hash) as [e He]%elem_of_dom.
  { rewrite Hdom. apply elem_of_names. by exists i, v. }
  exists e. split; [done|]. destruct (Hc _ _ He) as (j & w & Hw & Hn & Hm).
  assert (j = i) as -> by by eapply unique_index.
  assert (w = v) as -> by congruence.
  destruct v as [p|b]; [|done]. destruct Hm as (out & Hout & Hr).
  exists out. split; [|done]. eapply resolves_mono; [|exact Hout].
  intros d e' _ _ Hl. by apply Hl.
Qed.
End Acyclic.
End Closure.

(** ** Versions *)

(** The components of a version, as [compareVersions] reads them. *)
Fixpoint components_from (v : str) (acc : Z) : list Z :=
  match v with
  | [] => [acc]
  | c :: v' =>
      if c =c "." then acc :: components_from v' 0
      else components_from v' ((acc * 10 + digit c) mod 2 ^ 64)
  end.

(** Component [n]; missing components count as zero. *)
Definition component (v : str) (n : nat) : Z := nth n (components_from v 0) 0%Z.

Lemma versionComponent_spec v acc a rest :
  versionComponent v acc = (a, rest) →
  nth 0 (components_from v acc) 0%Z = a ∧
  (∀ n, nth (S n) (components_from v acc) 0%Z = component rest n) ∧
  length rest ≤ length v ∧ (v ≠ [] → length rest < length v).
Proof.
  revert acc. induction v as [|c v IH]; intros acc; simpl.
  { intros [= <- <-]. split_and!; [done| |done|done]. by intros [|[|n]]. }
  destruct (c =c "."); [intros [= <- <-]; by split_and!; [..|lia|lia]|].
  intros (H1 & H2 & H3 & _)%IH. split_and!; [done|done|lia|lia].
Qed.

Definition version_lt (v w : str) : Prop :=
  ∃ n, (∀ m, m < n → component v m = component w m) ∧ (component v n < component w n)%Z.

Definition version_eq (v w : str) : Prop := ∀ n, component v n = component w n.

Lemma version_lt_head v w v' w' :
  component v 0 = component w 0 →
  (∀ n, component v (S n) = component v' n) →
  (∀ n, component w (S n) = component w' n) →
  version_lt v' w' → version_lt v w.
Proof.
  intros H0 Hv Hw (n & Hn & Hlt). exists (S n). split; [|by rewrite Hv, Hw].
  intros [|m] Hm; [done|]. rewrite Hv, Hw. apply Hn. lia.
Qed.

Inductive compare_spec (v w : str) : Z → Prop :=
  | compare_lt : version_lt v w → compare_spec v w (-1)
  | compare_eq : version_eq v w → compare_spec v w 0
  | compare_gt : version_lt w v → compare_spec v w 1.

Lemma compareVersions_loop_spec fuel v w :
  length v + length w < fuel →
  ∃ r, compareVersions_loop fuel v w = Some r ∧ compare_spec v w r.
Proof.
  revert v w. induction fuel as [|fuel IH]; intros v w Hf; [lia|]. simpl.
  destruct (is_nil v && is_nil w) eqn:En.
  { apply andb_true_iff in En as [->%is_nil_true ->%is_nil_true].
    exists 0%Z. split; [done|]. by constructor. }
  destruct (versionComponent v 0) as [a v'] eqn:Ev, (versionComponent w 0) as [b w'] eqn:Ew.
  apply versionComponent_spec in Ev as (Va & Vn & Vl & Vlt).
  apply versionComponent_spec in Ew as (Wa & Wn & Wl & Wlt).
  change (component v 0 = a) in Va. change (component w 0 = b) in Wa.
  change (∀ n, component v (S n) = component v' n) in Vn.
  change (∀ n, component w (S n) = component w' n) in Wn.
  destruct (Z.ltb_spec a b).
  { eexists; split; [done|]. constructor. exists 0. split; [lia|]. lia. }
  destruct (Z.ltb_spec b a).
  { eexists; split; [done|]. constructor. exists 0. split; [lia|]. lia. }
  destruct (IH v' w') as (r & -> & Hr).
  { apply andb_false_iff in En as [?%is_nil_false|?%is_nil_false];
      [specialize (Vlt ltac:(done))|specialize (Wlt ltac:(done))]; lia. }
  exists r. split; [done|]. assert (component v 0 = component w 0) by lia.
  destruct Hr as [Hr|Hr|Hr]; constructor; [|intros [|n]|].
  - by eapply version_lt_head.
  - done.
  - rewrite Vn, Wn. apply Hr.
  - by eapply (version_lt_head w v).
Qed.

Lemma compareVersions_spec v w : compare_spec v w (compareVersions v w).
Proof.
  unfold compareVersions.
  destruct (compareVersions_loop_spec (S (length v + length w)) v w) as (r & -> & Hr);
    [lia|done].
Qed.

Lemma version_lt_irrefl v w : version_eq v w → ¬ version_lt v w.
Proof. intros He (n & _ & Hn). rewrite He in Hn. lia. Qed.

Lemma version_lt_trans u v w : version_lt u v → version_lt v w → version_lt u w.
Proof.
  intros (n & Hn & Hlt) (m & Hm & Hlt').
  destruct (lt_eq_lt_dec n m) as [[Hnm| ->]|Hnm].
  - exists n. split; [|by rewrite <-Hm]. intros k Hk. rewrite Hn by done. apply Hm. lia.
  - exists m. split; [|lia]. intros k Hk. rewrite Hn by done. by apply Hm.
  - exists m. split; [|by rewrite Hn]. intros k Hk. rewrite Hn by lia. by apply Hm.
Qed.

Lemma version_lt_eq u v w : version_lt u v → version_eq v w → version_lt u w.
Proof.
  intros (n & Hn & Hlt) He. exists n. split; [intros k Hk|]; rewrite <-He; auto.
Qed.

Lemma version_eq_lt u v w : version_eq u v → version_lt v w → version_lt u w.
Proof.
  intros He (n & Hn & Hlt). exists n. split; [intros k Hk|]; rewrite He; auto.
Qed.

Lemma compareVersions_iff v w :
  (compareVersions v w = (-1)%Z ↔ version_lt v w) ∧
  (compareVersions v w = 0%Z ↔ version_eq v w) ∧
  (compareVersions v w = 1%Z ↔ version_lt w v).
Proof.
  destruct (compareVersions_spec v w) as [H|H|H]; split_and!; split; intros H'; try done;
    exfalso.
  - by eapply (version_lt_irrefl v w).
  - eapply (version_lt_irrefl v v); [done|exact (version_lt_trans _ _ _ H H')].
  - by eapply (version_lt_irrefl v w).
  - eapply (version_lt_irrefl w v); [|done]. intros n. symmetry. apply H.
  - eapply (version_lt_irrefl v v); [done|exact (version_lt_trans _ _ _ H' H)].
  - eapply (version_lt_irrefl w v); [|done]. intros n. symmetry. apply H'.
Qed.

(** ** Splitting a list *)

Lemma split_loop_token delim t s token result :
  Forall (λ c, c ≠ delim) t →
  split_loop delim (t ++ s) token result = split_loop delim s (token ++ t) result.
Proof.
  intros Ht. revert token. induction Ht as [|c t Hc Ht IH]; intros token.
  { by rewrite app_nil_r. }
  simpl. rewrite (ascii_eqb_ne c delim) by done. by rewrite IH, <-(assoc_L (++)).
Qed.

Lemma split_loop_join delim ts result :
  Forall (λ t, t ≠ [] ∧ Forall (λ c, c ≠ delim) t) ts →
  split_loop delim (joinWith [delim] ts) [] result = result ++ ts.
Proof.
  intros Hts. revert result. induction Hts as [|t ts [Hne Ht] Hts IH]; intros result.
  { simpl. by rewrite app_nil_r. }
  destruct ts as [|t' ts]; simpl.
  - pose proof (split_loop_token delim t [] [] result Ht) as E.
    rewrite app_nil_r in E. rewrite E. simpl. by destruct t.
  - rewrite split_loop_token by done. simpl. rewrite ascii_eqb_refl.
    destruct t as [|c t]; [done|]. simpl. rewrite IH. by rewrite <-(assoc_L (++)).
Qed.

(** ** Looking a package up *)

Lemma sorted_drop_while ps nm :
  StronglySorted (λ x y, lessThanPackage y x = false) ps →
  Forall (λ p, str_ltb (getBaseFileName p) nm = false)
    (drop_while (λ p, str_ltb (getBaseFileName p) nm) ps).
Proof.
  induction 1 as [|p ps Hs IH Hp]; simpl; [constructor|].
  destruct (str_ltb (getBaseFileName p) nm) eqn:E; [done|]. constructor; [done|].
  eapply Forall_impl; [exact Hp|]. simpl. intros q Hq. unfold lessThanPackage in Hq.
  destruct (str_ltb (getBaseFileName q) nm) eqn:Eq; [|done].
  destruct (ltbP (ltb := str_ltb) (getBaseFileName p) (getBaseFileName q))
    as [Hlt|Heq|Hgt]; [|congruence|congruence].
  by rewrite (ltb_trans _ _ _ Hlt Eq) in E.
Qed.

Lemma getPackage_sorted ps nm :
  StronglySorted (λ x y, lessThanPackage y x = false) ps →
  match getPackage ps nm with
  | Ok p => p ∈ ps ∧ getBaseFileName p = nm
  | Throw e => e = unknownPackageMessage nm ∧ ∀ p, p ∈ ps → getBaseFileName p ≠ nm
  end.
Proof.
  intros Hs. unfold getPackage. pose proof (sorted_drop_while ps nm Hs) as Hd.
  set (test := λ p, str_ltb (getBaseFileName p) nm) in *.
  assert (∀ p, p ∈ ps → getBaseFileName p = nm → p ∈ drop_while test ps) as Hin.
  { intros p Hp Hn. rewrite <-(take_drop_while test ps) in Hp.
    apply elem_of_app in Hp as [Hp%take_while_elem|]; [|done].
    unfold test in Hp. by rewrite Hn, ltb_irrefl in Hp. }
  assert (StronglySorted (λ x y, lessThanPackage y x = false) (drop_while test ps)) as Hds.
  { clear -Hs. induction Hs as [|p ps Hs IH Hp]; simpl; [constructor|].
    destruct (test p); [done|]. by constructor. }
  destruct (drop_while test ps) as [|p rest] eqn:Ed.
  { split; [done|]. intros p Hp Hn. by apply (Hin p Hp), elem_of_nil in Hn. }
  case_bool_decide as Hn.
  - split; [|done]. rewrite <-(take_drop_while test ps), Ed. apply elem_of_app.
    right. left.
  - split; [done|]. intros q Hq Hqn.
    assert (str_ltb nm (getBaseFileName p) = true) as Hlt.
    { inversion_clear Hd as [|? ? Hp _].
      destruct (ltbP (ltb := str_ltb) nm (getBaseFileName p)) as [?|?|?]; [done|congruence|].
      unfold test in Hp. congruence. }
    specialize (Hin q Hq Hqn). apply elem_of_cons in Hin as [->|Hin]; [congruence|].
    inversion_clear Hds as [|? ? _ Hf]. rewrite Forall_forall in Hf.
    specialize (Hf q Hin). unfold lessThanPackage in Hf. congruence.
Qed.

(** [std::sort] by base names. *)
Lemma sort_packages_sorted ps :
  StronglySorted (λ x y, lessThanPackage y x = false) (std_sort lessThanPackage ps).
Proof.
  unfold lessThanPackage at 2. unfold std_sort.
  induction ps as [|x l IH]; simpl; [constructor|].
  induction IH as [|y l' Hs IH Hy]; simpl; [repeat constructor|].
  destruct (ltbP (ltb := str_ltb) (getBaseFileName y) (getBaseFileName x)) as [Hyx|Heq|Hxy].
  - constructor; [done|]. rewrite insort_perm. constructor; [|done].
    unfold lessThanPackage. by apply ltb_asym.
  - constructor; [by constructor|]. unfold lessThanPackage in *. rewrite <-Heq.
    constructor; [apply ltb_irrefl|done].
  - constructor; [by constructor|]. constructor.
    + unfold lessThanPackage. by apply ltb_asym.
    + eapply Forall_impl; [exact Hy|]. simpl. unfold lessThanPackage. intros z Hz.
      destruct (str_ltb (getBaseFileName z) (getBaseFileName x)) eqn:E; [|done].
      by rewrite (ltb_trans _ _ _ E Hxy) in Hz.
Qed.

(** ** Properties *)

(** The loop over the dependencies stops early exactly when one of them is
    missing, broken or of the wrong version. *)
Definition satisfied (packages : list PcPackageVariant) (hash : mergedHash_t)
    (d : RequiredVersion.t) : Prop :=
  ∃ c e q, packageHash packages !! RequiredVersion.name d = Some c ∧
    hash !! RequiredVersion.name d = Some e ∧ entry_package e = Valid q ∧
    versionTest (RequiredVersion.comparison d) (version q) (RequiredVersion.version d) = true.

Lemma resolves_inl packages hash result ds acc b :
  resolves packages (λ k e, hash !! k = Some e) result ds acc (inl b) →
  ∃ d, d ∈ ds ∧ ¬ satisfied packages hash d.
Proof.
  remember (inl b) as out eqn:Eo.
  induction 1 as [|d ds acc Hn|d ds acc c e b' Hc He Hb|d ds acc c e p Hc He Hp Hv
    |d ds acc c e p out Hc He Hp Hv Hres IH]; try done.
  - exists d. split; [left|]. intros (c & e & q & Hc & _). congruence.
  - exists d. split; [left|]. intros (c' & e' & q & _ & He' & Hq & _). congruence.
  - exists d. split; [left|]. intros (c' & e' & q & _ & He' & Hq & Hv').
    assert (e' = e) as -> by congruence. assert (q = p) as -> by congruence. congruence.
  - destruct (IH Eo) as (d' & Hd' & Hs). exists d'. split; [by right|done].
Qed.

(** Merging terminates on every list of packages, cyclic dependencies
    included, within the fuel it is given; the result has exactly one entry for
    every base name of a package, and each entry's package has that name. *)
Theorem mergedHash_total (isStatic : bool) (packages : list PcPackageVariant) :
  ∃ hash, mergedHash isStatic packages = Some hash ∧ dom hash = names packages ∧
    ∀ k e, hash !! k = Some e → getBaseFileName (entry_package e) = k.
Proof.
  destruct (mergedHash_spec isStatic packages (λ _, 0) False) as (hash & E & Hdom & Hc);
    [done|].
  exists hash. split_and!; [done..|]. intros k e He.
  destruct (Hc k e He) as (i & v & _ & <- & Hm). by eapply merged_at_name.
Qed.

Section Merged.
Context (isStatic : bool) (packages : list PcPackageVariant) (rank : list ascii → nat).
Hypothesis Hrank : decreasing isStatic packages rank.
Hypothesis Hunique : NoDup (map getBaseFileName packages).

Lemma mergedHash_solution :
  ∃ hash, mergedHash isStatic packages = Some hash ∧ solution isStatic packages hash.
Proof.
  destruct (mergedHash_spec isStatic packages rank True) as (hash & E & Hdom & Hc); [done|].
  exists hash. split; [done|]. by apply complete_solution.
Qed.
End Merged.

(** C22: when the base names are unique and the dependencies have no cycle,
    merging computes the one solution of the equations that say what each package
    is merged to from the merged packages it depends on: neither the order of the
    packages nor the order of the recursive calls matters. *)
Theorem mergeDependencies_refines
    (isStatic : bool) (packages : list PcPackageVariant) (rank : list ascii → nat) :
  decreasing isStatic packages rank → NoDup (map getBaseFileName packages) →
  ∃ hash, mergedHash isStatic packages = Some hash ∧ solution isStatic packages hash ∧
    ∀ hash', solution isStatic packages hash' →
      ∀ i v e e', packages !! i = Some v →
        hash !! getBaseFileName v = Some e → hash' !! getBaseFileName v = Some e' →
        entry_equiv e e'.
Proof.
  intros Hrank Hunique.
  destruct (mergedHash_solution isStatic packages rank Hrank Hunique) as (hash & E & Hs).
  exists hash. split_and!; [done..|]. intros hash' Hs' i v e e' Hi He He'.
  by eapply (solution_unique isStatic packages rank Hrank hash hash').
Qed.



(** With cyclic requirements the result depends on the order of the
    packages: [a] and [b] require each other, and [b] also requires a package
    that does not exist.  When [a] comes first both are broken; when [b] comes
    first, [a] is merged against the unfinished entry of [b] and stays valid
    although the package it requires is broken. *)
Theorem cyclic_requirements_order_dependent :
  let req n := RequiredVersion.mk n RequiredVersion.AlwaysMatch [] in
  let a := set_requiresPublic [req (lit "b")] (set_baseFileName "a" emptyPackage) in
  let b := set_requiresPublic [req (lit "a"); req (lit "missing")]
             (set_baseFileName "b" emptyPackage) in
  let broken ps k :=
    (λ e, isBroken (entry_package e)) <$> default ∅ (mergedHash false ps) !! lit k in
  (broken [Valid a; Valid b] "a"%string = Some true ∧
   broken [Valid a; Valid b] "b"%string = Some true) ∧
  (broken [Valid b; Valid a] "a"%string = Some false ∧
   broken [Valid b; Valid a] "b"%string = Some true).
Proof. vm_compute. done. Qed.


(** A list of non-empty tokens joined by a delimiter that occurs in none of
    them is split into these tokens; empty tokens disappear. *)
Theorem split_roundtrip (delim : char) (ts : list str) :
  Forall (λ t, t ≠ [] ∧ Forall (λ c, c ≠ delim) t) ts →
  split (joinWith [delim] ts) delim = ts ∧
  split (delim :: joinWith [delim] ts) delim = ts.
Proof.
  intros Hts. unfold split. simpl. rewrite ascii_eqb_refl. simpl.
  by rewrite !split_loop_join.
Qed.

Section FoundPackages.
Context (path_exists : list ascii → bool).
Context (directory_entries : list ascii → list (list ascii)).
Context (extension generic_string parent_path : list ascii → list ascii).
Context (open_file : list ascii → option (list ascii)).
Context (o : Options).
Notation found hash_order :=
  (findPackages path_exists directory_entries extension generic_string parent_path
     open_file hash_order o).

(** What [findPackages] has parsed before it merges. *)
Definition loadedPackages : list PcPackageVariant :=
  map (loadPackage generic_string parent_path open_file o)
    (List.filter (λ p, negb (skipped o p))
       (getPcFilePaths path_exists directory_entries extension generic_string
          (extraPaths o ++ libDirs o))).

Lemma merged_names hash_order :
  (∀ h, hash_order h ≡ₚ map_to_list h) →
  map getBaseFileName (mergeDependencies hash_order o loadedPackages) ≡ₚ
  elements (names loadedPackages).
Proof.
  intros Ho. unfold mergeDependencies.
  destruct (mergedHash_spec (staticMode o) loadedPackages (λ _, 0) False)
    as (hash & -> & Hdom & Hc); [done|]. simpl.
  rewrite map_map, Ho, <-Hdom.
  assert (map (λ x, getBaseFileName (entry_package x.2)) (map_to_list hash) =
    (map_to_list hash).*1) as ->.
  { apply map_ext_in. intros [k e] Hke%list_elem_of_In%elem_of_map_to_list. simpl.
    destruct (Hc k e Hke) as (i & v & _ & <- & Hm). by eapply merged_at_name. }
  apply NoDup_Permutation; [apply NoDup_fst_map_to_list|apply NoDup_elements|].
  intros k. rewrite elem_of_elements, elem_of_dom, list_elem_of_fmap. split.
  - intros ([k' e] & -> & H%elem_of_map_to_list). by exists e.
  - intros [e He]. exists (k, e). split; [done|by apply elem_of_map_to_list].
Qed.

Lemma NoDup_names_inj (ps : list PcPackageVariant) p q :
  NoDup (map getBaseFileName ps) → p ∈ ps → q ∈ ps →
  getBaseFileName p = getBaseFileName q → p = q.
Proof.
  intros Hn [i Hi]%list_elem_of_lookup_1 [j Hj]%list_elem_of_lookup_1 Heq.
  assert (i = j) as <- by by eapply unique_index. congruence.
Qed.

(** With merging enabled, [findPackages] returns one package for each base
    name that was loaded, sorted by name; the result does not depend on the order
    in which the hash is iterated; and [getPackage] finds the package of a name by
    binary search exactly when a file with that base name was loaded, reporting
    an unknown package otherwise. *)
Theorem findPackages_lookup hash_order hash_order' (nm : str) :
  opt_mergeDependencies o = true →
  (∀ h, hash_order h ≡ₚ map_to_list h) → (∀ h, hash_order' h ≡ₚ map_to_list h) →
  NoDup (map getBaseFileName (found hash_order)) ∧
  StronglySorted (λ x y, lessThanPackage y x = false) (found hash_order) ∧
  found hash_order' = found hash_order ∧
  match getPackage (found hash_order) nm with
  | Ok p => p ∈ found hash_order ∧ getBaseFileName p = nm ∧ nm ∈ names loadedPackages
  | Throw e => e = unknownPackageMessage nm ∧ nm ∉ names loadedPackages
  end.
Proof.
  intros Hm Ho Ho'. unfold findPackages. rewrite Hm. fold loadedPackages.
  set (ps := mergeDependencies hash_order o loadedPackages).
  set (ps' := mergeDependencies hash_order' o loadedPackages).
  assert (ps' ≡ₚ ps) as Hperm.
  { unfold ps, ps', mergeDependencies. by rewrite Ho, Ho'. }
  assert (map getBaseFileName (std_sort lessThanPackage ps) ≡ₚ
    elements (names loadedPackages)) as Hnames.
  { rewrite std_sort_perm. by apply merged_names. }
  assert (NoDup (map getBaseFileName (std_sort lessThanPackage ps))) as Hnd.
  { rewrite Hnames. apply NoDup_elements. }
  assert (∀ p, p ∈ std_sort lessThanPackage ps →
    getBaseFileName p ∈ names loadedPackages) as Hin.
  { intros p Hp. rewrite <-elem_of_elements, <-Hnames. apply list_elem_of_fmap. by exists p. }
  split_and!; [done|apply sort_packages_sorted| |].
  - apply (StronglySorted_unique_strong (λ x y, lessThanPackage y x = false));
      [|apply sort_packages_sorted..|by rewrite !std_sort_perm].
    intros p q Hp Hq H1 H2. apply (NoDup_names_inj (std_sort lessThanPackage ps)); [done| |done|].
    { rewrite std_sort_perm, <-Hperm. by rewrite std_sort_perm in Hp. }
    by apply (ltb_total (ltb := str_ltb)).
  - pose proof (getPackage_sorted _ nm (sort_packages_sorted ps)) as Hg.
    destruct (getPackage _ nm) as [p|e]; destruct Hg as [Hg1 Hg2].
    + split_and!; [done..|]. rewrite <-Hg2. by apply Hin.
    + split; [done|]. intros Hnm. rewrite <-elem_of_elements, <-Hnames in Hnm.
      apply list_elem_of_fmap in Hnm as (p & -> & Hp). by eapply Hg2.
Qed.
End FoundPackages.

(** ** Witnesses *)

Definition w_req (n : str) : RequiredVersion.t :=
  RequiredVersion.mk n RequiredVersion.GreaterThanEqual "1.2".

(** [app] requires [lib] 1.2, which has version 1.10; [old] requires a version of
    [app] that [app] does not have. *)
Definition w_lib : PcPackage :=
  set_version "1.10" (set_libs [Flag.mk Flag.LibraryName "lib"]
    (set_baseFileName "lib" emptyPackage)).
Definition w_app : PcPackage :=
  set_requiresPublic [w_req "lib"]
    (set_libs [Flag.mk Flag.LibraryName "app"; Flag.mk Flag.LibraryName "lib"]
       (set_version "1.1" (set_baseFileName "app" emptyPackage))).
Definition w_old : PcPackage :=
  set_requiresPublic [w_req "app"] (set_baseFileName "old" emptyPackage).
Definition w_packages : list PcPackageVariant := [Valid w_old; Valid w_app; Valid w_lib].
Definition w_rank (k : list ascii) : nat :=
  if bool_decide (k = "lib") then 0 else if bool_decide (k = "app") then 1 else 2.

Lemma w_decreasing : decreasing false w_packages w_rank.
Proof.
  intros i p d Hi Hd _.
  destruct i as [|[|[|i]]]; simpl in Hi; try done; injection Hi as <-;
    simpl in Hd; try by apply elem_of_nil in Hd.
  - apply list_elem_of_singleton in Hd as ->. vm_compute. lia.
  - apply list_elem_of_singleton in Hd as ->. vm_compute. lia.
Qed.

Lemma w_unique : NoDup (map getBaseFileName w_packages).
Proof. by apply (bool_decide_unpack (NoDup (map getBaseFileName w_packages))). Qed.

Definition w_hash : mergedHash_t := default ∅ (mergedHash false w_packages).

Lemma w_hash_eq : mergedHash false w_packages = Some w_hash.
Proof. by vm_compute. Qed.

Definition w_entry (k : list ascii) : MergedHashEntry := default emptyEntry (w_hash !! k).

Lemma mergeDependencies_refines_witness :
  ∃ hash, mergedHash false w_packages = Some hash ∧ solution false w_packages hash.
Proof.
  destruct (mergeDependencies_refines false w_packages w_rank w_decreasing w_unique)
    as (hash & E & Hs & _).
  exists hash. split; [exact E|exact Hs].
Defined.



Lemma split_roundtrip_witness : split ":/usr/lib:/lib" ":" = [lit "/usr/lib"; lit "/lib"].
Proof.
  refine (proj2 (split_roundtrip ":" [lit "/usr/lib"; lit "/lib"] _)).
  by apply (bool_decide_unpack _).
Defined.

(** A file system with one directory. *)
Definition w_files (path : list ascii) : option (list ascii) :=
  if bool_decide (path = "/pc/b.pc") then
    Some (lit "Name: b" ++ LF :: lit "Version: 2" ++ [LF])
  else if bool_decide (path = "/pc/a.pc") then
    Some (lit "Name: a" ++ LF :: lit "Requires: b >= 3" ++ [LF])
  else None.
Definition w_dir (path : list ascii) : list (list ascii) :=
  [lit "/pc/b.pc"; lit "/pc/readme"; lit "/pc/a.pc"].
Definition w_ext (path : list ascii) : list ascii :=
  if endsWith path ".pc" then lit ".pc" else [].
Definition w_options : Options :=
  mkOptions [lit "/pc"] [] [] [] false [] true false true ∅ ∅.

Lemma findPackages_lookup_witness :
  let found := findPackages (λ _, true) w_dir w_ext id (λ _, lit "/pc") w_files
                 map_to_list w_options in
  NoDup (map getBaseFileName found) ∧
  map (λ p, (getBaseFileName p, isBroken p)) found = [(lit "a", true); (lit "b", false)].
Proof.
  split; [|by vm_compute].
  refine (proj1 (findPackages_lookup (λ _, true) w_dir w_ext id (λ _, lit "/pc") w_files
    w_options map_to_list map_to_list "a" _ _ _)); done.
Defined.
