(* ===== verification/Token.v ===== *)
(** * Tokens of the C++ scanner ([plugins/scanner/cpp/Token.h], [Token.cpp])

    The kinds of tokens, their numeric values and names, and the token record with
    its classification functions. *)

From S2P Require Import Prelude.

(** [enum Kind]; the enumerators that only mark the first or last of a group or
    give an alternative spelling are definitions below. *)
Inductive Kind : Set :=
  | T_EOF_SYMBOL | T_ERROR | T_CPP_COMMENT | T_CPP_DOXY_COMMENT | T_COMMENT
  | T_DOXY_COMMENT | T_IDENTIFIER | T_NUMERIC_LITERAL | T_CHAR_LITERAL
  | T_WIDE_CHAR_LITERAL | T_STRING_LITERAL | T_WIDE_STRING_LITERAL
  | T_AT_STRING_LITERAL | T_ANGLE_STRING_LITERAL | T_AMPER | T_AMPER_AMPER
  | T_AMPER_EQUAL | T_ARROW | T_ARROW_STAR | T_CARET | T_CARET_EQUAL | T_COLON
  | T_COLON_COLON | T_COMMA | T_SLASH | T_SLASH_EQUAL | T_DOT | T_DOT_DOT_DOT
  | T_DOT_STAR | T_EQUAL | T_EQUAL_EQUAL | T_EXCLAIM | T_EXCLAIM_EQUAL | T_GREATER
  | T_GREATER_EQUAL | T_GREATER_GREATER | T_GREATER_GREATER_EQUAL | T_LBRACE
  | T_LBRACKET | T_LESS | T_LESS_EQUAL | T_LESS_LESS | T_LESS_LESS_EQUAL | T_LPAREN
  | T_MINUS | T_MINUS_EQUAL | T_MINUS_MINUS | T_PERCENT | T_PERCENT_EQUAL | T_PIPE
  | T_PIPE_EQUAL | T_PIPE_PIPE | T_PLUS | T_PLUS_EQUAL | T_PLUS_PLUS | T_POUND
  | T_POUND_POUND | T_QUESTION | T_RBRACE | T_RBRACKET | T_RPAREN | T_SEMICOLON
  | T_STAR | T_STAR_EQUAL | T_TILDE | T_TILDE_EQUAL | T_ASM | T_AUTO | T_BOOL | T_BREAK
  | T_CASE | T_CATCH | T_CHAR | T_CLASS | T_CONST | T_CONST_CAST | T_CONTINUE
  | T_DEFAULT | T_DELETE | T_DO | T_DOUBLE | T_DYNAMIC_CAST | T_ELSE | T_ENUM
  | T_EXPLICIT | T_EXPORT | T_EXTERN | T_FALSE | T_FLOAT | T_FOR | T_FRIEND | T_GOTO
  | T_IF | T_INLINE | T_INT | T_LONG | T_MUTABLE | T_NAMESPACE | T_NEW | T_OPERATOR
  | T_PRIVATE | T_PROTECTED | T_PUBLIC | T_REGISTER | T_REINTERPRET_CAST | T_RETURN
  | T_SHORT | T_SIGNED | T_SIZEOF | T_STATIC | T_STATIC_CAST | T_STRUCT | T_SWITCH
  | T_TEMPLATE | T_THIS | T_THROW | T_TRUE | T_TRY | T_TYPEDEF | T_TYPEID | T_TYPENAME
  | T_UNION | T_UNSIGNED | T_USING | T_VIRTUAL | T_VOID | T_VOLATILE | T_WCHAR_T
  | T_WHILE | T___ATTRIBUTE__ | T___TYPEOF__ | T_AT_CATCH | T_AT_CLASS
  | T_AT_COMPATIBILITY_ALIAS | T_AT_DEFS | T_AT_DYNAMIC | T_AT_ENCODE | T_AT_END
  | T_AT_FINALLY | T_AT_IMPLEMENTATION | T_AT_INTERFACE | T_AT_NOT_KEYWORD
  | T_AT_OPTIONAL | T_AT_PACKAGE | T_AT_PRIVATE | T_AT_PROPERTY | T_AT_PROTECTED
  | T_AT_PROTOCOL | T_AT_PUBLIC | T_AT_REQUIRED | T_AT_SELECTOR | T_AT_SYNCHRONIZED
  | T_AT_SYNTHESIZE | T_AT_THROW | T_AT_TRY | T_SIGNAL | T_SLOT | T_Q_SIGNAL | T_Q_SLOT
  | T_Q_SIGNALS | T_Q_SLOTS | T_Q_FOREACH | T_Q_D | T_Q_Q | T_Q_INVOKABLE
  | T_Q_PROPERTY | T_Q_INTERFACES | T_Q_ENUMS | T_Q_FLAGS | T_Q_PRIVATE_SLOT
  | T_Q_DECLARE_INTERFACE | T_Q_OBJECT | T_Q_GADGET | T_Q_NAMESPACE.

(** The enumerators in the order of their values. *)
Definition all_kinds : list Kind :=
  [T_EOF_SYMBOL; T_ERROR; T_CPP_COMMENT; T_CPP_DOXY_COMMENT; T_COMMENT; T_DOXY_COMMENT;
   T_IDENTIFIER; T_NUMERIC_LITERAL; T_CHAR_LITERAL; T_WIDE_CHAR_LITERAL;
   T_STRING_LITERAL; T_WIDE_STRING_LITERAL; T_AT_STRING_LITERAL;
   T_ANGLE_STRING_LITERAL; T_AMPER; T_AMPER_AMPER; T_AMPER_EQUAL; T_ARROW;
   T_ARROW_STAR; T_CARET; T_CARET_EQUAL; T_COLON; T_COLON_COLON; T_COMMA; T_SLASH;
   T_SLASH_EQUAL; T_DOT; T_DOT_DOT_DOT; T_DOT_STAR; T_EQUAL; T_EQUAL_EQUAL; T_EXCLAIM;
   T_EXCLAIM_EQUAL; T_GREATER; T_GREATER_EQUAL; T_GREATER_GREATER;
   T_GREATER_GREATER_EQUAL; T_LBRACE; T_LBRACKET; T_LESS; T_LESS_EQUAL; T_LESS_LESS;
   T_LESS_LESS_EQUAL; T_LPAREN; T_MINUS; T_MINUS_EQUAL; T_MINUS_MINUS; T_PERCENT;
   T_PERCENT_EQUAL; T_PIPE; T_PIPE_EQUAL; T_PIPE_PIPE; T_PLUS; T_PLUS_EQUAL;
   T_PLUS_PLUS; T_POUND; T_POUND_POUND; T_QUESTION; T_RBRACE; T_RBRACKET; T_RPAREN;
   T_SEMICOLON; T_STAR; T_STAR_EQUAL; T_TILDE; T_TILDE_EQUAL; T_ASM; T_AUTO; T_BOOL;
   T_BREAK; T_CASE; T_CATCH; T_CHAR; T_CLASS; T_CONST; T_CONST_CAST; T_CONTINUE;
   T_DEFAULT; T_DELETE; T_DO; T_DOUBLE; T_DYNAMIC_CAST; T_ELSE; T_ENUM; T_EXPLICIT;
   T_EXPORT; T_EXTERN; T_FALSE; T_FLOAT; T_FOR; T_FRIEND; T_GOTO; T_IF; T_INLINE;
   T_INT; T_LONG; T_MUTABLE; T_NAMESPACE; T_NEW; T_OPERATOR; T_PRIVATE; T_PROTECTED;
   T_PUBLIC; T_REGISTER; T_REINTERPRET_CAST; T_RETURN; T_SHORT; T_SIGNED; T_SIZEOF;
   T_STATIC; T_STATIC_CAST; T_STRUCT; T_SWITCH; T_TEMPLATE; T_THIS; T_THROW; T_TRUE;
   T_TRY; T_TYPEDEF; T_TYPEID; T_TYPENAME; T_UNION; T_UNSIGNED; T_USING; T_VIRTUAL;
   T_VOID; T_VOLATILE; T_WCHAR_T; T_WHILE; T___ATTRIBUTE__; T___TYPEOF__; T_AT_CATCH;
   T_AT_CLASS; T_AT_COMPATIBILITY_ALIAS; T_AT_DEFS; T_AT_DYNAMIC; T_AT_ENCODE;
   T_AT_END; T_AT_FINALLY; T_AT_IMPLEMENTATION; T_AT_INTERFACE; T_AT_NOT_KEYWORD;
   T_AT_OPTIONAL; T_AT_PACKAGE; T_AT_PRIVATE; T_AT_PROPERTY; T_AT_PROTECTED;
   T_AT_PROTOCOL; T_AT_PUBLIC; T_AT_REQUIRED; T_AT_SELECTOR; T_AT_SYNCHRONIZED;
   T_AT_SYNTHESIZE; T_AT_THROW; T_AT_TRY; T_SIGNAL; T_SLOT; T_Q_SIGNAL; T_Q_SLOT;
   T_Q_SIGNALS; T_Q_SLOTS; T_Q_FOREACH; T_Q_D; T_Q_Q; T_Q_INVOKABLE; T_Q_PROPERTY;
   T_Q_INTERFACES; T_Q_ENUMS; T_Q_FLAGS; T_Q_PRIVATE_SLOT; T_Q_DECLARE_INTERFACE;
   T_Q_OBJECT; T_Q_GADGET; T_Q_NAMESPACE].

Definition kind_value (k : Kind) : Z :=
  match k with
  | T_EOF_SYMBOL => 0
  | T_ERROR => 1
  | T_CPP_COMMENT => 2
  | T_CPP_DOXY_COMMENT => 3
  | T_COMMENT => 4
  | T_DOXY_COMMENT => 5
  | T_IDENTIFIER => 6
  | T_NUMERIC_LITERAL => 7
  | T_CHAR_LITERAL => 8
  | T_WIDE_CHAR_LITERAL => 9
  | T_STRING_LITERAL => 10
  | T_WIDE_STRING_LITERAL => 11
  | T_AT_STRING_LITERAL => 12
  | T_ANGLE_STRING_LITERAL => 13
  | T_AMPER => 14
  | T_AMPER_AMPER => 15
  | T_AMPER_EQUAL => 16
  | T_ARROW => 17
  | T_ARROW_STAR => 18
  | T_CARET => 19
  | T_CARET_EQUAL => 20
  | T_COLON => 21
  | T_COLON_COLON => 22
  | T_COMMA => 23
  | T_SLASH => 24
  | T_SLASH_EQUAL => 25
  | T_DOT => 26
  | T_DOT_DOT_DOT => 27
  | T_DOT_STAR => 28
  | T_EQUAL => 29
  | T_EQUAL_EQUAL => 30
  | T_EXCLAIM => 31
  | T_EXCLAIM_EQUAL => 32
  | T_GREATER => 33
  | T_GREATER_EQUAL => 34
  | T_GREATER_GREATER => 35
  | T_GREATER_GREATER_EQUAL => 36
  | T_LBRACE => 37
  | T_LBRACKET => 38
  | T_LESS => 39
  | T_LESS_EQUAL => 40
  | T_LESS_LESS => 41
  | T_LESS_LESS_EQUAL => 42
  | T_LPAREN => 43
  | T_MINUS => 44
  | T_MINUS_EQUAL => 45
  | T_MINUS_MINUS => 46
  | T_PERCENT => 47
  | T_PERCENT_EQUAL => 48
  | T_PIPE => 49
  | T_PIPE_EQUAL => 50
  | T_PIPE_PIPE => 51
  | T_PLUS => 52
  | T_PLUS_EQUAL => 53
  | T_PLUS_PLUS => 54
  | T_POUND => 55
  | T_POUND_POUND => 56
  | T_QUESTION => 57
  | T_RBRACE => 58
  | T_RBRACKET => 59
  | T_RPAREN => 60
  | T_SEMICOLON => 61
  | T_STAR => 62
  | T_STAR_EQUAL => 63
  | T_TILDE => 64
  | T_TILDE_EQUAL => 65
  | T_ASM => 66
  | T_AUTO => 67
  | T_BOOL => 68
  | T_BREAK => 69
  | T_CASE => 70
  | T_CATCH => 71
  | T_CHAR => 72
  | T_CLASS => 73
  | T_CONST => 74
  | T_CONST_CAST => 75
  | T_CONTINUE => 76
  | T_DEFAULT => 77
  | T_DELETE => 78
  | T_DO => 79
  | T_DOUBLE => 80
  | T_DYNAMIC_CAST => 81
  | T_ELSE => 82
  | T_ENUM => 83
  | T_EXPLICIT => 84
  | T_EXPORT => 85
  | T_EXTERN => 86
  | T_FALSE => 87
  | T_FLOAT => 88
  | T_FOR => 89
  | T_FRIEND => 90
  | T_GOTO => 91
  | T_IF => 92
  | T_INLINE => 93
  | T_INT => 94
  | T_LONG => 95
  | T_MUTABLE => 96
  | T_NAMESPACE => 97
  | T_NEW => 98
  | T_OPERATOR => 99
  | T_PRIVATE => 100
  | T_PROTECTED => 101
  | T_PUBLIC => 102
  | T_REGISTER => 103
  | T_REINTERPRET_CAST => 104
  | T_RETURN => 105
  | T_SHORT => 106
  | T_SIGNED => 107
  | T_SIZEOF => 108
  | T_STATIC => 109
  | T_STATIC_CAST => 110
  | T_STRUCT => 111
  | T_SWITCH => 112
  | T_TEMPLATE => 113
  | T_THIS => 114
  | T_THROW => 115
  | T_TRUE => 116
  | T_TRY => 117
  | T_TYPEDEF => 118
  | T_TYPEID => 119
  | T_TYPENAME => 120
  | T_UNION => 121
  | T_UNSIGNED => 122
  | T_USING => 123
  | T_VIRTUAL => 124
  | T_VOID => 125
  | T_VOLATILE => 126
  | T_WCHAR_T => 127
  | T_WHILE => 128
  | T___ATTRIBUTE__ => 129
  | T___TYPEOF__ => 130
  | T_AT_CATCH => 131
  | T_AT_CLASS => 132
  | T_AT_COMPATIBILITY_ALIAS => 133
  | T_AT_DEFS => 134
  | T_AT_DYNAMIC => 135
  | T_AT_ENCODE => 136
  | T_AT_END => 137
  | T_AT_FINALLY => 138
  | T_AT_IMPLEMENTATION => 139
  | T_AT_INTERFACE => 140
  | T_AT_NOT_KEYWORD => 141
  | T_AT_OPTIONAL => 142
  | T_AT_PACKAGE => 143
  | T_AT_PRIVATE => 144
  | T_AT_PROPERTY => 145
  | T_AT_PROTECTED => 146
  | T_AT_PROTOCOL => 147
  | T_AT_PUBLIC => 148
  | T_AT_REQUIRED => 149
  | T_AT_SELECTOR => 150
  | T_AT_SYNCHRONIZED => 151
  | T_AT_SYNTHESIZE => 152
  | T_AT_THROW => 153
  | T_AT_TRY => 154
  | T_SIGNAL => 155
  | T_SLOT => 156
  | T_Q_SIGNAL => 157
  | T_Q_SLOT => 158
  | T_Q_SIGNALS => 159
  | T_Q_SLOTS => 160
  | T_Q_FOREACH => 161
  | T_Q_D => 162
  | T_Q_Q => 163
  | T_Q_INVOKABLE => 164
  | T_Q_PROPERTY => 165
  | T_Q_INTERFACES => 166
  | T_Q_ENUMS => 167
  | T_Q_FLAGS => 168
  | T_Q_PRIVATE_SLOT => 169
  | T_Q_DECLARE_INTERFACE => 170
  | T_Q_OBJECT => 171
  | T_Q_GADGET => 172
  | T_Q_NAMESPACE => 173
  end.

Definition T_FIRST_LITERAL : Kind := T_NUMERIC_LITERAL.
Definition T_LAST_LITERAL : Kind := T_ANGLE_STRING_LITERAL.
Definition T_FIRST_OPERATOR : Kind := T_AMPER.
Definition T_LAST_OPERATOR : Kind := T_TILDE_EQUAL.
Definition T_FIRST_KEYWORD : Kind := T_ASM.
Definition T_FIRST_OBJC_AT_KEYWORD : Kind := T_AT_CATCH.
Definition T_LAST_OBJC_AT_KEYWORD : Kind := T_AT_TRY.
Definition T_FIRST_QT_KEYWORD : Kind := T_SIGNAL.
Definition T_LAST_KEYWORD : Kind := T_Q_NAMESPACE.

Lemma all_kinds_value k : all_kinds !! Z.to_nat (kind_value k) = Some k.
Proof. by destruct k. Qed.

#[export] Instance Kind_eq_dec : EqDecision Kind.
Proof.
  refine (λ k k', cast_if (decide (kind_value k = kind_value k'))).
  - abstract (pose proof (all_kinds_value k); pose proof (all_kinds_value k'); congruence).
  - abstract congruence.
Defined.

(** ** The token record

    The bits of [Token::Flags] that the scanner never sets are left out; [length]
    has 16 bits and [offset] 32. *)
Record Token : Set := mkToken {
  tok_kind : Kind;
  tok_newline : bool;
  tok_whitespace : bool;
  tok_joined : bool;
  tok_length : Z;
  tok_offset : Z;
  tok_lineno : Z
}.

Definition reset : Token := mkToken T_EOF_SYMBOL false false false 0 0 0.

Definition set_kind k t := mkToken k (tok_newline t) (tok_whitespace t) (tok_joined t)
  (tok_length t) (tok_offset t) (tok_lineno t).
Definition set_newline b t := mkToken (tok_kind t) b (tok_whitespace t) (tok_joined t)
  (tok_length t) (tok_offset t) (tok_lineno t).
Definition set_whitespace b t := mkToken (tok_kind t) (tok_newline t) b (tok_joined t)
  (tok_length t) (tok_offset t) (tok_lineno t).
Definition set_joined b t := mkToken (tok_kind t) (tok_newline t) (tok_whitespace t) b
  (tok_length t) (tok_offset t) (tok_lineno t).
Definition set_length n t := mkToken (tok_kind t) (tok_newline t) (tok_whitespace t)
  (tok_joined t) (n mod 2 ^ 16) (tok_offset t) (tok_lineno t).
Definition set_offset n t := mkToken (tok_kind t) (tok_newline t) (tok_whitespace t)
  (tok_joined t) (tok_length t) (n mod 2 ^ 32) (tok_lineno t).
Definition set_lineno n t := mkToken (tok_kind t) (tok_newline t) (tok_whitespace t)
  (tok_joined t) (tok_length t) (tok_offset t) n.

Definition tok_is (t : Token) (k : Kind) : bool := bool_decide (tok_kind t = k).

Definition tok_begin (t : Token) : Z := tok_offset t.
Definition tok_end (t : Token) : Z := (tok_offset t + tok_length t) mod 2 ^ 32.

Definition kind_between (lo hi k : Kind) : bool :=
  (kind_value lo <=? kind_value k)%Z && (kind_value k <=? kind_value hi)%Z.

Definition isLiteral (k : Kind) : bool := kind_between T_FIRST_LITERAL T_LAST_LITERAL k.
Definition isOperator (k : Kind) : bool := kind_between T_FIRST_OPERATOR T_LAST_OPERATOR k.
Definition isKeyword (k : Kind) : bool :=
  (kind_value T_FIRST_KEYWORD <=? kind_value k)%Z &&
  (kind_value k <? kind_value T_FIRST_QT_KEYWORD)%Z.
Definition isComment (k : Kind) : bool :=
  bool_decide (k = T_COMMENT) || bool_decide (k = T_DOXY_COMMENT) ||
  bool_decide (k = T_CPP_COMMENT) || bool_decide (k = T_CPP_DOXY_COMMENT).
Definition isObjCAtKeyword (k : Kind) : bool :=
  kind_between T_FIRST_OBJC_AT_KEYWORD T_LAST_OBJC_AT_KEYWORD k.

Definition token_names : list string :=
  [EmptyString; "<error>"; "<C++ comment>"; "<C++ doxy comment>"; "<comment>"; "<doxy comment>";
   "<identifier>"; "<numeric literal>"; "<char literal>"; "<wide char literal>";
   "<string literal>"; "<wide char literal>"; "<@string literal>";
   "<angle string literal>"; "&"; "&&"; "&="; "->"; "->*"; "^"; "^="; ":"; "::"; ",";
   "/"; "/="; "."; "..."; ".*"; "="; "=="; "!"; "!="; ">"; ">="; ">>"; ">>="; "{"; "[";
   "<"; "<="; "<<"; "<<="; "("; "-"; "-="; "--"; "%"; "%="; "|"; "|="; "||"; "+"; "+=";
   "++"; "#"; "##"; "?"; "}"; "]"; ")"; ";"; "*"; "*="; "~"; "~="; "asm"; "auto";
   "bool"; "break"; "case"; "catch"; "char"; "class"; "const"; "const_cast";
   "continue"; "default"; "delete"; "do"; "double"; "dynamic_cast"; "else"; "enum";
   "explicit"; "export"; "extern"; "false"; "float"; "for"; "friend"; "goto"; "if";
   "inline"; "int"; "long"; "mutable"; "namespace"; "new"; "operator"; "private";
   "protected"; "public"; "register"; "reinterpret_cast"; "return"; "short"; "signed";
   "sizeof"; "static"; "static_cast"; "struct"; "switch"; "template"; "this"; "throw";
   "true"; "try"; "typedef"; "typeid"; "typename"; "union"; "unsigned"; "using";
   "virtual"; "void"; "volatile"; "wchar_t"; "while"; "__attribute__"; "__typeof__";
   "@catch"; "@class"; "@compatibility_alias"; "@defs"; "@dynamic"; "@encode"; "@end";
   "@finally"; "@implementation"; "@interface"; "@not_keyword"; "@optional";
   "@package"; "@private"; "@property"; "@protected"; "@protocol"; "@public";
   "@required"; "@selector"; "@synchronized"; "@synthesize"; "@throw"; "@try";
   "SIGNAL"; "SLOT"; "Q_SIGNAL"; "Q_SLOT"; "signals"; "slots"; "Q_FOREACH"; "Q_D";
   "Q_Q"; "Q_INVOKABLE"; "Q_PROPERTY"; "Q_INTERFACES"; "Q_ENUMS"; "Q_FLAGS";
   "Q_PRIVATE_SLOT"; "Q_DECLARE_INTERFACE"; "Q_OBJECT"; "Q_GADGET"; "Q_NAMESPACE"]%string.

(** [Token::name]: an access outside the table is undefined. *)
Definition tok_name (k : Kind) : option str :=
  lit <$> token_names !! Z.to_nat (kind_value k).
