(* ===== verification/Lexer.v ===== *)
(** * The C++ lexer ([plugins/scanner/cpp/Lexer.cpp])

    The lexer works on a buffer of bytes through pointers, which are positions in
    the buffer here; the one before its first byte is [-1].  A read outside the
    buffer is [None], and so is a loop that has run out of fuel: the theorems of
    [LexerCorrect.v] show that neither happens. *)

From S2P Require Import Prelude Token.

Inductive LexState : Set :=
  | State_Default | State_MultiLineComment | State_MultiLineDoxyComment.

(** [Lexer::Flags], less the flags that [scan] does not look at. *)
Record LexFlags : Set := mkLexFlags {
  scanCommentTokens : bool;
  scanAngleStringLiteralTokens : bool;
  objCEnabled : bool
}.

Record Lexer : Set := mkLexer {
  currentChar : Z;
  tokenStart : Z;
  yychar : char;
  lexState : LexState;
  currentLine : Z;
  f : LexFlags
}.

Definition set_tokenStart x l :=
  mkLexer (currentChar l) x (yychar l) (lexState l) (currentLine l) (f l).
Definition setState x l :=
  mkLexer (currentChar l) (tokenStart l) (yychar l) x (currentLine l) (f l).
Definition setScanAngleStringLiteralTokens (onoff : bool) l :=
  mkLexer (currentChar l) (tokenStart l) (yychar l) (lexState l) (currentLine l)
    (mkLexFlags (scanCommentTokens (f l)) onoff (objCEnabled (f l))).
Definition setScanCommentTokens (onoff : bool) l :=
  mkLexer (currentChar l) (tokenStart l) (yychar l) (lexState l) (currentLine l)
    (mkLexFlags onoff (scanAngleStringLiteralTokens (f l)) (objCEnabled (f l))).
Definition setObjCEnabled (onoff : bool) l :=
  mkLexer (currentChar l) (tokenStart l) (yychar l) (lexState l) (currentLine l)
    (mkLexFlags (scanCommentTokens (f l)) (scanAngleStringLiteralTokens (f l)) onoff).
Definition setStartWithNewline (enabled : bool) l :=
  mkLexer (currentChar l) (tokenStart l) (if enabled then LF else " "%char) (lexState l)
    (currentLine l) (f l).

(** The constructor, with [setSource]. *)
Definition initialLexer : Lexer :=
  mkLexer (-1) (-1) LF State_Default 1 (mkLexFlags false false false).

Definition isIdentChar (c : char) : bool := isalnum c || (c =c "_") || (c =c "$").

Section Lexer.
(** The bytes from [_firstChar] to [_lastChar]. *)
Context (source : list ascii).

(** [*p] *)
Definition readChar (p : Z) : option char :=
  if (p <? 0)%Z then None else source !! Z.to_nat p.

Definition pushLineStartOffset (line : Z) : Z := (line + 1) mod 2 ^ 32.

Definition yyinp (l : Lexer) : option Lexer :=
  let p := (currentChar l + 1)%Z in
  if (p =? Z.of_nat (length source))%Z then
    Some (mkLexer p (tokenStart l) NUL (lexState l) (currentLine l) (f l))
  else
    c ← readChar p;
    let line := if c =c LF then pushLineStartOffset (currentLine l) else currentLine l in
    Some (mkLexer p (tokenStart l) c (lexState l) line (f l)).

(** [while (p(_yychar)) yyinp();] *)
Fixpoint skipWhile (fuel : nat) (p : char → bool) (l : Lexer) : option Lexer :=
  match fuel with
  | O => None
  | S fuel => if p (yychar l) then l ← yyinp l; skipWhile fuel p l else Some l
  end.

(** The white space before a token. *)
Fixpoint skipSpace (fuel : nat) (l : Lexer) (tok : Token) : option (Lexer * Token) :=
  match fuel with
  | O => None
  | S fuel =>
      if isspace (yychar l) then
        let tok :=
          if yychar l =c LF then set_newline true (set_joined false tok)
          else set_whitespace true tok in
        l ← yyinp l; skipSpace fuel l tok
      else Some (l, tok)
  end.

(** The loop inside a string or character literal; [stopAtNewline] for the
    literals that end at the end of the line. *)
Fixpoint skipLiteral (fuel : nat) (stopAtNewline : bool) (quote : char) (l : Lexer) :
    option Lexer :=
  match fuel with
  | O => None
  | S fuel =>
      if (yychar l =c NUL) || (yychar l =c quote) then Some l
      else if stopAtNewline && (yychar l =c LF) then Some l
      else if negb (yychar l =c BACKSLASH) then
        l ← yyinp l; skipLiteral fuel stopAtNewline quote l
      else
        l ← yyinp l;
        if negb (yychar l =c NUL) then
          l ← yyinp l; skipLiteral fuel stopAtNewline quote l
        else skipLiteral fuel stopAtNewline quote l
  end.

(** [if (_yychar == c) yyinp();] *)
Definition skipIf (c : char) (l : Lexer) : option Lexer :=
  if yychar l =c c then yyinp l else Some l.

(** The loop inside a number. *)
Fixpoint skipNumber (fuel : nat) (l : Lexer) : option Lexer :=
  match fuel with
  | O => None
  | S fuel =>
      if yychar l =c NUL then Some l
      else if (yychar l =c "e") || (yychar l =c "E") then
        l ← yyinp l;
        if (yychar l =c "-") || (yychar l =c "+") then l ← yyinp l; skipNumber fuel l
        else skipNumber fuel l
      else if isalnum (yychar l) || (yychar l =c ".") then l ← yyinp l; skipNumber fuel l
      else Some l
  end.

(** The loop inside a comment, up to the slash that ends it. *)
Fixpoint skipComment (fuel : nat) (l : Lexer) : option Lexer :=
  match fuel with
  | O => None
  | S fuel =>
      if yychar l =c NUL then Some l
      else if negb (yychar l =c "*") then l ← yyinp l; skipComment fuel l
      else
        l ← yyinp l;
        if yychar l =c "/" then Some l else skipComment fuel l
  end.

(** What a branch of [scan_helper] does in the end: return with the token, or
    [goto _Lagain]. *)
Inductive Outcome : Set :=
  | Done (l : Lexer) (tok : Token)
  | Again (l : Lexer) (tok : Token).

Definition done_ (k : Kind) (l : Lexer) (tok : Token) : option Outcome :=
  Some (Done l (set_kind k tok)).

(** [yyinp(); tok->f.kind = k;] *)
Definition take_ (k : Kind) (l : Lexer) (tok : Token) : option Outcome :=
  l ← yyinp l; done_ k l tok.

(** The state left behind by a comment that the previous call did not finish. *)
Definition scanRestOfComment (fuel : nat) (l : Lexer) (tok : Token) : option Outcome :=
  let originalState := lexState l in
  if yychar l =c NUL then done_ T_EOF_SYMBOL l tok
  else
    l ← skipComment fuel l;
    l ← (if yychar l =c NUL then Some l
         else l ← yyinp l; Some (setState State_Default l));
    if negb (scanCommentTokens (f l)) then Some (Again l tok)
    else
      match originalState with
      | State_MultiLineComment => done_ T_COMMENT l tok
      | _ => done_ T_DOXY_COMMENT l tok
      end.

(** [case '\\':] *)
Definition scanBackslash (fuel : nat) (l : Lexer) (tok : Token) : option Outcome :=
  l ← skipWhile fuel (λ c, negb (c =c LF) && isspace c) l;
  if yychar l =c LF then
    l ← yyinp l; Some (Again l (set_newline false (set_joined true tok)))
  else Some (Again l tok).

(** [case Q:] for the two quotes. *)
Definition scanQuote (fuel : nat) (quote : char) (l : Lexer) (tok : Token) :
    option Outcome :=
  l ← skipLiteral fuel true quote l;
  l ← skipIf quote l;
  done_ (if quote =c DQUOTE then T_STRING_LITERAL else T_CHAR_LITERAL) l tok.

(** [case '.':] *)
Definition scanDot (fuel : nat) (l : Lexer) (tok : Token) : option Outcome :=
  if yychar l =c "*" then take_ T_DOT_STAR l tok
  else if yychar l =c "." then
    l ← yyinp l;
    if yychar l =c "." then take_ T_DOT_DOT_DOT l tok else done_ T_ERROR l tok
  else if isdigit (yychar l) then l ← skipNumber fuel l; done_ T_NUMERIC_LITERAL l tok
  else done_ T_DOT l tok.

(** [case '/':] followed by another slash. *)
Definition scanLineComment (fuel : nat) (l : Lexer) (tok : Token) : option Outcome :=
  l ← yyinp l;
  match
    (if (yychar l =c "/") || (yychar l =c "!") then
       l ← yyinp l;
       l ← skipIf "<" l;
       Some (l, negb (yychar l =c LF) && isspace (yychar l))
     else Some (l, false)) : option (Lexer * bool)
  with
  | None => None
  | Some (l, doxy) =>
      l ← skipWhile fuel (λ c, negb (c =c NUL) && negb (c =c LF)) l;
      if negb (scanCommentTokens (f l)) then Some (Again l tok)
      else done_ (if doxy then T_CPP_DOXY_COMMENT else T_CPP_COMMENT) l tok
  end.

(** The label [_Ldone]. *)
Definition endBlockComment (doxy : bool) (l : Lexer) (tok : Token) : option Outcome :=
  l ← (if negb (yychar l =c NUL) then yyinp l
       else Some (setState (if doxy then State_MultiLineDoxyComment
                            else State_MultiLineComment) l));
  if negb (scanCommentTokens (f l)) then Some (Again l tok)
  else done_ (if doxy then T_DOXY_COMMENT else T_COMMENT) l tok.

(** [case '/':] followed by a star. *)
Definition scanBlockComment (fuel : nat) (l : Lexer) (tok : Token) : option Outcome :=
  l ← yyinp l;
  if (yychar l =c "*") || (yychar l =c "!") then
    let ch := yychar l in
    l ← yyinp l;
    if (ch =c "*") && (yychar l =c "/") then endBlockComment false l tok
    else
      l ← skipIf "<" l;
      let doxy := (yychar l =c NUL) || isspace (yychar l) in
      l ← skipComment fuel l; endBlockComment doxy l tok
  else l ← skipComment fuel l; endBlockComment false l tok.

(** [case '/':] *)
Definition scanSlash (fuel : nat) (l : Lexer) (tok : Token) : option Outcome :=
  if yychar l =c "/" then scanLineComment fuel l tok
  else if yychar l =c "*" then scanBlockComment fuel l tok
  else if yychar l =c "=" then take_ T_SLASH_EQUAL l tok
  else done_ T_SLASH l tok.

(** [case '<':] *)
Definition scanLess (fuel : nat) (l : Lexer) (tok : Token) : option Outcome :=
  if scanAngleStringLiteralTokens (f l) then
    l ← skipWhile fuel (λ c, negb (c =c NUL) && negb (c =c ">")) l;
    l ← skipIf ">" l;
    done_ T_ANGLE_STRING_LITERAL l tok
  else if yychar l =c "<" then
    l ← yyinp l;
    if yychar l =c "=" then take_ T_LESS_LESS_EQUAL l tok else done_ T_LESS_LESS l tok
  else if yychar l =c "=" then take_ T_LESS_EQUAL l tok
  else done_ T_LESS l tok.

(** [case '>':]; the kind set for [>>=] is overwritten. *)
Definition scanGreater (l : Lexer) (tok : Token) : option Outcome :=
  if yychar l =c ">" then
    l ← yyinp l;
    '(l, tok) ← (if yychar l =c "=" then
                   l ← yyinp l; Some (l, set_kind T_GREATER_GREATER_EQUAL tok)
                 else Some (l, set_kind T_LESS_LESS tok));
    done_ T_GREATER_GREATER l tok
  else if yychar l =c "=" then take_ T_GREATER_EQUAL l tok
  else done_ T_GREATER l tok.

(** The [default:] case; the first two branches are those of Objective-C. *)
Definition scanDefault (fuel : nat) (ch : char) (l : Lexer) (tok : Token) :
    option Outcome :=
  if objCEnabled (f l) && (ch =c "@") && islower (yychar l) then
    l ← yyinp l; l ← skipWhile fuel isIdentChar l; Some (Done l tok)
  else if objCEnabled (f l) && (ch =c "@") && (yychar l =c DQUOTE) then
    l ← yyinp l;
    l ← skipLiteral fuel false DQUOTE l;
    l ← skipIf DQUOTE l;
    done_ T_AT_STRING_LITERAL l tok
  else if (ch =c "L") && ((yychar l =c DQUOTE) || (yychar l =c SQUOTE)) then
    let quote := yychar l in
    l ← yyinp l;
    l ← skipLiteral fuel false quote l;
    l ← skipIf quote l;
    done_ (if quote =c DQUOTE then T_WIDE_STRING_LITERAL else T_WIDE_CHAR_LITERAL) l tok
  else if isalpha ch || (ch =c "_") || (ch =c "$") then
    l ← skipWhile fuel isIdentChar l; done_ T_IDENTIFIER l tok
  else if isdigit ch then l ← skipNumber fuel l; done_ T_NUMERIC_LITERAL l tok
  else done_ T_ERROR l tok.

(** A case whose operator may be followed by ['=']. *)
Definition scanWithEqual (plain equal : Kind) (l : Lexer) (tok : Token) : option Outcome :=
  if yychar l =c "=" then take_ equal l tok else done_ plain l tok.

(** A case whose operator may be doubled or followed by ['=']. *)
Definition scanDoubled (c : char) (plain doubled equal : Kind) (l : Lexer) (tok : Token) :
    option Outcome :=
  if yychar l =c c then take_ doubled l tok else scanWithEqual plain equal l tok.

(** [case '-':] *)
Definition scanMinus (l : Lexer) (tok : Token) : option Outcome :=
  if yychar l =c "-" then take_ T_MINUS_MINUS l tok
  else if yychar l =c "=" then take_ T_MINUS_EQUAL l tok
  else if yychar l =c ">" then
    l ← yyinp l;
    if yychar l =c "*" then take_ T_ARROW_STAR l tok else done_ T_ARROW l tok
  else done_ T_MINUS l tok.

(** The switch on the first character of a token. *)
Definition scanSwitch (fuel : nat) (ch : char) (l : Lexer) (tok : Token) : option Outcome :=
  if ch =c BACKSLASH then scanBackslash fuel l tok
  else if (ch =c DQUOTE) || (ch =c SQUOTE) then scanQuote fuel ch l tok
  else if ch =c "{" then done_ T_LBRACE l tok
  else if ch =c "}" then done_ T_RBRACE l tok
  else if ch =c "[" then done_ T_LBRACKET l tok
  else if ch =c "]" then done_ T_RBRACKET l tok
  else if ch =c "#" then
    if yychar l =c "#" then take_ T_POUND_POUND l tok else done_ T_POUND l tok
  else if ch =c "(" then done_ T_LPAREN l tok
  else if ch =c ")" then done_ T_RPAREN l tok
  else if ch =c ";" then done_ T_SEMICOLON l tok
  else if ch =c ":" then
    if yychar l =c ":" then take_ T_COLON_COLON l tok else done_ T_COLON l tok
  else if ch =c "." then scanDot fuel l tok
  else if ch =c "?" then done_ T_QUESTION l tok
  else if ch =c "+" then scanDoubled "+" T_PLUS T_PLUS_PLUS T_PLUS_EQUAL l tok
  else if ch =c "-" then scanMinus l tok
  else if ch =c "*" then scanWithEqual T_STAR T_STAR_EQUAL l tok
  else if ch =c "/" then scanSlash fuel l tok
  else if ch =c "%" then scanWithEqual T_PERCENT T_PERCENT_EQUAL l tok
  else if ch =c "^" then scanWithEqual T_CARET T_CARET_EQUAL l tok
  else if ch =c "&" then scanDoubled "&" T_AMPER T_AMPER_AMPER T_AMPER_EQUAL l tok
  else if ch =c "|" then scanDoubled "|" T_PIPE T_PIPE_PIPE T_PIPE_EQUAL l tok
  else if ch =c "~" then scanWithEqual T_TILDE T_TILDE_EQUAL l tok
  else if ch =c "!" then scanWithEqual T_EXCLAIM T_EXCLAIM_EQUAL l tok
  else if ch =c "=" then scanWithEqual T_EQUAL T_EQUAL_EQUAL l tok
  else if ch =c "<" then scanLess fuel l tok
  else if ch =c ">" then scanGreater l tok
  else if ch =c "," then done_ T_COMMA l tok
  else scanDefault fuel ch l tok.

(** From the label [_Lagain] to a return or the next jump to it. *)
Definition scan_once (fuel : nat) (l : Lexer) (tok : Token) : option Outcome :=
  '(l, tok) ← skipSpace fuel l tok;
  let tok := set_lineno (currentLine l) tok in
  let l := set_tokenStart (currentChar l) l in
  let tok := set_offset (currentChar l) tok in
  match lexState l with
  | State_MultiLineComment | State_MultiLineDoxyComment => scanRestOfComment fuel l tok
  | State_Default =>
      if yychar l =c NUL then done_ T_EOF_SYMBOL l tok
      else
        let ch := yychar l in
        l ← yyinp l; scanSwitch fuel ch l tok
  end.

Fixpoint scan_helper (fuel : nat) (l : Lexer) (tok : Token) : option (Lexer * Token) :=
  match fuel with
  | O => None
  | S fuel' =>
      out ← scan_once (length source + 2) l tok;
      match out with
      | Done l tok => Some (l, tok)
      | Again l tok => scan_helper fuel' l tok
      end
  end.

(** [scan], with enough fuel for every buffer. *)
Definition scan (l : Lexer) : option (Lexer * Token) :=
  '(l, tok) ← scan_helper (length source + 2) l reset;
  Some (l, set_length (currentChar l - tokenStart l) tok).

(** [_tokenStart - _firstChar] and [_currentChar - _tokenStart] as [unsigned]. *)
Definition tokenOffset (l : Lexer) : Z := tokenStart l mod 2 ^ 32.
Definition tokenLength (l : Lexer) : Z := (currentChar l - tokenStart l) mod 2 ^ 32.
End Lexer.
