(* ===== verification/LexerCorrect.v ===== *)
(** * Correctness of the lexer

    The lexer never reads outside its buffer, terminates, and makes progress; the
    position, length and line of every token; the operators of the language. *)

From S2P Require Import Prelude Token Lexer.

(** ** Computations that succeed *)

(** [m] returns a result, and the result satisfies [Q]. *)
Definition wp {A} (m : option A) (Q : A → Prop) : Prop := ∃ a, m = Some a ∧ Q a.

Lemma wp_ret {A} (a : A) Q : Q a → wp (Some a) Q.
Proof. intros H. by exists a. Qed.

Lemma wp_bind {A B} (m : option A) (k : A → option B) Q :
  wp m (λ a, wp (k a) Q) → wp (m ≫= k) Q.
Proof. intros (a & -> & H). exact H. Qed.

Lemma wp_mono {A} (m : option A) (P Q : A → Prop) :
  wp m P → (∀ a, P a → Q a) → wp m Q.
Proof. intros (a & -> & H) HPQ. exists a. auto. Qed.

Lemma wp_seq {A B} (m : option A) (k : A → option B) (P : A → Prop) Q :
  wp m P → (∀ a, P a → wp (k a) Q) → wp (m ≫= k) Q.
Proof. intros Hm Hk. apply wp_bind. eapply wp_mono; [exact Hm|exact Hk]. Qed.

Section LexerProofs.
Context (source : list ascii).
Notation len := (Z.of_nat (length source)).

Definition count_lf (s : list ascii) : Z := Z.of_nat (length (List.filter (λ c, c =c LF) s)).

(** The line of position [p]: one more than the newlines up to [p]. *)
Definition line_at (p : Z) : Z := (1 + count_lf (take (Z.to_nat (p + 1)) source)) mod 2 ^ 32.

(** The lexer stands on a byte of the buffer, before it or behind it. *)
Record lexer_ok (l : Lexer) : Prop := {
  ok_range : (-1 ≤ currentChar l ≤ len)%Z;
  ok_before : currentChar l = (-1)%Z → isspace (yychar l) = true;
  ok_inside : (0 ≤ currentChar l < len)%Z →
              source !! Z.to_nat (currentChar l) = Some (yychar l);
  ok_behind : currentChar l = len → yychar l = NUL;
  ok_line : currentLine l = line_at (currentChar l)
}.

(** What a step of the lexer may do to its state. *)
Record advances (l l' : Lexer) : Prop := {
  adv_ok : lexer_ok l';
  adv_char : (currentChar l ≤ currentChar l')%Z;
  adv_start : tokenStart l' = tokenStart l;
  adv_flags : f l' = f l
}.

Lemma advances_refl l : lexer_ok l → advances l l.
Proof. by split. Qed.

Lemma advances_trans l1 l2 l3 : advances l1 l2 → advances l2 l3 → advances l1 l3.
Proof. intros [? ? ? ?] [? ? ? ?]. split; [done|lia|congruence|congruence]. Qed.

Definition remaining (l : Lexer) : nat := Z.to_nat (len - currentChar l).

Lemma advances_remaining l l' : advances l l' → remaining l' ≤ remaining l.
Proof. intros [[Hr _ _ _ _] ? _ _]. unfold remaining. lia. Qed.

Lemma count_lf_take_S s n c :
  s !! n = Some c →
  count_lf (take (S n) s) = (count_lf (take n s) + if c =c LF then 1 else 0)%Z.
Proof.
  intros H. rewrite (take_S_r _ _ c H). unfold count_lf.
  rewrite List.filter_app, length_app. simpl. destruct (c =c LF); simpl; lia.
Qed.

(** [yyinp] stays inside the buffer when it is not at the end. *)
Lemma yyinp_ok l :
  lexer_ok l → yychar l ≠ NUL →
  wp (yyinp source l) (λ l', advances l l' ∧ currentChar l' = (currentChar l + 1)%Z ∧
                             lexState l' = lexState l).
Proof.
  intros [Hr Hb Hi He Hl] Hy. unfold yyinp.
  assert (currentChar l ≠ len) as Hne by naive_solver.
  destruct (Z.eqb_spec (currentChar l + 1) len) as [Hend|Hend].
  - apply wp_ret. split_and!; [|done|done].
    split; simpl; [|lia|done|done]. split; simpl; try done; try lia.
    rewrite Hl. unfold line_at. rewrite Hend.
    by rewrite !firstn_all2 by lia.
  - unfold readChar. destruct (Z.ltb_spec (currentChar l + 1) 0); [lia|].
    destruct (lookup_lt_is_Some_2 source (Z.to_nat (currentChar l + 1))) as [c Hc]; [lia|].
    rewrite Hc. simpl. apply wp_ret. split_and!; [|done|done].
    split; simpl; [|lia|done|done]. split; simpl; try done; try lia.
    unfold line_at in *.
    replace (Z.to_nat (currentChar l + 1 + 1)) with (S (Z.to_nat (currentChar l + 1))) by lia.
    rewrite (count_lf_take_S _ _ _ Hc), Hl. unfold pushLineStartOffset.
    destruct (c =c LF).
    + rewrite Zplus_mod_idemp_l. f_equal. lia.
    + f_equal. lia.
Qed.

(** ** The loops *)

(** The state of a comment is not changed either. *)
Definition moves (l l' : Lexer) : Prop := advances l l' ∧ lexState l' = lexState l.

Lemma moves_refl l : lexer_ok l → moves l l.
Proof. intros H. split; [by apply advances_refl|done]. Qed.

Lemma moves_trans l1 l2 l3 : moves l1 l2 → moves l2 l3 → moves l1 l3.
Proof. intros [? ?] [? ?]. split; [by eapply advances_trans|congruence]. Qed.

Lemma moves_ok l l' : moves l l' → lexer_ok l'.
Proof. by intros [[] _]. Qed.

Lemma ascii_eqb_false_ne (a b : char) : (a =c b) = false → a ≠ b.
Proof. apply Ascii.eqb_neq. Qed.

Lemma ascii_eqb_true_eq (a b : char) : (a =c b) = true → a = b.
Proof. apply Ascii.eqb_eq. Qed.

(** One step, seen from the start [l0] of a sequence of steps. *)
Lemma yyinp_moves l0 l :
  moves l0 l → yychar l ≠ NUL →
  wp (yyinp source l) (λ l', moves l0 l' ∧ moves l l' ∧ (currentChar l < currentChar l')%Z ∧
                             remaining l' < remaining l).
Proof.
  intros Hm Hy. pose proof (moves_ok _ _ Hm) as Hok.
  eapply wp_mono; [by apply yyinp_ok|]. intros l' (Ha & Hc & Hs).
  assert (moves l l') as Hm' by done.
  split_and!; [by eapply moves_trans|done|lia|].
  destruct Ha as [[? _ _ _ _] _ _ _]. destruct Hok as [? Hb Hi He Hl].
  unfold remaining. lia.
Qed.

Lemma skipWhile_ok fuel p l0 l :
  p NUL = false → moves l0 l → remaining l < fuel →
  wp (skipWhile source fuel p l) (λ l', moves l0 l' ∧ (currentChar l ≤ currentChar l')%Z ∧
    p (yychar l') = false).
Proof.
  intros Hp. revert l. induction fuel as [|fuel IH]; intros l Hm Hf; [lia|]. simpl.
  destruct (p (yychar l)) eqn:E; [|by apply wp_ret].
  eapply wp_seq; [apply (yyinp_moves l0); [done|by intros Heq; rewrite Heq in E; congruence]|].
  intros l' (Hm' & _ & Hc & Hr). eapply wp_mono; [apply IH; [done|lia]|].
  simpl. intros l'' (? & ? & ?). split_and!; [done|lia|done].
Qed.

Lemma skipSpace_ok fuel l0 l tok :
  moves l0 l → remaining l < fuel →
  wp (skipSpace source fuel l tok) (λ '(l', tok'), moves l0 l' ∧
    (currentChar l ≤ currentChar l')%Z ∧ isspace (yychar l') = false ∧
    tok_kind tok' = tok_kind tok).
Proof.
  revert l tok. induction fuel as [|fuel IH]; intros l tok Hm Hf; [lia|]. simpl.
  destruct (isspace (yychar l)) eqn:E; [|by apply wp_ret].
  eapply wp_seq; [apply (yyinp_moves l0); [done|by intros Heq; rewrite Heq in E]|].
  intros l' (Hm' & _ & Hc & Hr). eapply wp_mono; [apply IH; [done|lia]|].
  intros [l'' tok'] (? & ? & ? & Hk). split_and!; [done|lia|done|].
  rewrite Hk. by destruct (yychar l =c LF).
Qed.

Lemma skipLiteral_ok fuel stop quote l0 l :
  moves l0 l → remaining l < fuel →
  wp (skipLiteral source fuel stop quote l)
    (λ l', moves l0 l' ∧ (currentChar l ≤ currentChar l')%Z).
Proof.
  revert l. induction fuel as [|fuel IH]; intros l Hm Hf; [lia|]. simpl.
  destruct (yychar l =c NUL) eqn:E; [by apply wp_ret|]. apply ascii_eqb_false_ne in E.
  destruct (yychar l =c quote); [by apply wp_ret|]. simpl.
  destruct (stop && _); [by apply wp_ret|].
  destruct (negb _); (eapply wp_seq; [by apply (yyinp_moves l0)|]);
    intros l1 (Hm1 & _ & Hc1 & Hr1).
  { eapply wp_mono; [apply IH; [done|lia]|]. simpl. intros l2 [? ?]. split; [done|lia]. }
  destruct (yychar l1 =c NUL) eqn:E1; simpl.
  { eapply wp_mono; [apply IH; [done|lia]|]. simpl. intros l2 [? ?]. split; [done|lia]. }
  apply ascii_eqb_false_ne in E1.
  eapply wp_seq; [by apply (yyinp_moves l0)|]. intros l2 (Hm2 & _ & Hc2 & Hr2).
  eapply wp_mono; [apply IH; [done|lia]|]. simpl. intros l3 [? ?]. split; [done|lia].
Qed.

Lemma skipIf_ok c l0 l :
  c ≠ NUL → moves l0 l →
  wp (skipIf source c l) (λ l', moves l0 l' ∧ moves l l').
Proof.
  intros Hc Hm. unfold skipIf. destruct (yychar l =c c) eqn:E.
  - apply ascii_eqb_true_eq in E.
    eapply wp_mono; [apply (yyinp_moves l0); [done|congruence]|]. by intros l' (? & ? & _).
  - apply wp_ret. split; [done|]. by apply moves_refl, moves_ok with l0.
Qed.

Lemma skipNumber_ok fuel l0 l :
  moves l0 l → remaining l < fuel →
  wp (skipNumber source fuel l) (λ l', moves l0 l' ∧ (currentChar l ≤ currentChar l')%Z).
Proof.
  revert l. induction fuel as [|fuel IH]; intros l Hm Hf; [lia|]. simpl.
  destruct (yychar l =c NUL) eqn:E; [by apply wp_ret|]. apply ascii_eqb_false_ne in E.
  destruct (_ || _).
  - eapply wp_seq; [by apply (yyinp_moves l0)|]. intros l1 (Hm1 & _ & Hc1 & Hr1).
    destruct ((yychar l1 =c "-") || (yychar l1 =c "+")) eqn:E1.
    + eapply wp_seq; [apply (yyinp_moves l0); [done|]|].
      { apply orb_true_iff in E1 as [E1|E1]; apply ascii_eqb_true_eq in E1; by rewrite E1. }
      intros l2 (Hm2 & _ & Hc2 & Hr2).
      eapply wp_mono; [apply IH; [done|lia]|]. simpl. intros l3 [? ?]. split; [done|lia].
    + eapply wp_mono; [apply IH; [done|lia]|]. simpl. intros l3 [? ?]. split; [done|lia].
  - destruct (_ || _); [|by apply wp_ret].
    eapply wp_seq; [by apply (yyinp_moves l0)|]. intros l1 (Hm1 & _ & Hc1 & Hr1).
    eapply wp_mono; [apply IH; [done|lia]|]. simpl. intros l3 [? ?]. split; [done|lia].
Qed.

Lemma skipComment_ok fuel l0 l :
  moves l0 l → remaining l < fuel →
  wp (skipComment source fuel l) (λ l', moves l0 l' ∧ (currentChar l ≤ currentChar l')%Z ∧
    (yychar l ≠ NUL → (currentChar l < currentChar l')%Z)).
Proof.
  revert l. induction fuel as [|fuel IH]; intros l Hm Hf; [lia|]. simpl.
  destruct (yychar l =c NUL) eqn:E.
  { apply wp_ret. split_and!; [done..|]. by apply ascii_eqb_true_eq in E. }
  apply ascii_eqb_false_ne in E.
  destruct (negb _); (eapply wp_seq; [by apply (yyinp_moves l0)|]);
    intros l1 (Hm1 & _ & Hc1 & Hr1).
  { eapply wp_mono; [apply IH; [done|lia]|]. simpl. intros l2 (? & ? & _).
    split_and!; [done|lia|lia]. }
  destruct (_ =c _); [apply wp_ret; split_and!; [done|lia|lia]|].
  eapply wp_mono; [apply IH; [done|lia]|]. simpl. intros l2 (? & ? & _).
  split_and!; [done|lia|lia].
Qed.

(** ** The branches of the switch *)

(** What holds when a branch that started in [l] with [tok] is left. *)
Definition post (l : Lexer) (tok : Token) (out : Outcome) : Prop :=
  match out with
  | Done l' tok' =>
      advances l l' ∧ tok_offset tok' = tok_offset tok ∧ tok_lineno tok' = tok_lineno tok ∧
      (objCEnabled (f l) = false → tok_kind tok' ≠ T_EOF_SYMBOL)
  | Again l' tok' => advances l l' ∧ tok_kind tok' = tok_kind tok
  end.

Lemma moves_remaining l l' : moves l l' → remaining l' ≤ remaining l.
Proof. intros [H _]. by apply advances_remaining. Qed.

Lemma advances_setState s l0 l : advances l0 l → advances l0 (setState s l).
Proof. intros [[] ? ? ?]. split; [split|..]; assumption. Qed.

Lemma done_post k l0 l tok :
  advances l0 l → k ≠ T_EOF_SYMBOL → wp (done_ k l tok) (post l0 tok).
Proof. intros Hm Hk. by apply wp_ret. Qed.

Lemma take_post k c l0 l tok :
  moves l0 l → (yychar l =c c) = true → c ≠ NUL → k ≠ T_EOF_SYMBOL →
  wp (take_ source k l tok) (post l0 tok).
Proof.
  intros Hm Hc Hn Hk. apply ascii_eqb_true_eq in Hc.
  eapply wp_seq; [apply (yyinp_moves l0); [done|congruence]|].
  intros l' (Hm' & _). apply done_post; [apply Hm'|done].
Qed.

Lemma again_post l0 l tok tok' :
  advances l0 l → tok_kind tok' = tok_kind tok → wp (Some (Again l tok')) (post l0 tok).
Proof. intros. by apply wp_ret. Qed.

Section Branches.
Context (fuel : nat).

Lemma scanWithEqual_post k k' l0 l tok :
  k ≠ T_EOF_SYMBOL → k' ≠ T_EOF_SYMBOL → moves l0 l →
  wp (scanWithEqual source k k' l tok) (post l0 tok).
Proof.
  intros Hk Hk' Hm. unfold scanWithEqual. destruct (yychar l =c "=") eqn:E.
  - by eapply take_post.
  - by apply done_post; [apply Hm|].
Qed.

Lemma scanDoubled_post c k k1 k2 l0 l tok :
  c ≠ NUL → k ≠ T_EOF_SYMBOL → k1 ≠ T_EOF_SYMBOL → k2 ≠ T_EOF_SYMBOL → moves l0 l →
  wp (scanDoubled source c k k1 k2 l tok) (post l0 tok).
Proof.
  intros Hc Hk Hk1 Hk2 Hm. unfold scanDoubled. destruct (yychar l =c c) eqn:E.
  - by eapply take_post.
  - by apply scanWithEqual_post.
Qed.

(** Decide a test of the current character, and finish with a token. *)
Ltac lex_test :=
  match goal with
  | |- wp (if yychar ?l =c ?c then _ else _) _ =>
      let E := fresh "E" in destruct (yychar l =c c) eqn:E
  end.
Ltac lex_done :=
  solve [ eapply take_post; eassumption || done
        | apply done_post; [first [assumption | apply moves_refl; assumption
                                  | match goal with H : moves _ _ |- _ => apply H end]
                           | done] ].
(** One [yyinp] whose character is known not to be the end. *)
Ltac lex_char l0 E :=
  apply ascii_eqb_true_eq in E;
  eapply wp_seq; [apply (yyinp_moves l0); [assumption|rewrite E; done]|].

Lemma scanMinus_post l0 l tok : moves l0 l → wp (scanMinus source l tok) (post l0 tok).
Proof.
  intros Hm. unfold scanMinus. lex_test; [lex_done|]. lex_test; [lex_done|].
  lex_test; [|lex_done]. lex_char l0 E1. intros l1 (Hm1 & _).
  lex_test; lex_done.
Qed.

Lemma scanGreater_post l0 l tok : moves l0 l → wp (scanGreater source l tok) (post l0 tok).
Proof.
  intros Hm. unfold scanGreater. lex_test; [|lex_test; lex_done].
  lex_char l0 E. intros l1 (Hm1 & _). destruct (yychar l1 =c "=") eqn:E1.
  - eapply wp_seq with (P := λ '(l', t'), moves l0 l' ∧ tok_offset t' = tok_offset tok ∧
      tok_lineno t' = tok_lineno tok).
    + lex_char l0 E1. intros l2 (Hm2 & _). by apply wp_ret.
    + intros [l2 t2] (Hm2 & Ho & Hl). apply wp_ret. simpl. split_and!; try done. apply Hm2.
  - simpl. apply wp_ret. simpl. split_and!; try done. apply Hm1.
Qed.

Section WithFuel.
Context (l0 : Lexer) (Hfuel : remaining l0 < fuel).

Lemma enough l : moves l0 l → remaining l < fuel.
Proof using Hfuel. intros H%moves_remaining. lia. Qed.

Lemma scanLess_post l tok : moves l0 l → wp (scanLess source fuel l tok) (post l0 tok).
Proof using Hfuel.
  intros Hm. unfold scanLess. destruct (scanAngleStringLiteralTokens (f l)).
  - eapply wp_seq; [by apply (skipWhile_ok _ _ l0); [..|apply enough]|].
    intros l1 (Hm1 & _). eapply wp_seq; [by apply (skipIf_ok _ l0)|].
    intros l2 (Hm2 & _). lex_done.
  - lex_test; [|lex_test; lex_done]. lex_char l0 E. intros l1 (Hm1 & _).
    lex_test; lex_done.
Qed.

Lemma scanDot_post l tok : moves l0 l → wp (scanDot source fuel l tok) (post l0 tok).
Proof using Hfuel.
  intros Hm. unfold scanDot. lex_test; [lex_done|]. lex_test.
  - lex_char l0 E0. intros l1 (Hm1 & _). lex_test; lex_done.
  - destruct (isdigit _); [|lex_done].
    eapply wp_seq; [apply (skipNumber_ok _ l0); [done|by apply enough]|].
    intros l1 (Hm1 & _). lex_done.
Qed.

Lemma scanQuote_post quote l tok :
  quote ≠ NUL → moves l0 l → wp (scanQuote source fuel quote l tok) (post l0 tok).
Proof using Hfuel.
  intros Hq Hm. unfold scanQuote.
  eapply wp_seq; [apply (skipLiteral_ok _ _ _ l0); [done|by apply enough]|].
  intros l1 (Hm1 & _). eapply wp_seq; [by apply (skipIf_ok _ l0)|].
  intros l2 (Hm2 & _). apply done_post; [apply Hm2|by destruct (_ =c _)].
Qed.

Lemma scanBackslash_post l tok :
  moves l0 l → wp (scanBackslash source fuel l tok) (post l0 tok).
Proof using Hfuel.
  intros Hm. unfold scanBackslash.
  eapply wp_seq; [apply (skipWhile_ok _ _ l0); [done|done|by apply enough]|].
  intros l1 (Hm1 & _). lex_test.
  - lex_char l0 E. intros l2 (Hm2 & _). apply again_post; [apply Hm2|done].
  - apply again_post; [apply Hm1|done].
Qed.

Lemma scanLineComment_post l tok :
  moves l0 l → yychar l ≠ NUL → wp (scanLineComment source fuel l tok) (post l0 tok).
Proof using Hfuel.
  intros Hm Hy. unfold scanLineComment.
  eapply wp_seq; [by apply (yyinp_moves l0)|]. intros l1 (Hm1 & _).
  assert (wp (if (yychar l1 =c "/") || (yychar l1 =c "!") then
       l ← yyinp source l1; l ← skipIf source "<" l;
       Some (l, negb (yychar l =c LF) && isspace (yychar l))
     else Some (l1, false)) (λ r, moves l0 r.1)) as ([l2 doxy] & -> & Hm2).
  { destruct (_ || _) eqn:E; [|by apply wp_ret].
    eapply wp_seq; [apply (yyinp_moves l0); [done|]|].
    { apply orb_true_iff in E as [E|E]; apply ascii_eqb_true_eq in E; by rewrite E. }
    intros l2 (Hm2 & _). eapply wp_seq; [by apply (skipIf_ok _ l0)|].
    intros l3 (Hm3 & _). by apply wp_ret. }
  eapply wp_seq; [apply (skipWhile_ok _ _ l0); [done|done|by apply enough]|].
  intros l3 (Hm3 & _). destruct (negb _); [apply again_post; [apply Hm3|done]|].
  apply done_post; [apply Hm3|by destruct doxy].
Qed.

Lemma endBlockComment_post doxy l tok :
  moves l0 l → wp (endBlockComment source doxy l tok) (post l0 tok).
Proof using Hfuel.
  intros Hm. unfold endBlockComment. eapply wp_seq with (P := advances l0).
  - destruct (yychar l =c NUL) eqn:E; simpl.
    + apply wp_ret, advances_setState, Hm.
    + eapply wp_mono; [apply (yyinp_moves l0); [done|by apply ascii_eqb_false_ne]|].
      intros l1 (Hm1 & _). apply Hm1.
  - intros l1 Hm1. destruct (negb _); [by apply again_post|].
    apply done_post; [done|by destruct doxy].
Qed.

Lemma scanBlockComment_post l tok :
  moves l0 l → yychar l ≠ NUL → wp (scanBlockComment source fuel l tok) (post l0 tok).
Proof using Hfuel.
  intros Hm Hy. unfold scanBlockComment.
  eapply wp_seq; [by apply (yyinp_moves l0)|]. intros l1 (Hm1 & _).
  assert (∀ l' b, moves l0 l' →
    wp (l ← skipComment source fuel l'; endBlockComment source b l tok) (post l0 tok)) as Hc.
  { intros l' b Hm'. eapply wp_seq; [apply (skipComment_ok _ l0); [done|by apply enough]|].
    intros l2 (Hm2 & _). by apply endBlockComment_post. }
  destruct (_ || _) eqn:E; [|by apply Hc].
  eapply wp_seq; [apply (yyinp_moves l0); [done|]|].
  { apply orb_true_iff in E as [E|E]; apply ascii_eqb_true_eq in E; by rewrite E. }
  intros l2 (Hm2 & _). destruct (_ && _); [by apply endBlockComment_post|].
  eapply wp_seq; [by apply (skipIf_ok _ l0)|]. intros l3 (Hm3 & _). by apply Hc.
Qed.

Lemma scanSlash_post l tok : moves l0 l → wp (scanSlash source fuel l tok) (post l0 tok).
Proof using Hfuel.
  intros Hm. unfold scanSlash. lex_test.
  { apply scanLineComment_post; [done|]. apply ascii_eqb_true_eq in E. by rewrite E. }
  lex_test; [|lex_test; lex_done].
  apply scanBlockComment_post; [done|]. apply ascii_eqb_true_eq in E0. by rewrite E0.
Qed.

Lemma scanDefault_post ch l tok :
  moves l0 l → wp (scanDefault source fuel ch l tok) (post l0 tok).
Proof using Hfuel.
  intros Hm. unfold scanDefault.
  assert (∀ q l1, q ≠ NUL → moves l0 l1 → ∀ k, k ≠ T_EOF_SYMBOL →
    wp (l ← skipLiteral source fuel false q l1; l ← skipIf source q l; done_ k l tok)
       (post l0 tok)) as Hlit.
  { intros q l1 Hq Hm1 k Hk.
    eapply wp_seq; [apply (skipLiteral_ok _ _ _ l0); [done|by apply enough]|].
    intros l2 (Hm2 & _). eapply wp_seq; [by apply (skipIf_ok _ l0)|].
    intros l3 (Hm3 & _). lex_done. }
  destruct (objCEnabled (f l) && (ch =c "@") && islower (yychar l)) eqn:E1.
  { apply andb_true_iff in E1 as [[Eo _]%andb_true_iff El].
    eapply wp_seq; [apply (yyinp_moves l0); [done|by intros Hn; rewrite Hn in El]|].
    intros l1 (Hm1 & _).
    eapply wp_seq; [apply (skipWhile_ok _ _ l0); [done|done|by apply enough]|].
    intros l2 (Hm2 & _). apply wp_ret. split_and!; [apply Hm2|done|done|].
    intros Ho. destruct Hm as [[_ _ _ Hfl] _]. congruence. }
  destruct (objCEnabled (f l) && (ch =c "@") && (yychar l =c DQUOTE)) eqn:E2.
  { apply andb_true_iff in E2 as [_ El]. lex_char l0 El. intros l1 (Hm1 & _).
    by apply Hlit. }
  destruct ((ch =c "L") && ((yychar l =c DQUOTE) || (yychar l =c SQUOTE))) eqn:E3.
  { apply andb_true_iff in E3 as [_ El].
    assert (yychar l ≠ NUL) as Hn by
      by (apply orb_true_iff in El as [El|El]; apply ascii_eqb_true_eq in El; rewrite El).
    eapply wp_seq; [by apply (yyinp_moves l0)|]. intros l1 (Hm1 & _).
    apply Hlit; [done|done|]. destruct (yychar l =c DQUOTE); discriminate. }
  destruct (isalpha ch || (ch =c "_") || (ch =c "$")).
  { eapply wp_seq; [apply (skipWhile_ok _ _ l0); [done|done|by apply enough]|].
    intros l1 (Hm1 & _). lex_done. }
  destruct (isdigit ch); [|lex_done].
  eapply wp_seq; [apply (skipNumber_ok _ l0); [done|by apply enough]|].
  intros l1 (Hm1 & _). lex_done.
Qed.

Lemma scanSwitch_post ch l tok :
  moves l0 l → wp (scanSwitch source fuel ch l tok) (post l0 tok).
Proof using Hfuel.
  intros Hm. unfold scanSwitch.
  repeat match goal with
  | |- wp (if ch =c ?c then _ else _) _ => destruct (ch =c c)
  | |- wp (if (ch =c ?c) || (ch =c ?d) then _ else _) _ =>
      destruct (ch =c c) eqn:Ec; [|destruct (ch =c d) eqn:Ed]; simpl
  | |- wp (scanQuote _ _ _ _ _) _ =>
      apply scanQuote_post; [|done];
      match goal with H : (ch =c _) = true |- _ => apply ascii_eqb_true_eq in H; by rewrite H end
  | |- wp (scanBackslash _ _ _ _) _ => by apply scanBackslash_post
  | |- wp (scanDot _ _ _ _) _ => by apply scanDot_post
  | |- wp (scanSlash _ _ _ _) _ => by apply scanSlash_post
  | |- wp (scanLess _ _ _ _) _ => by apply scanLess_post
  | |- wp (scanMinus _ _ _) _ => by apply scanMinus_post
  | |- wp (scanGreater _ _ _) _ => by apply scanGreater_post
  | |- wp (scanWithEqual _ _ _ _ _) _ => by apply scanWithEqual_post
  | |- wp (scanDoubled _ _ _ _ _ _ _) _ => by apply scanDoubled_post
  | |- wp (scanDefault _ _ _ _ _) _ => by apply scanDefault_post
  | |- wp (if yychar _ =c _ then _ else _) _ => lex_test
  | |- _ => lex_done
  end.
Qed.
End WithFuel.
End Branches.

(** ** One token *)

(** The token [tok] that was scanned from the state [l], leaving [l']. *)
Record token_ok (l l' : Lexer) (tok : Token) : Prop := {
  token_lexer : lexer_ok l';
  token_flags : f l' = f l;
  token_after : (currentChar l ≤ tokenStart l')%Z;
  token_range : (0 ≤ tokenStart l' ≤ currentChar l')%Z;
  token_offset : tok_offset tok = (tokenStart l' mod 2 ^ 32)%Z;
  token_line : tok_lineno tok = line_at (tokenStart l');
  token_progress :
    objCEnabled (f l) = false → tok_kind tok ≠ T_EOF_SYMBOL →
    (tokenStart l' < currentChar l')%Z;
  token_eof :
    objCEnabled (f l) = false → tok_kind tok = T_EOF_SYMBOL → yychar l' = NUL
}.

Lemma lexer_ok_nonneg l :
  lexer_ok l → isspace (yychar l) = false → (0 ≤ currentChar l)%Z.
Proof.
  intros [Hr Hb _ _ _] Hs. destruct (decide (currentChar l = (-1)%Z)) as [E|E]; [|lia].
  rewrite (Hb E) in Hs. done.
Qed.

Definition once_ok (l : Lexer) (out : Outcome) : Prop :=
  match out with
  | Done l' tok' => token_ok l l' tok'
  | Again l' _ => lexer_ok l' ∧ f l' = f l ∧ (currentChar l < currentChar l')%Z
  end.

(** The token starts where [l1] stands, after the white space. *)
Lemma post_once l l1 l2 tok out :
  lexer_ok l1 → isspace (yychar l1) = false → f l1 = f l →
  (currentChar l ≤ currentChar l1 < currentChar l2)%Z → moves l1 l2 →
  tokenStart l1 = currentChar l1 →
  tok_offset tok = (currentChar l1 mod 2 ^ 32)%Z → tok_lineno tok = currentLine l1 →
  post l2 tok out → once_ok l out.
Proof.
  intros Hok Hs Hf Hc [[_ _ Hst Hfl] _] Hts Ho Hl.
  pose proof (lexer_ok_nonneg _ Hok Hs) as Hn.
  destruct out as [l' tok'|l' tok']; simpl.
  - intros ([Hok' Hc' Hst' Hfl'] & Ho' & Hl' & Hk).
    assert (tokenStart l' = currentChar l1) as E by congruence.
    split; rewrite ?E; try done; try congruence; try lia.
    + rewrite Hl', Hl. apply Hok.
    + intros Hobj Heof. exfalso. apply Hk; [|done]. congruence.
  - intros [[Hok' Hc' Hst' Hfl'] _]. split_and!; [done|congruence|lia].
Qed.

Lemma enough_fuel l : lexer_ok l → remaining l < length source + 2.
Proof. intros [Hr _ _ _ _]. unfold remaining. lia. Qed.

Lemma lexer_ok_start x l : lexer_ok l → lexer_ok (set_tokenStart x l).
Proof. by intros []. Qed.

Lemma scan_once_ok l tok :
  lexer_ok l → wp (scan_once source (length source + 2) l tok) (once_ok l).
Proof.
  intros Hok. unfold scan_once.
  eapply wp_seq; [by apply (skipSpace_ok _ l); [apply moves_refl|apply enough_fuel]|].
  intros [l1 tok1] (Hm1 & Hc1 & Hs1 & _). pose proof (moves_ok _ _ Hm1) as Hok1.
  assert (f l1 = f l) as Hf1 by apply Hm1.
  set (l2 := set_tokenStart (currentChar l1) l1). set (tok2 := set_offset _ _).
  assert (lexer_ok l2) as Hok2 by by apply lexer_ok_start.
  pose proof (lexer_ok_nonneg _ Hok2 Hs1) as Hn.
  assert (yychar l2 = NUL → token_ok l l2 (set_kind T_EOF_SYMBOL tok2)) as Heof.
  { intros Hy. split; try done; simpl in *; try lia. apply Hok1. }
  change (lexState l1) with (lexState l2).
  assert (wp (scanRestOfComment source (length source + 2) l2 tok2) (once_ok l)) as Hrest.
  { unfold scanRestOfComment. destruct (yychar l2 =c NUL) eqn:Ey.
    { apply ascii_eqb_true_eq in Ey. apply wp_ret. by apply Heof. }
    apply ascii_eqb_false_ne in Ey.
    eapply wp_seq; [by apply (skipComment_ok _ l2); [apply moves_refl|apply enough_fuel]|].
    intros l3 (Hm3 & _ & Hc3). specialize (Hc3 Ey).
    eapply wp_seq with (P := λ l', advances l2 l' ∧ (currentChar l2 < currentChar l')%Z).
    { destruct (yychar l3 =c NUL) eqn:E3; [apply wp_ret; split; [apply Hm3|done]|].
      eapply wp_seq; [apply (yyinp_moves l2); [done|by apply ascii_eqb_false_ne]|].
      intros l4 (Hm4 & _ & Hc4 & _). apply wp_ret.
      split; [by apply advances_setState, Hm4|simpl in *; lia]. }
    intros l4 [[Hok4 Hc4 Hst4 Hf4] Hlt4].
    destruct (negb _); [apply wp_ret; split_and!; [done|by rewrite Hf4|simpl in *; lia]|].
    assert (∀ k, k ≠ T_EOF_SYMBOL → once_ok l (Done l4 (set_kind k tok2))) as Hd.
    { intros k Hk. simpl in *. split; rewrite ?Hst4; try done; simpl; try lia.
      - by rewrite Hf4.
      - apply Hok1. }
    destruct (lexState l2); apply wp_ret; by apply Hd. }
  destruct (lexState l2); [|exact Hrest..].
  destruct (yychar l2 =c NUL) eqn:Ey.
  { apply ascii_eqb_true_eq in Ey. apply wp_ret. by apply Heof. }
  apply ascii_eqb_false_ne in Ey.
  eapply wp_seq; [by apply (yyinp_moves l2); [apply moves_refl|]|].
  intros l3 (Hm3 & _ & Hc3 & _).
  eapply wp_mono; [apply (scanSwitch_post _ l3 (enough_fuel _ (moves_ok _ _ Hm3))); by apply moves_refl, moves_ok with l2|].
  intros out Hout. apply (post_once l l2 l3 tok2);
    [done|exact Hs1|exact Hf1|simpl in *; lia|exact Hm3|done|done|done|exact Hout].
Qed.

Lemma token_ok_from l l1 l' tok :
  (currentChar l ≤ currentChar l1)%Z → f l1 = f l → token_ok l1 l' tok → token_ok l l' tok.
Proof. intros Hc Hf []. split; try done; try congruence; [lia|..]; rewrite <-Hf; done. Qed.

Lemma scan_helper_ok n l tok :
  lexer_ok l → remaining l < n →
  wp (scan_helper source n l tok) (λ '(l', tok'), token_ok l l' tok').
Proof.
  revert l tok. induction n as [|n IH]; intros l tok Hok Hn; [lia|]. simpl.
  eapply wp_seq; [by apply scan_once_ok|]. intros [l' tok'|l' tok'] Hout; [by apply wp_ret|].
  destruct Hout as (Hok' & Hf' & Hc'). eapply wp_mono; [apply IH; [done|]|].
  - destruct Hok', Hok. unfold remaining in *. lia.
  - intros [l2 tok2] H2. eapply token_ok_from; [|done|exact H2]. lia.
Qed.

Lemma scan_ok l :
  lexer_ok l → wp (scan source l) (λ '(l', tok), token_ok l l' tok ∧
    tok_length tok = ((currentChar l' - tokenStart l') mod 2 ^ 16)%Z).
Proof.
  intros Hok. unfold scan.
  eapply wp_seq; [by apply scan_helper_ok; [|apply enough_fuel]|].
  intros [l' tok] []. apply wp_ret. done.
Qed.

Lemma initialLexer_ok : lexer_ok initialLexer.
Proof. split; simpl; try done; lia. Qed.
End LexerProofs.

(** ** Properties *)

(** C23: from every consistent state [scan] terminates and never reads outside
    the buffer.  The token lies behind everything scanned before and inside the
    buffer; it is not empty unless it is the end-of-file token, which is only
    delivered at a zero byte or the end of the buffer; its line is one more than
    the number of newlines up to its start; its offset and length are exact as far
    as they fit into 32 and 16 bits; and the state it leaves is consistent. *)
Theorem scan_correct (source : str) (l : Lexer) :
  lexer_ok source l → objCEnabled (f l) = false →
  ∃ l' tok, scan source l = Some (l', tok) ∧ lexer_ok source l' ∧ f l' = f l ∧
    (currentChar l ≤ tokenStart l' ≤ currentChar l')%Z ∧
    (0 ≤ tokenStart l' ∧ currentChar l' ≤ Z.of_nat (length source))%Z ∧
    tok_lineno tok = line_at source (tokenStart l') ∧
    (tok_kind tok = T_EOF_SYMBOL → yychar l' = NUL) ∧
    (tok_kind tok ≠ T_EOF_SYMBOL → (tokenStart l' < currentChar l')%Z) ∧
    ((Z.of_nat (length source) < 2 ^ 32)%Z → tok_offset tok = tokenStart l') ∧
    ((currentChar l' - tokenStart l' < 2 ^ 16)%Z →
     tok_length tok = (currentChar l' - tokenStart l')%Z).
Proof.
  intros Hok Ho. destruct (scan_ok source l Hok) as ([l' tok] & -> & [] & Hlen).
  exists l', tok. split_and!; auto; try lia.
  - destruct token_lexer0 as [Hr _ _ _ _]. lia.
  - intros Hs. rewrite token_offset0. destruct token_lexer0 as [Hr _ _ _ _].
    apply Z.mod_small. lia.
  - intros Hs. rewrite Hlen. apply Z.mod_small. lia.
Qed.

Lemma scan_correct_witness :
  ∃ l' tok, scan (lit "a") initialLexer = Some (l', tok) ∧ lexer_ok (lit "a") l'.
Proof.
  destruct (scan_correct (lit "a") initialLexer (initialLexer_ok _) eq_refl)
    as (l' & tok & E & Hok & _).
  exists l', tok. split; [exact E|exact Hok].
Defined.

(** The first token of a text and what follows it. *)
Definition firstTokens (text : str) : option (Kind * Z * Kind) :=
  '(l, t1) ← scan text initialLexer;
  '(_, t2) ← scan text l;
  Some (tok_kind t1, tok_length t1, tok_kind t2).

(** The lexer recognises the spelling of every operator as that operator,
    with its full length and nothing behind it, except for [>>=], which is reported
    as [>>] with the length of [>>=]; a keyword is an identifier for it. *)
Theorem operators_recognised (k : Kind) (name : str) :
  tok_name k = Some name →
  (isOperator k = true →
   firstTokens name =
     Some (if bool_decide (k = T_GREATER_GREATER_EQUAL) then T_GREATER_GREATER else k,
           Z.of_nat (length name), T_EOF_SYMBOL)) ∧
  (isKeyword k = true → kind_between T_ASM T___TYPEOF__ k = true →
   firstTokens name = Some (T_IDENTIFIER, Z.of_nat (length name), T_EOF_SYMBOL)).
Proof.
  intros Hn. destruct k; vm_compute in Hn; injection Hn as <-; (split; [|intros _]); intros H;
    try (vm_compute in H; discriminate H); vm_compute; reflexivity.
Qed.

Lemma operators_recognised_witness :
  firstTokens "->*" = Some (T_ARROW_STAR, 3%Z, T_EOF_SYMBOL).
Proof. refine (proj1 (operators_recognised T_ARROW_STAR "->*" _) _); by vm_compute. Defined.

(** Every kind has a name in the table, and the name determines the kind,
    except that wide string literals carry the name of wide character literals. *)
Theorem token_names_correct (k k' : Kind) :
  (∃ name, tok_name k = Some name) ∧
  (tok_name k = tok_name k' ↔
   k = k' ∨ (k = T_WIDE_STRING_LITERAL ∧ k' = T_WIDE_CHAR_LITERAL) ∨
   (k = T_WIDE_CHAR_LITERAL ∧ k' = T_WIDE_STRING_LITERAL)).
Proof.
  split; [destruct k; by eexists|].
  set (canonical := λ k, if bool_decide (k = T_WIDE_STRING_LITERAL)
                         then T_WIDE_CHAR_LITERAL else k).
  set (back := λ n : option str,
    n ← n; p ← list_find (λ s, lit s = n) token_names; all_kinds !! p.1).
  assert (∀ k, back (tok_name k) = Some (canonical k)) as Hback
    by (intros j; destruct j; vm_compute; reflexivity).
  split.
  - intros E. assert (canonical k = canonical k') as Hc.
    { apply (inj Some). by rewrite <-!Hback, E. }
    unfold canonical in Hc. repeat case_bool_decide; subst; auto.
  - intros [->|[[-> ->]|[-> ->]]]; done.
Qed.

(** In Objective-C mode a token that starts with an at sign and a lower-case
    letter is delivered as the end of the file, because no kind is assigned to it:
    whatever follows is not scanned by a caller that stops there. *)
Theorem objc_keyword_is_eof :
  (λ '(l, tok), (tok_kind tok, tok_length tok, yychar l)) <$>
    scan (lit "@end int") (setObjCEnabled true initialLexer) =
  Some (T_EOF_SYMBOL, 4%Z, " "%char).
Proof. by vm_compute. Qed.
