(* ===== verification/CppScanner.v ===== *)
(** * The scanner for C++ includes ([plugins/scanner/cpp/cppscanner.cpp])

    A file is scanned for the files it includes and for the Qt macros that need
    the meta object compiler.  The file content is the mapped memory; [char *]
    results are positions in it. *)

From S2P Require Import Prelude Token Lexer.

Definition SC_LOCAL_INCLUDE_FLAG : Z := 1.
Definition SC_GLOBAL_INCLUDE_FLAG : Z := 2.
Definition ScanForDependenciesFlag : Z := 1.
Definition ScanForFileTagsFlag : Z := 2.

Record ScanResult : Set := mkScanResult { fileName : Z; size : Z; flags : Z }.

Inductive FileType : Set := FT_UNKNOWN | FT_HPP | FT_CPP | FT_C | FT_OBJC | FT_OBJCPP | FT_RC.

#[export] Instance FileType_eq_dec : EqDecision FileType.
Proof. solve_decision. Defined.

#[export] Instance ScanResult_eq_dec : EqDecision ScanResult.
Proof. solve_decision. Defined.

(** [struct Opaq]; [fileContent] is the content behind a byte order mark. *)
Record Opaq : Set := mkOpaq {
  fileContent : list ascii;
  fileType : FileType;
  includedFiles : list ScanResult;
  hasQObjectMacro : bool;
  hasPluginMetaDataMacro : bool;
  currentResultIndex : nat
}.

Definition push_include (r : ScanResult) (o : Opaq) : Opaq :=
  mkOpaq (fileContent o) (fileType o) (includedFiles o ++ [r]) (hasQObjectMacro o)
    (hasPluginMetaDataMacro o) (currentResultIndex o).
Definition set_hasQObjectMacro (o : Opaq) : Opaq :=
  mkOpaq (fileContent o) (fileType o) (includedFiles o) true (hasPluginMetaDataMacro o)
    (currentResultIndex o).
Definition set_hasPluginMetaDataMacro (o : Opaq) : Opaq :=
  mkOpaq (fileContent o) (fileType o) (includedFiles o) (hasQObjectMacro o) true
    (currentResultIndex o).

(** [memcmp(p, literal, literal.size()) == 0]; [None] when it reads outside the
    buffer. *)
Definition memcmp_eq (content : str) (p : Z) (literal : str) : option bool :=
  let chunk := take (length literal) (drop (Z.to_nat p) content) in
  if (p <? 0)%Z || (length chunk <? length literal) then None
  else Some (bool_decide (chunk = literal)).

(** [TokenComparator::equals] *)
Definition equals (content : str) (tk : Token) (literal : str) : option bool :=
  if (tok_length tk =? Z.of_nat (length literal))%Z
  then memcmp_eq content (tok_begin tk) literal
  else Some false.

(** The conversion of an [unsigned] to [int]. *)
Definition to_int (u : Z) : Z := if (u <? 2 ^ 31)%Z then u else (u - 2 ^ 32)%Z.

Definition includeResult (tk : Token) : ScanResult :=
  mkScanResult (tok_begin tk + 1) (to_int ((tok_length tk - 2) mod 2 ^ 32))
    (if tok_is tk T_STRING_LITERAL then SC_LOCAL_INCLUDE_FLAG else SC_GLOBAL_INCLUDE_FLAG).

(** The branch of [scanCppFile] for a [#] at the start of a line; the result is
    the lexer, its last token and the scanner. *)
Definition scanDirective (scanForDependencies : bool) (o : Opaq) (l : Lexer) :
    option (Lexer * Token * Opaq) :=
  let content := fileContent o in
  '(l, tk) ← scan content l;
  if scanForDependencies && negb (tok_newline tk) && tok_is tk T_IDENTIFIER then
    isInclude ← equals content tk "include";
    isImport ← (if isInclude : bool then Some true else equals content tk "import");
    if isImport : bool then
      let l := setScanAngleStringLiteralTokens true l in
      '(l, tk) ← scan content l;
      let l := setScanAngleStringLiteralTokens false l in
      if negb (tok_newline tk) &&
         (tok_is tk T_STRING_LITERAL || tok_is tk T_ANGLE_STRING_LITERAL)
      then Some (l, tk, push_include (includeResult tk) o)
      else Some (l, tk, o)
    else Some (l, tk, o)
  else Some (l, tk, o).

(** [a || b || ...] over token comparisons. *)
Fixpoint equalsAny (content : str) (tk : Token) (literals : list str) : option bool :=
  match literals with
  | [] => Some false
  | literal :: literals' =>
      b ← equals content tk literal;
      if b : bool then Some true else equalsAny content tk literals'
  end.

(** The branch for identifiers; the flag says that the loop is left. *)
Definition scanIdentifier (scanForFileTags scanForDependencies : bool)
    (oldTk tk : Token) (o : Opaq) : option (Opaq * bool) :=
  if scanForFileTags then
    let content := fileContent o in
    redefined ← (if tok_is oldTk T_IDENTIFIER then equals content oldTk "define"
                 else Some false);
    if redefined : bool then Some (o, false)
    else
      isMoc ← equalsAny content tk [lit "Q_OBJECT"; lit "Q_GADGET"; lit "Q_NAMESPACE"];
      isPlugin ← (if isMoc : bool then Some false else equals content tk "Q_PLUGIN_METADATA");
      let o := if isMoc : bool then set_hasQObjectMacro o
               else if isPlugin : bool then set_hasPluginMetaDataMacro o else o in
      Some (o, negb scanForDependencies && hasQObjectMacro o &&
               (hasPluginMetaDataMacro o || bool_decide (fileType o = FT_CPP) ||
                bool_decide (fileType o = FT_OBJCPP)))
  else Some (o, false).

(** The loop of [scanCppFile]. *)
Fixpoint scanLoop (fuel : nat) (scanForFileTags scanForDependencies : bool)
    (oldTk tk : Token) (l : Lexer) (o : Opaq) : option Opaq :=
  match fuel with
  | O => None
  | S fuel =>
      if tok_is tk T_EOF_SYMBOL then Some o
      else
        let next (tk : Token) (l : Lexer) (o : Opaq) :=
          let oldTk := tk in
          '(l, tk) ← scan (fileContent o) l;
          scanLoop fuel scanForFileTags scanForDependencies oldTk tk l o in
        if tok_newline tk && tok_is tk T_POUND then
          '(l, tk, o) ← scanDirective scanForDependencies o l; next tk l o
        else if tok_is tk T_IDENTIFIER then
          '(o, stop) ← scanIdentifier scanForFileTags scanForDependencies oldTk tk o;
          if stop : bool then Some o else next tk l o
        else next tk l o
  end.

Definition scanCppFile (o : Opaq) (l : Lexer) (scanForFileTags scanForDependencies : bool) :
    option Opaq :=
  '(l, tk) ← scan (fileContent o) l;
  scanLoop (length (fileContent o) + 2) scanForFileTags scanForDependencies reset tk l o.

(** [QByteArray::split(',')]: empty parts are kept. *)
Fixpoint splitTags (s token : str) : list str :=
  match s with
  | [] => [token]
  | c :: s' => if c =c "," then token :: splitTags s' [] else splitTags s' (token ++ [c])
  end.

Definition fileTypeFromTags (fileTags : str) : FileType :=
  let tagList := splitTags fileTags [] in
  if bool_decide (lit "hpp" ∈ tagList) then FT_HPP
  else if bool_decide (lit "cpp" ∈ tagList) then FT_CPP
  else if bool_decide (lit "objcpp" ∈ tagList) then FT_OBJCPP
  else FT_UNKNOWN.

Definition BOM : str := [ascii_of_N 239; ascii_of_N 187; ascii_of_N 191].

Definition skipBom (content : str) : str :=
  if bool_decide (take 3 content = BOM) then drop 3 content else content.

Section Open.
(** The content of a file that can be opened and mapped. *)
Context (map_file : list ascii → option (list ascii)).

(** [None] is a null handle; the inner option is that of the lexer. *)
Definition openScanner (filePath fileTags : str) (scanFlags : Z) : option (option Opaq) :=
  match map_file filePath with
  | None => None
  | Some content =>
      let content := skipBom content in
      let o := mkOpaq content (fileTypeFromTags fileTags) [] false false 0 in
      Some (scanCppFile o initialLexer
              (negb (Z.land scanFlags ScanForFileTagsFlag =? 0)%Z)
              (negb (Z.land scanFlags ScanForDependenciesFlag =? 0)%Z))
  end.
End Open.

Definition next (o : Opaq) : Opaq * option ScanResult :=
  match includedFiles o !! currentResultIndex o with
  | Some result =>
      (mkOpaq (fileContent o) (fileType o) (includedFiles o) (hasQObjectMacro o)
         (hasPluginMetaDataMacro o) (S (currentResultIndex o)), Some result)
  | None => (o, None)
  end.

Definition additionalFileTags (o : Opaq) : option str :=
  if hasQObjectMacro o then
    match fileType o with
    | FT_CPP | FT_OBJCPP =>
        Some (if hasPluginMetaDataMacro o then lit "moc_cpp_plugin" else lit "moc_cpp")
    | FT_HPP =>
        Some (if hasPluginMetaDataMacro o then lit "moc_hpp_plugin" else lit "moc_hpp")
    | _ => None
    end
  else None.
