(* ===== verification/CppScannerCorrect.v ===== *)
(** * Correctness of the C++ include scanner

    The scanner terminates, compares tokens and reports includes inside the mapped
    file, and finds the include directives. *)

From S2P Require Import Prelude Token Lexer LexerCorrect CppScanner.

Section Scanner.
Context (content : str).
Notation len := (Z.of_nat (length content)).
Hypothesis Hsize : (len < 2 ^ 32)%Z.

(** A token whose text lies inside the file. *)
Definition token_inside (tk : Token) : Prop :=
  (0 ≤ tok_begin tk)%Z ∧ (0 ≤ tok_length tk)%Z ∧ (tok_begin tk + tok_length tk ≤ len)%Z.

(** The state of a scanner between two tokens. *)
Definition ready (l : Lexer) : Prop := lexer_ok content l ∧ objCEnabled (f l) = false.

Lemma ready_angle b l : ready l → ready (setScanAngleStringLiteralTokens b l).
Proof. intros [[] Hf]. by split; [split|]. Qed.

Lemma scan_ready l :
  ready l → wp (scan content l) (λ '(l', tk), ready l' ∧ token_inside tk ∧
    remaining content l' ≤ remaining content l ∧
    (tok_kind tk ≠ T_EOF_SYMBOL → remaining content l' < remaining content l ∧
       (tok_begin tk < len)%Z)).
Proof using Hsize.
  intros [Hok Ho]. eapply wp_mono; [by apply scan_ok|].
  intros [l' tk] [[Hok' Hf' Ha Hr Hoff _ Hp _] Hlen].
  destruct Hok' as [Hrange ? ? ? ?] eqn:E. clear E. destruct Hok as [Hrange0 _ _ _ _].
  assert (tok_begin tk = tokenStart l') as Hb.
  { unfold tok_begin. rewrite Hoff. apply Z.mod_small. lia. }
  assert (0 ≤ tok_length tk ≤ currentChar l' - tokenStart l')%Z as Hl.
  { rewrite Hlen. split; [by apply Z.mod_pos_bound|]. apply Z.mod_le; lia. }
  split_and!; [by split; [|by rewrite Hf']|split_and!; lia|unfold remaining; lia|].
  intros Hk. specialize (Hp Ho Hk). split; [unfold remaining; lia|lia].
Qed.

Lemma equals_ok tk literal : token_inside tk → wp (equals content tk literal) (λ _, True).
Proof.
  intros (H1 & H2 & H3). unfold equals.
  destruct (Z.eqb_spec (tok_length tk) (Z.of_nat (length literal))) as [E|E]; [|by apply wp_ret].
  unfold memcmp_eq. destruct (Z.ltb_spec (tok_begin tk) 0); [lia|].
  destruct (Nat.ltb_spec (length (take (length literal) (drop (Z.to_nat (tok_begin tk)) content)))
    (length literal)) as [Hl|Hl]; [|by apply wp_ret].
  rewrite length_take, length_drop in Hl. lia.
Qed.

Lemma equalsAny_ok tk literals : token_inside tk → wp (equalsAny content tk literals) (λ _, True).
Proof.
  intros Htk. induction literals as [|x xs IH]; simpl; [by apply wp_ret|].
  eapply wp_seq; [by apply equals_ok|]. intros [] _; [by apply wp_ret|done].
Qed.

(** An include inside the file; the size may be negative. *)
Definition include_inside (r : ScanResult) : Prop :=
  (1 ≤ fileName r ≤ len)%Z ∧ (-2 ≤ size r)%Z ∧ (fileName r + size r < len)%Z ∧
  (flags r = SC_LOCAL_INCLUDE_FLAG ∨ flags r = SC_GLOBAL_INCLUDE_FLAG).

Lemma to_int_small x : (-2 ≤ x < 2 ^ 16)%Z → to_int (x mod 2 ^ 32) = x.
Proof using.
  clear Hsize. intros Hx. unfold to_int. destruct (decide (0 ≤ x)%Z) as [H|H].
  - rewrite Z.mod_small by lia. destruct (Z.ltb_spec x (2 ^ 31)); lia.
  - assert (x mod 2 ^ 32 = x + 2 ^ 32)%Z as ->.
    { rewrite <-(Z.mod_add x 1) by lia. apply Z.mod_small. lia. }
    destruct (Z.ltb_spec (x + 2 ^ 32) (2 ^ 31)); lia.
Qed.

(** What scanning may change. *)
Record scanned (o o' : Opaq) : Prop := {
  scanned_content : fileContent o' = fileContent o;
  scanned_type : fileType o' = fileType o;
  scanned_index : currentResultIndex o' = currentResultIndex o;
  scanned_includes :
    ∃ added, includedFiles o' = includedFiles o ++ added ∧ Forall include_inside added;
  scanned_moc : hasQObjectMacro o = true → hasQObjectMacro o' = true;
  scanned_plugin : hasPluginMetaDataMacro o = true → hasPluginMetaDataMacro o' = true
}.

#[local] Instance scanned_preorder : PreOrder scanned.
Proof.
  split.
  - intros o. split; auto. exists []. by rewrite app_nil_r.
  - intros o1 o2 o3 [? ? ? (a & Ha & Fa) ? ?] [? ? ? (b & Hb & Fb) ? ?].
    split; try congruence; auto. exists (a ++ b). rewrite Hb, Ha, (assoc_L (++)).
    split; [done|]. by apply Forall_app.
Qed.

Lemma scanned_push r o : include_inside r → scanned o (push_include r o).
Proof. intros Hr. split; auto. exists [r]. split; [done|]. by constructor. Qed.

Lemma include_inside_result tk :
  token_inside tk → (tok_begin tk < len)%Z → (tok_length tk < 2 ^ 16)%Z →
  include_inside (includeResult tk).
Proof.
  intros (H1 & H2 & H3) Hb Hl. unfold include_inside, includeResult. simpl.
  rewrite to_int_small by lia. split_and!; try lia. destruct (tok_is _ _); auto.
Qed.

Lemma scan_length l :
  ready l → wp (scan content l) (λ '(_, tk), tok_length tk < 2 ^ 16)%Z.
Proof.
  intros [Hok _]. eapply wp_mono; [by apply scan_ok|]. intros [l' tk] [_ ->].
  by apply Z.mod_pos_bound.
Qed.

Lemma wp_and {A} (m : option A) (P Q : A → Prop) :
  wp m P → wp m Q → wp m (λ a, P a ∧ Q a).
Proof. intros (a & E & HP) (b & E' & HQ). exists a. split; [done|]. split; congruence. Qed.

Lemma scanDirective_ok dep o l :
  fileContent o = content → ready l →
  wp (scanDirective dep o l) (λ '(l', tk, o'), scanned o o' ∧ ready l' ∧ token_inside tk ∧
    remaining content l' ≤ remaining content l).
Proof using Hsize.
  intros Ho Hl. unfold scanDirective. rewrite Ho.
  eapply wp_seq; [by apply scan_ready|]. intros [l1 tk1] (Hl1 & Htk1 & Hr1 & _).
  assert (wp (Some (l1, tk1, o)) (λ '(l', tk, o'), scanned o o' ∧ ready l' ∧
    token_inside tk ∧ remaining content l' ≤ remaining content l)) as Hstop by by apply wp_ret.
  destruct (_ && _); [|exact Hstop].
  eapply wp_seq; [by apply equals_ok|]. intros isInclude _.
  eapply wp_seq with (P := λ _, True).
  { destruct isInclude; [by apply wp_ret|by apply equals_ok]. }
  intros [] _; [|exact Hstop].
  eapply wp_seq; [apply wp_and; [apply scan_ready|apply scan_length]; by apply ready_angle|].
  intros [l2 tk2] [(Hl2 & Htk2 & Hr2 & Hp2) Hlen2].
  change (remaining content (setScanAngleStringLiteralTokens true l1))
    with (remaining content l1) in *.
  assert (remaining content (setScanAngleStringLiteralTokens false l2) ≤
    remaining content l) by (change (remaining content l2 ≤ remaining content l); lia).
  destruct (_ && _) eqn:E; apply wp_ret; (split_and!; [|by apply ready_angle|done|done]).
  - apply scanned_push, include_inside_result; [done| |done]. apply Hp2. intros Hk.
    unfold tok_is in E. rewrite Hk in E. by rewrite andb_false_r in E.
  - done.
Qed.

Lemma scanIdentifier_ok ft dep oldTk tk o :
  fileContent o = content → token_inside oldTk → token_inside tk →
  wp (scanIdentifier ft dep oldTk tk o) (λ '(o', _), scanned o o').
Proof.
  intros Ho Hold Htk. unfold scanIdentifier. destruct ft; [|by apply wp_ret].
  rewrite Ho. eapply wp_seq with (P := λ _, True).
  { destruct (tok_is _ _); [by apply equals_ok|by apply wp_ret]. }
  intros [] _; [by apply wp_ret|].
  eapply wp_seq; [by apply equalsAny_ok|]. intros isMoc _.
  eapply wp_seq with (P := λ _, True).
  { destruct isMoc; [by apply wp_ret|by apply equals_ok]. }
  intros isPlugin _. apply wp_ret.
  destruct isMoc; [|destruct isPlugin; [|done]]; split; auto; exists []; by rewrite app_nil_r.
Qed.

Lemma scanLoop_ok fuel ft dep oldTk tk l o :
  fileContent o = content → ready l → token_inside oldTk → token_inside tk →
  (tok_kind tk = T_EOF_SYMBOL ∧ 0 < fuel) ∨ remaining content l + 1 < fuel →
  wp (scanLoop fuel ft dep oldTk tk l o) (scanned o).
Proof using Hsize.
  revert oldTk tk l o. induction fuel as [|fuel IH]; intros oldTk tk l o Ho Hl Hold Htk Hf;
    [lia|].
  simpl. unfold tok_is at 1. case_bool_decide as Hk; [by apply wp_ret|].
  destruct Hf as [[? _]|Hf]; [done|].
  assert (∀ tk' l' o', scanned o o' → ready l' → token_inside tk' →
    remaining content l' ≤ remaining content l →
    wp ('(l, tk) ← scan (fileContent o') l'; scanLoop fuel ft dep tk' tk l o') (scanned o))
    as Hnext.
  { intros tk' l' o' Ho' Hl' Htk' Hr'.
    assert (fileContent o' = content) as Hc by by rewrite (scanned_content _ _ Ho').
    rewrite Hc. eapply wp_seq; [by apply scan_ready|].
    intros [l2 tk2] (Hl2 & Htk2 & Hr2 & Hp2). eapply wp_mono; [apply IH; try done|].
    - destruct (decide (tok_kind tk2 = T_EOF_SYMBOL)) as [E|E]; [left; split; [done|lia]|].
      right. specialize (Hp2 E). lia.
    - intros o2 Ho2. by etrans. }
  destruct (_ && _).
  - eapply wp_seq; [by apply scanDirective_ok|]. intros [[l1 tk1] o1] (? & ? & ? & ?).
    by apply Hnext.
  - destruct (tok_is tk T_IDENTIFIER); [|by apply Hnext].
    eapply wp_seq; [by apply scanIdentifier_ok|]. intros [o1 []] Ho1; [by apply wp_ret|].
    by apply Hnext.
Qed.

Lemma scanCppFile_ok ft dep o :
  fileContent o = content → wp (scanCppFile o initialLexer ft dep) (scanned o).
Proof using Hsize.
  intros Ho. unfold scanCppFile. rewrite Ho.
  assert (ready initialLexer) as Hi by (split; [apply initialLexer_ok|done]).
  eapply wp_seq; [by apply scan_ready|]. intros [l tk] (Hl & Htk & Hr & Hp).
  apply scanLoop_ok; try done.
  - unfold token_inside. simpl. lia.
  - destruct (decide (tok_kind tk = T_EOF_SYMBOL)) as [E|E]; [left; split; [done|lia]|].
    right. specialize (Hp E). unfold remaining in *. simpl in *. lia.
Qed.
End Scanner.

(** ** Scanning a known text *)

Section KnownText.
Context (content : str).

Lemma yyinp_at p st y s ln fl d :
  (-1 ≤ p)%Z → content !! Z.to_nat (p + 1) = Some d → d ≠ LF →
  yyinp content (mkLexer p st y s ln fl) = Some (mkLexer (p + 1) st d s ln fl).
Proof.
  intros Hp Hc Hlf. unfold yyinp. simpl.
  pose proof (lookup_lt_Some _ _ _ Hc) as Hlt.
  destruct (Z.eqb_spec (p + 1) (Z.of_nat (length content))); [lia|].
  unfold readChar. destruct (Z.ltb_spec (p + 1) 0); [lia|]. rewrite Hc. simpl.
  by rewrite (ascii_eqb_ne d LF).
Qed.

Lemma yyinp_sees p st y s ln fl c d rest :
  (0 ≤ p)%Z → drop (Z.to_nat p) content = c :: d :: rest → d ≠ LF →
  yyinp content (mkLexer p st y s ln fl) = Some (mkLexer (p + 1) st d s ln fl).
Proof.
  intros Hp Hd Hlf. apply yyinp_at; [lia| |done].
  replace (Z.to_nat (p + 1)) with (Z.to_nat p + 1) by lia. by rewrite <-lookup_drop, Hd.
Qed.

Lemma drop_next p c rest :
  (0 ≤ p)%Z → drop (Z.to_nat p) content = c :: rest →
  drop (Z.to_nat (p + 1)) content = rest.
Proof.
  intros Hp Hd. replace (Z.to_nat (p + 1)) with (Z.to_nat p + 1) by lia.
  by rewrite <-drop_drop, Hd.
Qed.

(** A run of characters that satisfy [p], up to one that does not. *)
Lemma skipWhile_sees fuel (test : char → bool) w c rest p st s ln fl :
  (0 ≤ p)%Z → drop (Z.to_nat p) content = w ++ c :: rest →
  Forall (λ d, test d = true ∧ d ≠ LF) w → test c = false → c ≠ LF → length w < fuel →
  skipWhile content fuel test (mkLexer p st (hd c w) s ln fl) =
  Some (mkLexer (p + Z.of_nat (length w)) st c s ln fl).
Proof.
  intros Hp Hd Hw Hc Hlf. revert fuel p Hp Hd.
  induction Hw as [|d w [Ht Hdl] Hw IH]; intros [|fuel] p Hp Hd Hf; simpl in *; try lia.
  { rewrite Hc. f_equal. f_equal. lia. }
  rewrite Ht.
  assert (drop (Z.to_nat p) content = d :: hd c w :: tl (w ++ c :: rest)) as Hd'
    by (rewrite Hd; by destruct w).
  rewrite (yyinp_sees _ _ _ _ _ _ _ _ _ Hp Hd').
  - simpl. rewrite IH; [|lia|by eapply drop_next|lia]. f_equal. f_equal. lia.
  - by destruct Hw as [|? ? [_ ?] _].
Qed.

(** The text of a literal, up to its closing quote. *)
Lemma skipLiteral_sees fuel quote w rest p st s ln fl :
  (0 ≤ p)%Z → drop (Z.to_nat p) content = w ++ quote :: rest →
  Forall (λ d, d ≠ quote ∧ d ≠ LF ∧ d ≠ NUL ∧ d ≠ BACKSLASH) w →
  quote ≠ LF → length w < fuel →
  skipLiteral content fuel true quote (mkLexer p st (hd quote w) s ln fl) =
  Some (mkLexer (p + Z.of_nat (length w)) st quote s ln fl).
Proof.
  intros Hp Hd Hw Hlf. revert fuel p Hp Hd.
  induction Hw as [|d w (Hq & Hl & Hn & Hb) Hw IH]; intros [|fuel] p Hp Hd Hf; simpl in *;
    try lia.
  { rewrite ascii_eqb_refl, orb_true_r. f_equal. f_equal. lia. }
  rewrite !ascii_eqb_ne by done. simpl.
  assert (drop (Z.to_nat p) content = d :: hd quote w :: tl (w ++ quote :: rest)) as Hd'
    by (rewrite Hd; by destruct w).
  rewrite (yyinp_sees _ _ _ _ _ _ _ _ _ Hp Hd').
  - simpl. rewrite IH; [|lia|by eapply drop_next|lia]. f_equal. f_equal. lia.
  - by destruct Hw as [|? ? (_ & ? & _) _].
Qed.
End KnownText.

(** A token after at most one character of white space, from its parts. *)
Lemma scan_from_parts src l l1 tok1 l2 l3 tok3 :
  skipSpace src (length src + 2) l reset = Some (l1, tok1) →
  lexState l1 = State_Default → yychar l1 ≠ NUL →
  yyinp src (set_tokenStart (currentChar l1) l1) = Some l2 →
  scanSwitch src (length src + 2) (yychar l1) l2
    (set_offset (currentChar l1) (set_lineno (currentLine l1) tok1)) = Some (Done l3 tok3) →
  scan src l = Some (l3, set_length (currentChar l3 - tokenStart l3) tok3).
Proof.
  intros Hs Hst Hn Hy Hsw. unfold scan.
  destruct (length src + 2) as [|n] eqn:En; [lia|]. rewrite <-En in *.
  assert (scan_once src (length src + 2) l reset = Some (Done l3 tok3)) as Ho.
  { unfold scan_once. rewrite Hs. simpl. rewrite Hst, ascii_eqb_ne by done.
    rewrite Hy. exact Hsw. }
  rewrite En. simpl. by rewrite Ho.
Qed.

Lemma skipSpace_none src fuel l tok :
  0 < fuel → isspace (yychar l) = false → skipSpace src fuel l tok = Some (l, tok).
Proof. destruct fuel; [lia|]. intros _ H. simpl. by rewrite H. Qed.

Lemma skipSpace_one src fuel l l1 tok :
  1 < fuel → isspace (yychar l) = true → yyinp src l = Some l1 →
  isspace (yychar l1) = false →
  skipSpace src fuel l tok =
  Some (l1, if yychar l =c LF then set_newline true (set_joined false tok)
            else set_whitespace true tok).
Proof.
  destruct fuel; [lia|]. intros Hf H Hy H1. simpl. rewrite H, Hy. simpl.
  apply skipSpace_none; [lia|done].
Qed.

(** The text of a directive at the start of a file; [opn] and [close] are the
    delimiters of the file name. *)
Section Directive.
Context (opn close : char) (name rest : str).
Definition directive : str := lit "#include " ++ opn :: name ++ close :: rest.
Notation content := directive.

Definition lexer_at (p start : Z) (c : char) (angle : bool) : Lexer :=
  mkLexer p start c State_Default 1 (mkLexFlags false angle false).

Lemma enough_text : 20 + length name < length content + 2 + 10.
Proof. unfold directive. rewrite length_app. simpl. rewrite length_app. simpl. lia. Qed.

Lemma read_at p st y angle d :
  (-1 ≤ p)%Z → content !! Z.to_nat (p + 1) = Some d → d ≠ LF →
  yyinp content (lexer_at p st y angle) = Some (lexer_at (p + 1) st d angle).
Proof. intros. by apply yyinp_at. Qed.

Lemma scan_pound :
  scan content initialLexer =
  Some (lexer_at 1 0 "i" false, mkToken T_POUND true false false 1 0 1).
Proof.
  pose proof enough_text.
  apply (scan_from_parts _ _ (lexer_at 0 (-1) "#" false)
    (set_newline true (set_joined false reset)) (lexer_at 1 0 "i" false)
    (lexer_at 1 0 "i" false) (mkToken T_POUND true false false 0 0 1)); try done.
  by apply (read_at 0).
Qed.

Lemma scan_include :
  scan content (lexer_at 1 0 "i" false) =
  Some (lexer_at 8 1 " " false, mkToken T_IDENTIFIER false false false 7 1 1).
Proof.
  pose proof enough_text.
  apply (scan_from_parts _ _ (lexer_at 1 0 "i" false) reset (lexer_at 2 1 "n" false)
    (lexer_at 8 1 " " false) (mkToken T_IDENTIFIER false false false 0 1 1));
    [|done|done|by apply (read_at 1)|].
  { apply skipSpace_none; [lia|done]. }
  assert (skipWhile content (length content + 2) isIdentChar (lexer_at 2 1 "n" false) =
    Some (lexer_at 8 1 " " false)) as E.
  { apply (skipWhile_sees content _ isIdentChar (lit "nclude") " "%char
      (opn :: name ++ close :: rest) 2); try done; [|simpl; lia].
    by apply (bool_decide_unpack _). }
  transitivity (l ← skipWhile content (length content + 2) isIdentChar
      (lexer_at 2 1 "n" false);
    done_ T_IDENTIFIER l (set_offset 1 (set_lineno 1 reset))); [reflexivity|].
  by rewrite E.
Qed.


(** The third token, when [scanSwitch] reads the name up to its delimiter. *)
Lemma scan_delimited kd c l3 :
  opn ≠ LF → opn ≠ NUL → isspace opn = false →
  content !! 10 = Some c → c ≠ LF →
  scanSwitch content (length content + 2) opn (lexer_at 10 9 c true)
    (set_offset 9 (set_lineno 1 (set_whitespace true reset))) =
    Some (Done l3 (set_kind kd (set_offset 9 (set_lineno 1 (set_whitespace true reset))))) →
  scan content (setScanAngleStringLiteralTokens true (lexer_at 8 1 " " false)) =
  Some (l3, set_length (currentChar l3 - tokenStart l3)
              (mkToken kd false true false 0 9 1)).
Proof.
  intros Ho Hn Hs Hc Hlf Hsw. pose proof enough_text.
  apply (scan_from_parts _ _ (lexer_at 9 1 opn true) (set_whitespace true reset)
    (lexer_at 10 9 c true) l3
    (set_kind kd (set_offset 9 (set_lineno 1 (set_whitespace true reset)))));
    [|done|done|by apply (read_at 9)|done].
  apply (skipSpace_one content _ (lexer_at 8 1 " " true) (lexer_at 9 1 opn true) reset);
    [lia|done| |done].
  by apply (read_at 8).
Qed.
End Directive.

Definition plainName (close : char) (name : str) : Prop :=
  Forall (λ c, c ≠ close ∧ c ≠ LF ∧ c ≠ NUL ∧ c ≠ BACKSLASH) name.

Lemma scan_local_name name c rest :
  plainName DQUOTE name →
  let content := directive DQUOTE DQUOTE name (c :: rest) in
  c ≠ LF → ∃ l tok,
  scan content (setScanAngleStringLiteralTokens true (lexer_at 8 1 " " false)) = Some (l, tok) ∧
  tok = set_length (Z.of_nat (length name) + 2) (mkToken T_STRING_LITERAL false true false 0 9 1).
Proof.
  intros Hn content Hc. pose proof (enough_text DQUOTE DQUOTE name (c :: rest)) as Hl. fold content in Hl.
  set (n := Z.of_nat (length name)).
  eexists (lexer_at (11 + n) 9 c true), _. split; [|reflexivity].
  assert (drop 10 content = name ++ DQUOTE :: c :: rest) as Hd by done.
  etrans; [apply (scan_delimited DQUOTE DQUOTE name (c :: rest) T_STRING_LITERAL
    (hd DQUOTE name) (lexer_at (11 + n) 9 c true)); [done|done|done| | |]|].
  - by destruct name.
  - by destruct Hn as [|? ? (_ & ? & _) _].
  - transitivity (scanQuote content (length content + 2) DQUOTE
      (lexer_at 10 9 (hd DQUOTE name) true)
      (set_offset 9 (set_lineno 1 (set_whitespace true reset)))); [reflexivity|].
    unfold scanQuote.
    assert (skipLiteral content (length content + 2) true DQUOTE
      (lexer_at 10 9 (hd DQUOTE name) true) = Some (lexer_at (10 + n) 9 DQUOTE true)) as ->.
    { by apply (skipLiteral_sees content _ DQUOTE name (c :: rest) 10); [..|lia]. }
    simpl. unfold skipIf. simpl.
    assert (yyinp content (lexer_at (10 + n) 9 DQUOTE true) =
      Some (lexer_at (10 + n + 1) 9 c true)) as ->.
    { apply (yyinp_sees content _ _ _ _ _ _ DQUOTE c rest); [lia| |done].
      replace (Z.to_nat (10 + n)) with (10 + length name) by lia.
      rewrite <-drop_drop, Hd. by rewrite drop_app_length. }
    simpl. unfold done_. do 3 f_equal. lia.
  - do 2 f_equal. f_equal. simpl. lia.
Qed.

(** ** Properties *)

Definition newOpaq (content : str) (ty : FileType) : Opaq := mkOpaq content ty [] false false 0.



(** A file that starts with an include directive in quotes is scanned with
    that include as its first result: the position and size given are those of the
    name between the quotes, and it is marked as local. *)
Theorem local_include_found (name rest : str) (c : char) (ty : FileType) (ft : bool) :
  let content := directive DQUOTE DQUOTE name (c :: rest) in
  plainName DQUOTE name → c ≠ LF →
  (Z.of_nat (length content) < 2 ^ 32)%Z → (Z.of_nat (length name) + 2 < 2 ^ 16)%Z →
  ∃ o' tail, scanCppFile (newOpaq content ty) initialLexer ft true = Some o' ∧
    includedFiles o' =
      mkScanResult 10 (Z.of_nat (length name)) SC_LOCAL_INCLUDE_FLAG :: tail ∧
    take (length name) (drop 10 content) = name.
Proof.
  intros content Hn Hc Hsize Hlen.
  assert (ready content initialLexer) as R0 by (split; [apply initialLexer_ok|done]).
  destruct (scan_ready content Hsize _ R0) as ([la ta] & Ea & Ra & _ & Qa & _).
  assert (Ea' := scan_pound DQUOTE DQUOTE name (c :: rest)). fold content in Ea'.
  rewrite Ea' in Ea. injection Ea as <- <-.
  destruct (scan_ready content Hsize _ Ra) as ([lb tb] & Eb & Rb & _ & Qb & _).
  assert (Eb' := scan_include DQUOTE DQUOTE name (c :: rest)). fold content in Eb'.
  rewrite Eb' in Eb. injection Eb as <- <-.
  destruct (scan_ready content Hsize _ (ready_angle content true _ Rb))
    as ([lc tc] & Ec & Rc & Tc & Qc & _).
  destruct (scan_local_name name c rest Hn Hc) as (l & tok & Ec' & Etok). fold content in Ec'.
  rewrite Ec' in Ec. injection Ec as <- <-.
  set (l' := setScanAngleStringLiteralTokens false l).
  assert (ready content l') as Rl by by apply ready_angle.
  set (r := mkScanResult 10 (Z.of_nat (length name)) SC_LOCAL_INCLUDE_FLAG).
  set (o := newOpaq content ty).
  assert (includeResult tok = r) as Er.
  { unfold includeResult, r. rewrite Etok. simpl tok_begin. simpl tok_length. f_equal.
    rewrite (Z.mod_small (Z.of_nat (length name) + 2)) by lia.
    replace (Z.of_nat (length name) + 2 - 2)%Z with (Z.of_nat (length name)) by lia.
    apply to_int_small. lia. }
  assert (scanDirective true o (lexer_at 1 0 "i" false) =
    Some (l', tok, push_include r o)) as Ed.
  { unfold scanDirective. change (fileContent o) with content. rewrite Eb'. simpl.
    change (equals content _ "include") with (Some true). simpl. rewrite Ec'. simpl.
    rewrite Etok at 1 2 3. simpl. by rewrite Er. }
  destruct (scan_ready content Hsize _ Rl) as ([ld td] & Ed' & Rd & Td & Qd & Pd).
  assert (∃ n, length content + 2 = S (S n) ∧ remaining content l' + 1 < S n) as (n & En & Hrem).
  { exists (length content). split; [lia|]. unfold l'.
    change (remaining content (setScanAngleStringLiteralTokens false l))
      with (remaining content l).
    change (remaining content (setScanAngleStringLiteralTokens true (lexer_at 8 1 " " false)))
      with (remaining content (lexer_at 8 1 " " false)) in Qc.
    unfold remaining in *. simpl in *.
    assert (10 < length content) by (unfold content, directive; rewrite length_app; simpl; rewrite length_app; simpl; lia).
    lia. }
  destruct (scanLoop_ok content Hsize (S n) ft true tok td ld (push_include r o))
    as (o' & Eo & [? ? ? (tail & Ht & _) ? ?]); try done.
  { destruct (decide (tok_kind td = T_EOF_SYMBOL)) as [E|E]; [left; split; [done|lia]|].
    right. destruct (Pd E). lia. }
  exists o', tail. split_and!; [|done|].
  - unfold scanCppFile. change (fileContent o) with content. rewrite En, Ea'. simpl.
    rewrite Ed. simpl. fold content o. rewrite Ed'. exact Eo.
  - change (drop 10 content) with (name ++ DQUOTE :: c :: rest). apply take_app_length.
Qed.

Lemma local_include_found_witness :
  ∃ o' tail, scanCppFile (newOpaq (directive DQUOTE DQUOTE "a.h" (lit " x")) FT_CPP)
    initialLexer true true = Some o' ∧
    includedFiles o' = mkScanResult 10 3 SC_LOCAL_INCLUDE_FLAG :: tail.
Proof.
  destruct (local_include_found "a.h" "x" " "%char FT_CPP true)
    as (o' & tail & E & H & _); [by apply (bool_decide_unpack _)|done|done|done|].
  exists o', tail. split; [exact E|exact H].
Defined.

(** An include directive whose quote is the last byte of the file is
    reported with size [-1], a name that starts behind the last byte. *)
Theorem unterminated_include_size (ty : FileType) :
  (λ o, (includedFiles o, length (fileContent o))) <$>
    scanCppFile (newOpaq (lit "#include " ++ [DQUOTE]) ty) initialLexer false true =
  Some ([mkScanResult 10 (-1) SC_LOCAL_INCLUDE_FLAG], 10).
Proof. by vm_compute. Qed.

(** Calling [next] until it returns null delivers the includes in the order
    in which they were found, each once, and then stays at the end. *)
Theorem next_enumerates (o : Opaq) (n : nat) :
  currentResultIndex o = 0 →
  let o_n := Nat.iter n (λ o, (next o).1) o in
  (next o_n).2 = includedFiles o !! n ∧
  includedFiles o_n = includedFiles o ∧
  currentResultIndex o_n = Nat.min n (length (includedFiles o)).
Proof.
  intros H0. cbv zeta.
  assert (∀ m, includedFiles (Nat.iter m (λ o, (next o).1) o) = includedFiles o ∧
    currentResultIndex (Nat.iter m (λ o, (next o).1) o) =
    Nat.min m (length (includedFiles o))) as Hm.
  { intros m. induction m as [|m [IH1 IH2]]; [by simpl; rewrite H0|].
    rewrite Nat.iter_succ. set (om := Nat.iter m _ o) in *. unfold next. rewrite IH1, IH2.
    destruct (includedFiles o !! _) as [r|] eqn:E; cbn [fst includedFiles currentResultIndex].
    - apply lookup_lt_Some in E. split; [done|lia].
    - apply lookup_ge_None in E. rewrite IH1, IH2. split; [done|lia]. }
  destruct (Hm n) as [H1 H2]. clear Hm. set (o_n := Nat.iter n _ o) in *.
  split_and!; [|done|done].
  unfold next. rewrite H1, H2.
  destruct (decide (n < length (includedFiles o))) as [Hn|Hn].
  - rewrite Nat.min_l by lia. by destruct (includedFiles o !! n).
  - rewrite Nat.min_r by lia. rewrite !lookup_ge_None_2 by lia. done.
Qed.

Lemma next_enumerates_witness :
  (next (mkOpaq [] FT_CPP [mkScanResult 1 2 1] false false 0)).2 = Some (mkScanResult 1 2 1).
Proof.
  refine (proj1 (next_enumerates (mkOpaq [] FT_CPP [mkScanResult 1 2 1] false false 0) 0 _)).
  reflexivity.
Defined.
