(* ===== verification/BuildGraph.v ===== *)
(** * The build graph ([buildgraph/])

    Build graph nodes, artifacts, rule nodes, the build data of a product and
    of the project, and the functions of [buildgraph.cpp] that connect and
    disconnect nodes.  An object is named by its address, a natural number, 0
    being the null pointer; what the program keeps in objects that point to each
    other is one heap.  The order of a [Set] of pointers is that of the
    addresses, the order of file tags that of their interned ids. *)

From S2P Require Import Prelude FlatSet.

(** ** Data *)

(** [NodeSet], [ArtifactSet], [FileTags]: sorted vectors. *)
Abbreviation NodeSet := (list nat).
Abbreviation FileTags := (list nat).

Definition ins (s : NodeSet) (v : nat) : NodeSet := (set_insert Nat.ltb s v).1.
Definition del (s : NodeSet) (v : nat) : NodeSet := (set_remove Nat.ltb s v).1.
Definition contains (s : NodeSet) (v : nat) : bool := set_mem Nat.ltb s v.
Definition intersects (s t : NodeSet) : bool := set_intersects Nat.ltb s t.
Definition wf_set (s : NodeSet) : Prop := ssorted Nat.ltb s.

Inductive ArtifactType := Unknown | SourceFile | Generated.

#[export] Instance ArtifactType_eq_dec : EqDecision ArtifactType.
Proof. solve_decision. Defined.

Record Artifact := mkArtifact {
  filePath : list ascii;
  timestamp : Z;
  artifactType : ArtifactType;
  m_fileTags : FileTags;
  childrenAddedByScanner : NodeSet;
  artifact_fileDependencies : NodeSet;
  transformer : option nat;
  targetOfModule : list ascii;
  properties : nat            (* the value of the property map, only compared *)
}.

Record RuleNode := mkRuleNode {
  m_rule : nat;
  m_oldInputArtifacts : NodeSet;
  m_oldExplicitlyDependsOn : NodeSet;
  m_oldAuxiliaryInputs : NodeSet;
  m_lastApplicationTime : Z;
  m_needsToConsiderChangedInputs : bool
}.

(** The subclass of a node. *)
Inductive NodeData :=
  | ArtifactNodeType (a : Artifact)
  | RuleNodeType (r : RuleNode).

Record Node := mkNode {
  parents : NodeSet;
  children : NodeSet;
  product : option nat;      (* a weak pointer *)
  node_data : NodeData
}.

(** What the scripts of a transformer have read of the [artifacts] maps of the
    products, by product name: the tags of the map, the file paths found for each
    tag, and whether the map was enumerated. *)
Record RequestedArtifactsPerProduct := mkRequestedArtifactsPerProduct {
  allTags : gset nat;
  requestedTags : gmap nat (gset (list ascii));
  artifactsEnumerated : bool
}.

Abbreviation RequestedArtifacts := (gmap (list ascii) RequestedArtifactsPerProduct).

Record Transformer := mkTransformer {
  transformer_inputs : NodeSet;
  transformer_outputs : NodeSet;
  transformer_explicitlyDependsOn : NodeSet;
  transformer_rule : nat;
  artifactsMapRequestedInPrepareScript : RequestedArtifacts;
  artifactsMapRequestedInCommands : RequestedArtifacts
}.

Record Rule := mkRule {
  rule_product : nat;
  outputTags : FileTags;      (* [collectedOutputFileTags()] *)
  inputs : FileTags;
  auxiliaryInputs : FileTags;
  excludedInputs : FileTags;
  inputsFromDependencies : FileTags;
  explicitlyDependsOn : FileTags;
  explicitlyDependsOnFromDependencies : FileTags;
  multiplex : bool;
  requiresInputs : bool;
  dynamic : bool              (* [isDynamic()] *)
}.

Record ProductBuildData := mkProductBuildData {
  m_nodes : NodeSet;
  m_roots : NodeSet;
  m_artifactsByFileTag : gmap nat (list nat);
  m_jsArtifactsMapUpToDate : bool
}.

Record ResolvedProduct := mkResolvedProduct {
  uniqueName : list ascii;
  enabled : bool;
  product_fileTags : FileTags;
  dependencies : list nat;
  product_rules : list nat;
  product_project : nat;
  product_modules : list nat; (* of each module, the product it belongs to *)
  buildData : option ProductBuildData
}.

(** The objects of a project; [lookupTable] and [isDirty] belong to its
    [ProjectBuildData], [fileDependencies] maps each [FileDependency] to its
    path. *)
Record Heap := mkHeap {
  nodes : gmap nat Node;
  transformers : gmap nat Transformer;
  rules : gmap nat Rule;
  products : gmap nat ResolvedProduct;
  fileDependencies : gmap nat (list ascii);
  lookupTable : gmap (list ascii * list ascii) (list nat);
  isDirty : bool
}.

Definition emptyHeap : Heap := mkHeap ∅ ∅ ∅ ∅ ∅ ∅ true.

(** The errors of the build graph and of the executor.  [NullPointer] stands for
    the use of a null pointer, [OutOfRange] for an [std::out_of_range]; both are no
    [ErrorInfo].  [OutOfFuel] is not an error of the program: the recursion went
    deeper than the bound the model runs it with. *)
Inductive BGError :=
  | CheckFailed
  | ConflictingArtifacts (path : list ascii) (first second : nat)
  | ChildConflict (parent : nat) (path : list ascii)
  | CycleInBuildGraph (path : list nat)
  | CycleInRules (path : list nat)
  | DuplicateChild (output : nat) (path : list ascii)
  | SourceFileDisappeared (path : list ascii)
  | ArtifactNotProduced (path : list ascii)
  | CannotCreateDirectory (path : list ascii)
  | JobFailed (job : nat)
  | ProductsNotBuilt (unbuilt : list nat)
  | NullPointer
  | OutOfRange
  | OutOfFuel.

Definition QBS_CHECK (b : bool) : exn BGError unit :=
  if b then Ok tt else Throw CheckFailed.

(** ** The heap *)

Definition emptyNode : Node :=
  mkNode [] [] None (ArtifactNodeType (mkArtifact [] 0 Unknown [] [] [] None [] 0)).

(** [*u] *)
Definition node (h : Heap) (u : nat) : Node := default emptyNode (nodes h !! u).

Definition set_nodes (f : gmap nat Node → gmap nat Node) (h : Heap) : Heap :=
  mkHeap (f (nodes h)) (transformers h) (rules h) (products h) (fileDependencies h)
    (lookupTable h) (isDirty h).
Definition set_transformers (f : gmap nat Transformer → gmap nat Transformer) (h : Heap) : Heap :=
  mkHeap (nodes h) (f (transformers h)) (rules h) (products h) (fileDependencies h)
    (lookupTable h) (isDirty h).
Definition set_products (f : gmap nat ResolvedProduct → gmap nat ResolvedProduct) (h : Heap) : Heap :=
  mkHeap (nodes h) (transformers h) (rules h) (f (products h)) (fileDependencies h)
    (lookupTable h) (isDirty h).
Definition set_lookupTable
    (f : gmap (list ascii * list ascii) (list nat) → gmap (list ascii * list ascii) (list nat))
    (h : Heap) : Heap :=
  mkHeap (nodes h) (transformers h) (rules h) (products h) (fileDependencies h)
    (f (lookupTable h)) (isDirty h).
Definition set_isDirty (b : bool) (h : Heap) : Heap :=
  mkHeap (nodes h) (transformers h) (rules h) (products h) (fileDependencies h)
    (lookupTable h) b.
Definition set_fileDependencies (f : gmap nat (list ascii) → gmap nat (list ascii))
    (h : Heap) : Heap :=
  mkHeap (nodes h) (transformers h) (rules h) (products h) (f (fileDependencies h))
    (lookupTable h) (isDirty h).

Definition upd_node (f : Node → Node) (u : nat) : Heap → Heap := set_nodes (alter f u).
Definition set_parents (f : NodeSet → NodeSet) (n : Node) : Node :=
  mkNode (f (parents n)) (children n) (product n) (node_data n).
Definition set_children (f : NodeSet → NodeSet) (n : Node) : Node :=
  mkNode (parents n) (f (children n)) (product n) (node_data n).
Definition set_product (p : option nat) (n : Node) : Node :=
  mkNode (parents n) (children n) p (node_data n).
Definition set_node_data (f : NodeData → NodeData) (n : Node) : Node :=
  mkNode (parents n) (children n) (product n) (f (node_data n)).
Definition upd_artifact (f : Artifact → Artifact) : Node → Node :=
  set_node_data (λ d, match d with ArtifactNodeType a => ArtifactNodeType (f a) | _ => d end).
Definition upd_ruleNode (f : RuleNode → RuleNode) : Node → Node :=
  set_node_data (λ d, match d with RuleNodeType r => RuleNodeType (f r) | _ => d end).

(** [static_cast<Artifact *>], [static_cast<RuleNode *>] after a test of the type. *)
Definition as_artifact (h : Heap) (u : nat) : option Artifact :=
  match nodes h !! u with
  | Some n => match node_data n with ArtifactNodeType a => Some a | _ => None end
  | None => None
  end.
Definition as_ruleNode (h : Heap) (u : nat) : option RuleNode :=
  match nodes h !! u with
  | Some n => match node_data n with RuleNodeType r => Some r | _ => None end
  | None => None
  end.
Definition artifactOf (h : Heap) (a : nat) : Artifact :=
  default (mkArtifact [] 0 Unknown [] [] [] None [] 0) (as_artifact h a).

Definition isArtifact (h : Heap) (u : nat) : bool :=
  match as_artifact h u with Some _ => true | None => false end.
Definition isRuleNode (h : Heap) (u : nat) : bool :=
  match as_ruleNode h u with Some _ => true | None => false end.

(** [filterByType<Artifact>], [filterByType<RuleNode>] *)
Definition artifacts_of (h : Heap) (s : NodeSet) : list nat := List.filter (isArtifact h) s.
Definition ruleNodes_of (h : Heap) (s : NodeSet) : list nat := List.filter (isRuleNode h) s.

(** A loop whose body changes the heap and can throw. *)
Fixpoint for_each {A S} (f : A → S → exn BGError S) (l : list A) (s : S) : exn BGError S :=
  match l with
  | [] => Ok s
  | x :: l' => let* s := f x s in for_each f l' s
  end.

(** [product->buildData] of an object that must have a product. *)
Definition productOf (h : Heap) (u : nat) : option nat := product (node h u).
Definition buildDataOf (h : Heap) (p : nat) : option ProductBuildData :=
  match products h !! p with Some rp => buildData rp | None => None end.
Definition upd_buildData (f : ProductBuildData → ProductBuildData) (p : nat) : Heap → Heap :=
  set_products (alter (λ rp,
    mkResolvedProduct (uniqueName rp) (enabled rp) (product_fileTags rp) (dependencies rp)
      (product_rules rp) (product_project rp) (product_modules rp) (f <$> buildData rp)) p).

(** Changes of single fields of an artifact. *)
Definition set_m_fileTags (t : FileTags) (a : Artifact) : Artifact :=
  mkArtifact (filePath a) (timestamp a) (artifactType a) t (childrenAddedByScanner a)
    (artifact_fileDependencies a) (transformer a) (targetOfModule a) (properties a).
Definition set_childrenAddedByScanner (f : NodeSet → NodeSet) (a : Artifact) : Artifact :=
  mkArtifact (filePath a) (timestamp a) (artifactType a) (m_fileTags a)
    (f (childrenAddedByScanner a)) (artifact_fileDependencies a) (transformer a)
    (targetOfModule a) (properties a).
Definition clearTimestamp (a : Artifact) : Artifact :=
  mkArtifact (filePath a) 0 (artifactType a) (m_fileTags a) (childrenAddedByScanner a)
    (artifact_fileDependencies a) (transformer a) (targetOfModule a) (properties a).

(** ** Paths ([FileInfo::splitIntoDirectoryAndFileName]) *)

Fixpoint lastIndexOf (c : ascii) (s : list ascii) : option nat :=
  match s with
  | [] => None
  | x :: s' =>
      match lastIndexOf c s' with
      | Some i => Some (S i)
      | None => if x =c c then Some 0 else None
      end
  end.

(** The directory and the name of a file. *)
Definition splitIntoDirectoryAndFileName (path : list ascii) : list ascii * list ascii :=
  match lastIndexOf "/" path with
  | None => ([], path)
  | Some idx => (take idx path, drop (S idx) path)
  end.

Definition dirPath (path : list ascii) : list ascii := (splitIntoDirectoryAndFileName path).1.
Definition fileName (path : list ascii) : list ascii := (splitIntoDirectoryAndFileName path).2.

(** ** The build data of a product ([ProductBuildData]) *)

Definition addNode (u : nat) (b : ProductBuildData) : ProductBuildData :=
  mkProductBuildData (ins (m_nodes b) u) (m_roots b) (m_artifactsByFileTag b)
    (m_jsArtifactsMapUpToDate b).
Definition addRootNode (u : nat) (b : ProductBuildData) : ProductBuildData :=
  mkProductBuildData (m_nodes b) (ins (m_roots b) u) (m_artifactsByFileTag b)
    (m_jsArtifactsMapUpToDate b).
Definition removeFromRootNodes (u : nat) (b : ProductBuildData) : ProductBuildData :=
  mkProductBuildData (m_nodes b) (del (m_roots b) u) (m_artifactsByFileTag b)
    (m_jsArtifactsMapUpToDate b).

Definition addFileTagToArtifact (a : nat) (tag : nat) (b : ProductBuildData) : ProductBuildData :=
  mkProductBuildData (m_nodes b) (m_roots b)
    (partial_alter (λ s, Some (ins (default [] s) a)) tag (m_artifactsByFileTag b)) false.

(** [artifactTags] are the tags of the artifact [a]. *)
Fixpoint addArtifactToSet (artifactTags : FileTags) (a : nat) (b : ProductBuildData) :
    ProductBuildData :=
  match artifactTags with
  | [] => b
  | tag :: tags => addArtifactToSet tags a (addFileTagToArtifact a tag b)
  end.

Definition addArtifact (artifactTags : FileTags) (a : nat) (b : ProductBuildData) :
    exn BGError ProductBuildData :=
  let '(s, (_, inserted)) := set_insert Nat.ltb (m_nodes b) a in
  let* _ := QBS_CHECK inserted in
  Ok (addArtifactToSet artifactTags a
        (mkProductBuildData s (m_roots b) (m_artifactsByFileTag b) (m_jsArtifactsMapUpToDate b))).

Definition removeArtifactFromSetByFileTag (a : nat) (tag : nat) (b : ProductBuildData) :
    ProductBuildData :=
  match m_artifactsByFileTag b !! tag with
  | None => b
  | Some s =>
      let s := del s a in
      mkProductBuildData (m_nodes b) (m_roots b)
        (match s with
         | [] => delete tag (m_artifactsByFileTag b)
         | _ => <[tag := s]> (m_artifactsByFileTag b)
         end) false
  end.

Fixpoint removeArtifactFromSet (artifactTags : FileTags) (a : nat) (b : ProductBuildData) :
    ProductBuildData :=
  match artifactTags with
  | [] => b
  | tag :: tags => removeArtifactFromSet tags a (removeArtifactFromSetByFileTag a tag b)
  end.

Definition removeArtifactFromProduct (artifactTags : FileTags) (a : nat) (b : ProductBuildData) :
    ProductBuildData :=
  removeArtifactFromSet artifactTags a
    (mkProductBuildData (del (m_nodes b) a) (del (m_roots b) a) (m_artifactsByFileTag b)
       (m_jsArtifactsMapUpToDate b)).

(** The answer tells whether the map was up to date. *)
Definition checkAndSetJsArtifactsMapUpToDateFlag (b : ProductBuildData) :
    bool * ProductBuildData :=
  if negb (m_jsArtifactsMapUpToDate b)
  then (false, mkProductBuildData (m_nodes b) (m_roots b) (m_artifactsByFileTag b) true)
  else (true, b).

(** ** Artifacts ([Artifact]) *)

Definition fileTags (h : Heap) (a : nat) : FileTags :=
  match as_artifact h a with Some x => m_fileTags x | None => [] end.

(** The product of a node and its build data, when there are both. *)
Definition liveProduct (h : Heap) (u : nat) : option (nat * ResolvedProduct) :=
  match productOf h u with
  | None => None
  | Some p =>
      match products h !! p with
      | Some rp => match buildData rp with Some _ => Some (p, rp) | None => None end
      | None => None
      end
  end.

Definition addFileTag (a t : nat) (h : Heap) : Heap :=
  let h := upd_node (upd_artifact (λ x, set_m_fileTags (ins (m_fileTags x) t) x)) a h in
  match liveProduct h a with
  | None => h
  | Some (p, rp) =>
      let h := upd_buildData (addFileTagToArtifact a t) p h in
      if contains (product_fileTags rp) t then upd_buildData (addRootNode a) p h else h
  end.

Definition removeFileTag (a t : nat) (h : Heap) : Heap :=
  let h := upd_node (upd_artifact (λ x, set_m_fileTags (del (m_fileTags x) t) x)) a h in
  match liveProduct h a with
  | None => h
  | Some (p, rp) =>
      let h := upd_buildData (removeArtifactFromSetByFileTag a t) p h in
      if contains (product_fileTags rp) t
         && negb (intersects (product_fileTags rp) (fileTags h a))
      then upd_buildData (removeFromRootNodes a) p h else h
  end.

Definition setFileTags (a : nat) (newFileTags : FileTags) (h : Heap) : Heap :=
  match liveProduct h a with
  | None => upd_node (upd_artifact (set_m_fileTags newFileTags)) a h
  | Some _ =>
      if bool_decide (fileTags h a = newFileTags) then h
      else
        let addedTags := set_minus Nat.ltb newFileTags (fileTags h a) in
        let h := foldl (λ h t, addFileTag a t h) h addedTags in
        let removedTags := set_minus Nat.ltb (fileTags h a) newFileTags in
        foldl (λ h t, removeFileTag a t h) h removedTags
  end.

(** [None]: a source file has no producer. *)
Definition producer (h : Heap) (a : nat) : exn BGError (option nat) :=
  match as_artifact h a with
  | None => Throw NullPointer
  | Some x =>
      if bool_decide (artifactType x = SourceFile) then Ok None
      else
        match ruleNodes_of h (children (node h a)) with
        | [] => Throw CheckFailed
        | r :: _ => Ok (Some r)
        end
  end.

(** [BuildGraphNode::onChildDisconnected] does nothing, [Artifact] overrides it. *)
Definition onChildDisconnected (u child : nat) (h : Heap) : Heap :=
  if isArtifact h child
  then upd_node (upd_artifact (set_childrenAddedByScanner (λ s, del s child))) u h
  else h.

(** ** Paths in the graph ([buildgraph.cpp]) *)

(** [findPath] for [u] and its children in turn: the path, when there is one. *)
Fixpoint firstPath (f : nat → exn BGError (option (list nat))) (l : NodeSet) :
    exn BGError (option (list nat)) :=
  match l with
  | [] => Ok None
  | c :: l' =>
      let* r := f c in
      match r with Some path => Ok (Some path) | None => firstPath f l' end
  end.

Fixpoint findPath (fuel : nat) (h : Heap) (v u : nat) : exn BGError (option (list nat)) :=
  match fuel with
  | 0 => Throw OutOfFuel
  | S fuel =>
      if u =? v then Ok (Some [v])
      else
        let* r := firstPath (findPath fuel h v) (children (node h u)) in
        Ok (cons u <$> r)
  end.

Fixpoint any_of (f : nat → NodeSet → exn BGError (bool * NodeSet)) (l : NodeSet)
    (seen : NodeSet) : exn BGError (bool * NodeSet) :=
  match l with
  | [] => Ok (false, seen)
  | c :: l' =>
      let* (found, seen) := f c seen in
      if found : bool then Ok (true, seen) else any_of f l' seen
  end.

Fixpoint existsPath_impl (fuel : nat) (h : Heap) (v u : nat) (seen : NodeSet) :
    exn BGError (bool * NodeSet) :=
  match fuel with
  | 0 => Throw OutOfFuel
  | S fuel =>
      if u =? v then Ok (true, seen)
      else
        let '(seen, (_, inserted)) := set_insert Nat.ltb seen u in
        if negb inserted then Ok (false, seen)
        else any_of (existsPath_impl fuel h v) (children (node h u)) seen
  end.

(** No path without repetition is longer than the number of nodes. *)
Definition graphFuel (h : Heap) : nat := S (S (size (nodes h))).

Definition existsPath (h : Heap) (u v : nat) : exn BGError bool :=
  let* (found, _) := existsPath_impl (graphFuel h) h v u [] in Ok found.

(** ** Connecting and disconnecting nodes *)

(** The loop over the artifacts among the children of [p]: whether [ac] is one
    of them. *)
Fixpoint childConflicts (h : Heap) (p ac : nat) (a : Artifact) (l : list nat) :
    exn BGError bool :=
  match l with
  | [] => Ok false
  | child :: l' =>
      if child =? ac then Ok true
      else
        match as_artifact h child with
        | None => childConflicts h p ac a l'
        | Some x =>
            let filePathsMustBeDifferent :=
              bool_decide (artifactType x = Generated)
              || bool_decide (productOf h child = productOf h ac)
              || bool_decide (artifactType x ≠ artifactType a) in
            if filePathsMustBeDifferent && bool_decide (filePath x = filePath a)
            then Throw (ChildConflict p (filePath a))
            else childConflicts h p ac a l'
        end
  end.

Definition addEdge (p c : nat) (h : Heap) : Heap :=
  upd_node (set_parents (λ s, ins s p)) c (upd_node (set_children (λ s, ins s c)) p h).

Definition connect (p c : nat) (h : Heap) : exn BGError Heap :=
  let* _ := QBS_CHECK (negb (p =? c)) in
  let* found :=
    match as_artifact h c with
    | Some ac => childConflicts h p c ac (artifacts_of h (children (node h p)))
    | None => Ok false
    end in
  if found : bool then Ok h
  else
    match productOf h p with
    | None => Throw NullPointer
    | Some _ => Ok (set_isDirty true (addEdge p c h))
    end.

(** The search for the path is only there for the log. *)
Definition safeConnect (u v : nat) (h : Heap) : exn BGError (bool * Heap) :=
  let* _ := QBS_CHECK (negb (u =? v)) in
  let* circle := existsPath h v u in
  if circle : bool then
    let* _ := findPath (graphFuel h) h u v in
    Ok (false, h)
  else
    let* h := connect u v h in Ok (true, h).

Definition disconnect (u v : nat) (h : Heap) : Heap :=
  onChildDisconnected u v
    (upd_node (set_parents (λ s, del s u)) v (upd_node (set_children (λ s, del s v)) u h)).

(** [~BuildGraphNode], for a node [u] that is deleted. *)
Definition destroyNode (u : nat) (h : Heap) : Heap :=
  let n := node h u in
  let h := foldl (λ h p, upd_node (set_children (λ s, del s u)) p h) h (parents n) in
  let h := foldl (λ h c, upd_node (set_parents (λ s, del s u)) c h) h (children n) in
  set_nodes (delete u) h.

(** [~Artifact], which ends with [~BuildGraphNode]. *)
Definition destroyArtifact (u : nat) (h : Heap) : Heap :=
  destroyNode u
    (foldl (λ h p, upd_node (upd_artifact (set_childrenAddedByScanner (λ s, del s u))) p h) h
       (artifacts_of h (parents (node h u)))).

(** ** Rule nodes ([RuleNode]) *)

(** A removed artifact leaves a null pointer in the set. *)
Definition forget (a : nat) (s : NodeSet) : NodeSet :=
  let '(s', removed) := set_remove Nat.ltb s a in
  if removed then ins s' 0 else s'.

Definition removeOldInputArtifact (r a : nat) : Heap → Heap :=
  upd_node (upd_ruleNode (λ x,
    mkRuleNode (m_rule x) (forget a (m_oldInputArtifacts x))
      (forget a (m_oldExplicitlyDependsOn x)) (forget a (m_oldAuxiliaryInputs x))
      (m_lastApplicationTime x) (m_needsToConsiderChangedInputs x))) r.

Definition declaresInputs (r : Rule) : bool :=
  negb (bool_decide (inputs r = [])) || negb (bool_decide (inputsFromDependencies r = [])).

(** [artifact->transformer && artifact->transformer->rule == rule] *)
Definition createdBy (h : Heap) (rule : nat) (x : Artifact) : bool :=
  match transformer x with
  | None => false
  | Some t =>
      match transformers h !! t with
      | Some tr => transformer_rule tr =? rule
      | None => false
      end
  end.

(** [lookupArtifactsByFileTag] *)
Definition lookupArtifactsByFileTag (b : ProductBuildData) (tag : nat) : NodeSet :=
  default [] (m_artifactsByFileTag b !! tag).

(** The loop over the artifacts of one tag; [wanted] is the test of
    [isTargetOfModule] that lets an artifact pass. *)
Fixpoint compatibleArtifacts (h : Heap) (rid : nat) (r : Rule) (wanted : bool)
    (l : NodeSet) (s : NodeSet) : NodeSet :=
  match l with
  | [] => s
  | a :: l' =>
      match as_artifact h a with
      | None => compatibleArtifacts h rid r wanted l' s
      | Some x =>
          if negb (Bool.eqb (negb (bool_decide (targetOfModule x = []))) wanted)
             || createdBy h rid x
             || intersects (m_fileTags x) (excludedInputs r)
          then compatibleArtifacts h rid r wanted l' s
          else compatibleArtifacts h rid r wanted l' (ins s a)
      end
  end.

Fixpoint compatibleByTags (h : Heap) (rid : nat) (r : Rule) (wanted : bool)
    (b : ProductBuildData) (tags : FileTags) (s : NodeSet) : NodeSet :=
  match tags with
  | [] => s
  | t :: tags' =>
      compatibleByTags h rid r wanted b tags'
        (compatibleArtifacts h rid r wanted (lookupArtifactsByFileTag b t) s)
  end.

(** The loop over the artifacts of a dependency. *)
Fixpoint compatibleOfDependency (h : Heap) (r : Rule) (l : list nat) (s : NodeSet) : NodeSet :=
  match l with
  | [] => s
  | a :: l' =>
      compatibleOfDependency h r l'
        (if intersects (fileTags h a) (inputsFromDependencies r)
            && negb (intersects (fileTags h a) (excludedInputs r))
         then ins s a else s)
  end.

Fixpoint compatibleOfDependencies (h : Heap) (r : Rule) (deps : list nat) (s : NodeSet) : NodeSet :=
  match deps with
  | [] => s
  | dep :: deps' =>
      match buildDataOf h dep with
      | None => compatibleOfDependencies h r deps' s
      | Some b =>
          compatibleOfDependencies h r deps'
            (compatibleOfDependency h r (artifacts_of h (m_nodes b)) s)
      end
  end.

(** Of the rule node [u], with the rule [r] of identity [m_rule]. *)
Definition currentInputArtifacts (h : Heap) (u : nat) : exn BGError NodeSet :=
  match as_ruleNode h u, productOf h u with
  | Some rn, Some p =>
      match rules h !! m_rule rn, products h !! p with
      | Some r, Some rp =>
          match buildData rp with
          | None => Throw CheckFailed
          | Some b =>
              let s := compatibleByTags h (m_rule rn) r false b (inputs r) [] in
              if bool_decide (inputsFromDependencies r = []) then Ok s
              else
                let s := compatibleByTags h (m_rule rn) r true b (inputsFromDependencies r) s in
                Ok (compatibleOfDependencies h r (dependencies rp) s)
          end
      | _, _ => Throw NullPointer
      end
  | _, _ => Throw NullPointer
  end.

(** [artifact->timestamp() > m_lastApplicationTime] *)
Definition newer (h : Heap) (rn : RuleNode) (a : nat) : bool :=
  match as_artifact h a with
  | Some x => (m_lastApplicationTime rn <? timestamp x)%Z
  | None => false
  end.

Definition changedInputArtifacts (h : Heap) (rn : RuleNode)
    (allCompatibleInputs explicitlyDependsOn auxiliaryInputs : NodeSet) : NodeSet :=
  if negb (bool_decide (explicitlyDependsOn = m_oldExplicitlyDependsOn rn))
  then allCompatibleInputs
  else if negb (m_needsToConsiderChangedInputs rn) then []
  else if existsb (newer h rn) explicitlyDependsOn then allCompatibleInputs
  else if negb (bool_decide (auxiliaryInputs = m_oldAuxiliaryInputs rn))
  then allCompatibleInputs
  else if existsb (newer h rn) auxiliaryInputs then allCompatibleInputs
  else foldl (λ s a, if newer h rn a then ins s a else s) [] allCompatibleInputs.

Definition transformerCount (h : Heap) (u : nat) : nat :=
  length (foldl (λ s a,
    match as_artifact h a with
    | Some x => ins s (default 0 (transformer x))
    | None => s
    end) [] (artifacts_of h (parents (node h u)))).

(** ** The build data of the project ([ProjectBuildData]) *)

(** The path of a file resource: an artifact or a file dependency. *)
Definition resourcePath (h : Heap) (r : nat) : list ascii :=
  match as_artifact h r with
  | Some x => filePath x
  | None => default [] (fileDependencies h !! r)
  end.

Definition lookupKey (path : list ascii) : list ascii * list ascii :=
  (fileName path, dirPath path).

(** The first artifact of the entry [l]. *)
Fixpoint otherArtifact (h : Heap) (l : list nat) : option nat :=
  match l with
  | [] => None
  | file :: l' => if isArtifact h file then Some file else otherArtifact h l'
  end.

Definition insertIntoLookupTable (r : nat) (h : Heap) : exn BGError Heap :=
  let key := lookupKey (resourcePath h r) in
  let lst := default [] (lookupTable h !! key) in
  let* _ :=
    match as_artifact h r with
    | Some a =>
        if bool_decide (artifactType a = Generated)
        then match otherArtifact h lst with
             | Some other => Throw (ConflictingArtifacts (filePath a) other r)
             | None => Ok tt
             end
        else Ok tt
    | None => Ok tt
    end in
  let* _ := QBS_CHECK (negb (bool_decide (r ∈ lst))) in
  Ok (set_isDirty true (set_lookupTable (insert key (lst ++ [r])) h)).

(** [removeOne] of [stlutils.h]: the first occurrence. *)
Fixpoint removeOne (l : list nat) (r : nat) : list nat :=
  match l with
  | [] => []
  | x :: l' => if x =? r then l' else x :: removeOne l' r
  end.

Definition removeFromLookupTable (r : nat) (h : Heap) : Heap :=
  set_lookupTable
    (partial_alter (λ l, Some (removeOne (default [] l) r)) (lookupKey (resourcePath h r))) h.

Definition lookupFiles (h : Heap) (dir name : list ascii) : list nat :=
  default [] (lookupTable h !! (name, dir)).

Definition lookupFilesByPath (h : Heap) (path : list ascii) : list nat :=
  lookupFiles h (dirPath path) (fileName path).

Definition insertFileDependency (d : nat) (path : list ascii) (h : Heap) : exn BGError Heap :=
  insertIntoLookupTable d (set_fileDependencies (insert d path) h).

Definition disconnectArtifactChildren (a : nat) (h : Heap) : Heap :=
  let h := foldl (λ h c, upd_node (set_parents (λ s, del s a)) c h) h (children (node h a)) in
  upd_node (upd_artifact (set_childrenAddedByScanner (λ _, [])))  a
    (upd_node (set_children (λ _, [])) a h).

Definition forgetInput (a : nat) (t : Transformer) : Transformer :=
  mkTransformer (del (transformer_inputs t) a) (transformer_outputs t)
    (del (transformer_explicitlyDependsOn t) a) (transformer_rule t)
    (artifactsMapRequestedInPrepareScript t) (artifactsMapRequestedInCommands t).

(** The body of the loop over the parents of [a]. *)
Definition disconnectParent (a parent : nat) (h : Heap) : exn BGError Heap :=
  let h := upd_node (set_children (λ s, del s a)) parent h in
  match as_artifact h parent with
  | None => Ok h
  | Some x =>
      match transformer x with
      | None => Throw CheckFailed
      | Some t =>
          Ok (set_transformers (alter (forgetInput a) t)
                (upd_node (upd_artifact (set_childrenAddedByScanner (λ s, del s a))) parent h))
      end
  end.

Definition disconnectArtifactParents (a : nat) (h : Heap) : exn BGError Heap :=
  let* h := for_each (disconnectParent a) (parents (node h a)) h in
  Ok (upd_node (set_parents (λ _, [])) a h).

Definition disconnectArtifact (a : nat) (h : Heap) : exn BGError Heap :=
  disconnectArtifactParents a (disconnectArtifactChildren a h).

Definition removeFromRuleNodes (a : nat) (h : Heap) : Heap :=
  foldl (λ h r, removeOldInputArtifact r a h) h (ruleNodes_of h (parents (node h a))).

Definition removeOutput (a : nat) (t : Transformer) : Transformer :=
  mkTransformer (transformer_inputs t) (del (transformer_outputs t) a)
    (transformer_explicitlyDependsOn t) (transformer_rule t)
    (artifactsMapRequestedInPrepareScript t) (artifactsMapRequestedInCommands t).

(** The file itself is removed by another function, outside the heap. *)
Definition removeArtifact (a : nat) (removeFromProduct : bool) (h : Heap) : exn BGError Heap :=
  let h := removeFromLookupTable a h in
  let h := removeFromRuleNodes a h in
  let* h := disconnectArtifact a h in
  match as_artifact h a, productOf h a with
  | Some x, Some p =>
      let h := match transformer x with
               | Some t => set_transformers (alter (removeOutput a) t) h
               | None => h
               end in
      let* h := if removeFromProduct
                then match buildDataOf h p with
                     | Some _ => Ok (upd_buildData (removeArtifactFromProduct (m_fileTags x) a) p h)
                     | None => Throw NullPointer
                     end
                else Ok h in
      Ok (set_isDirty false h)
  | _, _ => Throw NullPointer
  end.

Definition removeInput (a : nat) (t : Transformer) : Transformer :=
  mkTransformer (del (transformer_inputs t) a) (transformer_outputs t)
    (transformer_explicitlyDependsOn t) (transformer_rule t)
    (artifactsMapRequestedInPrepareScript t) (artifactsMapRequestedInCommands t).

(** The body of the loop over the parents of [a]: whether [parent] goes too. *)
Definition loseChild (a parent : nat) (h : Heap) : bool * Heap :=
  let h := disconnect parent a h in
  match children (node h parent) with
  | [] => (true, h)
  | _ =>
      match as_artifact h parent with
      | Some x =>
          match transformer x with
          | Some t =>
              let h := set_transformers (alter (removeInput a) t) h in
              (match transformers h !! t with
               | Some tr => bool_decide (transformer_inputs tr = [])
               | None => false
               end, h)
          | None => (false, h)
          end
      | None => (false, h)
      end
  end.

(** [f] is the recursive call; the state holds the set [removedArtifacts]. *)
Fixpoint exclusiveDependents (f : nat → Heap * NodeSet → exn BGError (Heap * NodeSet))
    (a : nat) (l : list nat) (st : Heap * NodeSet) : exn BGError (Heap * NodeSet) :=
  match l with
  | [] => Ok st
  | parent :: l' =>
      let '(h, removed) := st in
      let '(removeParent, h) := loseChild a parent h in
      let* st :=
        if removeParent : bool then f parent (h, removed)
        else Ok (upd_node (upd_artifact clearTimestamp) parent h, removed) in
      exclusiveDependents f a l' st
  end.

Fixpoint removeArtifactAndExclusiveDependents (fuel : nat) (removeFromProduct : bool)
    (a : nat) (st : Heap * NodeSet) : exn BGError (Heap * NodeSet) :=
  match fuel with
  | 0 => Throw OutOfFuel
  | S fuel =>
      let '(h, removed) := st in
      let removed := ins removed a in
      let* (h, removed) :=
        exclusiveDependents (removeArtifactAndExclusiveDependents fuel removeFromProduct) a
          (artifacts_of h (parents (node h a))) (h, removed) in
      let* h := removeArtifact a removeFromProduct h in
      Ok (h, removed)
  end.

Definition setDirty : Heap → Heap := set_isDirty true.
Definition setClean : Heap → Heap := set_isDirty false.

(** ** Artifacts of a project ([buildgraph.cpp]) *)

(** [lookupArtifact] for a directory and a file name. *)
Fixpoint findArtifact (h : Heap) (p : nat) (compareByName : bool) (l : list nat) : option nat :=
  match l with
  | [] => None
  | r :: l' =>
      match as_artifact h r, productOf h r with
      | Some _, Some q =>
          if (if compareByName
              then bool_decide (uniqueName <$> products h !! q = uniqueName <$> products h !! p)
              else q =? p)
          then Some r else findArtifact h p compareByName l'
      | _, _ => findArtifact h p compareByName l'
      end
  end.

Definition lookupArtifact (h : Heap) (p : nat) (dir name : list ascii) (compareByName : bool) :
    option nat :=
  findArtifact h p compareByName (lookupFiles h dir name).

Definition lookupArtifactByPath (h : Heap) (p : nat) (path : list ascii) (compareByName : bool) :
    option nat :=
  lookupArtifact h p (dirPath path) (fileName path) compareByName.

Record SourceArtifact := mkSourceArtifact {
  absoluteFilePath : list ascii;
  sa_fileTags : FileTags;
  sa_targetOfModule : list ascii;
  sa_properties : nat
}.

Definition setArtifactData (a : nat) (sa : SourceArtifact) (h : Heap) : Heap :=
  let h := upd_node (upd_artifact (λ x,
    mkArtifact (absoluteFilePath sa) (timestamp x) (artifactType x) (m_fileTags x)
      (childrenAddedByScanner x) (artifact_fileDependencies x) (transformer x)
      (sa_targetOfModule sa) (properties x))) a h in
  let h := setFileTags a (sa_fileTags sa) h in
  upd_node (upd_artifact (λ x,
    mkArtifact (filePath x) (timestamp x) (artifactType x) (m_fileTags x)
      (childrenAddedByScanner x) (artifact_fileDependencies x) (transformer x)
      (targetOfModule x) (sa_properties sa))) a h.

Definition insertArtifact (p a : nat) (h : Heap) : exn BGError Heap :=
  let* _ := QBS_CHECK (bool_decide (productOf h a = None)) in
  let* _ := QBS_CHECK (negb (bool_decide (resourcePath h a = []))) in
  let h := upd_node (set_product (Some p)) a h in
  let* h := insertIntoLookupTable a h in
  match buildDataOf h p with
  | None => Throw NullPointer
  | Some b =>
      let* b := addArtifact (fileTags h a) a b in
      Ok (upd_buildData (λ _, b) p h)
  end.

(** [new Artifact] at the address [a]. *)
Definition newArtifact (ty : ArtifactType) : Node :=
  mkNode [] [] None (ArtifactNodeType (mkArtifact [] 0 ty [] [] [] None [] 0)).

Definition createArtifact (p a : nat) (sa : SourceArtifact) (h : Heap) : exn BGError Heap :=
  insertArtifact p a
    (setArtifactData a sa (set_nodes (insert a (newArtifact SourceFile)) h)).

(** Whether an output of the rule node [r] shows that the rule ran for [a]. *)
Definition needsExplicitInvalidation (h : Heap) (a r : nat) : bool :=
  negb (existsb (λ output,
    contains (children (node h output)) a
    && match as_artifact h output with
       | Some x => negb (contains (childrenAddedByScanner x) a)
       | None => false
       end) (artifacts_of h (parents (node h r)))).

Definition invalidateArtifactAsRuleInputIfNecessary (a : nat) (h : Heap) : Heap :=
  foldl (λ h r,
    match as_ruleNode h r with
    | Some rn =>
        match rules h !! m_rule rn with
        | Some rule =>
            if negb (dynamic rule) then h
            else if needsExplicitInvalidation h a r then removeOldInputArtifact r a h else h
        | None => h
        end
    | None => h
    end) h (ruleNodes_of h (parents (node h a))).

Definition updateArtifactFromSourceArtifact (p : nat) (sa : SourceArtifact) (h : Heap) :
    exn BGError Heap :=
  match lookupArtifactByPath h p (absoluteFilePath sa) false with
  | None => Throw CheckFailed
  | Some a =>
      match as_artifact h a with
      | None => Throw NullPointer
      | Some old =>
          let h := setArtifactData a sa h in
          match as_artifact h a with
          | None => Throw NullPointer
          | Some new =>
              if negb (bool_decide (m_fileTags old = m_fileTags new))
                 || negb (bool_decide (properties old = properties new))
              then Ok (invalidateArtifactAsRuleInputIfNecessary a h)
              else Ok h
          end
      end
  end.
