(* ===== verification/CycleDetector.v ===== *)
(** * The cycle detector and the sanity checks

    [CycleDetector] of [cycledetector.cpp], the [accept] functions of nodes,
    products and projects that drive a visitor, and [doSanityChecks] of
    [buildgraph.cpp], which begins with a run of the detector. *)

From S2P Require Import Prelude FlatSet BuildGraph.

Record CycleDetector := mkCycleDetector {
  m_allNodes : NodeSet;
  m_nodesInCurrentPath : NodeSet;
  m_parent : nat
}.

Definition newCycleDetector : CycleDetector := mkCycleDetector [] [] 0.

(** [cycle] *)
Definition cycle (h : Heap) (st : CycleDetector) (doubleEntry : nat) : exn BGError (list nat) :=
  let* path := findPath (graphFuel h) h (m_parent st) doubleEntry in
  Ok (default [] path ++ [doubleEntry]).

(** [visitNode]; [acceptChild] is the call of [child->accept(this)]. *)
Definition visitNode
    (acceptChild : nat → CycleDetector → exn BGError CycleDetector)
    (h : Heap) (u : nat) (st : CycleDetector) : exn BGError (bool * CycleDetector) :=
  if contains (m_nodesInCurrentPath st) u
  then let* nodes := cycle h st u in Throw (CycleInBuildGraph nodes)
  else if contains (m_allNodes st) u then Ok (false, st)
  else
    let st := mkCycleDetector (m_allNodes st) (ins (m_nodesInCurrentPath st) u) u in
    let* st := for_each acceptChild (children (node h u)) st in
    Ok (false, mkCycleDetector (ins (m_allNodes st) u) (del (m_nodesInCurrentPath st) u)
                 (m_parent st)).

(** [Artifact::accept] and [RuleNode::accept]: both [visit] functions are
    [visitNode], and [endVisit] does nothing. *)
Fixpoint accept (fuel : nat) (h : Heap) (u : nat) (st : CycleDetector) :
    exn BGError CycleDetector :=
  match fuel with
  | 0 => Throw OutOfFuel
  | S fuel =>
      let* (visitChildren, st) := visitNode (accept fuel h) h u st in
      if visitChildren : bool
      then for_each (accept fuel h) (children (node h u)) st
      else Ok st
  end.

(** [visitProduct], [ResolvedProduct::accept] *)
Definition visitProduct (h : Heap) (p : nat) (st : CycleDetector) : exn BGError CycleDetector :=
  match buildDataOf h p with
  | None => Ok st
  | Some b => for_each (accept (graphFuel h) h) (m_roots b) st
  end.

Inductive ResolvedProject := mkResolvedProject
  (project : nat) (project_products : list nat) (subProjects : list ResolvedProject).

Fixpoint allProducts (project : ResolvedProject) : list nat :=
  match project with mkResolvedProject _ ps subs => ps ++ flat_map allProducts subs end.

(** [visitProject], [ResolvedProject::accept] *)
Fixpoint visitProject (h : Heap) (project : ResolvedProject) (st : CycleDetector) :
    exn BGError CycleDetector :=
  match project with
  | mkResolvedProject _ ps subs =>
      let* st := for_each (visitProduct h) ps st in
      (fix loop (l : list ResolvedProject) st :=
         match l with
         | [] => Ok st
         | sub :: l' => let* st := visitProject h sub st in loop l' st
         end) subs st
  end.

(** ** Sanity checks *)

(** A loop of checks. *)
Definition check_each {A} (f : A → exn BGError unit) (l : list A) : exn BGError unit :=
  for_each (λ x _, f x) l tt.

Definition ruleProduct (h : Heap) (rid : nat) : option nat := rule_product <$> rules h !! rid.

Definition checkRuleNode (h : Heap) (p : nat) (rp : ResolvedProduct) (u : nat) (r : RuleNode) :
    exn BGError unit :=
  let rule := rules h !! m_rule r in
  let* _ := QBS_CHECK (bool_decide (is_Some rule)) in
  let* _ := QBS_CHECK (bool_decide (ruleProduct h (m_rule r) = productOf h u)) in
  let* _ := QBS_CHECK (bool_decide (ruleProduct h (m_rule r) = Some p)) in
  QBS_CHECK (bool_decide (m_rule r ∈ product_rules rp)).

Definition checkParent (h : Heap) (u parent : nat) : exn BGError unit :=
  QBS_CHECK (contains (children (node h parent)) u).

Definition checkChild (h : Heap) (allProducts : list nat) (u child : nat) : exn BGError unit :=
  let* _ := QBS_CHECK (contains (parents (node h child)) u) in
  match productOf h child with
  | None => Throw CheckFailed
  | Some q =>
      match buildDataOf h q with
      | None => Throw CheckFailed
      | Some b =>
          let* _ := QBS_CHECK (contains (m_nodes b) child) in
          QBS_CHECK (bool_decide (q ∈ allProducts))
      end
  end.

(** Two artifacts among the children of [output] for the same file. *)
Definition checkDistinctChildren (h : Heap) (output a other : nat) : exn BGError unit :=
  let x := artifactOf h a in
  let y := artifactOf h other in
  if negb (other =? a) && bool_decide (filePath y = filePath x)
     && (bool_decide (artifactType y ≠ SourceFile) || bool_decide (artifactType x ≠ SourceFile)
         || bool_decide (productOf h other = productOf h a))
  then Throw (DuplicateChild output (filePath x)) else Ok tt.

(** One output of the transformer [t]; the state is [transformerOutputChildren]. *)
Definition checkOutput (h : Heap) (t : nat) (output : nat) (acc : NodeSet) : exn BGError NodeSet :=
  let* _ := QBS_CHECK (bool_decide (transformer (artifactOf h output) = Some t)) in
  let l := artifacts_of h (children (node h output)) in
  let acc := set_unite Nat.ltb acc l in
  let* _ := check_each (λ a, check_each (checkDistinctChildren h output a) l) l in
  Ok acc.

(** [RequestedArtifactsPerProduct::doSanityChecks]: no files are recorded for a
    tag that the map did not have. *)
Definition requestedPerProduct_doSanityChecks (r : RequestedArtifactsPerProduct) :
    exn BGError unit :=
  check_each (λ kv : nat * gset (list ascii),
    QBS_CHECK (bool_decide (kv.1 ∈ allTags r) || bool_decide (kv.2 = ∅)))
    (map_to_list (requestedTags r)).

Definition requestedArtifacts_doSanityChecks (m : RequestedArtifacts) : exn BGError unit :=
  check_each (λ kv : list ascii * RequestedArtifactsPerProduct,
    requestedPerProduct_doSanityChecks kv.2) (map_to_list m).

(** A generated artifact [u], from the check of its children on. *)
Definition checkGenerated (h : Heap) (p : nat) (rp : ResolvedProduct) (u : nat) (a : Artifact) :
    exn BGError unit :=
  let* _ := QBS_CHECK (length (ruleNodes_of h (children (node h u))) =? 1) in
  match transformer a with
  | None => Throw CheckFailed
  | Some t =>
      match transformers h !! t with
      | None => Throw NullPointer
      | Some tr =>
          let rule := transformer_rule tr in
          let* _ := QBS_CHECK (bool_decide (is_Some (rules h !! rule))) in
          let* _ := QBS_CHECK (bool_decide (ruleProduct h rule = productOf h u)) in
          let* _ := QBS_CHECK (bool_decide (ruleProduct h rule = Some p)) in
          let* _ := QBS_CHECK (contains (transformer_outputs tr) u) in
          let* _ := QBS_CHECK (bool_decide (rule ∈ product_rules rp)) in
          let* acc := for_each (checkOutput h t) (transformer_outputs tr) [] in
          let* _ := QBS_CHECK (length (transformer_inputs tr) <=? length acc) in
          let* _ := check_each (λ i, QBS_CHECK (contains acc i)) (transformer_inputs tr) in
          let* _ := requestedArtifacts_doSanityChecks (artifactsMapRequestedInPrepareScript tr) in
          requestedArtifacts_doSanityChecks (artifactsMapRequestedInCommands tr)
      end
  end.

(** The body of the loop over the nodes; the state is [filePaths]. *)
Definition checkNode (h : Heap) (p : nat) (rp : ResolvedProduct) (allProducts : list nat)
    (u : nat) (filePaths : gset (list ascii)) : exn BGError (gset (list ascii)) :=
  let* _ := QBS_CHECK (bool_decide (productOf h u = Some p)) in
  let* _ := check_each (checkParent h u) (parents (node h u)) in
  let* _ := check_each (checkChild h allProducts u) (children (node h u)) in
  match node_data (node h u) with
  | RuleNodeType r => let* _ := checkRuleNode h p rp u r in Ok filePaths
  | ArtifactNodeType a =>
      let* _ := QBS_CHECK (forallb (λ d, bool_decide (is_Some (fileDependencies h !! d)))
                             (artifact_fileDependencies a)) in
      let* _ := QBS_CHECK (bool_decide (artifactType a = SourceFile)
                           || negb (bool_decide (filePath a ∈ filePaths))) in
      let filePaths := {[filePath a]} ∪ filePaths in
      let* _ := check_each (λ child, QBS_CHECK (contains (children (node h u)) child))
                  (childrenAddedByScanner a) in
      if bool_decide (artifactType a = SourceFile) then Ok filePaths
      else let* _ := checkGenerated h p rp u a in Ok filePaths
  end.

Definition doSanityChecksForProduct (h : Heap) (p : nat) (allProducts : list nat) :
    exn BGError unit :=
  let* _ := visitProduct h p newCycleDetector in
  match products h !! p with
  | None => Throw NullPointer
  | Some rp =>
      let* _ := check_each (λ m, QBS_CHECK (m =? p)) (product_modules rp) in
      let* _ := QBS_CHECK (negb (enabled rp) || bool_decide (is_Some (buildData rp))) in
      match buildData rp with
      | None => Ok tt
      | Some b =>
          let* _ := check_each (λ u, QBS_CHECK (contains (m_nodes b) u)) (m_roots b) in
          let* _ := for_each (checkNode h p rp allProducts) (m_nodes b) ∅ in
          Ok tt
      end
  end.

(** [doSanityChecks]; the state is [productNames].  The products of a project
    belong to it, hence also to its top-level project. *)
Fixpoint doSanityChecks (h : Heap) (project : ResolvedProject) (allProducts : list nat)
    (productNames : gset (list ascii)) : exn BGError (gset (list ascii)) :=
  match project with
  | mkResolvedProject self ps subs =>
      let* productNames :=
        (fix loop (l : list ResolvedProject) names :=
           match l with
           | [] => Ok names
           | sub :: l' => let* names := doSanityChecks h sub allProducts names in loop l' names
           end) subs productNames in
      for_each (λ p names,
        let* _ := QBS_CHECK (bool_decide (product_project <$> products h !! p = Some self)) in
        let* _ := doSanityChecksForProduct h p allProducts in
        let name := default [] (uniqueName <$> products h !! p) in
        let* _ := QBS_CHECK (negb (bool_decide (name ∈ names))) in
        Ok ({[name]} ∪ names)) ps productNames
  end.
