(* ===== verification/BuildGraphCorrect.v ===== *)
(** * Correctness of the build graph

    The invariant of the graph and the operations that keep it; the search for
    a path; file tags, the lookup table and the removal of artifacts. *)

From S2P Require Import Prelude FlatSet BuildGraph.

(** ** Sets of nodes *)

Create HintDb graph discriminated.

Lemma elem_of_ins s v x : wf_set s → x ∈ ins s v ↔ x = v ∨ x ∈ s.
Proof. apply elem_of_set_insert; apply _. Qed.

Lemma elem_of_del s v x : wf_set s → x ∈ del s v ↔ x ∈ s ∧ x ≠ v.
Proof. apply elem_of_set_remove; apply _. Qed.

Lemma ins_wf s v : wf_set s → wf_set (ins s v).
Proof. apply set_insert_sorted; apply _. Qed.

Lemma del_wf s v : wf_set s → wf_set (del s v).
Proof. apply ssorted_sublist, set_remove_sublist. Qed.

Lemma nil_wf : wf_set [].
Proof. apply ssorted_nil. Qed.

#[export] Hint Resolve ins_wf del_wf nil_wf : graph.

Lemma contains_spec s v : wf_set s → contains s v = true ↔ v ∈ s.
Proof. apply set_mem_spec; apply _. Qed.

Lemma contains_false s v : wf_set s → contains s v = false ↔ v ∉ s.
Proof. intros Hs. rewrite <-(contains_spec s v Hs). by destruct (contains s v). Qed.

Lemma wf_set_NoDup s : wf_set s → NoDup s.
Proof. apply ssorted_NoDup; apply _. Qed.

(** [insert] tells whether the element is new. *)
Lemma set_insert_cases s v :
  wf_set s →
  (v ∈ s ∧ (∃ i, set_insert Nat.ltb s v = (s, (i, false)))) ∨
  (v ∉ s ∧ (∃ i, set_insert Nat.ltb s v = (ins s v, (i, true)))).
Proof.
  intros Hs. destruct (set_insert_result s v Hs) as [Hl Hn].
  unfold ins. destruct (set_insert Nat.ltb s v) as [s' [i b]] eqn:E. simpl in *.
  destruct b; [right|left].
  - split; [by apply Hn|eauto].
  - assert (v ∈ s) as Hv by (destruct (decide (v ∈ s)); [done|naive_solver]).
    split; [done|]. exists i. f_equal. clear Hn Hl.
    unfold set_insert in E. repeat case_match; by simplify_eq.
Qed.

Lemma length_ins s v : wf_set s → v ∉ s → length (ins s v) = S (length s).
Proof.
  intros Hs Hv. unfold ins, set_insert.
  assert (∀ i, length (take i s ++ v :: drop i s) = S (length s)) as Hl.
  { intros i. rewrite length_app. simpl. rewrite <-(take_drop i s) at 3.
    rewrite length_app. lia. }
  case_match eqn:E; simpl; [|apply Hl]. case_match eqn:E'; simpl; [apply Hl|].
  destruct Hv. apply (set_mem_spec s v Hs). unfold set_mem. by rewrite E, E'.
Qed.

(** ** The heap *)

Definition present (h : Heap) (u : nat) : Prop := is_Some (nodes h !! u).

Lemma node_upd_eq f u h : present h u → node (upd_node f u h) u = f (node h u).
Proof.
  intros [n Hn]. unfold node, upd_node. simpl. by rewrite lookup_alter_eq, Hn.
Qed.

Lemma node_upd_ne f u v h : u ≠ v → node (upd_node f u h) v = node h v.
Proof. intros Hne. unfold node, upd_node. simpl. by rewrite lookup_alter_ne. Qed.

Lemma node_absent h u : ¬ present h u → node h u = emptyNode.
Proof. unfold present, node. destruct (nodes h !! u); [|done]. intros []. by eexists. Qed.

Lemma present_upd f u h v : present (upd_node f u h) v ↔ present h v.
Proof.
  unfold present, upd_node. simpl. destruct (decide (u = v)) as [->|Hne].
  - by rewrite lookup_alter_eq, fmap_is_Some.
  - by rewrite lookup_alter_ne.
Qed.

Lemma node_upd_absent f u h v : ¬ present h u → node (upd_node f u h) v = node h v.
Proof.
  intros Hu. destruct (decide (u = v)) as [<-|]; [|by apply node_upd_ne].
  rewrite (node_absent h u Hu), node_absent; [done|]. by rewrite present_upd.
Qed.

(** A field that [f] leaves alone is left alone by [upd_node f]. *)
Lemma node_upd_field {A} (field : Node → A) f u h v :
  (∀ n, field (f n) = field n) → field (node (upd_node f u h) v) = field (node h v).
Proof.
  intros Hf. destruct (decide (present h u)) as [Hu|Hu].
  - destruct (decide (u = v)) as [<-|].
    + by rewrite node_upd_eq, Hf.
    + by rewrite node_upd_ne.
  - by rewrite node_upd_absent.
Qed.

(** A field that [f] changes by [g], where [g] has nothing to change in a node
    that is not there. *)
Lemma node_upd_change {A} (field : Node → A) (g : A → A) f u h v :
  (∀ n, field (f n) = g (field n)) →
  present h u ∨ g (field emptyNode) = field emptyNode →
  field (node (upd_node f u h) v) =
    if decide (u = v) then g (field (node h u)) else field (node h v).
Proof.
  intros Hf Hu. destruct (decide (u = v)) as [<-|].
  - destruct (decide (present h u)) as [Hp|Hp].
    + by rewrite node_upd_eq, Hf.
    + destruct Hu as [|Hg]; [done|]. by rewrite node_upd_absent, node_absent, Hg.
  - by rewrite node_upd_ne.
Qed.

(** ** The invariant *)

Definition edge (h : Heap) (u v : nat) : Prop := v ∈ children (node h u).

#[export] Instance edge_dec h u v : Decision (edge h u v).
Proof. unfold edge. apply _. Defined.

(** Children and parents are well-formed sets that mirror each other, and no
    node is its own child. *)
Record wf_graph (h : Heap) : Prop := {
  wf_children u : wf_set (children (node h u));
  wf_parents u : wf_set (parents (node h u));
  wf_edges u v : edge h u v ↔ u ∈ parents (node h v);
  wf_irrefl u : ¬ edge h u u
}.

Definition acyclic (h : Heap) : Prop := ∀ u, ¬ tc (edge h) u u.

Lemma edge_present h u v : edge h u v → present h u.
Proof.
  unfold edge. destruct (decide (present h u)); [done|]. rewrite node_absent by done.
  by intros ?%elem_of_nil.
Qed.

Lemma edge_present_r h u v : wf_graph h → edge h u v → present h v.
Proof.
  intros Hw. rewrite (wf_edges h Hw). destruct (decide (present h v)); [done|].
  rewrite node_absent by done. by intros ?%elem_of_nil.
Qed.

(** What decides the invariant and the paths: the children and the parents. *)
Definition same_edges (h h' : Heap) : Prop :=
  ∀ u, children (node h' u) = children (node h u) ∧ parents (node h' u) = parents (node h u).

#[export] Instance same_edges_equiv : Equivalence same_edges.
Proof.
  split.
  - by intros h u.
  - intros h h' H u. destruct (H u). done.
  - intros h1 h2 h3 H1 H2 u. destruct (H1 u), (H2 u). split; congruence.
Qed.

#[export] Instance edge_proper : Proper (same_edges ==> eq ==> eq ==> iff) edge.
Proof. intros h h' H u _ <- v _ <-. unfold edge. by rewrite (proj1 (H u)). Qed.

#[export] Instance wf_graph_proper : Proper (same_edges ==> iff) wf_graph.
Proof.
  assert (∀ h h', same_edges h h' → wf_graph h → wf_graph h') as Hw.
  { intros h h' H [Hc Hp He Hi]. split; intros u.
    - by rewrite (proj1 (H u)).
    - by rewrite (proj2 (H u)).
    - intros v. rewrite (proj2 (H v)), <-(He u v). symmetry. by apply edge_proper.
    - intros Hu. apply (Hi u). revert Hu. by apply edge_proper. }
  intros h h' H. split; [by apply Hw|]. apply Hw. by symmetry.
Qed.

(** Changes of other fields. *)
Lemma upd_other_same_edges f u h :
  (∀ n, children (f n) = children n) → (∀ n, parents (f n) = parents n) →
  same_edges h (upd_node f u h).
Proof. intros Hc Hp v. by rewrite !node_upd_field. Qed.

Lemma upd_artifact_same_edges f u h : same_edges h (upd_node (upd_artifact f) u h).
Proof. by apply upd_other_same_edges. Qed.
Lemma upd_ruleNode_same_edges f u h : same_edges h (upd_node (upd_ruleNode f) u h).
Proof. by apply upd_other_same_edges. Qed.
Lemma nodes_same_edges h h' : nodes h' = nodes h → same_edges h h'.
Proof. intros H u. unfold node. by rewrite H. Qed.

#[export] Hint Resolve upd_artifact_same_edges upd_ruleNode_same_edges : graph.
#[export] Hint Extern 2 (same_edges _ _) => (by apply nodes_same_edges) : graph.

(** ** One edge more, one edge less *)

Definition removeEdge (u v : nat) (h : Heap) : Heap :=
  upd_node (set_parents (λ s, del s u)) v (upd_node (set_children (λ s, del s v)) u h).

Lemma children_addEdge p c h x :
  present h p →
  children (node (addEdge p c h) x) =
    if decide (p = x) then ins (children (node h p)) c else children (node h x).
Proof.
  intros Hp. unfold addEdge. rewrite (node_upd_field children) by done.
  by apply (node_upd_change children (λ s, ins s c)); [|left].
Qed.

Lemma parents_addEdge p c h x :
  present h c →
  parents (node (addEdge p c h) x) =
    if decide (c = x) then ins (parents (node h c)) p else parents (node h x).
Proof.
  intros Hc. unfold addEdge. rewrite (node_upd_change parents (λ s, ins s p)); [|done|].
  - by rewrite !(node_upd_field parents).
  - left. by rewrite present_upd.
Qed.

Lemma children_removeEdge u v h x :
  children (node (removeEdge u v h) x) =
    if decide (u = x) then del (children (node h u)) v else children (node h x).
Proof.
  unfold removeEdge. rewrite (node_upd_field children) by done.
  by apply (node_upd_change children (λ s, del s v)); [|right].
Qed.

Lemma parents_removeEdge u v h x :
  parents (node (removeEdge u v h) x) =
    if decide (v = x) then del (parents (node h v)) u else parents (node h x).
Proof.
  unfold removeEdge. rewrite (node_upd_change parents (λ s, del s u)); [|done|by right].
  by rewrite !(node_upd_field parents).
Qed.

Lemma edge_addEdge p c h u v :
  wf_graph h → present h p → edge (addEdge p c h) u v ↔ edge h u v ∨ (u = p ∧ v = c).
Proof.
  intros Hw Hp. unfold edge. rewrite children_addEdge by done. case_decide as E.
  - subst. rewrite elem_of_ins by apply Hw. naive_solver.
  - naive_solver.
Qed.

Lemma edge_removeEdge h u v x y :
  wf_graph h → edge (removeEdge u v h) x y ↔ edge h x y ∧ ¬ (x = u ∧ y = v).
Proof.
  intros Hw. unfold edge. rewrite children_removeEdge. case_decide as E.
  - subst. rewrite elem_of_del by apply Hw. naive_solver.
  - naive_solver.
Qed.

Lemma addEdge_wf p c h :
  wf_graph h → present h p → present h c → p ≠ c → wf_graph (addEdge p c h).
Proof.
  intros Hw Hp Hc Hne. split.
  - intros u. rewrite children_addEdge by done. case_decide; [apply ins_wf|]; apply Hw.
  - intros u. rewrite parents_addEdge by done. case_decide; [apply ins_wf|]; apply Hw.
  - intros u v. rewrite edge_addEdge, parents_addEdge, (wf_edges h Hw) by done.
    case_decide as E; [|naive_solver].
    subst. rewrite elem_of_ins by apply Hw. naive_solver.
  - intros u. rewrite edge_addEdge by done. pose proof (wf_irrefl h Hw u). naive_solver.
Qed.

Lemma removeEdge_wf u v h : wf_graph h → wf_graph (removeEdge u v h).
Proof.
  intros Hw. split.
  - intros x. rewrite children_removeEdge. case_decide; [apply del_wf|]; apply Hw.
  - intros x. rewrite parents_removeEdge. case_decide; [apply del_wf|]; apply Hw.
  - intros x y. rewrite edge_removeEdge, parents_removeEdge, (wf_edges h Hw) by done.
    case_decide as E; [|naive_solver].
    subst. rewrite elem_of_del by apply Hw. naive_solver.
  - intros x. rewrite edge_removeEdge by done. pose proof (wf_irrefl h Hw x). naive_solver.
Qed.

Lemma onChildDisconnected_same_edges u v h : same_edges h (onChildDisconnected u v h).
Proof. unfold onChildDisconnected. case_match; auto with graph. Qed.

Lemma disconnect_same_edges u v h : same_edges (removeEdge u v h) (disconnect u v h).
Proof. apply onChildDisconnected_same_edges. Qed.

(** ** Paths *)

Section Reach.
Variable h : Heap.
Hypothesis Hw : wf_graph h.
Variable v : nat.

(** What a search from [u] leaves behind that does not find [v]: every node it
    has added is not [v], and all its children have been seen. *)
Definition explored (seen seen' : NodeSet) : Prop :=
  ∀ x, x ∈ seen' → x ∉ seen → x ≠ v ∧ ∀ y, edge h x y → y ∈ seen'.

Definition seen_ok (seen : NodeSet) : Prop := wf_set seen ∧ ∀ x, x ∈ seen → present h x.

(** The seen nodes are no more than the nodes. *)
Lemma seen_bounded seen : seen_ok seen → length seen ≤ size (nodes h).
Proof.
  intros [Hs Hp]. rewrite <-size_dom.
  rewrite <-(size_list_to_set (C := gset nat) seen (wf_set_NoDup _ Hs)).
  apply subseteq_size. intros x. rewrite elem_of_list_to_set, elem_of_dom. apply Hp.
Qed.

Definition search_ok (u : nat) (seen : NodeSet) (r : bool * NodeSet) : Prop :=
  seen_ok r.2 ∧ seen ⊆ r.2 ∧
  if r.1 then rtc (edge h) u v else u ∈ r.2 ∧ explored seen r.2.

Lemma explored_trans seen1 seen2 seen3 :
  seen2 ⊆ seen3 → explored seen1 seen2 → explored seen2 seen3 → explored seen1 seen3.
Proof.
  intros Hsub H1 H2 x Hx Hx1. destruct (decide (x ∈ seen2)) as [Hx2|Hx2]; [|by apply H2].
  destruct (H1 x Hx2 Hx1) as [Hne Hc]. eauto.
Qed.

Lemma any_of_ok fuel u l seen :
  seen_ok seen →
  (∀ c s, c ∈ l → seen_ok s → seen ⊆ s →
     ∃ r, existsPath_impl fuel h v c s = Ok r ∧ search_ok c s r) →
  (∀ c, c ∈ l → edge h u c) →
  ∃ r, any_of (existsPath_impl fuel h v) l seen = Ok r ∧ seen_ok r.2 ∧ seen ⊆ r.2 ∧
    if r.1 then rtc (edge h) u v else (∀ c, c ∈ l → c ∈ r.2) ∧ explored seen r.2.
Proof.
  intros Hs Hf Hl. revert seen Hs Hf. induction l as [|c l IH]; intros seen Hs Hf; simpl.
  - exists (false, seen). split; [done|]. split; [done|]. split; [done|]. simpl.
    split; [by intros ? ?%elem_of_nil|done].
  - destruct (Hf c seen) as ([b s] & -> & Hs' & Hsub & Hr); [left|done..|]. simpl in *.
    destruct b.
    + exists (true, s). split; [done|]. split; [done|]. split; [done|]. simpl.
      apply rtc_l with c; [apply Hl; left|done].
    + destruct Hr as [Hc He].
      destruct (IH (λ c H, Hl c (list_elem_of_further _ _ _ H)) s Hs')
        as ([b s'] & -> & Hs'' & Hsub' & Hr).
      { intros c' s' ? ? ?. apply Hf; [by right|done|]. by etrans. }
      exists (b, s'). simpl in *. split; [done|]. split; [done|]. split; [by etrans|].
      destruct b; [done|]. destruct Hr as [Hall He']. split.
      * intros c' [->|?]%elem_of_cons; [by apply Hsub'|by apply Hall].
      * apply (explored_trans seen s s'); [exact Hsub'|exact He|exact He'].
Qed.

Lemma existsPath_impl_ok fuel u seen :
  present h u → seen_ok seen → size (nodes h) < fuel + length seen →
  ∃ r, existsPath_impl fuel h v u seen = Ok r ∧ search_ok u seen r.
Proof.
  revert u seen. induction fuel as [|fuel IH]; intros u seen Hp Hs Hfuel; simpl.
  { pose proof (seen_bounded seen Hs). lia. }
  destruct (Nat.eqb_spec u v) as [->|Hne].
  { exists (true, seen). split; [done|]. split; [done|]. split; [done|]. apply rtc_refl. }
  destruct (set_insert_cases seen u (proj1 Hs)) as [(Hu & i & ->)|(Hu & i & ->)]; simpl.
  { exists (false, seen). split; [done|]. split; [done|]. split; [done|]. split; [done|].
    by intros x ? ?. }
  assert (seen_ok (ins seen u)) as Hs'.
  { split; [apply ins_wf, Hs|]. intros x. rewrite elem_of_ins by apply Hs.
    intros [->|?]; [done|by apply Hs]. }
  assert (seen ⊆ ins seen u) as Hsub.
  { intros x ?. rewrite elem_of_ins by apply Hs. by right. }
  destruct (any_of_ok fuel u (children (node h u)) (ins seen u) Hs')
    as ([b s] & -> & Hsk & Hsub' & Hr); [|done|].
  { intros c s Hc Hs2 Hsub2. apply IH; [by eapply edge_present_r|done|].
    assert (length (ins seen u) ≤ length s).
    { apply submseteq_length, NoDup_submseteq; [by apply wf_set_NoDup, Hs'|apply Hsub2]. }
    rewrite length_ins in *; [lia|apply Hs|done]. }
  exists (b, s). split; [done|]. simpl in *.
  split; [done|]. split; [by etrans|].
  destruct b; simpl; [done|]. destruct Hr as [Hall He]. split.
  + apply Hsub'. rewrite elem_of_ins by apply Hs. by left.
  + intros x Hx Hx0. destruct (decide (x = u)) as [->|].
    * split; [done|]. intros y Hy. by apply Hall.
    * apply He; [done|]. rewrite elem_of_ins by apply Hs. naive_solver.
Qed.
End Reach.

Lemma existsPath_spec h u v :
  wf_graph h → ∃ b, existsPath h u v = Ok b ∧ (b = true ↔ rtc (edge h) u v).
Proof.
  intros Hw. unfold existsPath, graphFuel.
  destruct (decide (present h u)) as [Hp|Hp].
  - destruct (existsPath_impl_ok h Hw v (S (S (size (nodes h)))) u [])
      as ([b s] & -> & Hs & _ & Hr); [done| |simpl; lia|].
    { split; [apply nil_wf|]. by intros x ?%elem_of_nil. }
    exists b. simpl in *. split; [done|]. destruct b; [done|].
    destruct Hr as [Hu He]. split; [done|]. intros Hr. exfalso.
    assert (v ∈ s) as Hv.
    { clear Hp. induction Hr as [|x y z Hxy Hyz IH]; [done|]. apply IH; [|done].
      apply (He x Hu); [|done]. by intros ?%elem_of_nil. }
    destruct (He v Hv) as [[] _]; [|done]. by intros ?%elem_of_nil.
  - simpl. destruct (Nat.eqb_spec u v) as [->|Hne].
    + exists true. split; [done|]. split; [|done]. intros _. apply rtc_refl.
    + rewrite (node_absent h u Hp). exists false. split; [done|]. split; [done|].
      intros Hr. inversion Hr as [|? y ? Hy]; [done|]. destruct Hp. by eapply edge_present.
Qed.

(** A path as a list of nodes. *)
Inductive gpath (h : Heap) (v : nat) : nat → list nat → Prop :=
  | gpath_one : gpath h v v [v]
  | gpath_cons u c p : edge h u c → gpath h v c p → gpath h v u (u :: p).

Lemma gpath_rtc h u v p : gpath h v u p → rtc (edge h) u v.
Proof. induction 1; [apply rtc_refl|by eapply rtc_l]. Qed.

(** Every path from [u] ends. *)
Definition finishes (h : Heap) : nat → Prop := Acc (λ c p, edge h p c).

Lemma finishes_rtc h u x : finishes h u → rtc (edge h) u x → finishes h x.
Proof. intros Hf Hr. induction Hr as [|x y z Hxy Hyz IH]; [done|]. by apply IH, Hf. Qed.

Lemma finishes_no_cycle h u : finishes h u → ¬ tc (edge h) u u.
Proof.
  induction 1 as [u _ IH]. intros Ht.
  assert (∃ y, edge h u y ∧ rtc (edge h) y u) as (y & Hy & Hr).
  { inversion Ht as [? ? H|? y ? H Hr]; subst.
    - exists u. split; [done|apply rtc_refl].
    - exists y. split; [done|by apply tc_rtc]. }
  apply (IH y Hy). apply tc_rtc_l with u; [done|by apply tc_once].
Qed.

(** [trail]: different nodes from which the current one is reached.  As they
    have children, they are no more than the nodes of the graph. *)
Definition trail_ok (h : Heap) (trail : list nat) (u : nat) : Prop :=
  NoDup trail ∧ ∀ x, x ∈ trail → tc (edge h) x u.

Lemma trail_nil h u : trail_ok h [] u.
Proof. split; [constructor|]. by intros x ?%elem_of_nil. Qed.

Lemma trail_bounded h trail u : trail_ok h trail u → length trail ≤ size (nodes h).
Proof.
  intros [Hn Ht]. rewrite <-size_dom, <-(size_list_to_set (C := gset nat) trail Hn).
  apply subseteq_size. intros x. rewrite elem_of_list_to_set, elem_of_dom. intros Hx.
  destruct (Ht x Hx); by eapply edge_present.
Qed.

Lemma trail_step h trail u c :
  trail_ok h trail u → u ∉ trail → edge h u c → trail_ok h (u :: trail) c.
Proof.
  intros [Hn Ht] Hu He. split; [by constructor|].
  intros x [->|Hx]%elem_of_cons; [by apply tc_once|].
  eapply tc_r; [by apply Ht|done].
Qed.

Lemma trail_fresh h trail u : trail_ok h trail u → finishes h u → u ∉ trail.
Proof. intros [_ Ht] Hf Hu. by apply (finishes_no_cycle h u Hf), Ht. Qed.

Lemma no_cycle_finishes h u :
  (∀ x, rtc (edge h) u x → ¬ tc (edge h) x x) → finishes h u.
Proof.
  intros Hc. assert (∀ n trail u, trail_ok h trail u → size (nodes h) < n + length trail →
    (∀ x, rtc (edge h) u x → ¬ tc (edge h) x x) → finishes h u) as H.
  { clear. induction n as [|n IH]; intros trail u Ht Hn Hc.
    { pose proof (trail_bounded h trail u Ht). lia. }
    constructor. intros c Hu.
    assert (u ∉ trail).
    { intros Hx. apply (Hc u); [apply rtc_refl|]. by apply Ht. }
    apply (IH (u :: trail)); [by apply trail_step|simpl; lia|].
    intros x Hx. apply Hc. by eapply rtc_l. }
  by apply (H (S (size (nodes h))) [] u); [apply trail_nil|simpl; lia|].
Qed.

Lemma firstPath_ok f h v l :
  (∀ c, c ∈ l → ∃ r, f c = Ok r ∧
     match r with Some p => gpath h v c p | None => ¬ rtc (edge h) c v end) →
  ∃ r, firstPath f l = Ok r ∧
     match r with
     | Some p => ∃ c, c ∈ l ∧ gpath h v c p
     | None => ∀ c, c ∈ l → ¬ rtc (edge h) c v
     end.
Proof.
  induction l as [|c l IH]; intros Hf; simpl.
  - exists None. split; [done|]. by intros ? ?%elem_of_nil.
  - destruct (Hf c) as (r & -> & Hr); [left|]. simpl. destruct r as [p|].
    + exists (Some p). split; [done|]. exists c. split; [left|done].
    + destruct IH as (r & -> & Hr'). { intros c' ?. apply Hf. by right. }
      exists r. split; [done|]. destruct r as [p|].
      * destruct Hr' as (c' & ? & ?). exists c'. split; [by right|done].
      * intros c' [->|?]%elem_of_cons; auto.
Qed.

Lemma findPath_finishes h v fuel trail u :
  finishes h u → trail_ok h trail u → size (nodes h) < fuel + length trail →
  ∃ r, findPath fuel h v u = Ok r ∧
    match r with Some p => gpath h v u p | None => ¬ rtc (edge h) u v end.
Proof.
  revert trail u. induction fuel as [|fuel IH]; intros trail u Hf Ht Hn; simpl.
  { pose proof (trail_bounded h trail u Ht). lia. }
  destruct (Nat.eqb_spec u v) as [->|Hne]; [exists (Some [v]); split; [done|constructor]|].
  destruct (firstPath_ok (findPath fuel h v) h v (children (node h u))) as (r & -> & Hr).
  { intros c Hc. apply (IH (u :: trail)); [by apply Hf| |simpl; lia].
    apply trail_step; [done| |done]. by apply (trail_fresh h _ u). }
  exists (cons u <$> r). split; [done|]. destruct r as [p|]; simpl.
  - destruct Hr as (c & Hc & Hp). by apply (gpath_cons h v u c p).
  - intros Hr'. inversion Hr' as [|? y ? Hy Hyv]; [done|]. by apply (Hr y).
Qed.

Lemma acyclic_mono h h' : (∀ x y, edge h' x y → edge h x y) → acyclic h → acyclic h'.
Proof.
  intros Hs Ha x Hx. apply (Ha x).
  assert (∀ y z, tc (edge h') y z → tc (edge h) y z) as Ht; [|by apply Ht].
  induction 1 as [y z Hyz|y w z Hyw _ IH]; [by apply tc_once, Hs|].
  apply tc_l with w; [by apply Hs|done].
Qed.

(** ** [connect] *)

(** The artifact [child] is in the way of [ac] among the children of a node. *)
Definition conflicting (h : Heap) (child ac : nat) : Prop :=
  ∃ x a, as_artifact h child = Some x ∧ as_artifact h ac = Some a ∧ filePath x = filePath a ∧
    (artifactType x = Generated ∨ productOf h child = productOf h ac
     ∨ artifactType x ≠ artifactType a).

Lemma isArtifact_Some h u : isArtifact h u = true ↔ is_Some (as_artifact h u).
Proof. unfold isArtifact, is_Some. destruct (as_artifact h u); naive_solver. Qed.

Lemma elem_of_artifacts_of h s a : a ∈ artifacts_of h s ↔ a ∈ s ∧ is_Some (as_artifact h a).
Proof.
  unfold artifacts_of. rewrite !list_elem_of_In, List.filter_In. unfold isArtifact.
  destruct (as_artifact h a); [naive_solver|]. split; [naive_solver|].
  intros [_ [? ?]]. done.
Qed.

Lemma childConflicts_cases h p ac a l :
  as_artifact h ac = Some a →
  (∀ c, c ∈ l → is_Some (as_artifact h c)) →
  match childConflicts h p ac a l with
  | Ok found => (found = true ↔ ac ∈ l) ∧
      (found = false → ∀ child, child ∈ l → ¬ conflicting h child ac)
  | Throw e => e = ChildConflict p (filePath a) ∧
      ∃ child, child ∈ l ∧ child ≠ ac ∧ conflicting h child ac
  end.
Proof.
  intros Ha. induction l as [|c l IH]; intros Hl; simpl.
  { split; [|by intros _ ? ?%elem_of_nil]. split; [done|by intros ?%elem_of_nil]. }
  destruct (Nat.eqb_spec c ac) as [->|Hne]; [split; [|done]; split; [by left|done]|].
  destruct (Hl c) as [x Hx]; [left|]. rewrite Hx.
  specialize (IH (λ y H, Hl y (list_elem_of_further _ _ _ H))).
  destruct (_ && _) eqn:E.
  - apply andb_prop in E as [E1 E2%bool_decide_eq_true_1]. split; [done|].
    exists c. split; [left|]. split; [done|]. exists x, a. split_and!; [done..|].
    rewrite !orb_true_iff, !bool_decide_eq_true in E1. tauto.
  - destruct (childConflicts h p ac a l) as [found|e].
    + destruct IH as [IH1 IH2]. split; [rewrite elem_of_cons; naive_solver|].
      intros -> child [->|Hc]%elem_of_cons; [|by apply IH2].
      intros (x' & a' & Hx' & Ha' & Hp & Hd). simplify_eq.
      rewrite (bool_decide_eq_true_2 _ Hp), andb_true_r in E.
      rewrite !orb_false_iff, !bool_decide_eq_false in E. tauto.
    + destruct IH as (-> & child & Hc & ? & ?). split; [done|]. exists child.
      split; [by right|done].
Qed.

(** Which outcome [connect] has, and what it does to the graph. *)
Definition connect_outcome (p c : nat) (h : Heap) (r : exn BGError Heap) : Prop :=
  match r with
  | Ok h' =>
      wf_graph h' ∧ (∀ u v, edge h' u v ↔ edge h u v ∨ (u = p ∧ v = c)) ∧
      ((h' = h ∧ edge h p c ∧ isArtifact h c = true) ∨
       (h' = set_isDirty true (addEdge p c h) ∧
        ∀ child, edge h p child → ¬ conflicting h child c))
  | Throw e =>
      ∃ child path, e = ChildConflict p path ∧ edge h p child ∧ child ≠ c ∧
        conflicting h child c
  end.

Lemma connect_spec p c h :
  wf_graph h → present h p → present h c → is_Some (productOf h p) → p ≠ c →
  connect_outcome p c h (connect p c h).
Proof.
  intros Hw Hp Hc [q Hq] Hne. unfold connect, QBS_CHECK.
  destruct (Nat.eqb_spec p c) as [|_]; [done|]. simpl.
  assert (same_edges (addEdge p c h) (set_isDirty true (addEdge p c h))) as Hd by auto with graph.
  assert (∀ u v, edge (set_isDirty true (addEdge p c h)) u v ↔ edge h u v ∨ u = p ∧ v = c) as He.
  { intros u v. rewrite <-edge_addEdge by done. symmetry. by apply edge_proper. }
  assert (wf_graph (set_isDirty true (addEdge p c h))) as Hw'.
  { eapply wf_graph_proper; [symmetry; exact Hd|]. by apply addEdge_wf. }
  destruct (as_artifact h c) as [a|] eqn:Ha; simpl.
  - pose proof (childConflicts_cases h p c a (artifacts_of h (children (node h p))) Ha) as H.
    destruct (childConflicts _ _ _ _ _) as [[]|e]; simpl.
    + destruct H as [[H _] _]; [by intros ? [_ ?]%elem_of_artifacts_of|].
      apply elem_of_artifacts_of in H as [H _]; [|done].
      split; [done|]. split; [intros u v; unfold edge; naive_solver|].
      left. split_and!; [done..|]. unfold isArtifact. by rewrite Ha.
    + destruct H as [_ H]; [by intros ? [_ ?]%elem_of_artifacts_of|]. rewrite Hq.
      split; [done|]. split; [done|]. right. split; [done|].
      intros child Hch Hcf. apply (H eq_refl child); [|done].
      apply elem_of_artifacts_of. split; [done|]. destruct Hcf as (x & ? & Hx & _). eauto.
    + destruct H as (-> & child & [Hch _]%elem_of_artifacts_of & Hcn & Hcf);
        [by intros ? [_ ?]%elem_of_artifacts_of|]. by exists child, (filePath a).
  - rewrite Hq. split; [done|]. split; [done|]. right. split; [done|].
    intros child _ (x & ac & _ & Hac & _). congruence.
Qed.

(** An edge from [u] to a node that does not reach [u] closes no cycle. *)
Lemma acyclic_add_edge h h' u v :
  acyclic h → ¬ rtc (edge h) v u →
  (∀ x y, edge h' x y ↔ edge h x y ∨ (x = u ∧ y = v)) → acyclic h'.
Proof.
  intros Ha Hv He.
  assert (∀ x y, rtc (edge h') x y → rtc (edge h) x y ∨ (rtc (edge h) x u ∧ rtc (edge h) v y))
    as Hr.
  { intros x y. induction 1 as [x|x y z Hxy _ IH]; [left; apply rtc_refl|].
    apply He in Hxy as [Hxy|[-> ->]].
    - destruct IH as [IH|[IH1 IH2]]; [left|right; split; [|done]]; by eapply rtc_l.
    - right. split; [apply rtc_refl|]. by destruct IH as [IH|[IH1 IH2]]. }
  intros x Hx. assert (∃ y, edge h' x y ∧ rtc (edge h') y x) as (y & Hy & Hyx).
  { inversion Hx as [? ? H|? y ? H Ht]; subst.
    - exists x. split; [done|apply rtc_refl].
    - exists y. split; [done|by apply tc_rtc]. }
  apply He in Hy as [Hy|[-> ->]].
  - apply Hr in Hyx as [Hyx|[Hyu Hvx]].
    + apply (Ha x). by eapply tc_rtc_r; [apply tc_once|].
    + apply Hv. etrans; [exact Hvx|]. by eapply rtc_l.
  - apply Hv. apply Hr in Hyx as [?|[? ?]]; done.
Qed.

(** ** The artifacts of the heap *)

Lemma as_artifact_upd_other f u h x :
  (∀ n, node_data (f n) = node_data n) → as_artifact (upd_node f u h) x = as_artifact h x.
Proof.
  intros Hf. unfold as_artifact, upd_node. simpl. destruct (decide (u = x)) as [->|Hne].
  - rewrite lookup_alter_eq. destruct (nodes h !! x); simpl; [by rewrite Hf|done].
  - by rewrite lookup_alter_ne.
Qed.

Lemma as_artifact_upd f u h x :
  as_artifact (upd_node (upd_artifact f) u h) x =
    if decide (u = x) then f <$> as_artifact h x else as_artifact h x.
Proof.
  unfold as_artifact, upd_node. simpl. case_decide as E.
  - rewrite E, lookup_alter_eq. destruct (nodes h !! x) as [n|]; simpl; [|done].
    by destruct (node_data n).
  - by rewrite lookup_alter_ne.
Qed.

Lemma as_ruleNode_upd_other f u h x :
  (∀ n, node_data (f n) = node_data n) → as_ruleNode (upd_node f u h) x = as_ruleNode h x.
Proof.
  intros Hf. unfold as_ruleNode, upd_node. simpl. destruct (decide (u = x)) as [->|Hne].
  - rewrite lookup_alter_eq. destruct (nodes h !! x); simpl; [by rewrite Hf|done].
  - by rewrite lookup_alter_ne.
Qed.

Lemma as_ruleNode_upd_artifact f u h x :
  as_ruleNode (upd_node (upd_artifact f) u h) x = as_ruleNode h x.
Proof.
  unfold as_ruleNode, upd_node. simpl. destruct (decide (u = x)) as [->|Hne].
  - rewrite lookup_alter_eq. destruct (nodes h !! x) as [n|]; simpl; [|done].
    by destruct (node_data n).
  - by rewrite lookup_alter_ne.
Qed.

Lemma as_ruleNode_upd f u h x :
  as_ruleNode (upd_node (upd_ruleNode f) u h) x =
    if decide (u = x) then f <$> as_ruleNode h x else as_ruleNode h x.
Proof.
  unfold as_ruleNode, upd_node. simpl. case_decide as E.
  - rewrite E, lookup_alter_eq. destruct (nodes h !! x) as [n|]; simpl; [|done].
    by destruct (node_data n).
  - by rewrite lookup_alter_ne.
Qed.

Lemma elem_of_ruleNodes_of h1 s u : u ∈ ruleNodes_of h1 s ↔ u ∈ s ∧ is_Some (as_ruleNode h1 u).
Proof.
  unfold ruleNodes_of. rewrite !list_elem_of_In, List.filter_In. unfold isRuleNode.
  destruct (as_ruleNode h1 u); [naive_solver|]. split; [naive_solver|]. by intros [_ [? ?]].
Qed.

Lemma as_artifact_foldl_other f l h x :
  (∀ n, node_data (f n) = node_data n) →
  as_artifact (foldl (λ h p, upd_node f p h) h l) x = as_artifact h x.
Proof.
  intros Hf. revert h. induction l as [|p l IH]; intros h; simpl; [done|].
  by rewrite IH, as_artifact_upd_other.
Qed.

Lemma as_artifact_foldl f l h x :
  NoDup l →
  as_artifact (foldl (λ h p, upd_node (upd_artifact f) p h) h l) x =
    if decide (x ∈ l) then f <$> as_artifact h x else as_artifact h x.
Proof.
  intros Hn. revert h. induction Hn as [|p l Hp Hn IH]; intros h; cbn [foldl].
  { case_decide as E; [by apply elem_of_nil in E|done]. }
  rewrite IH, as_artifact_upd. destruct (decide (p = x)) as [->|Hne].
  - rewrite (decide_False _ _ Hp), decide_True; [done|left].
  - destruct (decide (x ∈ l)) as [Hx|Hx].
    + rewrite decide_True; [done|by right].
    + rewrite decide_False; [done|]. rewrite elem_of_cons. naive_solver.
Qed.

Lemma artifacts_of_NoDup h s : NoDup s → NoDup (artifacts_of h s).
Proof. rewrite !NoDup_ListNoDup. apply List.NoDup_filter. Qed.

Lemma as_artifact_present h u x : as_artifact h u = Some x → present h u.
Proof. unfold as_artifact, present. destruct (nodes h !! u); [by eexists|done]. Qed.

(** The children that the scanner has added are children, and artifacts. *)
Definition scanner_ok (h : Heap) : Prop :=
  ∀ p x, as_artifact h p = Some x →
    wf_set (childrenAddedByScanner x) ∧
    ∀ c, c ∈ childrenAddedByScanner x → edge h p c ∧ isArtifact h c = true.

(** ** Changes of many nodes *)

Lemma foldl_upd_field {A} (field : Node → A) f l h x :
  (∀ n, field (f n) = field n) →
  field (node (foldl (λ h p, upd_node f p h) h l) x) = field (node h x).
Proof.
  intros Hf. revert h. induction l as [|p l IH]; intros h; simpl; [done|].
  by rewrite IH, node_upd_field.
Qed.

Lemma foldl_upd_change {A} (field : Node → A) (g : A → A) f l h x :
  NoDup l → (∀ n, field (f n) = g (field n)) → g (field emptyNode) = field emptyNode →
  field (node (foldl (λ h p, upd_node f p h) h l) x) =
    if decide (x ∈ l) then g (field (node h x)) else field (node h x).
Proof.
  intros Hn Hf Hg. revert h. induction Hn as [|p l Hp Hn IH]; intros h; cbn [foldl].
  { case_decide as E; [by apply elem_of_nil in E|done]. }
  rewrite IH, (node_upd_change field g) by auto.
  destruct (decide (p = x)) as [->|Hne].
  - rewrite (decide_False _ _ Hp). rewrite decide_True; [done|left].
  - destruct (decide (x ∈ l)) as [Hx|Hx].
    + rewrite decide_True; [done|by right].
    + rewrite decide_False; [done|]. rewrite elem_of_cons. naive_solver.
Qed.

(** ** Deleting a node *)

(** [h'] is [h] without the edges of [u]. *)
Definition isolated (u : nat) (h h' : Heap) : Prop :=
  wf_graph h' ∧ ∀ x y, edge h' x y ↔ edge h x y ∧ x ≠ u ∧ y ≠ u.

Lemma isolated_sets u h h' :
  wf_graph h →
  (∀ x, children (node h' x) = if decide (x = u) then [] else
     if decide (x ∈ parents (node h u)) then del (children (node h x)) u
     else children (node h x)) →
  (∀ x, parents (node h' x) = if decide (x = u) then [] else
     if decide (x ∈ children (node h u)) then del (parents (node h x)) u
     else parents (node h x)) →
  isolated u h h'.
Proof.
  intros Hw Hc Hp.
  assert (∀ x y, edge h' x y ↔ edge h x y ∧ x ≠ u ∧ y ≠ u) as He.
  { intros x y. unfold edge. rewrite Hc. case_decide as E; [rewrite elem_of_nil; naive_solver|].
    case_decide as E'.
    - rewrite elem_of_del by apply Hw. naive_solver.
    - split; [|naive_solver]. intros Hy. split_and!; [done..|]. intros ->.
      apply E'. by apply (wf_edges h Hw). }
  split; [|done]. split.
  - intros x. rewrite Hc. repeat case_decide; auto using wf_children with graph.
  - intros x. rewrite Hp. repeat case_decide; auto using wf_parents with graph.
  - intros x y. rewrite He, Hp. case_decide as E; [rewrite elem_of_nil; naive_solver|].
    case_decide as E'.
    + rewrite elem_of_del, (wf_edges h Hw) by apply Hw. naive_solver.
    + rewrite (wf_edges h Hw). split; [naive_solver|]. intros Hx. split_and!; [done| |done].
      intros ->. apply E'. by apply (wf_edges h Hw).
  - intros x. rewrite He. pose proof (wf_irrefl h Hw x). naive_solver.
Qed.

Lemma node_delete u h x :
  node (set_nodes (delete u) h) x = if decide (x = u) then emptyNode else node h x.
Proof.
  unfold node. simpl. case_decide as E; [by rewrite E, lookup_delete_eq|].
  by rewrite lookup_delete_ne.
Qed.

Lemma destroyNode_isolated u h : wf_graph h → isolated u h (destroyNode u h).
Proof.
  intros Hw. unfold destroyNode. apply isolated_sets; [done|..]; intros x; rewrite node_delete.
  - case_decide; [done|]. rewrite (foldl_upd_field children) by done.
    by rewrite (foldl_upd_change children (λ s, del s u)) by (done || by apply wf_set_NoDup, Hw).
  - case_decide; [done|].
    rewrite (foldl_upd_change parents (λ s, del s u)) by (done || by apply wf_set_NoDup, Hw).
    by rewrite (foldl_upd_field parents).
Qed.

(** ** A decision procedure for the invariant *)

Definition check_node (h : Heap) (un : nat * Node) : bool :=
  let '(u, n) := un in
  bool_decide (Sorted Nat.lt (children n)) && bool_decide (Sorted Nat.lt (parents n))
  && forallb (λ v, bool_decide (u ∈ parents (node h v))) (children n)
  && forallb (λ v, bool_decide (u ∈ children (node h v))) (parents n)
  && bool_decide (u ∉ children n).

Definition check_graph (h : Heap) : bool := forallb (check_node h) (map_to_list (nodes h)).

Lemma check_graph_ok h : check_graph h = true → wf_graph h.
Proof.
  unfold check_graph. rewrite forallb_forall. intros H.
  assert (∀ u n, nodes h !! u = Some n → check_node h (u, n) = true) as Hc.
  { intros u n Hu. apply H, list_elem_of_In. by apply elem_of_map_to_list. }
  clear H.
  assert (∀ u, wf_set (children (node h u)) ∧ wf_set (parents (node h u)) ∧
    (∀ v, v ∈ children (node h u) → u ∈ parents (node h v)) ∧
    (∀ v, v ∈ parents (node h u) → u ∈ children (node h v)) ∧ u ∉ children (node h u)) as Hn.
  { intros u. destruct (nodes h !! u) as [n|] eqn:Hu.
    - specialize (Hc u n Hu). unfold check_node in Hc.
      repeat (apply andb_prop in Hc as [Hc ?]).
      unfold node at 1 2 3 5 7. rewrite Hu. simpl.
      rewrite forallb_forall in *.
      assert (∀ l (P : nat → bool), (∀ v, In v l → P v = true) → ∀ v, v ∈ l → P v = true) as Hin.
      { intros l P HP v Hv. apply HP. by apply list_elem_of_In. }
      split_and!; [by apply ssorted_nat_check..| | |by eapply bool_decide_eq_true_1].
      + intros v Hv. apply (Hin _ _ H1) in Hv. by apply bool_decide_eq_true_1 in Hv.
      + intros v Hv. apply (Hin _ _ H0) in Hv. by apply bool_decide_eq_true_1 in Hv.
    - rewrite (node_absent h u) by (intros [? ?]; congruence). simpl.
      split_and!; auto with graph; by intros ? ?%elem_of_nil || by intros ?%elem_of_nil. }
  split; intros u; destruct (Hn u) as (? & ? & H1 & H2 & ?); [done..| |done].
  intros v. split; [apply H1|]. intros Hu. by apply (Hn v).
Qed.

(** A graph whose edges go to smaller numbers has no cycle. *)
Definition check_order (h : Heap) : bool :=
  forallb (λ '(u, n), forallb (λ v, v <? u) (children n)) (map_to_list (nodes h)).

Lemma check_order_edge h u v : check_order h = true → edge h u v → v < u.
Proof.
  intros H He. destruct (edge_present _ _ _ He) as [n Hn]. revert He.
  unfold edge, node. rewrite Hn. simpl. intros Hv.
  unfold check_order in H. rewrite forallb_forall in H.
  specialize (H (u, n)). simpl in H. rewrite forallb_forall in H.
  apply Nat.ltb_lt, H; [|by apply list_elem_of_In].
  apply list_elem_of_In. by apply elem_of_map_to_list.
Qed.

Lemma check_order_acyclic h : check_order h = true → acyclic h.
Proof.
  intros H. assert (∀ u v, tc (edge h) u v → v < u) as Ht.
  { intros u v. induction 1 as [u v He|u w v He _ IH]; [by apply (check_order_edge h)|].
    apply (check_order_edge h) in He; [lia|done]. }
  intros u Hu%Ht. lia.
Qed.

(** ** The properties *)

(** No artifact has two different children for one file, except source files
    of different products: what the sanity check of the graph demands. *)
Definition distinct_children (h : Heap) (p : nat) : Prop :=
  ∀ a b x y, edge h p a → edge h p b → a ≠ b →
    as_artifact h a = Some x → as_artifact h b = Some y → filePath x = filePath y →
    artifactType x = SourceFile ∧ artifactType y = SourceFile ∧ productOf h a ≠ productOf h b.

Lemma productOf_addEdge p c h x : productOf (addEdge p c h) x = productOf h x.
Proof. unfold productOf, addEdge. by rewrite !(node_upd_field product). Qed.

Lemma as_artifact_addEdge p c h x : as_artifact (addEdge p c h) x = as_artifact h x.
Proof. unfold addEdge. by rewrite !as_artifact_upd_other. Qed.

Lemma not_conflicting h a c x y :
  as_artifact h a = Some x → as_artifact h c = Some y → filePath x = filePath y →
  artifactType x ≠ Unknown → ¬ conflicting h a c →
  artifactType x = SourceFile ∧ artifactType y = SourceFile ∧ productOf h a ≠ productOf h c.
Proof.
  intros Hx Hy Hp Hu Hn.
  destruct (decide (artifactType x = artifactType y)) as [Ht|Ht];
    [|destruct Hn; exists x, y; tauto].
  destruct (decide (productOf h a = productOf h c)) as [Hq|Hq];
    [destruct Hn; exists x, y; tauto|].
  destruct (artifactType x) eqn:E; [done|by rewrite <-Ht|]. destruct Hn. exists x, y. tauto.
Qed.

Lemma distinct_children_addEdge h p c :
  wf_graph h → present h p → (∀ a x, as_artifact h a = Some x → artifactType x ≠ Unknown) →
  distinct_children h p → (∀ child, edge h p child → ¬ conflicting h child c) →
  distinct_children (addEdge p c h) p.
Proof.
  intros Hw Hp Hk Hd Hn a b x y Ha Hb Hne. rewrite !as_artifact_addEdge, !productOf_addEdge.
  intros Hx Hy Hf. apply edge_addEdge in Ha, Hb; [|done..].
  destruct Ha as [Ha|[_ ->]], Hb as [Hb|[_ ->]]; [by eapply Hd| | |done].
  - eapply not_conflicting; eauto.
  - symmetry in Hf. destruct (not_conflicting h b c y x) as (? & ? & ?); eauto.
Qed.

(** The search for a path between two nodes terminates on every
    well-formed graph, cyclic or not, and answers whether there is one. *)
Theorem existsPath_correct h u v :
  wf_graph h → ∃ found, existsPath h u v = Ok found ∧ (found = true ↔ rtc (edge h) u v).
Proof. apply existsPath_spec. Qed.

(** Connecting two nodes throws only when they are the same node or when
    the child would be a second artifact for the file of another child; then
    the new edge is the only change of the relation, the sets of children and
    parents stay sorted and symmetric, and the children of the node are for
    different files as before. *)
Theorem connect_correct p c h :
  wf_graph h → present h p → present h c → is_Some (productOf h p) →
  (∀ a x, as_artifact h a = Some x → artifactType x ≠ Unknown) →
  distinct_children h p →
  match connect p c h with
  | Ok h' =>
      p ≠ c ∧ wf_graph h' ∧ (∀ u v, edge h' u v ↔ edge h u v ∨ (u = p ∧ v = c)) ∧
      distinct_children h' p ∧ (h' ≠ h → isDirty h' = true)
  | Throw e =>
      (p = c ∧ e = CheckFailed) ∨
      (p ≠ c ∧ ∃ child path, e = ChildConflict p path ∧ edge h p child ∧ child ≠ c ∧
         conflicting h child c)
  end.
Proof.
  intros Hw Hp Hc Hq Hk Hd. destruct (decide (p = c)) as [<-|Hne].
  { unfold connect, QBS_CHECK. rewrite Nat.eqb_refl. by left. }
  pose proof (connect_spec p c h Hw Hp Hc Hq Hne) as H.
  destruct (connect p c h) as [h'|e]; simpl in H; [|by right].
  destruct H as (Hw' & He & H). split; [done|]. split; [done|]. split; [done|].
  destruct H as [(-> & _)|[-> Hn]]; [done|]. split; [|done].
  by apply distinct_children_addEdge.
Qed.

Lemma safeConnect_spec u v h :
  wf_graph h → acyclic h → present h u → present h v → is_Some (productOf h u) → u ≠ v →
  match safeConnect u v h with
  | Ok (false, h') => h' = h ∧ rtc (edge h) v u
  | Ok (true, h') =>
      ¬ rtc (edge h) v u ∧ wf_graph h' ∧ acyclic h' ∧
      ∀ x y, edge h' x y ↔ edge h x y ∨ (x = u ∧ y = v)
  | Throw e =>
      ¬ rtc (edge h) v u ∧ ∃ child path, e = ChildConflict u path ∧ edge h u child ∧
        child ≠ v ∧ conflicting h child v
  end.
Proof.
  intros Hw Ha Hu Hv Hq Hne. unfold safeConnect, QBS_CHECK.
  destruct (Nat.eqb_spec u v) as [|_]; [done|]. cbn [negb exn_bind].
  destruct (existsPath_spec h v u Hw) as (found & -> & Hf). cbn [exn_bind].
  destruct found.
  - destruct (findPath_finishes h u (graphFuel h) [] v) as (r & -> & _).
    { apply no_cycle_finishes. intros x _. apply Ha. }
    { apply trail_nil. }
    { unfold graphFuel. simpl. lia. }
    simpl. split; [done|by apply Hf].
  - assert (¬ rtc (edge h) v u) as Hn by (intros H%Hf; done).
    pose proof (connect_spec u v h Hw Hu Hv Hq Hne) as H.
    destruct (connect u v h) as [h'|e]; simpl in *; [|done].
    destruct H as (Hw' & He & _). split; [done|]. split; [done|].
    split; [by apply (acyclic_add_edge h h' u v)|done].
Qed.

(** Connecting changes nothing but edges. *)
Lemma safeConnect_kept u v h b h' :
  safeConnect u v h = Ok (b, h') →
  transformers h' = transformers h ∧ products h' = products h ∧
  fileDependencies h' = fileDependencies h ∧ lookupTable h' = lookupTable h ∧
  (∀ x, as_artifact h' x = as_artifact h x) ∧ (∀ x, productOf h' x = productOf h x).
Proof.
  unfold safeConnect. destruct (QBS_CHECK _); cbn [exn_bind]; [|done].
  destruct (existsPath h v u) as [[]|]; cbn [exn_bind]; [| |done].
  { destruct (findPath _ h u v); cbn [exn_bind]; intros; by simplify_eq. }
  destruct (connect u v h) as [h1|] eqn:E; cbn [exn_bind]; intros; simplify_eq.
  unfold connect in E. destruct (QBS_CHECK _); cbn [exn_bind] in E; [|done].
  destruct (match as_artifact h v with Some _ => _ | None => _ end) as [[]|]; cbn [exn_bind] in E;
    simplify_eq; [done|]. destruct (productOf h u); simplify_eq. split_and!; [done..| |].
  - intros x. apply as_artifact_addEdge.
  - intros x. apply productOf_addEdge.
Qed.

(** C17: the safe form refuses exactly the edges that would close a cycle, and
    changes nothing then; otherwise it adds the edge, the graph stays acyclic,
    and the only error is the conflict of two children. *)
Theorem safeConnect_correct u v h :
  wf_graph h → acyclic h → present h u → present h v → is_Some (productOf h u) → u ≠ v →
  match safeConnect u v h with
  | Ok (false, h') => h' = h ∧ rtc (edge h) v u
  | Ok (true, h') =>
      ¬ rtc (edge h) v u ∧ wf_graph h' ∧ acyclic h' ∧
      ∀ x y, edge h' x y ↔ edge h x y ∨ (x = u ∧ y = v)
  | Throw e =>
      ¬ rtc (edge h) v u ∧ ∃ child path, e = ChildConflict u path ∧ edge h u child ∧
        child ≠ v ∧ conflicting h child v
  end.
Proof. apply safeConnect_spec. Qed.

Lemma as_artifact_disconnect u v h x :
  as_artifact (disconnect u v h) x =
    if decide (u = x ∧ isArtifact h v = true)
    then set_childrenAddedByScanner (λ s, del s v) <$> as_artifact h x
    else as_artifact h x.
Proof.
  unfold disconnect, onChildDisconnected. fold (removeEdge u v h).
  assert (∀ y, as_artifact (removeEdge u v h) y = as_artifact h y) as Hr.
  { intros y. unfold removeEdge. by rewrite !as_artifact_upd_other. }
  assert (isArtifact (removeEdge u v h) v = isArtifact h v) as ->.
  { unfold isArtifact. by rewrite Hr. }
  destruct (isArtifact h v).
  - rewrite as_artifact_upd, !Hr. repeat case_decide; tauto.
  - rewrite decide_False; [apply Hr|]. by intros [_ ?].
Qed.

Lemma isArtifact_ext h h' x :
  (is_Some (as_artifact h' x) ↔ is_Some (as_artifact h x)) → isArtifact h' x = isArtifact h x.
Proof.
  unfold isArtifact. destruct (as_artifact h' x), (as_artifact h x); intros [H1 H2]; try done.
  - by destruct H1.
  - by destruct H2.
Qed.

Lemma wf_disconnect u v h : wf_graph h → wf_graph (disconnect u v h).
Proof. intros Hw. rewrite <-disconnect_same_edges. by apply removeEdge_wf. Qed.

Lemma edge_disconnect u v h x y :
  wf_graph h → edge (disconnect u v h) x y ↔ edge h x y ∧ ¬ (x = u ∧ y = v).
Proof. intros Hw. rewrite <-disconnect_same_edges. by apply edge_removeEdge. Qed.

(** Disconnecting removes exactly the one edge, and the trace of the
    scanner with it, so that the scanned children stay children. *)
Theorem disconnect_correct u v h :
  wf_graph h → scanner_ok h →
  let h' := disconnect u v h in
  wf_graph h' ∧ scanner_ok h' ∧
  (∀ x y, edge h' x y ↔ edge h x y ∧ ¬ (x = u ∧ y = v)) ∧
  (acyclic h → acyclic h').
Proof.
  intros Hw Hs. simpl.
  pose proof (λ x y, edge_disconnect u v h x y Hw) as He.
  split; [by apply wf_disconnect|]. split; [|split; [done|]].
  - intros p x Hx.
    assert (∀ c, isArtifact (disconnect u v h) c = isArtifact h c) as Hi.
    { intros c. apply isArtifact_ext. rewrite as_artifact_disconnect.
      case_decide; [by rewrite fmap_is_Some|done]. }
    rewrite as_artifact_disconnect in Hx. case_decide as E.
    + destruct E as [<- Ha]. destruct (as_artifact h u) as [y|] eqn:Hy; simplify_eq/=.
      destruct (Hs u y Hy) as [Hsw Hsc]. split; [by apply del_wf|].
      intros c. rewrite elem_of_del by done. intros [[He' Hc]%Hsc Hne].
      rewrite He, Hi. split; [|done]. split; [done|]. naive_solver.
    + destruct (Hs p x Hx) as [Hsw Hsc]. split; [done|]. intros c [He' Hc]%Hsc.
      rewrite He, Hi. split; [|done]. split; [done|]. naive_solver.
  - apply acyclic_mono. intros x y. rewrite He. tauto.
Qed.

(** The node [u] is named nowhere in the graph. *)
Definition unreferenced (u : nat) (h : Heap) : Prop :=
  ¬ present h u ∧
  ∀ x, u ∉ children (node h x) ∧ u ∉ parents (node h x) ∧
    ∀ a, as_artifact h x = Some a → u ∉ childrenAddedByScanner a.


(** ** The properties at a concrete graph

    The application 3 is linked from the object file 2, which is compiled from
    the source file 1; the source file 4 is not connected; all belong to the
    product 9. *)

Definition exampleArtifact (path : string) (ty : ArtifactType) (ps cs sc : list nat) : Node :=
  mkNode ps cs (Some 9) (ArtifactNodeType (mkArtifact path 0 ty [] sc [] None [] 0)).

Definition exampleGraph : Heap :=
  mkHeap (list_to_map [(1, exampleArtifact "/src/main.cpp" SourceFile [2] [] []);
                       (2, exampleArtifact "/build/main.o" Generated [3] [1] [1]);
                       (3, exampleArtifact "/build/app" Generated [] [2] []);
                       (4, exampleArtifact "/src/main.h" SourceFile [] [] [])])
    ∅ ∅ ∅ ∅ ∅ false.

Lemma exampleGraph_wf : wf_graph exampleGraph.
Proof. apply check_graph_ok. vm_compute. reflexivity. Qed.

Lemma exampleGraph_present u : u ∈ [1; 2; 3; 4] → present exampleGraph u.
Proof. rewrite !elem_of_cons, elem_of_nil. intros [->|[->|[->|[->|[]]]]]; by eexists. Qed.

Lemma exampleGraph_acyclic : acyclic exampleGraph.
Proof. apply check_order_acyclic. by vm_compute. Qed.

Lemma exampleGraph_artifact u x :
  as_artifact exampleGraph u = Some x →
  artifactType x ≠ Unknown ∧ ∀ c, c ∈ childrenAddedByScanner x → u = 2 ∧ c = 1.
Proof.
  unfold as_artifact, exampleGraph. simpl. intros Hx.
  destruct (_ !! u) as [n|] eqn:Hn; [|done].
  rewrite !lookup_insert_Some, lookup_empty in Hn.
  destruct Hn as [[<- <-]|[_ [[<- <-]|[_ [[<- <-]|[_ [[<- <-]|[_ Hn]]]]]]]]; [..|done];
    simplify_eq/=; (split; [done|]); intros c; rewrite ?list_elem_of_singleton, ?elem_of_nil;
    naive_solver.
Qed.

Lemma exampleGraph_scanner : scanner_ok exampleGraph.
Proof.
  intros u x Hx. destruct (exampleGraph_artifact u x Hx) as [_ Hc]. split.
  - destruct (decide (u = 2)) as [->|Hne].
    + vm_compute in Hx. simplify_eq. by apply ssorted_nat_check.
    + destruct (childrenAddedByScanner x) as [|c l]; [apply nil_wf|].
      destruct (Hc c); [left|done].
  - intros c [-> ->]%Hc. split; [vm_compute; left|done].
Qed.

Lemma existsPath_correct_witness :
  existsPath exampleGraph 3 1 = Ok true ∧ rtc (edge exampleGraph) 3 1.
Proof.
  destruct (existsPath_correct exampleGraph 3 1 exampleGraph_wf) as (found & H & Hr).
  vm_compute in H. simplify_eq. split; [reflexivity|by apply Hr].
Defined.

Lemma connect_correct_witness :
  ∃ h', connect 2 4 exampleGraph = Ok h' ∧ wf_graph h' ∧ edge h' 2 4 ∧ distinct_children h' 2.
Proof.
  pose proof (connect_correct 2 4 exampleGraph exampleGraph_wf) as H.
  destruct (connect 2 4 exampleGraph) as [h'|e] eqn:E; [|by vm_compute in E].
  exists h'. destruct H as (_ & Hw & He & Hd & _).
  - apply exampleGraph_present. by do 1 right; left.
  - apply exampleGraph_present. by do 3 right; left.
  - by exists 9.
  - intros a x Hx. by apply (exampleGraph_artifact a x).
  - intros a b x y Ha Hb Hab. vm_compute in Ha, Hb.
    apply list_elem_of_singleton in Ha, Hb. congruence.
  - split_and!; [done|done| |done]. rewrite He. by right.
Defined.

Lemma safeConnect_correct_witness :
  safeConnect 1 3 exampleGraph = Ok (false, exampleGraph) ∧
  ∃ h', safeConnect 2 4 exampleGraph = Ok (true, h') ∧ acyclic h'.
Proof.
  split; [by vm_compute|].
  pose proof (safeConnect_correct 2 4 exampleGraph exampleGraph_wf exampleGraph_acyclic) as H.
  destruct (safeConnect 2 4 exampleGraph) as [[b h']|e] eqn:E; [|by vm_compute in E].
  exists h'. destruct b; [|by vm_compute in E]. split; [done|].
  destruct H as (_ & _ & Ha & _); [..|done].
  - apply exampleGraph_present. by do 1 right; left.
  - apply exampleGraph_present. by do 3 right; left.
  - by exists 9.
  - done.
Defined.

Lemma disconnect_correct_witness :
  let h' := disconnect 2 1 exampleGraph in wf_graph h' ∧ scanner_ok h'.
Proof.
  destruct (disconnect_correct 2 1 exampleGraph exampleGraph_wf exampleGraph_scanner)
    as (Hw & Hs & _). by split.
Defined.

