(* ===== verification/CycleDetectorCorrect.v ===== *)
(** * Correctness of the cycle detector

    The depth-first search ends, and throws exactly when a cycle can be
    reached; so does the search for the path that the error reports. *)

From S2P Require Import Prelude FlatSet BuildGraph BuildGraphCorrect CycleDetector.

(** ** The current path *)

(** [stack h stk u]: the nodes of [stk] are visited, the innermost first, and
    [u] is the child whose turn it is; the children before are finished. *)
Inductive stack (h : Heap) : list nat → nat → Prop :=
  | stack_nil u : stack h [] u
  | stack_cons s stk u done rest :
      children (node h s) = done ++ u :: rest → Forall (finishes h) done →
      stack h stk s → stack h (s :: stk) u.

Lemma stack_top h s stk u : stack h (s :: stk) u → edge h s u.
Proof.
  inversion 1 as [|? ? ? done rest Hc]; subst. unfold edge. rewrite Hc, elem_of_app. right. left.
Qed.

Lemma stack_tc h stk u x : stack h stk u → x ∈ stk → tc (edge h) x u.
Proof.
  induction 1 as [|s stk u dn rest Hc Hf Hs IH]; [by intros ?%elem_of_nil|].
  assert (edge h s u) as He. { unfold edge. rewrite Hc, elem_of_app. right. left. }
  intros [->|Hx]%elem_of_cons; [by apply tc_once|]. eapply tc_r; [by apply IH|done].
Qed.

(** [m_parent] is the innermost node or was visited below a finished child of it. *)
Definition parent_ok (h : Heap) (stk : list nat) (parent : nat) (u : nat) : Prop :=
  match stk with
  | [] => True
  | s :: _ => ∃ done rest, children (node h s) = done ++ u :: rest ∧ Forall (finishes h) done ∧
      (parent = s ∨ ∃ d, d ∈ done ∧ rtc (edge h) d parent)
  end.

(** [firstPath] over finished children, then over one more. *)
Lemma firstPath_app f h v done c rest :
  (∀ d, d ∈ done → ∃ r, f d = Ok r ∧
     match r with Some p => gpath h v d p | None => ¬ rtc (edge h) d v end) →
  (∃ p, f c = Ok (Some p) ∧ gpath h v c p) ∨ (∃ d, d ∈ done ∧ rtc (edge h) d v) →
  ∃ c' p, c' ∈ done ++ c :: rest ∧ firstPath f (done ++ c :: rest) = Ok (Some p) ∧ gpath h v c' p.
Proof.
  induction done as [|d done IH]; intros Hd Hc; simpl.
  - destruct Hc as [(p & -> & Hp)|(d & Hin & _)]; [|by apply elem_of_nil in Hin].
    exists c, p. split_and!; [left|done..].
  - destruct (Hd d) as (r & -> & Hr); [left|]. simpl. destruct r as [p|].
    { exists d, p. split_and!; [left|done..]. }
    destruct IH as (c' & p & Hin & Hp & Hg).
    + intros d' Hd'. apply Hd. by right.
    + destruct Hc as [Hc|(d' & [->|Hin]%elem_of_cons & Hr')]; [by left|done|].
      right. by exists d'.
    + exists c', p. split_and!; [by right|done..].
Qed.

Section Report.
Variable h : Heap.
Variable parent : nat.

(** From a node of the path whose turn is [c], the search finds [parent] when it
    does from [c] or from a finished child. *)
Lemma findPath_through s c done rest trail fuel :
  children (node h s) = done ++ c :: rest → Forall (finishes h) done →
  trail_ok h trail s → s ∉ trail → size (nodes h) < S fuel + length trail →
  (∃ p, findPath fuel h parent c = Ok (Some p) ∧ gpath h parent c p) ∨
    (∃ d, d ∈ done ∧ rtc (edge h) d parent) →
  ∃ p, findPath (S fuel) h parent s = Ok (Some p) ∧ gpath h parent s p.
Proof.
  intros Hc Hf Ht Hs Hn Hp. simpl.
  destruct (Nat.eqb_spec s parent) as [->|Hne].
  { exists [parent]. split; [done|constructor]. }
  rewrite Hc. destruct (firstPath_app (findPath fuel h parent) h parent done c rest)
    as (c' & p & Hin & -> & Hg); [|done|].
  - intros d Hd. apply (findPath_finishes h parent fuel (s :: trail)); [| |simpl; lia].
    + rewrite Forall_forall in Hf. by apply Hf.
    + apply trail_step; [done..|]. unfold edge. rewrite Hc, elem_of_app. by left.
  - exists (s :: p). split; [done|]. apply gpath_cons with c'; [|done].
    unfold edge. by rewrite Hc.
Qed.

(** From a node of the path, with the nodes above it as the trail. *)
Lemma findPath_stack stk x post u :
  stack h (stk ++ x :: post) u → NoDup (stk ++ [x]) →
  parent_ok h (stk ++ x :: post) parent u →
  ∀ trail fuel, trail_ok h trail x → (∀ y, y ∈ trail → y ∉ stk ++ [x]) →
  size (nodes h) < fuel + length trail →
  ∃ p, findPath fuel h parent x = Ok (Some p) ∧ gpath h parent x p.
Proof.
  revert x post. induction stk as [|y stk IH] using rev_ind; intros x post Hs Hn Hp trail fuel
    Ht Hd Hlt; (destruct fuel as [|fuel]; [pose proof (trail_bounded _ _ _ Ht); lia|]).
  - assert (x ∉ trail) as Hx. { intros Hx. apply (Hd x Hx). left. }
    destruct Hp as (dn & rest & Hc & Hf & [->|Hr]).
    + exists [x]. simpl. rewrite Nat.eqb_refl. split; [done|constructor].
    + by eapply findPath_through; eauto.
  - rewrite <-app_assoc in Hs, Hp. simpl in Hs, Hp. rewrite <-app_assoc in Hn.
    apply NoDup_app in Hn as (Hn1 & Hn2 & Hn3).
    assert (x ∉ stk ++ [y]) as Hx.
    { rewrite elem_of_app, list_elem_of_singleton. intros [Hx|Hx].
      - apply (Hn2 x Hx). right. left.
      - subst. by apply NoDup_cons in Hn3 as [[] _]; left. }
    assert (x ∉ trail) as Hxt. { intros H. apply (Hd x H). rewrite elem_of_app. right. left. }
    assert (stack h (x :: post) y) as Hs'.
    { clear -Hs. induction stk as [|z stk IH] in u, Hs |- *; simpl in Hs; inversion Hs; subst; eauto. }
    inversion Hs' as [|? ? ? dn rest Hc Hf _]; subst.
    eapply findPath_through; [done..|]. left.
    apply (IH y (x :: post) Hs) with (x :: trail); [|done| | |simpl; lia].
    + apply NoDup_app. split_and!; [done| |apply NoDup_singleton].
      intros z Hz ->%list_elem_of_singleton. apply (Hn2 y Hz). left.
    + apply trail_step; [done..|]. by apply (stack_top h x post).
    + intros z [->|Hz]%elem_of_cons; [done|]. intros Hz'. apply (Hd z Hz).
      rewrite <-app_assoc. simpl. rewrite elem_of_app in *.
      rewrite list_elem_of_singleton in Hz'. rewrite elem_of_cons. tauto.
Qed.
End Report.

Lemma stack_trail h stk u : stack h stk u → NoDup stk → trail_ok h stk u.
Proof. intros Hs Hn. split; [done|]. intros x. by apply stack_tc. Qed.

(** ** The search *)

Section Search.
Variable h : Heap.

Record detector_ok (stk : list nat) (st : CycleDetector) : Prop := {
  all_wf : wf_set (m_allNodes st);
  path_wf : wf_set (m_nodesInCurrentPath st);
  path_stk x : x ∈ m_nodesInCurrentPath st ↔ x ∈ stk;
  all_finish x : x ∈ m_allNodes st → finishes h x
}.

(** What is thrown below [u]: from a node [x] on a cycle a path, then [x] again. *)
Definition cycle_error (u : nat) (e : BGError) : Prop :=
  ∃ x last p, e = CycleInBuildGraph (p ++ [x]) ∧ gpath h last x p ∧
    rtc (edge h) u x ∧ tc (edge h) x x.

Lemma cycle_ok stk u st :
  stack h stk u → NoDup stk → parent_ok h stk (m_parent st) u → u ∈ stk →
  ∃ p, cycle h st u = Ok (p ++ [u]) ∧ gpath h (m_parent st) u p.
Proof.
  intros Hs Hn Hp Hu. apply list_elem_of_split in Hu as (l1 & l2 & ->).
  destruct (findPath_stack h (m_parent st) l1 u l2 u Hs) with (trail := @nil nat)
    (fuel := graphFuel h) as (p & Hf & Hg); [|done| | | |].
  - apply NoDup_app in Hn as (? & Hn & Hn3). apply NoDup_app. split_and!; [done| |].
    + intros z Hz ->%list_elem_of_singleton. apply (Hn _ Hz). left.
    + apply NoDup_singleton.
  - apply trail_nil.
  - by intros y ?%elem_of_nil.
  - unfold graphFuel. simpl. lia.
  - exists p. unfold cycle. by rewrite Hf.
Qed.

Definition accept_post (stk : list nat) (u : nat) (st : CycleDetector)
    (r : exn BGError CycleDetector) : Prop :=
  match r with
  | Ok st' => finishes h u ∧ detector_ok stk st' ∧
      (m_parent st' = m_parent st ∨ rtc (edge h) u (m_parent st'))
  | Throw e => cycle_error u e
  end.

Lemma cycle_error_edge u c e : edge h u c → cycle_error c e → cycle_error u e.
Proof.
  intros He (x & last & p & -> & Hg & Hr & Ht). exists x, last, p. split_and!; [done..| |done].
  by eapply rtc_l.
Qed.

Lemma visit_children f stk u l dn st :
  (∀ c st dn rest, children (node h u) = dn ++ c :: rest → Forall (finishes h) dn →
     detector_ok (u :: stk) st → parent_ok h (u :: stk) (m_parent st) c →
     accept_post (u :: stk) c st (f c st)) →
  children (node h u) = dn ++ l → Forall (finishes h) dn → detector_ok (u :: stk) st →
  (m_parent st = u ∨ ∃ d, d ∈ dn ∧ rtc (edge h) d (m_parent st)) →
  match for_each f l st with
  | Ok st' => Forall (finishes h) (children (node h u)) ∧ detector_ok (u :: stk) st' ∧
      rtc (edge h) u (m_parent st')
  | Throw e => cycle_error u e
  end.
Proof.
  intros Hf. revert dn st. induction l as [|c l IH]; intros dn st Hc Hd Hst Hp; simpl.
  - rewrite app_nil_r in Hc. rewrite Hc. split_and!; [done..|].
    destruct Hp as [->|(d & Hin & Hr)]; [apply rtc_refl|]. eapply rtc_l; [|exact Hr].
    unfold edge. by rewrite Hc.
  - assert (edge h u c) as He. { unfold edge. rewrite Hc, elem_of_app. right. left. }
    specialize (Hf c st dn l Hc Hd Hst). unfold accept_post in Hf.
    destruct (f c st) as [st'|e]; simpl.
    + destruct Hf as (Hfc & Hst' & Hp'); [by exists dn, l|].
      apply (IH (dn ++ [c])); [by rewrite <-app_assoc|by apply Forall_app_2, Forall_singleton|done|].
      destruct Hp' as [->|Hr].
      * destruct Hp as [->|(d & Hin & Hr)]; [by left|right]. exists d.
        split; [|done]. rewrite elem_of_app. by left.
      * right. exists c. split; [|done]. rewrite elem_of_app. right. left.
    + eapply cycle_error_edge; [done|]. apply Hf. by exists dn, l.
Qed.

Lemma accept_ok fuel stk u st :
  stack h stk u → NoDup stk → detector_ok stk st → parent_ok h stk (m_parent st) u →
  size (nodes h) < fuel + length stk → accept_post stk u st (accept fuel h u st).
Proof.
  revert stk u st. induction fuel as [|fuel IH]; intros stk u st Hs Hn Hst Hp Hlt; simpl.
  { pose proof (trail_bounded h stk u (stack_trail h stk u Hs Hn)). lia. }
  unfold visitNode. destruct (contains (m_nodesInCurrentPath st) u) eqn:Hu.
  { apply contains_spec in Hu; [|apply Hst]. apply (path_stk _ _ Hst) in Hu.
    destruct (cycle_ok stk u st Hs Hn Hp Hu) as (p & -> & Hg). simpl.
    exists u, (m_parent st), p. split_and!; [done..|apply rtc_refl|by apply (stack_tc h stk)]. }
  apply contains_false in Hu; [|apply Hst]. rewrite (path_stk _ _ Hst) in Hu.
  destruct (contains (m_allNodes st) u) eqn:Ha; simpl.
  { apply contains_spec in Ha; [|apply Hst]. split; [by apply Hst|]. split; [done|by left]. }
  set (st1 := mkCycleDetector (m_allNodes st) (ins (m_nodesInCurrentPath st) u) u).
  assert (detector_ok (u :: stk) st1) as Hst1.
  { split; simpl; [apply Hst|apply ins_wf, Hst| |apply Hst].
    intros x. rewrite elem_of_ins, elem_of_cons, (path_stk _ _ Hst); [done|apply Hst]. }
  pose proof (visit_children (accept fuel h) stk u (children (node h u)) [] st1) as Hv.
  destruct (for_each _ _ st1) as [st2|e]; simpl.
  - destruct Hv as (Hf & Hst2 & Hr); [|done|constructor|done|by left|].
    { intros c st' dn rest Hc Hd Hst' Hp'. apply IH; [by eapply stack_cons|by constructor|done..|].
      simpl. lia. }
    assert (finishes h u) as Hfu.
    { constructor. rewrite Forall_forall in Hf. exact Hf. }
    split; [done|]. split; [|by right]. split; simpl.
    + apply ins_wf, Hst2.
    + apply del_wf, Hst2.
    + intros x. rewrite elem_of_del, (path_stk _ _ Hst2), elem_of_cons by apply Hst2.
      split; [naive_solver|]. intros Hx. split; [by right|]. by intros ->.
    + intros x. rewrite elem_of_ins by apply Hst2. intros [->|Hx]; [done|by apply Hst2].
  - apply Hv; [|done|constructor|done|by left].
    intros c st' dn rest Hc Hd Hst' Hp'. apply IH; [by eapply stack_cons|by constructor|done..|].
    simpl. lia.
Qed.
End Search.

(** ** Products and projects *)

Lemma for_each_app {A S} (f : A → S → exn BGError S) l1 l2 s :
  for_each f (l1 ++ l2) s = let* s := for_each f l1 s in for_each f l2 s.
Proof.
  revert s. induction l1 as [|x l1 IH]; intros s; simpl; [done|].
  destruct (f x s); simpl; [apply IH|done].
Qed.

Lemma for_each_map {A B S} (g : A → B) (f : B → S → exn BGError S) l s :
  for_each f (map g l) s = for_each (λ x, f (g x)) l s.
Proof.
  revert s. induction l as [|x l IH]; intros s; simpl; [done|].
  destruct (f (g x) s); simpl; [apply IH|done].
Qed.

Lemma visitProject_flat h :
  ∀ project st, visitProject h project st = for_each (visitProduct h) (allProducts project) st.
Proof.
  fix IH 1. intros [self ps subs] st. simpl. rewrite for_each_app.
  destruct (for_each (visitProduct h) ps st) as [st'|e]; simpl; [|done].
  revert st'. induction subs as [|sub subs IHs]; intros st'; simpl; [done|].
  rewrite for_each_app, IH.
  destruct (for_each (visitProduct h) (allProducts sub) st'); simpl; [apply IHs|done].
Qed.

Section Visit.
Variable h : Heap.

Definition idle_ok := detector_ok h [].

Lemma idle_new : idle_ok newCycleDetector.
Proof.
  split; simpl; [apply nil_wf..| |]; intros x; [done|]. by intros ?%elem_of_nil.
Qed.

(** A loop over things whose visit is right, for a set of nodes below each. *)
Lemma for_each_visit {A} (f : A → CycleDetector → exn BGError CycleDetector)
    (below : A → nat → Prop) l :
  (∀ a st, a ∈ l → idle_ok st →
     match f a st with
     | Ok st' => (∀ u, below a u → finishes h u) ∧ idle_ok st'
     | Throw e => ∃ u, below a u ∧ cycle_error h u e
     end) →
  ∀ st, idle_ok st →
    match for_each f l st with
    | Ok st' => (∀ a u, a ∈ l → below a u → finishes h u) ∧ idle_ok st'
    | Throw e => ∃ a u, a ∈ l ∧ below a u ∧ cycle_error h u e
    end.
Proof.
  induction l as [|a l IH]; intros Hf st Hst; simpl.
  { split; [by intros a u ?%elem_of_nil|done]. }
  pose proof (Hf a st) as Ha. destruct (f a st) as [st'|e]; simpl.
  - destruct Ha as [Ha Hst']; [left|done|].
    specialize (IH (λ b s H, Hf b s (list_elem_of_further _ _ _ H)) st' Hst').
    destruct (for_each f l st') as [st''|e].
    + destruct IH as [IH ?]. split; [|done]. intros b u [->|Hb]%elem_of_cons; [apply Ha|by apply IH].
    + destruct IH as (b & u & Hb & ? & ?). exists b, u. split; [by right|done].
  - destruct Ha as (u & ? & ?); [left|done|]. exists a, u. split; [left|done].
Qed.

(** The root nodes of a product. *)
Definition root_of (p u : nat) : Prop := ∃ b, buildDataOf h p = Some b ∧ u ∈ m_roots b.

Lemma accept_idle u st :
  idle_ok st →
  match accept (graphFuel h) h u st with
  | Ok st' => finishes h u ∧ idle_ok st'
  | Throw e => cycle_error h u e
  end.
Proof.
  intros Hst.
  assert (accept_post h [] u st (accept (graphFuel h) h u st)) as Ha.
  { apply accept_ok; [constructor|constructor|done|done|unfold graphFuel; simpl; lia]. }
  unfold accept_post in Ha. destruct (accept _ _ _ _) as [st'|e]; [|exact Ha].
  destruct Ha as (? & ? & _). by split.
Qed.

Lemma visitProduct_ok p st :
  idle_ok st →
  match visitProduct h p st with
  | Ok st' => (∀ u, root_of p u → finishes h u) ∧ idle_ok st'
  | Throw e => ∃ u, root_of p u ∧ cycle_error h u e
  end.
Proof.
  intros Hst. unfold visitProduct, root_of. destruct (buildDataOf h p) as [b|].
  - pose proof (for_each_visit (accept (graphFuel h) h) (λ a u, a = u) (m_roots b)) as H.
    assert (∀ a s, a ∈ m_roots b → idle_ok s →
      match accept (graphFuel h) h a s with
      | Ok st' => (∀ u, a = u → finishes h u) ∧ idle_ok st'
      | Throw e => ∃ u, a = u ∧ cycle_error h u e
      end) as Hf.
    { intros a s _ Hs. pose proof (accept_idle a s Hs) as Ha.
      destruct (accept _ _ _ _); [|by exists a]. destruct Ha. split; [by intros u <-|done]. }
    specialize (H Hf st Hst). destruct (for_each _ _ _) as [st'|e].
    + destruct H as [H ?]. split; [|done]. intros u (b' & ? & ?). simplify_eq. by apply (H u u).
    + destruct H as (a & u & Hin & <- & ?). exists a. eauto.
  - split; [|done]. by intros u (b & ? & _).
Qed.
End Visit.

(** The node [u] is below a root node of a product of the project. *)
Definition in_project (h : Heap) (project : ResolvedProject) (u : nat) : Prop :=
  ∃ p r, p ∈ allProducts project ∧ root_of h p r ∧ rtc (edge h) r u.

(** C18: on every graph the detector terminates, returns normally
    exactly when no cycle can be reached from the root nodes of the project, and
    otherwise reports a path that starts and ends with a node on a cycle. *)
Theorem visitProject_correct h project :
  match visitProject h project newCycleDetector with
  | Ok _ => ∀ u, in_project h project u → ¬ tc (edge h) u u
  | Throw e =>
      ∃ x last p, e = CycleInBuildGraph (p ++ [x]) ∧ gpath h last x p ∧
        in_project h project x ∧ tc (edge h) x x
  end.
Proof.
  rewrite visitProject_flat.
  pose proof (for_each_visit h (visitProduct h) (root_of h) (allProducts project)
    (λ p st _, visitProduct_ok h p st) newCycleDetector (idle_new h)) as H.
  destruct (for_each _ _ _) as [st|e].
  - destruct H as [H _]. intros u (p & r & Hp & Hr & Hru).
    eapply finishes_no_cycle, finishes_rtc; [by eapply H|done].
  - destruct H as (p & r & Hp & Hr & x & last & path & -> & Hg & Hru & Ht).
    exists x, last, path. split_and!; [done..| |done]. by exists p, r.
Qed.

(** The reported nodes need not be a cycle: [m_parent] is not reset when a
    node is left, so that the report can end in a finished sibling, here 5, that
    has no edge to the repeated node 10. *)
Theorem reported_path_not_a_cycle :
  let artifact ps cs := mkNode ps cs None (node_data emptyNode) in
  let h := set_nodes (λ _, list_to_map
    [(10, artifact [20] [20]); (20, artifact [10] [5; 10]); (5, artifact [20] [])]) emptyHeap in
  accept (graphFuel h) h 10 newCycleDetector = Throw (CycleInBuildGraph [10; 20; 5; 10]) ∧
  ¬ edge h 5 10 ∧ edge h 20 10.
Proof.
  simpl. split; [by vm_compute|]. unfold edge. split.
  - change (10 ∉ @nil nat). by intros ?%elem_of_nil.
  - change (10 ∈ [5; 10]). right. left.
Qed.

(** ** What the sanity checks establish *)

Lemma exn_bind_inv {E A B} (m : exn E A) (k : A → exn E B) b :
  exn_bind m k = Ok b → ∃ a, m = Ok a ∧ k a = Ok b.
Proof. destruct m as [a|e]; simpl; [eauto|done]. Qed.

(** Take a chain of checks that has succeeded apart. *)
Ltac checks H :=
  repeat match type of H with
  | exn_bind (QBS_CHECK ?b) _ = Ok _ =>
      let Hb := fresh "Hb" in
      destruct b eqn:Hb; cbn [QBS_CHECK exn_bind] in H; [|discriminate H]
  | exn_bind ?m _ = Ok _ =>
      let x := fresh "x" in let Hm := fresh "Hm" in
      apply exn_bind_inv in H as (x & Hm & H)
  | QBS_CHECK ?b = Ok _ =>
      let Hb := fresh "Hb" in
      destruct b eqn:Hb; cbn [QBS_CHECK] in H; [|discriminate H]; clear H
  end;
  repeat match goal with
  | Hb : bool_decide _ = true |- _ => apply bool_decide_eq_true_1 in Hb
  end.

Lemma for_each_ind {A S} (P : S → Prop) (f : A → S → exn BGError S) l s s' :
  (∀ x s s', x ∈ l → P s → f x s = Ok s' → P s') → P s → for_each f l s = Ok s' → P s'.
Proof.
  revert s. induction l as [|x l IH]; intros s Hf Hs; simpl; [naive_solver|].
  intros (s1 & H1 & H2)%exn_bind_inv. eapply (IH s1); [|by eapply Hf; [left|..]|done].
  intros y t t' Hy. apply Hf. by right.
Qed.

Lemma for_each_inv {A S} (f : A → S → exn BGError S) l s s' x :
  for_each f l s = Ok s' → x ∈ l → ∃ s1 s2, f x s1 = Ok s2.
Proof.
  revert s. induction l as [|y l IH]; intros s; simpl; [by intros _ ?%elem_of_nil|].
  intros (s1 & H1 & H2)%exn_bind_inv. intros [->|Hx]%elem_of_cons; eauto.
Qed.

Lemma check_each_inv {A} (f : A → exn BGError unit) l x u :
  check_each f l = Ok u → x ∈ l → f x = Ok tt.
Proof. intros H Hx. by destruct (for_each_inv _ _ _ _ x H Hx) as (_ & [] & ?). Qed.

Lemma check_each_iff {A} (f : A → exn BGError unit) l :
  check_each f l = Ok tt ↔ ∀ x, x ∈ l → f x = Ok tt.
Proof.
  split; [intros H x; by apply check_each_inv with (u := tt)|]. unfold check_each.
  induction l as [|x l IH]; intros H; simpl; [done|]. rewrite (H x) by (by left). simpl.
  apply IH. intros y ?. apply H. by right.
Qed.

(** The sets of the nodes and of the build data are well formed. *)
Definition wf_node_sets (h : Heap) : Prop :=
  (∀ u, wf_set (children (node h u)) ∧ wf_set (parents (node h u))) ∧
  (∀ t tr, transformers h !! t = Some tr → wf_set (transformer_outputs tr)) ∧
  (∀ p b, buildDataOf h p = Some b → wf_set (m_nodes b)).

(** No file is recorded for a tag that was not in the map. *)
Definition requested_sane (m : RequestedArtifacts) : Prop :=
  ∀ name r tag paths, m !! name = Some r → requestedTags r !! tag = Some paths →
    tag ∈ allTags r ∨ paths = ∅.

Lemma requestedArtifacts_sound m :
  requestedArtifacts_doSanityChecks m = Ok tt ↔ requested_sane m.
Proof.
  unfold requestedArtifacts_doSanityChecks. rewrite check_each_iff. split.
  - intros H name r tag paths Hn Ht. apply elem_of_map_to_list, H in Hn.
    unfold requestedPerProduct_doSanityChecks in Hn. rewrite check_each_iff in Hn.
    apply elem_of_map_to_list, Hn in Ht. unfold QBS_CHECK in Ht. case_match eqn:E; [|done].
    by rewrite orb_true_iff, !bool_decide_eq_true in E.
  - intros H [name r] Hn%elem_of_map_to_list. apply check_each_iff.
    intros [tag paths] Ht%elem_of_map_to_list. unfold QBS_CHECK.
    rewrite (proj2 (orb_true_iff _ _)); [done|]. rewrite !bool_decide_eq_true. by eapply H.
Qed.

(** A generated artifact: one producer, and a transformer that knows it, whose
    outputs have different files as children, the inputs among them. *)
Definition generated_sane (h : Heap) (p : nat) (rp : ResolvedProduct) (u : nat) (a : Artifact) :
    Prop :=
  (∃ r, ruleNodes_of h (children (node h u)) = [r]) ∧
  ∃ t tr, transformer a = Some t ∧ transformers h !! t = Some tr ∧
    ruleProduct h (transformer_rule tr) = Some p ∧ transformer_rule tr ∈ product_rules rp ∧
    u ∈ transformer_outputs tr ∧
    (∀ o, o ∈ transformer_outputs tr →
       transformer (artifactOf h o) = Some t ∧ distinct_children h o) ∧
    (∀ i, i ∈ transformer_inputs tr → ∃ o, o ∈ transformer_outputs tr ∧ edge h o i) ∧
    requested_sane (artifactsMapRequestedInPrepareScript tr) ∧
    requested_sane (artifactsMapRequestedInCommands tr).

Definition node_sane (h : Heap) (p : nat) (rp : ResolvedProduct) (all : list nat) (u : nat) :
    Prop :=
  productOf h u = Some p ∧
  (∀ x, x ∈ parents (node h u) → edge h x u) ∧
  (∀ c, edge h u c → u ∈ parents (node h c) ∧
     ∃ q b, productOf h c = Some q ∧ buildDataOf h q = Some b ∧ c ∈ m_nodes b ∧ q ∈ all) ∧
  match node_data (node h u) with
  | RuleNodeType r => ruleProduct h (m_rule r) = Some p ∧ m_rule r ∈ product_rules rp
  | ArtifactNodeType a =>
      (∀ c, c ∈ childrenAddedByScanner a → edge h u c) ∧
      (artifactType a ≠ SourceFile → generated_sane h p rp u a)
  end.

Lemma artifactOf_Some h a x : as_artifact h a = Some x → artifactOf h a = x.
Proof. unfold artifactOf. by intros ->. Qed.

Lemma checkDistinctChildren_sound h o l :
  l = artifacts_of h (children (node h o)) →
  check_each (λ a, check_each (checkDistinctChildren h o a) l) l = Ok tt →
  distinct_children h o.
Proof.
  intros -> Hc a b x y Ha Hb Hne Hx Hy Hf.
  assert (∀ c z, edge h o c → as_artifact h c = Some z →
    c ∈ artifacts_of h (children (node h o))) as Hin.
  { intros c z ? ?. apply elem_of_artifacts_of. split; [done|eauto]. }
  apply (check_each_inv _ _ a) in Hc; [|by eapply Hin].
  apply (check_each_inv _ _ b) in Hc; [|by eapply Hin].
  unfold checkDistinctChildren in Hc. rewrite (artifactOf_Some _ _ _ Hx) in Hc.
  rewrite (artifactOf_Some _ _ _ Hy), Hf in Hc.
  rewrite (proj2 (Nat.eqb_neq b a)) in Hc by congruence. simpl in Hc.
  rewrite (bool_decide_eq_true_2 (filePath y = filePath y)) in Hc by done. simpl in Hc.
  destruct (_ || _) eqn:E; [done|].
  rewrite !orb_false_iff, !bool_decide_eq_false in E. destruct E as [[E1 E2] E3].
  split_and!; [by apply dec_stable..|congruence].
Qed.

Lemma checkOutputs_sound h t l acc acc' :
  (∀ o, o ∈ l → wf_set (children (node h o))) → wf_set acc →
  for_each (checkOutput h t) l acc = Ok acc' →
  wf_set acc' ∧
  (∀ o, o ∈ l → transformer (artifactOf h o) = Some t ∧ distinct_children h o) ∧
  (∀ i, i ∈ acc' → i ∈ acc ∨ ∃ o, o ∈ l ∧ edge h o i).
Proof.
  intros Hl Hacc H. revert acc Hacc H. induction l as [|o l IH]; intros acc Hacc; simpl.
  { intros [= <-]. split; [done|]. split; [by intros ? ?%elem_of_nil|by left]. }
  intros (acc1 & H1 & H2)%exn_bind_inv. unfold checkOutput in H1. checks H1.
  destruct x. injection H1 as <-.
  assert (wf_set (artifacts_of h (children (node h o)))) as Hwl.
  { eapply ssorted_sublist; [|apply (Hl o); left]. clear. unfold artifacts_of.
    induction (children (node h o)) as [|c l IH]; simpl; [constructor|].
    destruct (isArtifact h c); by constructor. }
  destruct (IH (λ c H, Hl c (list_elem_of_further _ _ _ H)) _
    (set_unite_sorted _ _ Hacc Hwl) H2) as (Hw' & Ho & Hi).
  split; [done|]. split.
  - intros c [->|Hc]%elem_of_cons; [|by apply Ho]. split; [done|].
    by eapply checkDistinctChildren_sound.
  - intros i [Hu|(c & Hc & Hci)]%Hi; [|right; exists c; split; [by right|done]].
    apply elem_of_set_unite in Hu as [?|[Hin _]%elem_of_artifacts_of]; [by left| |done..].
    right. exists o. split; [left|done].
Qed.

Lemma checkGenerated_sound h p rp u a :
  wf_node_sets h → productOf h u = Some p →
  checkGenerated h p rp u a = Ok tt → generated_sane h p rp u a.
Proof.
  intros (Hc & Ht & _) Hp H. unfold checkGenerated in H.
  apply exn_bind_inv in H as (? & H1 & H).
  destruct (_ =? 1) eqn:E; [|discriminate H1]. apply Nat.eqb_eq in E. clear H1.
  split. { destruct (ruleNodes_of _ _) as [|r [|? ?]]; [done|by exists r|done]. }
  destruct (transformer a) as [t|] eqn:Eta; [|discriminate H].
  destruct (transformers h !! t) as [tr|] eqn:Etr; [|discriminate H].
  exists t, tr. checks H.
  match goal with Hf : for_each _ _ [] = Ok ?acc |- _ =>
    destruct (checkOutputs_sound h t (transformer_outputs tr) [] acc) as (Hw' & Ho & Hi);
      [intros; apply Hc|apply nil_wf|exact Hf|] end.
  repeat match goal with Hr : requestedArtifacts_doSanityChecks _ = Ok ?x |- _ =>
    destruct x; apply requestedArtifacts_sound in Hr end.
  split_and!; try done.
  - by apply contains_spec; [eapply Ht|].
  - intros i Hin. match goal with Hc : check_each _ (transformer_inputs tr) = Ok _ |- _ =>
      pose proof (check_each_inv _ _ i _ Hc Hin) as Hi' end.
    unfold QBS_CHECK in Hi'. case_match eqn:Hci; [|done]. apply contains_spec in Hci; [|done].
    apply Hi in Hci as [?%elem_of_nil|?]; done.
Qed.

Lemma checkChild_sound h all u c :
  wf_node_sets h → checkChild h all u c = Ok tt →
  u ∈ parents (node h c) ∧
  ∃ q b, productOf h c = Some q ∧ buildDataOf h q = Some b ∧ c ∈ m_nodes b ∧ q ∈ all.
Proof.
  intros (Hc & _ & Hn) H. unfold checkChild in H. checks H.
  split; [by apply contains_spec; [apply Hc|]|].
  destruct (productOf h c) as [q|]; [|discriminate H].
  destruct (buildDataOf h q) as [b|] eqn:Eb; [|discriminate H]. checks H.
  exists q, b. split_and!; [done..| |done]. by apply contains_spec; [eapply Hn|].
Qed.

Lemma checkNode_sound h p rp all u fp fp' :
  wf_node_sets h → checkNode h p rp all u fp = Ok fp' → node_sane h p rp all u.
Proof.
  intros Hw H. unfold checkNode in H. checks H. split; [done|].
  repeat match goal with Hm : check_each _ _ = Ok ?x |- _ =>
    destruct x; pose proof (λ y, check_each_inv _ _ y tt Hm); clear Hm end.
  split; [|split].
  - intros x Hx. assert (checkParent h u x = Ok tt) as Hx' by eauto.
    unfold checkParent in Hx'. checks Hx'. by apply contains_spec; [apply Hw|].
  - intros c Hc. apply checkChild_sound; [done|]. eauto.
  - destruct (node_data (node h u)) as [a|r].
    + checks H. destruct x. split.
      * intros c Hc. eapply check_each_inv in Hc; [|exact Hm]. cbv beta in Hc.
        checks Hc.
        by apply contains_spec; [apply Hw|].
      * intros Hg. rewrite (bool_decide_eq_false_2 _ Hg) in H. checks H. destruct x.
        by apply checkGenerated_sound.
    + checks H. destruct x. unfold checkRuleNode in Hm. checks Hm. done.
Qed.

(** Of the nodes of a product, the generated artifacts have different files. *)
Lemma checkNodes_paths h p rp all l fp fp' :
  for_each (checkNode h p rp all) l fp = Ok fp' → NoDup l →
  (∀ u a, u ∈ l → as_artifact h u = Some a → artifactType a ≠ SourceFile → filePath a ∉ fp) ∧
  (∀ u v a b, u ∈ l → v ∈ l → u ≠ v → as_artifact h u = Some a → as_artifact h v = Some b →
     artifactType a ≠ SourceFile → artifactType b ≠ SourceFile → filePath a ≠ filePath b).
Proof.
  assert (∀ u fp fp', checkNode h p rp all u fp = Ok fp' →
    fp ⊆ fp' ∧ ∀ a, as_artifact h u = Some a → filePath a ∈ fp' ∧
      (artifactType a ≠ SourceFile → filePath a ∉ fp)) as Hstep.
  { intros u f f' H. unfold checkNode in H. checks H. clear -H. unfold as_artifact, node in *.
    destruct (nodes h !! u) as [n|]; simpl in H.
    - destruct (node_data n) as [a|r]; checks H; [|by injection H as <-].
      apply orb_true_iff in Hb0. rewrite negb_true_iff, !bool_decide_eq_true,
        bool_decide_eq_false in Hb0.
      assert (f' = {[filePath a]} ∪ f) as ->.
      { case_bool_decide; [by injection H|]. checks H. by injection H. }
      split; [set_solver|]. intros ? [= <-]. split; [set_solver|naive_solver].
    - checks H. split; [|done]. case_bool_decide; [injection H as <-; set_solver|].
      checks H. injection H as <-. set_solver. }
  intros H Hn. revert fp H. induction Hn as [|u l Hu Hn IH]; intros fp; simpl.
  { intros _. split; [by intros u a ?%elem_of_nil|by intros u v a b ?%elem_of_nil]. }
  intros (fp1 & H1 & H2)%exn_bind_inv. destruct (Hstep _ _ _ H1) as [Hsub Hua].
  destruct (IH fp1 H2) as [IH1 IH2]. split.
  - intros v a [->|Hv]%elem_of_cons Ha Hg; [by apply Hua|]. intros Hf. by apply (IH1 v a), Hsub.
  - intros v w a b [->|Hv]%elem_of_cons [->|Hw]%elem_of_cons Hne Ha Hb Hga Hgb Hf; [done| | |].
    + apply (IH1 w b Hw Hb Hgb). rewrite <-Hf. by apply Hua.
    + apply (IH1 v a Hv Ha Hga). rewrite Hf. by apply Hua.
    + by eapply (IH2 v w).
Qed.

(** What a passed check says of a product. *)
Definition product_sane (h : Heap) (all : list nat) (p : nat) : Prop :=
  ∃ rp, products h !! p = Some rp ∧ (∀ m, m ∈ product_modules rp → m = p) ∧
    (enabled rp = true → is_Some (buildData rp)) ∧
    ∀ b, buildData rp = Some b →
      (∀ u, u ∈ m_roots b → u ∈ m_nodes b) ∧
      (∀ u v, u ∈ m_roots b → rtc (edge h) u v → ¬ tc (edge h) v v) ∧
      (∀ u, u ∈ m_nodes b → node_sane h p rp all u) ∧
      (∀ u v a c, u ∈ m_nodes b → v ∈ m_nodes b → u ≠ v →
         as_artifact h u = Some a → as_artifact h v = Some c →
         artifactType a ≠ SourceFile → artifactType c ≠ SourceFile → filePath a ≠ filePath c).

Lemma doSanityChecksForProduct_sound h p all :
  wf_node_sets h → doSanityChecksForProduct h p all = Ok tt → product_sane h all p.
Proof.
  intros Hw H. unfold doSanityChecksForProduct in H. apply exn_bind_inv in H as (st & Hv & H).
  pose proof (visitProduct_ok h p newCycleDetector (idle_new h)) as Hr. rewrite Hv in Hr.
  destruct Hr as [Hr _]. destruct (products h !! p) as [rp|] eqn:Hp; [|discriminate H]. checks H.
  destruct x. exists rp. split; [done|]. split.
  { intros m Hin. eapply check_each_inv in Hin; [|exact Hm]. cbv beta in Hin.
    unfold QBS_CHECK in Hin. case_match eqn:E; [|done]. by apply Nat.eqb_eq. }
  clear Hm. split.
  { intros He. rewrite He in Hb. simpl in Hb. by apply bool_decide_eq_true_1 in Hb. }
  intros b Hbd. rewrite Hbd in H. checks H. destruct x.
  assert (buildDataOf h p = Some b) as Hbo by (unfold buildDataOf; by rewrite Hp).
  assert (wf_set (m_nodes b)) as Hwn by by eapply Hw.
  split; [|split; [|split]].
  - intros u Hu. eapply check_each_inv in Hu; [|exact Hm]. cbv beta in Hu. checks Hu.
    by apply contains_spec.
  - intros u v Hu Huv. eapply finishes_no_cycle, finishes_rtc; [|exact Huv].
    apply Hr. by exists b.
  - intros u Hu. destruct (for_each_inv _ _ _ _ u Hm0 Hu) as (f & f' & Hc).
    by eapply checkNode_sound.
  - apply (checkNodes_paths _ _ _ _ _ _ _ Hm0). by apply wf_set_NoDup.
Qed.

(** The order in which the products are checked. *)
Fixpoint checkOrder (project : ResolvedProject) : list (nat * nat) :=
  match project with
  | mkResolvedProject self ps subs => flat_map checkOrder subs ++ map (pair self) ps
  end.

Lemma checkOrder_perm : ∀ project, map snd (checkOrder project) ≡ₚ allProducts project.
Proof.
  fix IH 1. intros [self ps subs]. simpl. rewrite map_app, map_map, map_id.
  rewrite Permutation_app_comm. f_equiv.
  induction subs as [|sub subs IHs]; simpl; [done|]. by rewrite map_app, IH, IHs.
Qed.

Definition productName (h : Heap) (p : nat) : list ascii := default [] (uniqueName <$> products h !! p).

Definition checkProduct (h : Heap) (all : list nat) (sp : nat * nat) (names : gset (list ascii)) :
    exn BGError (gset (list ascii)) :=
  let '(self, p) := sp in
  let* _ := QBS_CHECK (bool_decide (product_project <$> products h !! p = Some self)) in
  let* _ := doSanityChecksForProduct h p all in
  let* _ := QBS_CHECK (negb (bool_decide (productName h p ∈ names))) in
  Ok ({[productName h p]} ∪ names).

Lemma doSanityChecks_flat h all :
  ∀ project names,
    doSanityChecks h project all names = for_each (checkProduct h all) (checkOrder project) names.
Proof.
  fix IH 1. intros [self ps subs] names. simpl. rewrite for_each_app.
  assert (∀ subs names, (∀ sub, In sub subs → ∀ names, doSanityChecks h sub all names =
      for_each (checkProduct h all) (checkOrder sub) names) →
    (fix loop (l : list ResolvedProject) (names : gset (list ascii)) :
       exn BGError (gset (list ascii)) :=
       match l with
       | [] => Ok names
       | sub :: l' => let* names := doSanityChecks h sub all names in loop l' names
       end) subs names = for_each (checkProduct h all) (flat_map checkOrder subs) names) as Hl.
  { clear. induction subs as [|sub subs IHs]; intros names Hs; [done|].
    cbn [flat_map]. rewrite for_each_app, Hs by (by left).
    destruct (for_each _ (checkOrder sub) names); simpl; [|done].
    apply IHs. intros sub' ?. apply Hs. by right. }
  rewrite Hl; [by destruct (for_each _ (flat_map _ _) _); simpl; [rewrite for_each_map|]|].
  clear Hl. induction subs as [|sub subs IHs]; [by intros ? []|].
  intros sub' [<-|Hin]; [apply IH|by apply IHs].
Qed.

Lemma checkProducts_sound h all l names names' :
  wf_node_sets h → for_each (checkProduct h all) l names = Ok names' →
  (∀ self p, (self, p) ∈ l → product_sane h all p ∧
     product_project <$> products h !! p = Some self ∧ productName h p ∉ names) ∧
  NoDup (map (productName h) (map snd l)).
Proof.
  intros Hw. revert names. induction l as [|[self p] l IH]; intros names; simpl.
  { intros _. split; [by intros ? ? ?%elem_of_nil|constructor]. }
  intros (n1 & H1 & H2)%exn_bind_inv. checks H1. destruct x. injection H1 as <-.
  rewrite negb_true_iff, bool_decide_eq_false in Hb0.
  destruct (IH _ H2) as [IH1 IH2]. split.
  - intros s q [[= -> ->]|Hq]%elem_of_cons;
      [split_and!; [by apply doSanityChecksForProduct_sound|done..]|].
    destruct (IH1 s q Hq) as (? & ? & ?). split_and!; [done..|set_solver].
  - constructor; [|done]. rewrite map_map. intros ([s q] & Hq & Hin)%list_elem_of_fmap.
    destruct (IH1 s q Hin) as (_ & _ & Hn). simpl in Hq. rewrite <-Hq in Hn. set_solver.
Qed.

(** C35: when the sanity checks of a project pass, the graph is what the other
    components rely on: no cycle below the roots, edges known at both ends and
    within the project, one producer and a consistent transformer for every
    generated artifact, no two generated artifacts of a product for one file,
    and no two products of one name. *)
Theorem doSanityChecks_sound h project all names :
  wf_node_sets h → doSanityChecks h project all ∅ = Ok names →
  (∀ p, p ∈ allProducts project → product_sane h all p) ∧
  NoDup (map (productName h) (allProducts project)).
Proof.
  intros Hw. rewrite doSanityChecks_flat. intros H.
  destruct (checkProducts_sound h all _ _ _ Hw H) as [H1 H2].
  rewrite <-(checkOrder_perm project). split; [|done].
  intros p. rewrite <-(checkOrder_perm project).
  intros ([self q] & -> & Hin)%list_elem_of_fmap. by destruct (H1 self q Hin) as (? & ? & ?).
Qed.

(** A project of one product, 9, whose rule 6, with the node 5, has compiled the
    source file 1 to the object file 2 with the transformer 7. *)
Definition exampleProject : Heap :=
  mkHeap
    (list_to_map
      [(1, mkNode [2; 5] [] (Some 9)
             (ArtifactNodeType (mkArtifact "/src/main.cpp" 0 SourceFile [1] [] [] None [] 0)));
       (2, mkNode [] [1; 5] (Some 9)
             (ArtifactNodeType (mkArtifact "/b/main.o" 0 Generated [2] [] [] (Some 7) [] 0)));
       (5, mkNode [2] [1] (Some 9) (RuleNodeType (mkRuleNode 6 [1] [] [] 0 false)))])
    {[7 := mkTransformer [1] [2] [] 6 ∅ ∅]}
    {[6 := mkRule 9 [2] [1] [] [] [] [] [] false true false]}
    {[9 := mkResolvedProduct "app" true [2] [] [6] 10 [9]
             (Some (mkProductBuildData [1; 2; 5] [2] {[1 := [1]; 2 := [2]]} true))]}
    ∅ ∅ false.

Lemma exampleProject_sets : wf_node_sets exampleProject.
Proof.
  assert (wf_graph exampleProject) as Hg by (apply check_graph_ok; by vm_compute).
  split; [intros u; split; apply Hg|]. split.
  - intros t tr Ht. unfold exampleProject in Ht. cbn [transformers] in Ht. apply lookup_singleton_Some in Ht as [<- <-]. by apply ssorted_nat_check.
  - intros p b. unfold buildDataOf, exampleProject. cbn [products]. case_match eqn:E; [|done].
    apply lookup_singleton_Some in E as [<- <-]. intros [= <-]. by apply ssorted_nat_check.
Qed.

Lemma doSanityChecks_sound_witness :
  product_sane exampleProject [9] 9.
Proof.
  destruct (doSanityChecks_sound exampleProject (mkResolvedProject 11 [] [mkResolvedProject 10 [9] []])
    [9] {[lit "app"]} exampleProject_sets) as [H _]; [by vm_compute|]. apply H. left.
Defined.
