(* ===== verification/ArtifactRemoval.v ===== *)
(** * Removing artifacts

    [ProjectBuildData::removeArtifact] and
    [removeArtifactAndExclusiveDependents]: what is removed, what stays, and
    that no reference to a removed artifact is left. *)

From S2P Require Import Prelude FlatSet BuildGraph BuildGraphCorrect.

(** ** What a removal never does

    It adds no entry to a table and does not change what an artifact is. *)

(** The parts of an artifact that stay. *)
Definition core (a : Artifact) : list ascii * ArtifactType * FileTags * option nat :=
  (filePath a, artifactType a, m_fileTags a, transformer a).

Definition shrinksTo {A} (P : A → A → Prop) (o o' : option A) : Prop :=
  match o, o' with
  | Some x, Some x' => P x x'
  | None, None => True
  | _, _ => False
  end.

Record frame (h h' : Heap) : Prop := {
  fr_product x : productOf h' x = productOf h x;
  fr_artifact x : core <$> as_artifact h' x = core <$> as_artifact h x;
  fr_lookup key : sublist (default [] (lookupTable h' !! key)) (default [] (lookupTable h !! key));
  fr_build p : shrinksTo (λ b b', sublist (m_nodes b') (m_nodes b))
                 (buildDataOf h p) (buildDataOf h' p);
  fr_transformer t : shrinksTo (λ r r', sublist (transformer_inputs r') (transformer_inputs r))
                       (transformers h !! t) (transformers h' !! t)
}.

Lemma shrinksTo_refl {A} (P : A → A → Prop) o : (∀ x, P x x) → shrinksTo P o o.
Proof. intros HP. destruct o; simpl; auto. Qed.

Lemma shrinksTo_trans {A} (P : A → A → Prop) o1 o2 o3 :
  (∀ x y z, P x y → P y z → P x z) → shrinksTo P o1 o2 → shrinksTo P o2 o3 → shrinksTo P o1 o3.
Proof. destruct o1, o2, o3; simpl; naive_solver. Qed.

#[export] Instance frame_preorder : PreOrder frame.
Proof.
  split.
  - intros h. by split; intros; [..|apply shrinksTo_refl|apply shrinksTo_refl].
  - intros h1 h2 h3 [P1 A1 L1 B1 T1] [P2 A2 L2 B2 T2]. split.
    + intros x. by rewrite P2.
    + intros x. by rewrite A2.
    + intros key. by etrans; [apply L2|].
    + intros p. eapply shrinksTo_trans; [|apply B1|apply B2]. intros x y z ? ?. by etrans.
    + intros t. eapply shrinksTo_trans; [|apply T1|apply T2]. intros x y z ? ?. by etrans.
Qed.

(** What changes only the nodes. *)
Lemma frame_upd_node f u h :
  (∀ n, product (f n) = product n) →
  (∀ n, match node_data n with
        | ArtifactNodeType a => ∃ a', node_data (f n) = ArtifactNodeType a' ∧ core a' = core a
        | RuleNodeType r => ∃ r', node_data (f n) = RuleNodeType r'
        end) →
  frame h (upd_node f u h).
Proof.
  intros Hp Hd. split; simpl; intros; [| |done|by apply shrinksTo_refl..].
  - unfold productOf. by rewrite (node_upd_field product).
  - unfold as_artifact, upd_node. simpl. destruct (decide (u = x)) as [->|Hne].
    + rewrite lookup_alter_eq. destruct (nodes h !! x) as [n|]; simpl; [|done].
      specialize (Hd n). destruct (node_data n).
      * destruct Hd as (a' & -> & Hc). simpl. by rewrite Hc.
      * by destruct Hd as (r' & ->).
    + by rewrite lookup_alter_ne.
Qed.

Lemma frame_set_children f u h : frame h (upd_node (set_children f) u h).
Proof. apply frame_upd_node; intros n; simpl; [done|]. destruct (node_data n); eauto. Qed.
Lemma frame_set_parents f u h : frame h (upd_node (set_parents f) u h).
Proof. apply frame_upd_node; intros n; simpl; [done|]. destruct (node_data n); eauto. Qed.
Lemma frame_upd_ruleNode f u h : frame h (upd_node (upd_ruleNode f) u h).
Proof. apply frame_upd_node; intros n; simpl; [done|]. destruct (node_data n); eauto. Qed.
Lemma frame_upd_artifact f u h :
  (∀ a, core (f a) = core a) → frame h (upd_node (upd_artifact f) u h).
Proof. intros Hf. apply frame_upd_node; intros n; simpl; [done|]. destruct (node_data n); eauto. Qed.

Lemma frame_isDirty b h : frame h (set_isDirty b h).
Proof. split; intros; simpl; [done|done|done|by apply shrinksTo_refl..]. Qed.

Lemma frame_transformers f t h :
  (∀ r, sublist (transformer_inputs (f r)) (transformer_inputs r)) →
  frame h (set_transformers (alter f t) h).
Proof.
  intros Hf. split; intros; simpl; [done|done|done|by apply shrinksTo_refl|].
  destruct (decide (t = t0)) as [->|Hne].
  - rewrite lookup_alter_eq. destruct (transformers h !! t0); simpl; [apply Hf|done].
  - rewrite lookup_alter_ne by done. by apply shrinksTo_refl.
Qed.

Lemma buildDataOf_upd f p h q :
  buildDataOf (upd_buildData f p h) q =
    if decide (p = q) then f <$> buildDataOf h q else buildDataOf h q.
Proof.
  unfold buildDataOf, upd_buildData. simpl. case_decide as E.
  - rewrite E, lookup_alter_eq. by destruct (products h !! q).
  - by rewrite lookup_alter_ne.
Qed.

Lemma frame_upd_buildData f p h :
  (∀ b, sublist (m_nodes (f b)) (m_nodes b)) → frame h (upd_buildData f p h).
Proof.
  intros Hf. split; intros; simpl; [done|done|done| |by apply shrinksTo_refl].
  rewrite buildDataOf_upd. case_decide; [|by apply shrinksTo_refl].
  destruct (buildDataOf h p0); simpl; [apply Hf|done].
Qed.

Lemma removeOne_sublist l r : sublist (removeOne l r) l.
Proof.
  induction l as [|x l IH]; simpl; [constructor|]. case_match; by constructor.
Qed.

Lemma removeOne_not_in l r : NoDup l → r ∉ removeOne l r.
Proof.
  induction 1 as [|x l Hx Hn IH]; simpl; [by intros ?%elem_of_nil|].
  destruct (Nat.eqb_spec x r) as [->|Hne]; [done|].
  rewrite elem_of_cons. naive_solver.
Qed.

Lemma frame_removeFromLookupTable r h : frame h (removeFromLookupTable r h).
Proof.
  split; intros; [done|done| |by apply shrinksTo_refl..]. simpl.
  destruct (decide (lookupKey (resourcePath h r) = key)) as [->|Hne].
  - rewrite lookup_partial_alter_eq. simpl. apply removeOne_sublist.
  - by rewrite lookup_partial_alter_ne.
Qed.

Lemma frame_foldl {B} (f : Heap → B → Heap) l h :
  (∀ h x, frame h (f h x)) → frame h (foldl f h l).
Proof.
  intros Hf. revert h. induction l as [|x l IH]; intros h; simpl; [reflexivity|].
  etrans; [apply Hf|apply IH].
Qed.

Create HintDb frames discriminated.
#[export] Hint Resolve frame_set_children frame_set_parents frame_upd_ruleNode
  frame_isDirty frame_removeFromLookupTable : frames.

Lemma frame_isArtifact h h' x : frame h h' → isArtifact h' x = isArtifact h x.
Proof.
  intros F. apply isArtifact_ext. rewrite <-!(fmap_is_Some core). by rewrite (fr_artifact _ _ F).
Qed.

(** The artifact [x] of [h], in [h']. *)
Lemma frame_lookup h h' x a :
  frame h h' → as_artifact h x = Some a → ∃ a', as_artifact h' x = Some a' ∧ core a' = core a.
Proof.
  intros F Ha. pose proof (fr_artifact _ _ F x) as H. rewrite Ha in H. simpl in H.
  destruct (as_artifact h' x) as [a'|]; [|discriminate H]. exists a'. split; [done|]. exact (inj Some _ _ H).
Qed.

Lemma frame_sym_lookup h h' x a :
  frame h h' → as_artifact h' x = Some a → ∃ a', as_artifact h x = Some a' ∧ core a' = core a.
Proof.
  intros F Ha. pose proof (fr_artifact _ _ F x) as H. rewrite Ha in H. simpl in H.
  destruct (as_artifact h x) as [a'|]; [|discriminate H]. exists a'. split; [done|]. symmetry. exact (inj Some _ _ H).
Qed.

(** ** The project *)

(** What the tables of a project say of its artifacts. *)
Record project_ok (h : Heap) : Prop := {
  po_graph : wf_graph h;
  po_lookup key l : lookupTable h !! key = Some l →
    NoDup l ∧ ∀ a x, a ∈ l → as_artifact h a = Some x → key = lookupKey (filePath x);
  po_nodes p b : buildDataOf h p = Some b →
    wf_set (m_nodes b) ∧ ∀ u, u ∈ m_nodes b → productOf h u = Some p;
  po_product a : isArtifact h a = true →
    ∃ p, productOf h a = Some p ∧ is_Some (buildDataOf h p);
  po_inputs t r : transformers h !! t = Some r → wf_set (transformer_inputs r)
}.

Lemma project_ok_frame h h' : project_ok h → frame h h' → wf_graph h' → project_ok h'.
Proof.
  intros [Hg Hl Hn Hp Hi] F Hw. split; [done| | | |].
  - intros key l Hk. pose proof (fr_lookup _ _ F key) as Hs. rewrite Hk in Hs. simpl in Hs.
    destruct (lookupTable h !! key) as [l0|] eqn:E; simpl in Hs.
    + destruct (Hl key l0 E) as [Hd Ha]. split; [by eapply sublist_NoDup|].
      intros a x Hin Hx. destruct (frame_sym_lookup _ _ _ _ F Hx) as (x' & Hx' & Hc).
      rewrite (Ha a x'); [by injection Hc as -> _ _ _| |done].
      eapply sublist_submseteq, elem_of_submseteq in Hs; done.
    + apply sublist_nil_r in Hs as ->. split; [constructor|]. by intros a x ?%elem_of_nil.
  - intros p b Hb. pose proof (fr_build _ _ F p) as Hs. rewrite Hb in Hs.
    destruct (buildDataOf h p) as [b0|] eqn:E; simpl in Hs; [|done].
    destruct (Hn p b0 E) as [Hw0 Hu]. split; [by eapply ssorted_sublist|].
    intros u Hin. rewrite (fr_product _ _ F). apply Hu.
    eapply sublist_submseteq, elem_of_submseteq in Hs; done.
  - intros a Ha. rewrite (frame_isArtifact _ _ _ F) in Ha.
    destruct (Hp a Ha) as (p & Hpa & Hb). exists p. rewrite (fr_product _ _ F). split; [done|].
    pose proof (fr_build _ _ F p) as Hs. destruct Hb as [b Hb]. rewrite Hb in Hs.
    destruct (buildDataOf h' p); simpl in Hs; [by eexists|done].
  - intros t r Hr. pose proof (fr_transformer _ _ F t) as Hs. rewrite Hr in Hs.
    destruct (transformers h !! t) as [r0|] eqn:E; simpl in Hs; [|done].
    by eapply ssorted_sublist; [|apply (Hi t r0)].
Qed.

Lemma elem_of_rev {A} (x : A) l : x ∈ rev l ↔ x ∈ l.
Proof. by rewrite !list_elem_of_In, <-in_rev. Qed.

(** ** Transformers lose only the inputs that are removed *)

Lemma del_keep s v i : i ∈ s → i ≠ v → i ∈ del s v.
Proof.
  intros Hi Hne. unfold del, set_remove.
  destruct (s !! lower_bound Nat.ltb s v) as [x|] eqn:E; simpl; [|done].
  destruct (Nat.ltb v x) eqn:Hv; simpl; [done|].
  pose proof (take_drop_middle _ _ _ E) as Hs.
  rewrite lookup_lower_bound in E. destruct (drop_while _ s) as [|y l] eqn:Ed; [done|].
  simplify_eq/=. apply drop_while_head in Ed.
  rewrite <-Hs, elem_of_app, elem_of_cons in Hi.
  rewrite elem_of_app. destruct Hi as [?|[->|?]]; [by left| |by right].
  destruct Hne. by apply (ltb_total (ltb := Nat.ltb)).
Qed.

Definition keeps_inputs (L : nat → Prop) (h h' : Heap) : Prop :=
  ∀ t r, transformers h !! t = Some r →
    ∃ r', transformers h' !! t = Some r' ∧
      ∀ i, i ∈ transformer_inputs r → L i ∨ i ∈ transformer_inputs r'.

Lemma keeps_inputs_eq L h h' : transformers h' = transformers h → keeps_inputs L h h'.
Proof. intros E t r. rewrite E. eauto. Qed.

Lemma keeps_inputs_trans (L1 L2 L : nat → Prop) h1 h2 h3 :
  (∀ i, L1 i → L i) → (∀ i, L2 i → L i) →
  keeps_inputs L1 h1 h2 → keeps_inputs L2 h2 h3 → keeps_inputs L h1 h3.
Proof.
  intros HL1 HL2 H1 H2 t r Hr. destruct (H1 t r Hr) as (r2 & Hr2 & Hi2).
  destruct (H2 t r2 Hr2) as (r3 & Hr3 & Hi3). exists r3. split; [done|].
  intros i [?|Hi]%Hi2; [by left; apply HL1|]. destruct (Hi3 i Hi); [left; auto|by right].
Qed.

Lemma keeps_inputs_alter f a t h :
  (∀ r, transformer_inputs (f r) = del (transformer_inputs r) a ∨
        transformer_inputs (f r) = transformer_inputs r) →
  keeps_inputs (λ i, i = a) h (set_transformers (alter f t) h).
Proof.
  intros Hf t' r Hr. simpl. destruct (decide (t = t')) as [->|Hne].
  - rewrite lookup_alter_eq, Hr. exists (f r). split; [done|]. intros i Hi.
    destruct (decide (i = a)) as [->|]; [by left|right].
    destruct (Hf r) as [->| ->]; [by apply del_keep|done].
  - rewrite lookup_alter_ne by done. eauto.
Qed.

(** ** [removeArtifact] *)

Lemma sublist_del s v : sublist (del s v) s.
Proof. apply set_remove_sublist. Qed.

Lemma disconnectParent_ok a p h :
  (∀ x, as_artifact h p = Some x → is_Some (transformer x)) →
  ∃ h', disconnectParent a p h = Ok h' ∧ frame h h' ∧ keeps_inputs (λ i, i = a) h h' ∧
    ∀ x, parents (node h' x) = parents (node h x) ∧
      children (node h' x) =
        if decide (p = x) then del (children (node h p)) a else children (node h x).
Proof.
  intros Ht. unfold disconnectParent. rewrite as_artifact_upd_other by done.
  assert (∀ x, children (node (upd_node (set_children (λ s, del s a)) p h) x) =
    if decide (p = x) then del (children (node h p)) a else children (node h x)) as Hc.
  { intros x. by apply (node_upd_change children (λ s, del s a)); [|right]. }
  destruct (as_artifact h p) as [x|] eqn:Hx.
  - destruct (Ht x eq_refl) as [t ->]. eexists. split; [done|]. split; [|split].
    + etrans; [apply frame_set_children|].
      etrans; [by apply (frame_upd_artifact (set_childrenAddedByScanner (λ s, del s a)) p)|].
      apply frame_transformers. intros r. apply sublist_del.
    + match goal with |- keeps_inputs _ _ (set_transformers _ ?h2) =>
        change (keeps_inputs (λ i, i = a) h2 (set_transformers (alter (forgetInput a) t) h2)) end.
      apply keeps_inputs_alter. by left.
    + intros y. match goal with |- context [set_transformers ?f ?h2] =>
        destruct (nodes_same_edges h2 (set_transformers f h2) eq_refl y) as [-> ->] end.
      rewrite !(node_upd_field parents), (node_upd_field children) by done. auto.
  - eexists. split; [done|]. split; [apply frame_set_children|]. split; [by apply keeps_inputs_eq|].
    intros y. by rewrite (node_upd_field parents).
Qed.

Lemma disconnectParents_ok a l h :
  NoDup l → (∀ p x, p ∈ l → as_artifact h p = Some x → is_Some (transformer x)) →
  ∃ h', for_each (disconnectParent a) l h = Ok h' ∧ frame h h' ∧
    keeps_inputs (λ i, i = a) h h' ∧
    ∀ x, parents (node h' x) = parents (node h x) ∧
      children (node h' x) =
        if decide (x ∈ l) then del (children (node h x)) a else children (node h x).
Proof.
  intros Hn. revert h. induction Hn as [|p l Hp Hn IH]; intros h Ht; cbn [for_each].
  { exists h. split; [done|]. split; [done|]. split; [by apply keeps_inputs_eq|].
    intros x. split; [done|]. by rewrite decide_False by apply not_elem_of_nil. }
  destruct (disconnectParent_ok a p h) as (h1 & -> & F1 & I1 & E1).
  { intros x. apply Ht. left. }
  cbn [exn_bind]. destruct (IH h1) as (h2 & -> & F2 & I2 & E2).
  { intros q x Hq Hx. destruct (frame_sym_lookup _ _ _ _ F1 Hx) as (x' & Hx' & Hc).
    injection Hc as _ _ _ <-. eapply Ht; [by right|done]. }
  exists h2. split; [done|]. split; [by etrans|].
  split; [by eapply keeps_inputs_trans; [..|exact I1|exact I2]|].
  intros x. destruct (E1 x) as [P1 C1], (E2 x) as [P2 C2]. rewrite P2, P1. split; [done|].
  rewrite C2, C1. destruct (decide (p = x)) as [->|Hne].
  - rewrite (decide_False _ _ Hp), decide_True; [done|left].
  - destruct (decide (x ∈ l)) as [Hx|Hx].
    + rewrite decide_True; [done|by right].
    + rewrite decide_False; [done|]. rewrite elem_of_cons. naive_solver.
Qed.

Lemma m_nodes_removeArtifactFromSet tags a b :
  m_nodes (removeArtifactFromSet tags a b) = m_nodes b.
Proof.
  revert b. induction tags as [|t tags IH]; intros b; simpl; [done|].
  rewrite IH. unfold removeArtifactFromSetByFileTag. by case_match.
Qed.

Lemma in_sublist {A} (x : A) l l' : sublist l l' → x ∈ l → x ∈ l'.
Proof. intros Hs Hx. eapply elem_of_submseteq; [done|by apply sublist_submseteq]. Qed.

Lemma foldl_same_edges {B} (f : Heap → B → Heap) l h :
  (∀ h x, same_edges h (f h x)) → same_edges h (foldl f h l).
Proof.
  intros Hf. revert h. induction l as [|x l IH]; intros h; simpl; [reflexivity|].
  etrans; [apply Hf|apply IH].
Qed.

Lemma foldl_transformers {B} (f : Heap → B → Heap) l h :
  (∀ h x, transformers (f h x) = transformers h) → transformers (foldl f h l) = transformers h.
Proof.
  intros Hf. revert h. induction l as [|x l IH]; intros h; simpl; [done|]. by rewrite IH.
Qed.

(** The steps before the parents are disconnected. *)
Lemma disconnectChildren_ok a h :
  wf_graph h →
  let h' := disconnectArtifactChildren a (removeFromRuleNodes a (removeFromLookupTable a h)) in
  frame (removeFromLookupTable a h) h' ∧ transformers h' = transformers h ∧
  ∀ x, children (node h' x) = (if decide (a = x) then [] else children (node h x)) ∧
    parents (node h' x) =
      if decide (x ∈ children (node h a)) then del (parents (node h x)) a
      else parents (node h x).
Proof.
  intros Hw. simpl. set (h1 := removeFromLookupTable a h). set (h2 := removeFromRuleNodes a h1).
  assert (same_edges h h2) as E2.
  { transitivity h1; [by apply nodes_same_edges|]. apply foldl_same_edges.
    intros h0 x. apply upd_ruleNode_same_edges. }
  assert (frame h1 h2) as F2.
  { apply frame_foldl. intros ? ?. apply frame_upd_ruleNode. }
  assert (transformers h2 = transformers h) as T2.
  { by apply (foldl_transformers _ _ h1). }
  unfold disconnectArtifactChildren.
  set (h3 := foldl _ h2 (children (node h2 a))).
  assert (transformers h3 = transformers h2) as T3.
  { by apply foldl_transformers. }
  split; [|split].
  - etrans; [exact F2|]. etrans; [|by apply frame_upd_artifact].
    etrans; [|apply frame_set_children]. apply frame_foldl. intros ? ?. apply frame_set_parents.
  - simpl. by rewrite T3.
  - intros x. destruct (E2 x) as [C2 P2], (E2 a) as [Ca _]. split.
    + rewrite (node_upd_field children) by done.
      rewrite (node_upd_change children (λ _, [])) by (done || by right).
      case_decide; [done|]. unfold h3. by rewrite (foldl_upd_field children), C2.
    + rewrite !(node_upd_field parents) by done. unfold h3.
      rewrite (foldl_upd_change parents (λ s, del s a)), P2, Ca; [done| |done|done].
      rewrite Ca. by apply wf_set_NoDup, Hw.
Qed.

Lemma not_in_lookupTable a h h' :
  project_ok h → isArtifact h a = true → frame (removeFromLookupTable a h) h' →
  ∀ key, a ∉ default [] (lookupTable h' !! key).
Proof.
  intros Hok Ha F key Hin. apply (in_sublist _ _ _ (fr_lookup _ _ F key)) in Hin.
  revert Hin. simpl. unfold isArtifact in Ha. unfold resourcePath.
  destruct (as_artifact h a) as [x|] eqn:Hx; [|done].
  destruct (decide (lookupKey (filePath x) = key)) as [<-|Hne].
  - rewrite lookup_partial_alter_eq. simpl. apply removeOne_not_in.
    destruct (lookupTable h !! _) eqn:El; simpl; [|constructor]. by eapply po_lookup.
  - rewrite lookup_partial_alter_ne by done.
    destruct (lookupTable h !! key) as [l|] eqn:El; simpl; [|apply not_elem_of_nil].
    intros Hin. destruct Hne. symmetry. by eapply (po_lookup _ Hok key l).
Qed.

Lemma disconnectArtifact_ok a h :
  project_ok h → isArtifact h a = true →
  (∀ p x, edge h p a → as_artifact h p = Some x → is_Some (transformer x)) →
  ∃ h', disconnectArtifact a (removeFromRuleNodes a (removeFromLookupTable a h)) = Ok h' ∧
    frame h h' ∧ isolated a h h' ∧ keeps_inputs (λ i, i = a) h h' ∧
    (∀ key, a ∉ default [] (lookupTable h' !! key)).
Proof.
  intros Hok Ha Ht. pose proof (po_graph _ Hok) as Hw.
  unfold disconnectArtifact, disconnectArtifactParents.
  destruct (disconnectChildren_ok a h Hw) as (F3 & T3 & E3).
  set (h3 := disconnectArtifactChildren _ _) in *.
  assert (frame h h3) as F03 by (etrans; [apply frame_removeFromLookupTable|exact F3]).
  assert (parents (node h3 a) = parents (node h a)) as Pa.
  { destruct (E3 a) as [_ ->]. apply decide_False. apply (wf_irrefl h Hw). }
  destruct (disconnectParents_ok a (parents (node h3 a)) h3) as (h4 & -> & F4 & I4 & E4).
  { rewrite Pa. by apply wf_set_NoDup, Hw. }
  { intros p x Hp Hx. destruct (frame_sym_lookup _ _ _ _ F03 Hx) as (x' & Hx' & Hc).
    injection Hc as _ _ _ <-. apply (Ht p x'); [|done]. apply (wf_edges h Hw). by rewrite <-Pa. }
  cbn [exn_bind]. eexists. split; [done|]. set (h5 := upd_node _ a h4).
  assert (frame h3 h5) as F35 by (etrans; [exact F4|apply frame_set_parents]).
  split; [by etrans|]. split; [|split].
  - apply isolated_sets; [done|..]; intros x; unfold h5.
    + rewrite (node_upd_field children) by done. destruct (E4 x) as [_ ->], (E3 x) as [-> _].
      rewrite Pa. destruct (decide (x = a)) as [->|Hne].
      * rewrite (decide_True (P := a = a)) by done. by case_decide.
      * by rewrite (decide_False (P := a = x)) by congruence.
    + rewrite (node_upd_change parents (λ _, [])) by (done || by right).
      destruct (decide (x = a)) as [->|Hne]; [by rewrite decide_True|].
      rewrite decide_False by congruence. destruct (E4 x) as [-> _]. apply E3.
  - intros t r. rewrite <-T3. apply I4.
  - apply (not_in_lookupTable a h); [done|done|]. by etrans.
Qed.

Lemma isolated_nodes a h h1 h2 : nodes h2 = nodes h1 → isolated a h h1 → isolated a h h2.
Proof.
  intros E [Hw He]. assert (same_edges h1 h2) as Hs by by apply nodes_same_edges.
  split; [by apply (wf_graph_proper h1 h2)|]. intros u v. rewrite <-He. symmetry.
  by apply edge_proper.
Qed.

(** ** Rule nodes forget the artifact *)

Lemma elem_of_forget a s x :
  wf_set s → x ∈ forget a s ↔ (x ∈ s ∧ x ≠ a) ∨ (x = 0 ∧ a ∈ s).
Proof.
  intros Hs. pose proof (elem_of_del s a x Hs) as Hd. pose proof (del_wf s a Hs) as Hw.
  pose proof (set_remove_removed (ltb := Nat.ltb) s a Hs) as Hr.
  unfold forget, del in *. destruct (set_remove Nat.ltb s a) as [s' removed]. simpl in *.
  destruct removed.
  - rewrite elem_of_ins, Hd by done. assert (a ∈ s) by by apply Hr. tauto.
  - rewrite Hd. assert (a ∉ s) by (intros Ha; by apply Hr in Ha). tauto.
Qed.

Definition forgetInputs (a : nat) (rn : RuleNode) : RuleNode :=
  mkRuleNode (m_rule rn) (forget a (m_oldInputArtifacts rn))
    (forget a (m_oldExplicitlyDependsOn rn)) (forget a (m_oldAuxiliaryInputs rn))
    (m_lastApplicationTime rn) (m_needsToConsiderChangedInputs rn).

Lemma as_ruleNode_foldl_same {B} (f : Heap → B → Heap) l h r :
  (∀ h x, as_ruleNode (f h x) r = as_ruleNode h r) →
  as_ruleNode (foldl f h l) r = as_ruleNode h r.
Proof. intros Hf. revert h. induction l as [|x l IH]; intros h; simpl; [done|]. by rewrite IH. Qed.

Lemma as_ruleNode_removeFromRuleNodes a h r :
  wf_graph h →
  as_ruleNode (removeFromRuleNodes a h) r =
    if decide (edge h r a) then forgetInputs a <$> as_ruleNode h r else as_ruleNode h r.
Proof.
  intros Hw. unfold removeFromRuleNodes.
  assert (∀ l h, NoDup l → as_ruleNode (foldl (λ h r, removeOldInputArtifact r a h) h l) r =
    if decide (r ∈ l) then forgetInputs a <$> as_ruleNode h r else as_ruleNode h r) as Hl.
  { clear. intros l h Hn. revert h. induction Hn as [|q l Hq Hn IH]; intros h; cbn [foldl].
    { by rewrite decide_False by apply not_elem_of_nil. }
    rewrite IH. unfold removeOldInputArtifact. rewrite as_ruleNode_upd.
    destruct (decide (q = r)) as [->|Hne].
    - rewrite decide_False, decide_True by (done || left). by destruct (as_ruleNode h r).
    - destruct (decide (r ∈ l)) as [Hr|Hr].
      + by rewrite decide_True by by right.
      + rewrite decide_False; [done|]. rewrite elem_of_cons. naive_solver. }
  rewrite Hl.
  - destruct (as_ruleNode h r) as [rn|] eqn:E; [|by repeat case_decide].
    apply decide_ext. rewrite elem_of_ruleNodes_of, E, (wf_edges h Hw). naive_solver.
  - unfold ruleNodes_of. apply NoDup_ListNoDup, List.NoDup_filter, NoDup_ListNoDup.
    by apply wf_set_NoDup, Hw.
Qed.

Lemma as_ruleNode_disconnectArtifact a h h' r :
  disconnectArtifact a h = Ok h' → as_ruleNode h' r = as_ruleNode h r.
Proof.
  unfold disconnectArtifact, disconnectArtifactParents. set (h1 := disconnectArtifactChildren a h).
  assert (as_ruleNode h1 r = as_ruleNode h r) as <-.
  { unfold h1, disconnectArtifactChildren.
    rewrite as_ruleNode_upd_artifact, as_ruleNode_upd_other by done.
    apply as_ruleNode_foldl_same. intros h0 x. by apply as_ruleNode_upd_other. }
  clearbody h1. generalize (parents (node h1 a)) as l. clear h. intros l.
  destruct (for_each _ l h1) as [h2|e] eqn:E; cbn [exn_bind]; [|done]. intros [= <-].
  rewrite as_ruleNode_upd_other by done. revert h1 E.
  induction l as [|p l IH]; intros h1; cbn [for_each]; [by intros [= <-]|].
  destruct (disconnectParent a p h1) as [h3|e] eqn:E; cbn [exn_bind]; [|done].
  intros ->%IH. unfold disconnectParent in E. repeat case_match; simplify_eq.
  - change (as_ruleNode (set_transformers ?f ?h0) r) with (as_ruleNode h0 r).
    by rewrite as_ruleNode_upd_artifact, as_ruleNode_upd_other.
  - by apply as_ruleNode_upd_other.
Qed.

Lemma as_ruleNode_removeArtifact a removeFromProduct h h' r :
  wf_graph h → removeArtifact a removeFromProduct h = Ok h' →
  as_ruleNode h' r =
    if decide (edge h r a) then forgetInputs a <$> as_ruleNode h r else as_ruleNode h r.
Proof.
  intros Hw H. assert (wf_graph (removeFromLookupTable a h)) as Hw'.
  { apply (wf_graph_proper h); [|done]. by apply nodes_same_edges. }
  trans (as_ruleNode (removeFromRuleNodes a (removeFromLookupTable a h)) r);
    [|exact (as_ruleNode_removeFromRuleNodes a _ r Hw')].
  unfold removeArtifact in H. set (h1 := removeFromRuleNodes _ _) in *.
  destruct (disconnectArtifact a h1) as [h2|e] eqn:E; cbn [exn_bind] in H; [|done].
  rewrite <-(as_ruleNode_disconnectArtifact _ _ _ r E). clear E h1.
  repeat (case_match; cbn [exn_bind] in H; simplify_eq); done.
Qed.

(** Of the inputs that the rule nodes above [a] remember, [a] is replaced by a
    null pointer. *)
Definition forgotten (a : nat) (h h' : Heap) : Prop :=
  ∀ r rn, as_ruleNode h r = Some rn →
    wf_set (m_oldInputArtifacts rn) → wf_set (m_oldExplicitlyDependsOn rn) →
    wf_set (m_oldAuxiliaryInputs rn) →
    ∃ rn', as_ruleNode h' r = Some rn' ∧ m_rule rn' = m_rule rn ∧
      Forall (λ field : RuleNode → NodeSet, ∀ x,
          x ∈ field rn' ↔ (x ∈ field rn ∧ (edge h r a → x ≠ a)) ∨
                          (x = 0 ∧ edge h r a ∧ a ∈ field rn))
        [m_oldInputArtifacts; m_oldExplicitlyDependsOn; m_oldAuxiliaryInputs].

Lemma removeArtifact_forgotten a removeFromProduct h h' :
  wf_graph h → removeArtifact a removeFromProduct h = Ok h' → forgotten a h h'.
Proof.
  intros Hw H r rn Hr W1 W2 W3. rewrite (as_ruleNode_removeArtifact _ _ _ _ r Hw H), Hr. simpl.
  case_decide as E; eexists; (split; [done|]); (split; [done|]);
    (repeat apply Forall_cons_2; [..|apply Forall_nil_2]); intros x; simpl;
    rewrite ?elem_of_forget by done; tauto.
Qed.

Lemma removeArtifact_ok a removeFromProduct h :
  project_ok h → isArtifact h a = true →
  (∀ p x, edge h p a → as_artifact h p = Some x → is_Some (transformer x)) →
  ∃ h', removeArtifact a removeFromProduct h = Ok h' ∧ frame h h' ∧ isolated a h h' ∧
    keeps_inputs (λ i, i = a) h h' ∧
    (∀ key, a ∉ default [] (lookupTable h' !! key)) ∧
    (removeFromProduct = true → ∀ p b, buildDataOf h' p = Some b → a ∉ m_nodes b) ∧
    isDirty h' = false.
Proof.
  intros Hok Ha Ht. pose proof (po_graph _ Hok) as Hw.
  unfold removeArtifact. destruct (disconnectArtifact_ok a h Hok Ha Ht)
    as (h5 & -> & F5 & Hiso & I5 & L5). cbn [exn_bind].
  assert (isArtifact h5 a = true) as Ha5 by by rewrite (frame_isArtifact _ _ _ F5).
  destruct (po_product _ Hok a Ha) as (p & Hp & [b Hb]).
  unfold isArtifact in Ha5. destruct (as_artifact h5 a) as [x5|]; [|done].
  rewrite (fr_product _ _ F5), Hp.
  set (h6 := match transformer x5 with Some t => _ | None => h5 end).
  assert (frame h5 h6) as F6.
  { unfold h6. case_match; [|done]. by apply frame_transformers. }
  assert (keeps_inputs (λ i, i = a) h h6) as I6.
  { apply (keeps_inputs_trans (λ i, i = a) (λ i, i = a) _ h h5 h6); [done|done|exact I5|].
    unfold h6. case_match; [|by apply keeps_inputs_eq]. apply keeps_inputs_alter. by right. }
  assert (nodes h6 = nodes h5) as N6 by (unfold h6; by case_match).
  assert (lookupTable h6 = lookupTable h5) as L6 by (unfold h6; by case_match).
  assert (frame h h6) as F06 by by etrans.
  pose proof (fr_build _ _ F06 p) as Hb6. rewrite Hb in Hb6.
  destruct (buildDataOf h6 p) as [b6|] eqn:Eb6; [|done].
  destruct removeFromProduct; cbn [exn_bind].
  - eexists. split; [done|]. set (f := removeArtifactFromProduct _ a).
    assert (∀ b, m_nodes (f b) = del (m_nodes b) a) as Hf.
    { intros b'. unfold f, removeArtifactFromProduct. by rewrite m_nodes_removeArtifactFromSet. }
    assert (frame h (set_isDirty false (upd_buildData f p h6))) as F7.
    { etrans; [exact F06|]. etrans; [|apply frame_isDirty]. apply frame_upd_buildData.
      intros b'. rewrite Hf. apply sublist_del. }
    split; [exact F7|]. split; [by apply (isolated_nodes a h h5)|]. split; [exact I6|].
    split; [intros key; change (a ∉ default [] (lookupTable h6 !! key)); by rewrite L6|].
    split; [|done]. intros _ q bd Hq. change (buildDataOf (upd_buildData f p h6) q = Some bd) in Hq.
    rewrite buildDataOf_upd in Hq. case_decide as E.
    + rewrite <-E, Eb6 in Hq. simplify_eq/=. rewrite Hf, elem_of_del; [naive_solver|].
      eapply ssorted_sublist; [exact Hb6|]. by eapply po_nodes.
    + intros Hin. apply E. pose proof (fr_build _ _ F06 q) as Hbq. rewrite Hq in Hbq.
      destruct (buildDataOf h q) as [bq|] eqn:Ebq; [|done].
      apply (in_sublist _ _ _ Hbq) in Hin. apply (po_nodes _ Hok q bq Ebq) in Hin. congruence.
  - eexists. split; [done|]. split; [by etrans; [|apply frame_isDirty]|].
    split; [by apply (isolated_nodes a h h5)|]. split; [exact I6|].
    split; [|done]. intros key; change (a ∉ default [] (lookupTable h6 !! key)); by rewrite L6.
Qed.

(** ** [removeArtifactAndExclusiveDependents] *)

Section Dependents.
Variable removeFromProduct : bool.

(** [x] is in no table any more. *)
Definition gone (h : Heap) (x : nat) : Prop :=
  (∀ key, x ∉ default [] (lookupTable h !! key)) ∧
  (removeFromProduct = true → ∀ p b, buildDataOf h p = Some b → x ∉ m_nodes b).

Lemma gone_frame h h' x : gone h x → frame h h' → gone h' x.
Proof.
  intros [H1 H2] F. split.
  - intros key Hin. apply (H1 key). by eapply in_sublist; [apply F|].
  - intros Hr p b Hb Hin. pose proof (fr_build _ _ F p) as Hs. rewrite Hb in Hs.
    destruct (buildDataOf h p) as [b0|] eqn:E; [|done].
    apply (H2 Hr p b0 E). by eapply in_sublist; [apply Hs|].
Qed.

(** All that [x] was made from is in [D]: its children, or the inputs of its
    transformer. *)
Definition exclusive (h : Heap) (D : list nat) (x : nat) : Prop :=
  (∀ y, edge h x y → y ∈ D) ∨
  ∃ a t r, as_artifact h x = Some a ∧ transformer a = Some t ∧ transformers h !! t = Some r ∧
    ∀ i, i ∈ transformer_inputs r → i ∈ D.

Lemma exclusive_mono h D D' x : D ⊆ D' → exclusive h D x → exclusive h D' x.
Proof.
  intros Hs [H|(a & t & r & ? & ? & ? & H)]; [left|right].
  - intros y Hy. by apply Hs, H.
  - exists a, t, r. split_and!; [done..|]. intros i Hi. by apply Hs, H.
Qed.

(** From [h] to [h'] exactly the artifacts of [D] have been removed, because of
    the artifact [a]. *)
Record removes (a : nat) (D : list nat) (h h' : Heap) : Prop := {
  rm_frame : frame h h';
  rm_wf : wf_graph h';
  rm_self : a ∈ D;
  rm_edges x y : edge h' x y ↔ edge h x y ∧ x ∉ D ∧ y ∉ D;
  rm_inputs : keeps_inputs (λ i, i ∈ D) h h';
  rm_keep x : isArtifact h x = true → x ∉ D → (∃ y, edge h x y) → ∃ y, edge h' x y;
  rm_exclusive x : x ∈ D → x = a ∨ exclusive h D x;
  rm_above x : x ∈ D → rtc (edge h) x a;
  rm_gone x : x ∈ D → gone h' x
}.

(** In the loop over the parents of [a], after those in [dn]. *)
Record removing (a : nat) (D dn : list nat) (h h' : Heap) : Prop := {
  ri_frame : frame h h';
  ri_wf : wf_graph h';
  ri_edges x y : edge h' x y ↔ edge h x y ∧ x ∉ D ∧ y ∉ D ∧ ¬ (x ∈ dn ∧ y = a);
  ri_inputs : keeps_inputs (λ i, i ∈ a :: D) h h';
  ri_keep x : isArtifact h x = true → x ∉ a :: D → (∃ y, edge h x y) → ∃ y, edge h' x y;
  ri_exclusive x : x ∈ D → exclusive h (a :: D) x;
  ri_above x : x ∈ D → rtc (edge h) x a;
  ri_gone x : x ∈ D → gone h' x
}.

Lemma removing_start a h : wf_graph h → removing a [] [] h h.
Proof.
  intros Hw. split; [done|done| |by apply keeps_inputs_eq|done|..].
  - intros x y. split; [|tauto]. intros. split_and!; [done|apply not_elem_of_nil..|].
    by intros [?%elem_of_nil _].
  - by intros x ?%elem_of_nil.
  - by intros x ?%elem_of_nil.
  - by intros x ?%elem_of_nil.
Qed.

(** What [loseChild] does to the graph, and what its answer means. *)
Lemma loseChild_ok a p h :
  wf_graph h → isArtifact h p = true →
  let '(b, h') := loseChild a p h in
  frame h h' ∧ wf_graph h' ∧ (∀ x y, edge h' x y ↔ edge h x y ∧ ¬ (x = p ∧ y = a)) ∧
  keeps_inputs (λ i, i = a) h h' ∧
  if b then exclusive h' [] p else ∃ y, edge h' p y.
Proof.
  intros Hw Hp. unfold loseChild. set (h1 := disconnect p a h).
  assert (frame h h1) as F1.
  { unfold h1, disconnect, onChildDisconnected.
    assert (frame h (removeEdge p a h)) as F0 by (etrans; [apply frame_set_children|apply frame_set_parents]).
    fold (removeEdge p a h). case_match; [|done]. etrans; [exact F0|]. by apply frame_upd_artifact. }
  assert (wf_graph h1) as Hw1 by by apply wf_disconnect.
  pose proof (λ x y, edge_disconnect p a h x y Hw) as He. fold h1 in He.
  assert (keeps_inputs (λ i, i = a) h h1) as I1.
  { apply keeps_inputs_eq. unfold h1, disconnect, onChildDisconnected. by case_match. }
  rewrite <-(frame_isArtifact _ _ p F1) in Hp. unfold isArtifact in Hp.
  destruct (children (node h1 p)) as [|c l] eqn:Ec.
  { split_and!; [done..|]. left. intros y. unfold edge. rewrite Ec. done. }
  assert (edge h1 p c) as Hpc by (unfold edge; rewrite Ec; left).
  destruct (as_artifact h1 p) as [x|] eqn:Hx; [|done].
  destruct (transformer x) as [t|] eqn:Ht; [|split_and!; eauto].
  set (h2 := set_transformers (alter (removeInput a) t) h1).
  assert (same_edges h1 h2) as S2 by by apply nodes_same_edges.
  assert (∀ u v, edge h2 u v ↔ edge h1 u v) as E2.
  { intros u v. symmetry. by apply edge_proper. }
  split. { etrans; [exact F1|]. apply frame_transformers. intros r. apply sublist_del. }
  split; [by apply (wf_graph_proper h1 h2)|].
  split; [intros u v; by rewrite E2|]. split.
  { apply (keeps_inputs_trans (λ i, i = a) (λ i, i = a) _ h h1 h2); [done|done|done|].
    apply keeps_inputs_alter. by left. }
  destruct (transformers h2 !! t) as [r|] eqn:Hr; [|exists c; by apply E2].
  case_bool_decide as Hi; [|exists c; by apply E2].
  right. exists x, t, r. split_and!; [done..|]. rewrite Hi. by intros i ?%elem_of_nil.
Qed.

Lemma removing_lose a D dn p h h1 h2 :
  removing a D dn h h1 → (∀ x y, edge h2 x y ↔ edge h1 x y ∧ ¬ (x = p ∧ y = a)) →
  ∀ x y, edge h2 x y ↔ edge h x y ∧ x ∉ D ∧ y ∉ D ∧ ¬ (x ∈ p :: dn ∧ y = a).
Proof. intros R He x y. rewrite He, (ri_edges _ _ _ _ _ R), elem_of_cons. naive_solver. Qed.

(** The parent [p] loses the child and stays. *)
Lemma removing_keep a D dn p h h1 h2 :
  removing a D dn h h1 → frame h1 h2 → wf_graph h2 →
  (∀ x y, edge h2 x y ↔ edge h1 x y ∧ ¬ (x = p ∧ y = a)) →
  keeps_inputs (λ i, i = a) h1 h2 → (∃ y, edge h2 p y) →
  removing a D (p :: dn) h h2.
Proof.
  intros R F Hw He Hi Hp. split; [by etrans; [apply R|]|done| | | |apply R|apply R|].
  - by eapply removing_lose.
  - eapply keeps_inputs_trans; [| |apply R|exact Hi]; [done|]. intros i ->. left.
  - intros x Hx Hn Hy. destruct (decide (x = p)) as [->|Hne]; [done|].
    destruct (ri_keep _ _ _ _ _ R x Hx Hn Hy) as [y Hxy]. exists y. apply He. naive_solver.
  - intros x Hx. eapply gone_frame; [by eapply ri_gone|done].
Qed.

(** A node without all that has been lost is exclusive of it. *)
Lemma exclusive_back a D dn p h h2 D2 x :
  frame h h2 →
  (∀ x y, edge h2 x y ↔ edge h x y ∧ x ∉ D ∧ y ∉ D ∧ ¬ (x ∈ p :: dn ∧ y = a)) →
  keeps_inputs (λ i, i ∈ a :: D) h h2 →
  (∀ z, z ∈ D → exclusive h (a :: D) z) →
  exclusive h2 D2 x → exclusive h (a :: D ++ D2) x.
Proof.
  intros F He Hk Hx [H|(art & t & r & Ha & Ht & Hr & H)].
  - destruct (decide (x ∈ D)) as [Hin|Hin].
    { eapply exclusive_mono; [|by apply Hx]. intros z. rewrite !elem_of_cons, elem_of_app. tauto. }
    left. intros y Hy. rewrite elem_of_cons, elem_of_app.
    destruct (decide (y = a)) as [->|Hya]; [by left|].
    destruct (decide (y ∈ D)) as [?|Hyd]; [tauto|]. right. right. apply H, He. naive_solver.
  - right. destruct (frame_sym_lookup _ _ _ _ F Ha) as (art' & Ha' & Hc).
    injection Hc as _ _ _ Ht'. pose proof (fr_transformer _ _ F t) as Hs. rewrite Hr in Hs.
    destruct (transformers h !! t) as [r0|] eqn:Hr0; [|done].
    exists art', t, r0. split_and!; [done|by rewrite Ht'|done|].
    intros i Hi. destruct (Hk t r0 Hr0) as (r' & Hr' & Hkeep). simplify_eq.
    rewrite elem_of_cons, elem_of_app. destruct (Hkeep i Hi) as [Hl|Hl].
    + apply elem_of_cons in Hl. tauto.
    + right. right. by apply H.
Qed.

(** The parent [p] goes too, and what depends on it. *)
Lemma removing_remove a D dn p D2 h h1 h2 h3 :
  removing a D dn h h1 → edge h p a → frame h1 h2 → wf_graph h2 →
  (∀ x y, edge h2 x y ↔ edge h1 x y ∧ ¬ (x = p ∧ y = a)) →
  keeps_inputs (λ i, i = a) h1 h2 → exclusive h2 [] p →
  removes p D2 h2 h3 →
  removing a (D ++ D2) (p :: dn) h h3.
Proof.
  intros R Hpa F Hw He Hi Hp R2.
  assert (frame h h2) as F2 by (etrans; [apply R|exact F]).
  assert (keeps_inputs (λ i, i ∈ a :: D) h h2) as I2.
  { eapply keeps_inputs_trans; [| |apply R|exact Hi]; [done|]. intros i ->. left. }
  pose proof (removing_lose _ _ _ _ _ _ _ R He) as E2.
  split; [by etrans; [exact F2|apply R2]|apply R2| | | | | |].
  - intros x y. rewrite (rm_edges _ _ _ _ R2), E2, !not_elem_of_app. tauto.
  - apply (keeps_inputs_trans (λ i, i ∈ a :: D) (λ i, i ∈ D2) _ h h2 h3); [| |exact I2|apply R2];
      intros i; rewrite !elem_of_cons, elem_of_app; tauto.
  - intros x Hx Hn Hy. rewrite elem_of_cons, elem_of_app in Hn.
    assert (x ≠ p) as Hxp. { intros ->. apply Hn. right. right. apply R2. }
    destruct (ri_keep _ _ _ _ _ R x Hx) as [y Hxy]; [rewrite elem_of_cons; tauto|done|].
    apply (rm_keep _ _ _ _ R2); [by rewrite (frame_isArtifact _ _ _ F2)|tauto|].
    exists y. apply He. naive_solver.
  - intros x Hx. destruct (decide (x ∈ D)) as [Hin|Hin].
    { eapply exclusive_mono; [|by eapply ri_exclusive].
      intros z. rewrite !elem_of_cons, elem_of_app. tauto. }
    apply elem_of_app in Hx as [?|Hx]; [done|].
    assert (∀ z, z ∈ D → exclusive h (a :: D) z) as HD by apply R.
    destruct (rm_exclusive _ _ _ _ R2 x Hx) as [->|Hex].
    + eapply exclusive_mono; [|by eapply exclusive_back].
      intros z. rewrite app_nil_r, !elem_of_cons, elem_of_app. tauto.
    + by eapply exclusive_back.
  - intros x [Hx|Hx]%elem_of_app; [by eapply ri_above|].
    pose proof (rm_above _ _ _ _ R2 x Hx) as Hr. apply rtc_r with p; [|done].
    assert (∀ u v, edge h2 u v → edge h u v) as Hsub by (intros u v Huv; by apply E2 in Huv as [? _]).
    clear -Hr Hsub. induction Hr as [|u v w Huv _ IH]; [apply rtc_refl|].
    apply rtc_l with v; [by apply Hsub|done].
  - intros x [Hx|Hx]%elem_of_app; [|by eapply rm_gone].
    eapply gone_frame; [by eapply ri_gone|]. etrans; [exact F|apply R2].
Qed.

(** The loop over the parents [l] of [a], where the recursive call [f] is right
    for each of them. *)
Lemma exclusiveDependents_ok a h f l :
  project_ok h →
  (∀ p, p ∈ l → edge h p a ∧ isArtifact h p = true) →
  (∀ p h2 rem, p ∈ l → project_ok h2 → frame h h2 → (∀ x y, edge h2 x y → edge h x y) →
     wf_set rem →
     ∃ h3 rem3 D2, f p (h2, rem) = Ok (h3, rem3) ∧ removes p D2 h2 h3 ∧ wf_set rem3 ∧
       ∀ x, x ∈ rem3 ↔ x ∈ rem ∨ x ∈ D2) →
  ∀ D dn h1 rem, removing a D dn h h1 → wf_set rem →
  ∃ h' rem' D', exclusiveDependents f a l (h1, rem) = Ok (h', rem') ∧
    removing a (D ++ D') (rev l ++ dn) h h' ∧ wf_set rem' ∧ ∀ x, x ∈ rem' ↔ x ∈ rem ∨ x ∈ D'.
Proof.
  intros Hok. induction l as [|p l IH]; intros Hl Hf D dn h1 rem R Hrem; simpl.
  { exists h1, rem, []. rewrite app_nil_r. split_and!; [done..|]. intros x. rewrite elem_of_nil. tauto. }
  destruct (Hl p) as [Hpa Hp]; [left|].
  assert (isArtifact h1 p = true) as Hp1 by by rewrite (frame_isArtifact h h1 p (ri_frame _ _ _ _ _ R)).
  pose proof (loseChild_ok a p h1 (ri_wf _ _ _ _ _ R) Hp1) as Hc.
  destruct (loseChild a p h1) as [b h2]. destruct Hc as (F & Hw & He & Hi & Hb).
  assert (∀ q, q ∈ l → edge h q a ∧ isArtifact h q = true) as Hl' by (intros; apply Hl; by right).
  destruct b.
  - destruct (Hf p h2 rem) as (h3 & rem3 & D2 & -> & R2 & Hrem3 & Hin3); [left| | | |done|].
    + eapply project_ok_frame; [done| |done]. etrans; [apply R|exact F].
    + etrans; [apply R|exact F].
    + intros x y Hxy. apply He in Hxy as [Hxy _]. by apply (ri_edges _ _ _ _ _ R) in Hxy as [? _].
    + cbn [exn_bind]. destruct (IH Hl') with (D := D ++ D2) (dn := p :: dn) (h1 := h3) (rem := rem3)
        as (h' & rem' & D' & -> & R' & Hrem' & Hin'); [|by eapply removing_remove|done|].
      { intros q h0 r0 Hq. apply Hf. by right. }
      exists h', rem', (D2 ++ D'). rewrite <-!app_assoc in *. split_and!; [done..|].
      intros x. rewrite Hin', Hin3, elem_of_app. tauto.
  - cbn [exn_bind]. set (h3 := upd_node (upd_artifact clearTimestamp) p h2).
    assert (frame h2 h3) as F3 by by apply frame_upd_artifact.
    assert (same_edges h2 h3) as S3 by apply upd_artifact_same_edges.
    assert (removing a D (p :: dn) h h3) as R3.
    { apply (removing_keep a D dn p h h1 h3); [done|by etrans|by apply (wf_graph_proper h2 h3)| | |].
      - intros x y. rewrite <-He. symmetry. by apply edge_proper.
      - intros t r Hr. apply (Hi t r Hr).
      - destruct Hb as [y Hy]. exists y. by apply (edge_proper h2 h3 S3 p p eq_refl y y eq_refl). }
    destruct (IH Hl') with (D := D) (dn := p :: dn) (h1 := h3) (rem := rem)
      as (h' & rem' & D' & -> & R' & Hrem' & Hin'); [|done|done|].
    { intros q h0 r0 Hq. apply Hf. by right. }
    exists h', rem', D'. rewrite <-!app_assoc in *. by split_and!.
Qed.

(** After the loop the artifact itself is removed. *)
Lemma removing_end a D h h1 h' :
  removing a D (rev (artifacts_of h (parents (node h a))) ++ []) h h1 → wf_graph h →
  frame h1 h' → isolated a h1 h' → keeps_inputs (λ i, i = a) h1 h' →
  (∀ key, a ∉ default [] (lookupTable h' !! key)) →
  (removeFromProduct = true → ∀ p b, buildDataOf h' p = Some b → a ∉ m_nodes b) →
  removes a (a :: D) h h'.
Proof.
  intros R Hw F [Hw' He] Hi Hl Hn.
  assert (∀ x, isArtifact h x = true → edge h x a → ¬ edge h1 x a) as Hdn.
  { intros x Hx Hxa Hx1. apply (ri_edges _ _ _ _ _ R) in Hx1 as (_ & _ & _ & []).
    split; [|done]. rewrite app_nil_r, elem_of_rev. apply elem_of_artifacts_of.
    split; [by apply (wf_edges h Hw)|]. unfold isArtifact in Hx. by destruct (as_artifact h x). }
  split; [by etrans; [apply R|exact F]|done|left| | | | | |].
  - intros x y. rewrite He, (ri_edges _ _ _ _ _ R), !not_elem_of_cons. naive_solver.
  - eapply keeps_inputs_trans; [| |apply R|exact Hi]; [done|]. intros i ->. left.
  - intros x Hx Hxn Hy. destruct (ri_keep _ _ _ _ _ R x Hx Hxn Hy) as [y Hxy].
    exists y. apply He. split; [done|]. rewrite not_elem_of_cons in Hxn. split; [tauto|].
    intros ->. apply (Hdn x); [done| |done]. by apply (ri_edges _ _ _ _ _ R) in Hxy as [? _].
  - intros x [->|Hx]%elem_of_cons; [by left|right]. by eapply ri_exclusive.
  - intros x [->|Hx]%elem_of_cons; [apply rtc_refl|]. by eapply ri_above.
  - intros x [->|Hx]%elem_of_cons; [by split|]. eapply gone_frame; [by eapply ri_gone|done].
Qed.

(** Different nodes above which [a] is: no more than the nodes of the graph. *)
Lemma trail_above_bounded h0 trail a :
  wf_graph h0 → NoDup trail → (∀ x, x ∈ trail → tc (edge h0) a x) →
  length trail ≤ size (nodes h0).
Proof.
  intros Hw Hn Ht. rewrite <-size_dom, <-(size_list_to_set (C := gset nat) trail Hn).
  apply subseteq_size. intros x. rewrite elem_of_list_to_set, elem_of_dom. intros Hx.
  assert (∀ u v, tc (edge h0) u v → present h0 v) as Hp; [|by apply (Hp a), Ht].
  induction 1; [by eapply edge_present_r|done].
Qed.

Lemma removeDependents_ok h0 fuel a h rem trail :
  wf_graph h0 → acyclic h0 → (∀ x y, edge h x y → edge h0 x y) →
  project_ok h → isArtifact h a = true → wf_set rem →
  NoDup trail → (∀ x, x ∈ trail → tc (edge h0) a x) → size (nodes h0) < fuel + length trail →
  ∃ h' rem' D, removeArtifactAndExclusiveDependents fuel removeFromProduct a (h, rem)
      = Ok (h', rem') ∧
    removes a D h h' ∧ wf_set rem' ∧ ∀ x, x ∈ rem' ↔ x ∈ rem ∨ x ∈ D.
Proof.
  intros Hw0 Hac. revert a h rem trail. induction fuel as [|fuel IH];
    intros a h rem trail Hsub Hok Ha Hrem Hn Ht Hlt; simpl.
  { pose proof (trail_above_bounded h0 trail a Hw0 Hn Ht). lia. }
  set (l := artifacts_of h (parents (node h a))).
  assert (∀ p, p ∈ l → edge h p a ∧ isArtifact h p = true) as Hl.
  { intros p [Hp [x Hx]]%elem_of_artifacts_of. split; [by apply (wf_edges h (po_graph _ Hok))|].
    unfold isArtifact. by rewrite Hx. }
  destruct (exclusiveDependents_ok a h (removeArtifactAndExclusiveDependents fuel removeFromProduct)
    l Hok Hl) with (D := @nil nat) (dn := @nil nat) (h1 := h) (rem := ins rem a)
    as (h1 & rem1 & D & -> & R & Hrem1 & Hin1).
  - intros p h2 rem2 Hp Hok2 F2 Hsub2 Hrem2. destruct (Hl p Hp) as [Hpa Hpart].
    apply (IH p h2 rem2 (a :: trail)); [by auto|done|by rewrite (frame_isArtifact _ _ _ F2)|done| | |].
    + constructor; [|done]. intros Hx. by apply (Hac a), Ht.
    + intros x [->|Hx]%elem_of_cons; [by apply tc_once, Hsub|].
      apply tc_l with a; [by apply Hsub|by apply Ht].
    + simpl. lia.
  - apply removing_start, Hok.
  - by apply ins_wf.
  - cbn [exn_bind]. simpl in R.
    assert (project_ok h1) as Hok1 by (eapply project_ok_frame; [done|apply R|apply R]).
    destruct (removeArtifact_ok a removeFromProduct h1) as (h' & -> & F & Hiso & Hi & Hkey & Hnode & _);
      [done|by rewrite (frame_isArtifact h h1 a (ri_frame _ _ _ _ _ R))| |].
    { intros p x Hpa Hx. exfalso. apply (ri_edges _ _ _ _ _ R) in Hpa as (Hpa & _ & _ & []).
      split; [|done]. rewrite app_nil_r, elem_of_rev. apply elem_of_artifacts_of.
      split; [by apply (wf_edges h (po_graph _ Hok))|].
      destruct (frame_sym_lookup h h1 p x (ri_frame _ _ _ _ _ R) Hx) as (x' & ? & _). eauto. }
    cbn [exn_bind]. exists h', rem1, (a :: D). split; [done|]. split; [|split; [done|]].
    + eapply removing_end; [exact R|apply Hok|done..].
    + intros x. rewrite Hin1, elem_of_ins, elem_of_cons by done. tauto.
Qed.
End Dependents.

Lemma removes_ext removeFromProduct a D D' h h' :
  (∀ x, x ∈ D ↔ x ∈ D') → removes removeFromProduct a D h h' → removes removeFromProduct a D' h h'.
Proof.
  intros HD R. split; [apply R|apply R|by apply HD, R| | | | | |].
  - intros x y. by rewrite (rm_edges _ _ _ _ _ R), !HD.
  - intros t r Hr. destruct (rm_inputs _ _ _ _ _ R t r Hr) as (r' & Hr' & Hi).
    exists r'. split; [done|]. intros i Hin. rewrite <-HD. by apply Hi.
  - intros x Hx Hn. apply (rm_keep _ _ _ _ _ R x Hx). by rewrite HD.
  - intros x Hx%HD. destruct (rm_exclusive _ _ _ _ _ R x Hx) as [?|He]; [by left|right].
    eapply exclusive_mono; [|exact He]. intros z. apply HD.
  - intros x Hx%HD. by eapply rm_above.
  - intros x Hx%HD. by eapply rm_gone.
Qed.

(** ** The properties *)



(** ** The properties at a concrete project

    Source files 1 and 4 are compiled to 2 and 5, which are linked to 6. *)

Definition exampleNode (ps cs : list nat) (path : string) (ty : ArtifactType) (t : option nat) : Node :=
  mkNode ps cs (Some 9) (ArtifactNodeType (mkArtifact path 7 ty [] [] [] t [] 0)).

Definition exampleBuild : Heap :=
  mkHeap
    (list_to_map
      [(1, exampleNode [2] [] "/s/a.c" SourceFile None);
       (2, exampleNode [6] [1] "/b/a.o" Generated (Some 20));
       (6, exampleNode [] [2; 5] "/b/app" Generated (Some 30));
       (4, exampleNode [5] [] "/s/b.c" SourceFile None);
       (5, exampleNode [6] [4] "/b/b.o" Generated (Some 50))])
    (list_to_map
      [(20, mkTransformer [1] [2] [] 6 ∅ ∅); (30, mkTransformer [2; 5] [6] [] 7 ∅ ∅);
       (50, mkTransformer [4] [5] [] 6 ∅ ∅)])
    ∅
    {[9 := mkResolvedProduct "app" true [] [] [] 0 []
             (Some (mkProductBuildData [1; 2; 4; 5; 6] [6] ∅ true))]}
    ∅
    (list_to_map [((lit "a.c", lit "/s"), [1]); ((lit "a.o", lit "/b"), [2])]) true.

Lemma exampleBuild_artifact a x :
  as_artifact exampleBuild a = Some x →
  (a, filePath x) ∈ [(1, lit "/s/a.c"); (2, lit "/b/a.o"); (6, lit "/b/app"); (4, lit "/s/b.c");
                     (5, lit "/b/b.o")] ∧
  (a ∈ [2; 5; 6] → is_Some (transformer x)).
Proof.
  unfold as_artifact, exampleBuild. cbn [nodes]. intros Hx.
  destruct (_ !! a) as [n|] eqn:Hn; [|done].
  apply elem_of_list_to_map_2 in Hn. rewrite !elem_of_cons, elem_of_nil in Hn.
  destruct_or! Hn; simplify_eq/=; (split; [rewrite !elem_of_cons; tauto|]);
    rewrite !elem_of_cons, elem_of_nil; intros; destruct_or!; first [done|by eexists].
Qed.

Lemma exampleBuild_ok : project_ok exampleBuild.
Proof.
  split.
  - apply check_graph_ok. by vm_compute.
  - intros key l Hk. unfold exampleBuild in Hk. cbn [lookupTable] in Hk.
    apply elem_of_list_to_map_2 in Hk. rewrite !elem_of_cons, elem_of_nil in Hk.
    destruct_or! Hk; injection Hk as -> ->; (split; [apply NoDup_singleton|]);
      intros a x ->%list_elem_of_singleton Hx; apply exampleBuild_artifact in Hx as [Hx _];
      rewrite !elem_of_cons, elem_of_nil in Hx; destruct_or! Hx; try done;
      injection Hx as Hf; rewrite Hf; by vm_compute.
  - intros p b. unfold buildDataOf, exampleBuild. cbn [products]. case_match eqn:E; [|done].
    apply lookup_singleton_Some in E as [<- <-]. intros [= <-].
    split; [by apply ssorted_nat_check|]. simpl. intros u. rewrite !elem_of_cons, elem_of_nil.
    intros. destruct_or!; subst; first [done|by vm_compute].
  - intros a Ha. exists 9. unfold isArtifact in Ha. split; [|by eexists].
    destruct (as_artifact exampleBuild a) as [x|] eqn:Hx; [|done].
    apply exampleBuild_artifact in Hx as [Hx _]. rewrite !elem_of_cons, elem_of_nil in Hx.
    destruct_or! Hx; injection Hx as -> _; by vm_compute.
  - intros t r Hr. unfold exampleBuild in Hr. cbn [transformers] in Hr.
    apply elem_of_list_to_map_2 in Hr. rewrite !elem_of_cons, elem_of_nil in Hr.
    destruct_or! Hr; injection Hr as -> ->; by apply ssorted_nat_check.
Qed.

Lemma exampleBuild_acyclic : acyclic exampleBuild.
Proof. apply check_order_acyclic. by vm_compute. Qed.


