(* ===== verification/ArtifactLookup.v ===== *)
(** * Looking up artifacts by their paths

    What [lookupArtifact] finds, and what it depends on. *)

From S2P Require Import Prelude FlatSet BuildGraph BuildGraphCorrect ArtifactRemoval.

(** ** The artifact for a path *)

Lemma findArtifact_ext h h' p l :
  (∀ x, x ∈ l → isArtifact h' x = isArtifact h x ∧ productOf h' x = productOf h x) →
  findArtifact h' p false l = findArtifact h p false l.
Proof.
  induction l as [|r l IH]; intros H; cbn [findArtifact]; [done|].
  destruct (H r) as [Ha Hp]; [left|]. rewrite Hp, IH by (intros; apply H; by right).
  unfold isArtifact in Ha. by destruct (as_artifact h' r), (as_artifact h r).
Qed.

Lemma lookupArtifactByPath_ext h h' p path :
  lookupTable h' = lookupTable h → (∀ x, isArtifact h' x = isArtifact h x) →
  (∀ x, productOf h' x = productOf h x) →
  lookupArtifactByPath h' p path false = lookupArtifactByPath h p path false.
Proof.
  intros Hl Ha Hp. unfold lookupArtifactByPath, lookupArtifact, lookupFiles. rewrite Hl.
  by apply findArtifact_ext.
Qed.

Lemma findArtifact_Some h p l a :
  findArtifact h p false l = Some a → a ∈ l ∧ is_Some (as_artifact h a) ∧ productOf h a = Some p.
Proof.
  induction l as [|r l IH]; cbn [findArtifact]; [done|].
  assert (findArtifact h p false l = Some a →
    a ∈ r :: l ∧ is_Some (as_artifact h a) ∧ productOf h a = Some p) as Hskip.
  { intros [? ?]%IH. split; [by right|done]. }
  destruct (as_artifact h r) as [x|] eqn:Hx; [|done].
  destruct (productOf h r) as [q|] eqn:Hq; [|done].
  destruct (Nat.eqb_spec q p) as [->|]; [|done]. intros [= <-].
  split; [left|]. by rewrite Hx, Hq.
Qed.

(** An artifact that is found under a path has its file name. *)
Lemma lookupArtifactByPath_Some h p path a :
  project_ok h → lookupArtifactByPath h p path false = Some a →
  productOf h a = Some p ∧ ∃ x, as_artifact h a = Some x ∧ fileName (filePath x) = fileName path.
Proof.
  intros Hok (Hin & [x Hx] & Hp)%findArtifact_Some. split; [done|]. exists x. split; [done|].
  unfold lookupFiles in Hin. destruct (lookupTable h !! _) as [l|] eqn:E; [|by apply elem_of_nil in Hin].
  destruct (po_lookup _ Hok _ _ E) as [_ Ha]. specialize (Ha a x Hin Hx).
  by injection Ha.
Qed.

Lemma findArtifact_snoc h p l a :
  findArtifact h p false l = None → is_Some (as_artifact h a) → productOf h a = Some p →
  findArtifact h p false (l ++ [a]) = Some a.
Proof.
  intros Hl [x Hx] Hp. induction l as [|r l IH]; cbn [findArtifact app] in *.
  { by rewrite Hx, Hp, Nat.eqb_refl. }
  destruct (as_artifact h r); [|auto]. destruct (productOf h r) as [q|]; [|auto].
  destruct (q =? p); [done|auto].
Qed.
