(* ===== verification/RuleGraph.v ===== *)
(** * The rule graph and the rule nodes of a product

    [RuleGraph] of [rulegraph.cpp] orders the rules of a product by what they
    take and make; [CreateRuleNodes] and [connectRulesToDependencies] of
    [projectbuilddata.cpp] turn it into rule nodes of the build graph. *)

From S2P Require Import Prelude FlatSet BuildGraph.

(** ** [RuleGraph] *)

(** The rules are those of the heap [h]; [ruleGraphId] is the member of that
    name of each rule that has been inserted. *)
Record RuleGraph := mkRuleGraph {
  m_outputFileTagToRule : gmap nat (list nat);
  m_rules : list nat;
  ruleGraphId : gmap nat nat;
  m_ruleParents : list (list nat);
  m_ruleChildren : list (list nat);
  m_rootRules : NodeSet
}.

Definition emptyRuleGraph : RuleGraph := mkRuleGraph ∅ [] ∅ [] [] [].

Definition emptyRule : Rule := mkRule 0 [] [] [] [] [] [] [] false false false.
Definition getRule (h : Heap) (r : nat) : Rule := default emptyRule (rules h !! r).

Definition set_outputFileTagToRule (m : gmap nat (list nat)) (g : RuleGraph) : RuleGraph :=
  mkRuleGraph m (m_rules g) (ruleGraphId g) (m_ruleParents g) (m_ruleChildren g) (m_rootRules g).
Definition set_ruleEdges (ps cs : list (list nat)) (g : RuleGraph) : RuleGraph :=
  mkRuleGraph (m_outputFileTagToRule g) (m_rules g) (ruleGraphId g) ps cs (m_rootRules g).
Definition set_rootRules (s : NodeSet) (g : RuleGraph) : RuleGraph :=
  mkRuleGraph (m_outputFileTagToRule g) (m_rules g) (ruleGraphId g) (m_ruleParents g)
    (m_ruleChildren g) s.

(** [insert] *)
Definition insertRule (r : nat) (g : RuleGraph) : RuleGraph :=
  mkRuleGraph (m_outputFileTagToRule g) (m_rules g ++ [r])
    (<[r := length (m_rules g)]> (ruleGraphId g)) (m_ruleParents g) (m_ruleChildren g)
    (m_rootRules g).

(** [std::vector::resize] to at least [n] elements. *)
Definition resize (n : nat) (l : list (list nat)) : list (list nat) :=
  l ++ replicate (n - length l) [].

Definition idOf (g : RuleGraph) (r : nat) : nat := default 0 (ruleGraphId g !! r).

(** [connect]: the rule [creatingRule] gets the child [consumingRule]. *)
Definition connectRules (creatingRule consumingRule : nat) (g : RuleGraph) : RuleGraph :=
  let a := idOf g creatingRule in
  let b := idOf g consumingRule in
  let maxIndex := Nat.max a b in
  let '(ps, cs) :=
    if length (m_ruleParents g) <=? maxIndex
    then (resize (S maxIndex) (m_ruleParents g), resize (S maxIndex) (m_ruleChildren g))
    else (m_ruleParents g, m_ruleChildren g) in
  set_ruleEdges (alter (λ l, l ++ [a]) b ps) (alter (λ l, l ++ [b]) a cs) g.

(** [m_outputFileTagToRule.value(tag)] *)
Definition rulesFor (g : RuleGraph) (tag : nat) : list nat :=
  default [] (m_outputFileTagToRule g !! tag).

(** The first loop of [build] for one rule. *)
Definition addRule (h : Heap) (g : RuleGraph) (r : nat) : RuleGraph :=
  let m := foldl (λ m tag, partial_alter (λ l, Some (default [] l ++ [r])) tag m)
             (m_outputFileTagToRule g) (outputTags (getRule h r)) in
  insertRule r (set_outputFileTagToRule m g).

Definition inFileTags (r : Rule) : FileTags :=
  set_unite Nat.ltb (set_unite Nat.ltb (inputs r) (auxiliaryInputs r)) (explicitlyDependsOn r).

(** The second loop of [build] for one rule and one of its input tags. *)
Definition connectProducers (h : Heap) (r : nat) (g : RuleGraph) (tag : nat) : RuleGraph :=
  foldl (λ g producingRule,
    if negb (intersects (outputTags (getRule h producingRule)) (excludedInputs (getRule h r)))
    then connectRules r producingRule g else g) g (rulesFor g tag).

Definition connectInputs (h : Heap) (g : RuleGraph) (r : nat) : RuleGraph :=
  foldl (connectProducers h r) g (inFileTags (getRule h r)).

Definition build (h : Heap) (ruleList : list nat) (productFileTags : FileTags) : RuleGraph :=
  let g := foldl (addRule h) emptyRuleGraph ruleList in
  let n := length ruleList in
  let g := set_ruleEdges (resize n (m_ruleParents g)) (resize n (m_ruleChildren g)) g in
  let g := foldl (connectInputs h) g (m_rules g) in
  let productRules := flat_map (rulesFor g) productFileTags in
  set_rootRules (foldl (λ s r, ins s (idOf g r)) (m_rootRules g) productRules) g.

(** [traverse], for a visitor of state [S]; a visitor can throw. *)
Section Traverse.
Context {S : Type} (visit : option nat → nat → S → exn BGError S) (endVisit : nat → S → S).

(** [m_rules.at(index)] *)
Definition ruleAt (g : RuleGraph) (i : nat) : nat := default 0 (m_rules g !! i).

Fixpoint traverse (fuel : nat) (g : RuleGraph) (parentRule : option nat) (rule : nat) (s : S) :
    exn BGError S :=
  match fuel with
  | 0 => Throw OutOfFuel
  | Datatypes.S fuel =>
      let* s := visit parentRule rule s in
      let* s := for_each (λ childIndex, traverse fuel g (Some rule) (ruleAt g childIndex))
                  (default [] (m_ruleChildren g !! idOf g rule)) s in
      Ok (endVisit rule s)
  end.

(** No path without repetition is longer than the number of rules. *)
Definition acceptRules (g : RuleGraph) (s : S) : exn BGError S :=
  for_each (λ rootIndex,
    traverse (Datatypes.S (Datatypes.S (length (m_rules g)))) g None (ruleAt g rootIndex))
    (m_rootRules g) s.
End Traverse.

(** ** [CreateRuleNodes] *)

Record CreateRuleNodes := mkCreateRuleNodes {
  crn_heap : Heap;
  m_nodePerRule : gmap nat nat;
  m_rulesOnPath : NodeSet;
  m_rulePath : list nat
}.

Section CreateRuleNodes.
(** The address of the next object that is allocated. *)
Context (new_address : Heap → nat).

(** [m_product] *)
Context (p : nat).

Definition newRuleNode (rule : nat) : Node :=
  mkNode [] [] (Some p) (RuleNodeType (mkRuleNode rule [] [] [] 0 false)).

(** The node of [rule], made when there is none. *)
Definition nodeForRule (rule : nat) (st : CreateRuleNodes) : nat * CreateRuleNodes :=
  match m_nodePerRule st !! rule with
  | Some u => (u, st)
  | None =>
      let u := new_address (crn_heap st) in
      let h := set_nodes (insert u (newRuleNode rule)) (crn_heap st) in
      (u, mkCreateRuleNodes (upd_buildData (addNode u) p h) (<[rule := u]> (m_nodePerRule st))
            (m_rulesOnPath st) (m_rulePath st))
  end.

Definition set_crn_heap (h : Heap) (st : CreateRuleNodes) : CreateRuleNodes :=
  mkCreateRuleNodes h (m_nodePerRule st) (m_rulesOnPath st) (m_rulePath st).

Definition crn_visit (parentRule : option nat) (rule : nat) (st : CreateRuleNodes) :
    exn BGError CreateRuleNodes :=
  let '(onPath, (_, inserted)) := set_insert Nat.ltb (m_rulesOnPath st) rule in
  if negb inserted then Throw (CycleInRules (m_rulePath st))
  else
    let st := mkCreateRuleNodes (crn_heap st) (m_nodePerRule st) onPath (m_rulePath st ++ [rule]) in
    let '(u, st) := nodeForRule rule st in
    match parentRule with
    | Some parentRule =>
        match m_nodePerRule st !! parentRule with
        | None => Throw CheckFailed
        | Some parent => let* h := connect parent u (crn_heap st) in Ok (set_crn_heap h st)
        end
    | None => Ok (set_crn_heap (upd_buildData (addRootNode u) p (crn_heap st)) st)
    end.

Definition crn_endVisit (rule : nat) (st : CreateRuleNodes) : CreateRuleNodes :=
  mkCreateRuleNodes (crn_heap st) (m_nodePerRule st) (del (m_rulesOnPath st) rule)
    (removelast (m_rulePath st)).

(** [ruleGraph.build(...)], then [ruleGraph.accept(&crn)] *)
Definition createRuleNodes (productRules : list nat) (productFileTags : FileTags) (h : Heap) :
    exn BGError CreateRuleNodes :=
  acceptRules crn_visit crn_endVisit (build h productRules productFileTags)
    (mkCreateRuleNodes h ∅ [] []).
End CreateRuleNodes.

(** ** Rules of dependencies *)

(** Of two rule nodes, with the file tags of the product of the second. *)
Definition areRulesCompatible (rule dependencyRule : Rule) (dependencyTags : FileTags) : bool :=
  let outTags := outputTags dependencyRule in
  if intersects (excludedInputs rule) outTags then false
  else if intersects (inputsFromDependencies rule) outTags then true
  else if negb (intersects dependencyTags outTags) then false
  else if intersects (explicitlyDependsOnFromDependencies rule) outTags then true
  else intersects (auxiliaryInputs rule) outTags.

Definition ruleOf (h : Heap) (u : nat) : Rule :=
  match as_ruleNode h u with Some r => getRule h (m_rule r) | None => emptyRule end.

Definition tagsOfProduct (h : Heap) (u : nat) : FileTags :=
  match productOf h u with
  | Some p => default [] (product_fileTags <$> products h !! p)
  | None => []
  end.

Definition isRootRuleNode (h : Heap) (u : nat) : bool :=
  match productOf h u with
  | Some p => match buildDataOf h p with Some b => contains (m_roots b) u | None => false end
  | None => false
  end.

Section Dependencies.
(** The id of the file tag "installable". *)
Context (installableTag : nat).

Definition takesInstallable (r : Rule) : bool :=
  contains (inputsFromDependencies r) installableTag
  || contains (auxiliaryInputs r) installableTag
  || contains (explicitlyDependsOnFromDependencies r) installableTag.

Definition mustConnect (h : Heap) (ruleNode depRuleNode : nat) : bool :=
  areRulesCompatible (ruleOf h ruleNode) (ruleOf h depRuleNode) (tagsOfProduct h depRuleNode)
  || (takesInstallable (ruleOf h ruleNode) && isRootRuleNode h depRuleNode).

(** The two inner loops. *)
Definition connectToRuleNode (ruleNodes : list nat) (depRuleNode : nat) (h : Heap) :
    exn BGError Heap :=
  for_each (λ ruleNode h,
    if mustConnect h ruleNode depRuleNode then connect ruleNode depRuleNode h else Ok h)
    ruleNodes h.

Definition connectRulesToDependencies (p : nat) (deps : list nat) (h : Heap) : exn BGError Heap :=
  match buildDataOf h p with
  | None => Throw NullPointer
  | Some b =>
      let ruleNodes := ruleNodes_of h (m_nodes b) in
      for_each (λ dep h,
        match buildDataOf h dep with
        | None => Ok h
        | Some db => for_each (connectToRuleNode ruleNodes) (ruleNodes_of h (m_nodes db)) h
        end) deps h
  end.
End Dependencies.
