(* ===== verification/RuleGraphCorrect.v ===== *)
(** * Correctness of the rule graph and of the rule nodes

    What [RuleGraph::build] computes, and that the traversal that creates the
    rule nodes ends, finds every cycle of rules, and mirrors the rule graph. *)

From S2P Require Import Prelude FlatSet BuildGraph BuildGraphCorrect RuleGraph.

(** ** Edges between rules, by their ids *)

Definition childId (g : RuleGraph) (i j : nat) : Prop :=
  ∃ l, m_ruleChildren g !! i = Some l ∧ j ∈ l.
Definition parentId (g : RuleGraph) (i j : nat) : Prop :=
  ∃ l, m_ruleParents g !! i = Some l ∧ j ∈ l.

Section Build.
Variable g0 : RuleGraph.

(** [g] has the rules of [g0], and the edges [E]. *)
Record with_edges (E : nat → nat → Prop) (g : RuleGraph) : Prop := {
  we_rules : m_rules g = m_rules g0;
  we_ids : ruleGraphId g = ruleGraphId g0;
  we_tags : m_outputFileTagToRule g = m_outputFileTagToRule g0;
  we_roots : m_rootRules g = m_rootRules g0;
  we_children : length (m_ruleChildren g) = length (m_rules g0);
  we_parents : length (m_ruleParents g) = length (m_rules g0);
  we_child i j : childId g i j ↔ E i j;
  we_parent i j : parentId g j i ↔ E i j
}.

Lemma with_edges_ext E E' g : (∀ i j, E i j ↔ E' i j) → with_edges E g → with_edges E' g.
Proof. intros HE [? ? ? ? ? ? H1 H2]. split; try done; intros; by rewrite <-HE. Qed.

Lemma alter_push_elem (ls : list (list nat)) a b i j :
  a < length ls →
  (∃ l, alter (λ l, l ++ [b]) a ls !! i = Some l ∧ j ∈ l) ↔
    (∃ l, ls !! i = Some l ∧ j ∈ l) ∨ (i = a ∧ j = b).
Proof.
  intros Ha. destruct (decide (a = i)) as [<-|Hne].
  - rewrite list_lookup_alter, decide_True by done. destruct (lookup_lt_is_Some_2 ls a Ha) as [l ->]. simpl. split.
    + intros (l' & Hl & Hj). injection Hl as <-.
      apply elem_of_app in Hj as [?|?%list_elem_of_singleton]; eauto.
    + intros [(l' & Hl & Hj)|[_ ->]]; [injection Hl as <-|]; eexists; (split; [done|]);
        rewrite elem_of_app.
      * by left.
      * right. left.
  - rewrite list_lookup_alter_ne by done. naive_solver.
Qed.

Lemma connectRules_edges E g a b :
  with_edges E g → idOf g0 a < length (m_rules g0) → idOf g0 b < length (m_rules g0) →
  with_edges (λ i j, E i j ∨ (i = idOf g0 a ∧ j = idOf g0 b)) (connectRules a b g).
Proof.
  intros [H1 H2 H3 H4 Hc Hp Hec Hep] Ha Hb.
  assert (idOf g a = idOf g0 a) as Ea by (unfold idOf; by rewrite H2).
  assert (idOf g b = idOf g0 b) as Eb by (unfold idOf; by rewrite H2).
  unfold connectRules. rewrite Ea, Eb.
  destruct (Nat.leb_spec (length (m_ruleParents g)) (Nat.max (idOf g0 a) (idOf g0 b))); [lia|].
  split; simpl; try done.
  - by rewrite length_alter.
  - by rewrite length_alter.
  - intros i j. rewrite <-Hec. unfold childId. simpl. apply alter_push_elem. lia.
  - intros i j. rewrite <-Hep. unfold parentId. simpl. rewrite alter_push_elem by lia. tauto.
Qed.

(** A loop each of whose rounds adds edges. *)
Lemma foldl_edges {A} (f : RuleGraph → A → RuleGraph) (step : A → nat → nat → Prop) l :
  (∀ a g E, a ∈ l → with_edges E g → with_edges (λ i j, E i j ∨ step a i j) (f g a)) →
  ∀ g E, with_edges E g →
  with_edges (λ i j, E i j ∨ ∃ a, a ∈ l ∧ step a i j) (foldl f g l).
Proof.
  induction l as [|a l IH]; intros Hf g E Hg; simpl.
  - eapply with_edges_ext; [|exact Hg]. intros i j. split; [by left|].
    intros [?|(? & ?%elem_of_nil & _)]; done.
  - eapply with_edges_ext; [|apply IH; [|by apply (Hf a); [left|]]].
    + intros i j. split.
      * intros [[?|?]|(b & ? & ?)]; [by left|right; exists a; split; [left|done]|].
        right. exists b. split; [by right|done].
      * intros [?|(b & [->|?]%elem_of_cons & ?)]; [tauto|tauto|]. right. eauto.
    + intros b g' E' Hb. apply Hf. by right.
Qed.
End Build.

(** ** The first loop of [build] *)

Lemma elem_push_tags (r : nat) tags (m : gmap nat (list nat)) tag q :
  q ∈ default [] (foldl (λ m tag, partial_alter (λ l, Some (default [] l ++ [r])) tag m) m tags
       !! tag) ↔ q ∈ default [] (m !! tag) ∨ (q = r ∧ tag ∈ tags).
Proof.
  revert m. induction tags as [|t tags IH]; intros m; simpl.
  { rewrite elem_of_nil. tauto. }
  rewrite IH, elem_of_cons. destruct (decide (t = tag)) as [->|Hne].
  - rewrite lookup_partial_alter_eq. simpl. rewrite elem_of_app, list_elem_of_singleton. tauto.
  - rewrite lookup_partial_alter_ne by done. naive_solver.
Qed.

(** The rules [rs] have been inserted. *)
Record inserted (h : Heap) (rs : list nat) (g : RuleGraph) : Prop := {
  is_rules : m_rules g = rs;
  is_ids i r : rs !! i = Some r ↔ ruleGraphId g !! r = Some i;
  is_tags tag r : r ∈ rulesFor g tag ↔ r ∈ rs ∧ tag ∈ outputTags (getRule h r);
  is_children : m_ruleChildren g = [];
  is_parents : m_ruleParents g = [];
  is_roots : m_rootRules g = []
}.

Lemma addRule_inserted h rs r g :
  inserted h rs g → r ∉ rs → inserted h (rs ++ [r]) (addRule h g r).
Proof.
  intros [H1 H2 H3 H4 H5 H6] Hr. split; simpl; try done; [by rewrite H1| |].
  - intros i q. rewrite H1. destruct (decide (r = q)) as [<-|Hne].
    + rewrite lookup_insert_eq. split.
      * intros [Hi|[Hi Hq]]%lookup_app_Some; [by apply list_elem_of_lookup_2 in Hi|].
        apply list_lookup_singleton_Some in Hq as [Hq _]. f_equal. lia.
      * intros [= <-]. by rewrite lookup_app_r, Nat.sub_diag by done.
    + rewrite lookup_insert_ne, <-H2 by done. rewrite lookup_app_Some. split; [|by left].
      intros [?|[_ [_ <-]%list_lookup_singleton_Some]]; done.
  - intros tag q. unfold rulesFor. simpl. rewrite elem_push_tags. fold (rulesFor g tag).
    rewrite H3, elem_of_app, list_elem_of_singleton. naive_solver.
Qed.

Lemma addRules_inserted h rs l g :
  inserted h rs g → NoDup (rs ++ l) → inserted h (rs ++ l) (foldl (addRule h) g l).
Proof.
  revert rs g. induction l as [|r l IH]; intros rs g Hg Hn; simpl; [by rewrite app_nil_r|].
  rewrite cons_middle, app_assoc in *. apply IH; [|done].
  apply addRule_inserted; [done|]. apply NoDup_app in Hn as [Hn _].
  apply NoDup_app in Hn as (_ & Hn & _). intros Hr. apply (Hn r Hr). left.
Qed.

Lemma resize_nil n i : resize n [] !! i = if decide (i < n) then Some [] else None.
Proof.
  unfold resize. simpl. rewrite Nat.sub_0_r. case_decide.
  - by apply lookup_replicate_2.
  - apply lookup_ge_None_2. rewrite length_replicate. lia.
Qed.

(** ** The second loop of [build] *)

(** The tag sets of a rule are well formed. *)
Definition wf_rule (r : Rule) : Prop :=
  wf_set (outputTags r) ∧ wf_set (inputs r) ∧ wf_set (auxiliaryInputs r) ∧
  wf_set (explicitlyDependsOn r) ∧ wf_set (excludedInputs r).

Lemma intersects_spec s t : wf_set s → wf_set t → intersects s t = true ↔ ∃ x, x ∈ s ∧ x ∈ t.
Proof. intros Hs Ht. by apply (set_intersects_spec (ltb := Nat.ltb)). Qed.

Lemma intersects_false s t : wf_set s → wf_set t → intersects s t = false ↔ ∀ x, x ∈ s → x ∉ t.
Proof.
  intros Hs Ht. rewrite <-not_true_iff_false, intersects_spec by done. naive_solver.
Qed.

(** The rule [r] takes what the rule [q] makes. *)
Definition takes (r q : Rule) : Prop :=
  (∃ tag, tag ∈ outputTags q ∧
     (tag ∈ inputs r ∨ tag ∈ auxiliaryInputs r ∨ tag ∈ explicitlyDependsOn r)) ∧
  ∀ tag, tag ∈ outputTags q → tag ∉ excludedInputs r.

Lemma elem_of_inFileTags r tag :
  wf_rule r →
  tag ∈ inFileTags r ↔ tag ∈ inputs r ∨ tag ∈ auxiliaryInputs r ∨ tag ∈ explicitlyDependsOn r.
Proof.
  intros (_ & Hi & Ha & He & _). unfold inFileTags.
  rewrite !elem_of_set_unite; [tauto|done..|by apply set_unite_sorted|done].
Qed.

Section Connect.
Variables (h : Heap) (g0 : RuleGraph).
Hypothesis Hrules : ∀ r, r ∈ m_rules g0 → wf_rule (getRule h r).
Hypothesis Hids : ∀ r, r ∈ m_rules g0 → idOf g0 r < length (m_rules g0).
Hypothesis Htags : ∀ tag r, r ∈ rulesFor g0 tag ↔ r ∈ m_rules g0 ∧ tag ∈ outputTags (getRule h r).

(** The edge from [r] to [q], by their ids. *)
Definition ruleEdge (r q i j : nat) : Prop := i = idOf g0 r ∧ j = idOf g0 q.

Lemma connectProducers_edges r tag g E :
  r ∈ m_rules g0 → with_edges g0 E g →
  with_edges g0 (λ i j, E i j ∨ ∃ q, q ∈ rulesFor g0 tag ∧
    (∀ t, t ∈ outputTags (getRule h q) → t ∉ excludedInputs (getRule h r)) ∧ ruleEdge r q i j)
    (connectProducers h r g tag).
Proof.
  intros Hr Hg. unfold connectProducers.
  assert (rulesFor g tag = rulesFor g0 tag) as ->.
  { unfold rulesFor. by rewrite (we_tags _ _ _ Hg). }
  apply (foldl_edges g0 _ (λ q i j,
    (∀ t, t ∈ outputTags (getRule h q) → t ∉ excludedInputs (getRule h r)) ∧ ruleEdge r q i j));
    [|done].
  intros q g' E' [Hq _]%Htags Hg'.
  pose proof (intersects_false (outputTags (getRule h q)) (excludedInputs (getRule h r))
    (proj1 (Hrules q Hq)) (proj2 (proj2 (proj2 (proj2 (Hrules r Hr)))))) as Hi.
  destruct (intersects _ _); simpl.
  - eapply with_edges_ext; [|exact Hg']. intros i j. split; [by left|].
    intros [?|[Hx _]]; [done|]. apply Hi in Hx. done.
  - eapply with_edges_ext; [|by apply connectRules_edges; [|apply Hids..]].
    intros i j. unfold ruleEdge. naive_solver.
Qed.

Lemma connectInputs_edges r g E :
  r ∈ m_rules g0 → with_edges g0 E g →
  with_edges g0 (λ i j, E i j ∨ ∃ q, q ∈ m_rules g0 ∧ takes (getRule h r) (getRule h q) ∧
    ruleEdge r q i j) (connectInputs h g r).
Proof.
  intros Hr Hg. unfold connectInputs.
  eapply with_edges_ext; [|apply (foldl_edges g0 (connectProducers h r) (λ tag i j,
    ∃ q, q ∈ rulesFor g0 tag ∧
      (∀ t, t ∈ outputTags (getRule h q) → t ∉ excludedInputs (getRule h r)) ∧
      ruleEdge r q i j)); [|exact Hg]].
  - intros i j. unfold takes. setoid_rewrite elem_of_inFileTags; [|by apply Hrules].
    setoid_rewrite Htags. split.
    + intros [?|(tag & Ht & q & [Hq Hto] & Hex & He)]; [by left|]. right.
      exists q. split; [done|]. split; [|done]. split; [|done]. by exists tag.
    + intros [?|(q & Hq & [(tag & Hto & Ht) Hex] & He)]; [by left|]. right.
      exists tag. split; [done|]. by exists q.
  - intros tag g' E' _ Hg'. by apply connectProducers_edges.
Qed.
End Connect.

(** ** [build] *)

Lemma idOf_lookup h rs g i r : inserted h rs g → rs !! i = Some r → idOf g r = i.
Proof. intros Hg Hi. apply (is_ids _ _ _ Hg) in Hi. unfold idOf. by rewrite Hi. Qed.

Lemma foldl_ins {A} (f : A → nat) l s :
  wf_set s →
  wf_set (foldl (λ s x, ins s (f x)) s l) ∧
  ∀ i, i ∈ foldl (λ s x, ins s (f x)) s l ↔ i ∈ s ∨ ∃ x, x ∈ l ∧ i = f x.
Proof.
  revert s. induction l as [|x l IH]; intros s Hs; simpl.
  { split; [done|]. intros i. split; [by left|]. intros [?|(? & ?%elem_of_nil & _)]; done. }
  destruct (IH (ins s (f x)) (ins_wf _ _ Hs)) as [IH1 IH2]. split; [done|].
  intros i. rewrite IH2, elem_of_ins by done. split.
  - intros [[->|?]|(y & ? & ->)]; [right; exists x; split; [left|done]|by left|].
    right. exists y. split; [by right|done].
  - intros [?|(y & [->|?]%elem_of_cons & ->)]; [tauto|tauto|]. right. eauto.
Qed.

Lemma inserted_empty h : inserted h [] emptyRuleGraph.
Proof.
  split; try done. intros tag r. unfold rulesFor, emptyRuleGraph. cbn [m_outputFileTagToRule].
  rewrite lookup_empty. simpl. rewrite elem_of_nil. tauto.
Qed.

(** The graph between the two loops. *)
Definition prepared (h : Heap) (rs : list nat) : RuleGraph :=
  let g := foldl (addRule h) emptyRuleGraph rs in
  set_ruleEdges (resize (length rs) (m_ruleParents g)) (resize (length rs) (m_ruleChildren g)) g.

Lemma prepared_ok h rs :
  NoDup rs →
  inserted h rs (set_ruleEdges [] [] (prepared h rs)) ∧
  with_edges (prepared h rs) (λ _ _, False) (prepared h rs).
Proof.
  intros Hn. pose proof (addRules_inserted h [] rs _ (inserted_empty h) Hn) as Hins.
  simpl in Hins. unfold prepared. set (g := foldl (addRule h) emptyRuleGraph rs) in *.
  split; [split; try done; apply Hins|].
  rewrite (is_children _ _ _ Hins), (is_parents _ _ _ Hins).
  assert (∀ i l j, resize (length rs) [] !! i = Some l → j ∉ l) as Hl.
  { intros i l j. rewrite resize_nil. case_decide; [|done]. intros [= <-]. apply not_elem_of_nil. }
  split; simpl; try done.
  1-2: rewrite (is_rules _ _ _ Hins); unfold resize; simpl; rewrite length_replicate; lia.
  1-2: intros i j; split; [|done]; intros (l & Hi & Hj); exact (Hl _ _ _ Hi Hj).
Qed.

Lemma build_spec h rs productFileTags :
  NoDup rs → (∀ r, r ∈ rs → wf_rule (getRule h r)) →
  let g := build h rs productFileTags in
  m_rules g = rs ∧
  (∀ i r, rs !! i = Some r ↔ ruleGraphId g !! r = Some i) ∧
  length (m_ruleChildren g) = length rs ∧
  (∀ i j, childId g i j ↔ ∃ r q, rs !! i = Some r ∧ rs !! j = Some q ∧
     takes (getRule h r) (getRule h q)) ∧
  (∀ i j, parentId g j i ↔ childId g i j) ∧
  (∀ i, i ∈ m_rootRules g ↔ ∃ r tag, rs !! i = Some r ∧ tag ∈ productFileTags ∧
     tag ∈ outputTags (getRule h r)).
Proof.
  intros Hn Hwf. cbv zeta. unfold build. cbv zeta. fold (prepared h rs).
  destruct (prepared_ok h rs Hn) as [Hins Hg]. set (g := prepared h rs) in *.
  assert (m_rules g = rs) as Hr by apply Hins.
  assert (∀ tag r, r ∈ rulesFor g tag ↔ r ∈ rs ∧ tag ∈ outputTags (getRule h r)) as Htags
    by apply Hins.
  assert (∀ i r, rs !! i = Some r → idOf g r = i) as Hid.
  { intros i r Hi. by apply (idOf_lookup h rs (set_ruleEdges [] [] g)). }
  assert (∀ r, r ∈ rs → ∃ i, rs !! i = Some r ∧ idOf g r = i) as Hin.
  { intros r [i Hi]%list_elem_of_lookup_1. exists i. split; [done|by apply Hid]. }
  assert (∀ r, r ∈ m_rules g → idOf g r < length (m_rules g)) as Hlt.
  { intros r Hm. rewrite Hr in *. destruct (Hin r Hm) as (i & Hi & ->). by eapply lookup_lt_Some. }
  pose proof (foldl_edges g (connectInputs h) (λ r i j, ∃ q, q ∈ m_rules g ∧
    takes (getRule h r) (getRule h q) ∧ ruleEdge g r q i j) (m_rules g)) as Hf.
  specialize (λ Hs, Hf Hs g _ Hg). set (g3 := foldl (connectInputs h) g (m_rules g)) in *.
  destruct Hf as [Hr3 Hi3 Ht3 Hroots Hc3 Hp3 Hch Hpa].
  { intros r g' E Hm Hg'. apply connectInputs_edges; [by rewrite Hr|done|by rewrite Hr|done|done]. }
  assert (∀ r, idOf g3 r = idOf g r) as Hid3 by (intros r; unfold idOf; by rewrite Hi3).
  assert (∀ tag, rulesFor g3 tag = rulesFor g tag) as Hrf by (intros; unfold rulesFor; by rewrite Ht3).
  split; [by rewrite <-Hr|]. split; [simpl; rewrite Hi3; apply Hins|].
  split; [simpl; by rewrite Hc3, Hr|]. split; [|split].
  - intros i j. transitivity (childId g3 i j); [done|]. rewrite Hch, Hr. unfold ruleEdge. split.
    + intros [[]|(r & Hm & q & Hq & Ht & -> & ->)]. exists r, q.
      destruct (Hin r Hm) as (i & ? & ->), (Hin q Hq) as (j & ? & ->). done.
    + intros (r & q & Hri & Hqj & Ht). right. exists r. split; [by eapply list_elem_of_lookup_2|].
      exists q. split; [by eapply list_elem_of_lookup_2|]. split; [done|].
      by rewrite (Hid i r), (Hid j q).
  - intros i j. transitivity (parentId g3 j i); [done|]. by rewrite Hpa, <-Hch.
  - intros i. simpl. rewrite Hroots.
    assert (m_rootRules g = []) as -> by apply Hins.
    rewrite (proj2 (foldl_ins (idOf g3) _ [] nil_wf)), elem_of_nil. split.
    + intros [[]|(r & Hm & ->)]. apply list_elem_of_In, in_flat_map in Hm as (tag & Hp & Hm).
      rewrite <-!list_elem_of_In in *. rewrite Hrf in Hm. apply Htags in Hm as [Hm Ho].
      destruct (Hin r Hm) as (i & Hi & He). exists r, tag. rewrite Hid3, He. done.
    + intros (r & tag & Hi & Hp & Ho). right. exists r. rewrite Hid3, (Hid i r Hi). split; [|done].
      apply list_elem_of_In, in_flat_map. exists tag. rewrite <-!list_elem_of_In, Hrf, Htags.
      split; [done|]. split; [by eapply list_elem_of_lookup_2|done].
Qed.

(** ** The traversal that creates the rule nodes *)

(** The rule [q] is a child of the rule [r]. *)
Definition ruleChild (g : RuleGraph) (r q : nat) : Prop :=
  ∃ i j, m_rules g !! i = Some r ∧ childId g i j ∧ m_rules g !! j = Some q.

(** The ids are the indices, and name rules. *)
Record rg_ok (g : RuleGraph) : Prop := {
  rg_ids i r : m_rules g !! i = Some r ↔ ruleGraphId g !! r = Some i;
  rg_children i j : childId g i j → is_Some (m_rules g !! j);
  rg_roots i : i ∈ m_rootRules g → is_Some (m_rules g !! i)
}.

Lemma rulesOf_children g r c :
  rg_ok g → r ∈ m_rules g → c ∈ default [] (m_ruleChildren g !! idOf g r) →
  ruleChild g r (ruleAt g c).
Proof.
  intros Hg [i Hi]%list_elem_of_lookup_1 Hc.
  pose proof (proj1 (rg_ids _ Hg i r) Hi) as Hid.
  unfold idOf in Hc. rewrite Hid in Hc. simpl in Hc.
  destruct (m_ruleChildren g !! i) as [l|] eqn:El; simpl in Hc; [|by apply elem_of_nil in Hc].
  assert (childId g i c) as Hic by by exists l.
  destruct (rg_children _ Hg i c Hic) as [q Hq]. exists i, c. split; [done|]. split; [done|].
  unfold ruleAt. by rewrite Hq.
Qed.

Lemma ruleChild_child g r q :
  rg_ok g → ruleChild g r q →
  ∃ c, c ∈ default [] (m_ruleChildren g !! idOf g r) ∧ ruleAt g c = q.
Proof.
  intros Hg (i & j & Hi & (l & Hl & Hj) & Hq). exists j. apply (rg_ids _ Hg) in Hi.
  unfold idOf, ruleAt. rewrite Hi. simpl. by rewrite Hl, Hq.
Qed.

(** No cycle of rules is reached from [r]. *)
Definition noCycle (g : RuleGraph) (r : nat) : Prop :=
  ∀ q, rtc (ruleChild g) r q → ¬ tc (ruleChild g) q q.

Lemma noCycle_children g r : (∀ q, ruleChild g r q → noCycle g q) → noCycle g r.
Proof.
  intros H q Hq Ht.
  assert (∃ c, ruleChild g r c ∧ rtc (ruleChild g) c q) as (c & Hc & Hcq);
    [|by apply (H c Hc q)].
  inversion Hq as [|? c ? Hc Hcq]; subst; [|by exists c].
  inversion Ht as [? ? Hc|? c ? Hc Hcq]; subst.
  - exists q. split; [done|apply rtc_refl].
  - exists c. split; [done|by apply tc_rtc].
Qed.

Section Create.
Variables (new_address : Heap → nat) (p : nat) (g : RuleGraph) (h0 : Heap) (b0 : ProductBuildData).
Hypothesis Hnew : ∀ h, nodes h !! new_address h = None.
Hypothesis Hg : rg_ok g.
Hypothesis Hw0 : wf_graph h0.

(** What the visitor keeps: [path] are the rules on the path, the innermost
    first, [R] the root rules so far. *)
Record created (path R : list nat) (st : CreateRuleNodes) : Prop := {
  cr_wf : wf_graph (crn_heap st);
  cr_node r u : m_nodePerRule st !! r = Some u →
    present (crn_heap st) u ∧ productOf (crn_heap st) u = Some p ∧
    m_rule <$> as_ruleNode (crn_heap st) u = Some r ∧ nodes h0 !! u = None;
  cr_edges u v : edge (crn_heap st) u v → edge h0 u v ∨
    ∃ r q, ruleChild g r q ∧ m_nodePerRule st !! r = Some u ∧ m_nodePerRule st !! q = Some v;
  cr_old u v : edge h0 u v → edge (crn_heap st) u v;
  cr_present u : present h0 u → present (crn_heap st) u;
  cr_build : ∃ b, buildDataOf (crn_heap st) p = Some b ∧ wf_set (m_nodes b) ∧ wf_set (m_roots b) ∧
    (∀ u, u ∈ m_nodes b ↔ u ∈ m_nodes b0 ∨ ∃ r, m_nodePerRule st !! r = Some u) ∧
    (∀ u, u ∈ m_roots b ↔ u ∈ m_roots b0 ∨ ∃ r, r ∈ R ∧ m_nodePerRule st !! r = Some u);
  cr_roots r : r ∈ R → is_Some (m_nodePerRule st !! r);
  cr_onPath_wf : wf_set (m_rulesOnPath st);
  cr_onPath r : r ∈ m_rulesOnPath st ↔ r ∈ path;
  cr_path : m_rulePath st = rev path
}.

(** Two rules have two nodes: a node tells its rule. *)
Lemma created_inj path R st r q u :
  created path R st → m_nodePerRule st !! r = Some u → m_nodePerRule st !! q = Some u → r = q.
Proof.
  intros Hst Hr Hq. destruct (cr_node _ _ _ Hst r u Hr) as (_ & _ & H1 & _).
  destruct (cr_node _ _ _ Hst q u Hq) as (_ & _ & H2 & _). congruence.
Qed.

Lemma edge_insert u n h x y :
  nodes h !! u = None → children n = [] →
  edge (set_nodes (insert u n) h) x y ↔ edge h x y.
Proof.
  intros Hu Hn. unfold edge, node. simpl. destruct (decide (u = x)) as [->|].
  - rewrite lookup_insert_eq, Hu. simpl. by rewrite Hn.
  - by rewrite lookup_insert_ne.
Qed.

Lemma insert_same_edges u n h :
  nodes h !! u = None → children n = [] → parents n = [] →
  same_edges h (set_nodes (insert u n) h).
Proof.
  intros Hu Hc Hp x. unfold node. simpl. destruct (decide (u = x)) as [->|].
  - rewrite lookup_insert_eq, Hu. simpl. by rewrite Hc, Hp.
  - by rewrite lookup_insert_ne.
Qed.

Lemma buildDataOf_upd_eq f h q :
  buildDataOf (upd_buildData f q h) q = f <$> buildDataOf h q.
Proof.
  unfold buildDataOf, upd_buildData. simpl. rewrite lookup_alter_eq. by destruct (products h !! q).
Qed.

(** The node for a rule, new or not. *)
Lemma nodeForRule_ok path R st rule :
  created path R st →
  let '(u, st') := nodeForRule new_address p rule st in
  created path R st' ∧ m_nodePerRule st' !! rule = Some u ∧
  m_nodePerRule st ⊆ m_nodePerRule st' ∧
  (∀ x y, edge (crn_heap st) x y → edge (crn_heap st') x y) ∧
  (∀ q, is_Some (m_nodePerRule st' !! q) → is_Some (m_nodePerRule st !! q) ∨ q = rule).
Proof.
  intros Hst. unfold nodeForRule. destruct (m_nodePerRule st !! rule) as [u|] eqn:Hr.
  { split_and!; try done. by left. }
  cbv zeta. pose proof (Hnew (crn_heap st)) as Hu. revert Hu.
  generalize (new_address (crn_heap st)) as u. intros u Hu.
  set (h1 := set_nodes (insert u (newRuleNode p rule)) (crn_heap st)).
  assert (same_edges (crn_heap st) h1) as S1 by by apply insert_same_edges.
  set (h2 := upd_buildData (addNode u) p h1).
  assert (same_edges (crn_heap st) h2) as S2 by (etrans; [exact S1|by apply nodes_same_edges]).
  assert (∀ x, nodes h2 !! x = if decide (u = x) then Some (newRuleNode p rule) else nodes (crn_heap st) !! x) as N2.
  { intros x. simpl. case_decide as E; [by rewrite E, lookup_insert_eq|by rewrite lookup_insert_ne]. }
  assert (∀ r v, m_nodePerRule st !! r = Some v → u ≠ v) as Hfresh.
  { intros r v Hv E. subst v. destruct (cr_node _ _ _ Hst r u Hv) as ([? ?] & _). congruence. }
  split; [|split; [|split; [|split]]]; simpl.
  - split; simpl.
    + apply (wf_graph_proper (crn_heap st) h2 S2), Hst.
    + intros r v. destruct (decide (rule = r)) as [->|Hne].
      * rewrite lookup_insert_eq. intros [= E]. subst v. unfold present, productOf, as_ruleNode, node.
        rewrite !N2, decide_True by done. split_and!; [by eexists|done|done|].
        apply eq_None_not_Some. intros Hp0. destruct (cr_present _ _ _ Hst u Hp0) as [? ?].
        congruence.
      * rewrite lookup_insert_ne by done. intros Hv.
        destruct (cr_node _ _ _ Hst r v Hv) as (H1 & H2 & H3 & H4).
        unfold present, productOf, as_ruleNode, node in *.
        rewrite !N2, (decide_False _ _ (Hfresh r v Hv)). done.
    + intros x y Hxy. apply (edge_proper (crn_heap st) h2 S2 x x eq_refl y y eq_refl) in Hxy.
      destruct (cr_edges _ _ _ Hst x y Hxy) as [?|(r & q & Hc & Hx & Hy)]; [by left|right].
      exists r, q. split; [done|]. by rewrite !lookup_insert_ne by (intros ->; congruence).
    + intros x y Hxy. apply (edge_proper (crn_heap st) h2 S2 x x eq_refl y y eq_refl).
      exact (cr_old _ _ _ Hst x y Hxy).
    + intros x Hx. apply (cr_present _ _ _ Hst) in Hx. unfold present. rewrite N2.
      case_decide; [by eexists|done].
    + destruct (cr_build _ _ _ Hst) as (b & Hb & Hwn & Hwr & Hn & Hroots).
      exists (addNode u b). split; [unfold h2; by rewrite buildDataOf_upd_eq;
        change (buildDataOf h1 p) with (buildDataOf (crn_heap st) p); rewrite Hb|].
      split; [by apply ins_wf|]. split; [done|]. split; intros x; simpl.
      * rewrite elem_of_ins, Hn by done. split.
        -- intros [->|[?|(r & Hx)]]; [right; exists rule; by rewrite lookup_insert_eq|by left|].
           right. exists r. by rewrite lookup_insert_ne by (intros ->; congruence).
        -- intros [?|(r & Hx)]; [tauto|]. apply lookup_insert_Some in Hx as [[_ ->]|[_ Hx]]; [tauto|].
           right. right. by exists r.
      * rewrite Hroots. split; (intros [?|(r & HR & Hx)]; [by left|right; exists r; split; [done|]]).
        -- by rewrite lookup_insert_ne by (intros ->; congruence).
        -- apply lookup_insert_Some in Hx as [[-> ->]|[_ Hx]]; [|done].
           destruct (cr_roots _ _ _ Hst r HR). congruence.
    + intros r HR. destruct (cr_roots _ _ _ Hst r HR) as [v Hv]. exists v.
      by rewrite lookup_insert_ne by (intros ->; congruence).
    + exact (cr_onPath_wf _ _ _ Hst).
    + exact (cr_onPath _ _ _ Hst).
    + exact (cr_path _ _ _ Hst).
  - by rewrite lookup_insert_eq.
  - by apply insert_subseteq.
  - intros x y Hxy. by apply (edge_proper (crn_heap st) h2 S2 x x eq_refl y y eq_refl).
  - intros q [v Hv]. apply lookup_insert_Some in Hv as [[-> _]|[_ Hv]]; [by right|left; by eexists].
Qed.

(** What is there stays. *)
Record extends (st st' : CreateRuleNodes) : Prop := {
  ex_nodes : m_nodePerRule st ⊆ m_nodePerRule st';
  ex_edges x y : edge (crn_heap st) x y → edge (crn_heap st') x y
}.

#[local] Instance extends_preorder : PreOrder extends.
Proof.
  split; [by split|]. intros st1 st2 st3 [N1 E1] [N2 E2]. split; [by etrans|auto].
Qed.

(** The nodes of the rules [r] and [q] are connected. *)
Definition connected (st : CreateRuleNodes) (r q : nat) : Prop :=
  ∃ u v, m_nodePerRule st !! r = Some u ∧ m_nodePerRule st !! q = Some v ∧
    edge (crn_heap st) u v.

Lemma connected_extends st st' r q : extends st st' → connected st r q → connected st' r q.
Proof.
  intros [N E] (u & v & Hu & Hv & Huv). exists u, v.
  split_and!; [by eapply lookup_weaken|by eapply lookup_weaken|by apply E].
Qed.

Lemma ruleNode_not_artifact h u x : as_ruleNode h u = Some x → as_artifact h u = None.
Proof.
  unfold as_ruleNode, as_artifact. destruct (nodes h !! u) as [n|]; [|done].
  by destruct (node_data n).
Qed.

Lemma present_addEdge u v h x : present (addEdge u v h) x ↔ present h x.
Proof. unfold addEdge. by rewrite !present_upd. Qed.

(** Connecting the nodes of two rules. *)
Lemma created_connect path R st pr rule u v :
  created path R st → ruleChild g pr rule → pr ≠ rule →
  m_nodePerRule st !! pr = Some u → m_nodePerRule st !! rule = Some v →
  ∃ h', connect u v (crn_heap st) = Ok h' ∧ created path R (set_crn_heap h' st) ∧
    extends st (set_crn_heap h' st) ∧ edge h' u v.
Proof.
  intros Hst Hc Hne Hu Hv.
  destruct (cr_node _ _ _ Hst _ _ Hu) as (Pu & Qu & _ & _).
  destruct (cr_node _ _ _ Hst _ _ Hv) as (Pv & Qv & Rv & _).
  assert (u ≠ v) as Huv. { intros <-. by apply Hne, (created_inj path R st pr rule u). }
  destruct (as_ruleNode (crn_heap st) v) as [rn|] eqn:Hrn; [|done].
  exists (set_isDirty true (addEdge u v (crn_heap st))). split.
  { unfold connect, QBS_CHECK. rewrite (ruleNode_not_artifact _ _ _ Hrn), Qu.
    by destruct (Nat.eqb_spec u v). }
  set (h' := set_isDirty true (addEdge u v (crn_heap st))).
  assert (same_edges (addEdge u v (crn_heap st)) h') as Sd by by apply nodes_same_edges.
  assert (∀ x y, edge h' x y ↔ edge (crn_heap st) x y ∨ (x = u ∧ y = v)) as He.
  { intros x y. rewrite <-edge_addEdge by (done || apply Hst). symmetry. by apply edge_proper. }
  split; [|split; [split|]]; simpl.
  - split; simpl; try apply Hst.
    + apply (wf_graph_proper _ h' Sd), addEdge_wf; [apply Hst|done..].
    + intros r w Hw. destruct (cr_node _ _ _ Hst r w Hw) as (H1 & H2 & H3 & H4).
      split_and!; [by apply (present_addEdge u v (crn_heap st))| | |done].
      * rewrite <-H2. apply productOf_addEdge.
      * rewrite <-H3. f_equal. unfold h', addEdge.
        change (as_ruleNode (set_isDirty true ?h) w) with (as_ruleNode h w).
        by rewrite !as_ruleNode_upd_other.
    + intros x y [Hxy|[-> ->]]%He; [by apply (cr_edges _ _ _ Hst)|]. right. by exists pr, rule.
    + intros x y Hxy. apply He. left. by apply (cr_old _ _ _ Hst).
    + intros x Hx. by apply (present_addEdge u v (crn_heap st)), (cr_present _ _ _ Hst).
  - done.
  - intros x y Hxy. apply He. by left.
  - apply He. by right.
Qed.

Lemma crn_visit_ok path R st parent rule :
  created path R st → rule ∉ path →
  match parent with
  | Some pr => is_Some (m_nodePerRule st !! pr) ∧ ruleChild g pr rule ∧ pr ≠ rule
  | None => True
  end →
  ∃ st', crn_visit new_address p parent rule st = Ok st' ∧
    created (rule :: path) (match parent with Some _ => R | None => rule :: R end) st' ∧
    extends st st' ∧ is_Some (m_nodePerRule st' !! rule) ∧
    (∀ q, is_Some (m_nodePerRule st' !! q) → is_Some (m_nodePerRule st !! q) ∨ q = rule) ∧
    match parent with Some pr => connected st' pr rule | None => True end.
Proof.
  intros Hst Hr Hp. unfold crn_visit.
  destruct (set_insert_cases (m_rulesOnPath st) rule (cr_onPath_wf _ _ _ Hst))
    as [(Hin & _)|(Hin & i & ->)]; [by apply (cr_onPath _ _ _ Hst) in Hin|]. cbn [negb].
  set (st1 := mkCreateRuleNodes _ _ _ _).
  assert (created (rule :: path) R st1) as Hst1.
  { destruct Hst as [? ? ? ? ? ? ? Hpw Hpp Hpl]. split; simpl; try done.
    - by apply ins_wf.
    - intros r. rewrite elem_of_ins, Hpp, elem_of_cons by done. done.
    - by rewrite Hpl. }
  pose proof (nodeForRule_ok _ _ _ rule Hst1) as Hn.
  destruct (nodeForRule new_address p rule st1) as [u st2].
  destruct Hn as (Hst2 & Hu & N2 & E2 & F2).
  assert (extends st st2) as X2 by by split.
  destruct parent as [pr|].
  - destruct Hp as ([w Hw] & Hc & Hne).
    assert (m_nodePerRule st2 !! pr = Some w) as Hw2 by by eapply lookup_weaken.
    rewrite Hw2. destruct (created_connect _ _ _ _ _ _ _ Hst2 Hc Hne Hw2 Hu)
      as (h' & -> & Hst3 & X3 & Hwu). cbn [exn_bind].
    exists (set_crn_heap h' st2). split; [done|]. split; [done|]. split; [by etrans|].
    split; [by exists u|]. split; [exact F2|]. by exists w, u.
  - eexists. split; [done|]. split; [|split; [|split; [by exists u|by split]]].
    + destruct Hst2 as [W2 D2 G2 O2 P2 B2 R2 Hpw Hpp Hpl]. split; simpl; try done.
      * apply (wf_graph_proper (crn_heap st2)); [by apply nodes_same_edges|done].
      * destruct B2 as (b & Hb & Hwn & Hwr & Hbn & Hbr). exists (addRootNode u b).
        split; [by rewrite buildDataOf_upd_eq, Hb|]. split; [done|]. split; [by apply ins_wf|].
        split; [done|]. intros x. simpl. rewrite elem_of_ins, Hbr by done. split.
        -- intros [->|[?|(r & HR & Hx)]]; [right; exists rule; split; [left|done]|by left|].
           right. exists r. split; [by right|done].
        -- intros [?|(r & [->|HR]%elem_of_cons & Hx)]; [tauto|left; congruence|]. right. right. eauto.
      * intros r [->|HR]%elem_of_cons; [by exists u|by apply R2].
    + split; simpl; [done|]. intros x y Hxy. by apply E2.
Qed.

(** Everything below [r] has its node and its edges. *)
Definition covered (st : CreateRuleNodes) (r : nat) : Prop :=
  ∀ q, rtc (ruleChild g) r q →
    is_Some (m_nodePerRule st !! q) ∧ ∀ q', ruleChild g q q' → connected st q q'.

Lemma covered_extends st st' r : extends st st' → covered st r → covered st' r.
Proof.
  intros X H q Hq. destruct (H q Hq) as [[u Hu] Hc]. split.
  - exists u. by eapply lookup_weaken; [|apply X].
  - intros q' Hq'. by apply (connected_extends st), Hc.
Qed.

(** The rules of [path] are different and lead to [rule]. *)
Definition rule_trail (path : list nat) (rule : nat) : Prop :=
  NoDup path ∧ ∀ r, r ∈ path → tc (ruleChild g) r rule.

Lemma rule_trail_bounded path rule : rule_trail path rule → length path ≤ length (m_rules g).
Proof.
  intros [Hn Ht]. apply submseteq_length, NoDup_submseteq; [done|].
  intros r Hr. assert (∃ q, ruleChild g r q) as (q & i & j & Hi & _).
  { destruct (Ht r Hr); eauto. }
  by eapply list_elem_of_lookup_2.
Qed.

Lemma rule_trail_step path rule q :
  rule_trail path rule → rule ∉ path → ruleChild g rule q → rule_trail (rule :: path) q.
Proof.
  intros [Hn Ht] Hr Hc. split; [by constructor|].
  intros x [->|Hx]%elem_of_cons; [by apply tc_once|]. eapply tc_r; [by apply Ht|done].
Qed.

(** A cycle of rules below [rule] has been found, on the reported path. *)
Definition rule_cycle (rule : nat) (e : BGError) : Prop :=
  ∃ path q, e = CycleInRules path ∧ q ∈ path ∧ rtc (ruleChild g) rule q ∧ tc (ruleChild g) q q.

Lemma rule_cycle_child r q e : ruleChild g r q → rule_cycle q e → rule_cycle r e.
Proof.
  intros Hc (path & x & -> & Hx & Hr & Ht). exists path, x. split_and!; [done..| |done].
  by eapply rtc_l.
Qed.

(** What a visit of [rule], from the rules of [parent], leaves behind. *)
Record visited (path R : list nat) (parent : option nat) (rule : nat)
    (st st' : CreateRuleNodes) : Prop := {
  vi_noCycle : noCycle g rule;
  vi_created : created path (match parent with Some _ => R | None => rule :: R end) st';
  vi_extends : extends st st';
  vi_covered : covered st' rule;
  vi_fresh q : is_Some (m_nodePerRule st' !! q) →
    is_Some (m_nodePerRule st !! q) ∨ rtc (ruleChild g) rule q;
  vi_parent : match parent with Some pr => connected st' pr rule | None => True end
}.

Definition traverse_post path R parent rule st (r : exn BGError CreateRuleNodes) : Prop :=
  match r with
  | Ok st' => visited path R parent rule st st'
  | Throw e => rule_cycle rule e
  end.

(** The children of [rule] in turn. *)
Lemma traverse_children f path R rule l st :
  (∀ c, c ∈ l → ruleChild g rule (ruleAt g c)) →
  (∀ c st, c ∈ l → created path R st → is_Some (m_nodePerRule st !! rule) →
     traverse_post path R (Some rule) (ruleAt g c) st (f c st)) →
  created path R st → is_Some (m_nodePerRule st !! rule) →
  match for_each f l st with
  | Ok st' => created path R st' ∧ extends st st' ∧
      (∀ c, c ∈ l → noCycle g (ruleAt g c) ∧ covered st' (ruleAt g c) ∧
         connected st' rule (ruleAt g c)) ∧
      (∀ q, is_Some (m_nodePerRule st' !! q) →
         is_Some (m_nodePerRule st !! q) ∨ rtc (ruleChild g) rule q)
  | Throw e => rule_cycle rule e
  end.
Proof.
  intros Hl. revert st. induction l as [|c l IH]; intros st Hf Hst Hr; simpl.
  { split_and!; [done..| |by left]. by intros c ?%elem_of_nil. }
  pose proof (Hf c st (list_elem_of_here _ _) Hst Hr) as Hc. unfold traverse_post in Hc.
  assert (ruleChild g rule (ruleAt g c)) as Hrc by (apply Hl; left).
  destruct (f c st) as [st1|e]; cbn [exn_bind]; [|by eapply rule_cycle_child].
  destruct Hc as [Nc Cc Xc Vc Fc Pc].
  specialize (IH (λ c H, Hl c (list_elem_of_further _ _ _ H)) st1
    (λ c st H, Hf c st (list_elem_of_further _ _ _ H)) Cc).
  assert (is_Some (m_nodePerRule st1 !! rule)) as Hr1.
  { destruct Hr as [u Hu]. exists u. by eapply lookup_weaken; [|apply Xc]. }
  specialize (IH Hr1). destruct (for_each f l st1) as [st2|e]; [|done].
  destruct IH as (C2 & X2 & H2 & F2). split; [done|]. split; [by etrans|]. split.
  - intros d [->|Hd]%elem_of_cons; [|by apply H2]. split; [done|].
    split; [by eapply covered_extends|by eapply connected_extends].
  - intros q [Hq|Hq]%F2; [|by right]. apply Fc in Hq as [?|Hq]; [by left|right].
    by eapply rtc_l.
Qed.

Lemma crn_endVisit_ok path R rule st :
  created (rule :: path) R st → rule ∉ path →
  created path R (crn_endVisit rule st) ∧ extends st (crn_endVisit rule st).
Proof.
  intros Hst Hr. split; [|by split]. destruct Hst as [? ? ? ? ? ? ? Hpw Hpp Hpl].
  split; simpl; try done.
  - by apply del_wf.
  - intros q. rewrite elem_of_del, Hpp, elem_of_cons by done. split; [naive_solver|].
    intros Hq. split; [by right|]. by intros ->.
  - rewrite Hpl. simpl. apply removelast_last.
Qed.

Lemma traverse_ok fuel path R parent rule st :
  created path R st → rule ∈ m_rules g → rule_trail path rule →
  match parent with
  | Some pr => pr ∈ path ∧ is_Some (m_nodePerRule st !! pr) ∧ ruleChild g pr rule
  | None => True
  end →
  length (m_rules g) < fuel + length path →
  traverse_post path R parent rule st
    (traverse (crn_visit new_address p) crn_endVisit fuel g parent rule st).
Proof.
  revert path R parent rule st. induction fuel as [|fuel IH];
    intros path R parent rule st Hst Hin Ht Hp Hlt; simpl.
  { pose proof (rule_trail_bounded path rule Ht). lia. }
  destruct (decide (rule ∈ path)) as [Hr|Hr].
  { assert (crn_visit new_address p parent rule st = Throw (CycleInRules (m_rulePath st))) as ->.
    { unfold crn_visit. destruct (set_insert_cases (m_rulesOnPath st) rule (cr_onPath_wf _ _ _ Hst))
        as [(_ & i & ->)|(Hn & _)]; [done|]. by rewrite (cr_onPath _ _ _ Hst) in Hn. }
    exists (m_rulePath st), rule. split_and!; [done| |apply rtc_refl|by apply Ht].
    rewrite (cr_path _ _ _ Hst), list_elem_of_In, <-in_rev, <-list_elem_of_In. done. }
  destruct (crn_visit_ok path R st parent rule Hst Hr) as (st1 & -> & C1 & X1 & H1 & F1 & P1).
  { destruct parent as [pr|]; [|done]. destruct Hp as (Hpr & Hs & Hc). split_and!; [done..|].
    by intros ->. }
  cbn [exn_bind]. set (R1 := match parent with Some _ => R | None => rule :: R end) in *.
  pose proof (traverse_children
    (λ c, traverse (crn_visit new_address p) crn_endVisit fuel g (Some rule) (ruleAt g c))
    (rule :: path) R1 rule (default [] (m_ruleChildren g !! idOf g rule)) st1) as Hl.
  assert (∀ c, c ∈ default [] (m_ruleChildren g !! idOf g rule) → ruleChild g rule (ruleAt g c))
    as Hch by (intros c; by apply rulesOf_children).
  specialize (Hl Hch). destruct (for_each _ _ st1) as [st2|e]; cbn [exn_bind].
  - destruct Hl as (C2 & X2 & Hall & F2); [|done..|].
    { intros c st' Hc Hst' Hs. apply IH; [done| | | |simpl; lia].
      - destruct (Hch c Hc) as (? & j & _ & _ & Hj). by eapply list_elem_of_lookup_2.
      - apply rule_trail_step; auto.
      - split; [left|]. split; [done|by apply Hch]. }
    destruct (crn_endVisit_ok path R1 rule st2 C2 Hr) as [C3 X3].
    assert (extends st1 (crn_endVisit rule st2)) as X13 by (by etrans).
    assert (∀ q, ruleChild g rule q → ∃ c, c ∈ default [] (m_ruleChildren g !! idOf g rule) ∧
      ruleAt g c = q) as Hback by (intros q; by apply ruleChild_child).
    split; [|done|by etrans| | |].
    + apply noCycle_children. intros q (c & Hc & <-)%Hback. by apply Hall.
    + intros q Hq. inversion Hq as [|? q1 ? Hrq1 Hq1]; subst.
      * split. { destruct H1 as [u Hu]. exists u. by eapply lookup_weaken; [|apply X13]. }
        intros q' (c & Hc & <-)%Hback. eapply connected_extends; [exact X3|]. by apply Hall.
      * apply Hback in Hrq1 as (c & Hc & <-).
        by apply (covered_extends st2 _ (ruleAt g c) X3); [apply Hall|].
    + intros q Hq. apply F2 in Hq as [Hq|?]; [|by right].
      apply F1 in Hq as [?| ->]; [by left|right; apply rtc_refl].
    + destruct parent; [|done]. by eapply connected_extends.
  - apply Hl; [|done..].
    intros c st' Hc Hst' Hs. apply IH; [done| | | |simpl; lia].
    + destruct (Hch c Hc) as (? & j & _ & _ & Hj). by eapply list_elem_of_lookup_2.
    + apply rule_trail_step; auto.
    + split; [left|]. split; [done|by apply Hch].
Qed.
End Create.

(** ** All root rules *)

(** The rule [r] takes what the rule [q] makes, both being rules of [rs]. *)
Definition dependsOn (h : Heap) (rs : list nat) (r q : nat) : Prop :=
  r ∈ rs ∧ q ∈ rs ∧ takes (getRule h r) (getRule h q).

(** The rule [r] is below a rule that makes a file tag of the product. *)
Definition needed (h : Heap) (rs : list nat) (tags : FileTags) (r : nat) : Prop :=
  ∃ root tag, root ∈ rs ∧ tag ∈ tags ∧ tag ∈ outputTags (getRule h root) ∧
    rtc (dependsOn h rs) root r.

Section Accept.
Variables (new_address : Heap → nat) (p : nat) (g : RuleGraph) (h0 : Heap) (b0 : ProductBuildData).
Hypothesis Hnew : ∀ h, nodes h !! new_address h = None.
Hypothesis Hg : rg_ok g.

Lemma ruleAt_lookup i : i ∈ m_rootRules g → m_rules g !! i = Some (ruleAt g i).
Proof. intros Hi. destruct (rg_roots _ Hg i Hi) as [r Hr]. unfold ruleAt. by rewrite Hr. Qed.

(** The loop of [accept] over the root rules [l]. *)
Lemma acceptRules_ok l R st :
  (∀ i, i ∈ l → i ∈ m_rootRules g) → created p g h0 b0 [] R st →
  match for_each (λ i, traverse (crn_visit new_address p) crn_endVisit
          (S (S (length (m_rules g)))) g None (ruleAt g i)) l st with
  | Ok st' => created p g h0 b0 [] (rev (map (ruleAt g) l) ++ R) st' ∧ extends st st' ∧
      (∀ i, i ∈ l → noCycle g (ruleAt g i) ∧ covered g st' (ruleAt g i)) ∧
      (∀ q, is_Some (m_nodePerRule st' !! q) → is_Some (m_nodePerRule st !! q) ∨
         ∃ i, i ∈ l ∧ rtc (ruleChild g) (ruleAt g i) q)
  | Throw e => ∃ i, i ∈ l ∧ rule_cycle g (ruleAt g i) e
  end.
Proof.
  revert R st. induction l as [|i l IH]; intros R st Hl Hst; cbn [for_each].
  { split_and!; [done|by split| |by left]. by intros i ?%elem_of_nil. }
  assert (traverse_post p g h0 b0 [] R None (ruleAt g i) st (traverse (crn_visit new_address p)
    crn_endVisit (S (S (length (m_rules g)))) g None (ruleAt g i) st)) as Ht.
  { apply traverse_ok; [done|done|done| | |done|simpl; lia].
    - eapply list_elem_of_lookup_2, ruleAt_lookup, Hl. left.
    - split; [constructor|]. by intros r ?%elem_of_nil. }
  unfold traverse_post in Ht. destruct (traverse _ _ _ _ _ _ _) as [st1|e]; cbn [exn_bind].
  2: { exists i. split; [left|done]. }
  destruct Ht as [N1 C1 X1 V1 F1 _].
  specialize (IH _ st1 (λ i H, Hl i (list_elem_of_further _ _ _ H)) C1).
  destruct (for_each _ l st1) as [st2|e].
  - destruct IH as (C2 & X2 & H2 & F2). split; [|split; [|split]].
    + simpl. by rewrite <-app_assoc.
    + destruct X1, X2. split; [by etrans|auto].
    + intros j [->|Hj]%elem_of_cons; [|by apply H2]. split; [done|].
      by eapply covered_extends.
    + intros q [Hq|(j & Hj & Hq)]%F2; [|right; exists j; split; [by right|done]].
      apply F1 in Hq as [?|?]; [by left|right; exists i; split; [left|done]].
  - destruct IH as (j & Hj & He). exists j. split; [by right|done].
Qed.
End Accept.

(** ** The properties *)

(** C36: the rule graph of a product has each rule once, under its index; a rule
    has as children exactly the rules that make a file tag it takes and none
    that it excludes, the parents mirror the children, and the root rules are
    exactly those that make a file tag of the product. *)
Theorem build_correct h rs productFileTags :
  NoDup rs → (∀ r, r ∈ rs → wf_rule (getRule h r)) →
  let g := build h rs productFileTags in
  m_rules g = rs ∧
  (∀ i r, rs !! i = Some r ↔ ruleGraphId g !! r = Some i) ∧
  length (m_ruleChildren g) = length rs ∧
  (∀ i j, childId g i j ↔ ∃ r q, rs !! i = Some r ∧ rs !! j = Some q ∧
     takes (getRule h r) (getRule h q)) ∧
  (∀ i j, parentId g j i ↔ childId g i j) ∧
  (∀ i, i ∈ m_rootRules g ↔ ∃ r tag, rs !! i = Some r ∧ tag ∈ productFileTags ∧
     tag ∈ outputTags (getRule h r)).
Proof. apply build_spec. Qed.

Lemma build_rg_ok h rs tags :
  NoDup rs → (∀ r, r ∈ rs → wf_rule (getRule h r)) →
  rg_ok (build h rs tags) ∧ ∀ r q, ruleChild (build h rs tags) r q ↔ dependsOn h rs r q.
Proof.
  intros Hn Hwf. destruct (build_spec h rs tags Hn Hwf) as (Hr & Hi & _ & Hc & _ & Hroot).
  set (g := build h rs tags) in *. split; [split|].
  - intros i r. rewrite Hr. apply Hi.
  - intros i j (r & q & _ & Hq & _)%Hc. rewrite Hr. by eexists.
  - intros i (r & tag & Hir & _)%Hroot. rewrite Hr. by eexists.
  - intros r q. unfold ruleChild. rewrite Hr. split.
    + intros (i & j & Hir & Hij & Hjq). apply Hc in Hij as (r' & q' & Hir' & Hjq' & Ht).
      simplify_eq. split_and!; [by eapply list_elem_of_lookup_2..|done].
    + intros ([i Hir]%list_elem_of_lookup_1 & [j Hjq]%list_elem_of_lookup_1 & Ht).
      exists i, j. split; [done|]. split; [|done]. apply Hc. by exists r, q.
Qed.

Lemma rtc_weaken {A} (R S : A → A → Prop) x y :
  (∀ x y, R x y → S x y) → rtc R x y → rtc S x y.
Proof. intros H. induction 1; [apply rtc_refl|]. eapply rtc_l; eauto. Qed.

Lemma tc_weaken {A} (R S : A → A → Prop) x y : (∀ x y, R x y → S x y) → tc R x y → tc S x y.
Proof. intros H. induction 1; [by apply tc_once, H|]. eapply tc_l; eauto. Qed.

(** The needed rules are those below the root rules. *)
Lemma needed_roots h rs tags r :
  NoDup rs → (∀ r, r ∈ rs → wf_rule (getRule h r)) →
  let g := build h rs tags in
  needed h rs tags r ↔ ∃ i, i ∈ m_rootRules g ∧ rtc (ruleChild g) (ruleAt g i) r.
Proof.
  intros Hn Hwf. cbv zeta. destruct (build_rg_ok h rs tags Hn Hwf) as [Hg Hch].
  destruct (build_spec h rs tags Hn Hwf) as (Hr & _ & _ & _ & _ & Hroot).
  set (g := build h rs tags) in *.
  assert (∀ i r, rs !! i = Some r → ruleAt g i = r) as Hat.
  { intros i q Hi. unfold ruleAt. by rewrite Hr, Hi. }
  split.
  - intros (root & tag & [i Hi]%list_elem_of_lookup_1 & Ht & Ho & Hrt). exists i. split.
    + apply Hroot. by exists root, tag.
    + rewrite (Hat i root Hi). eapply rtc_weaken; [|exact Hrt]. intros x y. apply Hch.
  - intros (i & (root & tag & Hi & Ht & Ho)%Hroot & Hrt). rewrite (Hat i root Hi) in Hrt.
    exists root, tag. split_and!; [by eapply list_elem_of_lookup_2|done..|].
    eapply rtc_weaken; [|exact Hrt]. intros x y. apply Hch.
Qed.

Lemma created_start p g h b :
  wf_graph h → buildDataOf h p = Some b → wf_set (m_nodes b) → wf_set (m_roots b) →
  created p g h b [] [] (mkCreateRuleNodes h ∅ [] []).
Proof.
  intros Hw Hb Hn Hr. split; simpl; try done.
  - by left.
  - exists b. split_and!; [done..| |]; intros u; (split; [by left|]).
    + intros [?|(r & Hx)]; [done|by rewrite lookup_empty in Hx].
    + intros [?|(r & ?%elem_of_nil & _)]; done.
  - by intros r ?%elem_of_nil.
  - apply nil_wf.
Qed.

(** C19: creating the rule nodes of a product terminates, and fails exactly when
    a cycle of rules is below a rule that makes a file tag of the product, with a
    path through the cycle; otherwise the product has one node for each rule that
    is needed and for no other, connected as the rules depend on each other, the
    nodes of the rules that make a tag of the product are its new roots, and the
    rest of the graph is as before. *)
Theorem createRuleNodes_correct new_address p rs tags h b :
  (∀ h, nodes h !! new_address h = None) → wf_graph h →
  NoDup rs → (∀ r, r ∈ rs → wf_rule (getRule h r)) →
  buildDataOf h p = Some b → wf_set (m_nodes b) → wf_set (m_roots b) →
  match createRuleNodes new_address p rs tags h with
  | Ok st =>
      (∀ r, needed h rs tags r → ¬ tc (dependsOn h rs) r r) ∧
      (∀ r, is_Some (m_nodePerRule st !! r) ↔ needed h rs tags r) ∧
      (∀ r u, m_nodePerRule st !! r = Some u → nodes h !! u = None ∧
         productOf (crn_heap st) u = Some p ∧ m_rule <$> as_ruleNode (crn_heap st) u = Some r) ∧
      (∀ r q, needed h rs tags r → connected st r q ↔ dependsOn h rs r q) ∧
      (∀ u v, present h u → edge (crn_heap st) u v ↔ edge h u v) ∧
      wf_graph (crn_heap st) ∧
      ∃ b', buildDataOf (crn_heap st) p = Some b' ∧
        (∀ u, u ∈ m_nodes b' ↔ u ∈ m_nodes b ∨ ∃ r, m_nodePerRule st !! r = Some u) ∧
        (∀ u, u ∈ m_roots b' ↔ u ∈ m_roots b ∨ ∃ r tag, m_nodePerRule st !! r = Some u ∧
           r ∈ rs ∧ tag ∈ tags ∧ tag ∈ outputTags (getRule h r))
  | Throw e =>
      ∃ path q, e = CycleInRules path ∧ q ∈ path ∧ needed h rs tags q ∧ tc (dependsOn h rs) q q
  end.
Proof.
  intros Hnew Hw Hn Hwf Hb Hbn Hbr. unfold createRuleNodes, acceptRules.
  destruct (build_rg_ok h rs tags Hn Hwf) as [Hg Hch].
  destruct (build_spec h rs tags Hn Hwf) as (Hrules & _ & _ & _ & _ & Hroot).
  pose proof (λ r, needed_roots h rs tags r Hn Hwf) as Hneed. cbv zeta in Hneed.
  set (g := build h rs tags) in *.
  assert (∀ q, tc (ruleChild g) q q ↔ tc (dependsOn h rs) q q) as Htc.
  { intros q. split; apply tc_weaken; intros x y; apply Hch. }
  pose proof (acceptRules_ok new_address p g h b Hnew Hg (m_rootRules g) [] _ (λ i H, H)
    (created_start p g h b Hw Hb Hbn Hbr)) as H.
  destruct (for_each _ (m_rootRules g) _) as [st|e].
  2: { destruct H as (i & Hi & path & q & -> & Hq & Hrt & Ht). exists path, q.
       split_and!; [done|done| |by apply Htc]. apply Hneed. by exists i. }
  destruct H as (C & X & Hall & F). rewrite app_nil_r in C.
  assert (∀ r, is_Some (m_nodePerRule st !! r) ↔ needed h rs tags r) as Hnodes.
  { intros r. rewrite Hneed. split.
    - intros [[u Hu]|?]%F; [|done]. simpl in Hu. by rewrite lookup_empty in Hu.
    - intros (i & Hi & Hrt). by apply (Hall i Hi). }
  split_and!; [| |intros r u Hu; destruct (cr_node _ _ _ _ _ _ _ C r u Hu) as (? & ? & ? & ?);
    done| | |apply C|].
  - intros r (i & Hi & Hrt)%Hneed Ht. apply Htc in Ht.
    destruct (Hall i Hi) as [Nc _]. exact (Nc r Hrt Ht).
  - done.
  - intros r q Hr. rewrite <-Hch. split.
    + intros (u & v & Hu & Hv & Huv).
      destruct (cr_edges _ _ _ _ _ _ _ C u v Huv) as [He|(r' & q' & Hrq & Hu' & Hv')].
      * apply edge_present in He as [? ?].
        destruct (cr_node _ _ _ _ _ _ _ C r u Hu) as (_ & _ & _ & Hn0). congruence.
      * by rewrite (created_inj _ _ _ _ _ _ _ _ _ _ C Hu Hu'),
          (created_inj _ _ _ _ _ _ _ _ _ _ C Hv Hv').
    + intros Hrq. apply Hneed in Hr as (i & Hi & Hrt). by apply (Hall i Hi).
  - intros u v [n Hu]. split; [|apply C]. intros Huv.
    destruct (cr_edges _ _ _ _ _ _ _ C u v Huv) as [He|(r' & q' & _ & Hu' & _)]; [done|].
    destruct (cr_node _ _ _ _ _ _ _ C r' u Hu') as (_ & _ & _ & Hn0). congruence.
  - destruct (cr_build _ _ _ _ _ _ _ C) as (b' & Hb' & _ & _ & H1 & H2). exists b'.
    split; [done|]. split; [done|]. intros u. rewrite H2.
    assert (∀ r, r ∈ rev (map (ruleAt g) (m_rootRules g)) ↔
      ∃ tag, r ∈ rs ∧ tag ∈ tags ∧ tag ∈ outputTags (getRule h r)) as Hrev; [|naive_solver].
    intros r. rewrite list_elem_of_In, <-in_rev, <-list_elem_of_In, list_elem_of_fmap. split.
    + intros (i & -> & (q & tag & Hi & Ht & Ho)%Hroot). exists tag. unfold ruleAt.
      rewrite Hrules, Hi. simpl. split_and!; [by eapply list_elem_of_lookup_2|done..].
    + intros (tag & [i Hi]%list_elem_of_lookup_1 & Ht & Ho). exists i.
      unfold ruleAt. rewrite Hrules, Hi. split; [done|]. apply Hroot. by exists r, tag.
Qed.

(** ** The properties at a concrete product

    Of the product 9, that wants the tag 3, the rule 6 makes 2 from 1, the rule 7
    makes 3 from 2; nothing needs the tag 4 that the rule 8 makes. *)

Definition exampleRules : Heap :=
  mkHeap ∅ ∅
    (list_to_map [(6, mkRule 9 [2] [1] [] [] [] [] [] false true false);
                  (7, mkRule 9 [3] [2] [] [] [] [] [] true true false);
                  (8, mkRule 9 [4] [2] [] [] [] [] [] false true false)])
    {[9 := mkResolvedProduct "app" true [3] [] [6; 7; 8] 0 [] (Some (mkProductBuildData [] [] ∅ true))]}
    ∅ ∅ false.

Lemma exampleRules_wf r : r ∈ [6; 7; 8] → wf_rule (getRule exampleRules r).
Proof.
  rewrite !elem_of_cons, elem_of_nil. intros. destruct_or!; subst; try done;
    repeat split; by apply ssorted_nat_check.
Qed.

Lemma exampleRules_NoDup : NoDup [6; 7; 8].
Proof. by apply (bool_decide_unpack _). Qed.

(** An address above all others. *)
Definition nextAddress (h : Heap) : nat := S (max_list (map fst (map_to_list (nodes h)))).

Lemma nextAddress_new h : nodes h !! nextAddress h = None.
Proof.
  unfold nextAddress. destruct (nodes h !! _) as [n|] eqn:E; [|done]. exfalso.
  apply elem_of_map_to_list, (list_elem_of_fmap_2 fst), max_list_elem_of_le in E.
  exact (Nat.nle_succ_diag_l _ E).
Qed.

Lemma build_correct_witness :
  let g := build exampleRules [6; 7; 8] [3] in
  m_rules g = [6; 7; 8] ∧ m_rootRules g = [1] ∧ childId g 1 0 ∧ ¬ childId g 0 1.
Proof.
  destruct (build_correct exampleRules [6; 7; 8] [3] exampleRules_NoDup exampleRules_wf)
    as (Hr & _ & _ & Hc & _ & _).
  split; [exact Hr|]. split; [by vm_compute|]. split.
  - apply Hc. exists 7, 6. split_and!; [done..|].
    split; [exists 2; split; [left|left; left]|]. intros t _. apply not_elem_of_nil.
  - intros (r & q & Hi & Hj & [(t & Ht & Hin) _])%Hc. simplify_eq/=.
    change (t ∈ [3]) in Ht. change (t ∈ [1] ∨ t ∈ @nil nat ∨ t ∈ @nil nat) in Hin.
    apply list_elem_of_singleton in Ht as ->.
    rewrite list_elem_of_singleton, !elem_of_nil in Hin. naive_solver.
Defined.

Lemma createRuleNodes_correct_witness :
  ∃ st, createRuleNodes nextAddress 9 [6; 7; 8] [3] exampleRules = Ok st ∧
    is_Some (m_nodePerRule st !! 6) ∧ connected st 7 6 ∧ wf_graph (crn_heap st).
Proof.
  pose proof (createRuleNodes_correct nextAddress 9 [6; 7; 8] [3] exampleRules
    (mkProductBuildData [] [] ∅ true) nextAddress_new) as H.
  destruct (createRuleNodes nextAddress 9 [6; 7; 8] [3] exampleRules) as [st|e] eqn:E;
    [|by vm_compute in E].
  exists st. split; [done|].
  destruct H as (_ & Hn & _ & Hc & _ & Hw & _);
    [by apply check_graph_ok; vm_compute|exact exampleRules_NoDup|exact exampleRules_wf|
     reflexivity|apply nil_wf|apply nil_wf|].
  assert (dependsOn exampleRules [6; 7; 8] 7 6) as Hd.
  { split; [right; left|]. split; [left|]. split; [exists 2; split; [left|left; left]|].
    intros t _. apply not_elem_of_nil. }
  assert (needed exampleRules [6; 7; 8] [3] 7) as H7.
  { exists 7, 3. split; [right; left|]. split; [left|]. split; [left|apply rtc_refl]. }
  split; [|split; [by apply Hc|exact Hw]]. apply Hn. exists 7, 3. split; [right; left|].
  split; [left|]. split; [left|]. by apply rtc_once.
Defined.
