(* ===== verification/RuleDependencies.v ===== *)
(** * Rules of different products

    Correctness of [areRulesCompatible] and [connectRulesToDependencies]: which
    rule nodes of a product are connected to those of its dependencies. *)

From S2P Require Import Prelude FlatSet BuildGraph BuildGraphCorrect RuleGraph RuleGraphCorrect.

Section Links.
Variables (installableTag : nat) (h : Heap).

(** [h'] is [h] with the edges [E] besides, and otherwise the same. *)
Record linked (E : nat → nat → Prop) (h' : Heap) : Prop := {
  li_wf : wf_graph h';
  li_edges u v : edge h' u v ↔ edge h u v ∨ E u v;
  li_present u : present h' u ↔ present h u;
  li_ruleNode u : as_ruleNode h' u = as_ruleNode h u;
  li_product u : productOf h' u = productOf h u;
  li_rules : rules h' = rules h;
  li_products : products h' = products h
}.

Lemma linked_ext E E' h' : (∀ u v, E u v ↔ E' u v) → linked E h' → linked E' h'.
Proof. intros HE [? He ? ? ? ? ?]. split; try done. intros u v. by rewrite He, HE. Qed.

Lemma linked_connect E h' u v rn :
  linked E h' → present h u → is_Some (productOf h u) → as_ruleNode h v = Some rn → u ≠ v →
  ∃ h'', connect u v h' = Ok h'' ∧ linked (λ x y, E x y ∨ (x = u ∧ y = v)) h''.
Proof.
  intros [Hw He Hp Hr Hq Hrs Hps] Hu [q Hqu] Hrn Huv.
  assert (present h v) as Hv.
  { unfold as_ruleNode in Hrn. unfold present. destruct (nodes h !! v); [by eexists|done]. }
  exists (set_isDirty true (addEdge u v h')). split.
  { unfold connect, QBS_CHECK. rewrite <-Hr in Hrn.
    rewrite (ruleNode_not_artifact _ _ _ Hrn), Hq, Hqu. by destruct (Nat.eqb_spec u v). }
  assert (same_edges (addEdge u v h') (set_isDirty true (addEdge u v h'))) as Sd
    by by apply nodes_same_edges.
  split; try done.
  - eapply wf_graph_proper; [symmetry; exact Sd|]. apply addEdge_wf; [done|by apply Hp..|done].
  - intros x y. rewrite <-(edge_proper _ _ Sd x x eq_refl y y eq_refl).
    rewrite edge_addEdge, He by (done || by apply Hp). tauto.
  - intros x. rewrite <-Hp. apply present_addEdge.
  - intros x. rewrite <-Hr. unfold addEdge.
    change (as_ruleNode (set_isDirty true ?h1) x) with (as_ruleNode h1 x).
    by rewrite !as_ruleNode_upd_other.
  - intros x. rewrite <-Hq. apply productOf_addEdge.
Qed.

(** A loop each of whose rounds adds edges and succeeds. *)
Lemma for_each_linked {A} (f : A → Heap → exn BGError Heap) (step : A → nat → nat → Prop) l :
  (∀ a h' E, a ∈ l → linked E h' →
     ∃ h'', f a h' = Ok h'' ∧ linked (λ u v, E u v ∨ step a u v) h'') →
  ∀ h' E, linked E h' →
  ∃ h'', for_each f l h' = Ok h'' ∧ linked (λ u v, E u v ∨ ∃ a, a ∈ l ∧ step a u v) h''.
Proof.
  induction l as [|a l IH]; intros Hf h' E Hh; cbn [for_each].
  - exists h'. split; [done|]. eapply linked_ext; [|exact Hh]. intros u v. split; [by left|].
    intros [?|(? & ?%elem_of_nil & _)]; done.
  - destruct (Hf a h' E (list_elem_of_here _ _) Hh) as (h1 & -> & Hh1). cbn [exn_bind].
    destruct (IH (λ b h' E H, Hf b h' E (list_elem_of_further _ _ _ H)) h1 _ Hh1)
      as (h2 & -> & Hh2). exists h2. split; [done|]. eapply linked_ext; [|exact Hh2].
    intros u v. setoid_rewrite elem_of_cons. naive_solver.
Qed.

(** The test reads nothing that the loops change. *)
Lemma mustConnect_linked E h' u v :
  linked E h' → mustConnect installableTag h' u v = mustConnect installableTag h u v.
Proof.
  intros L. unfold mustConnect, ruleOf, tagsOfProduct, isRootRuleNode, buildDataOf, getRule.
  by rewrite !(li_ruleNode _ _ L), !(li_product _ _ L), (li_rules _ _ L), (li_products _ _ L).
Qed.

Lemma ruleNodes_of_linked E h' s : linked E h' → ruleNodes_of h' s = ruleNodes_of h s.
Proof.
  intros L. unfold ruleNodes_of. apply List.filter_ext. intros u. unfold isRuleNode.
  by rewrite (li_ruleNode _ _ L).
Qed.
End Links.

(** The nodes of a product belong to it, and are there. *)
Definition owns_nodes (h : Heap) : Prop :=
  ∀ p b u, buildDataOf h p = Some b → u ∈ m_nodes b → productOf h u = Some p ∧ present h u.

(** The sets of tags that the connection compares are well formed. *)
Definition wf_tags (h : Heap) : Prop :=
  (∀ i r, rules h !! i = Some r →
     wf_set (outputTags r) ∧ wf_set (auxiliaryInputs r) ∧ wf_set (excludedInputs r) ∧
     wf_set (inputsFromDependencies r) ∧ wf_set (explicitlyDependsOnFromDependencies r)) ∧
  (∀ p rp, products h !! p = Some rp → wf_set (product_fileTags rp)) ∧
  (∀ p b, buildDataOf h p = Some b → wf_set (m_roots b)).

(** The rule [r] takes from the rule [d] of a dependency with the file tags
    [dtags]: [d] makes no tag that [r] excludes and makes a tag that [r] takes from
    dependencies, or it makes a tag of its own product and a tag that [r] names as
    explicit or auxiliary input. *)
Definition compatible (r d : Rule) (dtags : FileTags) : Prop :=
  (∀ t, t ∈ outputTags d → t ∉ excludedInputs r) ∧
  ((∃ t, t ∈ outputTags d ∧ t ∈ inputsFromDependencies r) ∨
   ((∃ t, t ∈ outputTags d ∧ t ∈ dtags) ∧
    ∃ t, t ∈ outputTags d ∧
      (t ∈ explicitlyDependsOnFromDependencies r ∨ t ∈ auxiliaryInputs r))).

Definition root_node (h : Heap) (u : nat) : Prop :=
  ∃ p b, productOf h u = Some p ∧ buildDataOf h p = Some b ∧ u ∈ m_roots b.

(** The rule node [u] of [p] takes from the rule node [v] of a dependency. *)
Definition dependency_edge (installableTag : nat) (h : Heap) (p : nat) (deps : list nat)
    (u v : nat) : Prop :=
  ∃ b dep db, buildDataOf h p = Some b ∧ u ∈ ruleNodes_of h (m_nodes b) ∧ dep ∈ deps ∧
    buildDataOf h dep = Some db ∧ v ∈ ruleNodes_of h (m_nodes db) ∧
    (compatible (ruleOf h u) (ruleOf h v) (tagsOfProduct h v) ∨
     (installableTag ∈ inputsFromDependencies (ruleOf h u) ∨
      installableTag ∈ auxiliaryInputs (ruleOf h u) ∨
      installableTag ∈ explicitlyDependsOnFromDependencies (ruleOf h u)) ∧ root_node h v).

Lemma areRulesCompatible_spec r d dtags :
  wf_set (outputTags d) → wf_set dtags → wf_set (excludedInputs r) →
  wf_set (inputsFromDependencies r) → wf_set (explicitlyDependsOnFromDependencies r) →
  wf_set (auxiliaryInputs r) →
  areRulesCompatible r d dtags = true ↔ compatible r d dtags.
Proof.
  intros Ho Ht He Hi Hx Ha. unfold areRulesCompatible, compatible.
  pose proof (intersects_spec _ _ He Ho) as I1. pose proof (intersects_spec _ _ Hi Ho) as I2.
  pose proof (intersects_spec _ _ Ht Ho) as I3. pose proof (intersects_spec _ _ Hx Ho) as I4.
  pose proof (intersects_spec _ _ Ha Ho) as I5.
  destruct (intersects (excludedInputs r) _), (intersects (inputsFromDependencies r) _),
    (intersects dtags _), (intersects (explicitlyDependsOnFromDependencies r) _),
    (intersects (auxiliaryInputs r) _); simpl;
    (split; [intros E; try discriminate E|]); try naive_solver.
Qed.

Lemma ruleOf_wf h u :
  wf_tags h →
  wf_set (outputTags (ruleOf h u)) ∧ wf_set (auxiliaryInputs (ruleOf h u)) ∧
  wf_set (excludedInputs (ruleOf h u)) ∧ wf_set (inputsFromDependencies (ruleOf h u)) ∧
  wf_set (explicitlyDependsOnFromDependencies (ruleOf h u)).
Proof.
  intros [Hr _]. unfold ruleOf, getRule.
  destruct (as_ruleNode h u) as [r|]; [|split_and!; apply nil_wf].
  destruct (rules h !! m_rule r) as [x|] eqn:E; simpl; [by eapply Hr|split_and!; apply nil_wf].
Qed.

Lemma tagsOfProduct_wf h u : wf_tags h → wf_set (tagsOfProduct h u).
Proof.
  intros (_ & Hp & _). unfold tagsOfProduct. destruct (productOf h u) as [p|]; [|apply nil_wf].
  destruct (products h !! p) eqn:E; simpl; [by eapply Hp|apply nil_wf].
Qed.

Lemma isRootRuleNode_spec h u : wf_tags h → isRootRuleNode h u = true ↔ root_node h u.
Proof.
  intros (_ & _ & Hb). unfold isRootRuleNode, root_node.
  destruct (productOf h u) as [p|]; [|naive_solver].
  destruct (buildDataOf h p) as [b|] eqn:E.
  - rewrite contains_spec by by eapply Hb. split; [by exists p, b|].
    intros (? & ? & [= <-] & ? & ?). naive_solver.
  - split; [done|]. intros (? & ? & [= <-] & ? & ?). congruence.
Qed.

Lemma mustConnect_spec installableTag h u v :
  wf_tags h →
  mustConnect installableTag h u v = true ↔
    compatible (ruleOf h u) (ruleOf h v) (tagsOfProduct h v) ∨
    (installableTag ∈ inputsFromDependencies (ruleOf h u) ∨
     installableTag ∈ auxiliaryInputs (ruleOf h u) ∨
     installableTag ∈ explicitlyDependsOnFromDependencies (ruleOf h u)) ∧ root_node h v.
Proof.
  intros Hw. destruct (ruleOf_wf h u Hw) as (_ & Ha & He & Hi & Hx).
  destruct (ruleOf_wf h v Hw) as (Ho & _). pose proof (tagsOfProduct_wf h v Hw) as Ht.
  unfold mustConnect, takesInstallable.
  rewrite orb_true_iff, andb_true_iff, !orb_true_iff, isRootRuleNode_spec by done.
  rewrite areRulesCompatible_spec, !contains_spec by done. tauto.
Qed.

(** C20: connecting the rules of a product to those of its dependencies always
    succeeds and adds exactly the edges between compatible rules, and between
    rules that take installable artifacts and the root rules of a dependency. *)
Theorem connectRulesToDependencies_correct installableTag h p b deps :
  wf_graph h → owns_nodes h → wf_tags h → buildDataOf h p = Some b → p ∉ deps →
  ∃ h', connectRulesToDependencies installableTag p deps h = Ok h' ∧ wf_graph h' ∧
    ∀ u v, edge h' u v ↔ edge h u v ∨ dependency_edge installableTag h p deps u v.
Proof.
  intros Hw Ho Htags Hb Hp. unfold connectRulesToDependencies. rewrite Hb.
  set (rn := ruleNodes_of h (m_nodes b)).
  assert (linked h (λ _ _, False) h) as L0 by (split; try done; tauto).
  destruct (for_each_linked h (λ dep h',
      match buildDataOf h' dep with
      | None => Ok h'
      | Some db => for_each (connectToRuleNode installableTag rn) (ruleNodes_of h' (m_nodes db)) h'
      end)
    (λ dep u v, ∃ db, buildDataOf h dep = Some db ∧ u ∈ rn ∧ v ∈ ruleNodes_of h (m_nodes db) ∧
       mustConnect installableTag h u v = true) deps) with (h' := h) (E := λ _ _ : nat, False)
    as (h' & E & L); [|done|].
  - intros dep h1 E Hdep L1.
    assert (buildDataOf h1 dep = buildDataOf h dep) as ->.
    { unfold buildDataOf. by rewrite (li_products _ _ _ L1). }
    destruct (buildDataOf h dep) as [db|] eqn:Hdb.
    2: { exists h1. split; [done|]. eapply linked_ext; [|exact L1]. naive_solver. }
    rewrite (ruleNodes_of_linked h E h1 _ L1).
    destruct (for_each_linked h (connectToRuleNode installableTag rn)
      (λ v u w, u ∈ rn ∧ w = v ∧ mustConnect installableTag h u v = true)
      (ruleNodes_of h (m_nodes db))) with (h' := h1) (E := E) as (h2 & E2 & L2); [|done|].
    + intros v h3 E3 Hv L3. unfold connectToRuleNode.
      apply elem_of_ruleNodes_of in Hv as [Hv [x Hx]].
      destruct (for_each_linked h (λ u h', if mustConnect installableTag h' u v
          then connect u v h' else Ok h')
        (λ u y w, y = u ∧ w = v ∧ mustConnect installableTag h u v = true) rn)
        with (h' := h3) (E := E3) as (h4 & E4 & L4); [|done|].
      * intros u h5 E5 Hu L5. rewrite (mustConnect_linked installableTag h E5 h5 u v L5).
        apply elem_of_ruleNodes_of in Hu as [Hu _]. destruct (Ho p b u Hb Hu) as [Hup Hpu].
        destruct (mustConnect installableTag h u v).
        -- destruct (linked_connect h E5 h5 u v x) as (h6 & -> & L6);
             [done|done|by rewrite Hup|done| |].
           { intros ->. destruct (Ho dep db v Hdb Hv) as [Hvd _].
             apply Hp. congruence. }
           exists h6. split; [done|]. eapply linked_ext; [|exact L6]. naive_solver.
        -- exists h5. split; [done|]. eapply linked_ext; [|exact L5]. naive_solver.
      * exists h4. split; [done|]. eapply linked_ext; [|exact L4]. naive_solver.
    + exists h2. split; [done|]. eapply linked_ext; [|exact L2]. naive_solver.
  - exists h'. split; [exact E|]. split; [apply L|]. intros u v. rewrite (li_edges _ _ _ L).
    unfold dependency_edge. fold rn. split.
    + intros [?|[[]|(dep & Hd & db & Hdb & Hu & Hv & Hm)]]; [by left|right].
      apply mustConnect_spec in Hm; [|done]. exists b, dep, db. done.
    + intros [?|(b' & dep & db & Hb' & Hu & Hd & Hdb & Hv & Hm)]; [by left|]. simplify_eq.
      right. right. exists dep. split; [done|]. exists db.
      split_and!; [done..|]. by apply mustConnect_spec.
Qed.

(** ** The properties at two concrete products

    The rule 6 of the application 9 takes the tag 2 from dependencies; the rule 7
    of the library 8 makes it. *)

Definition exampleDependency : Heap :=
  mkHeap
    (list_to_map [(1, mkNode [] [] (Some 9) (RuleNodeType (mkRuleNode 6 [] [] [] 0 false)));
                  (2, mkNode [] [] (Some 8) (RuleNodeType (mkRuleNode 7 [] [] [] 0 false)))])
    ∅
    (list_to_map [(6, mkRule 9 [3] [] [] [] [2] [] [] false false false);
                  (7, mkRule 8 [2] [1] [] [] [] [] [] false true false)])
    (list_to_map [(8, mkResolvedProduct "lib" true [2] [] [7] 0 []
                        (Some (mkProductBuildData [2] [2] ∅ true)));
                  (9, mkResolvedProduct "app" true [3] [8] [6] 0 []
                        (Some (mkProductBuildData [1] [1] ∅ true)))])
    ∅ ∅ false.

Lemma exampleDependency_owns : owns_nodes exampleDependency.
Proof.
  intros p b u. unfold buildDataOf, exampleDependency at 1. cbn [products].
  destruct (_ !! p) as [rp|] eqn:E; [|done]. apply elem_of_list_to_map_2 in E.
  rewrite !elem_of_cons, elem_of_nil in E.
  destruct_or! E; injection E as -> ->; intros [= <-] ->%list_elem_of_singleton;
    (split; [reflexivity|by eexists]).
Qed.

Lemma exampleDependency_tags : wf_tags exampleDependency.
Proof.
  unfold wf_tags, buildDataOf, exampleDependency. cbn [rules products]. split_and!.
  - intros i r E. apply elem_of_list_to_map_2 in E. rewrite !elem_of_cons, elem_of_nil in E.
    destruct_or! E; injection E as -> ->; split_and!; by apply ssorted_nat_check.
  - intros p rp E. apply elem_of_list_to_map_2 in E. rewrite !elem_of_cons, elem_of_nil in E.
    destruct_or! E; injection E as -> ->; by apply ssorted_nat_check.
  - intros p b. destruct (_ !! p) as [rp|] eqn:E; [|done]. apply elem_of_list_to_map_2 in E.
    rewrite !elem_of_cons, elem_of_nil in E.
    destruct_or! E; injection E as -> ->; intros [= <-]; by apply ssorted_nat_check.
Qed.

Lemma connectRulesToDependencies_correct_witness :
  ∃ h', connectRulesToDependencies 50 9 [8] exampleDependency = Ok h' ∧ edge h' 1 2.
Proof.
  destruct (connectRulesToDependencies_correct 50 exampleDependency 9
    (mkProductBuildData [1] [1] ∅ true) [8]) as (h' & E & _ & He);
    [by apply check_graph_ok; vm_compute|exact exampleDependency_owns|exact exampleDependency_tags|reflexivity|
     rewrite list_elem_of_singleton; lia|].
  exists h'. split; [exact E|]. apply He. right.
  exists (mkProductBuildData [1] [1] ∅ true), 8, (mkProductBuildData [2] [2] ∅ true).
  split_and!; [done|by vm_compute; left|left|done|by vm_compute; left|]. left. split.
  - intros t _. apply not_elem_of_nil.
  - left. exists 2. split; left.
Defined.
