(* ===== verification/JobLimits.v ===== *)
(** * Job limits ([tools/joblimits.cpp])

    How many commands of a job pool may run at the same time: single limits, lists
    of limits, and how a list of limits overrides another one. *)

From S2P Require Import Prelude.

(** [std::numeric_limits<int>::max()] *)
Definition INT_MAX : Z := 2147483647.

(** The value -1 stands for a pool without a setting, 0 of the user for a pool
    without limit. *)
Definition transformLimit (limitFromUser : Z) : Z :=
  if (limitFromUser =? 0)%Z then INT_MAX
  else if (limitFromUser <? -1)%Z then -1
  else limitFromUser.

Record JobLimit := mkJobLimit_ { pool : str; limit : Z }.

Definition mkJobLimit (p : str) (l : Z) : JobLimit := mkJobLimit_ p (transformLimit l).

Abbreviation JobLimits := (list JobLimit).

Fixpoint setJobLimit (l : JobLimit) (jobLimits : JobLimits) : JobLimits :=
  match jobLimits with
  | [] => [l]
  | currentLimit :: rest =>
      if bool_decide (pool currentLimit = pool l)
      then (if (limit currentLimit =? limit l)%Z then currentLimit else l) :: rest
      else currentLimit :: setJobLimit l rest
  end.

Fixpoint getLimit (jobLimits : JobLimits) (p : str) : Z :=
  match jobLimits with
  | [] => -1
  | l :: rest => if bool_decide (pool l = p) then limit l else getLimit rest p
  end.

Definition hasLimit (jobLimits : JobLimits) (p : str) : bool := negb (getLimit jobLimits p =? -1)%Z.

Definition isEmpty (jobLimits : JobLimits) : bool := is_nil jobLimits.

Definition update (self other : JobLimits) : JobLimits :=
  if isEmpty self then other
  else foldl (λ self l, if negb (limit l =? -1)%Z then setJobLimit l self else self) self other.

(** ** Correctness *)

(** A limit is missing or positive, and every pool has one. *)
Definition valid_limit (l : Z) : Prop := (l = -1 ∨ 0 < l)%Z.

Definition valid_limits (jobLimits : JobLimits) : Prop :=
  NoDup (map pool jobLimits) ∧ Forall (λ l, valid_limit (limit l)) jobLimits.

Lemma transformLimit_valid n : valid_limit (transformLimit n).
Proof.
  unfold transformLimit, valid_limit, INT_MAX.
  destruct (Z.eqb_spec n 0), (Z.ltb_spec n (-1)); lia.
Qed.

Lemma getLimit_absent ls p : p ∉ map pool ls → getLimit ls p = (-1)%Z.
Proof.
  induction ls as [|l ls IH]; simpl; [done|]. rewrite not_elem_of_cons. intros [Hp Hls].
  rewrite bool_decide_eq_false_2 by congruence. by apply IH.
Qed.

Lemma getLimit_valid ls p : valid_limits ls → valid_limit (getLimit ls p).
Proof.
  intros [_ Hv]. induction Hv as [|l ls Hl Hv IH]; simpl; [by left|]. by case_bool_decide.
Qed.

Lemma getLimit_setJobLimit l ls p :
  getLimit (setJobLimit l ls) p = if bool_decide (pool l = p) then limit l else getLimit ls p.
Proof.
  induction ls as [|c ls IH]; simpl; [done|].
  destruct (decide (pool c = pool l)) as [Hc|Hc].
  - rewrite (bool_decide_eq_true_2 _ Hc). rewrite Hc.
    destruct (Z.eqb_spec (limit c) (limit l)); simpl; repeat case_bool_decide; congruence.
  - rewrite (bool_decide_eq_false_2 _ Hc). simpl. rewrite IH. repeat case_bool_decide; congruence.
Qed.

Lemma pool_setJobLimit l ls q :
  q ∈ map pool (setJobLimit l ls) ↔ q = pool l ∨ q ∈ map pool ls.
Proof.
  induction ls as [|c ls IH]; simpl.
  - by rewrite elem_of_cons.
  - case_bool_decide as Hc; simpl; rewrite !elem_of_cons.
    + case_match; rewrite ?Hc; tauto.
    + rewrite IH. tauto.
Qed.

Lemma setJobLimit_valid l ls :
  valid_limit (limit l) → valid_limits ls → valid_limits (setJobLimit l ls).
Proof.
  intros Hl [Hn Hv]. unfold valid_limits. induction ls as [|c ls IH]; simpl in *.
  - split; [apply NoDup_singleton|by constructor].
  - apply NoDup_cons in Hn as [Hc Hn]. apply Forall_cons in Hv as [Hvc Hv].
    destruct (IH Hn Hv) as [IHn IHv]. case_bool_decide as E; simpl.
    + rewrite NoDup_cons, Forall_cons. case_match; rewrite <-?E; done.
    + rewrite NoDup_cons, Forall_cons, pool_setJobLimit. naive_solver.
Qed.

(** One round of the loop of [update]. *)
Lemma update_step l self :
  valid_limit (limit l) → valid_limits self →
  let self' := if negb (limit l =? -1)%Z then setJobLimit l self else self in
  valid_limits self' ∧
  ∀ p, getLimit self' p = if bool_decide (pool l = p) && negb (limit l =? -1)%Z
                          then limit l else getLimit self p.
Proof.
  intros Hl Hs. simpl. destruct (negb _) eqn:E.
  - split; [by apply setJobLimit_valid|]. intros p. by rewrite getLimit_setJobLimit, andb_true_r.
  - split; [done|]. intros p. by rewrite andb_false_r.
Qed.

(** Updating limits by others keeps one limit for each pool, missing or
    positive; a pool gets the limit of the others where they have one and keeps its
    own elsewhere. *)
Theorem update_correct self other :
  valid_limits self → valid_limits other →
  valid_limits (update self other) ∧
  ∀ p, getLimit (update self other) p =
    if hasLimit other p then getLimit other p else getLimit self p.
Proof.
  intros Hs [Hn Hv]. unfold update, isEmpty. destruct (is_nil self) eqn:Hnil.
  { destruct self; [|done]. split; [done|]. intros p. unfold hasLimit.
    by destruct (Z.eqb_spec (getLimit other p) (-1)). }
  clear Hnil. revert self Hs.
  induction other as [|l other IH]; intros self Hs; simpl.
  { split; [done|]. by intros p. }
  apply NoDup_cons in Hn as [Hl Hn]. apply Forall_cons in Hv as [Hvl Hv].
  destruct (update_step l self Hvl Hs) as [Hs' Hp]. destruct (IH Hn Hv _ Hs') as [IH1 IH2].
  split; [done|]. intros p. rewrite IH2, Hp. unfold hasLimit. simpl.
  destruct (decide (pool l = p)) as [<-|Hne].
  - rewrite (getLimit_absent _ _ Hl), bool_decide_eq_true_2 by done. simpl.
    by destruct (Z.eqb_spec (limit l) (-1)).
  - by rewrite bool_decide_eq_false_2.
Qed.

(** A limit of four linkers and no limit for compilers, overridden for the
    compilers only. *)
Definition exampleLimits : JobLimits := [mkJobLimit "linker" 4; mkJobLimit "cc" 0].
Definition exampleOverride : JobLimits := [mkJobLimit "linker" (-7); mkJobLimit "cc" 2].

Lemma valid_limits_pair (p q : str) m n :
  p ≠ q → valid_limits [mkJobLimit p m; mkJobLimit q n].
Proof.
  intros Hpq. split; simpl.
  - apply NoDup_cons. rewrite list_elem_of_singleton. split; [done|apply NoDup_singleton].
  - rewrite !Forall_cons. split_and!; [apply transformLimit_valid..|done].
Qed.

Lemma update_correct_witness :
  getLimit (update exampleLimits exampleOverride) "linker" = 4%Z ∧
  getLimit (update exampleLimits exampleOverride) "cc" = 2%Z.
Proof.
  destruct (update_correct exampleLimits exampleOverride) as [_ H];
    [by apply valid_limits_pair..|]. rewrite !H. split; reflexivity.
Defined.
