(* ===== verification/StateMonad.v ===== *)
(** * Functions that change an object and may throw

    A member function of an object with state [S]: it returns or throws, and
    leaves the object in a new state in both cases, as in C++, where an exception
    does not undo what was done before it. *)

From S2P Require Import Prelude.

Definition st (S E A : Type) : Type := S → exn E A * S.

#[export] Instance st_ret {S E} : MRet (st S E) := λ A a s, (Ok a, s).
#[export] Instance st_bind {S E} : MBind (st S E) := λ A B f m s,
  match m s with
  | (Ok a, s') => f a s'
  | (Throw e, s') => (Throw e, s')
  end.

Lemma bind_Ok {S E A B} (m : st S E A) (k : A → st S E B) s b s' :
  (m ≫= k) s = (Ok b, s') ↔ ∃ a s1, m s = (Ok a, s1) ∧ k a s1 = (Ok b, s').
Proof.
  unfold mbind, st_bind. destruct (m s) as [[a|e] s1]; [|naive_solver].
  split; [eauto|]. by intros (a' & s1' & [= <- <-] & H).
Qed.

Lemma bind_run {S E A B} (m : st S E A) (k : A → st S E B) s a s1 :
  m s = (Ok a, s1) → (m ≫= k) s = k a s1.
Proof. unfold mbind, st_bind. by intros ->. Qed.

Lemma bind_stop {S E A B} (m : st S E A) (k : A → st S E B) s e s1 :
  m s = (Throw e, s1) → (m ≫= k) s = (Throw e, s1).
Proof. unfold mbind, st_bind. by intros ->. Qed.

Definition throw {S E A} (e : E) : st S E A := λ s, (Throw e, s).
Definition gets {S E A} (f : S → A) : st S E A := λ s, (Ok (f s), s).
Definition modify {S E} (f : S → S) : st S E unit := λ s, (Ok tt, f s).
Definition lift {S E A} (m : exn E A) : st S E A := λ s, (m, s).

Lemma bind_ret {S E A B} (a : A) (k : A → st S E B) s : (mret a ≫= k) s = k a s.
Proof. done. Qed.
Lemma bind_gets {S E A B} (f : S → A) (k : A → st S E B) s : (gets f ≫= k) s = k (f s) s.
Proof. done. Qed.
Lemma bind_modify {S E B} f (k : unit → st S E B) s : (modify f ≫= k) s = k tt (f s).
Proof. done. Qed.

Definition catch {S E A} (m : st S E A) (handler : E → st S E A) : st S E A := λ s,
  match m s with
  | (Ok a, s') => (Ok a, s')
  | (Throw e, s') => handler e s'
  end.

Definition when {S E} (b : bool) (m : st S E unit) : st S E unit :=
  if b then m else mret tt.

(** A loop with a value that is carried from one round to the next. *)
Fixpoint foldM {S E A B} (f : B → A → st S E B) (l : list A) (b : B) : st S E B :=
  match l with
  | [] => mret b
  | x :: l' => b ← f b x; foldM f l' b
  end.

Definition forM {S E A} (l : list A) (f : A → st S E unit) : st S E unit :=
  foldM (λ _ x, f x) l tt.

(** ** What a function does to the state

    [moves R m]: however [m] ends, the state before and the state after it are
    related by [R].  For an invariant [P], [R] is [λ s s', P s → P s']. *)

Definition preserves {S} (P : S → Prop) : relation S := λ s s', P s → P s'.

#[export] Instance preserves_preorder {S} (P : S → Prop) : PreOrder (preserves P).
Proof. split; [intros s H; exact H|]. intros s1 s2 s3 H1 H2 H. by apply H2, H1. Qed.

Section Moves.
Context {S E : Type} (R : relation S) `{!PreOrder R}.

Definition moves {A} (m : st S E A) : Prop := ∀ s, R s (m s).2.

Lemma moves_result {A} (m : st S E A) s r s' : moves m → m s = (r, s') → R s s'.
Proof. intros Hm H. specialize (Hm s). by rewrite H in Hm. Qed.

Lemma moves_ret {A} (a : A) : moves (mret a).
Proof. intros s. reflexivity. Qed.

Lemma moves_throw {A} e : moves (throw (A := A) e).
Proof. intros s. reflexivity. Qed.

Lemma moves_gets {A} (f : S → A) : moves (gets f).
Proof. intros s. reflexivity. Qed.

Lemma moves_lift {A} (m : exn E A) : moves (lift m).
Proof. intros s. reflexivity. Qed.

Lemma moves_modify f : (∀ s, R s (f s)) → moves (modify f).
Proof. intros Hf s. apply Hf. Qed.

Lemma moves_bind {A B} (m : st S E A) (k : A → st S E B) :
  moves m → (∀ a, moves (k a)) → moves (m ≫= k).
Proof.
  intros Hm Hk s. specialize (Hm s). unfold mbind, st_bind.
  destruct (m s) as [[a|e] s']; simpl in *; [|done]. etrans; [exact Hm|apply Hk].
Qed.

Lemma moves_when b m : (b = true → moves m) → moves (when b m).
Proof. intros Hm. destruct b; [by apply Hm|apply moves_ret]. Qed.

Lemma moves_catch {A} (m : st S E A) handler :
  moves m → (∀ e, moves (handler e)) → moves (catch m handler).
Proof.
  intros Hm Hh s. specialize (Hm s). unfold catch. destruct (m s) as [[a|e] s']; simpl in *;
    [done|]. etrans; [exact Hm|apply Hh].
Qed.

Lemma moves_foldM {A B} (f : B → A → st S E B) l b :
  (∀ b x, x ∈ l → moves (f b x)) → moves (foldM f l b).
Proof.
  revert b. induction l as [|x l IH]; intros b Hf; simpl; [apply moves_ret|].
  apply moves_bind; [apply Hf; left|]. intros b'. apply IH. intros b'' y Hy. apply Hf. by right.
Qed.

Lemma moves_forM {A} (l : list A) f : (∀ x, x ∈ l → moves (f x)) → moves (forM l f).
Proof. intros Hf. apply moves_foldM. intros _ x. apply Hf. Qed.
End Moves.

(** ** Hoare triples

    [triple P m Q T]: from a state with [P], [m] returns a value [a] in a state
    with [Q a], or throws in a state with [T]. *)

Definition triple {S E A} (P : S → Prop) (m : st S E A) (Q : A → S → Prop) (T : E → S → Prop) :
    Prop :=
  ∀ s, P s → match m s with (Ok a, s') => Q a s' | (Throw e, s') => T e s' end.

Section Triples.
Context {S E : Type}.
Implicit Types P : S → Prop.
Implicit Types T : E → S → Prop.

Lemma triple_ret {A} P (a : A) (Q : A → S → Prop) T : (∀ s, P s → Q a s) → triple P (mret a) Q T.
Proof. intros H s Hs. by apply H. Qed.

Lemma triple_throw {A} P e (Q : A → S → Prop) T : (∀ s, P s → T e s) → triple P (throw e) Q T.
Proof. intros H s Hs. by apply H. Qed.

Lemma triple_gets {A} P (f : S → A) (Q : A → S → Prop) T :
  (∀ s, P s → Q (f s) s) → triple P (gets f) Q T.
Proof. intros H s Hs. by apply H. Qed.

Lemma triple_modify P f (Q : unit → S → Prop) T :
  (∀ s, P s → Q tt (f s)) → triple P (modify f) Q T.
Proof. intros H s Hs. by apply H. Qed.

Lemma triple_bind {A B} P (m : st S E A) (k : A → st S E B) R (Q : B → S → Prop) T :
  triple P m R T → (∀ a, triple (R a) (k a) Q T) → triple P (m ≫= k) Q T.
Proof.
  intros Hm Hk s Hs. specialize (Hm s Hs). unfold mbind, st_bind.
  destruct (m s) as [[a|e] s']; [by apply Hk|done].
Qed.

Lemma triple_conseq {A} P P' (m : st S E A) Q Q' T T' :
  triple P' m Q' T' → (∀ s, P s → P' s) → (∀ a s, Q' a s → Q a s) → (∀ e s, T' e s → T e s) →
  triple P m Q T.
Proof.
  intros Hm HP HQ HT s Hs. specialize (Hm s (HP s Hs)).
  destruct (m s) as [[a|e] s']; auto.
Qed.

(** A loop invariant over the elements that are left. *)
Lemma triple_foldM {A B} (I : list A → B → S → Prop) (f : B → A → st S E B) l b T :
  (∀ x l' b, x ∈ l → triple (I (x :: l') b) (f b x) (I l') T) →
  triple (I l b) (foldM f l b) (I []) T.
Proof.
  revert b. induction l as [|x l IH]; intros b Hf; simpl; [by apply triple_ret|].
  eapply triple_bind; [apply Hf; left|]. intros b'. apply IH. intros y l' b'' Hy. apply Hf.
  by right.
Qed.
End Triples.

Create HintDb moves.
#[export] Hint Resolve moves_ret moves_throw moves_gets moves_lift : moves.

(** ** Loops that stop early *)

Section Search.
Context {S E A : Type} (f : A → st S E bool).

Fixpoint anyM (l : list A) : st S E bool :=
  match l with
  | [] => mret false
  | x :: l' => b ← f x; if b : bool then mret true else anyM l'
  end.

Fixpoint allM (l : list A) : st S E bool :=
  match l with
  | [] => mret true
  | x :: l' => b ← f x; if b : bool then allM l' else mret false
  end.
End Search.

Lemma moves_anyM {S E A} (R : relation S) `{!PreOrder R} (f : A → st S E bool) l :
  (∀ x, x ∈ l → moves R (f x)) → moves R (anyM f l).
Proof.
  induction l as [|x l IH]; intros Hf; simpl; [by apply moves_ret|].
  apply moves_bind; [done|apply Hf; left|]. intros [|]; [by apply moves_ret|].
  apply IH. intros y Hy. apply Hf. by right.
Qed.

Lemma moves_allM {S E A} (R : relation S) `{!PreOrder R} (f : A → st S E bool) l :
  (∀ x, x ∈ l → moves R (f x)) → moves R (allM f l).
Proof.
  induction l as [|x l IH]; intros Hf; simpl; [by apply moves_ret|].
  apply moves_bind; [done|apply Hf; left|]. intros [|]; [|by apply moves_ret].
  apply IH. intros y Hy. apply Hf. by right.
Qed.

(** Takes a function apart down to its changes of the state; a function that has a
    hint is not unfolded. *)
Ltac moves_step :=
  first
    [ progress intros
    | solve [eauto with moves typeclass_instances]
    | apply moves_bind; [apply _| |]
    | apply moves_when; [apply _|]
    | apply moves_forM; [apply _|]
    | apply moves_foldM; [apply _|]
    | apply moves_anyM; [apply _|]
    | apply moves_allM; [apply _|]
    | apply moves_catch; [apply _| |]
    | match goal with |- moves _ (match ?x with _ => _ end) => destruct x eqn:? end ].
Ltac moves := repeat moves_step.

(** ** What a function throws *)

Section Throws.
Context {S E : Type} (P : E → Prop).

Definition throws_only {A} (m : st S E A) : Prop :=
  ∀ s, match (m s).1 with Throw e => P e | Ok _ => True end.

Lemma throws_ret {A} (a : A) : throws_only (mret a).
Proof. done. Qed.

Lemma throws_throw {A} e : P e → throws_only (throw (A := A) e).
Proof. intros He s. exact He. Qed.

Lemma throws_gets {A} (f : S → A) : throws_only (gets f).
Proof. done. Qed.

Lemma throws_modify f : throws_only (modify f).
Proof. done. Qed.

Lemma throws_bind {A B} (m : st S E A) (k : A → st S E B) :
  throws_only m → (∀ a, throws_only (k a)) → throws_only (m ≫= k).
Proof.
  intros Hm Hk s. specialize (Hm s). unfold mbind, st_bind.
  destruct (m s) as [[a|e] s']; simpl in *; [apply Hk|done].
Qed.

Lemma throws_when b m : throws_only m → throws_only (when b m).
Proof. intros Hm. destruct b; [exact Hm|apply throws_ret]. Qed.

Lemma throws_foldM {A B} (f : B → A → st S E B) l b :
  (∀ b x, throws_only (f b x)) → throws_only (foldM f l b).
Proof.
  intros Hf. revert b. induction l as [|x l IH]; intros b; simpl; [apply throws_ret|].
  apply throws_bind; [apply Hf|]. intros b'. apply IH.
Qed.

Lemma throws_forM {A} (l : list A) f : (∀ x, throws_only (f x)) → throws_only (forM l f).
Proof. intros Hf. apply throws_foldM. intros _ x. apply Hf. Qed.

Lemma throws_anyM {A} (f : A → st S E bool) l : (∀ x, throws_only (f x)) → throws_only (anyM f l).
Proof.
  intros Hf. induction l as [|x l IH]; simpl; [apply throws_ret|].
  apply throws_bind; [apply Hf|]. by intros [|].
Qed.

Lemma throws_allM {A} (f : A → st S E bool) l : (∀ x, throws_only (f x)) → throws_only (allM f l).
Proof.
  intros Hf. induction l as [|x l IH]; simpl; [apply throws_ret|].
  apply throws_bind; [apply Hf|]. by intros [|].
Qed.
End Throws.

Create HintDb throws.

Ltac throws :=
  repeat first
    [ progress intros
    | solve [eauto with throws]
    | apply throws_ret | apply throws_gets | apply throws_modify
    | apply throws_throw; done
    | apply throws_bind
    | apply throws_when
    | apply throws_forM
    | apply throws_foldM
    | apply throws_anyM
    | apply throws_allM
    | match goal with |- throws_only _ (match ?x with _ => _ end) => destruct x eqn:? end ].
