(* ===== verification/ExecutorJob.v ===== *)
(** * Executor jobs ([buildgraph/executorjob.cpp])

    A job runs the commands of one transformer after the other.  A command is
    started here and ends later, with [onCommandFinished]; the signal [finished] of
    the job is an output of the functions. *)

From S2P Require Import Prelude FlatSet.

(** What a job needs of a transformer: its address, and of each of its commands the
    job pool, which is empty when it has none. *)
Record JobTransformer := mkJobTransformer {
  jt_transformer : nat;
  jt_commands : list str
}.

(** [Transformer::jobPools] *)
Definition jobPools (commands : list str) : list str :=
  foldl (λ pools c, if is_nil c then pools else (set_insert str_ltb pools c).1) [] commands.

(** [m_running] stands for [m_currentCommandExecutor], [m_error] says whether the
    error is set. *)
Record ExecutorJob := mkExecutorJob {
  m_running : bool;
  m_transformer : option JobTransformer;
  m_jobPools : list str;
  m_currentCommandIdx : Z;
  m_error : bool
}.

(** A new job, and [reset]. *)
Definition resetJob : ExecutorJob := mkExecutorJob false None [] (-1) false.

(** The result of the functions: the signal [finished], with [true] for an error,
    and the job. *)
Abbreviation JobResult := (option bool * ExecutorJob)%type.

Definition setFinished (job : ExecutorJob) : JobResult := (Some (m_error job), resetJob).

(** The job is not touched when it has no transformer. *)
Definition runNextCommand (job : ExecutorJob) : JobResult :=
  match m_transformer job with
  | None => (None, job)
  | Some t =>
      if negb (m_currentCommandIdx job <=? Z.of_nat (length (jt_commands t)))%Z then (None, job)
      else
        let i := (m_currentCommandIdx job + 1)%Z in
        let job := mkExecutorJob (m_running job) (m_transformer job) (m_jobPools job) i
                     (m_error job) in
        if (Z.of_nat (length (jt_commands t)) <=? i)%Z then setFinished job
        else (None, mkExecutorJob true (m_transformer job) (m_jobPools job) i (m_error job))
  end.

Definition run (t : JobTransformer) (job : ExecutorJob) : JobResult :=
  if negb (m_currentCommandIdx job =? -1)%Z then (None, job)
  else if is_nil (jt_commands t) then setFinished job
  else
    runNextCommand (mkExecutorJob (m_running job) (Some t) (jobPools (jt_commands t))
                      (m_currentCommandIdx job) (m_error job)).

(** The command executor is told to stop, and ends like any other command. *)
Definition cancel (job : ExecutorJob) : ExecutorJob :=
  if negb (m_running job) then job
  else mkExecutorJob (m_running job) (m_transformer job) (m_jobPools job) (m_currentCommandIdx job)
         true.

(** [err] says whether the command has failed. *)
Definition onCommandFinished (err : bool) (job : ExecutorJob) : JobResult :=
  match m_transformer job with
  | None => (None, job)
  | Some _ =>
      if m_error job then setFinished job
      else if err then
        setFinished (mkExecutorJob (m_running job) (m_transformer job) (m_jobPools job)
                       (m_currentCommandIdx job) true)
      else runNextCommand job
  end.

(** ** Correctness *)

(** The job runs the command [i] of [t]; [canceled] says whether it has been told
    to stop. *)
Definition runsCommand (t : JobTransformer) (i : nat) (canceled : bool) (job : ExecutorJob) : Prop :=
  i < length (jt_commands t) ∧
  job = mkExecutorJob true (Some t) (jobPools (jt_commands t)) (Z.of_nat i) canceled.

Lemma runNextCommand_step t pools i running e :
  (-1 ≤ i < Z.of_nat (length (jt_commands t)))%Z →
  runNextCommand (mkExecutorJob running (Some t) pools i e) =
    if (i + 1 =? Z.of_nat (length (jt_commands t)))%Z then (Some e, resetJob)
    else (None, mkExecutorJob true (Some t) pools (i + 1) e).
Proof.
  intros Hi. unfold runNextCommand. simpl.
  rewrite (proj2 (Z.leb_le _ _)) by lia. simpl.
  destruct (Z.eqb_spec (i + 1) (Z.of_nat (length (jt_commands t)))) as [->|Hne].
  - by rewrite Z.leb_refl.
  - by rewrite (proj2 (Z.leb_gt _ _)) by lia.
Qed.

(** The events of a job that runs: a command ends, with or without an error, or
    the job is canceled. *)
Inductive JobEvent := CommandFinished (err : bool) | Cancel.

Definition jobEvent (ev : JobEvent) (job : ExecutorJob) : JobResult :=
  match ev with
  | CommandFinished err => onCommandFinished err job
  | Cancel => (None, cancel job)
  end.

(** The signals of a run of [t] with a sequence of events, each with the number of
    events before it. *)
Fixpoint signals (n : nat) (evs : list JobEvent) (job : ExecutorJob) : list (nat * bool) :=
  match evs with
  | [] => []
  | ev :: evs' =>
      let '(s, job) := jobEvent ev job in
      match s with
      | Some e => (n, e) :: signals (S n) evs' job
      | None => signals (S n) evs' job
      end
  end.

(** What the events mean for a job that runs the command [i] of [k]: the number of
    the event that ends it, and whether it ends with an error. *)
Fixpoint outcome (n k i : nat) (canceled : bool) (evs : list JobEvent) : option (nat * bool) :=
  match evs with
  | [] => None
  | Cancel :: evs' => outcome (S n) k i true evs'
  | CommandFinished err :: evs' =>
      if canceled || err then Some (n, true)
      else if S i =? k then Some (n, false)
      else outcome (S n) k (S i) false evs'
  end.

Lemma jobEvent_idle ev : jobEvent ev resetJob = (None, resetJob).
Proof. by destruct ev. Qed.

Lemma signals_idle n evs : signals n evs resetJob = [].
Proof.
  revert n. induction evs as [|ev evs IH]; intros n; cbn [signals]; [done|].
  by rewrite jobEvent_idle, IH.
Qed.

Lemma signals_runs t i canceled n evs job :
  runsCommand t i canceled job →
  signals n evs job = option_list (outcome n (length (jt_commands t)) i canceled evs).
Proof.
  revert n i canceled job. induction evs as [|ev evs IH]; intros n i canceled job [Hi ->];
    cbn [signals outcome]; [done|].
  destruct ev as [err|]; cbn [jobEvent].
  - unfold onCommandFinished. cbn [m_transformer m_error]. destruct canceled; cbn [orb].
    { cbn. by rewrite signals_idle. }
    destruct err; [cbn; by rewrite signals_idle|].
    rewrite runNextCommand_step by lia. destruct (Nat.eqb_spec (S i) (length (jt_commands t))) as [E|E].
    + rewrite (proj2 (Z.eqb_eq _ _)) by lia. cbn. by rewrite signals_idle.
    + rewrite (proj2 (Z.eqb_neq _ _)) by lia. apply IH. split; [lia|]. f_equal. lia.
  - cbn. apply IH. by split.
Qed.

(** C30: a job that is started on an idle job's state runs the commands of the
    transformer in their order, one at a time, up to the first that fails or to the
    end of the one that runs when the job is canceled; it emits [finished] at most
    once, exactly when the last command that runs has ended, with an error exactly
    when one failed or the job was canceled, and can then be run again. *)
Theorem run_correct t evs :
  jt_commands t ≠ [] →
  (run t resetJob).1 = None ∧ runsCommand t 0 false (run t resetJob).2 ∧
  signals 0 evs (run t resetJob).2 =
    option_list (outcome 0 (length (jt_commands t)) 0 false evs).
Proof.
  intros Ht. assert (0 < length (jt_commands t)) as Hl by (destruct (jt_commands t); simpl; [done|lia]).
  unfold run. cbn [resetJob m_currentCommandIdx m_running m_error]. rewrite (proj2 (is_nil_false _) Ht).
  cbn [negb Z.eqb]. rewrite runNextCommand_step by lia.
  rewrite (proj2 (Z.eqb_neq _ _)) by lia. simpl fst. split; [done|].
  assert (runsCommand t 0 false (mkExecutorJob true (Some t) (jobPools (jt_commands t)) 0 false))
    as Hr by by split.
  split; [exact Hr|]. by apply signals_runs.
Qed.

(** Two commands in the pool "cc", the second of which fails. *)
Lemma run_correct_witness :
  signals 0 [CommandFinished false; CommandFinished true; CommandFinished false]
    (run (mkJobTransformer 7 [lit "cc"; lit "cc"; lit "ld"]) resetJob).2 = [(1, true)].
Proof.
  destruct (run_correct (mkJobTransformer 7 [lit "cc"; lit "cc"; lit "ld"])
    [CommandFinished false; CommandFinished true; CommandFinished false]) as (_ & _ & ->);
    [done|reflexivity].
Defined.
