(* ===== verification/ExecutorState.v ===== *)
(** * The state of the executor ([buildgraph/executor.h])

    The build states of the nodes, the queue of leaves, the jobs and the job counts,
    with the members of artifacts and transformers that only the executor uses, and
    access to each of them. *)

From S2P Require Import Prelude FlatSet BuildGraph RuleGraph JobLimits StateMonad ExecutorJob.

(** ** Data *)

Inductive BuildState := Untouched | Buildable | Building | Built.
Inductive ExecutorState := ExecutorIdle | ExecutorRunning | ExecutorCanceling.

#[export] Instance BuildState_eq_dec : EqDecision BuildState.
Proof. solve_decision. Defined.
#[export] Instance ExecutorState_eq_dec : EqDecision ExecutorState.
Proof. solve_decision. Defined.

(** The members of [Artifact] that only the executor uses. *)
Record ArtifactData := mkArtifactData {
  inputsScanned : bool;
  timestampRetrieved : bool;
  alwaysUpdated : bool;
  oldDataPossiblyPresent : bool
}.

Definition on_inputsScanned (f : bool → bool) (a : ArtifactData) : ArtifactData :=
    mkArtifactData (f (inputsScanned a)) (timestampRetrieved a) (alwaysUpdated a)
    (oldDataPossiblyPresent a).
Definition on_timestampRetrieved (f : bool → bool) (a : ArtifactData) : ArtifactData :=
    mkArtifactData (inputsScanned a) (f (timestampRetrieved a)) (alwaysUpdated a)
    (oldDataPossiblyPresent a).
Definition on_oldDataPossiblyPresent (f : bool → bool) (a : ArtifactData) : ArtifactData :=
    mkArtifactData (inputsScanned a) (timestampRetrieved a) (alwaysUpdated a) (f
    (oldDataPossiblyPresent a)).

(** The members of [Transformer] that only the executor uses. *)
Record TransformerData := mkTransformerData {
  alwaysRun : bool;
  markedForRerun : bool;
  commands : list str;   (* the job pool of each *)
  commandsId : nat   (* the value of the list of commands, only compared *)
}.

Definition on_markedForRerun (f : bool → bool) (t : TransformerData) : TransformerData :=
    mkTransformerData (alwaysRun t) (f (markedForRerun t)) (commands t) (commandsId t).

Record ChildData := mkChildData {
  childProduct : str;   (* the unique name of the product *)
  childFilePath : str;
  addedByScanner : bool
}.

Record RescuableArtifactData := mkRescuableArtifactData {
  rad_timeStamp : Z;
  rad_children : list ChildData;
  rad_fileDependencies : list str;
  rad_commandsId : nat;
  rad_knownOutOfDate : bool;
  rad_artifactsMapRequestedInPrepareScript : RequestedArtifacts;
  rad_artifactsMapRequestedInCommands : RequestedArtifacts
}.

(** What the executor asks of the file system. *)
Record FileSystem := mkFileSystem {
  recursiveFileTime : str → Z;
  lastModified : str → Z;
  fileExists : str → bool;
  mkpath : str → bool;        (* of the directory of a file *)
  currentTime : Z
}.

Record BuildOptions := mkBuildOptions {
  maxJobCount : Z;
  keepGoing : bool;
  forceTimestampCheck : bool;
  forceOutputCheck : bool;
  dryRun : bool;
  executeRulesOnly : bool;
  filesToConsider : list str;
  changedFiles : list str;
  m_activeFileTags : FileTags;
  optionsJobLimits : JobLimits;
  projectJobLimitsTakePrecedence : bool
}.

(** The build graph with these members. *)
Record Graph := mkGraph {
  heap : Heap;
  artifactData : gmap nat ArtifactData;
  transformerData : gmap nat TransformerData;
  dependencyTimes : gmap nat Z;   (* of the [FileDependency] objects *)
  rescuable : gmap (nat * str) RescuableArtifactData   (* by product and file path *)
}.

Definition on_heap (f : Heap → Heap) (g : Graph) : Graph :=
    mkGraph (f (heap g)) (artifactData g) (transformerData g) (dependencyTimes g) (rescuable g).
Definition on_artifactData (f : gmap nat ArtifactData → gmap nat ArtifactData) (g : Graph) : Graph :=
    mkGraph (heap g) (f (artifactData g)) (transformerData g) (dependencyTimes g) (rescuable g).
Definition on_transformerData (f : gmap nat TransformerData → gmap nat TransformerData) (g : Graph) : Graph :=
    mkGraph (heap g) (artifactData g) (f (transformerData g)) (dependencyTimes g) (rescuable g).
Definition on_dependencyTimes (f : gmap nat Z → gmap nat Z) (g : Graph) : Graph :=
    mkGraph (heap g) (artifactData g) (transformerData g) (f (dependencyTimes g)) (rescuable g).
Definition on_rescuable (f : gmap (nat * str) RescuableArtifactData → gmap (nat * str) RescuableArtifactData) (g : Graph) : Graph :=
    mkGraph (heap g) (artifactData g) (transformerData g) (dependencyTimes g) (f (rescuable g)).

Record Executor := mkExecutor {
  graph : Graph;
  fs : FileSystem;
  buildStates : gmap nat BuildState;
  buildPriorities : gmap nat Z;   (* by product *)
  m_leaves : list nat;
  executorRoots : NodeSet;
  m_availableJobs : list nat;
  m_processingJobs : gmap nat nat;   (* the transformer of each job *)
  jobs : gmap nat ExecutorJob;
  finishedSignals : list (nat * bool);   (* queued, with [true] for an error *)
  m_jobCountPerPool : gmap str Z;
  m_jobLimitsPerProduct : gmap nat JobLimits;
  m_tagsOfFilesToConsider : FileTags;
  m_tagsNeededForFilesToConsider : FileTags;
  m_productsOfFilesToConsider : list nat;
  m_state : ExecutorState;
  m_errors : list BGError;   (* the items of [m_error] *)
  finishPosted : bool   (* [finish] is posted to the event loop *)
}.

Definition on_graph (f : Graph → Graph) (e : Executor) : Executor :=
    mkExecutor (f (graph e)) (fs e) (buildStates e) (buildPriorities e) (m_leaves e) (executorRoots
    e) (m_availableJobs e) (m_processingJobs e) (jobs e) (finishedSignals e) (m_jobCountPerPool
    e) (m_jobLimitsPerProduct e) (m_tagsOfFilesToConsider e) (m_tagsNeededForFilesToConsider e)
    (m_productsOfFilesToConsider e) (m_state e) (m_errors e) (finishPosted e).
Definition on_fs (f : FileSystem → FileSystem) (e : Executor) : Executor :=
    mkExecutor (graph e) (f (fs e)) (buildStates e) (buildPriorities e) (m_leaves e) (executorRoots
    e) (m_availableJobs e) (m_processingJobs e) (jobs e) (finishedSignals e) (m_jobCountPerPool
    e) (m_jobLimitsPerProduct e) (m_tagsOfFilesToConsider e) (m_tagsNeededForFilesToConsider e)
    (m_productsOfFilesToConsider e) (m_state e) (m_errors e) (finishPosted e).
Definition on_buildStates (f : gmap nat BuildState → gmap nat BuildState) (e : Executor) : Executor :=
    mkExecutor (graph e) (fs e) (f (buildStates e)) (buildPriorities e) (m_leaves e) (executorRoots
    e) (m_availableJobs e) (m_processingJobs e) (jobs e) (finishedSignals e) (m_jobCountPerPool
    e) (m_jobLimitsPerProduct e) (m_tagsOfFilesToConsider e) (m_tagsNeededForFilesToConsider e)
    (m_productsOfFilesToConsider e) (m_state e) (m_errors e) (finishPosted e).
Definition on_buildPriorities (f : gmap nat Z → gmap nat Z) (e : Executor) : Executor :=
    mkExecutor (graph e) (fs e) (buildStates e) (f (buildPriorities e)) (m_leaves e) (executorRoots
    e) (m_availableJobs e) (m_processingJobs e) (jobs e) (finishedSignals e) (m_jobCountPerPool
    e) (m_jobLimitsPerProduct e) (m_tagsOfFilesToConsider e) (m_tagsNeededForFilesToConsider e)
    (m_productsOfFilesToConsider e) (m_state e) (m_errors e) (finishPosted e).
Definition on_m_leaves (f : list nat → list nat) (e : Executor) : Executor :=
    mkExecutor (graph e) (fs e) (buildStates e) (buildPriorities e) (f (m_leaves e)) (executorRoots
    e) (m_availableJobs e) (m_processingJobs e) (jobs e) (finishedSignals e) (m_jobCountPerPool
    e) (m_jobLimitsPerProduct e) (m_tagsOfFilesToConsider e) (m_tagsNeededForFilesToConsider e)
    (m_productsOfFilesToConsider e) (m_state e) (m_errors e) (finishPosted e).
Definition on_executorRoots (f : NodeSet → NodeSet) (e : Executor) : Executor :=
    mkExecutor (graph e) (fs e) (buildStates e) (buildPriorities e) (m_leaves e) (f (executorRoots
    e)) (m_availableJobs e) (m_processingJobs e) (jobs e) (finishedSignals e) (m_jobCountPerPool
    e) (m_jobLimitsPerProduct e) (m_tagsOfFilesToConsider e) (m_tagsNeededForFilesToConsider e)
    (m_productsOfFilesToConsider e) (m_state e) (m_errors e) (finishPosted e).
Definition on_m_availableJobs (f : list nat → list nat) (e : Executor) : Executor :=
    mkExecutor (graph e) (fs e) (buildStates e) (buildPriorities e) (m_leaves e) (executorRoots e) (f
    (m_availableJobs e)) (m_processingJobs e) (jobs e) (finishedSignals e) (m_jobCountPerPool e)
    (m_jobLimitsPerProduct e) (m_tagsOfFilesToConsider e) (m_tagsNeededForFilesToConsider e)
    (m_productsOfFilesToConsider e) (m_state e) (m_errors e) (finishPosted e).
Definition on_m_processingJobs (f : gmap nat nat → gmap nat nat) (e : Executor) : Executor :=
    mkExecutor (graph e) (fs e) (buildStates e) (buildPriorities e) (m_leaves e) (executorRoots e)
    (m_availableJobs e) (f (m_processingJobs e)) (jobs e) (finishedSignals e) (m_jobCountPerPool
    e) (m_jobLimitsPerProduct e) (m_tagsOfFilesToConsider e) (m_tagsNeededForFilesToConsider e)
    (m_productsOfFilesToConsider e) (m_state e) (m_errors e) (finishPosted e).
Definition on_jobs (f : gmap nat ExecutorJob → gmap nat ExecutorJob) (e : Executor) : Executor :=
    mkExecutor (graph e) (fs e) (buildStates e) (buildPriorities e) (m_leaves e) (executorRoots e)
    (m_availableJobs e) (m_processingJobs e) (f (jobs e)) (finishedSignals e) (m_jobCountPerPool
    e) (m_jobLimitsPerProduct e) (m_tagsOfFilesToConsider e) (m_tagsNeededForFilesToConsider e)
    (m_productsOfFilesToConsider e) (m_state e) (m_errors e) (finishPosted e).
Definition on_finishedSignals (f : list (nat * bool) → list (nat * bool)) (e : Executor) : Executor :=
    mkExecutor (graph e) (fs e) (buildStates e) (buildPriorities e) (m_leaves e) (executorRoots e)
    (m_availableJobs e) (m_processingJobs e) (jobs e) (f (finishedSignals e)) (m_jobCountPerPool
    e) (m_jobLimitsPerProduct e) (m_tagsOfFilesToConsider e) (m_tagsNeededForFilesToConsider e)
    (m_productsOfFilesToConsider e) (m_state e) (m_errors e) (finishPosted e).
Definition on_m_jobCountPerPool (f : gmap str Z → gmap str Z) (e : Executor) : Executor :=
    mkExecutor (graph e) (fs e) (buildStates e) (buildPriorities e) (m_leaves e) (executorRoots e)
    (m_availableJobs e) (m_processingJobs e) (jobs e) (finishedSignals e) (f (m_jobCountPerPool
    e)) (m_jobLimitsPerProduct e) (m_tagsOfFilesToConsider e) (m_tagsNeededForFilesToConsider e)
    (m_productsOfFilesToConsider e) (m_state e) (m_errors e) (finishPosted e).
Definition on_m_jobLimitsPerProduct (f : gmap nat JobLimits → gmap nat JobLimits) (e : Executor) : Executor :=
    mkExecutor (graph e) (fs e) (buildStates e) (buildPriorities e) (m_leaves e) (executorRoots e)
    (m_availableJobs e) (m_processingJobs e) (jobs e) (finishedSignals e) (m_jobCountPerPool e)
    (f (m_jobLimitsPerProduct e)) (m_tagsOfFilesToConsider e) (m_tagsNeededForFilesToConsider e)
    (m_productsOfFilesToConsider e) (m_state e) (m_errors e) (finishPosted e).
Definition on_m_tagsOfFilesToConsider (f : FileTags → FileTags) (e : Executor) : Executor :=
    mkExecutor (graph e) (fs e) (buildStates e) (buildPriorities e) (m_leaves e) (executorRoots e)
    (m_availableJobs e) (m_processingJobs e) (jobs e) (finishedSignals e) (m_jobCountPerPool e)
    (m_jobLimitsPerProduct e) (f (m_tagsOfFilesToConsider e)) (m_tagsNeededForFilesToConsider e)
    (m_productsOfFilesToConsider e) (m_state e) (m_errors e) (finishPosted e).
Definition on_m_tagsNeededForFilesToConsider (f : FileTags → FileTags) (e : Executor) : Executor :=
    mkExecutor (graph e) (fs e) (buildStates e) (buildPriorities e) (m_leaves e) (executorRoots e)
    (m_availableJobs e) (m_processingJobs e) (jobs e) (finishedSignals e) (m_jobCountPerPool e)
    (m_jobLimitsPerProduct e) (m_tagsOfFilesToConsider e) (f (m_tagsNeededForFilesToConsider e))
    (m_productsOfFilesToConsider e) (m_state e) (m_errors e) (finishPosted e).
Definition on_m_productsOfFilesToConsider (f : list nat → list nat) (e : Executor) : Executor :=
    mkExecutor (graph e) (fs e) (buildStates e) (buildPriorities e) (m_leaves e) (executorRoots e)
    (m_availableJobs e) (m_processingJobs e) (jobs e) (finishedSignals e) (m_jobCountPerPool e)
    (m_jobLimitsPerProduct e) (m_tagsOfFilesToConsider e) (m_tagsNeededForFilesToConsider e) (f
    (m_productsOfFilesToConsider e)) (m_state e) (m_errors e) (finishPosted e).
Definition on_m_state (f : ExecutorState → ExecutorState) (e : Executor) : Executor :=
    mkExecutor (graph e) (fs e) (buildStates e) (buildPriorities e) (m_leaves e) (executorRoots e)
    (m_availableJobs e) (m_processingJobs e) (jobs e) (finishedSignals e) (m_jobCountPerPool e)
    (m_jobLimitsPerProduct e) (m_tagsOfFilesToConsider e) (m_tagsNeededForFilesToConsider e)
    (m_productsOfFilesToConsider e) (f (m_state e)) (m_errors e) (finishPosted e).
Definition on_m_errors (f : list BGError → list BGError) (e : Executor) : Executor :=
    mkExecutor (graph e) (fs e) (buildStates e) (buildPriorities e) (m_leaves e) (executorRoots e)
    (m_availableJobs e) (m_processingJobs e) (jobs e) (finishedSignals e) (m_jobCountPerPool e)
    (m_jobLimitsPerProduct e) (m_tagsOfFilesToConsider e) (m_tagsNeededForFilesToConsider e)
    (m_productsOfFilesToConsider e) (m_state e) (f (m_errors e)) (finishPosted e).
Definition on_finishPosted (f : bool → bool) (e : Executor) : Executor :=
    mkExecutor (graph e) (fs e) (buildStates e) (buildPriorities e) (m_leaves e) (executorRoots e)
    (m_availableJobs e) (m_processingJobs e) (jobs e) (finishedSignals e) (m_jobCountPerPool e)
    (m_jobLimitsPerProduct e) (m_tagsOfFilesToConsider e) (m_tagsNeededForFilesToConsider e)
    (m_productsOfFilesToConsider e) (m_state e) (m_errors e) (f (finishPosted e)).
(** A member function of the executor. *)
Abbreviation M := (st Executor BGError).

Definition check (b : bool) : M unit := lift (QBS_CHECK b).

(** ** Access to single members *)

Definition heapOf (e : Executor) : Heap := heap (graph e).

Definition buildState (e : Executor) (u : nat) : BuildState := default Untouched (buildStates e !! u).
Definition setBuildState (u : nat) (s : BuildState) : Executor → Executor :=
  on_buildStates (insert u s).

(** A new artifact. *)
Definition newArtifactData : ArtifactData := mkArtifactData false false false true.
Definition artifactDataOf (e : Executor) (a : nat) : ArtifactData :=
  default newArtifactData (artifactData (graph e) !! a).
Definition updArtifactData (a : nat) (f : ArtifactData → ArtifactData) : Executor → Executor :=
  on_graph (on_artifactData (partial_alter (λ d, Some (f (default newArtifactData d))) a)).

Definition newTransformerData : TransformerData := mkTransformerData false false [] 0.
Definition transformerDataOf (e : Executor) (t : nat) : TransformerData :=
  default newTransformerData (transformerData (graph e) !! t).
Definition updTransformerData (t : nat) (f : TransformerData → TransformerData) :
    Executor → Executor :=
  on_graph (on_transformerData (partial_alter (λ d, Some (f (default newTransformerData d))) t)).

Definition emptyTransformer : Transformer := mkTransformer [] [] [] 0 ∅ ∅.
Definition transformerOf (e : Executor) (t : nat) : Transformer :=
  default emptyTransformer (transformers (heapOf e) !! t).

(** [Transformer::product]: the product of the first output. *)
Definition transformerProduct (e : Executor) (t : nat) : option nat :=
  match transformer_outputs (transformerOf e t) with
  | [] => None
  | o :: _ => productOf (heapOf e) o
  end.

Definition transformerPools (e : Executor) (t : nat) : list str :=
  jobPools (commands (transformerDataOf e t)).

(** A file time is valid when it is not the null time. *)
Definition isValid (t : Z) : bool := negb (t =? 0)%Z.

Definition set_timestamp (t : Z) (a : Artifact) : Artifact :=
  mkArtifact (filePath a) t (artifactType a) (m_fileTags a) (childrenAddedByScanner a)
    (artifact_fileDependencies a) (transformer a) (targetOfModule a) (properties a).

Definition setTimestamp (a : nat) (t : Z) : Executor → Executor :=
  on_graph (on_heap (upd_node (upd_artifact (set_timestamp t)) a)).

Definition timeOf (e : Executor) (a : nat) : Z := timestamp (artifactOf (heapOf e) a).
Definition pathOf (e : Executor) (a : nat) : str := filePath (artifactOf (heapOf e) a).

Definition isSourceFile (e : Executor) (u : nat) : bool :=
  isArtifact (heapOf e) u && bool_decide (artifactType (artifactOf (heapOf e) u) = SourceFile).
