(* ===== verification/Executor.v ===== *)
(** * The executor ([buildgraph/executor.cpp])

    Every function of [Executor] that changes its state, and the events it reacts
    to.  The executor is the one of a build without progress observer, and nothing
    is installed.  Applying a rule, scanning a file for dependencies and the change
    tracking of commands run scripts and read files: they are the operations of the
    class [Scripts]. *)

From S2P Require Import Prelude FlatSet BuildGraph RuleGraph JobLimits.
From S2P Require Import StateMonad ExecutorJob ExecutorState.

(** ** The queue of leaves

    [std::priority_queue]: [top] is an element of maximal priority; which one of
    several is not said. *)
Class PriorityQueue := pq_top : (nat → Z) → list nat → nat.

Class PriorityQueueLaws (Q : PriorityQueue) : Prop := {
  pq_top_in prio l : l ≠ [] → pq_top prio l ∈ l;
  pq_top_max prio l x : x ∈ l → (prio x ≤ prio (pq_top prio l))%Z
}.

(** The queue that prefers the element pushed first. *)
Definition firstMax (prio : nat → Z) (l : list nat) : nat :=
  match l with
  | [] => 0
  | x :: l' => foldl (λ best y, if (prio best <? prio y)%Z then y else best) x l'
  end.

Lemma firstMax_spec (prio : nat → Z) (l : list nat) (best : nat) :
  foldl (λ best y, if (prio best <? prio y)%Z then y else best) best l ∈ best :: l ∧
  ∀ x, x ∈ best :: l →
    (prio x ≤ prio (foldl (λ best y, if (prio best <? prio y)%Z then y else best) best l))%Z.
Proof.
  revert best. induction l as [|y l IH]; intros best; simpl.
  { split; [left|]. by intros x ->%list_elem_of_singleton. }
  destruct (IH (if (prio best <? prio y)%Z then y else best)) as [Hin Hmax]. split.
  - revert Hin. rewrite !elem_of_cons. case_match; naive_solver.
  - intros x. rewrite !elem_of_cons. intros [->|[->|Hx]].
    + etrans; [|apply Hmax; left]. destruct (Z.ltb_spec (prio best) (prio y)); lia.
    + etrans; [|apply Hmax; left]. destruct (Z.ltb_spec (prio best) (prio y)); lia.
    + apply Hmax. by right.
Qed.

#[export] Instance firstMaxQueue : PriorityQueue := firstMax.
#[export] Instance firstMax_laws : PriorityQueueLaws firstMaxQueue.
Proof.
  split.
  - intros prio [|x l] Hl; [done|]. apply firstMax_spec.
  - intros prio [|y l] x Hx; [by apply elem_of_nil in Hx|]. by apply firstMax_spec.
Qed.

(** [ComparePriority] *)
Definition priority (e : Executor) (u : nat) : Z :=
  match productOf (heapOf e) u with
  | Some p => default 0%Z (buildPriorities e !! p)
  | None => 0
  end.

Definition pushLeaf (u : nat) : Executor → Executor := on_m_leaves (cons u).

(** ** What other components do

    [RuleNode::apply], with the created and the invalidated artifacts;
    [InputArtifactScanner::scanForFileDependencies] of an output and one of its
    inputs, which tells whether a dependency was added; [commandsNeedRerun]. *)
Class Scripts := {
  applyRuleNode : nat → Graph → exn BGError (Graph * (NodeSet * NodeSet));
  scanForFileDependencies : nat → nat → Graph → exn BGError (Graph * bool);
  commandsNeedRerun : nat → Graph → bool * Graph
}.

(** A function of another component, on the graph. *)
Definition onGraph {A} (f : Graph → exn BGError (Graph * A)) : M A := λ e,
  match f (graph e) with
  | Ok (g, a) => (Ok a, on_graph (λ _, g) e)
  | Throw x => (Throw x, e)
  end.

(** The arguments of a build: the options, the products, and the job limits of the
    settings and of the product. *)
Class Settings := mkSettings {
  options : BuildOptions;
  m_productsToBuild : list nat;
  m_allProducts : list nat;
  defaultMaxJobCount : Z;
  settingsJobLimits : nat → JobLimits;
  productJobLimits : nat → JobLimits
}.

(** [contains] on a list of strings. *)
Definition containsStr (l : list str) (x : str) : bool := bool_decide (x ∈ l).

Section Executor.
Context `{PriorityQueue, Scripts, Settings}.

Definition m_partialBuild : bool := negb (length m_productsToBuild =? length m_allProducts).

(** ** Leaves *)

Definition retrieveSourceFileTimestamp (a : nat) : M unit :=
  e ← gets id;
  _ ← check (isSourceFile e a);
  let path := pathOf e a in
  let changed := changedFiles options in
  _ ← modify (
    if is_nil changed then setTimestamp a (recursiveFileTime (fs e) path)
    else if containsStr changed path then setTimestamp a (currentTime (fs e))
    else if negb (isValid (timeOf e a)) then setTimestamp a (recursiveFileTime (fs e) path)
    else id);
  _ ← modify (updArtifactData a (on_timestampRetrieved (λ _, true)));
  e ← gets id;
  if isValid (timeOf e a) then mret tt else throw (SourceFileDisappeared path).

(** The part of [updateLeaves] that prepares a node. *)
Definition touch (u : nat) : M unit :=
  s ← gets (λ e, buildState e u);
  if bool_decide (s = Untouched) then
    _ ← modify (setBuildState u Buildable);
    isSource ← gets (λ e, isSourceFile e u);
    when isSource (retrieveSourceFileTimestamp u)
  else mret tt.

Fixpoint updateLeaves_impl (fuel : nat) (u : nat) (seenNodes : NodeSet) : M NodeSet :=
  match fuel with
  | 0 => throw OutOfFuel
  | S fuel =>
      let '(seenNodes, (_, inserted)) := set_insert Nat.ltb seenNodes u in
      if negb inserted then mret seenNodes
      else
        _ ← touch u;
        cs ← gets (λ e, children (node (heapOf e) u));
        r ← foldM (λ r child,
              s ← gets (λ e, buildState e child);
              if bool_decide (s = Built) then mret r
              else seenNodes ← updateLeaves_impl fuel child r.2; mret (false, seenNodes))
              cs (true, seenNodes);
        _ ← when r.1 (modify (pushLeaf u));
        mret r.2
  end.

Definition updateLeaves (nodes : NodeSet) : M unit :=
  h ← gets heapOf;
  _ ← foldM (λ seenNodes u, updateLeaves_impl (graphFuel h) u seenNodes) nodes [];
  mret tt.

Definition initLeaves : M unit := roots ← gets executorRoots; updateLeaves roots.

Definition allChildrenBuilt (e : Executor) (u : nat) : bool :=
  forallb (λ c, bool_decide (buildState e c = Built)) (children (node (heapOf e) u)).

Definition finishNode (leaf : nat) : M unit :=
  _ ← modify (setBuildState leaf Built);
  ps ← gets (λ e, parents (node (heapOf e) leaf));
  forM ps (λ parent,
    e ← gets id;
    when (bool_decide (buildState e parent = Buildable) && allChildrenBuilt e parent)
      (modify (pushLeaf parent))).

(** ** Job limits *)

(** [jobLimitIsExceeded] *)
Definition jobLimitIsExceeded (e : Executor) (currentJobCount : Z) (jobPool : str) (t : nat) :
    exn BGError bool :=
  match transformerProduct e t with
  | None => Throw OutOfRange
  | Some p =>
      match m_jobLimitsPerProduct e !! p with
      | None => Throw OutOfRange
      | Some limits =>
          let maxJobCount := getLimit limits jobPool in
          Ok ((0 <? maxJobCount)%Z && (maxJobCount <=? currentJobCount)%Z)
      end
  end.

(** The loop over the running jobs. *)
Fixpoint exceededByRunning (e : Executor) (currentJobCount : Z) (jobPool : str) (t : nat)
    (runningJobs : list nat) : exn BGError bool :=
  match runningJobs with
  | [] => Ok false
  | j :: rest =>
      let job := default resetJob (jobs e !! j) in
      if negb (containsStr (m_jobPools job) jobPool) then
        exceededByRunning e currentJobCount jobPool t rest
      else
        match m_transformer job with
        | None => exceededByRunning e currentJobCount jobPool t rest
        | Some running =>
            let t' := jt_transformer running in
            if bool_decide (transformerProduct e t' = transformerProduct e t)
            then exceededByRunning e currentJobCount jobPool t rest
            else
              let* exceeded := jobLimitIsExceeded e currentJobCount jobPool t' in
              if exceeded : bool then Ok true
              else exceededByRunning e currentJobCount jobPool t rest
        end
  end.

Definition jobCount (e : Executor) (p : str) : Z := default 0%Z (m_jobCountPerPool e !! p).

Fixpoint blockedByPools (e : Executor) (t : nat) (pools : list str) : exn BGError bool :=
  match pools with
  | [] => Ok false
  | jobPool :: rest =>
      let currentJobCount := jobCount e jobPool in
      if (currentJobCount =? 0)%Z then blockedByPools e t rest
      else
        let* exceeded := jobLimitIsExceeded e currentJobCount jobPool t in
        if exceeded : bool then Ok true
        else
          let* exceeded := exceededByRunning e currentJobCount jobPool t
                             (map fst (map_to_list (m_processingJobs e))) in
          if exceeded : bool then Ok true else blockedByPools e t rest
  end.

Definition schedulingBlockedByJobLimit (e : Executor) (u : nat) : exn BGError bool :=
  match as_artifact (heapOf e) u with
  | None => Ok false
  | Some a =>
      if bool_decide (artifactType a = SourceFile) then Ok false
      else
        match transformer a with
        | None => Throw NullPointer
        | Some t => blockedByPools e t (transformerPools e t)
        end
  end.

Definition updateJobCounts (t : nat) (diff : Z) (e : Executor) : Executor :=
  foldl (λ e p, on_m_jobCountPerPool (partial_alter (λ n, Some (default 0%Z n + diff)%Z) p) e)
    e (transformerPools e t).

Definition setupJobLimits (e : Executor) : Executor :=
  foldl (λ e p,
    let fromSettings := settingsJobLimits p in
    let effectiveJobLimits :=
      if projectJobLimitsTakePrecedence options
      then update (update (update [] fromSettings) (optionsJobLimits options)) (productJobLimits p)
      else update (update (update [] (productJobLimits p)) fromSettings) (optionsJobLimits options)
    in
    on_m_jobLimitsPerProduct (λ m,
      match m !! p with Some _ => m | None => <[p := effectiveJobLimits]> m end) e)
    e m_productsToBuild.

(** ** Up-to-date checks *)

Definition isUpToDate (a : nat) : M bool :=
  e ← gets id;
  _ ← check (bool_decide (artifactType (artifactOf (heapOf e) a) = Generated));
  _ ← when (forceTimestampCheck options)
        (modify (setTimestamp a (lastModified (fs e) (pathOf e a))));
  e ← gets id;
  if negb (isValid (timeOf e a)) then mret false
  else
    current ← allM (λ child,
      _ ← check (negb (alwaysUpdated (artifactDataOf e child)) || isValid (timeOf e child));
      mret (negb (timeOf e a <? timeOf e child)%Z))
      (artifacts_of (heapOf e) (children (node (heapOf e) a)));
    if negb current then mret false
    else
      allM (λ d,
        let t := default 0%Z (dependencyTimes (graph e) !! d) in
        mret (isValid t && negb (timeOf e a <? t)%Z))
        (artifact_fileDependencies (artifactOf (heapOf e) a)).

(** The loop over the outputs; the result is an early [true], or the two flags. *)
Fixpoint checkOutputs (outputs : list nat) (hasAlwaysUpdated hasNotAlwaysUpdated : bool) :
    M (option (bool * bool)) :=
  match outputs with
  | [] => mret (Some (hasAlwaysUpdated, hasNotAlwaysUpdated))
  | a :: rest =>
      upToDate ← isUpToDate a;
      always ← gets (λ e, alwaysUpdated (artifactDataOf e a));
      if upToDate : bool then
        if always : bool then checkOutputs rest true hasNotAlwaysUpdated
        else checkOutputs rest hasAlwaysUpdated true
      else if always || forceTimestampCheck options then mret None
      else checkOutputs rest hasAlwaysUpdated hasNotAlwaysUpdated
  end.

Definition mustExecuteTransformer (t : nat) : M bool :=
  e ← gets id;
  if alwaysRun (transformerDataOf e t) then mret true
  else if markedForRerun (transformerDataOf e t) then mret true
  else
    flags ← checkOutputs (transformer_outputs (transformerOf e t)) false false;
    match flags with
    | None => mret true
    | Some (hasAlwaysUpdated, hasNotAlwaysUpdated) =>
        rerun ← onGraph (λ g, let '(b, g) := commandsNeedRerun t g in Ok (g, b));
        if rerun : bool then mret true
        else mret (negb hasAlwaysUpdated && negb hasNotAlwaysUpdated)
    end.

Definition artifactHasMatchingOutputTags (e : Executor) (a : nat) : bool :=
  intersects (m_activeFileTags options) (m_fileTags (artifactOf (heapOf e) a))
  || intersects (m_tagsNeededForFilesToConsider e) (m_fileTags (artifactOf (heapOf e) a)).

Definition transformerHasMatchingOutputTags (e : Executor) (t : nat) : bool :=
  is_nil (m_activeFileTags options)
  || existsb (artifactHasMatchingOutputTags e) (transformer_outputs (transformerOf e t)).

Definition transformerHasMatchingInputFiles (e : Executor) (t : nat) : bool :=
  let ins := transformer_inputs (transformerOf e t) in
  if is_nil (filesToConsider options) then true
  else
    match transformerProduct e t with
    | None => false
    | Some p =>
        if negb (bool_decide (p ∈ m_productsOfFilesToConsider e)) then false
        else if is_nil ins then true
        else existsb (λ i, existsb (λ file,
               bool_decide (pathOf e i = file)
               || intersects (m_fileTags (artifactOf (heapOf e) i))
                    (m_tagsNeededForFilesToConsider e)) (filesToConsider options)) ins
    end.

(** ** Finishing *)

Definition checkNodeProduct (u : nat) : M bool :=
  p ← gets (λ e, productOf (heapOf e) u);
  if negb m_partialBuild
     || match p with Some p => bool_decide (p ∈ m_productsToBuild) | None => false end
  then mret true
  else _ ← finishNode u; mret false.

Definition finishTransformer (t : nat) : M unit :=
  _ ← modify (updTransformerData t (on_markedForRerun (λ _, false)));
  outputs ← gets (λ e, transformer_outputs (transformerOf e t));
  forM outputs finishNode.

(** [setState] does nothing when the state is the same. *)
Definition setState (s : ExecutorState) : M unit := modify (on_m_state (λ _, s)).

Definition cancelJobs : M unit :=
  s ← gets m_state;
  if bool_decide (s = ExecutorCanceling) then mret tt
  else
    _ ← setState ExecutorCanceling;
    running ← gets (λ e, map fst (map_to_list (m_processingJobs e)));
    forM running (λ j, modify (on_jobs (alter cancel j))).

Definition unbuilt (e : Executor) (p : nat) : bool :=
  match buildDataOf (heapOf e) p with
  | Some b => existsb (λ r, negb (bool_decide (buildState e r = Built))) (m_roots b)
  | None => false
  end.

(** The files of the rescuable data that is left are removed as well. *)
Definition checkForUnbuiltProducts : M unit :=
  if executeRulesOnly options then mret tt
  else
    e ← gets id;
    let unbuiltProducts := List.filter (unbuilt e) m_productsToBuild in
    _ ← modify (on_graph (on_rescuable (filter (λ kv,
          ¬ (kv.1.1 ∈ m_productsToBuild ∧ unbuilt e kv.1.1 = false)))));
    when (negb (is_nil unbuiltProducts))
      (modify (on_m_errors (λ l, l ++ [ProductsNotBuilt unbuiltProducts]))).

Definition finish : M unit :=
  _ ← checkForUnbuiltProducts;
  setState ExecutorIdle.

Definition handleError (error : BGError) : M unit :=
  _ ← modify (on_m_errors (λ l, l ++ [error]));
  idle ← gets (λ e, bool_decide (m_processingJobs e = ∅));
  if idle : bool then finish else cancelJobs.

(** The exceptions that a handler of [ErrorInfo] catches. *)
Definition isErrorInfo (e : BGError) : bool :=
  match e with NullPointer | OutOfRange | OutOfFuel => false | _ => true end.

(** ** Rescuing old build data *)

(** [lookupArtifact] of the artifact with the file [path] of the product [name]. *)
Definition lookupByProductName (h : Heap) (name path : str) : option nat :=
  List.find (λ r, isArtifact h r &&
      match productOf h r with
      | Some p => bool_decide (default [] (uniqueName <$> products h !! p) = name)
      | None => false
      end) (lookupFilesByPath h path).

(** The loop over the children; [canRescue] and [childrenToConnect]. *)
Definition rescueChild (a p : nat) (cd : ChildData) (r : bool * list nat) : M (bool * list nat) :=
  let '(canRescue, childrenToConnect) := r in
  h ← gets heapOf;
  let child := lookupByProductName h (childProduct cd) (childFilePath cd) in
  if match child with Some c => contains (children (node h a)) c | None => false end
  then mret r
  else
    canRescue ← (match child with
      | Some _ => mret canRescue
      | None =>
          _ ← modify (on_graph (on_rescuable (delete (p, childFilePath cd)))); mret false
      end);
    let canRescue := canRescue && addedByScanner cd in
    match child with
    | Some c => if canRescue then mret (true, childrenToConnect ++ [c])
                else mret (canRescue, childrenToConnect)
    | None => mret (canRescue, childrenToConnect)
    end.

(** The loop over the file dependencies, which stops at the first that is gone. *)
Fixpoint rescueFileDependencies (a : nat) (paths : list str) : M bool :=
  match paths with
  | [] => mret true
  | path :: rest =>
      h ← gets heapOf;
      match List.find (λ r, bool_decide (is_Some (fileDependencies h !! r)))
              (lookupFilesByPath h path) with
      | None => mret false
      | Some d =>
          _ ← modify (on_graph (on_heap (upd_node (upd_artifact (λ x,
                mkArtifact (filePath x) (timestamp x) (artifactType x) (m_fileTags x)
                  (childrenAddedByScanner x) (ins (artifact_fileDependencies x) d)
                  (transformer x) (targetOfModule x) (properties x))) a)));
          rescueFileDependencies a rest
      end
  end.

(** [safeConnect] of the executor's graph. *)
Definition connectSafely (u v : nat) : M bool :=
  onGraph (λ g, let* (b, h) := safeConnect u v (heap g) in Ok (on_heap (λ _, h) g, b)).

Definition set_requestedMaps (inPrepare inCommands : RequestedArtifacts) (t : Transformer) :
    Transformer :=
  mkTransformer (transformer_inputs t) (transformer_outputs t)
    (transformer_explicitlyDependsOn t) (transformer_rule t) inPrepare inCommands.

(** The members of the transformer that are taken over; of those the model does not
    have, none is used by the executor. *)
Definition takeOver (a t : nat) (rad : RescuableArtifactData) : Executor → Executor := λ e,
  updTransformerData t (on_markedForRerun (λ b, b || rad_knownOutOfDate rad))
    (setTimestamp a (rad_timeStamp rad)
      (on_graph (on_heap (set_transformers (alter (set_requestedMaps
          (rad_artifactsMapRequestedInPrepareScript rad) (rad_artifactsMapRequestedInCommands rad))
          t))) e)).

Definition addScannedChild (a child : nat) : Executor → Executor :=
  on_graph (on_heap (upd_node (upd_artifact (set_childrenAddedByScanner (λ s, ins s child))) a)).

(** The result is [childrenAdded]. *)
Definition rescueOldBuildData (a : nat) : M bool :=
  e ← gets id;
  if negb (oldDataPossiblyPresent (artifactDataOf e a)) then mret false
  else
    _ ← modify (updArtifactData a (on_oldDataPossiblyPresent (λ _, false)));
    let x := artifactOf (heapOf e) a in
    if negb (bool_decide (artifactType x = Generated)) then mret false
    else
      match productOf (heapOf e) a, transformer x with
      | Some p, Some t =>
          match rescuable (graph e) !! (p, filePath x) with
          | None => mret false
          | Some rad =>
              _ ← modify (on_graph (on_rescuable (delete (p, filePath x))));
              r ← (if commandsId (transformerDataOf e t) =? rad_commandsId rad then
                     r ← foldM (λ r cd, rescueChild a p cd r) (rad_children rad) (true, []);
                     found ← rescueFileDependencies a (rad_fileDependencies rad);
                     if r.1 && found then
                       h ← gets heapOf;
                       let newChildCount :=
                         length r.2 + length (artifacts_of h (children (node h a))) in
                       _ ← check (length (rad_children rad) <=? newChildCount);
                       mret (newChildCount <=? length (rad_children rad), r.2)
                     else mret (false, r.2)
                   else mret (false, []));
              if negb r.1 then mret false
              else
                _ ← modify (takeOver a t rad);
                _ ← forM r.2 (λ child,
                      connected ← connectSafely a child;
                      when connected (modify (addScannedChild a child)));
                mret (negb (is_nil r.2))
          end
      | _, _ => throw NullPointer
      end.

(** ** Running transformers *)

(** [InputArtifactScanner::scan]; the result is [newDependencyAdded()]. *)
Definition scan (a : nat) : M bool :=
  e ← gets id;
  if inputsScanned (artifactDataOf e a) then mret false
  else
    _ ← modify (updArtifactData a (on_inputsScanned (λ _, true)));
    let childrenAdded := childrenAddedByScanner (artifactOf (heapOf e) a) in
    _ ← modify (on_graph (on_heap (upd_node (upd_artifact (λ x,
          mkArtifact (filePath x) (timestamp x) (artifactType x) (m_fileTags x) [] []
            (transformer x) (targetOfModule x) (properties x))) a)));
    _ ← forM childrenAdded (λ dependency, modify (on_graph (on_heap (disconnect a dependency))));
    match transformer (artifactOf (heapOf e) a) with
    | None => throw NullPointer
    | Some t =>
        foldM (λ newDependencyAdded input,
          added ← onGraph (scanForFileDependencies a input);
          mret (newDependencyAdded || added)) (transformer_inputs (transformerOf e t)) false
    end.

Definition checkForUnbuiltDependencies (a : nat) : M bool :=
  e ← gets id;
  let cs := children (node (heapOf e) a) in
  let isIn (states : list BuildState) c := bool_decide (buildState e c ∈ states) in
  let unbuiltDependencies :=
    foldl (λ s c, if isIn [Untouched; Buildable] c then ins s c else s) [] cs in
  if negb (is_nil unbuiltDependencies) then
    _ ← modify (updArtifactData a (on_inputsScanned (λ _, false)));
    _ ← updateLeaves unbuiltDependencies;
    mret true
  else if existsb (isIn [Building]) cs then
    _ ← modify (updArtifactData a (on_inputsScanned (λ _, false)));
    mret true
  else mret false.

(** The signal of a job is queued. *)
Definition emitFinished (j : nat) (r : JobResult) : Executor → Executor := λ e,
  let e := on_jobs (insert j r.2) e in
  match r.1 with
  | Some error => on_finishedSignals (λ l, l ++ [(j, error)]) e
  | None => e
  end.

(** [job->run(t)]; of the members of [t] that it clears, the model has one. *)
Definition startJob (job t : nat) : M unit :=
  cs ← gets (λ e, commands (transformerDataOf e t));
  _ ← when (negb (is_nil cs))
        (modify (on_graph (on_heap (set_transformers (alter (λ x,
          set_requestedMaps (artifactsMapRequestedInPrepareScript x) ∅ x) t)))));
  modify (λ e, emitFinished job (run (mkJobTransformer t cs) (default resetJob (jobs e !! job))) e).

Definition runTransformer (t : nat) : M unit :=
  e ← gets id;
  let outputs := transformer_outputs (transformerOf e t) in
  _ ← when (negb (dryRun options))
        (forM outputs (λ o,
          when (negb (mkpath (fs e) (pathOf e o))) (throw (CannotCreateDirectory (pathOf e o)))));
  match m_availableJobs e with
  | [] => throw CheckFailed
  | job :: available =>
      _ ← modify (on_m_availableJobs (λ _, available));
      _ ← forM outputs (λ a, modify (setBuildState a Building));
      _ ← modify (on_m_processingJobs (insert job t));
      _ ← modify (updateJobCounts t 1);
      startJob job t
  end.

Definition potentiallyRunTransformer (t : nat) : M unit :=
  outputs ← gets (λ e, transformer_outputs (transformerOf e t));
  delayed ← anyM (λ output,
    childrenAddedDueToRescue ← rescueOldBuildData output;
    if childrenAddedDueToRescue : bool then checkForUnbuiltDependencies output else mret false)
    outputs;
  if delayed : bool then mret tt
  else
    e ← gets id;
    if negb (transformerHasMatchingOutputTags e t) then finishTransformer t
    else if negb (transformerHasMatchingInputFiles e t) then finishTransformer t
    else
      mustExecute ← mustExecuteTransformer t;
      outputs ← gets (λ e, transformer_outputs (transformerOf e t));
      delayed ← (if mustExecute || forceTimestampCheck options then
        anyM (λ output,
          newDependencyAdded ← scan output;
          if newDependencyAdded : bool then checkForUnbuiltDependencies output else mret false)
          outputs
        else mret false);
      if delayed : bool then mret tt
      else if negb mustExecute then finishTransformer t
      else if executeRulesOnly options then finishTransformer t
      else runTransformer t.

Definition buildArtifact (a : nat) : M unit :=
  e ← gets id;
  _ ← check (bool_decide (buildState e a = Buildable));
  let x := artifactOf (heapOf e) a in
  belongs ← (if bool_decide (artifactType x = SourceFile) then mret true else checkNodeProduct a);
  if negb belongs then mret tt
  else if negb (bool_decide (artifactType x = Generated)) then
    _ ← when (bool_decide (artifactType x = SourceFile)
              && negb (timestampRetrieved (artifactDataOf e a)))
          (retrieveSourceFileTimestamp a);
    finishNode a
  else
    match transformer x with
    | None => throw CheckFailed
    | Some t => potentiallyRunTransformer t
    end.

Definition executeRuleNode (r : nat) : M unit :=
  belongs ← checkNodeProduct r;
  if negb belongs then mret tt
  else
    result ← onGraph (applyRuleNode r);
    _ ← updateLeaves result.1;
    _ ← updateLeaves result.2;
    finishNode r.

(** [accept(this)]: both [visit] functions return [false], so that the children are
    not visited. *)
Definition visit (u : nat) : M unit :=
  e ← gets id;
  _ ← check (negb (bool_decide (buildState e u = Untouched)));
  if isArtifact (heapOf e) u then buildArtifact u else executeRuleNode u.

(** ** Scheduling *)

(** The loop of [scheduleJobs]; the result are the delayed leaves. *)
Fixpoint scheduleLoop (fuel : nat) (delayedLeaves : list nat) : M (list nat) :=
  match fuel with
  | 0 => throw OutOfFuel
  | S fuel =>
      e ← gets id;
      if is_nil (m_leaves e) || is_nil (m_availableJobs e) then mret delayedLeaves
      else
        let nodeToBuild := pq_top (priority e) (m_leaves e) in
        _ ← modify (on_m_leaves (λ l, removeOne l nodeToBuild));
        e ← gets id;
        match buildState e nodeToBuild with
        | Buildable =>
            blocked ← lift (schedulingBlockedByJobLimit e nodeToBuild);
            if blocked : bool then scheduleLoop fuel (delayedLeaves ++ [nodeToBuild])
            else _ ← visit nodeToBuild; scheduleLoop fuel delayedLeaves
        | _ => scheduleLoop fuel delayedLeaves
        end
  end.

(** [fuel] bounds the number of leaves that are taken from the queue. *)
Definition scheduleJobs (fuel : nat) : M bool :=
  s ← gets m_state;
  _ ← check (bool_decide (s = ExecutorRunning));
  delayedLeaves ← scheduleLoop fuel [];
  _ ← forM delayedLeaves (λ u, modify (pushLeaf u));
  gets (λ e, negb (is_nil (m_leaves e)) || negb (bool_decide (m_processingJobs e = ∅))).

(** The outputs of a transformer whose commands have succeeded. *)
Definition updateOutput (a : nat) : M unit :=
  e ← gets id;
  if alwaysUpdated (artifactDataOf e a) then
    _ ← modify (setTimestamp a (currentTime (fs e)));
    _ ← forM (artifacts_of (heapOf e) (parents (node (heapOf e) a))) (λ parent,
          match transformer (artifactOf (heapOf e) parent) with
          | None => throw NullPointer
          | Some t => modify (updTransformerData t (on_markedForRerun (λ _, true)))
          end);
    when (forceOutputCheck options && negb (dryRun options) && negb (fileExists (fs e) (pathOf e a)))
      (throw (ArtifactNotProduced (pathOf e a)))
  else modify (setTimestamp a (lastModified (fs e) (pathOf e a))).

Definition finishJob (fuel job : nat) (success : bool) : M unit :=
  e ← gets id;
  _ ← check (negb (bool_decide (m_state e = ExecutorIdle)));
  match m_processingJobs e !! job with
  | None => throw CheckFailed
  | Some t =>
      _ ← modify (on_m_processingJobs (delete job));
      _ ← modify (on_m_availableJobs (λ l, l ++ [job]));
      _ ← modify (updateJobCounts t (-1));
      _ ← when success (
        _ ← modify (on_graph (on_heap setDirty));
        outputs ← gets (λ e, transformer_outputs (transformerOf e t));
        _ ← forM outputs updateOutput;
        finishTransformer t);
      _ ← when (negb success && negb (keepGoing options)) cancelJobs;
      e ← gets id;
      if bool_decide (m_state e = ExecutorCanceling) then
        when (bool_decide (m_processingJobs e = ∅)) finish
      else
        more ← scheduleJobs fuel;
        when (negb more) finish
  end.

(** [onJobFinished], with [error] for a job that has failed. *)
Definition onJobFinished (fuel job : nat) (error : bool) : M unit :=
  catch (
    _ ← when (error && negb (keepGoing options))
          (modify (on_m_errors (λ l, if is_nil l then [JobFailed job] else l)));
    finishJob fuel job (negb error))
    (λ x, if isErrorInfo x then handleError x else throw x).

(** ** Preparing a build *)

(** [ProductPrioritySetter]: the next priority, an unsigned integer of 32 bits, the
    products seen, and the priorities given. *)
Record ProductPrioritySetter := mkProductPrioritySetter {
  m_priority : Z;
  m_seenProducts : NodeSet;
  priorities : gmap nat Z
}.

Definition dependenciesOf (h : Heap) (p : nat) : list nat :=
  default [] (dependencies <$> products h !! p).

Fixpoint traverseProducts (fuel : nat) (h : Heap) (s : ProductPrioritySetter) (p : nat) :
    ProductPrioritySetter :=
  match fuel with
  | 0 => s
  | S fuel =>
      let '(seen, (_, inserted)) := set_insert Nat.ltb (m_seenProducts s) p in
      if negb inserted then s
      else
        let s := mkProductPrioritySetter (m_priority s) seen (priorities s) in
        let s := foldl (traverseProducts fuel h) s (dependenciesOf h p) in
        match buildDataOf h p with
        | None => s
        | Some _ =>
            mkProductPrioritySetter ((m_priority s - 1) mod 2 ^ 32) (m_seenProducts s)
              (<[p := m_priority s]> (priorities s))
        end
  end.

Definition UINT_MAX : Z := 4294967295.

(** [apply]; a path of products without repetition is not longer than the number of
    products. *)
Definition applyPriorities (h : Heap) (prios : gmap nat Z) : gmap nat Z :=
  let allDependencies :=
    foldl (λ s p, foldl ins s (dependenciesOf h p)) [] m_allProducts in
  let rootProducts := set_minus Nat.ltb (foldl ins [] m_allProducts) allDependencies in
  priorities (foldl (traverseProducts (S (size (products h))) h)
    (mkProductPrioritySetter UINT_MAX [] prios) rootProducts).

Definition prepareProducts : M unit :=
  modify (λ e, on_buildPriorities (applyPriorities (heapOf e)) e).

Definition prepareArtifact (a : nat) : M unit :=
  _ ← modify (updArtifactData a (λ d, on_inputsScanned (λ _, false)
                                        (on_timestampRetrieved (λ _, false) d)));
  isSource ← gets (λ e, isSourceFile e a);
  when isSource (retrieveSourceFileTimestamp a).

Definition prepareAllNodes : M unit :=
  _ ← forM m_allProducts (λ p,
    e ← gets id;
    match products (heapOf e) !! p with
    | None => throw NullPointer
    | Some rp =>
        if enabled rp then
          match buildData rp with
          | None => throw CheckFailed
          | Some b => forM (m_nodes b) (λ u, modify (setBuildState u Untouched))
          end
        else mret tt
    end);
  forM m_productsToBuild (λ p,
    e ← gets id;
    match buildDataOf (heapOf e) p with
    | None => throw CheckFailed
    | Some b => forM (artifacts_of (heapOf e) (m_nodes b)) prepareArtifact
    end).

(** Some artifact of a product has the file dependency [d]. *)
Definition isReferencedByArtifact (h : Heap) (d : nat) : bool :=
  existsb (λ p,
    match buildDataOf h p with
    | None => false
    | Some b => existsb (λ a, contains (artifact_fileDependencies (artifactOf h a)) d)
                  (artifacts_of h (m_nodes b))
    end) m_allProducts.

Definition syncFileDependencies : M unit :=
  deps ← gets (λ e, map_to_list (fileDependencies (heapOf e)));
  forM deps (λ dp,
    let '(d, path) := dp in
    e ← gets id;
    if fileExists (fs e) path
    then modify (on_graph (on_dependencyTimes (insert d (lastModified (fs e) path))))
    else
      _ ← modify (on_graph (on_heap (removeFromLookupTable d)));
      if isReferencedByArtifact (heapOf e) d
      then modify (on_graph (on_dependencyTimes (insert d 0%Z)))
      else modify (on_graph (on_heap (set_fileDependencies (delete d))))).

Definition setupForBuildingSelectedFiles (u : nat) (e : Executor) : Executor :=
  match as_ruleNode (heapOf e) u with
  | None => e
  | Some rn =>
      if is_nil (filesToConsider options) then e
      else if negb (match productOf (heapOf e) u with
                    | Some p => bool_decide (p ∈ m_productsOfFilesToConsider e)
                    | None => false
                    end) then e
      else
        let rule := getRule (heapOf e) (m_rule rn) in
        if intersects (inputs rule) (m_tagsOfFilesToConsider e) then
          let otherInputs :=
            set_subtract Nat.ltb (set_unite Nat.ltb (auxiliaryInputs rule) (explicitlyDependsOn rule))
              (excludedInputs rule) in
          on_m_tagsNeededForFilesToConsider (λ s, set_unite Nat.ltb s otherInputs) e
        else if intersects (outputTags rule) (m_tagsNeededForFilesToConsider e) then
          let allInputs :=
            set_subtract Nat.ltb
              (set_unite Nat.ltb (set_unite Nat.ltb (inputs rule) (auxiliaryInputs rule))
                 (explicitlyDependsOn rule))
              (excludedInputs rule) in
          on_m_tagsNeededForFilesToConsider (λ s, set_unite Nat.ltb s allInputs) e
        else e
  end.

Fixpoint prepareReachableNodes_impl (fuel : nat) (u : nat) : M unit :=
  match fuel with
  | 0 => throw OutOfFuel
  | S fuel =>
      _ ← modify (setupForBuildingSelectedFiles u);
      e ← gets id;
      if negb (bool_decide (buildState e u = Untouched)) then mret tt
      else
        _ ← modify (setBuildState u Buildable);
        forM (children (node (heapOf e) u)) (prepareReachableNodes_impl fuel)
  end.

Definition prepareReachableNodes : M unit :=
  e ← gets id;
  forM (executorRoots e) (prepareReachableNodes_impl (graphFuel (heapOf e))).

Definition setupRootNodes : M unit :=
  _ ← modify (on_executorRoots (λ _, []));
  forM m_productsToBuild (λ p,
    e ← gets id;
    match buildDataOf (heapOf e) p with
    | None => throw NullPointer
    | Some b => modify (on_executorRoots (λ s, set_unite Nat.ltb s (m_roots b)))
    end).

(** The number of jobs, as [doBuild] sets it. *)
Definition effectiveMaxJobCount : Z :=
  if (maxJobCount options <=? 0)%Z then defaultMaxJobCount else maxJobCount options.

Definition addExecutorJobs : M unit :=
  forM (seq 1 (Z.to_nat effectiveMaxJobCount)) (λ i,
    _ ← modify (on_jobs (insert i resetJob));
    modify (on_m_availableJobs (λ l, l ++ [i]))).

(** The tags and products of the selected files. *)
Definition setupFilesToConsider : M unit :=
  forM (filesToConsider options) (λ path,
    e ← gets id;
    forM (lookupFilesByPath (heapOf e) path) (λ f,
      match as_artifact (heapOf e) f, productOf (heapOf e) f with
      | Some a, Some p =>
          when (bool_decide (p ∈ m_productsToBuild))
            (_ ← modify (on_m_tagsOfFilesToConsider (λ s, set_unite Nat.ltb s (m_fileTags a)));
             modify (on_m_productsOfFilesToConsider (λ l, l ++ [p])))
      | _, _ => mret tt
      end)).

Definition checkProducts : M unit :=
  forM m_productsToBuild (λ p,
    e ← gets id; check (bool_decide (is_Some (buildDataOf (heapOf e) p)))).

Definition postFinish : M unit := modify (on_finishPosted (λ _, true)).

Definition doBuild (fuel : nat) : M unit :=
  s ← gets m_state;
  _ ← check (bool_decide (s = ExecutorIdle));
  _ ← modify (on_m_leaves (λ _, []));
  _ ← modify (on_m_errors (λ _, []));
  _ ← modify (on_m_tagsOfFilesToConsider (λ _, []));
  _ ← modify (on_m_tagsNeededForFilesToConsider (λ _, []));
  _ ← modify (on_m_productsOfFilesToConsider (λ _, []));
  _ ← modify (on_m_jobCountPerPool (λ _, ∅));
  _ ← modify setupJobLimits;
  _ ← setupFilesToConsider;
  _ ← setState ExecutorRunning;
  if is_nil m_productsToBuild then postFinish
  else
    _ ← checkProducts;
    _ ← addExecutorJobs;
    _ ← syncFileDependencies;
    _ ← prepareAllNodes;
    _ ← prepareProducts;
    _ ← setupRootNodes;
    _ ← prepareReachableNodes;
    _ ← initLeaves;
    more ← scheduleJobs fuel;
    when (negb more) postFinish.

Definition startBuild (fuel : nat) : M unit :=
  catch (doBuild fuel) (λ x, if isErrorInfo x then handleError x else throw x).

(** ** The event loop

    What can happen to an executor that waits: a command of a job ends, the signal
    of a job is delivered, or [finish] is called; and files change. *)
Inductive Event :=
  | EventCommandFinished (job : nat) (err : bool)
  | EventJobFinished
  | EventFinish
  | EventFiles (files : FileSystem).

Definition enabledEvent (ev : Event) (e : Executor) : Prop :=
  match ev with
  | EventCommandFinished j _ => ∃ job, jobs e !! j = Some job ∧ m_running job = true
  | EventJobFinished => finishedSignals e ≠ []
  | EventFinish => finishPosted e = true
  | EventFiles _ => True
  end.

Definition handleEvent (fuel : nat) (ev : Event) : M unit :=
  match ev with
  | EventCommandFinished j err =>
      modify (λ e, emitFinished j (onCommandFinished err (default resetJob (jobs e !! j))) e)
  | EventJobFinished =>
      l ← gets finishedSignals;
      match l with
      | [] => mret tt
      | (j, error) :: l' =>
          _ ← modify (on_finishedSignals (λ _, l')); onJobFinished fuel j error
      end
  | EventFinish => _ ← modify (on_finishPosted (λ _, false)); finish
  | EventFiles f => modify (on_fs (λ _, f))
  end.

(** A step of a build; an exception that is no [ErrorInfo] ends the program, and
    [fuel] is large enough in a step that does not run out of it. *)
Inductive step (e : Executor) : Executor → Prop :=
  | step_event fuel ev e' :
      enabledEvent ev e → handleEvent fuel ev e = (Ok tt, e') → step e e'.

(** A new executor for the graph [g]. *)
Definition newExecutor (g : Graph) (f : FileSystem) : Executor :=
  mkExecutor g f ∅ ∅ [] [] [] ∅ ∅ [] ∅ ∅ [] [] [] ExecutorIdle [] false.

(** The states of a build of [g]. *)
Inductive building_from (g : Graph) (f : FileSystem) : Executor → Prop :=
  | started fuel e :
      startBuild fuel (newExecutor g f) = (Ok tt, e) → building_from g f e
  | stepped e e' : building_from g f e → step e e' → building_from g f e'.
End Executor.
