(* ===== verification/ExecutorFrame.v ===== *)
(** * What the functions of the executor leave alone

    Most functions of the executor touch neither the jobs nor what the objects of
    the graph are: they are quiet.  The laws of [Scripts] say the same of the other
    components. *)

From S2P Require Import Prelude FlatSet BuildGraph BuildGraphCorrect ArtifactRemoval RuleGraph.
From S2P Require Import JobLimits StateMonad ExecutorJob ExecutorState Executor.

(** ** Heaps with the same objects *)

Record same_objects (h h' : Heap) : Prop := {
  so_product u : productOf h' u = productOf h u;
  so_artifact u : core <$> as_artifact h' u = core <$> as_artifact h u;
  so_outputs t : transformer_outputs <$> transformers h' !! t =
                 transformer_outputs <$> transformers h !! t
}.

#[export] Instance same_objects_preorder : PreOrder same_objects.
Proof.
  split; [by intros h; split|]. intros h1 h2 h3 [P1 A1 O1] [P2 A2 O2].
  split; intros; [by rewrite P2|by rewrite A2|by rewrite O2].
Qed.

Lemma same_objects_frame h h' :
  frame h h' →
  (∀ t, transformer_outputs <$> transformers h' !! t = transformer_outputs <$> transformers h !! t) →
  same_objects h h'.
Proof. intros F HO. split; [apply F|apply F|done]. Qed.

Lemma same_objects_upd_artifact f u h :
  (∀ a, core (f a) = core a) → same_objects h (upd_node (upd_artifact f) u h).
Proof. intros Hf. apply same_objects_frame; [by apply frame_upd_artifact|done]. Qed.

Lemma same_objects_set_children f u h : same_objects h (upd_node (set_children f) u h).
Proof. by apply same_objects_frame; [apply frame_set_children|]. Qed.

Lemma same_objects_set_parents f u h : same_objects h (upd_node (set_parents f) u h).
Proof. by apply same_objects_frame; [apply frame_set_parents|]. Qed.

Lemma same_objects_isDirty b h : same_objects h (set_isDirty b h).
Proof. by apply same_objects_frame; [apply frame_isDirty|]. Qed.

Lemma same_objects_removeFromLookupTable r h : same_objects h (removeFromLookupTable r h).
Proof. by apply same_objects_frame; [apply frame_removeFromLookupTable|]. Qed.

Lemma same_objects_fileDependencies f h : same_objects h (set_fileDependencies f h).
Proof. by split. Qed.

Lemma same_objects_transformers f t h :
  (∀ r, transformer_outputs (f r) = transformer_outputs r) →
  same_objects h (set_transformers (alter f t) h).
Proof.
  intros Hf. split; intros; simpl; [done|done|]. destruct (decide (t = t0)) as [->|Hne].
  - rewrite lookup_alter_eq. destruct (transformers h !! t0); simpl; [by rewrite Hf|done].
  - by rewrite lookup_alter_ne.
Qed.

Lemma same_objects_disconnect u v h : same_objects h (disconnect u v h).
Proof.
  unfold disconnect, onChildDisconnected. etrans; [apply same_objects_set_children|].
  etrans; [apply same_objects_set_parents|]. case_match; [|done].
  by apply same_objects_upd_artifact.
Qed.

Lemma same_objects_connect p c h h' : connect p c h = Ok h' → same_objects h h'.
Proof.
  unfold connect, addEdge. intros H. destruct (QBS_CHECK _); simpl in H; [|done].
  destruct (match as_artifact h c with Some _ => _ | None => _ end) as [[]|]; simpl in H;
    simplify_eq; [done|]. case_match; simplify_eq.
  etrans; [|apply same_objects_isDirty]. etrans; [apply same_objects_set_children|].
  apply same_objects_set_parents.
Qed.

Lemma same_objects_safeConnect u v h b h' : safeConnect u v h = Ok (b, h') → same_objects h h'.
Proof.
  unfold safeConnect. destruct (QBS_CHECK _); cbn [exn_bind]; [|done].
  destruct (existsPath h v u) as [[]|]; cbn [exn_bind]; [| |done].
  - destruct (findPath (graphFuel h) h u v); cbn [exn_bind]; intros; by simplify_eq.
  - destruct (connect u v h) eqn:E; cbn [exn_bind]; intros; simplify_eq.
    by eapply same_objects_connect.
Qed.

Lemma as_artifact_artifactOf h a : isArtifact h a = true → as_artifact h a = Some (artifactOf h a).
Proof. unfold isArtifact, artifactOf. by destruct (as_artifact h a). Qed.

(** ** Graphs whose transformers are kept *)

Definition commandsOf (g : Graph) (t : nat) : option (list str) :=
  commands <$> transformerData g !! t.

(** The product of the first output of a transformer. *)
Definition productOfTransformer (g : Graph) (t : nat) : option nat :=
  match transformer_outputs <$> transformers (heap g) !! t with
  | Some (o :: _) => productOf (heap g) o
  | _ => None
  end.

Lemma transformerProduct_graph e t : transformerProduct e t = productOfTransformer (graph e) t.
Proof.
  unfold transformerProduct, productOfTransformer, transformerOf, heapOf.
  by destruct (transformers (heap (graph e)) !! t).
Qed.

(** The transformers of the artifacts exist. *)
Definition transformers_ok (g : Graph) : Prop :=
  ∀ a x t, as_artifact (heap g) a = Some x → transformer x = Some t → is_Some (commandsOf g t).

(** From [g] to [g'] no transformer changes its commands or gets another product,
    though it may lose its outputs. *)
Record keeps (g g' : Graph) : Prop := {
  ks_commands t cs : commandsOf g t = Some cs → commandsOf g' t = Some cs;
  ks_product t q : is_Some (commandsOf g t) →
    productOfTransformer g' t = Some q → productOfTransformer g t = Some q;
  ks_ok : transformers_ok g → transformers_ok g'
}.

#[export] Instance keeps_preorder : PreOrder keeps.
Proof.
  split; [by intros g; split|]. intros g1 g2 g3 [C1 P1 O1] [C2 P2 O2]. split.
  - intros t cs H. by apply C2, C1.
  - intros t q [cs Hcs] H. apply P1; [by exists cs|]. apply P2; [|done]. exists cs. by apply C1.
  - intros H. by apply O2, O1.
Qed.

Lemma keeps_intro g g' :
  same_objects (heap g) (heap g') → (∀ t, commandsOf g' t = commandsOf g t) → keeps g g'.
Proof.
  intros [P A O] HC. split.
  - intros t cs. by rewrite HC.
  - intros t q _. unfold productOfTransformer. rewrite O.
    destruct (transformer_outputs <$> _) as [[|o l]|]; [done| |done]. by rewrite P.
  - intros Hok a x t Ha Ht. rewrite HC. specialize (A a). rewrite Ha in A. simpl in A.
    destruct (as_artifact (heap g) a) as [y|] eqn:E; [|discriminate A].
    apply (inj Some) in A. injection A as _ _ _ E'. eapply (Hok a y); [done|]. congruence.
Qed.

Lemma keeps_heap f g : same_objects (heap g) (f (heap g)) → keeps g (on_heap f g).
Proof. intros Hf. by apply keeps_intro. Qed.

Lemma keeps_transformerData f t g :
  (∀ d, commands (f d) = commands d) →
  keeps g (on_transformerData (partial_alter (λ d, Some (f (default newTransformerData d))) t) g).
Proof.
  intros Hf. set (g' := on_transformerData _ g).
  assert (∀ t' cs, commandsOf g t' = Some cs → commandsOf g' t' = Some cs) as HC.
  { intros t' cs. unfold commandsOf. simpl. destruct (decide (t = t')) as [->|Hne].
    - rewrite lookup_partial_alter_eq. destruct (transformerData g !! t'); simpl; [|done].
      by rewrite Hf.
    - by rewrite lookup_partial_alter_ne. }
  split; [done|done|]. intros Hok a x t' Ha Ht. destruct (Hok a x t' Ha Ht) as [cs Hcs].
  exists cs. by apply HC.
Qed.

(** ** Quiet functions *)

(** The jobs are the same, and the transformers are kept. *)
Record quiet (e e' : Executor) : Prop := {
  q_graph : keeps (graph e) (graph e');
  q_available : m_availableJobs e' = m_availableJobs e;
  q_processing : m_processingJobs e' = m_processingJobs e;
  q_jobs : jobs e' = jobs e;
  q_signals : finishedSignals e' = finishedSignals e;
  q_counts : m_jobCountPerPool e' = m_jobCountPerPool e;
  q_limits : m_jobLimitsPerProduct e' = m_jobLimitsPerProduct e;
  q_state : m_state e' = m_state e;
  q_posted : finishPosted e' = finishPosted e
}.

#[export] Instance quiet_preorder : PreOrder quiet.
Proof.
  split; [by intros e; split|]. intros e1 e2 e3 [] []. split; [by etrans|congruence..].
Qed.

Lemma quiet_on_graph f e : keeps (graph e) (f (graph e)) → quiet e (on_graph f e).
Proof. intros Hf. by split. Qed.

(** What [Scripts] promise. *)
Class ScriptsLaws (S : Scripts) : Prop := {
  applyRuleNode_keeps r g g' x : applyRuleNode r g = Ok (g', x) → keeps g g';
  scanForFileDependencies_keeps a i g g' b :
    scanForFileDependencies a i g = Ok (g', b) → keeps g g';
  commandsNeedRerun_keeps t g : keeps g (commandsNeedRerun t g).2
}.

Lemma moves_onGraph {A} (f : Graph → exn BGError (Graph * A)) :
  (∀ g g' x, f g = Ok (g', x) → keeps g g') → moves quiet (onGraph f).
Proof.
  intros Hf e. unfold onGraph. destruct (f (graph e)) as [[g' x]|x] eqn:E; simpl; [|done].
  apply quiet_on_graph. by eapply Hf.
Qed.

Lemma moves_heap f : (∀ h, same_objects h (f h)) → moves quiet (modify (on_graph (on_heap f)) : M unit).
Proof. intros Hf. apply moves_modify. intros e. apply quiet_on_graph, keeps_heap, Hf. Qed.

Lemma moves_upd_artifact f u :
  (∀ a, core (f a) = core a) → moves quiet (modify (on_graph (on_heap (upd_node (upd_artifact f) u))) : M unit).
Proof. intros Hf. apply moves_heap. intros h. by apply same_objects_upd_artifact. Qed.

(** Members that neither the jobs nor the transformers have to do with. *)
Ltac quiet_field := apply moves_modify; intros ?; by split.

Lemma moves_setBuildState u s : moves quiet (modify (setBuildState u s) : M unit).
Proof. quiet_field. Qed.
Lemma moves_pushLeaf u : moves quiet (modify (pushLeaf u) : M unit).
Proof. quiet_field. Qed.
Lemma moves_leaves f : moves quiet (modify (on_m_leaves f) : M unit).
Proof. quiet_field. Qed.
Lemma moves_errors f : moves quiet (modify (on_m_errors f) : M unit).
Proof. quiet_field. Qed.
Lemma moves_updArtifactData a f : moves quiet (modify (updArtifactData a f) : M unit).
Proof.
  apply moves_modify. intros e. apply quiet_on_graph. by apply keeps_intro.
Qed.
Lemma moves_rescuable f : moves quiet (modify (on_graph (on_rescuable f)) : M unit).
Proof. apply moves_modify. intros e. apply quiet_on_graph. by apply keeps_intro. Qed.
Lemma moves_setTimestamp a t : moves quiet (modify (setTimestamp a t) : M unit).
Proof. by apply moves_upd_artifact. Qed.
Lemma moves_check b : moves quiet (check b).
Proof. apply moves_lift, _. Qed.

#[export] Hint Resolve moves_setBuildState moves_pushLeaf moves_leaves moves_errors
  moves_updArtifactData moves_rescuable moves_setTimestamp moves_check : moves.

Lemma moves_updTransformerData t f :
  (∀ d, commands (f d) = commands d) → moves quiet (modify (updTransformerData t f) : M unit).
Proof.
  intros Hf. apply moves_modify. intros e. by apply quiet_on_graph, keeps_transformerData.
Qed.

(** ** The quiet functions *)

Section Quiet.
Context `{PriorityQueue, SC : Scripts, !ScriptsLaws SC, Settings}.

Lemma moves_retrieveSourceFileTimestamp a : moves quiet (retrieveSourceFileTimestamp a).
Proof.
  unfold retrieveSourceFileTimestamp. moves. apply moves_modify. intros e0.
  repeat case_match; by first [apply quiet_on_graph, keeps_heap, same_objects_upd_artifact|idtac].
Qed.
#[local] Hint Resolve moves_retrieveSourceFileTimestamp : moves.

Lemma moves_updateLeaves_impl fuel u seen : moves quiet (updateLeaves_impl fuel u seen).
Proof.
  revert u seen. induction fuel as [|fuel IH]; intros u seen; cbn [updateLeaves_impl]; [moves|].
  unfold touch. moves.
Qed.
#[local] Hint Resolve moves_updateLeaves_impl : moves.

Lemma moves_updateLeaves l : moves quiet (updateLeaves l).
Proof. unfold updateLeaves. moves. Qed.
#[local] Hint Resolve moves_updateLeaves : moves.

Lemma moves_initLeaves : moves quiet initLeaves.
Proof. unfold initLeaves. moves. Qed.

Lemma moves_finishNode u : moves quiet (finishNode u).
Proof. unfold finishNode. moves. Qed.
#[local] Hint Resolve moves_finishNode : moves.

Lemma moves_isUpToDate a : moves quiet (isUpToDate a).
Proof. unfold isUpToDate. moves. Qed.
#[local] Hint Resolve moves_isUpToDate : moves.

Lemma moves_checkOutputs l a b : moves quiet (checkOutputs l a b).
Proof. revert a b. induction l as [|x l IH]; intros a b; cbn [checkOutputs]; moves. Qed.
#[local] Hint Resolve moves_checkOutputs : moves.

Lemma moves_commandsNeedRerun t :
  moves quiet (onGraph (λ g, let '(b, g) := commandsNeedRerun t g in Ok (g, b))).
Proof.
  apply moves_onGraph. intros g g' x Hg. pose proof (commandsNeedRerun_keeps t g) as Hk.
  destruct (commandsNeedRerun t g) as [b g1]. by simplify_eq/=.
Qed.
#[local] Hint Resolve moves_commandsNeedRerun : moves.

Lemma moves_mustExecuteTransformer t : moves quiet (mustExecuteTransformer t).
Proof. unfold mustExecuteTransformer. moves. Qed.

Lemma moves_checkNodeProduct u : moves quiet (checkNodeProduct u).
Proof. unfold checkNodeProduct. moves. Qed.

Lemma moves_markedForRerun t f : moves quiet (modify (updTransformerData t (on_markedForRerun f)) : M unit).
Proof. by apply moves_updTransformerData. Qed.
#[local] Hint Resolve moves_markedForRerun : moves.

Lemma moves_finishTransformer t : moves quiet (finishTransformer t).
Proof. unfold finishTransformer. moves. Qed.

Lemma moves_updateOutput a : moves quiet (updateOutput a).
Proof. unfold updateOutput. moves. Qed.

Lemma moves_rescueFileDependencies a l : moves quiet (rescueFileDependencies a l).
Proof.
  induction l as [|p l IH]; cbn [rescueFileDependencies]; moves. by apply moves_upd_artifact.
Qed.
#[local] Hint Resolve moves_rescueFileDependencies : moves.

Lemma moves_rescueChild a p cd r : moves quiet (rescueChild a p cd r).
Proof. unfold rescueChild. moves. Qed.
#[local] Hint Resolve moves_rescueChild : moves.

Lemma moves_takeOver a t rad : moves quiet (modify (takeOver a t rad) : M unit).
Proof.
  apply moves_modify. intros e. unfold takeOver, setTimestamp. set (e1 := on_graph (on_heap _) e).
  set (e2 := on_graph (on_heap _) e1). trans e2; [trans e1|].
  - apply quiet_on_graph, keeps_heap. by apply same_objects_transformers.
  - apply quiet_on_graph, keeps_heap. by apply same_objects_upd_artifact.
  - by apply quiet_on_graph, keeps_transformerData.
Qed.
#[local] Hint Resolve moves_takeOver : moves.

Lemma moves_connectSafely u v : moves quiet (connectSafely u v).
Proof.
  apply moves_onGraph. intros g g' b Hg.
  destruct (safeConnect u v (heap g)) as [[b' h']|] eqn:E; simpl in Hg; simplify_eq.
  apply keeps_heap. by eapply same_objects_safeConnect.
Qed.
#[local] Hint Resolve moves_connectSafely : moves.

Lemma moves_addScannedChild a c : moves quiet (modify (addScannedChild a c) : M unit).
Proof. by apply moves_upd_artifact. Qed.
#[local] Hint Resolve moves_addScannedChild : moves.

Lemma moves_rescueOldBuildData a : moves quiet (rescueOldBuildData a).
Proof. unfold rescueOldBuildData. moves. Qed.

Lemma moves_scanForFileDependencies a i : moves quiet (onGraph (scanForFileDependencies a i)).
Proof. apply moves_onGraph. intros g g' x. apply scanForFileDependencies_keeps. Qed.
#[local] Hint Resolve moves_scanForFileDependencies : moves.

Lemma moves_disconnect u v : moves quiet (modify (on_graph (on_heap (disconnect u v))) : M unit).
Proof. apply moves_heap. intros h. apply same_objects_disconnect. Qed.
#[local] Hint Resolve moves_disconnect : moves.

Lemma moves_scan a : moves quiet (scan a).
Proof. unfold scan. moves. by apply moves_upd_artifact. Qed.

Lemma moves_checkForUnbuiltDependencies a : moves quiet (checkForUnbuiltDependencies a).
Proof. unfold checkForUnbuiltDependencies. moves. Qed.

Lemma moves_applyRuleNode r : moves quiet (onGraph (applyRuleNode r)).
Proof. apply moves_onGraph. intros g g' x. apply applyRuleNode_keeps. Qed.

(** *** The preparation of a build *)

Lemma moves_syncFileDependencies : moves quiet syncFileDependencies.
Proof.
  unfold syncFileDependencies. moves.
  - apply moves_modify. intros e. apply quiet_on_graph. by apply keeps_intro.
  - apply moves_heap. intros h. apply same_objects_removeFromLookupTable.
  - apply moves_modify. intros e. apply quiet_on_graph. by apply keeps_intro.
  - apply moves_heap. intros h. apply same_objects_fileDependencies.
Qed.

Lemma moves_prepareAllNodes : moves quiet prepareAllNodes.
Proof. unfold prepareAllNodes, prepareArtifact. moves. Qed.

Lemma moves_prepareProducts : moves quiet prepareProducts.
Proof. quiet_field. Qed.

Lemma moves_setupRootNodes : moves quiet setupRootNodes.
Proof. unfold setupRootNodes. moves; quiet_field. Qed.

Lemma moves_setupForBuildingSelectedFiles u : moves quiet (modify (setupForBuildingSelectedFiles u) : M unit).
Proof.
  apply moves_modify. intros e. unfold setupForBuildingSelectedFiles.
  repeat case_match; try done; by split.
Qed.
#[local] Hint Resolve moves_setupForBuildingSelectedFiles : moves.

Lemma moves_prepareReachableNodes_impl fuel u : moves quiet (prepareReachableNodes_impl fuel u).
Proof.
  revert u. induction fuel as [|fuel IH]; intros u; cbn [prepareReachableNodes_impl]; moves.
Qed.
#[local] Hint Resolve moves_prepareReachableNodes_impl : moves.

Lemma moves_prepareReachableNodes : moves quiet prepareReachableNodes.
Proof. unfold prepareReachableNodes. moves. Qed.

Lemma moves_setupFilesToConsider : moves quiet setupFilesToConsider.
Proof. unfold setupFilesToConsider. moves; quiet_field. Qed.

Lemma moves_checkProducts : moves quiet checkProducts.
Proof. unfold checkProducts. moves. Qed.

End Quiet.

#[export] Hint Resolve moves_retrieveSourceFileTimestamp moves_updateLeaves moves_initLeaves
  moves_finishNode moves_mustExecuteTransformer moves_checkNodeProduct moves_finishTransformer
  moves_updateOutput moves_rescueOldBuildData moves_scan moves_checkForUnbuiltDependencies
  moves_applyRuleNode moves_markedForRerun moves_syncFileDependencies moves_prepareAllNodes
  moves_prepareProducts moves_setupRootNodes moves_prepareReachableNodes moves_setupFilesToConsider
  moves_checkProducts : moves.
