(* ===== verification/ExecutorJobs.v ===== *)
(** * The jobs of the executor

    In every state of a build each job is either available or runs a transformer,
    the job counts are those of the jobs that run, and the job limits of the
    products of running transformers are respected. *)

From S2P Require Import Prelude FlatSet BuildGraph BuildGraphCorrect ArtifactRemoval RuleGraph JobLimits.
From S2P Require Import StateMonad ExecutorJob ExecutorState Executor ExecutorFrame.

Create HintDb goes_on.

(** ** The invariant *)

Definition poolsOf (g : Graph) (t : nat) : list str := jobPools (default [] (commandsOf g t)).

Lemma transformerPools_graph e t : transformerPools e t = poolsOf (graph e) t.
Proof.
  unfold transformerPools, poolsOf, transformerDataOf, commandsOf.
  by destruct (transformerData (graph e) !! t).
Qed.

(** The jobs that run a transformer with the pool [p]. *)
Definition running (g : Graph) (processing : gmap nat nat) (p : str) : gmap nat nat :=
  filter (λ jt, p ∈ poolsOf g jt.2) processing.

(** What the job [j] does that has been given the transformer [t]: it runs one of
    its commands, or its signal is queued. *)
Definition busy (e : Executor) (j t : nat) : Prop :=
  (∃ cs i canceled job, commandsOf (graph e) t = Some cs ∧ jobs e !! j = Some job ∧
     runsCommand (mkJobTransformer t cs) i canceled job ∧ j ∉ (finishedSignals e).*1) ∨
  (is_Some (commandsOf (graph e) t) ∧ jobs e !! j = Some resetJob ∧ j ∈ (finishedSignals e).*1).

Record jobs_ok (n : nat) (e : Executor) : Prop := {
  jo_transformers : transformers_ok (graph e);
  jo_available : NoDup (m_availableJobs e);
  jo_disjoint j : j ∈ m_availableJobs e → m_processingJobs e !! j = None;
  jo_total : length (m_availableJobs e) + size (m_processingJobs e) = n;
  jo_idle j : j ∈ m_availableJobs e → jobs e !! j = Some resetJob ∧ j ∉ (finishedSignals e).*1;
  jo_known j : is_Some (jobs e !! j) → j ∈ m_availableJobs e ∨ is_Some (m_processingJobs e !! j);
  jo_busy j t : m_processingJobs e !! j = Some t → busy e j t;
  jo_signals : NoDup (finishedSignals e).*1 ∧
    ∀ j, j ∈ (finishedSignals e).*1 → is_Some (m_processingJobs e !! j);
  jo_counts p : jobCount e p = Z.of_nat (size (running (graph e) (m_processingJobs e) p))
}.

(** A limit of the product of the transformer [t] for the pool [p]. *)
Definition limitFor (e : Executor) (t : nat) (p : str) (n : Z) : Prop :=
  ∃ q ls, productOfTransformer (graph e) t = Some q ∧ m_jobLimitsPerProduct e !! q = Some ls ∧
    n = getLimit ls p ∧ (0 < n)%Z.

(** The job [j] runs commands of the transformer [t], with the job pool [p]. *)
Definition occupies (e : Executor) (j t : nat) (p : str) : Prop :=
  ∃ job jt, jobs e !! j = Some job ∧ m_transformer job = Some jt ∧ jt_transformer jt = t ∧
    p ∈ m_jobPools job.

Definition limits_ok (e : Executor) : Prop :=
  ∀ j t p n, occupies e j t p → limitFor e t p n → (jobCount e p ≤ n)%Z.

Definition state_ok (e : Executor) : Prop :=
  (m_state e = ExecutorIdle → m_processingJobs e = ∅) ∧
  (finishPosted e = true → m_processingJobs e = ∅).

Section Jobs.
Context `{PQ : PriorityQueue, SC : Scripts, !ScriptsLaws SC, ST : Settings}.

(** The number of jobs. *)
Context (n : nat).

Record executor_ok (e : Executor) : Prop := {
  eo_jobs : jobs_ok n e;
  eo_limits : limits_ok e;
  eo_state : state_ok e
}.

(** ** Quiet functions keep the invariant *)

Lemma occupies_busy e j t p :
  jobs_ok n e → occupies e j t p →
  m_processingJobs e !! j = Some t ∧ p ∈ poolsOf (graph e) t ∧ is_Some (commandsOf (graph e) t).
Proof.
  intros J (job & jt & Hj & Ht & <- & Hp).
  destruct (jo_known _ _ J j) as [Ha|[t Hpr]]; [by exists job|..].
  { destruct (jo_idle _ _ J j Ha) as [Hr _]. by rewrite Hr in Hj; simplify_eq. }
  destruct (jo_busy _ _ J j t Hpr) as [(cs & i & c & job' & Hc & Hj' & [_ ->] & _)|(_ & Hr & _)].
  - rewrite Hj' in Hj. simplify_eq/=. split; [done|]. unfold poolsOf. rewrite Hc. eauto.
  - by rewrite Hr in Hj; simplify_eq.
Qed.

Lemma poolsOf_keeps g g' t : keeps g g' → is_Some (commandsOf g t) → poolsOf g' t = poolsOf g t.
Proof. intros K [cs Hcs]. unfold poolsOf. by rewrite (ks_commands _ _ K t cs Hcs), Hcs. Qed.

Lemma busy_commands e j t : busy e j t → is_Some (commandsOf (graph e) t).
Proof. intros [(cs & ? & ? & ? & -> & _)|[? _]]; by eauto. Qed.

Lemma running_keeps g g' (m : gmap nat nat) p :
  keeps g g' → (∀ j t, m !! j = Some t → is_Some (commandsOf g t)) → running g' m p = running g m p.
Proof.
  intros K Hm. unfold running. apply map_filter_ext. intros j t Ht. simpl.
  by rewrite (poolsOf_keeps g g') by eauto.
Qed.

Lemma jobCount_counts e e' p :
  m_jobCountPerPool e' = m_jobCountPerPool e → jobCount e' p = jobCount e p.
Proof. unfold jobCount. by intros ->. Qed.

Lemma busy_quiet e e' j t : quiet e e' → busy e j t → busy e' j t.
Proof.
  intros Q [(cs & i & c & job & Hc & Hj & Hr & Hs)|([cs Hc] & Hj & Hs)].
  - left. exists cs, i, c, job. rewrite (q_jobs _ _ Q), (q_signals _ _ Q).
    split_and!; [by apply (q_graph _ _ Q)|done..].
  - right. rewrite (q_jobs _ _ Q), (q_signals _ _ Q).
    split; [exists cs; by apply (q_graph _ _ Q)|done].
Qed.

Lemma jobs_ok_quiet e e' : quiet e e' → jobs_ok n e → jobs_ok n e'.
Proof.
  intros Q J. destruct J as [JT JA JD JN JI JK JB JS JC].
  pose proof (q_graph _ _ Q) as K. destruct Q eqn:EQ. split; rewrite ?q_available, ?q_processing,
    ?q_jobs, ?q_signals; try done.
  - by apply K.
  - intros j t Ht. eapply busy_quiet; [done|]. by apply JB.
  - intros p. rewrite (jobCount_counts e) by done. rewrite JC. f_equal. f_equal. symmetry.
    apply running_keeps; [done|]. intros j t Ht. by eapply busy_commands, JB.
Qed.

Lemma limitFor_quiet e e' t p k :
  quiet e e' → is_Some (commandsOf (graph e) t) → limitFor e' t p k → limitFor e t p k.
Proof.
  intros Q Ht (q & ls & Hq & Hl & Hn). exists q, ls. split; [by apply (q_graph _ _ Q)|].
  by rewrite <-(q_limits _ _ Q).
Qed.

Lemma executor_ok_quiet e e' : quiet e e' → executor_ok e → executor_ok e'.
Proof.
  intros Q [J L [S1 S2]]. split.
  - by eapply jobs_ok_quiet.
  - intros j t p l Ho Hl. rewrite (jobCount_counts e) by apply Q.
    assert (occupies e j t p) as Ho'.
    { destruct Ho as (job & jt & Hj & ?). exists job, jt. by rewrite <-(q_jobs _ _ Q). }
    apply (L j t p l Ho'). eapply limitFor_quiet; [done| |done]. by eapply occupies_busy.
  - unfold state_ok. by rewrite (q_state _ _ Q), (q_processing _ _ Q), (q_posted _ _ Q).
Qed.

(** [m] keeps the invariant, however it ends. *)
Definition keeps_ok {A} (m : M A) : Prop := moves (preserves executor_ok) m.

Lemma keeps_ok_quiet {A} (m : M A) : moves quiet m → keeps_ok m.
Proof. intros Hm e He. eapply executor_ok_quiet; [apply Hm|done]. Qed.

(** ** Job counts *)

Lemma jobPools_NoDup cs : NoDup (jobPools cs).
Proof.
  assert (∀ l, ssorted str_ltb l → ssorted str_ltb
    (foldl (λ pools c, if is_nil c then pools else (set_insert str_ltb pools c).1) l cs)) as Hs.
  { induction cs as [|c cs IH]; intros l Hl; simpl; [done|]. apply IH. case_match; [done|].
    by apply set_insert_sorted. }
  eapply ssorted_NoDup, Hs. constructor.
Qed.

Lemma updateJobCounts_eq t d e :
  updateJobCounts t d e =
    on_m_jobCountPerPool (λ m, foldl (λ m p,
      partial_alter (λ n, Some (default 0%Z n + d)%Z) p m) m (poolsOf (graph e) t)) e.
Proof.
  unfold updateJobCounts. rewrite transformerPools_graph. generalize (poolsOf (graph e) t) as l.
  intros l. revert e. induction l as [|p l IH]; intros e; simpl; [by destruct e|]. by rewrite IH.
Qed.

Lemma jobCount_update t d e p :
  jobCount (updateJobCounts t d e) p =
    (jobCount e p + if bool_decide (p ∈ poolsOf (graph e) t) then d else 0)%Z.
Proof.
  rewrite updateJobCounts_eq. unfold jobCount. cbn [on_m_jobCountPerPool m_jobCountPerPool].
  generalize (jobPools_NoDup (default [] (commandsOf (graph e) t))). fold (poolsOf (graph e) t).
  generalize (m_jobCountPerPool e) as m. induction (poolsOf (graph e) t) as [|x l IH];
    intros m Hn; cbn [foldl].
  { rewrite bool_decide_eq_false_2 by apply not_elem_of_nil. lia. }
  apply NoDup_cons in Hn as [Hx Hn]. rewrite IH by done.
  destruct (decide (p = x)) as [->|Hne].
  - rewrite lookup_partial_alter_eq, bool_decide_eq_false_2, bool_decide_eq_true_2
      by (done || left). simpl. lia.
  - rewrite lookup_partial_alter_ne by done. f_equal.
    rewrite (bool_decide_ext (p ∈ l) (p ∈ x :: l)); [done|].
    rewrite elem_of_cons. naive_solver.
Qed.

Lemma size_running_insert g m j t p :
  m !! j = None →
  size (running g (<[j := t]> m) p) =
    size (running g m p) + if bool_decide (p ∈ poolsOf g t) then 1 else 0.
Proof.
  intros Hj. unfold running. rewrite map_filter_insert. simpl.
  assert (filter (λ jt : nat * nat, p ∈ poolsOf g jt.2) m !! j = None) as Hn.
  { apply map_lookup_filter_None. by left. }
  case_bool_decide as Hp.
  - rewrite decide_True by done. rewrite map_size_insert_None by done. lia.
  - rewrite decide_False by done. rewrite delete_id by done. lia.
Qed.

Lemma size_running_delete g m j t p :
  m !! j = Some t →
  size (running g m p) =
    size (running g (delete j m) p) + if bool_decide (p ∈ poolsOf g t) then 1 else 0.
Proof.
  intros Hj. rewrite <-(insert_delete_id m j t Hj) at 1. apply size_running_insert.
  by apply lookup_delete_eq.
Qed.

(** ** The job limits allow a transformer *)

Definition notBlocked (e : Executor) (t : nat) : Prop :=
  ∀ p u k, p ∈ poolsOf (graph e) t → jobCount e p ≠ 0%Z →
    u = t ∨ (∃ j, occupies e j u p) → limitFor e u p k → (jobCount e p < k)%Z.

Lemma jobLimitIsExceeded_false e c p u k :
  jobLimitIsExceeded e c p u = Ok false → limitFor e u p k → (c < k)%Z.
Proof.
  unfold jobLimitIsExceeded. rewrite transformerProduct_graph. intros H (q & ls & Hq & Hl & -> & Hn).
  rewrite Hq, Hl in H. injection H as H. apply andb_false_iff in H as [H|H].
  - apply Z.ltb_ge in H. lia.
  - apply Z.leb_gt in H. lia.
Qed.

Lemma exceededByRunning_false e c p t l j u k :
  exceededByRunning e c p t l = Ok false → j ∈ l → occupies e j u p →
  productOfTransformer (graph e) u ≠ productOfTransformer (graph e) t → limitFor e u p k →
  (c < k)%Z.
Proof.
  intros H Hj (job & jt & Hjob & Ht & Hu & Hp) Hne Hl. induction l as [|j' l IH]; simpl in H;
    [by apply elem_of_nil in Hj|].
  destruct (decide (j = j')) as [<-|Hjj].
  - rewrite Hjob in H. simpl in H. unfold containsStr in H. rewrite bool_decide_eq_true_2 in H by done.
    simpl in H. rewrite Ht, Hu, !transformerProduct_graph, bool_decide_eq_false_2 in H by done.
    destruct (jobLimitIsExceeded e c p u) as [[]|] eqn:E; simpl in H; try done.
    by eapply jobLimitIsExceeded_false.
  - apply elem_of_cons in Hj as [?|Hj]; [done|]. apply IH; [|done].
    repeat (case_match; simpl in H; try done).
    destruct (jobLimitIsExceeded _ _ _ _) as [[]|]; simpl in H; done.
Qed.

Lemma blockedByPools_false e t :
  jobs_ok n e → blockedByPools e t (poolsOf (graph e) t) = Ok false → notBlocked e t.
Proof.
  intros J H p u k Hp Hc Hu Hl. revert H Hp. generalize (poolsOf (graph e) t) as l.
  induction l as [|p' l IH]; simpl; intros H Hp; [by apply elem_of_nil in Hp|].
  destruct (decide (p = p')) as [<-|Hne].
  - rewrite (proj2 (Z.eqb_neq _ _) Hc) in H.
    destruct (jobLimitIsExceeded e (jobCount e p) p t) as [[]|] eqn:E1; simpl in H; try done.
    destruct Hu as [->|[j Hj]]; [by eapply jobLimitIsExceeded_false|].
    destruct (exceededByRunning _ _ _ _ _) as [[]|] eqn:E2; simpl in H; try done.
    destruct (decide (productOfTransformer (graph e) u = productOfTransformer (graph e) t)) as [Eq|Eq].
    + apply (jobLimitIsExceeded_false _ _ _ _ k E1). destruct Hl as (q & ls & Hq & ?).
      exists q, ls. by rewrite <-Eq.
    + eapply exceededByRunning_false; [exact E2| |exact Hj|exact Eq|exact Hl].
      destruct (occupies_busy e j u p J Hj) as [Hpr _].
      apply list_elem_of_fmap. exists (j, u). split; [done|]. by apply elem_of_map_to_list.
  - apply elem_of_cons in Hp as [?|Hp]; [done|]. apply IH; [|done].
    destruct (jobCount e p' =? 0)%Z; [done|].
    destruct (jobLimitIsExceeded _ _ p' _) as [[]|]; simpl in H; try done.
    destruct (exceededByRunning _ _ _ _ _) as [[]|]; simpl in H; done.
Qed.

Lemma notBlocked_quiet e e' t :
  jobs_ok n e → quiet e e' → is_Some (commandsOf (graph e) t) → notBlocked e t → notBlocked e' t.
Proof.
  intros J Q Ht Hb p u k Hp Hc Hu Hl. rewrite (poolsOf_keeps (graph e)) in Hp by (apply Q || done).
  rewrite (jobCount_counts e) in * by apply Q.
  assert (u = t ∨ ∃ j, occupies e j u p) as Hu'.
  { destruct Hu as [->|(j & job & jt & Hj & Hr)]; [by left|]. right. exists j, job, jt.
    by rewrite <-(q_jobs _ _ Q). }
  apply (Hb p u k Hp Hc Hu'). eapply limitFor_quiet; [done| |done].
  destruct Hu' as [->|[j Hj]]; [done|]. by eapply occupies_busy.
Qed.

(** ** Starting a job *)

(** From [e] to [e'] the first available job is given the transformer [t]. *)
Record starts (e : Executor) (j t : nat) (cs : list str) (e' : Executor) : Prop := {
  st_graph : keeps (graph e) (graph e');
  st_available : m_availableJobs e = j :: m_availableJobs e';
  st_processing : m_processingJobs e' = <[j := t]> (m_processingJobs e);
  st_jobs : jobs e' = <[j := (run (mkJobTransformer t cs) resetJob).2]> (jobs e);
  st_signals : finishedSignals e' =
    finishedSignals e ++ (pair j <$> option_list (run (mkJobTransformer t cs) resetJob).1);
  st_counts p : jobCount e' p =
    (jobCount e p + if bool_decide (p ∈ poolsOf (graph e) t) then 1 else 0)%Z;
  st_limits : m_jobLimitsPerProduct e' = m_jobLimitsPerProduct e;
  st_state : m_state e' = m_state e;
  st_posted : finishPosted e' = finishPosted e
}.

(** A job that is run has ended at once, or runs its first command. *)
Lemma run_idle t cs :
  (cs = [] ∧ run (mkJobTransformer t cs) resetJob = (Some false, resetJob)) ∨
  (∃ job, run (mkJobTransformer t cs) resetJob = (None, job) ∧
     runsCommand (mkJobTransformer t cs) 0 false job).
Proof.
  destruct cs as [|c cs]; [by left|right].
  set (job := run (mkJobTransformer t (c :: cs)) resetJob).
  exists job.2. unfold job, run. cbn [resetJob m_currentCommandIdx jt_commands m_running m_error].
  cbn [negb Z.eqb is_nil]. rewrite runNextCommand_step by (simpl; lia).
  rewrite (proj2 (Z.eqb_neq _ _)) by (simpl; lia). split; [done|]. split; [simpl; lia|done].
Qed.

Section Starts.
Context (e e' : Executor) (j t : nat) (cs : list str).
Hypothesis J : jobs_ok n e.
Hypothesis Hcs : commandsOf (graph e) t = Some cs.
Hypothesis S : starts e j t cs e'.

Lemma starts_in_available : j ∈ m_availableJobs e.
Proof. rewrite (st_available _ _ _ _ _ S). left. Qed.

Lemma starts_not_processing : m_processingJobs e !! j = None.
Proof. apply (jo_disjoint _ _ J), starts_in_available. Qed.

Lemma starts_not_signalled : j ∉ (finishedSignals e).*1.
Proof. by apply (jo_idle _ _ J), starts_in_available. Qed.

Lemma starts_signals j' :
  j' ∈ (finishedSignals e').*1 ↔
  j' ∈ (finishedSignals e).*1 ∨ (j' = j ∧ cs = []).
Proof.
  rewrite (st_signals _ _ _ _ _ S), fmap_app, elem_of_app. f_equiv.
  destruct (run_idle t cs) as [[-> ->]|(job & -> & [Hi _])]; simpl.
  - rewrite list_elem_of_singleton. naive_solver.
  - rewrite elem_of_nil. split; [done|]. intros [_ ->]. simpl in Hi. lia.
Qed.

Lemma starts_busy j' t' :
  m_processingJobs e' !! j' = Some t' → busy e' j' t'.
Proof.
  rewrite (st_processing _ _ _ _ _ S). intros [[<- <-]|[Hne Hp]]%lookup_insert_Some.
  - unfold busy. rewrite (st_jobs _ _ _ _ _ S), lookup_insert_eq.
    pose proof (ks_commands _ _ (st_graph _ _ _ _ _ S) _ _ Hcs) as Hcs'.
    pose proof starts_not_signalled as Hs.
    destruct (run_idle t cs) as [[Hnil ->]|(job & -> & Hr)].
    + right. rewrite starts_signals. split_and!; [by exists cs|done|by right].
    + left. exists cs, 0, false, job. split; [done|]. split; [done|]. split; [done|].
      rewrite starts_signals. destruct Hr as [Hi _]. intros [?|[_ Hnil]]; [done|]. rewrite Hnil in Hi. simpl in Hi. lia.
  - unfold busy. rewrite (st_jobs _ _ _ _ _ S), lookup_insert_ne by done.
    destruct (jo_busy _ _ J j' t' Hp) as [(cs' & i & c & job & Hc & Hj & Hr & Hs)|([cs' Hc] & Hj & Hs)].
    + left. exists cs', i, c, job. split; [by apply (st_graph _ _ _ _ _ S)|].
      split; [done|]. split; [done|]. rewrite starts_signals. intros [?|[? _]]; done.
    + right. rewrite starts_signals. split; [exists cs'; by apply (st_graph _ _ _ _ _ S)|]. split; [done|by left].
Qed.

Lemma starts_available_rest :
  (j ∉ m_availableJobs e') ∧ NoDup (m_availableJobs e') ∧
  ∀ j', j' ∈ m_availableJobs e' → j' ∈ m_availableJobs e ∧ j' ≠ j.
Proof.
  pose proof (jo_available _ _ J) as Hnd. rewrite (st_available _ _ _ _ _ S) in Hnd.
  apply NoDup_cons in Hnd as [Hn Hnd]. split_and!; [done..|]. intros j' Hj'.
  rewrite (st_available _ _ _ _ _ S). split; [by right|]. by intros ->.
Qed.

Lemma starts_jobs_ok : jobs_ok n e'.
Proof.
  destruct starts_available_rest as (Hja & Hnd & Hrest).
  pose proof starts_not_processing as Hj. pose proof starts_signals as HS.
  pose proof (st_available _ _ _ _ _ S) as Ha. pose proof (st_processing _ _ _ _ _ S) as Hp.
  pose proof (st_jobs _ _ _ _ _ S) as Hjobs. destruct (jo_signals _ _ J) as [Hsn Hsp].
  split.
  - apply (st_graph _ _ _ _ _ S), J.
  - done.
  - intros j' [Hj' Hne]%Hrest. rewrite Hp, lookup_insert_ne by done. by apply (jo_disjoint _ _ J).
  - rewrite Hp, map_size_insert_None by done. pose proof (jo_total _ _ J) as Ht.
    rewrite Ha in Ht. simpl in Ht. lia.
  - intros j' [Hj' Hne]%Hrest. rewrite Hjobs, lookup_insert_ne, HS by done.
    destruct (jo_idle _ _ J j' Hj') as [Hr Hs]. split; [done|]. intros [?|[? _]]; done.
  - intros j'. rewrite Hjobs, Hp. destruct (decide (j = j')) as [->|Hne].
    + right. by rewrite lookup_insert_eq.
    + rewrite !lookup_insert_ne by done. intros [Hj'|?]%(jo_known _ _ J); [left|by right].
      rewrite Ha in Hj'. by apply elem_of_cons in Hj' as [->|?].
  - apply starts_busy.
  - split.
    + rewrite (st_signals _ _ _ _ _ S), fmap_app. apply NoDup_app. split_and!; [done| |].
      * intros j' Hj' Hin. destruct (run_idle t cs) as [[_ E]|(job & E & _)]; rewrite E in Hin;
          simpl in Hin; [|by apply elem_of_nil in Hin].
        apply list_elem_of_singleton in Hin as ->. by apply starts_not_signalled.
      * destruct (run_idle t cs) as [[_ ->]|(job & -> & _)]; simpl; [apply NoDup_singleton|constructor].
    + intros j'. rewrite HS, Hp. destruct (decide (j = j')) as [->|Hne];
        [by rewrite lookup_insert_eq|]. rewrite lookup_insert_ne by done.
      intros [?|[? _]]; [by apply Hsp|done].
  - intros p. rewrite (st_counts _ _ _ _ _ S), (jo_counts _ _ J), Hp.
    assert (∀ j' t', <[j := t]> (m_processingJobs e) !! j' = Some t' →
      is_Some (commandsOf (graph e) t')) as Hcommands.
    { intros j' t' [[_ <-]|[_ Ht]]%lookup_insert_Some; [by eexists|]. by eapply busy_commands, (jo_busy _ _ J). }
    rewrite (running_keeps (graph e) (graph e')) by (apply S || done).
    rewrite size_running_insert by done. case_bool_decide; lia.
Qed.

Hypothesis Hb : notBlocked e t.
Hypothesis L : limits_ok e.

Lemma starts_limits_ok : limits_ok e'.
Proof.
  intros j' u p k Ho Hl. rewrite (st_counts _ _ _ _ _ S).
  assert (0 < k)%Z as Hk by (by destruct Hl as (? & ? & _ & _ & _ & ?)).
  assert (0 ≤ jobCount e p)%Z as Hc by (rewrite (jo_counts _ _ J); lia).
  assert (is_Some (commandsOf (graph e) u) → limitFor e u p k) as Hl'.
  { intros Hu. destruct Hl as (q & ls & Hq & Hls & Hn). exists q, ls.
    split; [by apply (st_graph _ _ _ _ _ S)|]. by rewrite <-(st_limits _ _ _ _ _ S). }
  assert ((j' = j ∧ u = t ∧ p ∈ poolsOf (graph e) t) ∨ occupies e j' u p) as [(-> & -> & Hp)|Ho'].
  { destruct Ho as (job & jt & Hjob & Htr & Hu & Hp).
    rewrite (st_jobs _ _ _ _ _ S) in Hjob. apply lookup_insert_Some in Hjob as [[<- Hjob]|[Hne Hjob]].
    - left. destruct (run_idle t cs) as [[_ E]|(job' & E & [_ ->])]; rewrite E in Hjob; simplify_eq/=.
      unfold poolsOf. by rewrite Hcs.
    - right. by exists job, jt. }
  - rewrite bool_decide_eq_true_2 by done.
    destruct (decide (jobCount e p = 0%Z)) as [->|Hz]; [lia|].
    pose proof (Hb p t k Hp Hz (or_introl eq_refl) (Hl' ltac:(by eexists))). lia.
  - destruct (occupies_busy _ _ _ _ J Ho') as (_ & _ & Hu). specialize (Hl' Hu).
    case_bool_decide as Hp; [|pose proof (L j' u p k Ho' Hl'); lia].
    destruct (decide (jobCount e p = 0%Z)) as [->|Hz]; [lia|].
    pose proof (Hb p u k Hp Hz (or_intror (ex_intro _ j' Ho')) Hl'). lia.
Qed.
End Starts.

(** ** Running a transformer *)

(** A build that goes on. *)
Definition live (e : Executor) : Prop :=
  executor_ok e ∧ m_state e = ExecutorRunning ∧ finishPosted e = false.

(** The job limits allow a job of the transformer [t]. *)
Definition ready (t : nat) (e : Executor) : Prop :=
  live e ∧ notBlocked e t ∧ is_Some (commandsOf (graph e) t).

Lemma live_quiet e e' : quiet e e' → live e → live e'.
Proof.
  intros Q (Hok & Hs & Hp). split; [by eapply executor_ok_quiet|].
  by rewrite (q_state _ _ Q), (q_posted _ _ Q).
Qed.

Lemma ready_quiet t e e' : quiet e e' → ready t e → ready t e'.
Proof.
  intros Q (Hl & Hb & [cs Hcs]). split; [by eapply live_quiet|]. destruct Hl as [[J _ _] _].
  split; [by eapply notBlocked_quiet; eauto|]. exists cs. by apply (q_graph _ _ Q).
Qed.

Lemma starts_live e j t cs e' :
  ready t e → commandsOf (graph e) t = Some cs → starts e j t cs e' → live e'.
Proof.
  intros (([J L Hst] & Hs & Hp) & Hb & _) Hcs S.
  unfold live. rewrite (st_state _ _ _ _ _ S), (st_posted _ _ _ _ _ S), Hs, Hp. split; [|done].
  split.
  - by eapply starts_jobs_ok.
  - by eapply starts_limits_ok.
  - unfold state_ok. by rewrite (st_state _ _ _ _ _ S), (st_posted _ _ _ _ _ S), Hs, Hp.
Qed.

(** A function that needs [P] leaves the build going, also when it throws. *)
Definition goes_on {A} (P : Executor → Prop) (m : M A) : Prop :=
  triple P m (λ _, live) (λ _, live).

Lemma goes_on_live {A} (m : M A) : moves quiet m → goes_on live m.
Proof.
  intros Hm e He. specialize (Hm e). destruct (m e) as [[a|x] e']; simpl in *; by eapply live_quiet.
Qed.

Lemma goes_on_quiet {A} t (m : M A) : moves quiet m → goes_on (ready t) m.
Proof.
  intros Hm e [He _]. by apply (goes_on_live m Hm).
Qed.

Lemma goes_on_bind {A B} t (m : M A) (k : A → M B) :
  moves quiet m → (∀ a, goes_on (ready t) (k a)) → goes_on (ready t) (m ≫= k).
Proof.
  intros Hm Hk. eapply triple_bind; [|exact Hk]. intros e He. specialize (Hm e).
  destruct (m e) as [[a|x] e']; simpl in *; [by eapply ready_quiet|].
  destruct He as [He _]. by eapply live_quiet.
Qed.

Lemma forM_modify {S E A} (f : A → S → S) l (s : S) :
  forM l (λ x, modify (f x)) s = (@Ok E _ tt, foldl (λ s x, f x s) s l).
Proof. revert s. induction l as [|x l IH]; intros s; [done|]. apply IH. Qed.

Lemma foldl_setBuildState s l e :
  foldl (λ e a, setBuildState a s e) e l =
    on_buildStates (λ m, foldl (λ m a, <[a := s]> m) m l) e.
Proof.
  revert e. induction l as [|a l IH]; intros e; simpl; [by destruct e|]. by rewrite IH.
Qed.

(** What [runTransformer] does when it has a job. *)
Definition giveJob (t : nat) (outputs available : list nat) (j : nat) : M unit :=
  _ ← modify (on_m_availableJobs (λ _, available));
  _ ← forM outputs (λ a, modify (setBuildState a Building));
  _ ← modify (on_m_processingJobs (insert j t));
  _ ← modify (updateJobCounts t 1);
  startJob j t.

Lemma starts_giveJob e j t cs outputs available :
  live e → m_availableJobs e = j :: available → commandsOf (graph e) t = Some cs →
  ∃ e', giveJob t outputs available j e = (Ok tt, e') ∧ starts e j t cs e'.
Proof.
  intros ([J _ _] & _ & _) Ha Hcs. unfold giveJob, startJob.
  unfold mbind at 1, st_bind at 1, modify at 1. unfold mbind at 1, st_bind at 1.
  rewrite forM_modify, foldl_setBuildState.
  set (e1 := on_buildStates _ (on_m_availableJobs _ e)).
  unfold mbind, st_bind, modify, gets, when. rewrite updateJobCounts_eq.
  set (e2 := on_m_jobCountPerPool _ _).
  assert (commands (transformerDataOf e2 t) = cs) as ->.
  { unfold transformerDataOf. revert Hcs. unfold commandsOf. simpl.
    destruct (transformerData (graph e) !! t); simpl; intros; by simplify_eq. }
  assert (jobs e !! j = Some resetJob) as Hj.
  { apply (jo_idle _ _ J). rewrite Ha. left. }
  assert (∀ p, jobCount e2 p =
    (jobCount e p + if bool_decide (p ∈ poolsOf (graph e) t) then 1 else 0)%Z) as Hc.
  { intros p. rewrite <-jobCount_update, updateJobCounts_eq. done. }
  assert (∀ g, keeps (graph e2) g → starts e j t cs
    (emitFinished j (run (mkJobTransformer t cs) resetJob) (on_graph (λ _, g) e2))) as Hst.
  { intros g Hg. unfold emitFinished.
    destruct (run_idle t cs) as [[_ E]|(job & E & _)];
      (split; rewrite ?E; cbn [fst snd option_list fmap list_fmap]; try done); by rewrite app_nil_r. }
  destruct (is_nil cs); simpl; eexists; (split; [reflexivity|]); rewrite Hj; simpl.
  - by apply (Hst (graph e2)).
  - apply (Hst (on_heap _ (graph e2))), keeps_heap. by apply same_objects_transformers.
Qed.

Lemma goes_on_gets {A} P (k : Executor → M A) :
  (∀ e, P e → ∃ P', P' e ∧ goes_on P' (k e)) → goes_on P (gets id ≫= k).
Proof. intros Hk e He. destruct (Hk e He) as (P' & HP & Hm). by apply Hm. Qed.

(** A function that only reads. *)
Lemma goes_on_reads {A B} P e (m : M A) (k : A → M B) :
  moves eq m → P e → (∀ e, P e → live e) → (∀ a, goes_on (eq e) (k a)) → goes_on (eq e) (m ≫= k).
Proof.
  intros Hm He HP Hk. eapply (triple_bind _ _ _ (λ _, eq e)); [|exact Hk].
  intros e' <-. specialize (Hm e). destruct (m e) as [[a|x] e']; simpl in Hm; subst e'; [done|].
  by apply HP.
Qed.

Lemma runTransformer_live t : goes_on (ready t) (runTransformer t).
Proof.
  apply goes_on_gets. intros e He. exists (eq e). split; [done|].
  apply (goes_on_reads (ready t)); [moves|done|by intros ? []|]. intros _ e' <-.
  destruct (m_availableJobs e) as [|j available] eqn:Ha; [by destruct He|].
  destruct He as (Hl & Hb & [cs Hcs]).
  destruct (starts_giveJob e j t cs (transformer_outputs (transformerOf e t)) available Hl Ha Hcs)
    as (e' & E & S). unfold giveJob in E. rewrite E.
  eapply starts_live; [|done..]. split_and!; [done..|by exists cs].
Qed.

#[local] Hint Resolve runTransformer_live : goes_on.

Ltac goes_on :=
  repeat first
    [ progress intros
    | solve [auto with goes_on]
    | solve [apply goes_on_quiet; moves]
    | apply goes_on_bind; [solve [moves]|]
    | match goal with |- goes_on _ (match ?x with _ => _ end) => destruct x eqn:? end ].

Lemma potentiallyRunTransformer_live t : goes_on (ready t) (potentiallyRunTransformer t).
Proof. unfold potentiallyRunTransformer. goes_on. Qed.
#[local] Hint Resolve potentiallyRunTransformer_live : goes_on.

(** The job limits are checked before an artifact is built. *)
Lemma schedulingBlockedByJobLimit_ready e a x t :
  live e → as_artifact (heapOf e) a = Some x → artifactType x = Generated → transformer x = Some t →
  schedulingBlockedByJobLimit e a = Ok false → ready t e.
Proof.
  intros Hl Ha Hx Ht. unfold schedulingBlockedByJobLimit. rewrite Ha, Hx, Ht. simpl. intros Hb.
  pose proof Hl as [[J _ _] _]. split; [done|]. split.
  - rewrite transformerPools_graph in Hb. by eapply blockedByPools_false.
  - by eapply (jo_transformers _ _ J).
Qed.

Lemma buildArtifact_live a :
  goes_on (λ e, live e ∧ isArtifact (heapOf e) a = true ∧
             schedulingBlockedByJobLimit e a = Ok false) (buildArtifact a).
Proof.
  unfold buildArtifact. apply goes_on_gets. intros e (Hl & Ha & Hb). apply as_artifact_artifactOf in Ha.
  destruct (decide (artifactType (artifactOf (heapOf e) a) = Generated)) as [Hx|Hx].
  2: { exists live. split; [done|]. apply goes_on_live. cbn zeta.
       rewrite (bool_decide_eq_false_2 _ Hx). moves. }
  destruct (transformer (artifactOf (heapOf e) a)) as [t|] eqn:Ht.
  2: { exists live. split; [done|]. apply goes_on_live. moves. }
  exists (ready t). split; [by eapply schedulingBlockedByJobLimit_ready|].
  goes_on.
Qed.

Lemma visit_live u :
  goes_on (λ e, live e ∧ schedulingBlockedByJobLimit e u = Ok false) (visit u).
Proof.
  unfold visit. apply goes_on_gets. intros e [Hl Hb].
  exists (eq e). split; [done|]. apply (goes_on_reads live); [apply moves_lift, _|done|done|].
  intros []. destruct (isArtifact (heapOf e) u) eqn:Hu; intros e' <-.
  - by apply buildArtifact_live.
  - apply (goes_on_live (executeRuleNode u)); [unfold executeRuleNode; moves|done].
Qed.

(** ** No function takes a job away from its transformer *)

Definition grows (e e' : Executor) : Prop :=
  m_processingJobs e ≠ ∅ → m_processingJobs e' ≠ ∅.

#[local] Instance grows_preorder : PreOrder grows.
Proof. split; [by intros e H|]. intros e1 e2 e3 H1 H2 H. by apply H2, H1. Qed.

Lemma grows_quiet {A} (m : M A) : moves quiet m → moves grows m.
Proof. intros Hm e. unfold grows. by rewrite (q_processing _ _ (Hm e)). Qed.

Ltac grows :=
  repeat first
    [ progress intros
    | solve [auto with goes_on]
    | solve [apply grows_quiet; moves]
    | apply moves_bind; [apply _| |]
    | match goal with |- moves _ (match ?x with _ => _ end) => destruct x eqn:? end ].

Lemma grows_startJob j t : moves grows (startJob j t).
Proof.
  unfold startJob. grows.
  - apply grows_quiet, moves_when; [apply _|]. intros _. apply moves_heap. intros h.
    by apply same_objects_transformers.
  - apply moves_modify. intros e. unfold grows, emitFinished. by destruct (run _ _) as [[b|] job].
Qed.
#[local] Hint Resolve grows_startJob : goes_on.

Lemma grows_runTransformer t : moves grows (runTransformer t).
Proof.
  unfold runTransformer. grows; apply moves_modify; intros e0; unfold grows.
  - done.
  - intros _. apply insert_non_empty.
  - by rewrite updateJobCounts_eq.
Qed.
#[local] Hint Resolve grows_runTransformer : goes_on.

Lemma grows_potentiallyRunTransformer t : moves grows (potentiallyRunTransformer t).
Proof. unfold potentiallyRunTransformer. grows. Qed.
#[local] Hint Resolve grows_potentiallyRunTransformer : goes_on.

Lemma grows_visit u : moves grows (visit u).
Proof. unfold visit, buildArtifact, executeRuleNode. grows. Qed.

(** ** Scheduling *)

Lemma live_leaves f e : live e → live (on_m_leaves f e).
Proof. apply live_quiet. by split. Qed.

(** The leaves that were delayed wait for a job. *)
Definition scheduling (delayed : list nat) (e : Executor) : Prop :=
  live e ∧ (delayed ≠ [] → m_processingJobs e ≠ ∅).

Lemma blockedByPools_running e t pools :
  jobs_ok n e → blockedByPools e t pools = Ok true → m_processingJobs e ≠ ∅.
Proof.
  intros J Hb Hp. induction pools as [|p pools IH]; simpl in Hb; [done|].
  assert (jobCount e p = 0%Z) as Hc.
  { rewrite (jo_counts _ _ J), Hp. unfold running. by rewrite map_filter_empty. }
  rewrite Hc in Hb. by apply IH.
Qed.

Lemma schedulingBlocked_running e u :
  live e → schedulingBlockedByJobLimit e u = Ok true → m_processingJobs e ≠ ∅.
Proof.
  intros [[J _ _] _]. unfold schedulingBlockedByJobLimit. repeat case_match; try done.
  by apply blockedByPools_running.
Qed.

Lemma scheduleLoop_live fuel delayed :
  triple (scheduling delayed) (scheduleLoop fuel delayed)
    (λ delayed e, scheduling delayed e ∧ (m_leaves e = [] ∨ m_availableJobs e = [])) (λ _, live).
Proof.
  revert delayed. induction fuel as [|fuel IH]; intros delayed e; cbn [scheduleLoop].
  { by intros [He _]. }
  intros He. unfold mbind at 1, st_bind at 1, gets. cbn [id].
  destruct (is_nil (m_leaves e)) eqn:Hl; [apply is_nil_true in Hl; simpl; by auto|].
  destruct (is_nil (m_availableJobs e)) eqn:Ha; [apply is_nil_true in Ha; simpl; by auto|].
  cbn [orb]. generalize (pq_top (priority e) (m_leaves e)) as u. intros u.
  unfold mbind at 1, st_bind at 1, modify. unfold mbind at 1, st_bind at 1, gets, id.
  cbv beta iota.
  assert (scheduling delayed (on_m_leaves (λ l, removeOne l u) e)) as He1.
  { split; [by apply live_leaves, He|]. apply He. }
  revert He1. generalize (on_m_leaves (λ l, removeOne l u) e) as e1. clear e Hl Ha He.
  intros e He. destruct (buildState e u); try by apply IH.
  unfold mbind at 1, st_bind at 1, lift.
  destruct (schedulingBlockedByJobLimit e u) as [[]|] eqn:Hb; [| |by destruct He].
  { apply IH. split; [by apply He|]. intros _. destruct He as [He _].
    by eapply schedulingBlocked_running. }
  unfold mbind at 1, st_bind at 1. destruct He as [He Hd].
  pose proof (visit_live u e (conj He Hb)) as Hv. pose proof (grows_visit u e) as Hg.
  destruct (visit u e) as [[[]|x] e']; [|done]. apply IH. split; [done|]. intros H. by apply Hg, Hd.
Qed.

Lemma foldl_pushLeaf_processing l e :
  m_processingJobs (foldl (λ e u, pushLeaf u e) e l) = m_processingJobs e.
Proof. revert e. induction l as [|u l IH]; intros e; [done|]. by apply (IH (pushLeaf u e)). Qed.

Lemma scheduleJobs_live fuel :
  triple live (scheduleJobs fuel)
    (λ more e, live e ∧ (more = false → m_processingJobs e = ∅) ∧
       (0 < n → more = true → m_processingJobs e ≠ ∅)) (λ _, live).
Proof.
  unfold scheduleJobs. eapply triple_bind; [apply goes_on_live; moves|]. intros s.
  eapply triple_bind; [apply goes_on_live; moves|]. intros [].
  eapply triple_bind; [eapply triple_conseq; [apply (scheduleLoop_live fuel [])|done..]|].
  intros delayed e ((Hl & Hd) & Hend). unfold mbind, st_bind, gets. rewrite forM_modify.
  assert (live (foldl (λ e u, pushLeaf u e) e delayed)) as Hl'.
  { assert (goes_on live (forM delayed (λ u, modify (pushLeaf u)))) as Hf
      by (apply goes_on_live; moves). specialize (Hf e Hl). by rewrite forM_modify in Hf. }
  split; [done|]. rewrite foldl_pushLeaf_processing. split.
  - intros [_ H]%orb_false_iff. apply negb_false_iff, bool_decide_eq_true in H. done.
  - intros Hn H Hp. destruct delayed as [|u delayed]; [|by apply Hd].
    rewrite Hp, bool_decide_eq_true_2, orb_false_r in H by done.
    cbn [foldl] in H.
    destruct Hend as [He|Ha]; [by rewrite He in H|].
    destruct Hl as [[J _ _] _]. pose proof (jo_total _ _ J) as Ht. rewrite Ha, Hp in Ht.
    rewrite map_size_empty in Ht. simpl in Ht. lia.
Qed.

(** ** A job goes on, or ends *)

Lemma executor_ok_state f b e :
  executor_ok e → state_ok (on_finishPosted b (on_m_state f e)) →
  executor_ok (on_finishPosted b (on_m_state f e)).
Proof. intros [J L _] S. split; [by destruct J|done|done]. Qed.

(** The job [j], which runs, goes on as in [r]. *)
Lemma emitFinished_ok e j t cs r :
  executor_ok e → m_processingJobs e !! j = Some t → commandsOf (graph e) t = Some cs →
  j ∉ (finishedSignals e).*1 →
  (∃ b, r = (Some b, resetJob)) ∨
    (r.1 = None ∧ ∃ i canceled, runsCommand (mkJobTransformer t cs) i canceled r.2) →
  executor_ok (emitFinished j r e).
Proof.
  intros [J L S] Hj Hcs Hs Hr.
  assert (emitFinished j r e = on_finishedSignals (λ l, l ++ (pair j <$> option_list r.1))
    (on_jobs (insert j r.2) e)) as ->.
  { unfold emitFinished. destruct r as [[b|] job]; [done|]. simpl.
    unfold on_finishedSignals. simpl. by rewrite app_nil_r. }
  assert (∀ k, k ∈ (finishedSignals e ++ (pair j <$> option_list r.1)).*1 ↔
    k ∈ (finishedSignals e).*1 ∨ (k = j ∧ is_Some r.1)) as HS.
  { intros k. rewrite fmap_app, elem_of_app. f_equiv. destruct r.1; simpl.
    - rewrite list_elem_of_singleton. naive_solver.
    - rewrite elem_of_nil. split; [done|]. by intros [_ [? ?]]. }
  split; [|intros k u p l (job & jt & Hjob & Htr & Hu & Hp) Hl|done].
  - destruct J as [JT JA JD JN JI JK JB [JS1 JS2] JC].
    split; try done; cbn [on_finishedSignals finishedSignals on_jobs jobs m_availableJobs m_processingJobs].
    + intros k Hk. assert (k ≠ j) as Hne by (intros ->; by rewrite (JD j Hk) in Hj).
      rewrite lookup_insert_ne, HS by done. destruct (JI k Hk). split; [done|].
      by intros [?|[? _]].
    + intros k. destruct (decide (j = k)) as [<-|Hne]; [intros _; right; by exists t|].
      rewrite lookup_insert_ne by done. apply JK.
    + intros k t' Hk. unfold busy. cbn [on_finishedSignals finishedSignals on_jobs jobs graph].
      destruct (decide (j = k)) as [<-|Hne].
      * rewrite Hj in Hk. injection Hk as <-. setoid_rewrite lookup_insert_eq.
        destruct Hr as [[b ->]|(Hn' & i & c & Hr)].
        -- right. rewrite HS. split_and!; [by exists cs|done|by right].
        -- left. exists cs, i, c, r.2. split; [done|]. split; [done|]. split; [done|].
           rewrite HS, Hn'. by intros [?|[_ [? ?]]].
      * setoid_rewrite lookup_insert_ne; [|done..].
        destruct (JB k t' Hk) as [(cs' & i & c & job & ? & ? & ? & ?)|(? & ? & ?)].
        -- left. exists cs', i, c, job. split; [done|]. split; [done|]. split; [done|].
           rewrite HS. by intros [?|[? _]].
        -- right. rewrite HS. auto.
    + split; [|intros k; rewrite HS; intros [?|[-> _]]; [by apply JS2|by exists t]].
      rewrite fmap_app. apply NoDup_app. split_and!; [done| |].
      * intros k Hk Hin. destruct r.1; simpl in Hin; [|by apply elem_of_nil in Hin].
        apply list_elem_of_singleton in Hin as ->. done.
      * destruct r.1; simpl; [apply NoDup_singleton|constructor].
  - refine (L k u p l _ Hl). cbn in Hjob. apply lookup_insert_Some in Hjob as [[<- <-]|[Hne Hjob]];
      [|by exists job, jt].
    destruct Hr as [[b ->]|(_ & i & c & [_ Hr])]; [done|]. rewrite Hr in Htr, Hp. simplify_eq/=.
    destruct (jo_busy _ _ J j t Hj) as [(cs' & i' & c' & job' & Hc & Hj' & [_ ->] & _)|(_ & _ & ?)];
      [|done]. rewrite Hcs in Hc. simplify_eq. eexists _, _. split_and!; [exact Hj'|done..].
Qed.

(** A job that runs is one of those that process a transformer. *)
Lemma running_busy e j job :
  jobs_ok n e → jobs e !! j = Some job → m_running job = true →
  ∃ t cs i canceled, m_processingJobs e !! j = Some t ∧ commandsOf (graph e) t = Some cs ∧
    runsCommand (mkJobTransformer t cs) i canceled job ∧ j ∉ (finishedSignals e).*1.
Proof.
  intros J Hj Hr. destruct (jo_known _ _ J j) as [Ha|[t Ht]]; [by exists job|..].
  { destruct (jo_idle _ _ J j Ha) as [Hi _]. rewrite Hj in Hi. by simplify_eq. }
  destruct (jo_busy _ _ J j t Ht) as [(cs & i & c & job' & ? & Hj' & ? & ?)|(_ & Hj' & _)];
    rewrite Hj in Hj'; simplify_eq. by eauto 10.
Qed.

Lemma onCommandFinished_runs t i canceled err job :
  runsCommand t i canceled job →
  (∃ b, onCommandFinished err job = (Some b, resetJob)) ∨
  ((onCommandFinished err job).1 = None ∧
   ∃ i canceled, runsCommand t i canceled (onCommandFinished err job).2).
Proof.
  intros [Hi ->]. unfold onCommandFinished. cbn [m_transformer m_error].
  destruct canceled; [left; by eexists|]. destruct err; [left; by eexists|].
  rewrite runNextCommand_step by lia. case_match eqn:E; [left; by eexists|right].
  split; [done|]. exists (i + 1), false. apply Z.eqb_neq in E. split; [lia|]. simpl. f_equal. lia.
Qed.

Lemma cancelJob_ok j e : executor_ok e → executor_ok (on_jobs (alter cancel j) e).
Proof.
  intros He. destruct (jobs e !! j) as [job|] eqn:Hj.
  - destruct (m_running job) eqn:Hr.
    + pose proof He as [J _ _].
      destruct (running_busy e j job J Hj Hr) as (t & cs & i & c & ? & ? & [Hi ->] & ?).
      assert (on_jobs (alter cancel j) e = emitFinished j (None, cancel
        (mkExecutorJob true (Some (mkJobTransformer t cs)) (jobPools cs) (Z.of_nat i) c)) e) as ->.
      { unfold emitFinished, on_jobs. simpl. f_equal. apply map_eq. intros k.
        destruct (decide (j = k)) as [<-|Hne]; [by rewrite lookup_alter_eq, lookup_insert_eq, Hj|].
        by rewrite lookup_alter_ne, lookup_insert_ne. }
      eapply emitFinished_ok; try done. right. split; [done|]. exists i, true. by split.
    + assert (on_jobs (alter cancel j) e = e) as ->; [|done].
      destruct e. unfold on_jobs. simpl in *. f_equal. apply alter_id. intros x Hx.
      rewrite Hj in Hx. simplify_eq. unfold cancel. by rewrite Hr.
  - assert (on_jobs (alter cancel j) e = e) as ->; [|done].
    destruct e. unfold on_jobs. simpl in *. f_equal. apply alter_id. intros x Hx. by rewrite Hj in Hx.
Qed.

(** ** Ending a build *)

Lemma keeps_ok_cancelJobs : keeps_ok cancelJobs.
Proof.
  unfold cancelJobs, setState. moves.
  - apply moves_modify. intros e He. apply (executor_ok_state _ id e He).
    destruct He as [_ _ [_ S]]. split; [done|exact S].
  - apply moves_modify. intros e He. by apply cancelJob_ok.
Qed.
#[local] Hint Resolve keeps_ok_cancelJobs : moves.

Lemma foldl_cancel l e :
  ∃ f, foldl (λ e j, on_jobs (alter cancel j) e) e l = on_jobs f e.
Proof.
  revert e. induction l as [|j l IH]; intros e; [exists id; by destruct e|]. simpl.
  destruct (IH (on_jobs (alter cancel j) e)) as [f ->]. by exists (f ∘ alter cancel j).
Qed.

Lemma cancelJobs_canceling e : ∃ e', cancelJobs e = (Ok tt, e') ∧
  m_state e' = ExecutorCanceling ∧ m_processingJobs e' = m_processingJobs e ∧
  finishPosted e' = finishPosted e.
Proof.
  unfold cancelJobs, setState, mbind, st_bind, gets, modify at 1.
  destruct (decide (m_state e = ExecutorCanceling)) as [Hs|Hs];
    [rewrite (bool_decide_eq_true_2 _ Hs); by exists e|].
  rewrite (bool_decide_eq_false_2 _ Hs), forM_modify. eexists. split; [done|].
  destruct (foldl_cancel (map fst (map_to_list (m_processingJobs
    (on_m_state (λ _, ExecutorCanceling) e)))) (on_m_state (λ _, ExecutorCanceling) e)) as [f E].
  by rewrite E.
Qed.

Lemma finish_ok e :
  executor_ok e → m_processingJobs e = ∅ → executor_ok (finish e).2.
Proof.
  intros He Hp. unfold finish, mbind, st_bind.
  assert (moves quiet checkForUnbuiltProducts) as Hq by (unfold checkForUnbuiltProducts; moves).
  specialize (Hq e). destruct (checkForUnbuiltProducts e) as [[[]|x] e']; simpl in *.
  - apply (executor_ok_state _ id); [by eapply executor_ok_quiet|].
    rewrite <-(q_processing _ _ Hq) in Hp. by split; intros _.
  - by eapply executor_ok_quiet.
Qed.

Lemma keeps_ok_handleError x : keeps_ok (handleError x).
Proof.
  unfold handleError. apply moves_bind; [apply _|apply keeps_ok_quiet; moves|]. intros _ e He.
  unfold mbind, st_bind, gets. case_bool_decide; [by apply finish_ok|].
  by apply keeps_ok_cancelJobs.
Qed.
#[local] Hint Resolve keeps_ok_handleError : moves.

(** ** A job has finished *)

(** The state when the signal of the job [j] is being delivered, after the job has
    been given back. *)
Definition released (j t : nat) (e : Executor) : Executor :=
  updateJobCounts t (-1) (on_m_availableJobs (λ l, l ++ [j]) (on_m_processingJobs (delete j)
    (on_finishedSignals tail e))).

Lemma released_ok e j t b l :
  executor_ok e → finishedSignals e = (j, b) :: l → m_processingJobs e !! j = Some t →
  executor_ok (released j t e).
Proof.
  intros [J L S] Hsig Hj.
  assert (jobs e !! j = Some resetJob ∧ is_Some (commandsOf (graph e) t)) as [Hjob Ht].
  { destruct (jo_busy _ _ J j t Hj) as [(? & ? & ? & ? & _ & _ & _ & Hs)|(? & ? & _)]; [|done].
    destruct Hs. rewrite Hsig. left. }
  unfold released. rewrite updateJobCounts_eq. set (e' := on_m_jobCountPerPool _ _).
  assert (∀ p, jobCount e' p = (jobCount e p + if bool_decide (p ∈ poolsOf (graph e) t) then -1 else 0)%Z)
    as Hc.
  { intros p. rewrite <-jobCount_update, updateJobCounts_eq. done. }
  assert (finishedSignals e' = l) as Hs' by (unfold e'; simpl; by rewrite Hsig).
  destruct J as [JT JA JD JN JI JK JB [JS1 JS2] JC]. rewrite Hsig in JS1, JS2. simpl in JS1, JS2.
  apply NoDup_cons in JS1 as [Hjl JS1].
  assert (∀ k, k ∈ l.*1 ↔ k ∈ (finishedSignals e).*1 ∧ k ≠ j) as HS.
  { intros k. rewrite Hsig. simpl. rewrite elem_of_cons. naive_solver. }
  split.
  - split; try done; rewrite ?Hs'; unfold e';
      cbn [on_m_jobCountPerPool on_m_availableJobs on_m_processingJobs m_availableJobs
           m_processingJobs on_finishedSignals finishedSignals jobs].
    + apply NoDup_app. split_and!; [done| |apply NoDup_singleton].
      intros k Hk Hkj. apply list_elem_of_singleton in Hkj as ->. by rewrite (JD j Hk) in Hj.
    + intros k. rewrite elem_of_app, list_elem_of_singleton. intros [Hk| ->];
        [|by rewrite lookup_delete_eq]. rewrite lookup_delete_None. right. by apply JD.
    + rewrite length_app, map_size_delete_Some by (by exists t). simpl.
      assert (size (m_processingJobs e) ≠ 0) as Hz; [|lia].
      intros Hz%map_size_empty_inv. by rewrite Hz in Hj.
    + intros k. rewrite elem_of_app, list_elem_of_singleton. intros [Hk| ->]; [|done].
      destruct (JI k Hk) as [? Hks]. split; [done|]. intros Hin. apply Hks. rewrite Hsig. by right.
    + intros k Hk. rewrite elem_of_app, list_elem_of_singleton. destruct (decide (k = j)) as [->|Hne];
        [by left; right|]. rewrite lookup_delete_ne by done. destruct (JK k Hk); auto.
    + intros k t' [Hne Hk]%lookup_delete_Some. fold e'.
      destruct (JB k t' Hk) as [(cs & i & c & job & ? & ? & ? & Hks)|(? & ? & ?)]; [left|right].
      * exists cs, i, c, job. split; [done|]. split; [done|]. split; [done|].
        rewrite Hs', HS. by intros [? _].
      * rewrite Hs', HS. auto.
    + split; [done|]. intros k Hk. rewrite lookup_delete_ne; [apply JS2; by right|]. by intros ->.
    + intros p. rewrite Hc, JC, (size_running_delete _ _ _ _ _ Hj). case_bool_decide; simpl; lia.
  - intros k u p m Ho Hl. rewrite Hc.
    pose proof (L k u p m Ho Hl). case_bool_decide; lia.
  - destruct S as [S1 S2]. unfold e'. split; simpl; intros H;
      [rewrite (S1 H)|rewrite (S2 H)]; apply delete_empty.
Qed.

(** ** The delivery of the signal of a job *)

(** A build that has not ended has a job that runs, or its end is posted. *)
Definition progresses (e : Executor) : Prop :=
  (m_state e = ExecutorRunning → m_processingJobs e ≠ ∅ ∨ finishPosted e = true) ∧
  (m_state e = ExecutorCanceling → m_processingJobs e ≠ ∅).

(** [m] keeps the invariant, and when it returns, the build goes on or has ended. *)
Definition completes (P : Executor → Prop) (m : M unit) : Prop :=
  triple P m (λ _ e, executor_ok e ∧ progresses e) (λ _, executor_ok).

Lemma finish_idle e : ∃ e', finish e = (Ok tt, e') ∧ m_state e' = ExecutorIdle.
Proof.
  unfold finish, checkForUnbuiltProducts, setState, mbind, st_bind, modify, gets.
  destruct (executeRulesOnly options); [by eexists|].
  destruct (is_nil _); by eexists.
Qed.

Lemma finish_completes : completes (λ e, executor_ok e ∧ m_processingJobs e = ∅) finish.
Proof.
  intros e [He Hp]. pose proof (finish_ok e He Hp) as Hok.
  destruct (finish_idle e) as (e' & E & Hs). rewrite E in *. split; [done|].
  by split; rewrite Hs.
Qed.

Lemma handleError_completes x : completes executor_ok (handleError x).
Proof.
  unfold handleError. apply (triple_bind _ _ _ (λ _, executor_ok)).
  { intros e He. eapply executor_ok_quiet; [|exact He]. by split. }
  intros [] e He. unfold mbind, st_bind, gets.
  destruct (decide (m_processingJobs e = ∅)) as [Hp|Hp].
  - rewrite bool_decide_eq_true_2 by done. by apply finish_completes.
  - rewrite bool_decide_eq_false_2 by done. pose proof (keeps_ok_cancelJobs e He) as Hok.
    destruct (cancelJobs_canceling e) as (e' & E & Hs & Hpr & _). rewrite E in *.
    split; [done|]. by split; rewrite Hs, ?Hpr.
Qed.

(** The state of a build that goes on or is canceled. *)
Definition unfinished (e : Executor) : Prop :=
  executor_ok e ∧ m_state e ≠ ExecutorIdle ∧ finishPosted e = false.

Lemma unfinished_quiet e e' : quiet e e' → unfinished e → unfinished e'.
Proof.
  intros Q (He & Hs & Hp). split; [by eapply executor_ok_quiet|].
  by rewrite (q_state _ _ Q), (q_posted _ _ Q).
Qed.

Lemma unfinished_bind {A} (m : M A) (k : A → M unit) :
  moves quiet m → (∀ a, completes unfinished (k a)) → completes unfinished (m ≫= k).
Proof.
  intros Hm Hk. eapply triple_bind; [|exact Hk]. intros e He. specialize (Hm e).
  destruct (m e) as [[a|x] e']; simpl in *; [by eapply unfinished_quiet|].
  by eapply executor_ok_quiet, He.
Qed.

Lemma afterRelease_completes fuel t success :
  0 < n → completes unfinished (
    _ ← when success (
      _ ← modify (on_graph (on_heap setDirty));
      outputs ← gets (λ e, transformer_outputs (transformerOf e t));
      _ ← forM outputs updateOutput;
      finishTransformer t);
    _ ← when (negb success && negb (keepGoing options)) cancelJobs;
    e ← gets id;
    if bool_decide (m_state e = ExecutorCanceling) then
      when (bool_decide (m_processingJobs e = ∅)) finish
    else
      more ← scheduleJobs fuel;
      when (negb more) finish).
Proof.
  intros Hn. apply unfinished_bind; [moves; apply moves_heap; intros h; apply same_objects_isDirty|].
  intros []. apply (triple_bind _ _ _ (λ _, unfinished)).
  { intros e He. destruct (negb success && negb (keepGoing options)); [|done]. simpl.
    pose proof (keeps_ok_cancelJobs e) as Hok. destruct (cancelJobs_canceling e) as (e' & E & Hs & _ & Hp).
    rewrite E in *. destruct He as (He & _ & Hf). split; [by apply Hok|]. by rewrite Hs, Hp. }
  intros [] e (He & Hs & Hf). unfold mbind at 1, st_bind at 1, gets, id.
  destruct (m_state e) eqn:Hst; [done|..].
  - rewrite bool_decide_eq_false_2 by done.
    pose proof (scheduleJobs_live fuel e (conj He (conj Hst Hf))) as Hsch.
    unfold mbind, st_bind. destruct (scheduleJobs fuel e) as [[more|x] e']; [|by apply Hsch].
    destruct Hsch as ((He' & Hs' & Hf') & Hno & Hyes). destruct more; simpl.
    + split; [done|]. split; [|by rewrite Hs']. intros _. left. by apply Hyes.
    + apply finish_completes. auto.
  - rewrite bool_decide_eq_true_2 by done.
    destruct (decide (m_processingJobs e = ∅)) as [Hp|Hp].
    + rewrite bool_decide_eq_true_2 by done. by apply finish_completes.
    + rewrite bool_decide_eq_false_2 by done. simpl. split; [done|]. split; [by rewrite Hst|done].
Qed.

(** [finishJob], when the signal of the job has been taken from the queue. *)
Lemma finishJob_completes fuel j b success l :
  completes (λ e, ∃ e0, executor_ok e0 ∧ finishedSignals e0 = (j, b) :: l ∧
                    e = on_finishedSignals (λ _, l) e0) (finishJob fuel j success).
Proof.
  intros e (e0 & He & Hsig & ->). pose proof He as [J L [S1 S2]].
  destruct (proj2 (jo_signals _ _ J) j) as [t Ht]; [rewrite Hsig; left|].
  assert (m_processingJobs e0 ≠ ∅) as Hp by (intros Hp; by rewrite Hp in Ht).
  assert (0 < n) as Hn.
  { rewrite <-(jo_total _ _ J). assert (size (m_processingJobs e0) ≠ 0); [|lia].
    by intros ?%map_size_empty_inv. }
  assert (unfinished (released j t e0)) as Hr.
  { split; [by eapply released_ok|]. unfold released. rewrite updateJobCounts_eq. simpl.
    split; [by intros ?%S1|]. destruct (finishPosted e0); [by destruct (S2 eq_refl)|done]. }
  pose proof (afterRelease_completes fuel t success Hn (released j t e0) Hr) as Ha.
  unfold finishJob, check, lift. unfold mbind at 1, st_bind at 1, gets at 1, id.
  unfold mbind at 1, st_bind at 1. rewrite bool_decide_eq_false_2 by (by intros ?%S1).
  cbn [negb QBS_CHECK on_finishedSignals m_processingJobs]. rewrite Ht.
  unfold mbind at 1, st_bind at 1, modify at 1. unfold mbind at 1, st_bind at 1, modify at 1.
  unfold mbind at 1, st_bind at 1, modify at 1. cbv beta iota.
  assert (released j t e0 = updateJobCounts t (-1) (on_m_availableJobs (λ l, l ++ [j])
    (on_m_processingJobs (delete j) (on_finishedSignals (λ _, l) e0)))) as Heq.
  { unfold released. f_equal. unfold on_m_availableJobs, on_m_processingJobs, on_finishedSignals.
    simpl. by rewrite Hsig. }
  rewrite Heq in Ha. exact Ha.
Qed.

Lemma onJobFinished_completes fuel j error l :
  completes (λ e, ∃ e0, executor_ok e0 ∧ finishedSignals e0 = (j, error) :: l ∧
                    e = on_finishedSignals (λ _, l) e0) (onJobFinished fuel j error).
Proof.
  intros e (e0 & He & Hsig & ->). unfold onJobFinished, catch.
  match goal with |- context [match ?m ?e with _ => _ end] =>
    set (r := m e); assert (match r with (Ok _, e') => executor_ok e' ∧ progresses e'
                            | (Throw _, e') => executor_ok e' end) as Hr end.
  { unfold r, mbind, st_bind, when, modify. destruct (error && negb (keepGoing options)).
    - apply (finishJob_completes fuel j error (negb error) l). eexists (on_m_errors _ e0).
      split_and!; [|exact Hsig|reflexivity]. eapply executor_ok_quiet; [|exact He]. by split.
    - apply (finishJob_completes fuel j error (negb error) l). by exists e0. }
  destruct r as [[[]|x] e']; [exact Hr|]. destruct (isErrorInfo x); [|exact Hr].
  by apply handleError_completes.
Qed.

(** ** Events *)

Lemma handleEvent_completes fuel ev e :
  enabledEvent ev e → executor_ok e → progresses e →
  match handleEvent fuel ev e with (Ok _, e') => executor_ok e' ∧ progresses e' | _ => True end.
Proof.
  intros Hev He Hp. destruct ev as [j err| | |files]; simpl in *.
  - destruct Hev as (job & Hj & Hr). pose proof He as [J _ _].
    destruct (running_busy e j job J Hj Hr) as (t & cs & i & c & Ht & Hcs & Hruns & Hs).
    rewrite Hj. change (default resetJob (Some job)) with job. split.
    + eapply emitFinished_ok; [done..|]. by eapply onCommandFinished_runs.
    + unfold emitFinished. destruct (onCommandFinished err job) as [[b|] job']; exact Hp.
  - unfold mbind, st_bind, gets, modify.
    destruct (finishedSignals e) as [|[j error] l] eqn:Hsig; [done|].
    pose proof (onJobFinished_completes fuel j error l (on_finishedSignals (λ _, l) e)) as Hc.
    destruct (onJobFinished _ _ _ _) as [[[]|x] e']; [|done]. apply Hc. by exists e.
  - unfold mbind, st_bind, modify.
    pose proof (finish_completes (on_finishPosted (λ _, false) e)) as Hc.
    destruct (finish _) as [[[]|x] e']; [|done]. apply Hc. pose proof He as [_ _ [S1 S2]].
    split; [|by apply S2]. assert (e = on_m_state id e) as E by by destruct e.
    rewrite E. apply executor_ok_state; [done|]. split; [apply S1|done].
  - split; [|done]. eapply executor_ok_quiet; [|exact He]. by split.
Qed.
End Jobs.

(** ** The start of a build *)

Section Build.
Context `{PQ : PriorityQueue, SC : Scripts, !ScriptsLaws SC, ST : Settings}.

(** A state without jobs. *)
Record fresh (e : Executor) : Prop := {
  fr_transformers : transformers_ok (graph e);
  fr_available : m_availableJobs e = [];
  fr_processing : m_processingJobs e = ∅;
  fr_jobs : jobs e = ∅;
  fr_signals : finishedSignals e = [];
  fr_counts : m_jobCountPerPool e = ∅;
  fr_posted : finishPosted e = false
}.

Lemma fresh_quiet e e' : quiet e e' → fresh e → fresh e'.
Proof. intros [] []. split; [by apply q_graph|congruence..]. Qed.

Lemma moves_fresh_quiet {A} (m : M A) : moves quiet m → moves (preserves fresh) m.
Proof. intros Hm e He. exact (fresh_quiet _ _ (Hm e) He). Qed.

Lemma fresh_ok e : fresh e → executor_ok 0 e.
Proof.
  intros [FT FA FP FJ FS FC FF].
  assert (∀ j t p, ¬ occupies e j t p) as Ho.
  { intros j t p (job & jt & Hj & _). by rewrite FJ in Hj. }
  split; [split|intros j t p k H; by destruct (Ho j t p)|by split].
  - done.
  - rewrite FA. constructor.
  - intros j. by rewrite FA, elem_of_nil.
  - by rewrite FA, FP.
  - intros j. by rewrite FA, elem_of_nil.
  - intros j. rewrite FJ. by intros [? ?].
  - intros j t. by rewrite FP.
  - rewrite FS. split; [constructor|]. intros j. by rewrite elem_of_nil.
  - intros p. unfold jobCount, running. by rewrite FC, FP, map_filter_empty.
Qed.

Lemma addExecutorJobs_eq l e :
  forM l (λ i, _ ← modify (on_jobs (insert i resetJob)); modify (on_m_availableJobs (λ l, l ++ [i]))) e
  = (@Ok BGError _ tt, on_m_availableJobs (λ a, a ++ l)
       (on_jobs (λ m, foldl (λ m i, <[i := resetJob]> m) m l) e)).
Proof.
  revert e. induction l as [|i l IH]; intros e.
  { destruct e. unfold forM. simpl. unfold on_m_availableJobs. simpl. by rewrite app_nil_r. }
  unfold forM in *. simpl. unfold mbind at 1, st_bind at 1. simpl. rewrite IH.
  unfold on_m_availableJobs. simpl. by rewrite <-app_assoc.
Qed.

Lemma lookup_new_jobs l (m : gmap nat ExecutorJob) i :
  foldl (λ m i, <[i := resetJob]> m) m l !! i = if bool_decide (i ∈ l) then Some resetJob else m !! i.
Proof.
  revert m. induction l as [|x l IH]; intros m; [done|]. cbn [foldl]. rewrite IH.
  destruct (decide (i ∈ l)) as [Hi|Hi].
  - rewrite !bool_decide_eq_true_2 by (done || by right). done.
  - rewrite bool_decide_eq_false_2 by done. destruct (decide (x = i)) as [->|Hne].
    + rewrite lookup_insert_eq, bool_decide_eq_true_2; [done|left].
    + rewrite lookup_insert_ne, bool_decide_eq_false_2; [done| |done].
      by intros [?|?]%elem_of_cons.
Qed.

Notation maxJobs := (Z.to_nat effectiveMaxJobCount).

Lemma addExecutorJobs_live :
  triple (λ e, fresh e ∧ m_state e = ExecutorRunning) addExecutorJobs
    (λ _, live maxJobs) (λ _, live maxJobs).
Proof.
  intros e [[FT FA FP FJ FS FC FF] Hs]. unfold addExecutorJobs. rewrite addExecutorJobs_eq.
  set (e' := on_m_availableJobs _ _).
  assert (∀ j, jobs e' !! j = if bool_decide (j ∈ seq 1 maxJobs) then Some resetJob else None) as Hj.
  { intros j. unfold e'. simpl. by rewrite lookup_new_jobs, FJ, lookup_empty. }
  assert (m_availableJobs e' = seq 1 maxJobs) as Ha by (unfold e'; simpl; by rewrite FA).
  split; [|done]. split; [split|..].
  - done.
  - rewrite Ha. apply NoDup_seq.
  - intros j _. simpl. by rewrite FP.
  - rewrite Ha. simpl. by rewrite FP, length_seq, map_size_empty, Nat.add_0_r.
  - intros j. rewrite Hj, Ha. intros Hin. rewrite bool_decide_eq_true_2 by done. split; [done|].
    simpl. rewrite FS. apply not_elem_of_nil.
  - intros j. rewrite Hj, Ha. case_bool_decide; [by left|by intros [? ?]].
  - intros j t. simpl. by rewrite FP.
  - simpl. rewrite FS. split; [constructor|]. intros j. by rewrite elem_of_nil.
  - intros p. unfold jobCount, running. simpl. by rewrite FC, FP, map_filter_empty.
  - intros j t p k (job & jt & Hjob & Htr & _). rewrite Hj in Hjob.
    case_bool_decide; simplify_eq.
  - split; simpl; [|by rewrite FF]. by rewrite Hs.
Qed.

(** ** A build starts *)

Hypothesis maxJobs_positive : 0 < maxJobs.

(** The state after a function of the start of a build. *)
Definition begun (e : Executor) : Prop :=
  ∃ n, (n = 0 ∨ n = maxJobs) ∧ executor_ok n e ∧ progresses e.

Definition begins (P : Executor → Prop) (m : M unit) : Prop :=
  triple P m (λ _, begun) (λ _ e, ∃ n, (n = 0 ∨ n = maxJobs) ∧ executor_ok n e).

Lemma begins_completes n P m :
  n = 0 ∨ n = maxJobs → completes n P m → begins P m.
Proof.
  intros Hn Hm. eapply triple_conseq; [exact Hm|done|..].
  - intros [] e [He Hp]. by exists n.
  - intros ? e He. by exists n.
Qed.

(** A step that makes no job. *)
Lemma begins_fresh {A} (m : M A) (k : A → M unit) :
  moves (preserves fresh) m → (∀ a, begins fresh (k a)) → begins fresh (m ≫= k).
Proof.
  intros Hm Hk. eapply triple_bind; [|exact Hk]. intros e He. specialize (Hm e He).
  destruct (m e) as [[a|x] e']; simpl in *; [done|]. exists 0. split; [by left|]. by apply fresh_ok.
Qed.

Lemma begins_live {A} (m : M A) (k : A → M unit) :
  moves quiet m → (∀ a, begins (live maxJobs) (k a)) → begins (live maxJobs) (m ≫= k).
Proof.
  intros Hm Hk. eapply triple_bind; [|exact Hk]. intros e He.
  pose proof (goes_on_live maxJobs m Hm e He) as Hl.
  destruct (m e) as [[a|x] e']; [done|]. exists maxJobs. split; [by right|]. by destruct Hl.
Qed.

Lemma fresh_post e : fresh e → executor_ok 0 (on_finishPosted (λ _, true) e).
Proof.
  intros He. pose proof (fr_processing _ He) as Hp. apply fresh_ok in He.
  assert (on_finishPosted (λ _, true) e = on_finishPosted (λ _, true) (on_m_state id e)) as ->
    by by destruct e.
  by apply executor_ok_state.
Qed.

Lemma live_post n e : live n e → m_processingJobs e = ∅ → executor_ok n (on_finishPosted (λ _, true) e).
Proof.
  intros [He _] Hp.
  assert (on_finishPosted (λ _, true) e = on_finishPosted (λ _, true) (on_m_state id e)) as ->
    by by destruct e.
  by apply executor_ok_state.
Qed.

Lemma fresh_setupJobLimits : moves (preserves fresh) (modify setupJobLimits : M unit).
Proof.
  apply moves_modify. intros e. unfold setupJobLimits. generalize m_productsToBuild as l.
  intros l. revert e. induction l as [|p l IH]; intros e He; [done|]. apply IH. by destruct He.
Qed.

Lemma doBuild_begins fuel : begins fresh (doBuild fuel).
Proof.
  unfold doBuild, setState. apply begins_fresh; [apply moves_gets, _|]. intros s.
  apply begins_fresh; [apply moves_lift, _|]. intros [].
  do 5 (apply begins_fresh; [apply moves_fresh_quiet, moves_modify; by split|intros []]).
  apply begins_fresh; [apply moves_modify; intros e He; by destruct He|]. intros [].
  apply begins_fresh; [apply fresh_setupJobLimits|]. intros [].
  apply begins_fresh; [apply moves_fresh_quiet; moves|]. intros [].
  apply (triple_bind _ _ _ (λ _ e, fresh e ∧ m_state e = ExecutorRunning)).
  { intros e He. split; [by destruct He|done]. }
  intros []. destruct (is_nil m_productsToBuild).
  { intros e [He Hs]. exists 0. split; [by left|]. split; [by apply fresh_post|].
    split; simpl; [by right|]. by rewrite Hs. }
  eapply (triple_bind _ _ _ (λ _ e, fresh e ∧ m_state e = ExecutorRunning)).
  { intros e [He Hs]. pose proof (moves_checkProducts e) as Hq. destruct (checkProducts e) as [[a|x] e']; simpl in Hq.
    - split; [exact (fresh_quiet _ _ Hq He)|]. by rewrite (q_state _ _ Hq).
    - exists 0. split; [by left|]. exact (fresh_ok _ (fresh_quiet _ _ Hq He)). }
  intros []. apply (triple_bind _ _ _ (λ _, live maxJobs)).
  { eapply triple_conseq; [apply addExecutorJobs_live|done|done|].
    intros ? e [He _]. exists maxJobs. by split; [right|]. }
  intros []. do 6 (apply begins_live; [moves|intros []]).
  intros e He. unfold mbind, st_bind. pose proof (scheduleJobs_live maxJobs fuel e He) as Hs.
  destruct (scheduleJobs fuel e) as [[more|x] e'].
  - destruct Hs as (Hl & Hno & Hyes). destruct more; exists maxJobs; (split; [by right|]).
    + split; [by destruct Hl|]. split; [left; by apply Hyes|]. intros Hs. destruct Hl as (_ & Hs' & _).
      by rewrite Hs' in Hs.
    + split; [apply live_post; auto|]. split; simpl; [by right|].
      intros Hs. destruct Hl as (_ & Hs' & _). by rewrite Hs' in Hs.
  - exists maxJobs. split; [by right|]. by destruct Hs.
Qed.

Lemma startBuild_begins fuel : begins fresh (startBuild fuel).
Proof.
  intros e He. unfold startBuild, catch. pose proof (doBuild_begins fuel e He) as Hd.
  destruct (doBuild fuel e) as [[[]|x] e']; [done|]. destruct (isErrorInfo x); [|done].
  destruct Hd as (n & Hn & Hok). by apply (begins_completes n _ _ Hn (handleError_completes n x)).
Qed.

Lemma newExecutor_fresh g f : transformers_ok g → fresh (newExecutor g f).
Proof. done. Qed.

Lemma building_from_begun g f e : transformers_ok g → building_from g f e → begun e.
Proof.
  intros Hg. induction 1 as [fuel e E|e e' _ IH [fuel ev e'' Hev E]].
  - pose proof (startBuild_begins fuel (newExecutor g f) (newExecutor_fresh g f Hg)) as Hs.
    by rewrite E in Hs.
  - destruct IH as (n & Hn & Hok & Hp). exists n. split; [done|].
    pose proof (handleEvent_completes n fuel ev e Hev Hok Hp) as He. by rewrite E in He.
Qed.

(** ** The properties *)

(** C2: in every state of a build each job is either available, and then idle with
    no signal queued, or it has been given exactly one transformer, whose commands it
    runs until its signal is queued, once; no job is lost or used twice, and the
    count of a job pool is the number of jobs whose transformer has a command in the
    pool. *)
Theorem jobs_accounted g f e :
  transformers_ok g → building_from g f e → ∃ n, (n = 0 ∨ n = maxJobs) ∧ jobs_ok n e.
Proof.
  intros Hg (n & Hn & [J _ _] & _)%building_from_begun; [by exists n|done].
Qed.

(** C3: while a job runs commands of a transformer in a job pool, the number of all
    jobs that work in the pool is not greater than the limit which the product of the
    transformer has for the pool, whichever product the other jobs belong to. *)
Theorem job_limits_respected g f e j t p limit :
  transformers_ok g → building_from g f e → occupies e j t p → limitFor e t p limit →
  (Z.of_nat (size (running (graph e) (m_processingJobs e) p)) ≤ limit)%Z.
Proof.
  intros Hg (n & _ & [J L _] & _)%building_from_begun Ho Hl; [|done].
  rewrite <-(jo_counts _ _ J). by eapply L.
Qed.

(** C4: a build never hangs: as long as the executor is not idle, a command runs
    that can end, the signal of a job is queued, or [finish] is posted; and when it
    is idle no job runs. *)
Theorem build_progresses g f e :
  transformers_ok g → building_from g f e →
  if bool_decide (m_state e = ExecutorIdle) then m_processingJobs e = ∅
  else (∃ j, ∀ err, enabledEvent (EventCommandFinished j err) e) ∨
       enabledEvent EventJobFinished e ∨ enabledEvent EventFinish e.
Proof.
  intros Hg (n & _ & [J _ [S _]] & [PR PC])%building_from_begun; [|done].
  case_bool_decide as Hs; [by apply S|].
  assert (m_processingJobs e ≠ ∅ ∨ finishPosted e = true) as [Hp|Hf]; [|..|by right; right].
  { destruct (m_state e); [done|by apply PR|left; by apply PC]. }
  apply map_choose in Hp as (j & t & Ht).
  destruct (jo_busy _ _ J j t Ht) as [(cs & i & c & job & _ & Hj & [_ ->] & _)|(_ & _ & Hsig)].
  - left. exists j. intros err. by eexists.
  - right. left. simpl. intros Hnil. by rewrite Hnil in Hsig; apply elem_of_nil in Hsig.
Qed.
(** *** Builds on concrete graphs *)

Lemma building_started g f fuel :
  (startBuild fuel (newExecutor g f)).1 = Ok tt →
  building_from g f (startBuild fuel (newExecutor g f)).2.
Proof. intros E. eapply started. by rewrite (surjective_pairing (startBuild _ _)), E. Qed.

Lemma building_stepped g f e fuel ev :
  building_from g f e → enabledEvent ev e → (handleEvent fuel ev e).1 = Ok tt →
  building_from g f (handleEvent fuel ev e).2.
Proof.
  intros Hb Hev E. eapply stepped; [done|]. eapply step_event; [done|].
  by rewrite (surjective_pairing (handleEvent _ _ _)), E.
Qed.
End Build.

Lemma enabled_check e j err :
  m_running <$> jobs e !! j = Some true → enabledEvent (EventCommandFinished j err) e.
Proof. simpl. destruct (jobs e !! j); intros; simplify_eq/=. eauto. Qed.

Lemma check_transformers_ok g :
  forallb (λ un, match node_data un.2 with
    | ArtifactNodeType x => match transformer x with
        | Some t => bool_decide (is_Some (transformerData g !! t))
        | None => true
        end
    | _ => true
    end) (map_to_list (nodes (heap g))) = true → transformers_ok g.
Proof.
  rewrite forallb_forall. intros H a x t Ha Ht. unfold as_artifact in Ha.
  destruct (nodes (heap g) !! a) as [nd|] eqn:E; [|done].
  specialize (H (a, nd)). simpl in H. destruct (node_data nd); simplify_eq.
  rewrite Ht in H. unfold commandsOf. rewrite fmap_is_Some. apply (bool_decide_eq_true_1 _), H.
  apply list_elem_of_In, elem_of_map_to_list, E.
Qed.

(** *** A build with two jobs and one place in the pool "cc"

    The outputs 3 and 4 are both made of the source file 2; the limit of the pool
    lets only one of them be made at a time. *)
Module Example.
#[local] Instance noScripts : Scripts := {|
  applyRuleNode _ g := Ok (g, ([], []));
  scanForFileDependencies _ _ g := Ok (g, false);
  commandsNeedRerun _ g := (false, g)
|}.

#[local] Instance noScripts_laws : ScriptsLaws noScripts.
Proof. split; simpl; intros; by simplify_eq. Qed.

Definition options : BuildOptions :=
  mkBuildOptions 2 false false false false false [] [] [] [] false.

#[local] Instance settings : Settings :=
  mkSettings options [7] [7] 1 (λ _, []) (λ _, [mkJobLimit_ (lit "cc") 1]).

Definition source : Node :=
  mkNode [3; 4] [] (Some 7)
    (ArtifactNodeType (mkArtifact (lit "a.c") 5 SourceFile [] [] [] None [] 0)).
Definition output (name : str) (t : nat) : Node :=
  mkNode [] [2] (Some 7)
    (ArtifactNodeType (mkArtifact name 0 Generated [] [] [] (Some t) [] 0)).

Definition project : Heap :=
  mkHeap {[2 := source; 3 := output (lit "a.o") 0; 4 := output (lit "b.o") 1]}
    {[0 := mkTransformer [2] [3] [] 0 ∅ ∅; 1 := mkTransformer [2] [4] [] 0 ∅ ∅]} ∅
    {[7 := mkResolvedProduct (lit "app") true [] [] [] 0 []
             (Some (mkProductBuildData [2; 3; 4] [3; 4] ∅ true))]} ∅ ∅ false.

Definition buildGraph : Graph :=
  mkGraph project
    {[3 := mkArtifactData false false true true; 4 := mkArtifactData false false true true]}
    {[0 := mkTransformerData false false [lit "cc"] 0;
                      1 := mkTransformerData false false [lit "cc"; lit "cc"] 0]} ∅ ∅.

Definition files : FileSystem := mkFileSystem (λ _, 10%Z) (λ _, 10%Z) (λ _, true) (λ _, true) 20.

Definition atStart : Executor := (startBuild 10 (newExecutor buildGraph files)).2.

(** The commands of the first job, which makes 4, end, and its signal is delivered. *)
Definition afterCommand1 : Executor := (handleEvent 10 (EventCommandFinished 1 false) atStart).2.
Definition afterCommand2 : Executor :=
  (handleEvent 10 (EventCommandFinished 1 false) afterCommand1).2.
Definition afterFirst : Executor := (handleEvent 10 EventJobFinished afterCommand2).2.

Lemma building_atStart : building_from buildGraph files atStart.
Proof. apply building_started. vm_compute. reflexivity. Qed.

Lemma building_afterFirst : building_from buildGraph files afterFirst.
Proof.
  apply building_stepped; [apply building_stepped; [apply building_stepped;
    [apply building_atStart|..]|..]|..]; try (vm_compute; reflexivity);
    [by apply enabled_check; vm_compute..|vm_compute; discriminate].
Qed.

Lemma buildGraph_transformers : transformers_ok buildGraph.
Proof. apply check_transformers_ok. vm_compute. reflexivity. Qed.

Lemma twoJobs : 0 < Z.to_nat effectiveMaxJobCount.
Proof. vm_compute. lia. Qed.

Lemma jobs_accounted_witness :
  m_state afterFirst = ExecutorRunning ∧ ∃ n, (n = 0 ∨ n = 2) ∧ jobs_ok n afterFirst.
Proof.
  split; [vm_compute; reflexivity|].
  apply (jobs_accounted twoJobs buildGraph files);
    [apply buildGraph_transformers|apply building_afterFirst].
Defined.

Lemma job_limits_respected_witness :
  occupies atStart 1 1 (lit "cc") ∧ limitFor atStart 1 (lit "cc") 1 ∧
  (Z.of_nat (size (running (graph atStart) (m_processingJobs atStart) (lit "cc"))) ≤ 1)%Z.
Proof.
  assert (occupies atStart 1 1 (lit "cc")) as Ho.
  { eexists _, _. split; [vm_compute; reflexivity|]. split; [vm_compute; reflexivity|].
    split; [vm_compute; reflexivity|]. vm_compute. left. }
  assert (limitFor atStart 1 (lit "cc") 1) as Hl.
  { exists 7, [mkJobLimit_ (lit "cc") 1]. split_and!; vm_compute; reflexivity. }
  split; [exact Ho|]. split; [exact Hl|].
  exact (job_limits_respected twoJobs buildGraph files atStart 1 1 (lit "cc") 1
    buildGraph_transformers building_atStart Ho Hl).
Defined.

Lemma build_progresses_witness :
  m_state afterFirst ≠ ExecutorIdle ∧
  ((∃ j, ∀ err, enabledEvent (EventCommandFinished j err) afterFirst) ∨
   enabledEvent EventJobFinished afterFirst ∨ enabledEvent EventFinish afterFirst).
Proof.
  split; [vm_compute; discriminate|].
  exact (build_progresses twoJobs buildGraph files afterFirst
    buildGraph_transformers building_afterFirst).
Defined.
End Example.

(** *** A product that is not built

    As before, without limits; a scanner finds that 3 includes the file 6, which the
    product 8 generates in the same pool.  Only the product 7 is built. *)
Module OtherProduct.
#[local] Instance oneScanner : Scripts := {|
  applyRuleNode _ g := Ok (g, ([], []));
  scanForFileDependencies a i g :=
    if a =? 3 then let* (b, h) := safeConnect 3 6 (heap g) in Ok (on_heap (λ _, h) g, b)
    else Ok (g, false);
  commandsNeedRerun _ g := (false, g)
|}.

#[local] Instance settings : Settings :=
  mkSettings Example.options [7] [7; 8] 1 (λ _, []) (λ _, []).

Definition header : Node :=
  mkNode [] [] (Some 8)
    (ArtifactNodeType (mkArtifact (lit "b.h") 5 Generated [] [] [] (Some 2) [] 0)).

Definition project : Heap :=
  mkHeap (<[6 := header]> (nodes Example.project))
    (<[2 := mkTransformer [] [6] [] 0 ∅ ∅]> (transformers Example.project)) ∅
    (<[8 := mkResolvedProduct (lit "lib") true [] [] [] 0 []
              (Some (mkProductBuildData [6] [6] ∅ true))]>
     {[7 := mkResolvedProduct (lit "app") true [] [8] [] 0 []
             (Some (mkProductBuildData [2; 3; 4] [3; 4] ∅ true))]}) ∅ ∅ false.

Definition buildGraph : Graph :=
  mkGraph project (artifactData Example.buildGraph) (<[2 := mkTransformerData false false [lit "cc"] 0]>
    (transformerData Example.buildGraph)) ∅ ∅.

(** The leaf 6 would be skipped by [checkNodeProduct], as 8 is not built; but before
    that [schedulingBlockedByJobLimit] looks for the limits of 8, while 4 is made in
    the same pool: [std::map::at] throws [std::out_of_range]. *)
Lemma jobLimits_of_unbuilt_product :
  (startBuild 10 (newExecutor buildGraph Example.files)).1 = Throw OutOfRange ∧
  isErrorInfo OutOfRange = false.
Proof. split; vm_compute; reflexivity. Qed.
End OtherProduct.
