(* ===== verification/ExecutorStatic.v ===== *)
(** * Builds of a graph that does not change

    When all rules have been applied before, no script adds a node or an edge; what
    is left of a build is the order in which the nodes are built.  This file states
    what such a graph and such scripts are, and which functions of the executor
    leave the build states and the queue of leaves alone: they are calm. *)

From S2P Require Import Prelude FlatSet BuildGraph BuildGraphCorrect ArtifactRemoval RuleGraph.
From S2P Require Import JobLimits StateMonad ExecutorJob ExecutorState Executor ExecutorFrame.

(** ** Graphs with the same structure *)

Definition no_scanned (h : Heap) : Prop :=
  ∀ a x, as_artifact h a = Some x → childrenAddedByScanner x = [].

Record stable (g g' : Graph) : Prop := {
  sb_edges : same_edges (heap g) (heap g');
  sb_objects : same_objects (heap g) (heap g');
  sb_roots p : m_roots <$> buildDataOf (heap g') p = m_roots <$> buildDataOf (heap g) p;
  sb_scanned : no_scanned (heap g) → no_scanned (heap g');
  sb_rescuable : rescuable g = ∅ → rescuable g' = ∅;
  sb_nodes : dom (nodes (heap g')) = dom (nodes (heap g))
}.

#[export] Instance stable_preorder : PreOrder stable.
Proof.
  split; [by intros g; split|]. intros g1 g2 g3 [] []. split.
  - by etrans.
  - by etrans.
  - congruence.
  - auto.
  - auto.
  - congruence.
Qed.

Lemma stable_same_heap g g' :
  heap g' = heap g → (rescuable g = ∅ → rescuable g' = ∅) → stable g g'.
Proof. intros E HR. split; rewrite ?E; done. Qed.

Lemma stable_upd_artifact f u g :
  (∀ a, core (f a) = core a) →
  (∀ a, childrenAddedByScanner a = [] → childrenAddedByScanner (f a) = []) →
  stable g (on_heap (upd_node (upd_artifact f) u) g).
Proof.
  intros Hf Hs. split; simpl; try done.
  - apply upd_artifact_same_edges.
  - by apply same_objects_upd_artifact.
  - intros Hn a x. rewrite as_artifact_upd. case_decide; [|apply Hn].
    intros (y & Hy & ->)%fmap_Some. eapply Hs, Hn, Hy.
  - apply dom_alter_L.
Qed.

Lemma stable_transformers f t g :
  (∀ r, transformer_outputs (f r) = transformer_outputs r) →
  stable g (on_heap (set_transformers (alter f t)) g).
Proof.
  intros Hf. split; simpl; try done. by apply same_objects_transformers.
Qed.

(** ** Calm functions *)

Record calm (e e' : Executor) : Prop := {
  c_graph : stable (graph e) (graph e');
  c_states : buildStates e' = buildStates e;
  c_leaves : m_leaves e' = m_leaves e;
  c_available : m_availableJobs e' = m_availableJobs e;
  c_processing : m_processingJobs e' = m_processingJobs e;
  c_jobs : jobs e' = jobs e;
  c_signals : finishedSignals e' = finishedSignals e;
  c_state : m_state e' = m_state e;
  c_errors : m_errors e' = m_errors e;
  c_posted : finishPosted e' = finishPosted e
}.

#[export] Instance calm_preorder : PreOrder calm.
Proof.
  split; [by intros e; split|]. intros e1 e2 e3 [] []. split; [by etrans|congruence..].
Qed.

Lemma calm_on_graph f e : stable (graph e) (f (graph e)) → calm e (on_graph f e).
Proof. intros Hf. by split. Qed.

(** What the scripts do in such a build: they add nothing, and do not loop. *)
Class StaticScripts (S : Scripts) : Prop := {
  applyRuleNode_static r g :
    match applyRuleNode r g with
    | Ok (g', x) => stable g g' ∧ x = ([], [])
    | Throw x => x ≠ OutOfFuel
    end;
  scanForFileDependencies_static a i g :
    match scanForFileDependencies a i g with
    | Ok (g', b) => stable g g' ∧ b = false
    | Throw x => x ≠ OutOfFuel
    end;
  commandsNeedRerun_static t g : stable g (commandsNeedRerun t g).2
}.

Create HintDb calm.

Lemma calm_onGraph {A} (f : Graph → exn BGError (Graph * A)) :
  (∀ g g' x, f g = Ok (g', x) → stable g g') → moves calm (onGraph f).
Proof.
  intros Hf e. unfold onGraph. destruct (f (graph e)) as [[g' x]|x] eqn:E; simpl; [|done].
  apply calm_on_graph. by eapply Hf.
Qed.

Lemma calm_upd_artifact f u :
  (∀ a, core (f a) = core a) →
  (∀ a, childrenAddedByScanner a = [] → childrenAddedByScanner (f a) = []) →
  moves calm (modify (on_graph (on_heap (upd_node (upd_artifact f) u))) : M unit).
Proof. intros Hf Hs. apply moves_modify. intros e. by apply calm_on_graph, stable_upd_artifact. Qed.

Lemma calm_updArtifactData a f : moves calm (modify (updArtifactData a f) : M unit).
Proof. apply moves_modify. intros e. apply calm_on_graph. by apply stable_same_heap. Qed.
Lemma calm_updTransformerData t f : moves calm (modify (updTransformerData t f) : M unit).
Proof. apply moves_modify. intros e. apply calm_on_graph. by apply stable_same_heap. Qed.
Lemma calm_setTimestamp a t : moves calm (modify (setTimestamp a t) : M unit).
Proof. by apply calm_upd_artifact. Qed.
Lemma calm_check b : moves calm (check b).
Proof. apply moves_lift, _. Qed.

#[export] Hint Resolve calm_updArtifactData calm_updTransformerData calm_setTimestamp calm_check : moves.

Section Calm.
Context `{PQ : PriorityQueue, SC : Scripts, !StaticScripts SC, ST : Settings}.

Lemma calm_retrieveSourceFileTimestamp a : moves calm (retrieveSourceFileTimestamp a).
Proof.
  unfold retrieveSourceFileTimestamp. moves. apply moves_modify. intros e0.
  repeat case_match; by first [apply calm_on_graph, stable_upd_artifact|idtac].
Qed.
#[local] Hint Resolve calm_retrieveSourceFileTimestamp : moves.

Lemma calm_isUpToDate a : moves calm (isUpToDate a).
Proof. unfold isUpToDate. moves. Qed.
#[local] Hint Resolve calm_isUpToDate : moves.

Lemma calm_checkOutputs l a b : moves calm (checkOutputs l a b).
Proof. revert a b. induction l as [|x l IH]; intros a b; cbn [checkOutputs]; moves. Qed.
#[local] Hint Resolve calm_checkOutputs : moves.

Lemma calm_commandsNeedRerun t :
  moves calm (onGraph (λ g, let '(b, g) := commandsNeedRerun t g in Ok (g, b))).
Proof.
  apply calm_onGraph. intros g g' x Hg. pose proof (commandsNeedRerun_static t g) as Hk.
  destruct (commandsNeedRerun t g) as [b g1]. by simplify_eq/=.
Qed.
#[local] Hint Resolve calm_commandsNeedRerun : moves.

Lemma calm_mustExecuteTransformer t : moves calm (mustExecuteTransformer t).
Proof. unfold mustExecuteTransformer. moves. Qed.

Lemma calm_updateOutput a : moves calm (updateOutput a).
Proof. unfold updateOutput. moves. Qed.

Lemma calm_applyRuleNode r : moves calm (onGraph (applyRuleNode r)).
Proof.
  apply calm_onGraph. intros g g' x Hg. pose proof (applyRuleNode_static r g) as Hs.
  rewrite Hg in Hs. apply Hs.
Qed.

Lemma calm_scanForFileDependencies a i : moves calm (onGraph (scanForFileDependencies a i)).
Proof.
  apply calm_onGraph. intros g g' x Hg. pose proof (scanForFileDependencies_static a i g) as Hs.
  rewrite Hg in Hs. apply Hs.
Qed.

Lemma calm_setupFilesToConsider : moves calm setupFilesToConsider.
Proof. unfold setupFilesToConsider. moves; apply moves_modify; intros ?; by split. Qed.

Lemma calm_checkProducts : moves calm checkProducts.
Proof. unfold checkProducts. moves. Qed.

Lemma calm_prepareProducts : moves calm prepareProducts.
Proof. apply moves_modify. intros ?. by split. Qed.

Lemma calm_prepareArtifact a : moves calm (prepareArtifact a).
Proof. unfold prepareArtifact. moves. Qed.

Lemma calm_syncFileDependencies : moves calm syncFileDependencies.
Proof.
  unfold syncFileDependencies. moves; apply moves_modify; intros e; apply calm_on_graph;
    first [by apply stable_same_heap|split; simpl; try done].
Qed.
End Calm.

(** ** Functions that do not run out of fuel *)

Abbreviation no_fuel := (throws_only (S := Executor) (λ x : BGError, x ≠ OutOfFuel)).

Lemma no_fuel_check b : no_fuel (check b).
Proof. intros e. unfold check, lift, QBS_CHECK. by destruct b. Qed.
#[export] Hint Resolve no_fuel_check : throws.

Section NoFuel.
Context `{PQ : PriorityQueue, SC : Scripts, !StaticScripts SC, ST : Settings}.

Lemma no_fuel_applyRuleNode r : no_fuel (onGraph (applyRuleNode r)).
Proof.
  intros e. pose proof (applyRuleNode_static r (graph e)) as Hs. unfold onGraph.
  by destruct (applyRuleNode r (graph e)) as [[g' x]|x].
Qed.

Lemma no_fuel_scanForFileDependencies a i : no_fuel (onGraph (scanForFileDependencies a i)).
Proof.
  intros e. pose proof (scanForFileDependencies_static a i (graph e)) as Hs. unfold onGraph.
  by destruct (scanForFileDependencies a i (graph e)) as [[g' x]|x].
Qed.

Lemma no_fuel_commandsNeedRerun t :
  no_fuel (onGraph (λ g, let '(b, g) := commandsNeedRerun t g in Ok (g, b))).
Proof. intros e. unfold onGraph. by destruct (commandsNeedRerun t (graph e)). Qed.
#[local] Hint Resolve no_fuel_commandsNeedRerun : throws.

Lemma no_fuel_retrieveSourceFileTimestamp a : no_fuel (retrieveSourceFileTimestamp a).
Proof. unfold retrieveSourceFileTimestamp. throws. Qed.
#[local] Hint Resolve no_fuel_retrieveSourceFileTimestamp : throws.

Lemma no_fuel_isUpToDate a : no_fuel (isUpToDate a).
Proof. unfold isUpToDate. throws. Qed.
#[local] Hint Resolve no_fuel_isUpToDate : throws.

Lemma no_fuel_checkOutputs l a b : no_fuel (checkOutputs l a b).
Proof. revert a b. induction l as [|x l IH]; intros a b; cbn [checkOutputs]; throws. Qed.
#[local] Hint Resolve no_fuel_checkOutputs : throws.

Lemma no_fuel_mustExecuteTransformer t : no_fuel (mustExecuteTransformer t).
Proof. unfold mustExecuteTransformer. throws. Qed.

Lemma no_fuel_updateOutput a : no_fuel (updateOutput a).
Proof. unfold updateOutput. throws. Qed.

Lemma no_fuel_prepareArtifact a : no_fuel (prepareArtifact a).
Proof. unfold prepareArtifact. throws. Qed.

Lemma no_fuel_setupFilesToConsider : no_fuel setupFilesToConsider.
Proof. unfold setupFilesToConsider. throws. Qed.

Lemma no_fuel_checkProducts : no_fuel checkProducts.
Proof. unfold checkProducts. throws. Qed.

Lemma no_fuel_syncFileDependencies : no_fuel syncFileDependencies.
Proof. unfold syncFileDependencies. throws. Qed.
End NoFuel.

(** ** Rescuing and scanning add nothing *)

Definition nothing_to_add (g : Graph) : Prop := rescuable g = ∅ ∧ no_scanned (heap g).

Lemma nothing_to_add_stable g g' : stable g g' → nothing_to_add g → nothing_to_add g'.
Proof. intros S [HR HS]. split; [by apply (sb_rescuable _ _ S)|by apply (sb_scanned _ _ S)]. Qed.

(** [m] is calm, and returns only values with [Q]. *)
Definition calmly {A} (Q : A → Prop) (m : M A) (e : Executor) : Prop :=
  calm e (m e).2 ∧ match (m e).1 with Ok a => Q a | Throw x => x ≠ OutOfFuel end.

Lemma calmly_intro {A} (m : M A) e : moves calm m → no_fuel m → calmly (λ _, True) m e.
Proof.
  intros Hc Hf. split; [apply Hc|]. specialize (Hf e). by destruct (m e) as [[a|x] e'].
Qed.

Lemma calmly_bind {A B} (R : A → Prop) (Q : B → Prop) (m : M A) (k : A → M B) e :
  calmly R m e → (∀ a e', calm e e' → R a → calmly Q (k a) e') → calmly Q (m ≫= k) e.
Proof.
  intros [Hc Hr] Hk. unfold calmly, mbind, st_bind. destruct (m e) as [[a|x] e']; simpl in *; [|done].
  destruct (Hk a e' Hc Hr) as [Hc' Hr']. split; [by etrans|done].
Qed.

Lemma calmly_gets {A} (Q : A → Prop) (k : Executor → M A) e :
  calmly Q (k e) e → calmly Q (gets id ≫= k) e.
Proof. done. Qed.

Section Nothing.
Context `{PQ : PriorityQueue, SC : Scripts, !StaticScripts SC, ST : Settings}.

Lemma rescueOldBuildData_static a e :
  nothing_to_add (graph e) → calmly (λ b, b = false) (rescueOldBuildData a) e.
Proof.
  intros [HR _]. unfold calmly, rescueOldBuildData, mbind, st_bind, gets, modify, id.
  destruct (negb (oldDataPossiblyPresent (artifactDataOf e a))); [by split|].
  pose proof (calm_updArtifactData a (on_oldDataPossiblyPresent (λ _, false)) e) as Hc.
  destruct (negb (bool_decide _)); [by split|].
  destruct (productOf (heapOf e) a) as [p|], (transformer (artifactOf (heapOf e) a)) as [t|];
    try (by split). rewrite HR, lookup_empty. by split.
Qed.

Lemma scan_static a e : nothing_to_add (graph e) → calmly (λ b, b = false) (scan a) e.
Proof.
  intros [_ HS]. unfold scan. apply calmly_gets.
  destruct (inputsScanned (artifactDataOf e a)); [by split|].
  assert (childrenAddedByScanner (artifactOf (heapOf e) a) = []) as ->.
  { unfold artifactOf. destruct (as_artifact (heapOf e) a) as [x|] eqn:E; [|done].
    exact (HS a x E). }
  eapply (calmly_bind (λ _, True)); [apply calmly_intro; [moves|throws]|]. intros [] e1 _ _.
  eapply (calmly_bind (λ _, True)); [apply calmly_intro; [by apply calm_upd_artifact|throws]|].
  intros [] e2 _ _. eapply (calmly_bind (λ _, True)); [by split|]. intros [] e3 _ _.
  destruct (transformer (artifactOf (heapOf e) a)) as [t|]; [|by split].
  generalize (transformer_inputs (transformerOf e t)) as l. intros l. revert e3.
  induction l as [|i l IH]; intros e3; [by split|]. cbn [foldM].
  eapply (calmly_bind (λ b, b = false)); [|intros b e4 _ ->; apply IH].
  eapply (calmly_bind (λ b, b = false)); [|intros b e4 _ ->; by split].
  pose proof (calm_scanForFileDependencies a i e3) as Hc. split; [done|].
  pose proof (scanForFileDependencies_static a i (graph e3)) as Hs. unfold onGraph.
  destruct (scanForFileDependencies a i (graph e3)) as [[g b]|x]; [by destruct Hs|done].
Qed.
End Nothing.
