(* ===== verification/ExecutorOrder.v ===== *)
(** * The order in which nodes are built

    In a build of a graph that does not change, a node is built after its children,
    no node is forgotten, and scheduling terminates. *)

From S2P Require Import Prelude FlatSet BuildGraph BuildGraphCorrect ArtifactRemoval RuleGraph.
From S2P Require Import JobLimits StateMonad ExecutorJob ExecutorState Executor ExecutorFrame.
From S2P Require Import ExecutorStatic ExecutorJobs.

(** ** Settled graphs *)

Definition outs (g : Graph) (t : nat) : list nat :=
  default [] (transformer_outputs <$> transformers (heap g) !! t).

(** Nothing is added in the build of the graph; a generated artifact is an output of
    its transformer, and the outputs of a transformer are generated artifacts of one
    product, with the same children. *)
Record settled (g : Graph) : Prop := {
  se_wf : wf_graph (heap g);
  se_nothing : nothing_to_add g;
  se_output a x t : as_artifact (heap g) a = Some x → artifactType x = Generated →
    transformer x = Some t → a ∈ outs g t;
  se_generated t o : o ∈ outs g t → ∃ x,
    as_artifact (heap g) o = Some x ∧ artifactType x = Generated ∧ transformer x = Some t;
  se_siblings t o o' : o ∈ outs g t → o' ∈ outs g t →
    children (node (heap g) o) = children (node (heap g) o') ∧
    productOf (heap g) o = productOf (heap g) o';
  se_roots p b : buildDataOf (heap g) p = Some b → wf_set (m_roots b)
}.

Lemma outs_stable g g' t : stable g g' → outs g' t = outs g t.
Proof. intros S. unfold outs. by rewrite (so_outputs _ _ (sb_objects _ _ S)). Qed.

Lemma outputs_outs e t : transformer_outputs (transformerOf e t) = outs (graph e) t.
Proof. unfold transformerOf, outs, heapOf. by destruct (transformers _ !! t). Qed.

Section Order.
Context `{PQ : PriorityQueue, !PriorityQueueLaws PQ, SC : Scripts, !StaticScripts SC, ST : Settings}.
Context (g : Graph).
Hypothesis G : settled g.

Notation edges := (edge (heap g)).

(** The roots of the products that are built, and what they depend on. *)
Definition root (r : nat) : Prop :=
  ∃ p b, p ∈ m_productsToBuild ∧ buildDataOf (heap g) p = Some b ∧ r ∈ m_roots b.
Definition reached (u : nat) : Prop := ∃ r, root r ∧ rtc edges r u.

Definition children_built (e : Executor) (u : nat) : Prop :=
  ∀ c, edges u c → buildState e c = Built.

(** The node belongs to a product that is built. *)
Definition belongs (u : nat) : bool :=
  negb m_partialBuild
  || match productOf (heap g) u with Some p => bool_decide (p ∈ m_productsToBuild) | None => false end.

Definition nobody : nat → Prop := λ _, False.

(** ** The invariant

    The nodes in [P] are being dealt with, and need not be in the queue; those in [Q]
    need not belong to a job. *)
Record inv (P Q : nat → Prop) (e : Executor) : Prop := {
  in_graph : stable g (graph e);
  in_buildable u : buildState e u = Buildable → children_built e u → u ∈ m_leaves e ∨ P u;
  in_building u : buildState e u = Building →
    (∃ j t, m_processingJobs e !! j = Some t ∧ u ∈ outs g t) ∨ Q u;
  in_available : NoDup (m_availableJobs e) ∧
    ∀ j, j ∈ m_availableJobs e → m_processingJobs e !! j = None;
  in_leaves u : u ∈ m_leaves e → buildState e u ≠ Untouched ∧ children_built e u;
  in_order u : buildState e u = Building ∨ buildState e u = Built → children_built e u;
  in_processing j t u : m_processingJobs e !! j = Some t → u ∈ outs g t →
    buildState e u = Building ∨ buildState e u = Built;
  in_reached u : reached u → buildState e u ≠ Untouched
}.

(** The outputs of a transformer become built together. *)
Definition together (e : Executor) : Prop :=
  ∀ t o o', o ∈ outs g t → o' ∈ outs g t → belongs o = true → buildState e o = Built →
    buildState e o' = Built.

Lemma buildState_states e e' u : buildStates e' = buildStates e → buildState e' u = buildState e u.
Proof. unfold buildState. by intros ->. Qed.

Lemma children_built_states e e' u :
  buildStates e' = buildStates e → children_built e u → children_built e' u.
Proof. intros Hs Hc c Hv. rewrite (buildState_states e) by done. by apply Hc. Qed.

(** A change that keeps the states, the queue, and the transformers of the jobs. *)
Lemma inv_same P Q e e' :
  stable (graph e) (graph e') → buildStates e' = buildStates e → m_leaves e' = m_leaves e →
  m_availableJobs e' = m_availableJobs e → m_processingJobs e' = m_processingJobs e →
  inv P Q e → inv P Q e'.
Proof.
  intros Hg Hs Hl Ha Hp [IG IB IU IA IL IO IP IR].
  assert (∀ u, buildState e' u = buildState e u) as Hb by (intros; by apply buildState_states).
  assert (∀ u, children_built e u ↔ children_built e' u) as Hc
    by (intros u; split; by apply children_built_states).
  split.
  - by etrans.
  - intros u. rewrite Hb, <-Hc, Hl. apply IB.
  - intros u. rewrite Hb, Hp. apply IU.
  - by rewrite Ha, Hp.
  - intros u. rewrite Hb, <-Hc, Hl. apply IL.
  - intros u. rewrite Hb, <-Hc. apply IO.
  - intros j t u. rewrite Hb, Hp. apply IP.
  - intros u. rewrite Hb. apply IR.
Qed.

Lemma inv_calm P Q e e' : calm e e' → inv P Q e → inv P Q e'.
Proof. intros []. by apply inv_same. Qed.

Lemma inv_weaken P P' Q Q' e :
  (∀ u, P u → P' u) → (∀ u, Q u → Q' u) → inv P Q e → inv P' Q' e.
Proof.
  intros HP HQ [IG IB IU IA IL IO IP IR]. split; try done.
  - intros u Hu Hc. destruct (IB u Hu Hc); auto.
  - intros u Hu. destruct (IU u Hu); auto.
Qed.

Lemma together_states e e' : buildStates e' = buildStates e → together e → together e'.
Proof.
  intros Hs T t o o' Ho Ho' Hb. rewrite !(buildState_states e e') by done. by apply (T t).
Qed.

Lemma inv_nothing P Q e : inv P Q e → nothing_to_add (graph e).
Proof. intros I. eapply nothing_to_add_stable; [apply (in_graph _ _ _ I)|]. apply se_nothing, G. Qed.

Lemma inv_outs P Q e t : inv P Q e → transformer_outputs (transformerOf e t) = outs g t.
Proof. intros I. rewrite outputs_outs. apply outs_stable, (in_graph _ _ _ I). Qed.

Lemma inv_node P Q e u : inv P Q e →
  children (node (heapOf e) u) = children (node (heap g) u) ∧
  parents (node (heapOf e) u) = parents (node (heap g) u).
Proof. intros I. apply (sb_edges _ _ (in_graph _ _ _ I)). Qed.

(** ** A node is finished *)

Definition finished (u : nat) (e : Executor) : Executor :=
  let e1 := setBuildState u Built e in
  on_m_leaves (app (rev (List.filter (λ v,
      bool_decide (buildState e1 v = Buildable) && allChildrenBuilt e1 v)
    (parents (node (heapOf e) u))))) e1.

Lemma finishNode_eq u e : finishNode u e = (Ok tt, finished u e).
Proof.
  unfold finishNode, finished. unfold mbind at 1, st_bind at 1, modify at 1.
  unfold mbind at 1, st_bind at 1, gets at 1. set (e1 := setBuildState u Built e).
  change (heapOf e1) with (heapOf e). generalize (parents (node (heapOf e) u)) as l. intros l.
  assert (∀ pre, forM l (λ parent,
      e ← gets id;
      when (bool_decide (buildState e parent = Buildable) && allChildrenBuilt e parent)
        (modify (pushLeaf parent))) (on_m_leaves (app pre) e1) =
    (@Ok BGError _ tt, on_m_leaves (app (rev (List.filter (λ v,
      bool_decide (buildState e1 v = Buildable) && allChildrenBuilt e1 v) l) ++ pre)) e1)) as Hl.
  { induction l as [|v l IH]; intros pre; [done|]. unfold forM in *. cbn [foldM List.filter].
    unfold mbind at 1, st_bind at 1. unfold mbind at 1, st_bind at 1, gets at 1, id at 1.
    change (buildState (on_m_leaves (app pre) e1) v) with (buildState e1 v).
    change (allChildrenBuilt (on_m_leaves (app pre) e1) v) with (allChildrenBuilt e1 v).
    destruct (bool_decide _ && _); cbn [when mret st_ret modify].
    - cbn [rev]. rewrite <-app_assoc. cbn [app]. apply (IH (v :: pre)).
    - apply IH. }
  specialize (Hl []). rewrite app_nil_r in Hl. exact Hl.
Qed.

Lemma buildState_finished u e v :
  buildState (finished u e) v = if decide (u = v) then Built else buildState e v.
Proof.
  unfold buildState, finished. simpl. case_decide as Hu; [subst; by rewrite lookup_insert_eq|].
  by rewrite lookup_insert_ne.
Qed.

Lemma children_built_finished u e v : children_built e v → children_built (finished u e) v.
Proof. intros Hc c Hv. rewrite buildState_finished. case_decide; [done|]. by apply Hc. Qed.

Lemma allChildrenBuilt_spec P Q e e' v :
  inv P Q e → heapOf e' = heapOf e → allChildrenBuilt e' v = true ↔ children_built e' v.
Proof.
  intros I Hh. unfold allChildrenBuilt. rewrite Hh, (proj1 (inv_node P Q e v I)), forallb_forall.
  unfold children_built, edge. split.
  - intros Ha c Hc. eapply bool_decide_eq_true_1, Ha. by apply list_elem_of_In.
  - intros Hc c Hin. apply bool_decide_eq_true_2, Hc. by apply list_elem_of_In.
Qed.

Lemma elem_of_finished P Q u e v :
  inv P Q e → v ∈ m_leaves (finished u e) ↔
    (edges v u ∧ v ≠ u ∧ buildState e v = Buildable ∧ children_built (finished u e) v) ∨
    v ∈ m_leaves e.
Proof.
  intros I. unfold finished at 1. cbn [on_m_leaves m_leaves]. rewrite elem_of_app. apply or_iff_compat_r.
  rewrite list_elem_of_In, <-in_rev, filter_In, <-list_elem_of_In, andb_true_iff, bool_decide_eq_true.
  rewrite (proj2 (inv_node P Q e u I)), <-(wf_edges _ (se_wf _ G)).
  rewrite (allChildrenBuilt_spec P Q e) by done.
  assert (buildState (setBuildState u Built e) v = buildState (finished u e) v) as -> by done.
  assert (children_built (setBuildState u Built e) v ↔ children_built (finished u e) v) as -> by done.
  rewrite buildState_finished. case_decide as Hv; naive_solver.
Qed.

Lemma inv_finished P Q u e :
  inv P Q e → children_built e u →
  inv (λ x, P x ∧ x ≠ u) (λ x, Q x ∧ x ≠ u) (finished u e).
Proof.
  intros I Hu. pose proof (λ v, elem_of_finished P Q u e v I) as Hl.
  destruct I as [IG IB IU IA IL IO IP IR]. split.
  - done.
  - intros v. rewrite buildState_finished, Hl. case_decide as Hv; [done|]. intros Hb Hc.
    destruct (decide (edges v u)) as [He|He]; [naive_solver|].
    assert (children_built e v) as Hc'.
    { intros c Hvc. specialize (Hc c Hvc). rewrite buildState_finished in Hc.
      case_decide; [by subst|done]. }
    destruct (IB v Hb Hc'); [by left; right|right; naive_solver].
  - intros v. rewrite buildState_finished. case_decide as Hv; [done|]. intros Hb.
    destruct (IU v Hb); [by left|right; naive_solver].
  - done.
  - intros v. rewrite Hl, buildState_finished. intros [(_ & Hne & Hb & Hc)|Hv].
    + split; [|done]. rewrite decide_False, Hb by done. done.
    + destruct (IL v Hv) as [Hb Hc]. split; [by case_decide|]. by apply children_built_finished.
  - intros v. rewrite buildState_finished. case_decide as Hv.
    + intros _. subst v. by apply children_built_finished.
    + intros Hb. apply children_built_finished. by apply IO.
  - intros j t v Hj Hv. rewrite buildState_finished. case_decide; [by right|]. by eapply IP.
  - intros v Hv. rewrite buildState_finished. case_decide; [done|]. by apply IR.
Qed.

(** Several nodes are finished. *)
Definition finishedAll (l : list nat) (e : Executor) : Executor := foldl (λ e u, finished u e) e l.

Lemma forM_finishNode l e : forM l finishNode e = (Ok tt, finishedAll l e).
Proof.
  revert e. induction l as [|u l IH]; intros e; [done|]. unfold forM in *. cbn [foldM].
  unfold mbind, st_bind. rewrite finishNode_eq. apply IH.
Qed.

Lemma buildState_finishedAll l e v :
  buildState (finishedAll l e) v = if bool_decide (v ∈ l) then Built else buildState e v.
Proof.
  revert e. induction l as [|u l IH]; intros e; [done|]. cbn [finishedAll foldl].
  fold (finishedAll l (finished u e)). rewrite IH, buildState_finished.
  destruct (decide (v ∈ l)) as [Hv|Hv].
  - rewrite (bool_decide_eq_true_2 _ Hv), bool_decide_eq_true_2; [done|by right].
  - rewrite (bool_decide_eq_false_2 _ Hv). destruct (decide (u = v)) as [->|Hu].
    + rewrite bool_decide_eq_true_2; [done|left].
    + rewrite bool_decide_eq_false_2; [done|]. rewrite elem_of_cons. naive_solver.
Qed.

Lemma inv_finishedAll P Q l e :
  inv P Q e → (∀ u, u ∈ l → children_built e u) →
  inv (λ x, P x ∧ x ∉ l) (λ x, Q x ∧ x ∉ l) (finishedAll l e).
Proof.
  revert P Q e. induction l as [|u l IH]; intros P Q e I Hl.
  { eapply inv_weaken; [| |exact I]; intros v Hv; (split; [done|]); apply not_elem_of_nil. }
  cbn [finishedAll foldl]. eapply inv_weaken; [| |apply (IH (λ x, P x ∧ x ≠ u) (λ x, Q x ∧ x ≠ u)); [apply inv_finished|]].
  - intros v. rewrite elem_of_cons. naive_solver.
  - intros v. rewrite elem_of_cons. naive_solver.
  - done.
  - apply Hl. left.
  - intros v Hv. apply children_built_finished, Hl. by right.
Qed.

(** ** What is left to do

    An upper bound of the number of leaves that are still taken from the queue. *)
Definition outsOf (u : nat) : list nat :=
  match as_artifact (heap g) u with
  | Some x => match transformer x with Some t => outs g t | None => [] end
  | None => []
  end.

Definition parentCount (u : nat) : nat := length (parents (node (heap g) u)).
Definition pushes (u : nat) : nat := parentCount u + sum_list_with parentCount (outsOf u).

Definition remaining (e : Executor) : nat :=
  length (m_leaves e) +
  sum_list_with (λ u, if bool_decide (buildState e u = Buildable) then pushes u else 0)
    (elements (dom (nodes (heap g)))).

Lemma sum_list_with_le {A} (f f' : A → nat) l :
  (∀ x, f' x ≤ f x) → sum_list_with f' l ≤ sum_list_with f l.
Proof. intros Hf. induction l as [|x l IH]; simpl; [done|]. specialize (Hf x). lia. Qed.

Lemma sum_list_with_less {A} (f f' : A → nat) l u :
  (∀ x, f' x ≤ f x) → u ∈ l → f' u = 0 → sum_list_with f' l + f u ≤ sum_list_with f l.
Proof.
  intros Hf Hu H0. induction l as [|x l IH]; simpl; [by apply elem_of_nil in Hu|].
  apply elem_of_cons in Hu as [<-|Hu].
  - pose proof (sum_list_with_le f f' l Hf). lia.
  - specialize (IH Hu). specialize (Hf x). lia.
Qed.

Lemma remaining_less e e' u :
  buildState e u = Buildable → buildState e' u ≠ Buildable →
  (∀ v, buildState e' v = Buildable → buildState e v = Buildable) →
  length (m_leaves e') ≤ length (m_leaves e) + pushes u → remaining e' ≤ remaining e.
Proof.
  intros Hu Hu' Hmono Hl. unfold remaining.
  set (f := λ u, if bool_decide (buildState e u = Buildable) then pushes u else 0).
  set (f' := λ u, if bool_decide (buildState e' u = Buildable) then pushes u else 0).
  assert (∀ x, f' x ≤ f x) as Hf.
  { intros x. unfold f, f'. case_bool_decide as H1; [|lia]. by rewrite bool_decide_eq_true_2 by auto. }
  assert (f u = pushes u ∧ f' u = 0) as [Hfu Hfu'].
  { unfold f, f'. by rewrite bool_decide_eq_true_2, bool_decide_eq_false_2. }
  destruct (decide (u ∈ elements (dom (nodes (heap g))))) as [Hin|Hin].
  - pose proof (sum_list_with_less f f' _ u Hf Hin Hfu'). lia.
  - assert (pushes u = 0) as H0.
    { rewrite elem_of_elements, elem_of_dom in Hin. apply eq_None_not_Some in Hin.
      unfold pushes, parentCount, outsOf, node, as_artifact. by rewrite Hin. }
    pose proof (sum_list_with_le f f' (elements (dom (nodes (heap g)))) Hf). lia.
Qed.

Lemma remaining_states e e' :
  buildStates e' = buildStates e → length (m_leaves e') ≤ length (m_leaves e) →
  remaining e' ≤ remaining e.
Proof.
  intros Hs Hl. unfold remaining. apply Nat.add_le_mono; [done|]. apply sum_list_with_le.
  intros u. by rewrite (buildState_states e) by done.
Qed.

Lemma remaining_calm e e' : calm e e' → remaining e' ≤ remaining e.
Proof. intros []. apply remaining_states; [done|]. by rewrite c_leaves. Qed.

Lemma length_filter_le {A} (f : A → bool) l : length (List.filter f l) ≤ length l.
Proof. induction l as [|x l IH]; simpl; [done|]. destruct (f x); simpl; lia. Qed.

Lemma leaves_finished P Q u e :
  inv P Q e → length (m_leaves (finished u e)) ≤ length (m_leaves e) + parentCount u.
Proof.
  intros I. unfold finished. cbn [on_m_leaves m_leaves]. rewrite length_app, length_rev.
  rewrite (proj2 (inv_node P Q e u I)). unfold parentCount.
  pose proof (length_filter_le (λ v, bool_decide (buildState (setBuildState u Built e) v = Buildable) &&
    allChildrenBuilt (setBuildState u Built e) v) (parents (node (heap g) u))) as Hf.
  change (m_leaves (setBuildState u Built e)) with (m_leaves e). lia.
Qed.

Lemma leaves_finishedAll P Q l e :
  inv P Q e → (∀ u, u ∈ l → children_built e u) →
  length (m_leaves (finishedAll l e)) ≤ length (m_leaves e) + sum_list_with parentCount l.
Proof.
  revert P Q e. induction l as [|u l IH]; intros P Q e I Hl; [simpl; lia|].
  cbn [finishedAll foldl sum_list_with]. pose proof (leaves_finished P Q u e I) as H1.
  assert (length (m_leaves (finishedAll l (finished u e))) ≤
    length (m_leaves (finished u e)) + sum_list_with parentCount l) as H2.
  { eapply IH; [apply inv_finished; [done|apply Hl; left]|].
    intros v Hv. apply children_built_finished, Hl. by right. }
  unfold finishedAll in H2. lia.
Qed.

(** ** What the visit of a node comes down to *)

Lemma calmly_anyM {A} (f : A → M bool) l e :
  (∀ x e', stable g (graph e') → calmly (λ b, b = false) (f x) e') → stable g (graph e) →
  calmly (λ b, b = false) (anyM f l) e.
Proof.
  intros Hf. revert e. induction l as [|x l IH]; intros e Hs; [by split|]. cbn [anyM].
  eapply calmly_bind; [by apply Hf|]. intros b e' Hc ->. apply IH. etrans; [done|apply Hc].
Qed.

Lemma stable_nothing e : stable g (graph e) → nothing_to_add (graph e).
Proof. intros S. eapply nothing_to_add_stable; [exact S|]. apply se_nothing, G. Qed.

(** The result [r] of a function that starts in [e]: it throws, or, after calm steps,
    does one of the actions [K]. *)
Definition does (K : M unit → Prop) (e : Executor) (r : exn BGError unit * Executor) : Prop :=
  (∃ k e1, K k ∧ calm e e1 ∧ r = k e1) ∨ (∃ x e1, r = (Throw x, e1) ∧ x ≠ OutOfFuel).

Lemma does_now (K : M unit → Prop) k e : K k → does K e (k e).
Proof. intros Hk. left. by exists k, e. Qed.

Lemma does_throw K (m : M unit) e : (∃ x, m e = (Throw x, e) ∧ x ≠ OutOfFuel) → does K e (m e).
Proof. intros (x & -> & Hx). right. by exists x, e. Qed.

Lemma does_bind {A} (R : A → Prop) K (m : M A) (k : A → M unit) e :
  calmly R m e → (∀ a e1, calm e e1 → R a → does K e1 (k a e1)) → does K e ((m ≫= k) e).
Proof.
  intros [Hc Hr] Hk. unfold mbind, st_bind. destruct (m e) as [[a|x] e1]; simpl in *.
  - destruct (Hk a e1 Hc Hr) as [(k' & e2 & HK & Hc' & E)|Ht]; [left|by right].
    exists k', e2. split; [done|]. split; [by etrans|done].
  - right. by exists x, e1.
Qed.

Lemma does_gets K (k : Executor → M unit) e : does K e (k e e) → does K e ((gets id ≫= k) e).
Proof. done. Qed.

Lemma does_more (K K' : M unit → Prop) e r : (∀ k, K k → K' k) → does K e r → does K' e r.
Proof. intros HK [(k & e1 & Hk & H)|H]; [left; exists k, e1; auto|by right]. Qed.

Definition endsTransformer (t : nat) (k : M unit) : Prop :=
  k = finishTransformer t ∨ k = runTransformer t.

Lemma potentiallyRunTransformer_does t e :
  stable g (graph e) → does (endsTransformer t) e (potentiallyRunTransformer t e).
Proof.
  intros S. unfold potentiallyRunTransformer.
  eapply (does_bind (λ _, True)); [by split|]. intros l e1 C1 _.
  assert (stable g (graph e1)) as S1 by (etrans; [exact S|apply C1]). clear S.
  eapply (does_bind (λ b, b = false)).
  { apply calmly_anyM; [|done]. intros o e' S'.
    eapply calmly_bind; [by apply rescueOldBuildData_static, stable_nothing|]. by intros b e2 _ ->. }
  intros b e2 C2 ->. apply does_gets.
  destruct (negb (transformerHasMatchingOutputTags e2 t)); [apply does_now; by left|].
  destruct (negb (transformerHasMatchingInputFiles e2 t)); [apply does_now; by left|].
  assert (stable g (graph e2)) as S2 by (etrans; [exact S1|apply C2]).
  eapply (does_bind (λ _, True));
    [apply calmly_intro; [apply calm_mustExecuteTransformer|apply no_fuel_mustExecuteTransformer]|].
  intros mustExecute e3 C3 _. eapply (does_bind (λ _, True)); [by split|]. intros l' e4 C4 _.
  eapply (does_bind (λ b, b = false)).
  { destruct (mustExecute || forceTimestampCheck options); [|by split]. apply calmly_anyM.
    - intros o e' S'. eapply calmly_bind; [by apply scan_static, stable_nothing|]. by intros b e5 _ ->.
    - etrans; [exact S2|]. etrans; [apply C3|apply C4]. }
  intros b e5 C5 ->. destruct (negb mustExecute); [apply does_now; by left|].
  destruct (executeRulesOnly options); apply does_now; [by left|by right].
Qed.

Definition endsNode (u : nat) (k : M unit) : Prop :=
  (k = finishNode u ∧ (belongs u = true → ∀ t, u ∉ outs g t)) ∨
  ∃ t, u ∈ outs g t ∧ outsOf u = outs g t ∧ belongs u = true ∧ endsTransformer t k.

(** [checkNodeProduct] *)
Lemma checkNodeProduct_does K u (k : M unit) e :
  stable g (graph e) → (belongs u = false → K (finishNode u)) →
  (belongs u = true → does K e (k e)) →
  does K e ((b ← checkNodeProduct u; if negb b then mret tt else k) e).
Proof.
  intros S HK Hk. unfold checkNodeProduct. unfold mbind at 1, st_bind at 1.
  unfold mbind at 1, st_bind at 1, gets.
  assert (productOf (heapOf e) u = productOf (heap g) u) as ->.
  { apply (so_product _ _ (sb_objects _ _ S)). }
  fold (belongs u). destruct (belongs u) eqn:Hb; [by apply Hk|].
  unfold mbind, st_bind. rewrite finishNode_eq. simpl.
  left. exists (finishNode u), e. split; [by apply HK|]. split; [done|]. by rewrite finishNode_eq.
Qed.

Lemma artifact_static e a :
  stable g (graph e) →
  artifactType (artifactOf (heapOf e) a) = artifactType (artifactOf (heap g) a) ∧
  transformer (artifactOf (heapOf e) a) = transformer (artifactOf (heap g) a) ∧
  isArtifact (heapOf e) a = isArtifact (heap g) a.
Proof.
  intros S. pose proof (so_artifact _ _ (sb_objects _ _ S) a) as Ha. unfold artifactOf, isArtifact.
  fold (heapOf e) in Ha. destruct (as_artifact (heapOf e) a), (as_artifact (heap g) a); simpl in *;
    try discriminate; [|done]. apply (inj Some) in Ha. by injection Ha as _ -> _ ->.
Qed.

Lemma buildArtifact_does a e :
  stable g (graph e) → isArtifact (heap g) a = true → does (endsNode a) e (buildArtifact a e).
Proof.
  intros S Ha. unfold buildArtifact. apply does_gets.
  eapply (does_bind (λ _, True)); [apply calmly_intro; [moves|throws]|]. intros [] e1 C1 _.
  assert (stable g (graph e1)) as S1 by (etrans; [exact S|apply C1]).
  destruct (artifact_static e a S) as (HT & Htr & _). rewrite HT, Htr.
  assert (Hend : ∀ b e', stable g (graph e') → artifactType (artifactOf (heap g) a) ≠ Generated →
    does (endsNode a) e' ((_ ← when b (retrieveSourceFileTimestamp a); finishNode a) e')).
  { intros b e' S' Hn. eapply (does_bind (λ _, True)).
    - apply calmly_intro; [|by apply throws_when, no_fuel_retrieveSourceFileTimestamp].
      apply moves_when; [apply _|]. intros _. apply calm_retrieveSourceFileTimestamp.
    - intros [] e2 _ _. apply does_now. left. split; [done|]. intros _ t Ht.
      destruct (se_generated _ G t a Ht) as (x & Hx & Hgen & _). unfold artifactOf in Hn.
      by rewrite Hx in Hn. }
  destruct (decide (artifactType (artifactOf (heap g) a) = SourceFile)) as [Hs|Hs].
  { rewrite (bool_decide_eq_true_2 _ Hs), Hs. apply Hend; [done|]. by rewrite Hs. }
  rewrite (bool_decide_eq_false_2 _ Hs). apply checkNodeProduct_does; [done|intros Hb; left; by rewrite Hb|]. intros Hb.
  destruct (decide (artifactType (artifactOf (heap g) a) = Generated)) as [Hg|Hg].
  2: { rewrite (bool_decide_eq_false_2 _ Hg). by apply Hend. }
  rewrite (bool_decide_eq_true_2 _ Hg). simpl.
  apply as_artifact_artifactOf in Ha. destruct (transformer (artifactOf (heap g) a)) as [t|] eqn:Et.
  2: { apply does_throw. by exists CheckFailed. }
  eapply does_more; [|by apply potentiallyRunTransformer_does]. intros k Hk. right. exists t.
  split; [by eapply (se_output _ G)|]. split; [|done]. unfold outsOf. by rewrite Ha, Et.
Qed.

Lemma executeRuleNode_does r e :
  stable g (graph e) → isArtifact (heap g) r = false → does (endsNode r) e (executeRuleNode r e).
Proof.
  intros S Hr. assert (endsNode r (finishNode r)) as Hend.
  { left. split; [done|]. intros _ t Ht. destruct (se_generated _ G t r Ht) as (x & Hx & _).
    unfold isArtifact in Hr. by rewrite Hx in Hr. }
  unfold executeRuleNode. apply checkNodeProduct_does; [done..|]. intros _.
  eapply (does_bind (λ x, x = ([], []))).
  { split; [apply calm_applyRuleNode|]. pose proof (applyRuleNode_static r (graph e)) as Hs.
    unfold onGraph. destruct (applyRuleNode r (graph e)) as [[g' x]|x]; [by destruct Hs|done]. }
  intros x e1 _ ->. do 2 (eapply (does_bind (λ _, True)); [by split|]; intros [] ? _ _).
  by apply does_now.
Qed.

Lemma visit_does u e : stable g (graph e) → does (endsNode u) e (visit u e).
Proof.
  intros S. unfold visit. apply does_gets.
  eapply (does_bind (λ _, True)); [apply calmly_intro; [moves|throws]|]. intros [] e1 C1 _.
  assert (stable g (graph e1)) as S1 by (etrans; [exact S|apply C1]).
  destruct (artifact_static e u S) as (_ & _ & ->). destruct (isArtifact (heap g) u) eqn:Hu.
  - by apply buildArtifact_does.
  - by apply executeRuleNode_does.
Qed.

(** ** The three transitions *)

(** No job fails. *)
Definition clean (e : Executor) : Prop :=
  (∀ j b, (j, b) ∈ finishedSignals e → b = false) ∧
  (∀ j job, jobs e !! j = Some job → m_error job = false).

Record same_flags (e e' : Executor) : Prop := {
  sf_state : m_state e' = m_state e;
  sf_errors : m_errors e' = m_errors e;
  sf_posted : finishPosted e' = finishPosted e;
  sf_clean : clean e → clean e'
}.

#[local] Instance same_flags_preorder : PreOrder same_flags.
Proof. split; [by intros e; split|]. intros e1 e2 e3 [] []. split; [congruence..|auto]. Qed.

Lemma same_flags_calm e e' : calm e e' → same_flags e e'.
Proof. intros []. split; [done..|]. unfold clean. by rewrite c_signals, c_jobs. Qed.

Lemma same_flags_finishedAll l e : same_flags e (finishedAll l e).
Proof.
  revert e. induction l as [|u l IH]; intros e; [done|]. etrans; [|apply (IH (finished u e))].
  by split.
Qed.

(** The state in which a leaf [u] is visited; the nodes in [D] are delayed. *)
Record visitable (D : nat → Prop) (u : nat) (e : Executor) : Prop := {
  vi_inv : inv (λ x, x = u ∨ D x) nobody e;
  vi_together : together e;
  vi_buildable : buildState e u = Buildable;
  vi_children : children_built e u
}.

Lemma visitable_calm D u e e' : calm e e' → visitable D u e → visitable D u e'.
Proof.
  intros C [I T B H]. pose proof C as []. split.
  - by eapply inv_calm.
  - by eapply together_states.
  - by rewrite (buildState_states e).
  - by eapply children_built_states.
Qed.

Definition grown (e e' : Executor) : Prop :=
  ∀ v, (buildState e v = Built → buildState e' v = Built) ∧
       (buildState e v ≠ Untouched → buildState e' v ≠ Untouched).

Definition advanced (D : nat → Prop) (e e' : Executor) : Prop :=
  inv D nobody e' ∧ together e' ∧ same_flags e e' ∧ grown e e' ∧ remaining e' ≤ remaining e.

Lemma grown_finishedAll l e : grown e (finishedAll l e).
Proof. intros v. rewrite buildState_finishedAll. by case_bool_decide. Qed.

Lemma buildState_finishedAll_mono l e v :
  buildState (finishedAll l e) v = Buildable → buildState e v = Buildable.
Proof. rewrite buildState_finishedAll. by case_bool_decide. Qed.

(** A node that is no output, or that is not to be built. *)
Lemma finishNode_advances D u e :
  visitable D u e → (belongs u = true → ∀ t, u ∉ outs g t) → advanced D e (finished u e).
Proof.
  intros [I T B H] Hu. split_and!.
  - eapply inv_weaken; [..|by apply inv_finished]; simpl; [naive_solver|by intros v []].
  - intros t o o' Ho Ho' Hb. rewrite !buildState_finished. case_decide as Heq.
    + subst o. by destruct (Hu Hb t).
    + intros Hbo. case_decide; [done|]. by apply (T t o).
  - apply (same_flags_finishedAll [u]).
  - apply (grown_finishedAll [u]).
  - eapply (remaining_less _ _ u B).
    + rewrite buildState_finished. by case_decide.
    + intros v. rewrite buildState_finished. by case_decide.
    + pose proof (leaves_finished _ _ u e I). unfold pushes. lia.
Qed.

Lemma outs_disjoint t t' o : o ∈ outs g t → o ∈ outs g t' → t = t'.
Proof.
  intros Ho Ho'. destruct (se_generated _ G t o Ho) as (x & Hx & _ & Ht).
  destruct (se_generated _ G t' o Ho') as (y & Hy & _ & Ht'). congruence.
Qed.

Lemma siblings_children e u t :
  u ∈ outs g t → children_built e u → ∀ o, o ∈ outs g t → children_built e o.
Proof.
  intros Hu H o Ho c Hc. apply H. unfold edge in *.
  by rewrite (proj1 (se_siblings _ G t u o Hu Ho)).
Qed.

Lemma finishTransformer_eq P Q t e :
  inv P Q e → ∃ e1, calm e e1 ∧ finishTransformer t e = (Ok tt, finishedAll (outs g t) e1).
Proof.
  intros I. set (e1 := updTransformerData t (on_markedForRerun (λ _, false)) e).
  assert (calm e e1) as C.
  { exact (calm_updTransformerData t (on_markedForRerun (λ _, false)) e). }
  exists e1. split; [done|]. unfold finishTransformer, mbind, st_bind, modify, gets. fold e1.
  rewrite (inv_outs P Q e1); [apply forM_finishNode|by eapply inv_calm].
Qed.

Lemma together_finishedAll t e : together e → together (finishedAll (outs g t) e).
Proof.
  intros T t' o o' Ho Ho' Hb. rewrite !buildState_finishedAll.
  destruct (decide (t = t')) as [<-|Hne]; [by rewrite !bool_decide_eq_true_2|].
  rewrite !bool_decide_eq_false_2; [by apply (T t')|..];
    intros Hin; apply Hne; by eapply outs_disjoint.
Qed.

Lemma finishedAll_advances D u t e :
  visitable D u e → u ∈ outs g t → outsOf u = outs g t → advanced D e (finishedAll (outs g t) e).
Proof.
  intros [I T B H] Hu Hout. pose proof (siblings_children e u t Hu H) as Hs. split_and!.
  - eapply inv_weaken; [..|by apply inv_finishedAll]; simpl; [by intros v [[->|?] ?]|by intros v []].
  - by apply together_finishedAll.
  - apply same_flags_finishedAll.
  - apply grown_finishedAll.
  - eapply (remaining_less _ _ u B).
    + rewrite buildState_finishedAll. by rewrite bool_decide_eq_true_2.
    + apply buildState_finishedAll_mono.
    + pose proof (leaves_finishedAll _ _ (outs g t) e I Hs). unfold pushes. rewrite Hout. lia.
Qed.

Definition setAll (s : BuildState) (l : list nat) (m : gmap nat BuildState) : gmap nat BuildState :=
  foldl (λ m a, <[a := s]> m) m l.

Lemma lookup_setAll s l m u :
  setAll s l m !! u = if bool_decide (u ∈ l) then Some s else m !! u.
Proof.
  unfold setAll. revert m. induction l as [|x l IH]; intros m; [done|]. cbn [foldl]. rewrite IH.
  destruct (decide (u ∈ l)) as [Hu|Hu].
  - rewrite (bool_decide_eq_true_2 _ Hu), bool_decide_eq_true_2; [done|by right].
  - rewrite (bool_decide_eq_false_2 _ Hu). destruct (decide (x = u)) as [->|Hx].
    + rewrite lookup_insert_eq, bool_decide_eq_true_2; [done|left].
    + rewrite lookup_insert_ne, bool_decide_eq_false_2; [done| |done].
      rewrite elem_of_cons. naive_solver.
Qed.

Lemma run_clean t job :
  m_error job = false →
  ((run t job).1 = None ∨ (run t job).1 = Some false) ∧ m_error (run t job).2 = false.
Proof.
  intros H. unfold run, setFinished. destruct (negb _); [by auto|]. destruct (is_nil _); simpl.
  - rewrite H. auto.
  - unfold runNextCommand, setFinished. simpl. destruct (negb _); [by auto|].
    destruct (_ <=? _)%Z; simpl; rewrite H; auto.
Qed.

Lemma onCommandFinished_clean job :
  m_error job = false →
  ((onCommandFinished false job).1 = None ∨ (onCommandFinished false job).1 = Some false) ∧
  m_error (onCommandFinished false job).2 = false.
Proof.
  intros H. unfold onCommandFinished. destruct (m_transformer job); [|by auto]. rewrite H.
  unfold runNextCommand, setFinished. destruct (m_transformer job); [|by auto].
  destruct (negb _); [by auto|]. destruct (_ <=? _)%Z; simpl; rewrite H; auto.
Qed.

Lemma emitFinished_clean j r e :
  (r.1 = None ∨ r.1 = Some false) → m_error r.2 = false → same_flags e (emitFinished j r e).
Proof.
  intros Hr He. unfold emitFinished. destruct r as [o job]; simpl in *.
  destruct Hr as [->| ->]; (split; [done..|]); intros [C1 C2]; split; simpl; try done.
  - intros i job' [[_ <-]|[_ Hi]]%lookup_insert_Some; [done|by eapply C2].
  - intros i b. rewrite elem_of_app, list_elem_of_singleton. intros [Hi|Hi]; [by eapply C1|].
    by simplify_eq.
  - intros i job' [[_ <-]|[_ Hi]]%lookup_insert_Some; [done|by eapply C2].
Qed.

(** [runTransformer] throws, or gives a job to the transformer. *)
Record gives (t j : nat) (e e' : Executor) : Prop := {
  gi_graph : stable (graph e) (graph e');
  gi_states : buildStates e' = setAll Building (outs g t) (buildStates e);
  gi_leaves : m_leaves e' = m_leaves e;
  gi_available : m_availableJobs e = j :: m_availableJobs e';
  gi_processing : m_processingJobs e' = <[j := t]> (m_processingJobs e);
  gi_flags : clean e → same_flags e e'
}.

Lemma emitFinished_gives t j0 j r e e' :
  (r.1 = None ∨ r.1 = Some false) → m_error r.2 = false → gives t j e e' →
  gives t j e (emitFinished j0 r e').
Proof.
  intros Hr He []. pose proof (emitFinished_clean j0 r e' Hr He) as F. unfold emitFinished in *.
  destruct r.1; (split; [done..|]); intros C; (etrans; [by apply gi_flags0|done]).
Qed.

Lemma runTransformer_result P Q t e :
  inv P Q e → clean e →
  (∃ x, runTransformer t e = (Throw x, e) ∧ x ≠ OutOfFuel) ∨
  (∃ j e', runTransformer t e = (Ok tt, e') ∧ gives t j e e').
Proof.
  intros I C. destruct (runTransformer t e) as [r e'] eqn:E. unfold runTransformer in E.
  unfold mbind at 1, st_bind at 1, gets at 1, id in E. cbv zeta beta iota in E.
  rewrite (inv_outs P Q e t I) in E.
  match type of E with context [when ?b ?m] => set (mk := when b m) in E end.
  assert (moves eq mk) as Hmk by (unfold mk; moves).
  assert (no_fuel mk) as Hf by (unfold mk; throws).
  unfold mbind at 1, st_bind at 1 in E. specialize (Hmk e). specialize (Hf e).
  destruct (mk e) as [[[]|x] e0]; simpl in Hmk, Hf; subst e0; [|left; exists x; by simplify_eq].
  destruct (m_availableJobs e) as [|j available] eqn:Ha; [left; exists CheckFailed; by simplify_eq/=|].
  right. exists j, e'.
  unfold mbind at 1, st_bind at 1, modify at 1 in E. unfold mbind at 1, st_bind at 1 in E.
  rewrite forM_modify, foldl_setBuildState in E. revert E.
  set (e1 := on_buildStates _ (on_m_availableJobs _ e)).
  unfold startJob. unfold mbind, st_bind, modify, gets, when. rewrite updateJobCounts_eq.
  set (e2 := on_m_jobCountPerPool _ _). set (cs := commands (transformerDataOf e2 t)).
  assert (∀ e3, jobs e3 = jobs e2 → gives t j e e3 →
    gives t j e (emitFinished j (run (mkJobTransformer t cs) (default resetJob (jobs e3 !! j))) e3))
    as He.
  { intros e3 Hj Hg. apply emitFinished_gives; [..|done].
    all: apply run_clean; rewrite Hj; destruct (jobs e2 !! j) as [job|] eqn:Ej; [|done].
    all: by apply (proj2 C j). }
  assert (gives t j e e2) as H2 by by split.
  destruct (negb (is_nil cs)); simpl; intros E; injection E as <- <-; (split; [done|]).
  - apply (He (on_graph _ e2)); [done|]. split; try done. by apply stable_transformers.
  - by apply (He e2).
Qed.

Lemma gives_advances D u t j e e' :
  visitable D u e → u ∈ outs g t → belongs u = true → clean e → gives t j e e' →
  advanced D e e'.
Proof.
  intros [I T B H] Hu Hb C [HG HS HL HA HP HF].
  assert (∀ v, buildState e' v = if bool_decide (v ∈ outs g t) then Building else buildState e v) as Hst.
  { intros v. unfold buildState. rewrite HS, lookup_setAll. by case_bool_decide. }
  assert (∀ o, o ∈ outs g t → buildState e o ≠ Built) as Hnb.
  { intros o Ho Hbo. assert (buildState e u = Built) as Hbu; [|by rewrite B in Hbu].
    apply (T t o u Ho Hu); [|done]. revert Hb. unfold belongs.
    by rewrite (proj2 (se_siblings _ G t o u Ho Hu)). }
  assert (∀ v, buildState e' v = Built ↔ buildState e v = Built) as Hbuilt.
  { intros v. rewrite Hst. case_bool_decide as Hv; [|done]. split; [done|]. by intros ?%Hnb. }
  assert (∀ v, children_built e' v ↔ children_built e v) as Hcb.
  { intros v. unfold children_built. split; intros Hc c Hv; by apply Hbuilt, Hc. }
  assert (∀ v, buildState e' v = Buildable → buildState e v = Buildable ∧ v ∉ outs g t) as Hbb.
  { intros v. rewrite Hst. by case_bool_decide. }
  destruct I as [IG IB IU [IA1 IA2] IL IO IP IR]. rewrite HA in IA1, IA2.
  apply NoDup_cons in IA1 as [Hj IA1].
  assert (m_processingJobs e !! j = None) as Hjn by (apply IA2; left).
  split_and!.
  - split.
    + by etrans.
    + intros v [Hv Hvo]%Hbb Hc%Hcb. rewrite HL.
      destruct (IB v Hv Hc) as [?|[->|?]]; [by left|done|by right].
    + intros v. rewrite Hst, HP. case_bool_decide as Hv.
      * intros _. left. exists j, t. by rewrite lookup_insert_eq.
      * intros Hvb. destruct (IU v Hvb) as [(j' & t' & Hj' & Hv')|[]].
        left. exists j', t'. rewrite lookup_insert_ne; [done|]. intros ->. by rewrite Hjn in Hj'.
    + split; [done|]. intros j' Hj'. rewrite HP, lookup_insert_ne; [apply IA2; by right|].
      by intros ->.
    + intros v Hv. rewrite HL in Hv. destruct (IL v Hv) as [Hvb Hc]. rewrite Hcb, Hst.
      split; [by case_bool_decide|done].
    + intros v. rewrite Hst, Hcb. case_bool_decide as Hv; [|apply IO].
      intros _. exact (siblings_children e u t Hu H v Hv).
    + intros j' t' v. rewrite HP, Hst. intros [[_ <-]|[Hne Hj']]%lookup_insert_Some Hv.
      * rewrite bool_decide_eq_true_2 by done. by left.
      * case_bool_decide; [by left|]. by eapply IP.
    + intros v Hv. rewrite Hst. case_bool_decide; [done|]. by apply IR.
  - intros t' o o' Ho Ho' Hbo. rewrite !Hbuilt. by apply (T t').
  - by apply HF.
  - intros v. rewrite Hbuilt, Hst. by case_bool_decide.
  - apply (remaining_less _ _ u B).
    + rewrite Hst. by rewrite bool_decide_eq_true_2.
    + intros v Hv. by apply Hbb.
    + rewrite HL. lia.
Qed.

Lemma visit_advances D u e :
  visitable D u e → clean e →
  match visit u e with
  | (Ok _, e') => advanced D e e'
  | (Throw x, _) => x ≠ OutOfFuel
  end.
Proof.
  intros V C. destruct (visit_does u e (in_graph _ _ _ (vi_inv _ _ _ V)))
    as [(k & e1 & Hk & Hc & ->)|(x & e1 & -> & Hx)]; [|done].
  assert (∀ e2 e', calm e e2 → advanced D e2 e' → advanced D e e') as Hadv.
  { intros e2 e' Hc2 (A1 & A2 & A3 & A4 & A5). split; [done|]. split; [done|].
    split; [etrans; [by apply same_flags_calm|done]|]. split.
    - intros v. rewrite <-!(buildState_states e e2) by apply Hc2. apply A4.
    - etrans; [done|by apply remaining_calm]. }
  pose proof (visitable_calm D u e e1 Hc V) as V1.
  destruct Hk as [[-> Hu]|(t & Hu & Hout & Hb & [->| ->])].
  - rewrite finishNode_eq. apply (Hadv e1); [done|]. by apply finishNode_advances.
  - destruct (finishTransformer_eq _ _ t e1 (vi_inv _ _ _ V1)) as (e2 & Hc2 & ->).
    apply (Hadv e2); [by etrans|]. eapply finishedAll_advances; [by eapply visitable_calm|done..].
  - assert (clean e1) as C1 by by apply (same_flags_calm e e1 Hc).
    destruct (runTransformer_result _ _ t e1 (vi_inv _ _ _ V1) C1)
      as [(x & -> & Hx)|(j & e2 & -> & Hg)]; [done|].
    apply (Hadv e1); [done|]. by eapply gives_advances.
Qed.

(** ** Scheduling *)

(** A state of the loop of [scheduleJobs]. *)
Record loop (D : list nat) (e : Executor) : Prop := {
  lo_inv : inv (λ u, u ∈ D) nobody e;
  lo_together : together e;
  lo_clean : clean e;
  lo_delayed u : u ∈ D → buildState e u ≠ Untouched ∧ children_built e u
}.

Lemma removeOne_elem (l : list nat) u v : v ∈ l → v ≠ u → v ∈ removeOne l u.
Proof.
  induction l as [|x l IH]; simpl; [done|]. intros Hv Hne.
  destruct (Nat.eqb_spec x u) as [->|Hx]; apply elem_of_cons in Hv as [->|Hv]; try done.
  - left.
  - right. by apply IH.
Qed.

Lemma removeOne_length (l : list nat) u : u ∈ l → S (length (removeOne l u)) = length l.
Proof.
  induction l as [|x l IH]; simpl; [by intros ?%elem_of_nil|]. intros Hu.
  destruct (Nat.eqb_spec x u) as [->|Hx]; [done|]. apply elem_of_cons in Hu as [->|Hu]; [done|].
  simpl. by rewrite IH.
Qed.

Section Popped.
Context (P Q : nat → Prop) (e : Executor) (u : nat).
Hypothesis I : inv P Q e.
Notation popped := (on_m_leaves (λ l, removeOne l u) e).

Lemma popped_inv (P' : nat → Prop) :
  (∀ v, P v → P' v) → (buildState e u = Buildable → P' u) → inv P' Q popped.
Proof.
  intros HP Hu. destruct I as [IG IB IU IA IL IO IP IR]. split; try done.
  - intros v Hv Hc. destruct (IB v Hv Hc) as [Hl|?]; [|by right; apply HP].
    destruct (decide (v = u)) as [->|Hne]; [by right; apply Hu|]. left. by apply removeOne_elem.
  - intros v Hv. apply IL. cbn in Hv. pose proof (removeOne_sublist (m_leaves e) u) as Hs.
    by eapply in_sublist.
Qed.

Lemma popped_remaining : u ∈ m_leaves e → S (remaining popped) ≤ remaining e.
Proof.
  intros Hu. unfold remaining. cbn [on_m_leaves m_leaves].
  pose proof (removeOne_length _ u Hu) as Hl.
  assert (∀ v, buildState popped v = buildState e v) as Hb by done. clear Hb.
  change (buildState popped) with (buildState e). lia.
Qed.
End Popped.

Lemma schedulingBlockedByJobLimit_fuel e u x :
  schedulingBlockedByJobLimit e u = Throw x → x ≠ OutOfFuel.
Proof.
  assert (∀ c p t y, jobLimitIsExceeded e c p t = Throw y → y ≠ OutOfFuel) as H1.
  { intros c p t y. unfold jobLimitIsExceeded. repeat case_match; intros; by simplify_eq. }
  assert (∀ c p t l y, exceededByRunning e c p t l = Throw y → y ≠ OutOfFuel) as H2.
  { intros c p t l y. induction l as [|j l IH]; simpl; [done|].
    destruct (negb _); [done|]. destruct (m_transformer _); [|done]. case_bool_decide; [done|].
    destruct (jobLimitIsExceeded e c p _) as [[]|z] eqn:E; simpl; try done.
    intros [= <-]. by eapply H1. }
  unfold schedulingBlockedByJobLimit. destruct (as_artifact _ u) as [a|]; [|done].
  case_bool_decide; [done|]. destruct (transformer a) as [t|]; [|by intros [= <-]].
  generalize (transformerPools e t) as l. intros l. induction l as [|p l IH]; simpl; [done|].
  destruct (jobCount e p =? 0)%Z; [done|].
  destruct (jobLimitIsExceeded e _ p t) as [[]|z] eqn:E; simpl; try done.
  - destruct (exceededByRunning _ _ _ _ _) as [[]|z] eqn:E'; simpl; try done.
    intros [= <-]. by eapply H2.
  - intros [= <-]. by eapply H1.
Qed.

Lemma scheduleLoop_order fuel D e :
  loop D e →
  match scheduleLoop fuel D e with
  | (Ok D', e') => loop D' e' ∧ same_flags e e' ∧ (m_leaves e' = [] ∨ m_availableJobs e' = [])
  | (Throw x, _) => x = OutOfFuel → fuel ≤ remaining e
  end.
Proof.
  revert D e. induction fuel as [|fuel IH]; intros D e L; cbn [scheduleLoop]; [intros _; lia|].
  unfold mbind at 1, st_bind at 1, gets at 1. cbv delta [id] beta iota zeta.
  destruct (is_nil (m_leaves e)) eqn:Hl; [apply is_nil_true in Hl; simpl; split_and!; [done..|by left]|].
  destruct (is_nil (m_availableJobs e)) eqn:Ha; [apply is_nil_true in Ha; simpl; split_and!; [done..|by right]|].
  apply is_nil_false in Hl. pose proof (pq_top_in (priority e) _ Hl) as Hu.
  cbn [orb]. revert Hu. generalize (pq_top (priority e) (m_leaves e)) as u. intros u Hu.
  unfold mbind at 1, st_bind at 1, modify at 1. unfold mbind at 1, st_bind at 1, gets at 1.
  cbv beta iota. set (e1 := on_m_leaves (λ l, removeOne l u) e).
  destruct L as [I T C HD]. destruct (in_leaves _ _ _ I u Hu) as [Hun Hcb].
  pose proof (popped_remaining e u Hu) as Hr. fold e1 in Hr.
  assert (same_flags e e1) as F1 by by split.
  assert (∀ D' e2, same_flags e1 e2 → remaining e2 ≤ remaining e1 → loop D' e2 →
    match scheduleLoop fuel D' e2 with
    | (Ok D', e') => loop D' e' ∧ same_flags e e' ∧ (m_leaves e' = [] ∨ m_availableJobs e' = [])
    | (Throw x, _) => x = OutOfFuel → S fuel ≤ remaining e
    end) as Hgo.
  { intros D' e2 F2 Hr2 L2. specialize (IH D' e2 L2).
    destruct (scheduleLoop fuel D' e2) as [[D2|x] e3].
    - destruct IH as (? & F3 & ?). split; [done|]. split; [|done]. by do 2 (etrans; [eassumption|]).
    - intros Hx. specialize (IH Hx). lia. }
  assert (buildState e1 u = buildState e u) as Hst by done.
  destruct (decide (buildState e u = Buildable)) as [Hb|Hb].
  2: { assert (loop D e1) as L1.
    { split; [apply (popped_inv _ _ e u I); [done|by intros ?]|done..]. }
    rewrite Hst. destruct (buildState e u); by first [apply Hgo|idtac]. }
  rewrite Hst, Hb. unfold mbind at 1, st_bind at 1, lift.
  destruct (schedulingBlockedByJobLimit e1 u) as [blocked|x] eqn:Ebl.
  2: { intros ->. by apply schedulingBlockedByJobLimit_fuel in Ebl. }
  destruct blocked.
  - apply Hgo; [done|done|]. split; [|done..|].
    + apply (popped_inv _ _ e u I); intros; rewrite elem_of_app, list_elem_of_singleton; auto.
    + intros v. rewrite elem_of_app, list_elem_of_singleton. intros [Hv| ->]; [by apply HD|done].
  - assert (visitable (λ v, v ∈ D) u e1) as V.
    { split; [|done..]. apply (popped_inv _ _ e u I); auto. }
    unfold mbind at 1, st_bind at 1. pose proof (visit_advances _ u e1 V C) as Hv.
    destruct (visit u e1) as [[[]|x] e2]; [|by intros ->].
    destruct Hv as (I2 & T2 & F2 & G2 & Hr2). apply Hgo; [done..|]. split; [done..| |].
    + by apply (sf_clean _ _ F2).
    + intros v Hv. destruct (HD v Hv) as [Hvu Hvc]. split; [by apply G2|].
      intros c Hc. by apply G2, Hvc.
Qed.

(** ** Nothing is forgotten *)

Hypothesis A : acyclic (heap g).

Definition all_built (e : Executor) : Prop := ∀ u, reached u → buildState e u = Built.

Lemma everything_built e :
  inv nobody nobody e → m_leaves e = [] → m_processingJobs e = ∅ → all_built e.
Proof.
  intros I Hl Hp u. assert (finishes (heap g) u) as Hf.
  { apply no_cycle_finishes. intros x _. apply A. }
  induction Hf as [u _ IH]. intros Hr.
  assert (children_built e u) as Hc.
  { intros c Huc. apply IH; [done|]. destruct Hr as (r & Hr & Hru). exists r. split; [done|].
    etrans; [exact Hru|]. by apply rtc_once. }
  destruct (buildState e u) eqn:Hb; [| | |done]; exfalso.
  - by apply (in_reached _ _ _ I u Hr).
  - destruct (in_buildable _ _ _ I u Hb Hc) as [Hin|[]]. rewrite Hl in Hin.
    by apply elem_of_nil in Hin.
  - destruct (in_building _ _ _ I u Hb) as [(j & t & Hj & _)|[]]. by rewrite Hp in Hj.
Qed.

(** A build that goes on without failure. *)
Record going (e : Executor) : Prop := {
  go_inv : inv nobody nobody e;
  go_together : together e;
  go_clean : clean e
}.

Lemma going_loop e : going e → loop [] e.
Proof.
  intros [I T C]. split; [|done..|by intros u ?%elem_of_nil].
  by eapply inv_weaken; [..|exact I]; intros u [].
Qed.

Lemma foldl_pushLeaf_eq D e : foldl (λ e u, pushLeaf u e) e D = on_m_leaves (app (rev D)) e.
Proof.
  revert e. induction D as [|u D IH]; intros e; [by destruct e|]. simpl. rewrite IH.
  unfold on_m_leaves, pushLeaf, on_m_leaves. simpl. f_equal. by rewrite <-app_assoc.
Qed.

Lemma loop_going D e : loop D e → going (on_m_leaves (app (rev D)) e).
Proof.
  intros [I T C HD]. split; [|done..]. destruct I as [IG IB IU IA IL IO IP IR]. split; try done.
  - intros v Hv Hc. left. cbn. rewrite elem_of_app, list_elem_of_In, <-in_rev, <-list_elem_of_In.
    destruct (IB v Hv Hc); auto.
  - intros v. cbn. rewrite elem_of_app, list_elem_of_In, <-in_rev, <-list_elem_of_In.
    intros [Hv|Hv]; [by apply HD|by apply IL].
Qed.

Lemma scheduleJobs_order fuel e :
  going e →
  match scheduleJobs fuel e with
  | (Ok more, e') => going e' ∧ same_flags e e' ∧ (more = false → all_built e' ∧ m_processingJobs e' = ∅)
  | (Throw x, _) => x = OutOfFuel → fuel ≤ remaining e
  end.
Proof.
  intros Hg. unfold scheduleJobs, check, lift. unfold mbind at 1, st_bind at 1, gets at 1.
  unfold mbind at 1, st_bind at 1. destruct (QBS_CHECK _) as [[]|x] eqn:Hc;
    [|intros ->; by destruct (bool_decide _)].
  unfold mbind at 1, st_bind at 1. pose proof (scheduleLoop_order fuel [] e (going_loop e Hg)) as Hl.
  destruct (scheduleLoop fuel [] e) as [[D|x] e1]; [|done]. destruct Hl as (L & F & Hend).
  unfold mbind, st_bind, gets. rewrite forM_modify, foldl_pushLeaf_eq.
  pose proof (loop_going D e1 L) as Hg'. split; [done|]. split; [etrans; [exact F|]; by split|].
  intros [Hn Hp]%orb_false_iff. apply negb_false_iff, is_nil_true in Hn.
  apply negb_false_iff, bool_decide_eq_true in Hp.
  split; [|done]. apply everything_built; [apply Hg'|done..].
Qed.

(** ** The end of a build *)

Lemma finish_order e :
  stable g (graph e) → all_built e → ∃ e', finish e = (Ok tt, e') ∧
    m_state e' = ExecutorIdle ∧ m_errors e' = m_errors e ∧ all_built e'.
Proof.
  intros S Ha. assert (List.filter (unbuilt e) m_productsToBuild = []) as Hn.
  { assert (∀ p, p ∈ m_productsToBuild → unbuilt e p = false) as Hp.
    { intros p Hp. unfold unbuilt. pose proof (sb_roots _ _ S p) as Hr. fold (heapOf e) in Hr.
      destruct (buildDataOf (heapOf e) p) as [b|]; [|done].
      destruct (buildDataOf (heap g) p) as [b0|] eqn:Eb; simplify_eq/=.
      apply not_true_iff_false. rewrite existsb_exists. intros (r & Hin & Hb).
      apply negb_true_iff, bool_decide_eq_false in Hb. apply Hb, Ha. exists r.
      split; [|done]. exists p, b0. split; [done|]. split; [done|].
      rewrite <-Hr. by apply list_elem_of_In. }
    induction m_productsToBuild as [|p l IH]; [done|]. simpl. rewrite Hp by left.
    apply IH. intros q Hq. apply Hp. by right. }
  unfold finish, checkForUnbuiltProducts, setState, mbind, st_bind, modify, gets, id.
  destruct (executeRulesOnly options); [by eexists|]. rewrite Hn. simpl. by eexists.
Qed.

(** ** Events *)

(** A state of a build without failure. *)
Record fine (e : Executor) : Prop := {
  fi_going : going e;
  fi_errors : m_errors e = [];
  fi_state : match m_state e with
    | ExecutorIdle => all_built e
    | ExecutorRunning => finishPosted e = true → all_built e ∧ m_processingJobs e = ∅
    | ExecutorCanceling => False
    end
}.

Lemma going_same e e' :
  stable (graph e) (graph e') → buildStates e' = buildStates e → m_leaves e' = m_leaves e →
  m_availableJobs e' = m_availableJobs e → m_processingJobs e' = m_processingJobs e →
  clean e' → going e → going e'.
Proof.
  intros HG HS HL HA HP C [I T _]. split; [|by eapply together_states|done]. by eapply inv_same.
Qed.

Lemma all_built_states e e' : buildStates e' = buildStates e → all_built e → all_built e'.
Proof. intros Hs Ha u Hu. rewrite (buildState_states e) by done. by apply Ha. Qed.

Lemma finish_fine e :
  going e → m_errors e = [] → all_built e → ∃ e', finish e = (Ok tt, e') ∧ fine e'.
Proof.
  intros Hg He Ha.
  assert (stable g (graph e)) as S by (apply Hg).
  destruct (finish_order e S Ha) as (e' & E & Hs & Herr & Ha'). exists e'. split; [done|].
  split; [|by rewrite Herr|by rewrite Hs].
  assert (stable (graph e) (graph e') ∧ buildStates e' = buildStates e ∧ m_leaves e' = m_leaves e ∧
    m_availableJobs e' = m_availableJobs e ∧ m_processingJobs e' = m_processingJobs e ∧
    (clean e → clean e')) as (H1 & H2 & H3 & H4 & H5 & H6).
  { revert E. unfold finish, checkForUnbuiltProducts, setState, mbind, st_bind, modify, gets, id.
    destruct (executeRulesOnly options); [by intros [= <-]|].
    assert (∀ P D, stable (graph e) (on_rescuable (@filter _ _ _ P D) (graph e))) as Hr.
    { intros P D. apply stable_same_heap; [done|]. simpl. intros ->. apply map_filter_empty. }
    destruct (is_nil _); simpl; intros [= <-]; (split; [apply Hr|done]). }
  eapply going_same; try done. apply H6, Hg.
Qed.

(** A job [j], which has run [t], is given back. *)
Definition givenBack (j t : nat) (e : Executor) : Executor :=
  updateJobCounts t (-1) (on_m_availableJobs (λ l, l ++ [j]) (on_m_processingJobs (delete j) e)).

Lemma givenBack_inv j t e :
  inv nobody nobody e → m_processingJobs e !! j = Some t →
  inv nobody (λ u, u ∈ outs g t) (givenBack j t e) ∧ ∀ u, u ∈ outs g t → children_built e u.
Proof.
  intros [IG IB IU [IA1 IA2] IL IO IP IR] Hj. unfold givenBack. rewrite updateJobCounts_eq.
  split; [|intros u Hu; by eapply IO, IP].
  split; try done; cbn [on_m_jobCountPerPool on_m_availableJobs on_m_processingJobs
    m_availableJobs m_processingJobs].
  - intros u Hu. destruct (IU u Hu) as [(j' & t' & Hj' & Hu')|[]].
    destruct (decide (j' = j)) as [->|Hne]; [right; by simplify_eq|].
    left. exists j', t'. by rewrite lookup_delete_ne.
  - split.
    + apply NoDup_app. split_and!; [done| |apply NoDup_singleton].
      intros k Hk Hkj. apply list_elem_of_singleton in Hkj as ->. by rewrite (IA2 j Hk) in Hj.
    + intros k. rewrite elem_of_app, list_elem_of_singleton, lookup_delete_None.
      intros [Hk| ->]; [right; by apply IA2|by left].
  - intros j' t' u [_ Hj']%lookup_delete_Some Hu. by eapply IP.
Qed.

(** What is done with the outputs of a transformer that has succeeded. *)
Definition succeed (t : nat) : M unit :=
  _ ← modify (on_graph (on_heap setDirty));
  outputs ← gets (λ e, transformer_outputs (transformerOf e t));
  _ ← forM outputs updateOutput;
  finishTransformer t.

Lemma succeed_going t e :
  inv nobody (λ u, u ∈ outs g t) e → (∀ u, u ∈ outs g t → children_built e u) →
  together e → clean e →
  match succeed t e with
  | (Ok _, e') => going e' ∧ same_flags e e'
  | (Throw x, _) => x ≠ OutOfFuel
  end.
Proof.
  intros I Hc T C. unfold succeed. unfold mbind at 1, st_bind at 1, modify at 1.
  set (e1 := on_graph (on_heap setDirty) e). unfold mbind at 1, st_bind at 1, gets at 1.
  assert (calm e e1) as C1 by by apply calm_on_graph.
  generalize (transformer_outputs (transformerOf e1 t)) as l. intros l.
  assert (calmly (λ _, True) (forM l updateOutput) e1) as [C2 F2].
  { apply calmly_intro.
    - apply moves_forM; [apply _|]. intros a _. apply calm_updateOutput.
    - apply throws_forM, no_fuel_updateOutput. }
  unfold mbind at 1, st_bind at 1. destruct (forM l updateOutput e1) as [[[]|x] e2]; [|done].
  simpl in C2. assert (calm e e2) as C3 by (by etrans).
  destruct (finishTransformer_eq _ _ t e2 (inv_calm _ _ _ _ C3 I)) as (e3 & C4 & ->).
  assert (calm e e3) as C5 by (by etrans). pose proof (same_flags_calm e e3 C5) as F.
  split; [split|].
  - eapply inv_weaken; [..|apply inv_finishedAll; [by eapply inv_calm|]]; simpl.
    + by intros u [[] _].
    + by intros u [? ?].
    + intros u Hu. eapply children_built_states; [apply C5|by apply Hc].
  - apply together_finishedAll. eapply together_states; [apply C5|done].
  - apply (sf_clean _ _ (same_flags_finishedAll (outs g t) e3)). by apply F.
  - etrans; [exact F|apply same_flags_finishedAll].
Qed.

Lemma finishJob_success fuel j t e :
  m_state e = ExecutorRunning → m_processingJobs e !! j = Some t →
  (∀ e1, succeed t (givenBack j t e) = (Ok tt, e1) → m_state e1 = ExecutorRunning) →
  finishJob fuel j true e =
    (_ ← succeed t; more ← scheduleJobs fuel; when (negb more) finish) (givenBack j t e).
Proof.
  intros Hs Hj Hrun. unfold finishJob, check, lift. unfold mbind at 1, st_bind at 1, gets at 1, id.
  unfold mbind at 1, st_bind at 1. rewrite bool_decide_eq_false_2 by (by rewrite Hs).
  cbn [negb QBS_CHECK]. rewrite Hj.
  unfold mbind at 1, st_bind at 1, modify at 1. unfold mbind at 1, st_bind at 1, modify at 1.
  unfold mbind at 1, st_bind at 1, modify at 1. cbv beta iota.
  change (updateJobCounts t (-1) _) with (givenBack j t e). unfold when at 1.
  fold (succeed t). unfold mbind, st_bind, when at 1.
  destruct (succeed t (givenBack j t e)) as [[[]|x] e1]; [|done].
  cbn [when andb negb mret st_ret]. unfold gets.
  rewrite bool_decide_eq_false_2; [done|]. by rewrite (Hrun e1).
Qed.

(** A job has ended well. *)
Lemma finishJob_order j e :
  fine e → m_state e = ExecutorRunning → finishPosted e = false →
  ∃ n, ∀ fuel, match finishJob fuel j true e with
    | (Ok _, e') => fine e'
    | (Throw x, _) => x = OutOfFuel → fuel < n
    end.
Proof.
  intros [[I T C] He _] Hs Hf. destruct (m_processingJobs e !! j) as [t|] eqn:Hj.
  2: { exists 0. intros fuel. unfold finishJob, check, lift. unfold mbind, st_bind, gets, id.
    rewrite Hs, Hj. by simpl. }
  destruct (givenBack_inv j t e I Hj) as [I1 Hc].
  assert (together (givenBack j t e) ∧ clean (givenBack j t e) ∧
    (∀ u, u ∈ outs g t → children_built (givenBack j t e) u) ∧ same_flags e (givenBack j t e))
    as (T' & C' & Hc' & F).
  { unfold givenBack. rewrite updateJobCounts_eq. split_and!; done. }
  pose proof (succeed_going t _ I1 Hc' T' C') as Hsu.
  assert (∀ e1, succeed t (givenBack j t e) = (Ok tt, e1) → m_state e1 = ExecutorRunning) as Hrun.
  { intros e1 E. rewrite E in Hsu. destruct Hsu as [_ F1].
    by rewrite (sf_state _ _ F1), (sf_state _ _ F). }
  exists (S (remaining (succeed t (givenBack j t e)).2)). intros fuel.
  rewrite (finishJob_success fuel j t e Hs Hj Hrun). unfold mbind at 1, st_bind at 1.
  destruct (succeed t (givenBack j t e)) as [[[]|x] e1]; [|by intros ->].
  destruct Hsu as [Hg F1]. pose proof (Hrun e1 eq_refl) as Hs1.
  unfold mbind at 1, st_bind at 1. pose proof (scheduleJobs_order fuel e1 Hg) as Hsch.
  destruct (scheduleJobs fuel e1) as [[more|x] e2]; [|intros Hx; specialize (Hsch Hx); simpl; lia].
  destruct Hsch as (Hg2 & F2 & Hall). assert (m_errors e2 = []) as He2.
  { by rewrite (sf_errors _ _ F2), (sf_errors _ _ F1), (sf_errors _ _ F). }
  destruct more; cbn [negb when mret st_ret].
  - split; [done|done|]. rewrite (sf_state _ _ F2), Hs1.
    by rewrite (sf_posted _ _ F2), (sf_posted _ _ F1), (sf_posted _ _ F), Hf.
  - destruct (finish_fine e2 Hg2 He2 (proj1 (Hall eq_refl))) as (e3 & -> & Hfine). done.
Qed.
End Order.
