(* ===== verification/ExecutorStart.v ===== *)
(** * The start of a build, and complete builds

    The searches with which a build of a graph that does not change starts find the
    nodes that are reached and their leaves; from then on every node is built after
    its children, and a build without failure builds all nodes. *)

From S2P Require Import Prelude FlatSet BuildGraph BuildGraphCorrect ArtifactRemoval RuleGraph.
From S2P Require Import JobLimits StateMonad ExecutorJob ExecutorState Executor ExecutorFrame.
From S2P Require Import ExecutorStatic ExecutorJobs ExecutorOrder.

(** ** What a depth-first search does *)

Section Search.
Context (h : Heap).

(** From the visited nodes [X], the nodes in [l] and all that is reached from them
    without passing through [X] have been visited in [X']. *)
Record searched (l : list nat) (X X' : gset nat) : Prop := {
  sd_sub : X ⊆ X';
  sd_starts u : u ∈ l → u ∈ X';
  sd_reached u : u ∈ X' → u ∉ X → ∃ r, r ∈ l ∧ rtc (edge h) r u;
  sd_closed u c : u ∈ X' → u ∉ X → edge h u c → c ∈ X'
}.

Lemma searched_nil X : searched [] X X.
Proof. by split; [|intros u ?%elem_of_nil|..]. Qed.

Lemma searched_visited u X : u ∈ X → searched [u] X X.
Proof. intros Hu. split; [done|by intros v ->%list_elem_of_singleton|done..]. Qed.

Lemma searched_app l l' X1 X2 X3 :
  searched l X1 X2 → searched l' X2 X3 → searched (l ++ l') X1 X3.
Proof.
  intros [S1 T1 R1 C1] [S2 T2 R2 C2]. split.
  - by etrans.
  - intros u [Hu|Hu]%elem_of_app; [by apply S2, T1|by apply T2].
  - intros u Hu Hu1. destruct (decide (u ∈ X2)) as [Hu2|Hu2].
    + destruct (R1 u Hu2 Hu1) as (r & Hr & ?). exists r. by rewrite elem_of_app; auto.
    + destruct (R2 u Hu Hu2) as (r & Hr & ?). exists r. by rewrite elem_of_app; auto.
  - intros u c Hu Hu1 Hc. destruct (decide (u ∈ X2)) as [Hu2|Hu2].
    + by eapply S2, C1.
    + by eapply C2.
Qed.

Lemma searched_node u X X' :
  searched (children (node h u)) ({[u]} ∪ X) X' → searched [u] X X'.
Proof.
  intros [S T R C]. split.
  - set_solver.
  - intros v ->%list_elem_of_singleton. set_solver.
  - intros v Hv Hv1. exists u. split; [left|]. destruct (decide (v = u)) as [->|Hne]; [done|].
    destruct (R v Hv) as (r & Hr & ?); [set_solver|]. by apply rtc_l with r.
  - intros v c Hv Hv1 Hc. destruct (decide (v = u)) as [->|Hne]; [by apply T|].
    apply (C v); [done|set_solver|done].
Qed.

(** From nothing, exactly what is reached is visited. *)
Lemma searched_all l X u : searched l ∅ X → u ∈ X ↔ ∃ r, r ∈ l ∧ rtc (edge h) r u.
Proof.
  intros [_ T R C]. split; [intros Hu; by apply R|]. intros (r & Hr & Hu). apply T in Hr.
  induction Hu as [|x y z Hxy _ IH]; [done|]. apply IH. by eapply C.
Qed.

(** The nodes that are not visited yet. *)
Definition unvisited (X : gset nat) : nat := size (dom (nodes h) ∖ X).

Lemma unvisited_sub X X' : X ⊆ X' → unvisited X' ≤ unvisited X.
Proof. intros Hs. unfold unvisited. apply (subseteq_size (C := gset nat)). set_solver. Qed.

Lemma unvisited_visit u X : u ∉ X → children (node h u) ≠ [] → unvisited ({[u]} ∪ X) < unvisited X.
Proof.
  intros Hu Hc. unfold unvisited. apply (subset_size (C := gset nat)). assert (u ∈ dom (nodes h)).
  { rewrite elem_of_dom. unfold node in Hc. by destruct (nodes h !! u). }
  set_solver.
Qed.

Lemma unvisited_fuel X : unvisited X < graphFuel h.
Proof.
  unfold graphFuel, unvisited. rewrite <-(size_dom (D := gset nat)).
  assert (size (dom (nodes h) ∖ X) ≤ size (dom (nodes h))); [|lia]. apply (subseteq_size (C := gset nat)). set_solver.
Qed.
End Search.

Section Start.
Context `{PQ : PriorityQueue, !PriorityQueueLaws PQ, SC : Scripts, !StaticScripts SC, ST : Settings}.
Context (g : Graph).
Hypothesis G : settled g.

Notation edges := (edge (heap g)).
Notation unvisited := (unvisited (heap g)).
Notation searched := (searched (heap g)).

(** ** Preparing the nodes that are reached *)

(** The nodes in [X] are buildable, the others are untouched. *)
Definition marks (X : gset nat) (e : Executor) : Prop :=
  ∀ u, buildState e u = if bool_decide (u ∈ X) then Buildable else Untouched.

(** From [e] to [e'] only build states have changed. *)
Definition still (e e' : Executor) : Prop :=
  calm (on_buildStates (λ _, ∅) e) (on_buildStates (λ _, ∅) e') ∧
  executorRoots e' = executorRoots e.

#[local] Instance still_preorder : PreOrder still.
Proof.
  split; [by intros e; split|]. intros e1 e2 e3 [C1 R1] [C2 R2]. split; [by etrans|congruence].
Qed.

Lemma still_stable e e' : still e e' → stable g (graph e) → stable g (graph e').
Proof. intros C S. etrans; [exact S|apply C]. Qed.

Lemma stable_children e u :
  stable g (graph e) → children (node (heapOf e) u) = children (node (heap g) u).
Proof. intros S. apply (sb_edges _ _ S). Qed.

Lemma marks_insert X u e : marks X e → marks ({[u]} ∪ X) (setBuildState u Buildable e).
Proof.
  intros HX v. unfold buildState, setBuildState. simpl. destruct (decide (u = v)) as [->|Hne].
  - rewrite lookup_insert_eq, bool_decide_eq_true_2 by set_solver. done.
  - rewrite lookup_insert_ne by done. fold (buildState e v). rewrite HX.
    destruct (decide (v ∈ X)).
    + rewrite !bool_decide_eq_true_2 by set_solver. done.
    + rewrite !bool_decide_eq_false_2 by set_solver. done.
Qed.

Lemma setupForBuildingSelectedFiles_still u e :
  still e (setupForBuildingSelectedFiles u e) ∧
  buildStates (setupForBuildingSelectedFiles u e) = buildStates e.
Proof. unfold setupForBuildingSelectedFiles. repeat case_match; done. Qed.

(** The result of a search that prepares nodes. *)
Definition prepares (fuel : nat) (l : list nat) (X : gset nat) (e : Executor)
    (r : exn BGError unit * Executor) : Prop :=
  match r with
  | (Ok _, e') => ∃ X', marks X' e' ∧ searched l X X' ∧ still e e'
  | (Throw _, _) => fuel ≤ unvisited X
  end.

Lemma prepares_forM fuel l :
  (∀ u X e, u ∈ l → marks X e → stable g (graph e) →
    prepares fuel [u] X e (prepareReachableNodes_impl fuel u e)) →
  ∀ X e, marks X e → stable g (graph e) →
    prepares fuel l X e (forM l (prepareReachableNodes_impl fuel) e).
Proof.
  unfold forM. induction l as [|u l IH]; intros Hf X e HX S; cbn [foldM].
  { exists X. split; [done|]. by split; [apply searched_nil|]. }
  unfold mbind, st_bind. pose proof (Hf u X e (list_elem_of_here _ _) HX S) as Hu.
  destruct (prepareReachableNodes_impl fuel u e) as [[[]|x] e1]; [|done].
  destruct Hu as (X1 & HX1 & D1 & C1).
  assert (prepares fuel l X1 e1 (foldM (λ _ x, prepareReachableNodes_impl fuel x) l tt e1)) as Hl.
  { apply IH; [|done|by eapply still_stable]. intros v X2 e2 Hv. apply Hf. by right. }
  destruct (foldM _ l tt e1) as [[[]|x] e2]; simpl in *.
  - destruct Hl as (X2 & HX2 & D2 & C2). exists X2. split; [done|]. split; [|by etrans].
    by apply (searched_app _ [u] l X X1 X2).
  - pose proof (unvisited_sub (heap g) X X1 (sd_sub _ _ _ _ D1)). lia.
Qed.

Lemma prepareReachableNodes_impl_prepares fuel u X e :
  marks X e → stable g (graph e) → prepares fuel [u] X e (prepareReachableNodes_impl fuel u e).
Proof.
  revert u X e. induction fuel as [|fuel IH]; intros u X e HX S; [simpl; lia|].
  cbn [prepareReachableNodes_impl]. unfold mbind at 1, st_bind at 1, modify at 1.
  pose proof (setupForBuildingSelectedFiles_still u e) as [C0 B0].
  set (e0 := setupForBuildingSelectedFiles u e) in *.
  assert (marks X e0) as HX0 by (intros v; by rewrite (buildState_states e)).
  assert (stable g (graph e0)) as S0 by by eapply still_stable.
  unfold mbind at 1, st_bind at 1, gets at 1, id. rewrite HX0.
  destruct (decide (u ∈ X)) as [Hu|Hu].
  { rewrite (bool_decide_eq_true_2 _ Hu). simpl. exists X. split; [done|].
    by split; [apply searched_visited|]. }
  rewrite (bool_decide_eq_false_2 _ Hu). cbn [negb bool_decide decide_rel].
  rewrite bool_decide_eq_true_2 by done. cbn [negb].
  unfold mbind at 1, st_bind at 1, modify at 1. rewrite (stable_children e0 u S0).
  set (e1 := setBuildState u Buildable e0).
  assert (still e e1) as C1 by (etrans; [exact C0|by split]).
  pose proof (prepares_forM fuel (children (node (heap g) u)) (λ v X e _, IH v X e)
    ({[u]} ∪ X) e1 (marks_insert X u e0 HX0) S0) as Hl.
  destruct (children (node (heap g) u)) as [|c l] eqn:Hc.
  - destruct Hl as (X' & HX' & D & C). exists X'. split; [done|].
    split; [by apply searched_node; rewrite Hc|by etrans].
  - rewrite <-Hc in *. destruct (forM _ _ e1) as [[[]|x] e2].
    + destruct Hl as (X' & HX' & D & C). exists X'. split; [done|].
      split; [by apply searched_node|by etrans].
    + simpl in Hl |- *. assert (unvisited ({[u]} ∪ X) < unvisited X); [|lia].
      apply unvisited_visit; [done|by rewrite Hc].
Qed.

Lemma stable_fuel e : stable g (graph e) → graphFuel (heapOf e) = graphFuel (heap g).
Proof.
  intros S. unfold graphFuel. rewrite <-!(size_dom (D := gset nat)). unfold heapOf.
  by rewrite (sb_nodes _ _ S).
Qed.

Lemma prepareReachableNodes_prepares e :
  marks ∅ e → stable g (graph e) → ∃ X e', prepareReachableNodes e = (Ok tt, e') ∧
    marks X e' ∧ searched (executorRoots e) ∅ X ∧ still e e'.
Proof.
  intros HX S. unfold prepareReachableNodes. unfold mbind, st_bind, gets, id.
  rewrite (stable_fuel e S).
  pose proof (prepares_forM (graphFuel (heap g)) (executorRoots e)
    (λ u X e _, prepareReachableNodes_impl_prepares _ u X e) ∅ e HX S) as Hl.
  destruct (forM _ _ e) as [[[]|x] e'].
  - destruct Hl as (X & ? & ? & ?). by exists X, e'.
  - pose proof (unvisited_fuel (heap g) ∅). simpl in Hl. lia.
Qed.

(** ** Searching for the leaves *)

Definition childless (u : nat) : Prop := children (node (heap g) u) = [].

Notation seenSet := (list_to_set (C := gset nat)).

(** The leaves [L] are pushed that a search finds which sees the nodes in [seen']. *)
Record leavesOf (seen seen' : NodeSet) (L : list nat) : Prop := {
  lv_wf : wf_set seen';
  lv_elem u : u ∈ L ↔ (u ∈ seen' ∧ u ∉ seen) ∧ childless u
}.

(** The result of a search for leaves, with [seenOf] of the result the nodes seen. *)
Definition finds {A} (seenOf : A → NodeSet) (fuel : nat) (l : list nat) (seen : NodeSet)
    (e : Executor) (r : exn BGError A * Executor) : Prop :=
  match r with
  | (Ok a, e') => ∃ L, e' = on_m_leaves (app L) e ∧ leavesOf seen (seenOf a) L ∧
      searched l (seenSet seen) (seenSet (seenOf a))
  | (Throw _, _) => fuel ≤ unvisited (seenSet seen)
  end.

Lemma leavesOf_app seen seen1 seen2 L1 L2 :
  seen ⊆ seen1 → seen1 ⊆ seen2 → leavesOf seen seen1 L1 → leavesOf seen1 seen2 L2 →
  leavesOf seen seen2 (L2 ++ L1).
Proof.
  intros Hs1 Hs2 [W1 E1] [W2 E2]. split; [done|]. intros u. rewrite elem_of_app, E1, E2.
  specialize (Hs1 u). specialize (Hs2 u). destruct (decide (u ∈ seen1)); naive_solver.
Qed.

Lemma searched_subset l seen seen' : searched l (seenSet seen) (seenSet seen') → seen ⊆ seen'.
Proof. intros [Hs _ _ _] u Hu. specialize (Hs u). rewrite !elem_of_list_to_set in Hs. auto. Qed.

Lemma on_m_leaves_app L L' e :
  on_m_leaves (app L') (on_m_leaves (app L) e) = on_m_leaves (app (L' ++ L)) e.
Proof. unfold on_m_leaves. simpl. by rewrite <-app_assoc. Qed.

(** One search after the other. *)
Lemma finds_next {A} (seenOf : A → NodeSet) fuel l l' seen seen1 L e r :
  leavesOf seen seen1 L → searched l (seenSet seen) (seenSet seen1) →
  finds seenOf fuel l' seen1 (on_m_leaves (app L) e) r → finds seenOf fuel (l ++ l') seen e r.
Proof.
  intros HL D. destruct r as [[a|x] e2]; simpl.
  - intros (L2 & -> & HL2 & D2). exists (L2 ++ L). split; [apply on_m_leaves_app|].
    split; [|by apply (searched_app _ l l' _ (seenSet seen1))].
    apply (leavesOf_app seen seen1); [by eapply searched_subset..|done|done].
  - pose proof (unvisited_sub (heap g) _ _ (sd_sub _ _ _ _ D)). lia.
Qed.

Section Leaves.
Context (R : gset nat).
Hypothesis closed : ∀ u c, u ∈ R → edges u c → c ∈ R.

(** The rounds of the loop over the children. *)
Definition leafRound (fuel : nat) (r : bool * NodeSet) (child : nat) : M (bool * NodeSet) :=
  s ← gets (λ e, buildState e child);
  if bool_decide (s = Built) then mret r
  else seenNodes ← updateLeaves_impl fuel child r.2; mret (false, seenNodes).

Definition finder (fuel : nat) : Prop := ∀ u seen e,
  u ∈ R → wf_set seen → marks R e → stable g (graph e) →
  finds id fuel [u] seen e (updateLeaves_impl fuel u seen e).

Lemma leaves_loop fuel cs :
  finder fuel → (∀ c, c ∈ cs → c ∈ R) → ∀ b seen e,
  wf_set seen → marks R e → stable g (graph e) →
  finds snd fuel cs seen e (foldM (leafRound fuel) cs (b, seen) e) ∧
  match foldM (leafRound fuel) cs (b, seen) e with
  | (Ok r, _) => r.1 = b && is_nil cs
  | _ => True
  end.
Proof.
  intros Hf. induction cs as [|c cs IH]; intros Hcs b seen e Hw HR S; cbn [foldM].
  { split; [|by destruct b]. exists []. split; [by destruct e|]. split; [|apply searched_nil].
    split; [done|]. intros u. rewrite elem_of_nil. naive_solver. }
  unfold mbind at 1 2, st_bind at 1 2, leafRound at 1 3, gets, mbind at 1 3, st_bind at 1 3.
  rewrite HR, (bool_decide_eq_true_2 (c ∈ R)) by (apply Hcs; left).
  rewrite bool_decide_eq_false_2 by done.
  unfold mbind at 1 2, st_bind at 1 2. cbn [snd].
  pose proof (Hf c seen e (Hcs c (list_elem_of_here _ _)) Hw HR S) as Hc.
  destruct (updateLeaves_impl fuel c seen e) as [[seen1|x] e1]; [|by split].
  destruct Hc as (L & -> & HL & D). cbn [mret st_ret].
  destruct (IH (λ c H, Hcs c (list_elem_of_further _ _ _ H)) false seen1 (on_m_leaves (app L) e)
    (lv_wf _ _ _ HL) HR S) as [Hl Hb].
  split.
  - by apply (finds_next snd fuel [c] cs seen seen1 L).
  - destruct (foldM _ cs _ _) as [[r|x] e2]; [|done]. rewrite Hb. by rewrite andb_false_r.
Qed.

Lemma updateLeaves_impl_finds fuel : finder fuel.
Proof.
  induction fuel as [|fuel IH]; intros u seen e Hu Hw HR S; [simpl; lia|].
  cbn [updateLeaves_impl].
  destruct (set_insert_cases seen u Hw) as [(Hin & i & ->)|(Hin & i & ->)]; cbn [negb].
  { exists []. split; [by destruct e|]. split.
    - split; [done|]. intros v. rewrite elem_of_nil. unfold id. naive_solver.
    - apply searched_visited. by rewrite elem_of_list_to_set. }
  unfold mbind at 1, st_bind at 1. unfold touch. unfold mbind at 1, st_bind at 1, gets at 1.
  rewrite HR, (bool_decide_eq_true_2 (u ∈ R)) by done. rewrite bool_decide_eq_false_2 by done.
  cbn [mret st_ret]. unfold mbind at 1, st_bind at 1, gets at 1. rewrite (stable_children e u S).
  fold (leafRound fuel). unfold mbind at 1, st_bind at 1.
  destruct (leaves_loop fuel (children (node (heap g) u)) IH (λ c, closed u c Hu) true (ins seen u) e
    (ins_wf _ _ Hw) HR S) as [Hl Hb].
  assert (∀ v, v ∈ ins seen u ↔ v = u ∨ v ∈ seen) as Hins by (intros v; by apply elem_of_ins).
  assert (seenSet (ins seen u) = {[u]} ∪ seenSet seen) as Hset.
  { apply set_eq. intros v. rewrite elem_of_union, elem_of_singleton, !elem_of_list_to_set. apply Hins. }
  destruct (foldM _ _ _ e) as [[r|x] e1] eqn:E; cycle 1.
  { simpl in Hl |- *. rewrite Hset in Hl. destruct (decide (childless u)) as [Hc|Hc].
    - by rewrite Hc in E.
    - assert (unvisited ({[u]} ∪ seenSet seen) < unvisited (seenSet seen)); [|lia].
      apply unvisited_visit; [by rewrite elem_of_list_to_set|done]. }
  destruct Hl as (L & -> & [W EL] & D). rewrite Hset in D. apply searched_node in D.
  assert (seen ⊆ r.2) as Hsub by by eapply searched_subset.
  assert (u ∈ r.2) as Hur.
  { rewrite <-(elem_of_list_to_set (C := gset nat)). apply (sd_starts _ _ _ _ D). left. }
  simpl in Hb. unfold mbind, st_bind. destruct r as [b seen']; cbn [fst snd] in *.
  destruct b; cbn [when mret st_ret modify].
  - exists (u :: L). split; [done|]. split; [|done]. split; [done|]. intros v. unfold id.
    rewrite elem_of_cons, EL, Hins. symmetry in Hb. apply is_nil_true in Hb.
    destruct (decide (v = u)) as [->|Hne]; naive_solver.
  - exists L. split; [done|]. split; [|done]. split; [done|]. intros v. unfold id.
    rewrite EL, Hins. symmetry in Hb. apply is_nil_false in Hb.
    destruct (decide (v = u)) as [->|Hne]; naive_solver.
Qed.
End Leaves.

Lemma updateLeaves_finds R nodes e :
  (∀ u c, u ∈ R → edges u c → c ∈ R) → (∀ u, u ∈ nodes → u ∈ R) →
  marks R e → stable g (graph e) →
  ∃ seen L, updateLeaves nodes e = (Ok tt, on_m_leaves (app L) e) ∧
    leavesOf [] seen L ∧ searched nodes ∅ (seenSet seen).
Proof.
  intros Hcl Hn HR S. unfold updateLeaves, mbind, st_bind, gets. rewrite (stable_fuel e S).
  assert (∀ seen, wf_set seen → ∀ e, marks R e → stable g (graph e) →
    finds id (graphFuel (heap g)) nodes seen e
    (foldM (λ seenNodes u, updateLeaves_impl (graphFuel (heap g)) u seenNodes) nodes seen e)) as Hf.
  { clear HR S e. induction nodes as [|u l IH]; intros seen Hw e HR S; cbn [foldM].
    - exists []. split; [by destruct e|]. split; [|apply searched_nil].
      split; [done|]. intros u. rewrite elem_of_nil. unfold id. naive_solver.
    - pose proof (updateLeaves_impl_finds R Hcl (graphFuel (heap g)) u seen e
        (Hn u (list_elem_of_here _ _)) Hw HR S) as Hu.
      unfold mbind, st_bind. destruct (updateLeaves_impl _ u seen e) as [[seen1|x] e1]; [|done].
      destruct Hu as (L & -> & HL & D). apply (finds_next id _ [u] l seen seen1 L); [done..|].
      apply IH; [|by apply HL|done|done]. intros v Hv. apply Hn. by right. }
  specialize (Hf [] nil_wf e HR S). destruct (foldM _ nodes [] e) as [[seen|x] e'].
  - destruct Hf as (L & -> & HL & D). by exists seen, L.
  - pose proof (unvisited_fuel (heap g) ∅). simpl in Hf. lia.
Qed.

(** ** The state in which scheduling starts *)

(** Nothing has been done yet. *)
Record starting (e : Executor) : Prop := {
  st_graph : stable g (graph e);
  st_states : marks ∅ e;
  st_leaves : m_leaves e = [];
  st_available : NoDup (m_availableJobs e);
  st_processing : m_processingJobs e = ∅;
  st_clean : clean e;
  st_errors : m_errors e = [];
  st_state : m_state e = ExecutorRunning;
  st_posted : finishPosted e = false
}.

Lemma starting_calm e e' : calm e e' → starting e → starting e'.
Proof.
  intros [] [S M L Av Pr C E St Po]. split; try congruence.
  - by etrans.
  - intros u. rewrite (buildState_states e) by done. apply M.
  - revert C. unfold clean. by rewrite c_signals, c_jobs.
Qed.

(** The roots and what is reached from them are buildable; those without children are
    the leaves. *)
Lemma starting_going e nodes X seen L e1 :
  starting e → (∀ r, r ∈ nodes ↔ root g r) → searched nodes ∅ X → still e e1 → marks X e1 →
  leavesOf [] seen L → searched nodes ∅ (seenSet seen) →
  going g (on_m_leaves (app L) e1).
Proof.
  intros [S M Hl Av Pr C E St Po] Hr D1 [Hs _] HM [_ HL] D2.
  assert (∀ u, u ∈ X ↔ reached g u) as HX.
  { intros u. rewrite (searched_all _ _ _ u D1). unfold reached. by setoid_rewrite Hr. }
  assert (∀ u, u ∈ L ↔ reached g u ∧ childless u) as HL'.
  { intros u. rewrite HL, <-(elem_of_list_to_set (C := gset nat)), (searched_all _ _ _ u D2).
    unfold reached. setoid_rewrite Hr. rewrite elem_of_nil. naive_solver. }
  assert (∀ u, buildState e1 u = Untouched ∨ buildState e1 u = Buildable) as Hb.
  { intros u. rewrite HM. case_bool_decide; auto. }
  destruct Hs. simpl in *. rewrite Hl in c_leaves. split; [|intros t o o' _ _ _ H|].
  - split.
    + by etrans.
    + intros u Hu Hc. left. cbn. rewrite c_leaves, app_nil_r, HL'.
      change (buildState e1 u = Buildable) in Hu. rewrite HM in Hu. case_bool_decide as Hin; [|done].
      split; [by apply HX|]. unfold childless. destruct (children _) as [|c l] eqn:Ec; [done|].
      assert (edges u c) as Huc by (unfold edge; rewrite Ec; left).
      specialize (Hc c Huc). change (buildState e1 c = Built) in Hc. destruct (Hb c); congruence.
    + intros u Hu. change (buildState e1 u = Building) in Hu. destruct (Hb u); congruence.
    + cbn. rewrite c_available, c_processing, Pr. split; [done|]. intros j _. apply lookup_empty.
    + intros u. cbn. rewrite c_leaves, app_nil_r, HL'. intros [Hu Hc]. split.
      * change (buildState e1 u ≠ Untouched). rewrite HM, bool_decide_eq_true_2; [done|by apply HX].
      * intros c Huc. unfold edge in Huc. rewrite Hc in Huc. by apply elem_of_nil in Huc.
    + intros u Hu. change (buildState e1 u = Building ∨ buildState e1 u = Built) in Hu.
      destruct (Hb u), Hu; congruence.
    + intros j t u. cbn. by rewrite c_processing, Pr.
    + intros u Hu. change (buildState e1 u ≠ Untouched).
      rewrite HM, bool_decide_eq_true_2; [done|by apply HX].
  - change (buildState e1 o = Built) in H. destruct (Hb o); congruence.
  - revert C. unfold clean. cbn. by rewrite c_signals, c_jobs.
Qed.

(** ** A build starts *)

Definition ends_without_fuel {A} (P : Executor → Prop) (m : M A) (Q : A → Executor → Prop) : Prop :=
  triple P m Q (λ x _, x ≠ OutOfFuel).

Lemma ends_intro {A} (P : Executor → Prop) (m : M A) :
  moves (preserves P) m → no_fuel m → ends_without_fuel P m (λ _, P).
Proof.
  intros Hm Hf e He. specialize (Hm e He). specialize (Hf e). by destruct (m e) as [[a|x] e'].
Qed.

Lemma starting_moves {A} (m : M A) : moves calm m → moves (preserves starting) m.
Proof. intros Hm e He. exact (starting_calm _ _ (Hm e) He). Qed.

(** The roots of the products in [l]. *)
Definition rootsOf (l : list nat) (r : nat) : Prop :=
  ∃ p b, p ∈ l ∧ buildDataOf (heap g) p = Some b ∧ r ∈ m_roots b.

Lemma setupRootNodes_roots :
  ends_without_fuel starting setupRootNodes
    (λ _ e, starting e ∧ ∀ r, r ∈ executorRoots e ↔ root g r).
Proof.
  unfold setupRootNodes. eapply (triple_bind _ _ _ (λ _ e, starting e ∧ executorRoots e = [])).
  { intros e He. split; [|done]. eapply starting_calm; [|exact He]. by split. }
  intros []. set (I := λ (l : list nat) (_ : unit) e, starting e ∧ wf_set (executorRoots e) ∧
    ∀ r, (r ∈ executorRoots e ∨ rootsOf l r) ↔ root g r).
  eapply (triple_conseq _ (I m_productsToBuild tt) _ _ (I []) _ (λ x _, x ≠ OutOfFuel)); [apply triple_foldM|..].
  - intros p l [] _ e (He & Hw & Hr). unfold mbind, st_bind, gets, id.
    pose proof (sb_roots _ _ (st_graph _ He) p) as Hp. fold (heapOf e) in Hp.
    destruct (buildDataOf (heapOf e) p) as [b|]; [|done].
    destruct (buildDataOf (heap g) p) as [b0|] eqn:Eb; [|discriminate Hp]. injection Hp as Hb.
    simpl. assert (wf_set (m_roots b)) as Hwb by (rewrite Hb; by eapply (se_roots _ G)).
    split_and!.
    + eapply starting_calm; [|exact He]. by split.
    + by apply set_unite_sorted.
    + intros r. simpl. unfold wf_set in *. rewrite elem_of_set_unite, <-Hr by done.
      assert (rootsOf (p :: l) r ↔ r ∈ m_roots b ∨ rootsOf l r) as ->; [|tauto].
      unfold rootsOf. rewrite Hb. split.
      * intros (q & b' & [->|Hq]%elem_of_cons & Hq' & Hin); [left; congruence|right; eauto].
      * intros [Hin|(q & b' & Hq & Hin)]; [exists p, b0|exists q, b']; rewrite elem_of_cons; auto.
  - intros e [He Hn]. split; [done|]. rewrite Hn. split; [apply nil_wf|]. intros r.
    rewrite elem_of_nil. unfold root, rootsOf. tauto.
  - intros [] e (He & _ & Hr). split; [done|]. intros r. rewrite <-Hr. unfold rootsOf.
    split; [by left|]. intros [?|(p & b & ?%elem_of_nil & _)]; done.
  - done.
Qed.

Lemma starting_setBuildState u : moves (preserves starting) (modify (setBuildState u Untouched) : M unit).
Proof.
  apply moves_modify. intros e He. destruct He. split; try done. intros v.
  unfold buildState, setBuildState. simpl. destruct (decide (u = v)) as [->|Hne].
  - by rewrite lookup_insert_eq.
  - rewrite lookup_insert_ne by done. apply (st_states0 v).
Qed.

Lemma starting_prepareAllNodes : ends_without_fuel starting prepareAllNodes (λ _, starting).
Proof.
  apply ends_intro; [|unfold prepareAllNodes; throws; apply no_fuel_prepareArtifact].
  assert (∀ a, moves (preserves starting) (prepareArtifact a)) as Ha.
  { intros a. apply starting_moves, calm_prepareArtifact. }
  unfold prepareAllNodes. moves. apply starting_setBuildState.
Qed.

(** The searches are done, and nothing else has happened. *)
Definition searching (e : Executor) : Prop :=
  going g e ∧ m_errors e = [] ∧ m_state e = ExecutorRunning ∧ finishPosted e = false.

Definition marked (e : Executor) : Prop :=
  ∃ e0 X, starting e0 ∧ (∀ r, r ∈ executorRoots e0 ↔ root g r) ∧
    searched (executorRoots e0) ∅ X ∧ still e0 e ∧ marks X e.

Lemma prepareReachableNodes_marked :
  ends_without_fuel (λ e, starting e ∧ ∀ r, r ∈ executorRoots e ↔ root g r)
    prepareReachableNodes (λ _, marked).
Proof.
  intros e [He Hr].
  destruct (prepareReachableNodes_prepares e (st_states _ He) (st_graph _ He))
    as (X & e' & -> & HM & D & Hs). by exists e, X.
Qed.

Lemma initLeaves_searching : ends_without_fuel marked initLeaves (λ _, searching).
Proof.
  intros e (e0 & X & He & Hr & D & Hs & HM). unfold initLeaves, mbind, st_bind, gets.
  rewrite (proj2 Hs).
  destruct (updateLeaves_finds X (executorRoots e0) e) as (seen & L & -> & HL & D2).
  - intros u c Hu Hc. apply (sd_closed _ _ _ _ D u); [done|apply not_elem_of_empty|done].
  - intros u Hu. by apply (sd_starts _ _ _ _ D).
  - done.
  - eapply still_stable; [exact Hs|apply He].
  - split; [by apply (starting_going e0 (executorRoots e0) X seen)|]. destruct Hs as [[] _], He. simpl in *. by split_and!; congruence.
Qed.

(** [m] ends in a fine state, or throws; with enough fuel it does not run out of it. *)
Definition orderly (P : Executor → Prop) (m : nat → M unit) : Prop :=
  ∀ e, P e → ∃ n, ∀ fuel, match m fuel e with
    | (Ok _, e') => fine g e'
    | (Throw x, _) => x = OutOfFuel → fuel < n
    end.

Lemma orderly_bind {A} P (m : M A) (k : A → nat → M unit) Q :
  ends_without_fuel P m Q → (∀ a, orderly (Q a) (k a)) →
  orderly P (λ fuel, m ≫= λ a, k a fuel).
Proof.
  intros Hm Hk e He. specialize (Hm e He). unfold mbind, st_bind.
  destruct (m e) as [[a|x] e']; [by apply Hk|]. exists 0. by intros fuel ->.
Qed.

Lemma orderly_calm {A} (m : M A) (k : A → nat → M unit) :
  moves calm m → no_fuel m → (∀ a, orderly starting (k a)) →
  orderly starting (λ fuel, m ≫= λ a, k a fuel).
Proof.
  intros Hm Hf. apply orderly_bind, ends_intro; [|done]. by apply starting_moves.
Qed.

Hypothesis acyclic_g : acyclic (heap g).

Lemma schedule_orderly :
  orderly searching (λ fuel, more ← scheduleJobs fuel; when (negb more) postFinish).
Proof.
  intros e (Hg & He & Hs & Hf). exists (S (remaining g e)). intros fuel. unfold mbind, st_bind.
  pose proof (scheduleJobs_order g G acyclic_g fuel e Hg) as Hsch.
  destruct (scheduleJobs fuel e) as [[more|x] e1]; [|intros Hx; specialize (Hsch Hx); lia].
  destruct Hsch as (Hg1 & F & Hall).
  assert (m_state e1 = ExecutorRunning) as Hs1 by (by rewrite (sf_state _ _ F)).
  assert (m_errors e1 = []) as He1 by (by rewrite (sf_errors _ _ F)).
  destruct more; cbn [negb when mret st_ret]; unfold postFinish, modify.
  - split; [done|done|]. by rewrite Hs1, (sf_posted _ _ F), Hf.
  - split; [|done|].
    + apply (going_same g e1); try done. apply Hg1.
    + cbn. rewrite Hs1. intros _. split; [|by apply Hall]. intros u Hu. by apply Hall.
Qed.

(** Before the build is marked as running. *)
Definition resetting (e : Executor) : Prop :=
  starting (on_m_state (λ _, ExecutorRunning) e) ∧ m_availableJobs e = [].

Lemma resetting_calm e e' : calm e e' → resetting e → resetting e'.
Proof.
  intros C [He Ha]. split; [|by rewrite (c_available _ _ C)].
  eapply starting_calm; [|exact He]. destruct C. by split.
Qed.

Lemma resetting_bind {A} (m : M A) (k : A → nat → M unit) :
  moves calm m → no_fuel m → (∀ a, orderly resetting (k a)) →
  orderly resetting (λ fuel, m ≫= λ a, k a fuel).
Proof.
  intros Hm Hf. apply orderly_bind, ends_intro; [|done]. intros e. exact (resetting_calm _ _ (Hm e)).
Qed.

Lemma resetting_modify f (k : unit → nat → M unit) :
  (∀ e, resetting e → resetting (f e)) → (∀ a, orderly resetting (k a)) →
  orderly resetting (λ fuel, modify f ≫= λ a, k a fuel).
Proof. intros Hf. apply orderly_bind, ends_intro; [by apply moves_modify|done]. Qed.

Lemma calm_setupJobLimits e : calm e (setupJobLimits e).
Proof.
  unfold setupJobLimits. generalize m_productsToBuild as l. intros l.
  revert e. induction l as [|p l IH]; intros e; [done|]. etrans; [|apply IH]. by split.
Qed.

Lemma nothing_fine e :
  starting e → m_productsToBuild = [] → fine g (on_finishPosted (λ _, true) e).
Proof.
  intros He Hp. assert (∀ r, ¬ root g r) as Hr.
  { intros r (p & b & Hin & _). rewrite Hp in Hin. by apply elem_of_nil in Hin. }
  assert (going g (on_m_leaves (app []) e)) as Hg.
  { eapply (starting_going e [] ∅ []); [done| |apply searched_nil|done|apply He| |apply searched_nil].
    - intros r. rewrite elem_of_nil. split; [done|]. by intros ?%Hr.
    - split; [apply nil_wf|]. intros u. rewrite elem_of_nil. naive_solver. }
  split; [|apply He|].
  - apply (going_same g (on_m_leaves (app []) e)); try done. apply Hg.
  - simpl. rewrite (st_state _ He). intros _. split; [|apply He]. by intros u (r & ?%Hr & _).
Qed.

Lemma starting_addExecutorJobs :
  ends_without_fuel (λ e, starting e ∧ m_availableJobs e = []) addExecutorJobs (λ _, starting).
Proof.
  intros e [[S M L _ Pr [C1 C2] E St Po] Ha]. unfold addExecutorJobs. rewrite addExecutorJobs_eq.
  split; try done.
  - simpl. rewrite Ha. apply NoDup_seq.
  - split; [done|]. intros j job. simpl. rewrite lookup_new_jobs. case_bool_decide; [by intros [= <-]|].
    apply C2.
Qed.

Lemma newExecutor_orderly f : ∃ n, ∀ fuel,
  match doBuild fuel (newExecutor g f) with
  | (Ok _, e') => fine g e'
  | (Throw x, _) => x = OutOfFuel → fuel < n
  end.
Proof.
  assert (orderly (λ e, e = newExecutor g f) doBuild) as Ho; [|by apply Ho].
  unfold doBuild. eapply (orderly_bind _ _ _ (λ s e, s = ExecutorIdle ∧ e = newExecutor g f)).
  { by intros e ->. }
  intros s. eapply (orderly_bind _ _ _ (λ _, resetting)).
  { intros e [-> ->]. simpl. split; [|done]. split; try done.
    - constructor.
    - split; [by intros j b ?%elem_of_nil|done]. }
  intros []. do 6 (apply resetting_modify; [intros e [[] ?]; by split; [split|]|intros []]).
  apply resetting_bind; [apply moves_modify, calm_setupJobLimits|throws|]. intros [].
  apply resetting_bind; [apply calm_setupFilesToConsider|apply no_fuel_setupFilesToConsider|]. intros [].
  eapply (orderly_bind _ _ _ (λ _ e, starting e ∧ m_availableJobs e = [])).
  { by intros e [He Ha]. }
  intros []. destruct (is_nil m_productsToBuild) eqn:Hp.
  { apply is_nil_true in Hp. intros e [He _]. exists 0. intros ?. by apply nothing_fine. }
  eapply (orderly_bind _ _ _ (λ _ e, starting e ∧ m_availableJobs e = [])).
  { apply (ends_intro (λ e, starting e ∧ m_availableJobs e = [])); [|apply no_fuel_checkProducts].
    intros e [He Ha]. pose proof (calm_checkProducts e) as C.
    split; [by eapply starting_calm|]. by rewrite (c_available _ _ C). }
  intros []. eapply orderly_bind; [apply starting_addExecutorJobs|]. intros [].
  apply orderly_calm; [apply calm_syncFileDependencies|apply no_fuel_syncFileDependencies|]. intros [].
  eapply orderly_bind; [apply starting_prepareAllNodes|]. intros [].
  apply orderly_calm; [apply calm_prepareProducts|done|]. intros [].
  eapply orderly_bind; [apply setupRootNodes_roots|]. intros [].
  eapply orderly_bind; [apply prepareReachableNodes_marked|]. intros [].
  eapply orderly_bind; [apply initLeaves_searching|]. intros [].
  apply schedule_orderly.
Qed.

(** ** Builds in which nothing fails *)

(** The states of a build of [g] in which no command fails and no exception is
    caught; the two handlers are those of [startBuild] and [handleEvent]. *)
Inductive successful (f : FileSystem) : Executor → Prop :=
  | su_started fuel e :
      doBuild fuel (newExecutor g f) = (Ok tt, e) → successful f e
  | su_command j e e' :
      successful f e → enabledEvent (EventCommandFinished j false) e →
      handleEvent 0 (EventCommandFinished j false) e = (Ok tt, e') → successful f e'
  | su_job fuel j b l e e' :
      successful f e → finishedSignals e = (j, b) :: l →
      finishJob fuel j (negb b) (on_finishedSignals (λ _, l) e) = (Ok tt, e') → successful f e'
  | su_finish e e' :
      successful f e → enabledEvent EventFinish e →
      handleEvent 0 EventFinish e = (Ok tt, e') → successful f e'
  | su_files files e :
      successful f e → successful f (on_fs (λ _, files) e).

Lemma fine_same e e' :
  graph e' = graph e → buildStates e' = buildStates e → m_leaves e' = m_leaves e →
  m_availableJobs e' = m_availableJobs e → m_processingJobs e' = m_processingJobs e →
  same_flags e e' → fine g e → fine g e'.
Proof.
  intros HG HS HL HA HP F [Hg He Hst]. split.
  - eapply (going_same g e); try done; [by rewrite HG|]. by apply (sf_clean _ _ F), Hg.
  - by rewrite (sf_errors _ _ F).
  - rewrite (sf_state _ _ F), (sf_posted _ _ F), HP.
    destruct (m_state e); [by eapply all_built_states| |done].
    intros Hf. destruct (Hst Hf). split; [by eapply all_built_states|done].
Qed.

Lemma fine_command j e :
  fine g e → fine g (emitFinished j (onCommandFinished false (default resetJob (jobs e !! j))) e).
Proof.
  intros Hf. pose proof (go_clean _ _ (fi_going _ _ Hf)) as [_ C].
  assert (m_error (default resetJob (jobs e !! j)) = false) as Hj.
  { destruct (jobs e !! j) as [job|] eqn:E; [by apply (C j)|done]. }
  destruct (onCommandFinished_clean _ Hj) as [H1 H2].
  eapply (fine_same e); [..|by apply emitFinished_clean|done];
    unfold emitFinished; by destruct (onCommandFinished _ _).1.
Qed.

Lemma fine_signal j b l e :
  fine g e → finishedSignals e = (j, b) :: l →
  b = false ∧ fine g (on_finishedSignals (λ _, l) e).
Proof.
  intros Hf Hs. pose proof (go_clean _ _ (fi_going _ _ Hf)) as [C1 C2].
  split; [apply (C1 j); rewrite Hs; left|]. apply (fine_same e); try done. split; try done.
  intros _. split; [|done]. intros i b' Hi. apply (C1 i). rewrite Hs. by right.
Qed.

(** A job ends, in any state. *)
Lemma finishJob_fine j e :
  fine g e → ∃ n, ∀ fuel, match finishJob fuel j true e with
    | (Ok _, e') => fine g e'
    | (Throw x, _) => x = OutOfFuel → fuel < n
    end.
Proof.
  intros Hf. assert (∀ b, (b = true → m_state e = ExecutorIdle ∨ m_processingJobs e = ∅) →
    b = true → ∃ n, ∀ fuel, match finishJob fuel j true e with
    | (Ok _, e') => fine g e'
    | (Throw x, _) => x = OutOfFuel → fuel < n
    end) as Hthrow.
  { intros b Hb Hbt. exists 0. intros fuel. unfold finishJob, check, lift, mbind, st_bind, gets, id.
    destruct (Hb Hbt) as [->| ->]; [by rewrite bool_decide_eq_true_2 by done|].
    destruct (QBS_CHECK _) as [[]|x] eqn:E; [by rewrite lookup_empty|].
    unfold QBS_CHECK in E. by destruct (negb _); simplify_eq. }
  pose proof (fi_state _ _ Hf) as Hst. destruct (m_state e) eqn:Hs; [apply (Hthrow true); auto| |done].
  destruct (finishPosted e) eqn:Hp.
  - apply (Hthrow true); [|done]. intros _. right. by apply Hst.
  - by apply finishJob_order.
Qed.

Lemma successful_fine f e : successful f e → fine g e.
Proof.
  induction 1 as [fuel e E|j e e' _ IH _ E|fuel j b l e e' _ IH Hs E|e e' _ IH Hp E|files e _ IH].
  - destruct (newExecutor_orderly f) as [n Hn]. specialize (Hn fuel). by rewrite E in Hn.
  - injection E as <-. by apply fine_command.
  - destruct (fine_signal j b l e IH Hs) as [-> Hf]. destruct (finishJob_fine j _ Hf) as [n Hn].
    specialize (Hn fuel). cbn [negb] in E. by rewrite E in Hn.
  - pose proof (fi_state _ _ IH) as Hst. unfold handleEvent, mbind, st_bind, modify in E.
    set (e1 := on_finishPosted (λ _, false) e) in E.
    destruct (finish_fine g e1) as (e2 & E2 & Hf).
    + apply (going_same g e); try done; apply IH.
    + apply IH.
    + destruct (m_state e); [done| |done]. by apply Hst.
    + by rewrite E in E2; simplify_eq.
  - eapply fine_same; [..|exact IH]; done.
Qed.

(** Such a build is a build. *)
Lemma successful_building f e : successful f e → building_from g f e.
Proof.
  induction 1 as [fuel e E|j e e' _ IH Hj E|fuel j b l e e' Hsu IH Hs E|e e' _ IH Hp E|files e _ IH].
  - apply (started _ _ fuel). unfold startBuild, catch. by rewrite E.
  - eapply stepped; [exact IH|]. by apply (step_event _ 0 (EventCommandFinished j false)).
  - destruct (fine_signal j b l e (successful_fine f e Hsu) Hs) as [-> _].
    eapply stepped; [exact IH|]. apply (step_event _ fuel EventJobFinished); simpl; [by rewrite Hs|].
    unfold mbind, st_bind, gets, modify. rewrite Hs. unfold onJobFinished, catch.
    cbn [andb]. unfold mbind, st_bind. cbn [when mret st_ret negb]. cbn [negb] in E. by rewrite E.
  - eapply stepped; [exact IH|]. by apply (step_event _ 0 EventFinish).
  - eapply stepped; [exact IH|]. by apply (step_event _ 0 (EventFiles files)).
Qed.

(** ** The properties *)

(** C1: when all rules have been applied and nothing fails, a node is built, or is
    being built, only after all its children have been built; and when the build has
    ended, without an error, every node has been built that the roots of the products
    to build depend on. *)
Theorem build_complete f e :
  successful f e →
  (∀ u c, buildState e u = Building ∨ buildState e u = Built → edges u c → buildState e c = Built) ∧
  (m_state e = ExecutorIdle → m_errors e = [] ∧ ∀ u, reached g u → buildState e u = Built).
Proof.
  intros [Hg He Hs]%successful_fine. split.
  - intros u c Hu. apply (in_order _ _ _ _ (go_inv _ _ Hg) u Hu).
  - intros Hidle. rewrite Hidle in Hs. split; [done|]. intros u Hu. by apply Hs.
Qed.

(** C27: the searches and the loop of the scheduler terminate: enough fuel exists for
    the start of a build, and in every state of a build in which nothing fails for the
    delivery of the signal of a job. *)
Theorem scheduling_terminates f :
  (∃ n, ∀ fuel, n ≤ fuel → (doBuild fuel (newExecutor g f)).1 ≠ Throw OutOfFuel) ∧
  ∀ e j b l, successful f e → finishedSignals e = (j, b) :: l → ∃ n, ∀ fuel, n ≤ fuel →
    (finishJob fuel j (negb b) (on_finishedSignals (λ _, l) e)).1 ≠ Throw OutOfFuel.
Proof.
  split.
  - destruct (newExecutor_orderly f) as [n Hn]. exists n. intros fuel Hle E. specialize (Hn fuel).
    destruct (doBuild fuel (newExecutor g f)) as [r e']. simpl in E. subst r. specialize (Hn eq_refl). lia.
  - intros e j b l Hsu Hs. destruct (fine_signal j b l e (successful_fine f e Hsu) Hs) as [-> Hf].
    destruct (finishJob_fine j _ Hf) as [n Hn]. exists n. intros fuel Hle E. specialize (Hn fuel).
    cbn [negb] in E. destruct (finishJob fuel j true _) as [r e']. simpl in E. subst r.
    specialize (Hn eq_refl). lia.
Qed.
End Start.

(** ** A decision procedure for settled graphs *)

Definition check_settled_node (g : Graph) (un : nat * Node) : bool :=
  match node_data un.2 with
  | ArtifactNodeType x =>
      is_nil (childrenAddedByScanner x) &&
      match transformer x with
      | Some t => negb (bool_decide (artifactType x = Generated)) || bool_decide (un.1 ∈ outs g t)
      | None => true
      end
  | _ => true
  end.

Definition check_outputs (g : Graph) (t : nat) : bool :=
  forallb (λ o,
    match as_artifact (heap g) o with
    | Some x => bool_decide (artifactType x = Generated) && bool_decide (transformer x = Some t)
    | None => false
    end &&
    forallb (λ o', bool_decide (children (node (heap g) o) = children (node (heap g) o')) &&
      bool_decide (productOf (heap g) o = productOf (heap g) o')) (outs g t)) (outs g t).

Definition check_roots (rp : ResolvedProduct) : bool :=
  match buildData rp with
  | Some b => bool_decide (Sorted Nat.lt (m_roots b))
  | None => true
  end.

Definition check_settled (g : Graph) : bool :=
  check_graph (heap g) && bool_decide (rescuable g = ∅) &&
  forallb (check_settled_node g) (map_to_list (nodes (heap g))) &&
  forallb (λ tr, check_outputs g tr.1) (map_to_list (transformers (heap g))) &&
  forallb (λ pr, check_roots pr.2) (map_to_list (products (heap g))).

Lemma forallb_map {A} (f : nat * A → bool) (m : gmap nat A) k x :
  forallb f (map_to_list m) = true → m !! k = Some x → f (k, x) = true.
Proof.
  rewrite forallb_forall. intros H Hk. apply H, list_elem_of_In. by apply elem_of_map_to_list.
Qed.

Lemma check_outputs_elem g t o :
  forallb (λ tr, check_outputs g tr.1) (map_to_list (transformers (heap g))) = true →
  o ∈ outs g t → (∃ x, as_artifact (heap g) o = Some x ∧ artifactType x = Generated ∧
    transformer x = Some t) ∧
  ∀ o', o' ∈ outs g t → children (node (heap g) o) = children (node (heap g) o') ∧
    productOf (heap g) o = productOf (heap g) o'.
Proof.
  intros Ht Ho. assert (check_outputs g t = true) as Hc.
  { unfold outs in Ho. destruct (transformers (heap g) !! t) as [tr|] eqn:E; [|by apply elem_of_nil in Ho].
    exact (forallb_map _ _ t tr Ht E). }
  apply (forallb_elem _ _ o Hc) in Ho as [Ha Hb]%andb_prop. split.
  - destruct (as_artifact (heap g) o) as [x|]; [|done]. apply andb_prop in Ha as [H1 H2].
    exists x. by rewrite bool_decide_eq_true in H1, H2.
  - intros o' Ho'. apply (forallb_elem _ _ o' Hb) in Ho' as [H1 H2]%andb_prop.
    by rewrite bool_decide_eq_true in H1, H2.
Qed.

Lemma check_settled_ok g : check_settled g = true → settled g.
Proof.
  unfold check_settled. intros [[[[Hw HR]%andb_prop HN]%andb_prop HT]%andb_prop HP]%andb_prop.
  assert (∀ a x, as_artifact (heap g) a = Some x → is_nil (childrenAddedByScanner x) = true ∧
    ∀ t, artifactType x = Generated → transformer x = Some t → a ∈ outs g t) as Hn.
  { intros a x Ha. unfold as_artifact in Ha. destruct (nodes (heap g) !! a) as [n|] eqn:E; [|done].
    apply (forallb_map _ _ a n HN) in E. unfold check_settled_node in E. simpl in E.
    destruct (node_data n); simplify_eq. apply andb_prop in E as [E1 E2]. split; [done|].
    intros t Hg Ht. rewrite Ht, (bool_decide_eq_true_2 _ Hg) in E2.
    by apply bool_decide_eq_true in E2. }
  split.
  - by apply check_graph_ok.
  - split; [by apply bool_decide_eq_true in HR|]. intros a x Ha. by apply is_nil_true, (Hn a x).
  - intros a x t Ha. by apply (Hn a x).
  - intros t o Ho. by apply check_outputs_elem.
  - intros t o o' Ho. by apply check_outputs_elem.
  - intros p b Hb. unfold buildDataOf in Hb. destruct (products (heap g) !! p) as [rp|] eqn:E; [|done].
    apply (forallb_map _ _ p rp HP) in E. unfold check_roots in E. simpl in E. rewrite Hb in E.
    by apply ssorted_nat_check.
Qed.

(** *** Compiling, and linking what was compiled

    The transformer 0 makes 2 and 3 of the source file 1, the transformer 1 makes 4 of
    2 and 3; 4 is the only root. *)
Module Example.
#[local] Existing Instance ExecutorJobs.Example.noScripts.

#[local] Instance noScripts_static : StaticScripts ExecutorJobs.Example.noScripts.
Proof. by split. Qed.

#[local] Instance settings : Settings :=
  mkSettings (mkBuildOptions 1 false false false false false [] [] [] [] false) [7] [7] 1
    (λ _, []) (λ _, []).

Definition artifact (ps cs : NodeSet) (name : str) (t : option nat) : Node :=
  mkNode ps cs (Some 7) (ArtifactNodeType (mkArtifact name 0
    (match t with Some _ => Generated | None => SourceFile end) [] [] [] t [] 0)).

Definition project : Heap :=
  mkHeap {[1 := artifact [2; 3] [] (lit "a.y") None;
           2 := artifact [4] [1] (lit "a.c") (Some 0);
           3 := artifact [4] [1] (lit "a.h") (Some 0);
           4 := artifact [] [2; 3] (lit "a.o") (Some 1)]}
    {[0 := mkTransformer [1] [2; 3] [] 0 ∅ ∅; 1 := mkTransformer [2; 3] [4] [] 0 ∅ ∅]} ∅
    {[7 := mkResolvedProduct (lit "app") true [] [] [] 0 []
             (Some (mkProductBuildData [1; 2; 3; 4] [4] ∅ true))]} ∅ ∅ false.

Definition buildGraph : Graph :=
  mkGraph project
    {[2 := mkArtifactData false false true true; 3 := mkArtifactData false false true true;
      4 := mkArtifactData false false true true]}
    {[0 := mkTransformerData false false [lit "cc"] 0; 1 := mkTransformerData false false [lit "cc"] 0]}
    ∅ ∅.

Definition files : FileSystem := ExecutorJobs.Example.files.

Definition run1 : Executor := (doBuild 10 (newExecutor buildGraph files)).2.
Definition after (m : M unit) (e : Executor) : Executor := (m e).2.

(** The signal of the first job is delivered. *)
Definition deliver (fuel : nat) : M unit :=
  l ← gets finishedSignals;
  match l with
  | [] => mret tt
  | (j, b) :: l' => _ ← modify (on_finishedSignals (λ _, l')); finishJob fuel j (negb b)
  end.

Definition run2 : Executor := after (handleEvent 0 (EventCommandFinished 1 false)) run1.
Definition run3 : Executor := after (deliver 10) run2.
Definition run4 : Executor := after (handleEvent 0 (EventCommandFinished 1 false)) run3.
Definition run5 : Executor := after (deliver 10) run4.

Lemma buildGraph_settled : settled buildGraph.
Proof. apply check_settled_ok. vm_compute. reflexivity. Qed.

Lemma buildGraph_acyclic : acyclic (heap buildGraph).
Proof. apply check_order_acyclic. vm_compute. reflexivity. Qed.

Lemma successful_run2 : successful buildGraph files run2.
Proof.
  apply (su_command _ _ 1 run1); [|by apply enabled_check; vm_compute|vm_compute; reflexivity].
  apply (su_started _ _ 10). vm_compute. reflexivity.
Qed.

Lemma successful_run5 : successful buildGraph files run5.
Proof.
  apply (su_job _ _ 10 1 false [] run4); [|vm_compute; reflexivity..].
  apply (su_command _ _ 1 run3); [|by apply enabled_check; vm_compute|vm_compute; reflexivity].
  apply (su_job _ _ 10 1 false [] run2); [apply successful_run2|vm_compute; reflexivity..].
Qed.

Lemma build_complete_witness :
  m_state run1 = ExecutorRunning ∧ buildState run1 4 = Buildable ∧
  m_errors run5 = [] ∧ ∀ u, reached buildGraph u → buildState run5 u = Built.
Proof.
  split; [vm_compute; reflexivity|]. split; [vm_compute; reflexivity|].
  apply (build_complete buildGraph buildGraph_settled buildGraph_acyclic files run5 successful_run5).
  vm_compute. reflexivity.
Defined.

Lemma scheduling_terminates_witness :
  (∃ n, ∀ fuel, n ≤ fuel → (doBuild fuel (newExecutor buildGraph files)).1 ≠ Throw OutOfFuel) ∧
  (doBuild 1 (newExecutor buildGraph files)).1 = Throw OutOfFuel ∧
  ∃ n, ∀ fuel, n ≤ fuel →
    (finishJob fuel 1 (negb false) (on_finishedSignals (λ _, []) run2)).1 ≠ Throw OutOfFuel.
Proof.
  pose proof (scheduling_terminates buildGraph buildGraph_settled buildGraph_acyclic files) as [H1 H2].
  split; [exact H1|]. split; [vm_compute; reflexivity|].
  apply (H2 run2 1 false []); [apply successful_run2|vm_compute; reflexivity].
Defined.
End Example.
