(* ===== verification/DataStream.v ===== *)
(** * Binary streams ([QDataStream])

    [QDataStream] and the values it writes belong to Qt and are a parameter of the
    model: the class [QDataStream] with the laws that Qt documents (a byte array is
    written as its length, a 32-bit integer, and its bytes).  What is read from a
    stream that is too short is not said.  An instance with integers of
    fixed width, in big-endian order, shows that the laws can hold. *)

From S2P Require Import Prelude.

Inductive IntType := Bool | UInt8 | Int32 | UInt32 | Int64 | UInt64.

#[export] Instance IntType_eq_dec : EqDecision IntType.
Proof. solve_decision. Defined.

(** The number of bytes. *)
Definition sizeOf (t : IntType) : nat :=
  match t with
  | Bool | UInt8 => 1
  | Int32 | UInt32 => 4
  | Int64 | UInt64 => 8
  end.

Definition isSigned (t : IntType) : bool :=
  match t with Int32 | Int64 => true | _ => false end.

Definition modulus (t : IntType) : Z := 2 ^ (8 * Z.of_nat (sizeOf t)).

Definition fits (t : IntType) (z : Z) : bool :=
  match t with
  | Bool => (0 <=? z)%Z && (z <? 2)%Z
  | _ => if isSigned t then (- (modulus t / 2) <=? z)%Z && (z <? modulus t / 2)%Z
         else (0 <=? z)%Z && (z <? modulus t)%Z
  end.

(** Strings and byte arrays have a length that fits an [int], with room to spare. *)
Definition shortEnough {A} (l : list A) : bool := (Z.of_nat (length l) <? 2 ^ 30)%Z.

(** [Variant] is the content of a [QVariant] that the stream knows how to write. *)
Class QDataStream (Variant : Type) := {
  putInt : IntType → Z → str;
  getInt : IntType → str → Z * str;
  putString : str → str;
  getString : str → str * str;
  putByteArray : str → str;
  getByteArray : str → str * str;
  putStringList : list str → str;
  getStringList : str → list str * str;
  putVariant : Variant → str;
  getVariant : str → Variant * str
}.

Class QDataStreamLaws {Variant} (D : QDataStream Variant) : Prop := {
  length_putInt t z : length (putInt t z) = sizeOf t;
  getInt_put t z rest : fits t z = true → getInt t (putInt t z ++ rest) = (z, rest);
  getInt_read t s : sizeOf t ≤ length s →
    fits t (getInt t s).1 = true ∧ (getInt t s).2 = drop (sizeOf t) s;
  getString_put s rest : shortEnough s = true → getString (putString s ++ rest) = (s, rest);
  length_putByteArray s : length (putByteArray s) = 4 + length s;
  getByteArray_put s rest : shortEnough s = true → getByteArray (putByteArray s ++ rest) = (s, rest);
  getStringList_put l rest :
    shortEnough l = true → forallb shortEnough l = true →
    getStringList (putStringList l ++ rest) = (l, rest);
  getVariant_put v rest : getVariant (putVariant v ++ rest) = (v, rest)
}.

(** ** Integers in big-endian order *)

Fixpoint toBytes (n : nat) (z : Z) : str :=
  match n with
  | 0 => []
  | S n => toBytes n (z / 256) ++ [ascii_of_nat (Z.to_nat (z mod 256))]
  end.

Definition fromBytes (s : str) : Z :=
  foldl (λ acc c, acc * 256 + Z.of_nat (nat_of_ascii c))%Z 0%Z s.

Lemma length_toBytes n z : length (toBytes n z) = n.
Proof. revert z. induction n as [|n IH]; intros z; simpl; [done|]. rewrite length_app, IH. simpl. lia. Qed.

Lemma fromBytes_toBytes n z : (fromBytes (toBytes n z) = z mod 256 ^ Z.of_nat n)%Z.
Proof.
  revert z. induction n as [|n IH]; intros z; [by rewrite Z.mod_1_r|].
  cbn [toBytes]. unfold fromBytes. rewrite foldl_app. cbn [foldl]. fold (fromBytes (toBytes n (z / 256))).
  assert (0 <= z mod 256 < 256)%Z as Hz by (apply Z.mod_pos_bound; lia).
  rewrite IH. rewrite nat_ascii_embedding; [|lia].
  rewrite Z2Nat.id; [|lia].
  replace (256 ^ Z.of_nat (S n))%Z with (256 * 256 ^ Z.of_nat n)%Z
    by (rewrite Nat2Z.inj_succ, Z.pow_succ_r; lia).
  rewrite Z.rem_mul_r by lia. lia.
Qed.

(** The value of [n] bytes as an integer of the type. *)
Definition decodeInt (t : IntType) (z : Z) : Z :=
  match t with
  | Bool => if (z =? 0)%Z then 0 else 1
  | _ => if isSigned t && (modulus t / 2 <=? z)%Z then z - modulus t else z
  end.

Lemma signed_mod m z :
  (0 < m → - m <= z < m →
   (if m <=? z mod (2 * m) then z mod (2 * m) - 2 * m else z mod (2 * m)) = z)%Z.
Proof.
  intros Hm Hz. destruct (Z_lt_le_dec z 0) as [Hn|Hn].
  - assert (z mod (2 * m) = z + 2 * m)%Z as ->.
    { symmetry. apply (Z.mod_unique_pos _ _ (-1)); lia. }
    destruct (Z.leb_spec m (z + 2 * m)); lia.
  - rewrite Z.mod_small by lia. destruct (Z.leb_spec m z); lia.
Qed.

Lemma decodeInt_mod t z : fits t z = true → decodeInt t (z mod modulus t) = z.
Proof.
  unfold decodeInt, fits. destruct t; cbn [isSigned andb];
    intros [H1%Z.leb_le H2%Z.ltb_lt]%andb_prop.
  - rewrite Z.mod_small by (unfold modulus; simpl; lia). destruct (Z.eqb_spec z 0); lia.
  - by apply Z.mod_small.
  - by apply (signed_mod (2 ^ 31)).
  - by apply Z.mod_small.
  - by apply (signed_mod (2 ^ 63)).
  - by apply Z.mod_small.
Qed.

Lemma fits_decodeInt t z : (0 <= z < modulus t)%Z → fits t (decodeInt t z) = true.
Proof.
  intros Hz. assert (∀ m, (modulus t = 2 * m)%Z → (modulus t / 2 = m)%Z) as Hm.
  { intros m ->. rewrite Z.mul_comm, Z.div_mul; lia. }
  unfold fits, decodeInt. destruct t; cbn [isSigned andb].
  - by destruct (z =? 0)%Z.
  - rewrite andb_true_iff, Z.leb_le, Z.ltb_lt. lia.
  - rewrite (Hm (2 ^ 31)%Z) by done. change (modulus Int32) with (2 ^ 32)%Z in *.
    destruct (Z.leb_spec (2 ^ 31) z); rewrite andb_true_iff, Z.leb_le, Z.ltb_lt; lia.
  - rewrite andb_true_iff, Z.leb_le, Z.ltb_lt. lia.
  - rewrite (Hm (2 ^ 63)%Z) by done. change (modulus Int64) with (2 ^ 64)%Z in *.
    destruct (Z.leb_spec (2 ^ 63) z); rewrite andb_true_iff, Z.leb_le, Z.ltb_lt; lia.
  - rewrite andb_true_iff, Z.leb_le, Z.ltb_lt. lia.
Qed.

Lemma fromBytes_bound s : (0 <= fromBytes s < 256 ^ Z.of_nat (length s))%Z.
Proof.
  unfold fromBytes. induction s as [|c s IH] using rev_ind; [simpl; lia|].
  rewrite foldl_app, length_app, Nat2Z.inj_add. cbn [foldl length].
  rewrite Z.pow_add_r by lia. change (256 ^ Z.of_nat 1)%Z with 256%Z.
  pose proof (nat_ascii_bounded c). lia.
Qed.

Module BigEndian.
Definition putInt (t : IntType) (z : Z) : str := toBytes (sizeOf t) z.
Definition getInt (t : IntType) (s : str) : Z * str :=
  (decodeInt t (fromBytes (take (sizeOf t) s)), drop (sizeOf t) s).

Lemma getInt_put t z rest : fits t z = true → getInt t (putInt t z ++ rest) = (z, rest).
Proof.
  intros Hf. unfold getInt, putInt.
  rewrite take_app_length', drop_app_length' by (by rewrite length_toBytes).
  rewrite fromBytes_toBytes. f_equal. rewrite <-(decodeInt_mod t z Hf) at 2. do 2 f_equal.
  unfold modulus. by rewrite Z.pow_mul_r by lia.
Qed.

Lemma getInt_read t s : sizeOf t ≤ length s →
  fits t (getInt t s).1 = true ∧ (getInt t s).2 = drop (sizeOf t) s.
Proof.
  intros Hs. split; [|done]. apply fits_decodeInt.
  pose proof (fromBytes_bound (take (sizeOf t) s)) as Hb. rewrite length_take, Nat.min_l in Hb by done.
  unfold modulus. by rewrite Z.pow_mul_r by lia.
Qed.

(** The length, then the bytes. *)
Definition putString (s : str) : str := putInt UInt32 (Z.of_nat (length s)) ++ s.
Definition getString (s : str) : str * str :=
  let '(n, rest) := getInt UInt32 s in (take (Z.to_nat n) rest, drop (Z.to_nat n) rest).

Lemma shortEnough_fits {A} (l : list A) :
  shortEnough l = true → fits UInt32 (Z.of_nat (length l)) = true.
Proof.
  unfold shortEnough. rewrite Z.ltb_lt. intros H. unfold fits. cbn [isSigned].
  change (modulus UInt32) with (2 ^ 32)%Z. rewrite andb_true_iff, Z.leb_le, Z.ltb_lt. lia.
Qed.

Lemma getString_put s rest : shortEnough s = true → getString (putString s ++ rest) = (s, rest).
Proof.
  intros Hs. unfold getString, putString. rewrite <-app_assoc, getInt_put by by apply shortEnough_fits.
  by rewrite Nat2Z.id, take_app_length, drop_app_length.
Qed.

Definition putStringList (l : list str) : str :=
  putInt UInt32 (Z.of_nat (length l)) ++ concat (map putString l).

Fixpoint getStrings (n : nat) (s : str) : list str * str :=
  match n with
  | 0 => ([], s)
  | S n =>
      let '(x, s) := getString s in
      let '(l, s) := getStrings n s in (x :: l, s)
  end.

Definition getStringList (s : str) : list str * str :=
  let '(n, s) := getInt UInt32 s in getStrings (Z.to_nat n) s.

Lemma getStrings_put l rest :
  forallb shortEnough l = true → getStrings (length l) (concat (map putString l) ++ rest) = (l, rest).
Proof.
  induction l as [|x l IH]; [done|]. cbn [forallb length concat map getStrings].
  intros [Hx Hl]%andb_prop. by rewrite <-app_assoc, getString_put, IH.
Qed.

#[export] Instance stream : QDataStream bool := {|
  DataStream.putInt := putInt; DataStream.getInt := getInt;
  DataStream.putString := putString; DataStream.getString := getString;
  putByteArray := putString; getByteArray := getString;
  DataStream.putStringList := putStringList; DataStream.getStringList := getStringList;
  putVariant (b : bool) := putInt Bool (if b then 1 else 0)%Z;
  getVariant (s : str) := let '(z, s) := getInt Bool s in ((z =? 1)%Z, s)
|}.

Lemma getStringList_put l rest :
  shortEnough l = true → forallb shortEnough l = true →
  getStringList (putStringList l ++ rest) = (l, rest).
Proof.
  intros Hl Hs. unfold getStringList, putStringList.
  rewrite <-app_assoc, getInt_put by by apply shortEnough_fits.
  rewrite Nat2Z.id. by apply getStrings_put.
Qed.

#[export] Instance stream_laws : QDataStreamLaws stream.
Proof.
  split.
  - intros t z. apply length_toBytes.
  - exact getInt_put.
  - exact getInt_read.
  - exact getString_put.
  - intros s. change (length (putString s) = 4 + length s). unfold putString, putInt.
    by rewrite length_app, length_toBytes.
  - exact getString_put.
  - exact getStringList_put.
  - intros v rest. cbn [putVariant getVariant stream]. rewrite getInt_put; by destruct v.
Qed.
End BigEndian.
