(* ===== verification/LauncherPackets.v ===== *)
(** * The packets of the process launcher ([tools/launcherpackets.cpp])

    The packets that qbs and its process launcher exchange, how they are written to
    a socket, and the parser that takes them out of the bytes that have arrived. *)

From S2P Require Import Prelude DataStream.

(** ** Packets *)

Inductive LauncherPacketType := Shutdown | StartProcess | StopProcess | ProcessError | ProcessFinished.

#[export] Instance LauncherPacketType_eq_dec : EqDecision LauncherPacketType.
Proof. solve_decision. Defined.

(** The value of the enumerator. *)
Definition packetTypeCode (t : LauncherPacketType) : Z :=
  match t with
  | Shutdown => 0 | StartProcess => 1 | StopProcess => 2 | ProcessError => 3 | ProcessFinished => 4
  end.

(** The members of the subclasses of [LauncherPacket]; the errors and the exit status
    are the values of Qt's enumerators. *)
Inductive LauncherPacket :=
  | ShutdownPacket
  | StartProcessPacket (command : str) (arguments : list str) (workingDir : str) (env : list str)
  | StopProcessPacket
  | ProcessErrorPacket (error : Z) (errorString : str)
  | ProcessFinishedPacket (errorString stdOut stdErr : str) (exitStatus error exitCode : Z).

Definition packetType (p : LauncherPacket) : LauncherPacketType :=
  match p with
  | ShutdownPacket => Shutdown
  | StartProcessPacket _ _ _ _ => StartProcess
  | StopProcessPacket => StopProcess
  | ProcessErrorPacket _ _ => ProcessError
  | ProcessFinishedPacket _ _ _ _ _ _ => ProcessFinished
  end.

Section Packets.
Context {Variant : Type} `{D : QDataStream Variant}.

(** [static_cast<quint8>] and [static_cast<int>] *)
Definition toUInt8 (z : Z) : Z := z mod 2 ^ 8.
Definition toInt (z : Z) : Z := decodeInt Int32 (z mod 2 ^ 32).

Definition doSerialize (p : LauncherPacket) : str :=
  match p with
  | ShutdownPacket | StopProcessPacket => []
  | StartProcessPacket command arguments workingDir env =>
      putString command ++ putStringList arguments ++ putString workingDir ++ putStringList env
  | ProcessErrorPacket error errorString => putInt UInt8 (toUInt8 error) ++ putString errorString
  | ProcessFinishedPacket errorString stdOut stdErr exitStatus error exitCode =>
      putString errorString ++ putByteArray stdOut ++ putByteArray stdErr
      ++ putInt UInt8 (toUInt8 exitStatus) ++ putInt UInt8 (toUInt8 error) ++ putInt Int32 exitCode
  end.

(** [doDeserialize] of the subclass for [t]. *)
Definition doDeserialize (t : LauncherPacketType) (s : str) : LauncherPacket :=
  match t with
  | Shutdown => ShutdownPacket
  | StopProcess => StopProcessPacket
  | StartProcess =>
      let '(command, s) := getString s in
      let '(arguments, s) := getStringList s in
      let '(workingDir, s) := getString s in
      let '(env, s) := getStringList s in
      StartProcessPacket command arguments workingDir env
  | ProcessError =>
      let '(e, s) := getInt UInt8 s in
      let '(errorString, s) := getString s in
      ProcessErrorPacket e errorString
  | ProcessFinished =>
      let '(errorString, s) := getString s in
      let '(stdOut, s) := getByteArray s in
      let '(stdErr, s) := getByteArray s in
      let '(exitStatus, s) := getInt UInt8 s in
      let '(error, s) := getInt UInt8 s in
      let '(exitCode, s) := getInt Int32 s in
      ProcessFinishedPacket errorString stdOut stdErr exitStatus error exitCode
  end.

(** A packet with the token of its process; [reset] and the second size overwrite the
    first one. *)
Definition serialize (token : Z) (p : LauncherPacket) : str :=
  let data := putInt Int32 0 ++ putInt UInt8 (packetTypeCode (packetType p)) ++ putInt UInt64 token
              ++ doSerialize p in
  let size := putInt Int32 (toInt (Z.of_nat (length data) - Z.of_nat (sizeOf Int32))) in
  size ++ drop (length size) data.

(** [extractPacket] *)
Definition extractPacket (t : LauncherPacketType) (data : str) : LauncherPacket := doDeserialize t data.

(** ** The parser *)

Record PacketParser := mkPacketParser {
  m_type : Z;
  m_token : Z;
  m_packetData : str;
  m_sizeOfNextPacket : Z
}.

(** A parser whose device has just been set. *)
Definition setDevice (p : PacketParser) : PacketParser :=
  mkPacketParser (m_type p) (m_token p) (m_packetData p) (-1).
Definition newPacketParser : PacketParser := mkPacketParser (packetTypeCode Shutdown) 0 [] (-1).

Definition commonPayloadSize : Z := 1 + Z.of_nat (sizeOf UInt64).

Definition InvalidPacketSize := Z.

(** [QIODevice::read]; with a negative size it reads nothing. *)
Definition readDevice (n : Z) (s : str) : str * str := (take (Z.to_nat n) s, drop (Z.to_nat n) s).

(** The part of [parse] that reads the size. *)
Definition parseSize (p : PacketParser) (s : str) :
    exn InvalidPacketSize bool * (PacketParser * str) :=
  if (m_sizeOfNextPacket p =? -1)%Z then
    if (Z.of_nat (length s) <? Z.of_nat (sizeOf Int32))%Z then (Ok false, (p, s))
    else
      let '(size, s) := getInt Int32 s in
      let p := mkPacketParser (m_type p) (m_token p) (m_packetData p) size in
      if (size <? commonPayloadSize)%Z then (Throw size, (p, s)) else (Ok true, (p, s))
  else (Ok true, (p, s)).

(** [s] are the bytes that are available. *)
Definition parse (p : PacketParser) (s : str) :
    exn InvalidPacketSize bool * (PacketParser * str) :=
  match parseSize p s with
  | (Ok true, (p, s)) =>
      if (Z.of_nat (length s) <? m_sizeOfNextPacket p)%Z then (Ok false, (p, s))
      else
        let '(type, s) := getInt UInt8 s in
        let '(token, s) := getInt UInt64 s in
        let '(packetData, s) := readDevice (m_sizeOfNextPacket p - commonPayloadSize) s in
        (Ok true, (mkPacketParser type token packetData (-1), s))
  | r => r
  end.

(** *** All packets that have arrived

    The handlers of a socket parse one packet after the other; a frame is what one of
    them leaves in the parser.  Each packet is at least nine bytes long, so that
    [fuel] is large enough when it is greater than the number of bytes. *)
Record Frame := mkFrame { frameType : Z; frameToken : Z; frameData : str }.

Fixpoint parseAll (fuel : nat) (p : PacketParser) (s : str) :
    exn InvalidPacketSize (list Frame) * (PacketParser * str) :=
  match fuel with
  | 0 => (Ok [], (p, s))
  | S fuel =>
      match parse p s with
      | (Ok true, (p, s)) =>
          match parseAll fuel p s with
          | (Ok fs, r) => (Ok (mkFrame (m_type p) (m_token p) (m_packetData p) :: fs), r)
          | r => r
          end
      | (Ok false, r) => (Ok [], r)
      | (Throw x, r) => (Throw x, r)
      end
  end.

(** The bytes arrive in [chunks]; each time [readyRead] is emitted. *)
Fixpoint receive (p : PacketParser) (s : str) (chunks : list str) :
    exn InvalidPacketSize (list Frame) * (PacketParser * str) :=
  match chunks with
  | [] => (Ok [], (p, s))
  | chunk :: chunks =>
      let s := s ++ chunk in
      match parseAll (S (length s)) p s with
      | (Ok fs, (p, s)) =>
          match receive p s chunks with
          | (Ok fs', r) => (Ok (fs ++ fs'), r)
          | r => r
          end
      | r => r
      end
  end.
End Packets.

(** ** What the parser gets from the packets *)

(** A packet that is written: its type, its token and its data. *)
Definition frameOf (token : Z) `{QDataStream Variant} (p : LauncherPacket) : Frame :=
  mkFrame (packetTypeCode (packetType p)) token (doSerialize p).

(** What fits the stream. *)
Definition wf_packet (p : LauncherPacket) : bool :=
  match p with
  | ShutdownPacket | StopProcessPacket => true
  | StartProcessPacket command arguments workingDir env =>
      shortEnough command && shortEnough arguments && forallb shortEnough arguments &&
      shortEnough workingDir && shortEnough env && forallb shortEnough env
  | ProcessErrorPacket error errorString => fits UInt8 error && shortEnough errorString
  | ProcessFinishedPacket errorString stdOut stdErr exitStatus error exitCode =>
      shortEnough errorString && shortEnough stdOut && shortEnough stdErr &&
      fits UInt8 exitStatus && fits UInt8 error && fits Int32 exitCode
  end.

Definition wf_frame (f : Frame) : Prop :=
  fits UInt8 (frameType f) = true ∧ fits UInt64 (frameToken f) = true ∧
  (commonPayloadSize + Z.of_nat (length (frameData f)) < 2 ^ 31)%Z.

Section Parsing.
Context {Variant : Type} `{D : QDataStream Variant, !QDataStreamLaws D}.

Lemma toUInt8_fits z : fits UInt8 z = true → toUInt8 z = z.
Proof. intros [H1%Z.leb_le H2%Z.ltb_lt]%andb_prop. by apply Z.mod_small. Qed.

Lemma toInt_fits z : fits Int32 z = true → toInt z = z.
Proof. apply (decodeInt_mod Int32). Qed.

Ltac packet_conditions :=
  repeat match goal with H : _ && _ = true |- _ => apply andb_prop in H as [? ?] end.

Lemma extractPacket_doSerialize p :
  wf_packet p = true → extractPacket (packetType p) (doSerialize p) = p.
Proof.
  destruct p; cbn [wf_packet packetType doSerialize]; intros Hw; packet_conditions; try done; unfold extractPacket, doDeserialize.
  - rewrite getString_put, getStringList_put, getString_put by done.
    by rewrite <-(app_nil_r (putStringList env)), getStringList_put.
  - rewrite toUInt8_fits, getInt_put by done.
    by rewrite <-(app_nil_r (putString errorString)), getString_put.
  - rewrite getString_put, !getByteArray_put, !toUInt8_fits, !getInt_put by done.
    by rewrite <-(app_nil_r (putInt Int32 exitCode)), getInt_put.
Qed.

(** The bytes of a frame after the size. *)
Definition payload (f : Frame) : str :=
  putInt UInt8 (frameType f) ++ putInt UInt64 (frameToken f) ++ frameData f.
Definition frameSize (f : Frame) : Z := commonPayloadSize + Z.of_nat (length (frameData f)).
Definition encode (f : Frame) : str := putInt Int32 (frameSize f) ++ payload f.

Lemma length_payload f : Z.of_nat (length (payload f)) = frameSize f.
Proof.
  unfold payload, frameSize, commonPayloadSize. rewrite !length_app, !length_putInt. simpl. lia.
Qed.

Lemma fits_Int32 z : fits Int32 z = true ↔ (- 2 ^ 31 <= z < 2 ^ 31)%Z.
Proof. unfold fits. cbn [isSigned]. rewrite andb_true_iff, Z.leb_le, Z.ltb_lt. done. Qed.

Lemma frameSize_fits f : wf_frame f → fits Int32 (frameSize f) = true ∧ (commonPayloadSize <= frameSize f)%Z.
Proof.
  intros (_ & _ & Hs). rewrite fits_Int32. unfold frameSize.
  change commonPayloadSize with 9%Z in *. lia.
Qed.

Lemma serialize_encode token p :
  wf_frame (frameOf token p) → serialize token p = encode (frameOf token p).
Proof.
  intros Hw. set (f := frameOf token p) in *. unfold serialize. cbv zeta.
  change (putInt UInt8 _ ++ _) with (payload f).
  assert (toInt (Z.of_nat (length (putInt Int32 0 ++ payload f)) - Z.of_nat (sizeOf Int32)) =
    frameSize f)%Z as ->.
  { rewrite length_app, length_putInt, Nat2Z.inj_add, length_payload.
    rewrite Z.add_simpl_l. by apply toInt_fits, frameSize_fits. }
  unfold encode. f_equal. apply drop_app_length'. by rewrite !length_putInt.
Qed.

(** The parser and the bytes [s] that follow are in the middle of the frames [fs]. *)
Definition incoming (p : PacketParser) (s : str) (fs : list Frame) : Prop :=
  Forall wf_frame fs ∧
  ((m_sizeOfNextPacket p = (-1)%Z ∧ s = concat (map encode fs)) ∨
   ∃ f fs', fs = f :: fs' ∧ m_sizeOfNextPacket p = frameSize f ∧
            s = payload f ++ concat (map encode fs')).

Definition parsed (f : Frame) (p : PacketParser) : Prop :=
  mkFrame (m_type p) (m_token p) (m_packetData p) = f.

Lemma take_app_prefix (n : nat) (s avail rest tail : str) :
  avail ++ rest = s ++ tail → length s ≤ length avail → avail = s ++ drop (length s) avail.
Proof.
  intros Heq Hl. rewrite <-(take_drop (length s) avail) at 1. f_equal.
  rewrite <-(take_app_le avail rest) by done. by rewrite Heq, take_app_length.
Qed.

Lemma split_avail (s avail rest tail : str) :
  avail ++ rest = s ++ tail → length s ≤ length avail →
  ∃ avail', avail = s ++ avail' ∧ avail' ++ rest = tail.
Proof.
  intros Heq Hl. exists (drop (length s) avail).
  pose proof (take_app_prefix 0 s avail rest tail Heq Hl) as Ha. split; [done|].
  apply (app_inv_head s). by rewrite app_assoc, <-Ha.
Qed.

(** The size is read when four bytes are there. *)
Lemma parseSize_incoming p avail rest fs :
  incoming p (avail ++ rest) fs →
  match parseSize p avail with
  | (Ok true, (p', avail')) => ∃ f fs', fs = f :: fs' ∧ m_sizeOfNextPacket p' = frameSize f ∧
      avail' ++ rest = payload f ++ concat (map encode fs') ∧ length avail' ≤ length avail
  | (Ok false, (p', avail')) => p' = p ∧ avail' = avail ∧ (rest = [] → fs = [])
  | (Throw _, _) => False
  end.
Proof.
  intros [Hw [[Hs Hb]|(f & fs' & -> & Hs & Hb)]]; unfold parseSize; rewrite Hs.
  - rewrite Z.eqb_refl. destruct (Z.ltb_spec (Z.of_nat (length avail)) (Z.of_nat (sizeOf Int32))) as [Hl|Hl].
    + split; [done|]. split; [done|]. intros ->. rewrite app_nil_r in Hb. subst avail.
      destruct fs as [|f fs]; [done|]. simpl in Hl. unfold encode in Hl.
      rewrite !length_app, length_putInt in Hl. simpl in Hl. lia.
    + destruct fs as [|f fs]; [simpl in Hb; apply app_eq_nil in Hb as [-> _]; simpl in Hl; lia|].
      simpl in Hb. unfold encode in Hb at 1. rewrite <-app_assoc in Hb.
      apply Forall_cons in Hw as [Hf _]. destruct (frameSize_fits f Hf) as [Hfit Hge].
      destruct (split_avail _ _ _ _ Hb) as (avail' & -> & Hr); [rewrite length_putInt; lia|].
      rewrite getInt_put by done. simpl. rewrite (proj2 (Z.ltb_ge _ _)) by lia.
      exists f, fs. rewrite length_app. split_and!; [done..|lia].
  - apply Forall_cons in Hw as [Hf _]. destruct (frameSize_fits f Hf) as [_ Hge].
    rewrite (proj2 (Z.eqb_neq _ _)) by (unfold commonPayloadSize in Hge; lia). by exists f, fs'.
Qed.

(** [parse] takes the first packet when all its bytes are there, and waits otherwise. *)
Lemma parse_incoming p avail rest fs :
  incoming p (avail ++ rest) fs →
  match parse p avail with
  | (Ok true, (p', avail')) => ∃ f fs', fs = f :: fs' ∧ parsed f p' ∧ incoming p' (avail' ++ rest) fs' ∧
      length avail' < length avail
  | (Ok false, (p', avail')) => incoming p' (avail' ++ rest) fs ∧ (rest = [] → fs = [])
  | (Throw _, _) => False
  end.
Proof.
  intros I. pose proof (parseSize_incoming p avail rest fs I) as Hp. unfold parse.
  destruct (parseSize p avail) as [[[|]|x] [p' avail']]; [| |done].
  2: { destruct Hp as (-> & -> & Hr). done. }
  destruct Hp as (f & fs' & -> & Hs & Hb & Hle). rewrite Hs. destruct I as [Hw _].
  destruct (Z.ltb_spec (Z.of_nat (length avail')) (frameSize f)) as [Hl|Hl].
  - split.
    + split; [done|]. right. by exists f, fs'.
    + intros ->. rewrite app_nil_r in Hb. rewrite Hb, length_app, Nat2Z.inj_add, length_payload in Hl. lia.
  - destruct (split_avail _ _ _ _ Hb) as (avail2 & -> & Hr).
    { apply Nat2Z.inj_le. by rewrite length_payload. }
    apply Forall_cons in Hw as [(Ht & Hk & Hd) Hw']. unfold payload at 1. rewrite <-!app_assoc.
    rewrite !getInt_put by done. unfold readDevice.
    assert (Z.to_nat (frameSize f - commonPayloadSize) = length (frameData f)) as ->
      by (unfold frameSize; lia).
    rewrite take_app_length, drop_app_length. exists f, fs'. split; [done|]. split; [by destruct f|].
    split; [|]. { split; [done|]. by left. }
    unfold payload in Hle. rewrite !length_app, !length_putInt in Hle. simpl in Hle. lia.
Qed.

Lemma parseAll_incoming fuel p avail rest fs :
  incoming p (avail ++ rest) fs → length avail < fuel →
  ∃ got left p' avail', parseAll fuel p avail = (Ok got, (p', avail')) ∧ fs = got ++ left ∧
    incoming p' (avail' ++ rest) left ∧ (rest = [] → left = []).
Proof.
  revert p avail fs. induction fuel as [|fuel IH]; intros p avail fs I Hf; [lia|]. cbn [parseAll].
  pose proof (parse_incoming p avail rest fs I) as Hp.
  destruct (parse p avail) as [[[|]|x] [p' avail']]; [| |done].
  - destruct Hp as (f & fs' & -> & Hpar & I' & Hl).
    destruct (IH p' avail' fs' I') as (got & left & p2 & avail2 & -> & -> & I2 & Hr); [lia|].
    rewrite Hpar. by exists (f :: got), left, p2, avail2.
  - destruct Hp as [I' Hr]. by exists [], fs, p', avail'.
Qed.

Lemma receive_incoming chunks p s rest fs :
  incoming p (s ++ concat chunks ++ rest) fs →
  ∃ got left p' s', receive p s chunks = (Ok got, (p', s')) ∧ fs = got ++ left ∧
    incoming p' (s' ++ rest) left ∧ (rest = [] → chunks ≠ [] → left = []).
Proof.
  revert p s fs. induction chunks as [|chunk chunks IH]; intros p s fs I; cbn [receive].
  { by exists [], fs, p, s. }
  cbn [concat] in I. rewrite <-app_assoc, app_assoc in I. set (s1 := s ++ chunk) in *.
  destruct (parseAll_incoming (S (length s1)) p s1 _ fs I) as (got & left & p' & s' & -> & -> & I' & Hr);
    [lia|].
  destruct (IH p' s' left I') as (got2 & left2 & p2 & s2 & -> & -> & I2 & Hr2).
  exists (got ++ got2), left2, p2, s2. rewrite app_assoc. split; [done|]. split; [done|].
  split; [done|]. intros -> _. destruct chunks as [|c chunks]; [|by apply Hr2].
  apply app_eq_nil in Hr as [_ ?]; done.
Qed.

Lemma incoming_start fs : Forall wf_frame fs → incoming newPacketParser (concat (map encode fs)) fs.
Proof. intros Hw. split; [done|]. by left. Qed.

(** ** The properties *)

Definition sendable (tp : Z * LauncherPacket) : Prop :=
  wf_packet tp.2 = true ∧ wf_frame (frameOf tp.1 tp.2).

Lemma concat_serialize ps :
  Forall sendable ps →
  concat (map (λ tp, serialize tp.1 tp.2) ps) = concat (map encode (map (λ tp, frameOf tp.1 tp.2) ps)).
Proof.
  induction 1 as [|[token p] ps [_ Hw] _ IH]; [done|]. simpl. by rewrite serialize_encode, IH.
Qed.

(** C24: whatever the sizes of the chunks in which the bytes of a sequence of packets
    arrive, the parser delivers the packets in their order, each with its type, its
    token and data from which the same packet is extracted; nothing is lost or
    invented, and when all bytes have arrived all packets have been delivered. *)
Theorem packets_roundtrip ps chunks rest :
  Forall sendable ps → chunks ≠ [] →
  concat chunks ++ rest = concat (map (λ tp, serialize tp.1 tp.2) ps) →
  ∃ ps1 ps2 p' s',
    receive newPacketParser [] chunks = (Ok (map (λ tp, frameOf tp.1 tp.2) ps1), (p', s')) ∧
    ps = ps1 ++ ps2 ∧ (rest = [] → ps2 = []) ∧
    ∀ tp, tp ∈ ps1 → extractPacket (packetType tp.2) (frameData (frameOf tp.1 tp.2)) = tp.2.
Proof.
  intros Hs Hne Hc. rewrite concat_serialize in Hc by done.
  destruct (receive_incoming chunks newPacketParser [] rest (map (λ tp, frameOf tp.1 tp.2) ps))
    as (got & left & p' & s' & E & Hfs & _ & Hr).
  { simpl. rewrite Hc. apply incoming_start, Forall_map. eapply Forall_impl; [exact Hs|]. by intros tp [_ ?]. }
  apply fmap_app_inv in Hfs as (ps1 & ps2 & -> & -> & ->).
  exists ps1, ps2, p', s'. split; [done|]. split; [done|]. split.
  - intros ->. by eapply fmap_nil_inv, Hr.
  - intros [token p] Hin. apply extractPacket_doSerialize.
    by apply (proj1 (Forall_forall _ _) Hs (token, p)), elem_of_app; left.
Qed.

End Parsing.

Module Example.
#[local] Existing Instances BigEndian.stream BigEndian.stream_laws.

Definition start : LauncherPacket := StartProcessPacket (lit "cc") [lit "-c"; lit "a.c"] (lit "/tmp") [].
Definition packets : list (Z * LauncherPacket) :=
  [(7, start); (8, ProcessErrorPacket 0 (lit "no such file")); (7, StopProcessPacket)]%Z.

Definition bytes : str := concat (map (λ tp, serialize tp.1 tp.2) packets).

(** The last chunk has not arrived. *)
Definition chunks : list str := [take 2 bytes; take 70 (drop 2 bytes); take 20 (drop 72 bytes)].
Definition missing : str := drop 92 bytes.

Lemma packets_sendable : Forall sendable packets.
Proof.
  repeat constructor; vm_compute; (reflexivity || (intros ?; discriminate)).
Qed.

Lemma packets_roundtrip_witness :
  concat chunks ++ missing = bytes ∧
  ∃ ps1 ps2 p' s',
    receive newPacketParser [] chunks = (Ok (map (λ tp, frameOf tp.1 tp.2) ps1), (p', s')) ∧
    packets = ps1 ++ ps2 ∧ (missing = [] → ps2 = []) ∧
    ∀ tp, tp ∈ ps1 → extractPacket (packetType tp.2) (frameData (frameOf tp.1 tp.2)) = tp.2.
Proof.
  split; [vm_compute; reflexivity|].
  apply (packets_roundtrip packets chunks missing packets_sendable);
    [discriminate|vm_compute; reflexivity].
Defined.


(** The server only warns about a size that is too small and stays connected; the
    parser keeps the size, and with the next data takes it for a good one. *)
Lemma rejected_size_is_used :
  let s := putInt Int32 3 in
  let next := lit "abcdefghijkl" in
  ∃ p p' s', parse newPacketParser s = (Throw 3%Z, (p, [])) ∧
    parse p next = (Ok true, (p', s')) ∧ m_type p' = Z.of_nat (nat_of_ascii "a"%char).
Proof. do 3 eexists. vm_compute. repeat split; reflexivity. Qed.
End Example.
