(* ===== verification/Launcher.v ===== *)
(** * The process launcher

    qbs does not start processes itself: a [QbsProcess] asks the process launcher, a
    program of its own, through a socket ([tools/qbsprocess.cpp],
    [tools/launchersocket.cpp]); the launcher runs the processes and reports how they
    end ([libexec/qbs_processlauncher/launchersockethandler.cpp]).  This file models
    both ends, the bytes on their way between them, and the events that either end
    reacts to.  The processes themselves and the sockets belong to Qt: what they do is
    part of the events.  All objects of qbs live in one thread. *)

From S2P Require Import Prelude DataStream LauncherPackets.

Inductive ProcessState := NotRunning | Starting | Running.
#[export] Instance ProcessState_eq_dec : EqDecision ProcessState.
Proof. solve_decision. Defined.

(** [QProcess::ProcessError] and [QProcess::ExitStatus] *)
Definition FailedToStart : Z := 0.
Definition Crashed : Z := 1.
Definition UnknownError : Z := 5.
Definition CrashExit : Z := 1.

(** ** The two ends *)

Record QbsProcess := mkQbsProcess {
  m_command : str;
  m_arguments : list str;
  m_environment : list str;
  m_workingDirectory : str;
  m_stdout : str;
  m_stderr : str;
  m_errorString : str;
  m_error : Z;
  m_state : ProcessState;
  m_exitCode : Z;
  m_socketError : bool
}.

Definition newQbsProcess : QbsProcess :=
  mkQbsProcess [] [] [] [] [] [] [] UnknownError NotRunning 0 false.

Inductive Signal := errorOccurred (error : Z) | finished (exitCode : Z).

(** What should never happen: a failed [QBS_ASSERT], and the warnings of the server
    about the protocol. *)
Inductive Failure :=
  | AssertFailed
  | InvalidPacketSizeError (size : Z)
  | InvalidPacketTypeError (type : Z)
  | StartWhileRunning.

(** The [QbsProcess] objects by their token, the members of [LauncherSocket], and the
    bytes that can be read from its socket; [requestsPosted] counts the timers that call
    [handleRequests]. *)
Record Client := mkClient {
  processes : gmap Z QbsProcess;
  m_socket : bool;
  client_packetParser : PacketParser;
  m_requests : list str;
  requestsPosted : nat;
  client_bytes : str;
  signals : list (Z * Signal)
}.

Inductive StopState := Inactive | Terminating | Killing.

(** A [Process] of the server with the state of its [QProcess]. *)
Record Process := mkProcess {
  process_state : ProcessState;
  m_stopState : StopState;
  stopTimer : bool
}.

(** [LauncherSocketHandler]; [serving] until it quits. *)
Record Server := mkServer {
  m_processes : gmap Z Process;
  serving : bool;
  server_packetParser : PacketParser;
  server_bytes : str
}.

(** Both, with the bytes on their way in each direction. *)
Record Launcher := mkLauncher {
  client : Client;
  server : Server;
  toServer : str;
  toClient : str;
  failures : list Failure
}.

Definition on_client (f : Client → Client) (s : Launcher) : Launcher :=
  mkLauncher (f (client s)) (server s) (toServer s) (toClient s) (failures s).
Definition on_server (f : Server → Server) (s : Launcher) : Launcher :=
  mkLauncher (client s) (f (server s)) (toServer s) (toClient s) (failures s).
Definition on_toServer (f : str → str) (s : Launcher) : Launcher :=
  mkLauncher (client s) (server s) (f (toServer s)) (toClient s) (failures s).
Definition on_toClient (f : str → str) (s : Launcher) : Launcher :=
  mkLauncher (client s) (server s) (toServer s) (f (toClient s)) (failures s).
Definition fail (x : Failure) (s : Launcher) : Launcher :=
  mkLauncher (client s) (server s) (toServer s) (toClient s) (failures s ++ [x]).

Definition on_processes (f : gmap Z QbsProcess → gmap Z QbsProcess) : Launcher → Launcher :=
  on_client (λ c, mkClient (f (processes c)) (m_socket c) (client_packetParser c) (m_requests c)
                    (requestsPosted c) (client_bytes c) (signals c)).
Definition on_socket (f : bool → bool) : Launcher → Launcher :=
  on_client (λ c, mkClient (processes c) (f (m_socket c)) (client_packetParser c) (m_requests c)
                    (requestsPosted c) (client_bytes c) (signals c)).
Definition on_requests (f : list str → list str) : Launcher → Launcher :=
  on_client (λ c, mkClient (processes c) (m_socket c) (client_packetParser c) (f (m_requests c))
                    (requestsPosted c) (client_bytes c) (signals c)).
Definition on_requestsPosted (f : nat → nat) : Launcher → Launcher :=
  on_client (λ c, mkClient (processes c) (m_socket c) (client_packetParser c) (m_requests c)
                    (f (requestsPosted c)) (client_bytes c) (signals c)).
Definition on_clientInput (f : PacketParser * str → PacketParser * str) : Launcher → Launcher :=
  on_client (λ c, let '(p, b) := f (client_packetParser c, client_bytes c) in
    mkClient (processes c) (m_socket c) p (m_requests c) (requestsPosted c) b (signals c)).
Definition emit (token : Z) (x : Signal) : Launcher → Launcher :=
  on_client (λ c, mkClient (processes c) (m_socket c) (client_packetParser c) (m_requests c)
                    (requestsPosted c) (client_bytes c) (signals c ++ [(token, x)])).

Definition on_serverProcesses (f : gmap Z Process → gmap Z Process) : Launcher → Launcher :=
  on_server (λ v, mkServer (f (m_processes v)) (serving v) (server_packetParser v) (server_bytes v)).
Definition quit : Launcher → Launcher :=
  on_server (λ v, mkServer (m_processes v) false (server_packetParser v) (server_bytes v)).
Definition on_serverInput (f : PacketParser * str → PacketParser * str) : Launcher → Launcher :=
  on_server (λ v, let '(p, b) := f (server_packetParser v, server_bytes v) in
    mkServer (m_processes v) (serving v) p b).

Definition processOf (s : Launcher) (token : Z) : QbsProcess :=
  default newQbsProcess (processes (client s) !! token).
Definition updProcess (token : Z) (f : QbsProcess → QbsProcess) : Launcher → Launcher :=
  on_processes (partial_alter (λ p, Some (f (default newQbsProcess p))) token).

Definition set_state (x : ProcessState) (p : QbsProcess) : QbsProcess :=
  mkQbsProcess (m_command p) (m_arguments p) (m_environment p) (m_workingDirectory p) (m_stdout p)
    (m_stderr p) (m_errorString p) (m_error p) x (m_exitCode p) (m_socketError p).
Definition set_error (x : Z) (p : QbsProcess) : QbsProcess :=
  mkQbsProcess (m_command p) (m_arguments p) (m_environment p) (m_workingDirectory p) (m_stdout p)
    (m_stderr p) (m_errorString p) x (m_state p) (m_exitCode p) (m_socketError p).
Definition set_errorString (x : str) (p : QbsProcess) : QbsProcess :=
  mkQbsProcess (m_command p) (m_arguments p) (m_environment p) (m_workingDirectory p) (m_stdout p)
    (m_stderr p) x (m_error p) (m_state p) (m_exitCode p) (m_socketError p).
Definition set_socketError (x : bool) (p : QbsProcess) : QbsProcess :=
  mkQbsProcess (m_command p) (m_arguments p) (m_environment p) (m_workingDirectory p) (m_stdout p)
    (m_stderr p) (m_errorString p) (m_error p) (m_state p) (m_exitCode p) x.
Definition set_command (command : str) (arguments : list str) (p : QbsProcess) : QbsProcess :=
  mkQbsProcess command arguments (m_environment p) (m_workingDirectory p) (m_stdout p)
    (m_stderr p) (m_errorString p) (m_error p) (m_state p) (m_exitCode p) (m_socketError p).
(** [setProcessEnvironment] and [setWorkingDirectory] *)
Definition set_environment (env : list str) (dir : str) (p : QbsProcess) : QbsProcess :=
  mkQbsProcess (m_command p) (m_arguments p) env dir (m_stdout p)
    (m_stderr p) (m_errorString p) (m_error p) (m_state p) (m_exitCode p) (m_socketError p).
Definition set_result (exitCode : Z) (out err msg : str) (p : QbsProcess) : QbsProcess :=
  mkQbsProcess (m_command p) (m_arguments p) (m_environment p) (m_workingDirectory p) out
    err msg (m_error p) (m_state p) exitCode (m_socketError p).

Section Launcher.
Context {Variant : Type} `{D : QDataStream Variant}.

(** ** [LauncherSocket], sending *)

Definition isReady (s : Launcher) : bool := m_socket (client s).

Definition sendData (data : str) (s : Launcher) : Launcher :=
  if negb (isReady s) then s
  else
    let s := on_requests (λ l, l ++ [data]) s in
    if length (m_requests (client s)) =? 1 then on_requestsPosted S s else s.

Definition handleRequests (s : Launcher) : Launcher :=
  if negb (isReady s) then fail AssertFailed s
  else on_requests (λ _, []) (on_toServer (λ b, b ++ concat (m_requests (client s))) s).

(** ** [QbsProcess] *)

Definition sendPacket (token : Z) (p : LauncherPacket) : Launcher → Launcher :=
  sendData (serialize token p).

Definition startPacket (p : QbsProcess) : LauncherPacket :=
  StartProcessPacket (m_command p) (m_arguments p) (m_workingDirectory p) (m_environment p).

Definition doStart (token : Z) (s : Launcher) : Launcher :=
  let s := updProcess token (set_state Running) s in
  sendPacket token (startPacket (processOf s token)) s.

Definition start (token : Z) (command : str) (arguments : list str) (s : Launcher) : Launcher :=
  if m_socketError (processOf s token) then
    emit token (errorOccurred FailedToStart) (updProcess token (set_error FailedToStart) s)
  else
    let s := updProcess token (λ p, set_state Starting (set_command command arguments p)) s in
    if isReady s then doStart token s else s.

Definition canceledMessage : str := lit "Process canceled before it was started.".

Definition cancel (token : Z) (s : Launcher) : Launcher :=
  match m_state (processOf s token) with
  | NotRunning => s
  | Starting =>
      emit token (errorOccurred FailedToStart)
        (updProcess token (λ p, set_state NotRunning (set_error FailedToStart
                                  (set_errorString canceledMessage p))) s)
  | Running => sendPacket token StopProcessPacket s
  end.

(** [readAllStandardOutput] and [readAllStandardError]: the data, which is then empty. *)
Definition readAllStandardOutput (p : QbsProcess) : str * QbsProcess :=
  (m_stdout p, set_result (m_exitCode p) [] (m_stderr p) (m_errorString p) p).
Definition readAllStandardError (p : QbsProcess) : str * QbsProcess :=
  (m_stderr p, set_result (m_exitCode p) (m_stdout p) [] (m_errorString p) p).

Definition handleErrorPacket (token : Z) (packetData : str) (s : Launcher) : Launcher :=
  match m_state (processOf s token) with
  | NotRunning => fail AssertFailed s
  | _ =>
      match extractPacket ProcessError packetData with
      | ProcessErrorPacket error errorString =>
          emit token (errorOccurred error)
            (updProcess token (λ p, set_state NotRunning (set_errorString errorString
                                      (set_error error p))) s)
      | _ => s
      end
  end.

Definition handleFinishedPacket (token : Z) (packetData : str) (s : Launcher) : Launcher :=
  match m_state (processOf s token) with
  | Running =>
      match extractPacket ProcessFinished packetData with
      | ProcessFinishedPacket errorString stdOut stdErr _ _ exitCode =>
          emit token (finished exitCode)
            (updProcess token (λ p, set_result exitCode stdOut stdErr errorString
                                      (set_state NotRunning p)) s)
      | _ => s
      end
  | _ => fail AssertFailed s
  end.

(** [packetArrived] is emitted, and the [QbsProcess] with the token handles it; without
    such a process nothing happens. *)
Definition handlePacket (type token : Z) (payload : str) (s : Launcher) : Launcher :=
  match processes (client s) !! token with
  | None => s
  | Some _ =>
      if (type =? packetTypeCode ProcessError)%Z then handleErrorPacket token payload s
      else if (type =? packetTypeCode ProcessFinished)%Z then handleFinishedPacket token payload s
      else fail AssertFailed s
  end.

Definition handleSocketReady (token : Z) (s : Launcher) : Launcher :=
  let s := updProcess token (set_socketError false) s in
  match m_state (processOf s token) with Starting => doStart token s | _ => s end.

Definition socketErrorMessage (message : str) : str := lit "Internal socket error: " ++ message.

Definition handleSocketError (message : str) (token : Z) (s : Launcher) : Launcher :=
  let s := updProcess token (λ p, set_errorString (socketErrorMessage message)
                                    (set_socketError true p)) s in
  match m_state (processOf s token) with
  | NotRunning => s
  | _ => emit token (errorOccurred FailedToStart)
           (updProcess token (λ p, set_error FailedToStart (set_state NotRunning p)) s)
  end.

(** ** [LauncherSocket], receiving *)

Definition tokens (s : Launcher) : list Z := map fst (map_to_list (processes (client s))).

Definition setSocket (s : Launcher) : Launcher :=
  if isReady s then fail AssertFailed s
  else
    let s := on_clientInput (λ pb, (setDevice pb.1, pb.2)) (on_socket (λ _, true) s) in
    foldl (λ s token, handleSocketReady token s) s (tokens s).

Definition handleError (message : str) (s : Launcher) : Launcher :=
  let s := on_socket (λ _, false) s in
  foldl (λ s token, handleSocketError message token s) s (tokens s).

(** Each packet that is parsed shortens the bytes that can be read. *)
Fixpoint handleSocketDataAvailable (fuel : nat) (s : Launcher) : Launcher :=
  match fuel with
  | 0 => s
  | S fuel =>
      let '(r, pb) := parse (client_packetParser (client s)) (client_bytes (client s)) in
      let s := on_clientInput (λ _, pb) s in
      match r with
      | Throw size => handleError (lit "Internal protocol error: invalid packet size") (fail (InvalidPacketSizeError size) s)
      | Ok false => s
      | Ok true =>
          let type := m_type pb.1 in
          if (type =? packetTypeCode ProcessError)%Z || (type =? packetTypeCode ProcessFinished)%Z
          then
            let s := handlePacket type (m_token pb.1) (m_packetData pb.1) s in
            handleSocketDataAvailable fuel s
          else handleError (lit "Internal protocol error: invalid packet type")
                 (fail (InvalidPacketTypeError type) s)
      end
  end.

Definition shutdown (s : Launcher) : Launcher :=
  if negb (isReady s) then s
  else on_toServer (λ b, b ++ serialize 0 ShutdownPacket) (on_socket (λ _, false) s).

(** ** The server *)

Definition sendToClient (token : Z) (p : LauncherPacket) : Launcher → Launcher :=
  on_toClient (λ b, b ++ serialize token p).

(** [Process::stopStopProcedure] *)
Definition stopStopProcedure (p : Process) : Process :=
  mkProcess (process_state p) Inactive false.

Definition handleStopFailure (token : Z) (out err : str) (s : Launcher) : Launcher :=
  let s := on_serverProcesses (delete token) s in
  sendToClient token (ProcessFinishedPacket [] out err CrashExit Crashed (-1)) s.

(** [Process::cancel]; when the process does not react to the kill signal,
    [failedToStop] is emitted, with what the process has written in [out] and [err]. *)
Definition cancelProcess (token : Z) (out err : str) (s : Launcher) : Launcher :=
  match m_processes (server s) !! token with
  | None => s
  | Some p =>
      match m_stopState p with
      | Inactive => on_serverProcesses (insert token (mkProcess (process_state p) Terminating true)) s
      | Terminating => on_serverProcesses (insert token (mkProcess (process_state p) Killing true)) s
      | Killing =>
          handleStopFailure token out err
            (on_serverProcesses (insert token (mkProcess (process_state p) Inactive (stopTimer p))) s)
      end
  end.

Definition setupProcess : Process := mkProcess NotRunning Inactive false.

(** [QProcess::start] puts the process into the state [Starting]. *)
Definition handleStartPacket (token : Z) (s : Launcher) : Launcher :=
  let p := default setupProcess (m_processes (server s) !! token) in
  let s := on_serverProcesses (insert token p) s in
  match process_state p with
  | NotRunning => on_serverProcesses (insert token (mkProcess Starting (m_stopState p) (stopTimer p))) s
  | _ => fail StartWhileRunning s
  end.

(** A stop request for a process that is unknown or has ended is only logged. *)
Definition handleStopPacket (token : Z) (out err : str) (s : Launcher) : Launcher :=
  match m_processes (server s) !! token with
  | None => s
  | Some p =>
      match process_state p with
      | NotRunning => s
      | _ => cancelProcess token out err s
      end
  end.

Definition handleShutdownPacket (s : Launcher) : Launcher := quit s.

(** What the processes have written is [written], by token. *)
Fixpoint handleSocketData (fuel : nat) (written : Z → str * str) (s : Launcher) : Launcher :=
  match fuel with
  | 0 => s
  | S fuel =>
      let '(r, pb) := parse (server_packetParser (server s)) (server_bytes (server s)) in
      let s := on_serverInput (λ _, pb) s in
      match r with
      | Throw size => fail (InvalidPacketSizeError size) s
      | Ok false => s
      | Ok true =>
          let type := m_type pb.1 in
          let token := m_token pb.1 in
          if (type =? packetTypeCode StartProcess)%Z then
            handleSocketData fuel written (handleStartPacket token s)
          else if (type =? packetTypeCode StopProcess)%Z then
            handleSocketData fuel written
              (handleStopPacket token (written token).1 (written token).2 s)
          else if (type =? packetTypeCode Shutdown)%Z then handleShutdownPacket s
          else fail (InvalidPacketTypeError type) s
      end
  end.

(** [handleProcessError], after the process has got the [error] *)
Definition handleProcessError (token error : Z) (errorString : str) (s : Launcher) : Launcher :=
  if negb (error =? FailedToStart)%Z then s
  else
    sendToClient token (ProcessErrorPacket error errorString)
      (on_serverProcesses (alter stopStopProcedure token) s).

Definition handleProcessFinished (token error : Z) (errorString : str) (exitCode exitStatus : Z)
    (err out : str) (s : Launcher) : Launcher :=
  sendToClient token (ProcessFinishedPacket errorString out err exitStatus error exitCode)
    (on_serverProcesses (alter stopStopProcedure token) s).

Definition handleSocketClosed (s : Launcher) : Launcher := quit s.

(** ** Events *)

Definition setProcessState (token : Z) (x : ProcessState) : Launcher → Launcher :=
  on_serverProcesses (alter (λ p, mkProcess x (m_stopState p) (stopTimer p)) token).

Inductive Event :=
  (* of the client *)
  | EventNewProcess (token : Z) (env : list str) (dir : str)
  | EventStart (token : Z) (command : str) (arguments : list str)
  | EventCancel (token : Z)
  | EventConnected
  | EventRequests
  | EventClientData (n : nat)
  | EventDisconnected (message : str)
  | EventShutdown
  (* of the server *)
  | EventServerData (n : nat) (written : Z → str * str)
  | EventProcessStarted (token : Z)
  | EventProcessError (token error : Z) (errorString : str)
  | EventProcessFinished (token error : Z) (errorString : str) (exitCode exitStatus : Z) (err out : str)
  | EventStopTimer (token : Z) (out err : str)
  | EventServerClosed.

Definition serverState (s : Launcher) (token : Z) : ProcessState :=
  match m_processes (server s) !! token with Some p => process_state p | None => NotRunning end.

Definition handleEvent (ev : Event) (s : Launcher) : Launcher :=
  match ev with
  | EventNewProcess token env dir => updProcess token (set_environment env dir) s
  | EventStart token command arguments => start token command arguments s
  | EventCancel token => cancel token s
  | EventConnected => setSocket s
  | EventRequests => handleRequests (on_requestsPosted pred s)
  | EventClientData n =>
      let s := on_clientInput (λ pb, (pb.1, pb.2 ++ take n (toClient s))) (on_toClient (drop n) s) in
      handleSocketDataAvailable (S (length (client_bytes (client s)))) s
  | EventDisconnected message => handleError message s
  | EventShutdown => shutdown s
  | EventServerData n written =>
      let s := on_serverInput (λ pb, (pb.1, pb.2 ++ take n (toServer s))) (on_toServer (drop n) s) in
      handleSocketData (S (length (server_bytes (server s)))) written s
  | EventProcessStarted token => setProcessState token Running s
  | EventProcessError token error errorString =>
      handleProcessError token error errorString
        (if (error =? FailedToStart)%Z then setProcessState token NotRunning s else s)
  | EventProcessFinished token error errorString exitCode exitStatus err out =>
      handleProcessFinished token error errorString exitCode exitStatus err out
        (setProcessState token NotRunning s)
  | EventStopTimer token out err =>
      cancelProcess token out err
        (on_serverProcesses (alter (λ p, mkProcess (process_state p) (m_stopState p) false) token) s)
  | EventServerClosed => handleSocketClosed s
  end.

(** The start of a state: nothing is connected. *)
Definition initial : Launcher :=
  mkLauncher (mkClient ∅ false newPacketParser [] 0 [] []) (mkServer ∅ true newPacketParser [])
    [] [] [].
End Launcher.
