(* ===== verification/LauncherCorrect.v ===== *)
(** * Correctness of the process launcher

    As long as qbs and its launcher are connected, they agree on which processes run:
    for each process that qbs believes to be running there is exactly one request on
    its way, or process of the launcher, or report on its way back. *)

From S2P Require Import Prelude DataStream LauncherPackets Launcher.

Section Launcher.
Context {Variant : Type} `{D : QDataStream Variant, !QDataStreamLaws D}.

(** ** What the environment does *)

(** The packets are not larger than two gigabytes. *)
Definition startable (token : Z) (p : QbsProcess) : Prop := sendable (token, startPacket p).
Definition reportable (token : Z) (error : Z) (errorString : str) (exitCode exitStatus : Z) (err out : str) : Prop :=
  sendable (token, ProcessFinishedPacket errorString out err exitStatus error exitCode).

(** When an event can happen.  qbs starts a process only when it is not running, never
    deletes a [QbsProcess], and shuts the launcher down when no process runs; a
    connection is to a new server, and no request of an earlier one is left. *)
Definition enabled (ev : Event) (s : Launcher) : Prop :=
  match ev with
  | EventNewProcess token env dir =>
      processes (client s) !! token = None ∧ startable token (set_environment env dir newQbsProcess)
  | EventStart token command arguments => ∃ p, processes (client s) !! token = Some p ∧
      m_state p = NotRunning ∧ startable token (set_command command arguments p)
  | EventCancel token => is_Some (processes (client s) !! token)
  | EventConnected => m_socket (client s) = false ∧ m_requests (client s) = [] ∧
      server s = server initial ∧ toServer s = [] ∧ toClient s = [] ∧ client_bytes (client s) = []
  | EventRequests => 0 < requestsPosted (client s)
  | EventClientData n => m_socket (client s) = true ∧ 0 < n ≤ length (toClient s)
  | EventDisconnected _ => m_socket (client s) = true
  | EventShutdown => ∀ token, m_state (processOf s token) = NotRunning
  | EventServerData n written => serving (server s) = true ∧ 0 < n ≤ length (toServer s) ∧
      ∀ token, fits UInt64 token = true →
        reportable token Crashed [] (-1) CrashExit (written token).2 (written token).1
  | EventProcessStarted token => serving (server s) = true ∧ serverState s token = Starting
  | EventProcessError token error errorString => serving (server s) = true ∧
      (if (error =? FailedToStart)%Z then serverState s token = Starting
       else serverState s token ≠ NotRunning) ∧
      sendable (token, ProcessErrorPacket error errorString)
  | EventProcessFinished token error errorString exitCode exitStatus err out =>
      serving (server s) = true ∧ serverState s token = Running ∧
      reportable token error errorString exitCode exitStatus err out
  | EventStopTimer token out err => serving (server s) = true ∧
      (stopTimer <$> m_processes (server s) !! token) = Some true ∧
      reportable token Crashed [] (-1) CrashExit err out
  | EventServerClosed => m_socket (client s) = false ∧ serving (server s) = true
  end.

(** The reachable states; when qbs has lost its socket, the old server with what is left
    of the connection may be replaced by a new one. *)
Inductive reachable : Launcher → Prop :=
  | reachable_initial : reachable initial
  | reachable_event ev s : reachable s → enabled ev s → reachable (handleEvent ev s)
  | reachable_restart s : reachable s → m_socket (client s) = false →
      reachable (mkLauncher
        (mkClient (processes (client s)) false (client_packetParser (client s)) (m_requests (client s))
           (requestsPosted (client s)) [] (signals (client s)))
        (server initial) [] [] (failures s)).

(** ** The invariant *)

Definition startsOf (token : Z) (l : list Frame) : nat :=
  length (filter (λ f, frameType f = packetTypeCode StartProcess ∧ frameToken f = token) l).
Definition framesOf (token : Z) (l : list Frame) : nat :=
  length (filter (λ f, frameToken f = token) l).

Definition runs (s : Launcher) (token : Z) : nat :=
  match serverState s token with NotRunning => 0 | _ => 1 end.
Definition believed (s : Launcher) (token : Z) : nat :=
  match m_state (processOf s token) with Running => 1 | _ => 0 end.

Definition isRequest (f : Frame) : Prop :=
  frameType f = packetTypeCode StartProcess ∨ frameType f = packetTypeCode StopProcess.
Definition isReport (f : Frame) : Prop :=
  frameType f = packetTypeCode ProcessError ∨ frameType f = packetTypeCode ProcessFinished.

(** The server's timers run only for processes that run. *)
Definition stopping (p : Process) : Prop :=
  stopTimer p = true ∨ m_stopState p ≠ Inactive → process_state p ≠ NotRunning.

(** The state while connected: the frames [fs] are on their way to the server, the
    frames [rs] wait in qbs, and the frames [ds] are on their way to qbs; the processes
    in [todo] are still to be told that the socket is ready. *)
Record connected (todo : list Z) (fs rs ds : list Frame) (s : Launcher) : Prop := {
  co_serving : serving (server s) = true;
  co_up : incoming (server_packetParser (server s)) (server_bytes (server s) ++ toServer s) fs;
  co_waiting : m_requests (client s) = map encode rs ∧ Forall wf_frame rs;
  co_posted : m_requests (client s) ≠ [] → 0 < requestsPosted (client s);
  co_down : incoming (client_packetParser (client s)) (client_bytes (client s) ++ toClient s) ds;
  co_requests : Forall isRequest (fs ++ rs);
  co_reports : Forall isReport ds;
  co_count token : startsOf token (fs ++ rs) + runs s token + framesOf token ds = believed s token;
  co_started token : m_state (processOf s token) = Starting → token ∈ todo;
  co_stopping token p : m_processes (server s) !! token = Some p → stopping p
}.

Definition startableProcesses (s : Launcher) : Prop :=
  ∀ token p, processes (client s) !! token = Some p → startable token p.

(** Between two events everything that has arrived has been handled. *)
Record launcher_ok (s : Launcher) : Prop := {
  lo_startable : startableProcesses s;
  lo_connected : m_socket (client s) = true → ∃ fs rs ds, connected [] fs rs ds s ∧
    (toServer s = [] → fs = []) ∧ (toClient s = [] → ds = []);
  lo_unconnected : m_socket (client s) = false → ∀ token, m_state (processOf s token) ≠ Running
}.

(** ** Counting frames *)

Lemma startsOf_app token l l' : startsOf token (l ++ l') = startsOf token l + startsOf token l'.
Proof. unfold startsOf. by rewrite filter_app, length_app. Qed.
Lemma framesOf_app token l l' : framesOf token (l ++ l') = framesOf token l + framesOf token l'.
Proof. unfold framesOf. by rewrite filter_app, length_app. Qed.

Lemma startsOf_cons token f l :
  startsOf token (f :: l) =
  (if bool_decide (frameType f = packetTypeCode StartProcess ∧ frameToken f = token) then 1 else 0)
  + startsOf token l.
Proof. unfold startsOf. rewrite filter_cons. case_decide; by case_bool_decide. Qed.
Lemma framesOf_cons token f l :
  framesOf token (f :: l) = (if bool_decide (frameToken f = token) then 1 else 0) + framesOf token l.
Proof. unfold framesOf. rewrite filter_cons. case_decide; by case_bool_decide. Qed.

Lemma believed_le s token : believed s token ≤ 1.
Proof. unfold believed. destruct (m_state _); lia. Qed.

Lemma incoming_app p s fs f :
  wf_frame f → incoming p s fs → incoming p (s ++ encode f) (fs ++ [f]).
Proof.
  intros Hf [Hw H]. split; [by apply Forall_app; split; [|constructor]|].
  destruct H as [[Hs ->]|(f' & fs' & -> & Hs & ->)].
  - left. split; [done|]. by rewrite map_app, concat_app; simpl; rewrite app_nil_r.
  - right. exists f', (fs' ++ [f]). split; [done|]. split; [done|].
    by rewrite map_app, concat_app, <-app_assoc; simpl; rewrite app_nil_r.
Qed.

Lemma incoming_concat p s fs rs :
  Forall wf_frame rs → incoming p s fs → incoming p (s ++ concat (map encode rs)) (fs ++ rs).
Proof.
  intros Hw. revert s fs. induction Hw as [|f rs Hf Hw IH]; intros s fs I; simpl.
  - by rewrite !app_nil_r.
  - rewrite app_assoc. replace (fs ++ f :: rs) with ((fs ++ [f]) ++ rs) by (by rewrite <-app_assoc).
    by apply IH, incoming_app.
Qed.

Lemma encode_not_nil f : encode f ≠ [].
Proof.
  intros H. apply (f_equal length) in H. unfold encode in H. rewrite length_app, length_putInt in H.
  simpl in H. lia.
Qed.

(** ** Changes of single parts *)

Lemma processOf_upd token f s t :
  processOf (updProcess token f s) t = if decide (token = t) then f (processOf s t) else processOf s t.
Proof.
  unfold processOf, updProcess. simpl. case_decide as Ht.
  - subst t. by rewrite lookup_partial_alter_eq.
  - by rewrite lookup_partial_alter_ne.
Qed.

Lemma startable_upd token f s :
  (∀ p, processes (client s) !! token = Some p → startable token p → startable token (f p)) →
  is_Some (processes (client s) !! token) →
  startableProcesses s → startableProcesses (updProcess token f s).
Proof.
  intros Hf [p Hp] Hs t q. unfold updProcess. simpl. destruct (decide (token = t)) as [->|Hne].
  - rewrite lookup_partial_alter_eq, Hp. intros [= <-]. simpl. eauto.
  - rewrite lookup_partial_alter_ne by done. apply Hs.
Qed.

(** Nothing that the two ends agree on has changed. *)
Lemma connected_believed todo todo' fs rs ds s s' :
  server s' = server s → toServer s' = toServer s → toClient s' = toClient s →
  m_requests (client s') = m_requests (client s) →
  requestsPosted (client s') = requestsPosted (client s) →
  client_packetParser (client s') = client_packetParser (client s) →
  client_bytes (client s') = client_bytes (client s) →
  (∀ t, believed s' t = believed s t) →
  (∀ t, m_state (processOf s' t) = Starting → t ∈ todo') →
  connected todo fs rs ds s → connected todo' fs rs ds s'.
Proof.
  intros H1 H2 H3 H4 H5 H6 H7 H8 H9 [].
  split; try (rewrite ?H1, ?H2, ?H3, ?H4, ?H5, ?H6, ?H7; done).
  intros t. unfold runs, serverState. rewrite H1, H8. apply co_count0.
Qed.

Lemma connected_same todo fs rs ds s s' :
  server s' = server s → toServer s' = toServer s → toClient s' = toClient s →
  m_requests (client s') = m_requests (client s) →
  requestsPosted (client s') = requestsPosted (client s) →
  client_packetParser (client s') = client_packetParser (client s) →
  client_bytes (client s') = client_bytes (client s) →
  (∀ t, m_state (processOf s' t) = m_state (processOf s t)) →
  connected todo fs rs ds s → connected todo fs rs ds s'.
Proof.
  intros ? ? ? ? ? ? ? Hs Hc. eapply connected_believed; [done..| | |exact Hc].
  - intros t. unfold believed. by rewrite Hs.
  - intros t. rewrite Hs. apply Hc.
Qed.

Lemma connected_todo todo todo' fs rs ds s :
  (∀ t, m_state (processOf s t) = Starting → t ∈ todo → t ∈ todo') →
  connected todo fs rs ds s → connected todo' fs rs ds s.
Proof. intros Ht []. split; try done. intros t Hst. apply Ht; [done|]. by apply co_started0. Qed.

(** A request is added. *)
Lemma connected_push todo todo' fs rs ds s s' f :
  wf_frame f → isRequest f →
  server s' = server s → toServer s' = toServer s → toClient s' = toClient s →
  client_packetParser (client s') = client_packetParser (client s) →
  client_bytes (client s') = client_bytes (client s) →
  m_requests (client s') = m_requests (client s) ++ [encode f] → 0 < requestsPosted (client s') →
  (∀ t, startsOf t [f] + believed s t = believed s' t) →
  (∀ t, m_state (processOf s' t) = Starting → t ∈ todo') →
  connected todo fs rs ds s → connected todo' fs (rs ++ [f]) ds s'.
Proof.
  intros Hw Hr H1 H2 H3 H4 H5 H6 H7 Hb Ht []. destruct co_waiting0 as [Hm Hrs].
  split; try (rewrite ?H1, ?H2, ?H3, ?H4, ?H5; done).
  - rewrite H6, Hm, map_app. split; [done|]. by apply Forall_app; split; [|constructor].
  - rewrite app_assoc. apply Forall_app. by split; [|constructor].
  - intros t. unfold runs, serverState. rewrite H1, <-Hb, <-co_count0, app_assoc, startsOf_app.
    unfold runs, serverState. lia.
Qed.

Definition sentRequest (token : Z) (p : LauncherPacket) (s : Launcher) : Launcher :=
  on_requestsPosted (λ n, if length (m_requests (client s) ++ [serialize token p]) =? 1 then S n else n)
    (on_requests (λ l, l ++ [serialize token p]) s).

Lemma sendPacket_ready token p s : isReady s = true → sendPacket token p s = sentRequest token p s.
Proof.
  intros Hr. unfold sendPacket, sendData, sentRequest. rewrite Hr. simpl.
  destruct (length _ =? 1); [done|]. by destruct s as [[] ? ? ? ?].
Qed.

Lemma requestsPosted_sent token p s :
  (m_requests (client s) ≠ [] → 0 < requestsPosted (client s)) → 0 < requestsPosted (client (sentRequest token p s)).
Proof.
  intros Hp. unfold sentRequest. cbn [client on_requestsPosted on_requests on_client requestsPosted].
  destruct (Nat.eqb_spec (length (m_requests (client s) ++ [serialize token p])) 1) as [H|H]; [lia|].
  apply Hp. intros E. by rewrite E in H.
Qed.

(** [doStart], of a process that does not run. *)
Lemma connected_doStart todo todo' fs rs ds s token :
  isReady s = true → startable token (processOf s token) → m_state (processOf s token) ≠ Running →
  (∀ t, m_state (processOf s t) = Starting → t ≠ token → t ∈ todo') →
  connected todo fs rs ds s → ∃ rs', connected todo' fs rs' ds (doStart token s).
Proof.
  intros Hrd Hsp Hst Ht Hc. unfold doStart. set (s1 := updProcess token (set_state Running) s).
  rewrite sendPacket_ready by done.
  assert (processOf s1 token = set_state Running (processOf s token)) as Hp1.
  { unfold s1. rewrite processOf_upd. by rewrite decide_True. }
  rewrite Hp1. change (startPacket (set_state Running (processOf s token))) with (startPacket (processOf s token)).
  set (p := startPacket (processOf s token)).
  destruct Hsp as [Hwp Hwf]. simpl in Hwf.
  exists (rs ++ [frameOf token p]).
  assert (∀ t, m_state (processOf (sentRequest token p s1) t) =
    if decide (token = t) then Running else m_state (processOf s t)) as Hstate.
  { intros t. change (processOf (sentRequest token p s1) t) with (processOf s1 t).
    unfold s1. rewrite processOf_upd. by case_decide. }
  eapply (connected_push todo); [exact Hwf|by left|..|exact Hc]; try done.
  - simpl. by rewrite serialize_encode.
  - apply requestsPosted_sent, Hc.
  - intros t. unfold believed. rewrite Hstate. unfold startsOf. rewrite filter_cons, filter_nil.
    simpl. destruct (decide (token = t)) as [->|Hne].
    + rewrite decide_True by done. simpl. by destruct (m_state (processOf s t)).
    + rewrite decide_False by (by intros [_ ?]). done.
  - intros t. rewrite Hstate. case_decide; [done|]. intros Hs. by apply Ht.
Qed.

(** ** The events of qbs *)

Lemma startable_same token p q : startPacket p = startPacket q → startable token p → startable token q.
Proof. unfold startable. by intros ->. Qed.

Lemma startableProcesses_upd token f s :
  (∀ p, startPacket (f p) = startPacket p) → is_Some (processes (client s) !! token) →
  startableProcesses s → startableProcesses (updProcess token f s).
Proof. intros Hf Hp. apply startable_upd; [|done]. intros p _. by apply startable_same. Qed.

Lemma startable_process s token :
  is_Some (processes (client s) !! token) → startableProcesses s → startable token (processOf s token).
Proof. intros [p Hp] Hs. unfold processOf. rewrite Hp. by apply Hs. Qed.

Lemma running_known s token :
  m_state (processOf s token) ≠ NotRunning → is_Some (processes (client s) !! token).
Proof. unfold processOf. destruct (processes (client s) !! token); [by eexists|done]. Qed.

Lemma elem_of_tokens s t : t ∈ tokens s ↔ is_Some (processes (client s) !! t).
Proof.
  unfold tokens. rewrite list_elem_of_fmap. split.
  - intros ((t' & p) & -> & Hin%elem_of_map_to_list). by exists p.
  - intros [p Hp]. exists (t, p). split; [done|]. by apply elem_of_map_to_list.
Qed.

(** *** The socket is ready *)

Lemma handleSocketReady_connected todo fs rs ds s token :
  isReady s = true → startableProcesses s → is_Some (processes (client s) !! token) →
  m_state (processOf s token) ≠ Running → 
  connected (token :: todo) fs rs ds s →
  let s' := handleSocketReady token s in
  isReady s' = true ∧ startableProcesses s' ∧ failures s' = failures s ∧
  (∀ t, is_Some (processes (client s) !! t) → is_Some (processes (client s') !! t)) ∧
  (∀ t, t ≠ token → m_state (processOf s' t) = m_state (processOf s t)) ∧
  toServer s' = toServer s ∧ toClient s' = toClient s ∧
  ∃ rs', connected todo fs rs' ds s'.
Proof.
  intros Hrd Hsp Hp Hst Hc. unfold handleSocketReady.
  set (s1 := updProcess token (set_socketError false) s). cbv zeta.
  assert (∀ t, m_state (processOf s1 t) = m_state (processOf s t)) as Hs1.
  { intros t. unfold s1. rewrite processOf_upd. by case_decide. }
  assert (startableProcesses s1) as Hsp1 by by apply startableProcesses_upd.
  assert (∀ t, is_Some (processes (client s) !! t) → is_Some (processes (client s1) !! t)) as Hk.
  { intros t Ht. unfold s1, updProcess. simpl. destruct (decide (token = t)) as [->|Hne].
    - rewrite lookup_partial_alter_eq. by eexists.
    - by rewrite lookup_partial_alter_ne. }
  assert (connected (token :: todo) fs rs ds s1) as Hc1 by by eapply connected_same; [..|exact Hc].
  destruct (m_state (processOf s1 token)) eqn:E.
  - split_and!; try done. exists rs. eapply connected_todo; [|exact Hc1].
    intros t Ht [->|?]%elem_of_cons; [congruence|done].
  - destruct (connected_doStart (token :: todo) todo fs rs ds s1 token) as [rs' Hc2]; try done.
    + apply startable_process; auto.
    + by rewrite E.
    + intros t Ht Hne. pose proof (co_started _ _ _ _ _ Hc1 t Ht) as Hin.
      by apply elem_of_cons in Hin as [?|?].
    + assert (processes (client (doStart token s1)) = processes (client (updProcess token (set_state Running) s1))) as Hpr.
      { unfold doStart. by rewrite sendPacket_ready. }
      assert (doStart token s1 = sentRequest token (startPacket (processOf (updProcess token (set_state Running) s1) token)) (updProcess token (set_state Running) s1)) as Heq.
      { unfold doStart. by rewrite sendPacket_ready. }
      split_and!; try (rewrite Heq; done).
      * intros t q. rewrite Hpr. apply startableProcesses_upd; auto.
      * intros t Ht. rewrite Hpr. unfold updProcess. simpl. destruct (decide (token = t)) as [->|Hne].
        -- rewrite lookup_partial_alter_eq. by eexists.
        -- rewrite lookup_partial_alter_ne by done. auto.
      * intros t Hne. unfold processOf at 1. rewrite Hpr. fold (processOf (updProcess token (set_state Running) s1) t).
        rewrite processOf_upd, decide_False by done. apply Hs1.
      * by exists rs'.
  - by rewrite Hs1 in E.
Qed.

Lemma ready_all l fs rs ds s :
  NoDup l → isReady s = true → startableProcesses s →
  (∀ t, t ∈ l → is_Some (processes (client s) !! t) ∧ m_state (processOf s t) ≠ Running) →
  connected l fs rs ds s →
  let s' := foldl (λ s token, handleSocketReady token s) s l in
  isReady s' = true ∧ startableProcesses s' ∧ failures s' = failures s ∧
  toServer s' = toServer s ∧ toClient s' = toClient s ∧ ∃ rs', connected [] fs rs' ds s'.
Proof.
  revert rs s. induction l as [|token l IH]; intros rs s Hnd Hrd Hsp Hl Hc; cbn [foldl].
  { split_and!; try done. by exists rs. }
  apply NoDup_cons in Hnd as [Hni Hnd]. destruct (Hl token (list_elem_of_here _ _)) as [Hp Hst].
  destruct (handleSocketReady_connected l fs rs ds s token Hrd Hsp Hp Hst Hc)
    as (Hrd' & Hsp' & Hf' & Hk & Ho & Hu & Hd & rs' & Hc').
  destruct (IH rs' (handleSocketReady token s) Hnd Hrd' Hsp') as (? & ? & Hf & Hu2 & Hd2 & ?); [|done|].
  - intros t Ht. assert (t ≠ token) as Hne by (by intros ->).
    destruct (Hl t (list_elem_of_further _ _ _ Ht)) as [? Hs]. split; [auto|]. by rewrite Ho.
  - split_and!; try done; congruence.
Qed.

Lemma tokens_NoDup s : NoDup (tokens s).
Proof. apply NoDup_fst_map_to_list. Qed.

Lemma setSocket_ok s :
  launcher_ok s → enabled EventConnected s →
  launcher_ok (setSocket s) ∧ isReady (setSocket s) = true.
Proof.
  intros [Hsp _ Hun] (Hs & Hm & Hv & Hu & Hd & Hb). specialize (Hun Hs).
  unfold setSocket. unfold isReady at 1 3. rewrite Hs.
  set (s1 := on_clientInput _ (on_socket _ s)).
  assert (connected (tokens s1) [] [] [] s1) as Hc.
  { split; unfold s1; simpl; rewrite ?Hm, ?Hv, ?Hu, ?Hd, ?Hb; simpl; try done.
    - split; [done|]. by left.
    - split; [done|]. by left.
    - intros token. unfold startsOf, framesOf, runs, serverState, believed. simpl. rewrite Hv.
      change (processOf (on_clientInput _ _) token) with (processOf s token). simpl.
      by destruct (m_state (processOf s token)) eqn:E; [..|destruct (Hun token)].
    - intros token Ht. change (token ∈ tokens s). apply elem_of_tokens, running_known.
      change (m_state (processOf s token) = Starting) in Ht. by rewrite Ht. }
  destruct (ready_all (tokens s1) [] [] [] s1) as (Hrd & Hsp' & _ & Hu' & Hd' & rs & Hc');
    [apply tokens_NoDup|done|done| |done|].
  { intros t Ht. apply elem_of_tokens in Ht. split; [done|]. apply Hun. }
  split; [|done]. split; [done| |by intros E; unfold isReady in Hrd; rewrite Hrd in E].
  intros _. exists [], rs, []. split; [done|]. done.
Qed.

(** *** The socket is lost *)

Lemma handleSocketError_state msg token s t :
  m_state (processOf (handleSocketError msg token s) t) =
    if decide (token = t) then NotRunning else m_state (processOf s t).
Proof.
  unfold handleSocketError. set (s1 := updProcess token _ s).
  assert (∀ t, m_state (processOf s1 t) = m_state (processOf s t)) as Hs1.
  { intros t'. unfold s1. rewrite processOf_upd. by case_decide. }
  assert (∀ x, m_state (processOf (emit token x (updProcess token
      (λ p, set_error FailedToStart (set_state NotRunning p)) s1)) t) =
    if decide (token = t) then NotRunning else m_state (processOf s t)) as He.
  { intros x. change (processOf (emit _ _ ?s2) t) with (processOf s2 t).
    rewrite processOf_upd. case_decide; [done|apply Hs1]. }
  destruct (m_state (processOf s1 token)) eqn:E; [|apply He..].
  rewrite Hs1. case_decide as Ht; [subst t; by rewrite <-Hs1|done].
Qed.

Lemma handleSocketError_keeps msg token s :
  is_Some (processes (client s) !! token) → startableProcesses s →
  let s' := handleSocketError msg token s in
  startableProcesses s' ∧ m_socket (client s') = m_socket (client s) ∧ failures s' = failures s ∧
  server s' = server s ∧
  ∀ t, is_Some (processes (client s) !! t) ↔ is_Some (processes (client s') !! t).
Proof.
  intros Hp Hsp. unfold handleSocketError. set (s1 := updProcess token _ s). cbv zeta.
  assert (∀ f s0 t, is_Some (processes (client s0) !! token) →
    (is_Some (processes (client s0) !! t) ↔ is_Some (processes (client (updProcess token f s0)) !! t))) as Hk.
  { intros f s0 t H0. unfold updProcess. simpl. destruct (decide (token = t)) as [->|Hne].
    - rewrite lookup_partial_alter_eq. split; [by eexists|done].
    - by rewrite lookup_partial_alter_ne. }
  assert (startableProcesses s1) as Hsp1 by by apply startableProcesses_upd.
  assert (is_Some (processes (client s1) !! token)) as Hp1 by by apply Hk.
  destruct (m_state (processOf s1 token)).
  1: { split_and!; try done. intros t. by apply Hk. }
  all: (split; [exact (startableProcesses_upd token (λ p, set_error FailedToStart (set_state NotRunning p)) s1 (λ p, eq_refl) Hp1 Hsp1)|]).
  all: split_and!; try done; intros t.
  all: exact (iff_trans
    (Hk (λ p, set_errorString (socketErrorMessage msg) (set_socketError true p)) s t Hp)
    (Hk (λ p, set_error FailedToStart (set_state NotRunning p)) s1 t Hp1)).
Qed.

Lemma handleError_ok msg s :
  launcher_ok s → launcher_ok (handleError msg s) ∧ failures (handleError msg s) = failures s.
Proof.
  intros [Hsp _ _]. unfold handleError. set (s1 := on_socket (λ _, false) s). cbv zeta.
  assert (∀ l s0, startableProcesses s0 → m_socket (client s0) = false →
    (∀ t, t ∈ l → is_Some (processes (client s0) !! t)) →
    (∀ t, m_state (processOf s0 t) ≠ NotRunning → t ∈ l) →
    let s' := foldl (λ s token, handleSocketError msg token s) s0 l in
    launcher_ok s' ∧ failures s' = failures s0) as Hall.
  { induction l as [|token l IH]; intros s0 Hsp0 Hs0 Hk Hr; cbn [foldl].
    - split; [|done]. split; [done|by rewrite Hs0|]. intros _ t Ht.
      apply (not_elem_of_nil t), Hr. by rewrite Ht.
    - destruct (handleSocketError_keeps msg token s0 (Hk token (list_elem_of_here _ _)) Hsp0)
        as (Hsp' & Hs' & Hf' & _ & Hk').
      destruct (IH (handleSocketError msg token s0) Hsp') as [Hok Hf].
      + by rewrite Hs'.
      + intros t Ht. apply Hk', Hk. by right.
      + intros t. rewrite handleSocketError_state. case_decide as Hne; [done|]. intros Ht.
        apply Hr in Ht. by apply elem_of_cons in Ht as [?|?].
      + split; [done|congruence]. }
  destruct (Hall (tokens s1) s1) as [Hok Hf]; try done.
  - intros t. apply elem_of_tokens.
  - intros t Ht. apply elem_of_tokens, running_known, Ht.
Qed.

(** *** Requests *)

(** A change of qbs alone after which the two ends agree as before. *)
Lemma launcher_ok_same s s' :
  launcher_ok s → startableProcesses s' →
  m_socket (client s') = m_socket (client s) →
  server s' = server s → toServer s' = toServer s → toClient s' = toClient s →
  m_requests (client s') = m_requests (client s) →
  requestsPosted (client s') = requestsPosted (client s) →
  client_packetParser (client s') = client_packetParser (client s) →
  client_bytes (client s') = client_bytes (client s) →
  (∀ t, m_state (processOf s' t) = m_state (processOf s t)) → launcher_ok s'.
Proof.
  intros [Hsp Hc Hu] Hsp' H0 H1 H2 H3 H4 H5 H6 H7 H8. split; [done|..]; rewrite H0.
  - intros Hs. destruct (Hc Hs) as (fs & rs & ds & Hco & Hup & Hdn). exists fs, rs, ds.
    rewrite H2, H3. split; [|done]. by apply (connected_same [] fs rs ds s s').
  - intros Hs t. rewrite H8. by apply Hu.
Qed.

Lemma newProcess_ok token env dir s :
  launcher_ok s → enabled (EventNewProcess token env dir) s →
  launcher_ok (handleEvent (EventNewProcess token env dir) s).
Proof.
  intros Hok [Hn Hst]. simpl.
  assert (∀ t, m_state (processOf (updProcess token (set_environment env dir) s) t) = m_state (processOf s t)).
  { intros t. rewrite processOf_upd. by case_decide. }
  eapply launcher_ok_same; [exact Hok| |done..].
  intros t q. unfold updProcess. simpl. destruct (decide (token = t)) as [->|Hne].
  - rewrite lookup_partial_alter_eq, Hn. by intros [= <-].
  - rewrite lookup_partial_alter_ne by done. apply Hok.
Qed.

Lemma start_ok token command arguments s :
  launcher_ok s → enabled (EventStart token command arguments) s →
  launcher_ok (start token command arguments s) ∧
  failures (start token command arguments s) = failures s.
Proof.
  intros Hok (p & Hp & Hst & Hsa). unfold start.
  assert (processOf s token = p) as Hpo by (unfold processOf; by rewrite Hp).
  destruct (m_socketError (processOf s token)).
  - split; [|done]. eapply launcher_ok_same; [exact Hok| |done..|].
    + by apply startableProcesses_upd; [..|apply Hok].
    + intros t. change (processOf (emit _ _ ?s0) t) with (processOf s0 t). rewrite processOf_upd.
      by case_decide.
  - set (s1 := updProcess token _ s). cbv zeta.
    assert (∀ t, processOf s1 t = if decide (token = t) then set_state Starting (set_command command arguments p) else processOf s t) as Hp1.
    { intros t. unfold s1. rewrite processOf_upd. case_decide as Ht; [|done]. subst t. by rewrite Hpo. }
    assert (startableProcesses s1) as Hsp1.
    { intros t q. unfold s1, updProcess. simpl. destruct (decide (token = t)) as [->|Hne].
      - rewrite lookup_partial_alter_eq, Hp. intros [= <-]. exact Hsa.
      - rewrite lookup_partial_alter_ne by done. apply Hok. }
    destruct (isReady s1) eqn:Hrd; unfold isReady in Hrd; simpl in Hrd.
    + destruct (lo_connected _ Hok Hrd) as (fs & rs & ds & Hc & Hup & Hdn).
      assert (connected [token] fs rs ds s1) as Hc1.
      { apply (connected_believed [] [token] fs rs ds s s1); [done..| | |exact Hc].
        - intros t. unfold believed. rewrite Hp1. case_decide as Ht; [subst t; by rewrite Hpo, Hst|done].
        - intros t. rewrite Hp1. case_decide as Ht; [subst t; left|].
          intros Ht2%(co_started _ _ _ _ _ Hc). by apply elem_of_nil in Ht2. }
      destruct (connected_doStart [token] [] fs rs ds s1 token) as [rs' Hc2]; try done.
      * rewrite Hp1, decide_True by done. exact Hsa.
      * by rewrite Hp1, decide_True.
      * intros t Ht Hne. pose proof (co_started _ _ _ _ _ Hc1 t Ht) as Hin.
        by apply list_elem_of_singleton in Hin.
      * assert (doStart token s1 = sentRequest token (startPacket (processOf (updProcess token (set_state Running) s1) token)) (updProcess token (set_state Running) s1)) as Heq.
        { unfold doStart. by rewrite sendPacket_ready. }
        rewrite Heq in *. split; [|done]. split.
        -- apply (startableProcesses_upd token (set_state Running) s1 (λ p, eq_refl)); [|done].
           apply running_known. rewrite Hp1, decide_True by done. done.
        -- intros _. by exists fs, rs', ds.
        -- intros E. simpl in E. by rewrite Hrd in E.
    + split; [|done]. split; [done|intros E; simpl in E; by rewrite Hrd in E|].
      intros _ t. rewrite Hp1. case_decide; [done|]. by apply (lo_unconnected _ Hok).
Qed.

Lemma stop_sendable token p : sendable (token, p) → sendable (token, StopProcessPacket).
Proof. intros [_ (_ & Ht & _)]. split; [done|]. split; [done|]. by split. Qed.

Lemma cancel_ok token s :
  launcher_ok s → enabled (EventCancel token) s →
  launcher_ok (cancel token s) ∧ failures (cancel token s) = failures s.
Proof.
  intros Hok Hp. unfold cancel. destruct (m_state (processOf s token)) eqn:Hst; [done|..].
  - split; [|done]. set (f := λ p, _). assert (∀ t, m_state (processOf (updProcess token f s) t) =
      if decide (token = t) then NotRunning else m_state (processOf s t)) as Hs.
    { intros t. rewrite processOf_upd. by case_decide. }
    assert (m_socket (client s) = false) as Hno.
    { destruct (m_socket (client s)) eqn:E; [|done].
      destruct (lo_connected _ Hok E) as (fs & rs & ds & Hc & _).
      pose proof (co_started _ _ _ _ _ Hc token Hst) as Hin. by apply elem_of_nil in Hin. }
    split.
    + by apply (startableProcesses_upd token f s (λ p, eq_refl)); [|apply Hok].
    + intros E. simpl in E. by rewrite Hno in E.
    + intros _ t. change (processOf (emit _ _ ?s0) t) with (processOf s0 t). rewrite Hs.
      case_decide; [done|]. by apply (lo_unconnected _ Hok).
  - destruct (m_socket (client s)) eqn:E.
    2: { by destruct (lo_unconnected _ Hok E token). }
    rewrite sendPacket_ready by done. split; [|done].
    destruct (lo_connected _ Hok E) as (fs & rs & ds & Hc & Hup & Hdn).
    pose proof (stop_sendable _ _ (startable_process s token Hp (lo_startable _ Hok))) as [Hwp Hwf].
    split; [apply Hok| |by intros E'; simpl in E'; rewrite E in E'].
    intros _. exists fs, (rs ++ [frameOf token StopProcessPacket]), ds. split; [|done].
    apply (connected_push [] [] fs rs ds s _ (frameOf token StopProcessPacket)); [exact Hwf|by right|done..| | | | |exact Hc].
    + simpl. by rewrite serialize_encode.
    + apply requestsPosted_sent, Hc.
    + intros t. unfold startsOf. rewrite filter_cons, decide_False; [done|]. by intros [? _].
    + intros t. apply (co_started _ _ _ _ _ Hc).
Qed.

Lemma encode_concat_nil rs : concat (map encode rs) = [] → rs = [].
Proof.
  destruct rs as [|f rs]; [done|]. simpl. intros [H _]%app_eq_nil. by destruct (encode_not_nil f).
Qed.

Lemma handleRequests_ok s :
  launcher_ok s → let s' := handleRequests (on_requestsPosted pred s) in
  launcher_ok s' ∧ (m_socket (client s) = true → failures s' = failures s).
Proof.
  intros Hok. unfold handleRequests. unfold isReady. simpl. destruct (m_socket (client s)) eqn:E; simpl.
  - split; [|done]. destruct (lo_connected _ Hok E) as (fs & rs & ds & [] & Hup & Hdn).
    split; [apply Hok| |by intros E'; simpl in E'; rewrite E in E'].
    intros _. exists (fs ++ rs), [], ds. destruct co_waiting0 as [Hm Hrs]. split.
    + split; simpl; try done.
      * rewrite app_assoc, Hm. by apply incoming_concat.
      * by rewrite app_nil_r.
      * intros t. rewrite app_nil_r. apply co_count0.
    + split; [|done]. simpl. rewrite Hm. intros [Hu Hr]%app_eq_nil.
      by rewrite Hup, (encode_concat_nil rs).
  - split; [|done]. split; [apply Hok|by intros E'; simpl in E'; rewrite E in E'|].
    intros _. by apply (lo_unconnected _ Hok).
Qed.
End Launcher.
