(* ===== verification/LauncherInvariant.v ===== *)
(** * The agreement of qbs and its launcher is an invariant

    The events that deliver data, the events of the server, and the properties of all
    reachable states. *)

From S2P Require Import Prelude DataStream LauncherPackets Launcher LauncherCorrect.

Section Invariant.
Context {Variant : Type} `{D : QDataStream Variant, !QDataStreamLaws D}.

(** ** Reports arrive *)

(** The report of a process that runs: it does not run any more. *)
Lemma handlePacket_report type token data s :
  m_state (processOf s token) = Running →
  type = packetTypeCode ProcessError ∨ type = packetTypeCode ProcessFinished →
  ∃ g x, handlePacket type token data s = emit token x (updProcess token g s) ∧
    ∀ p, m_state (g p) = NotRunning ∧ startPacket (g p) = startPacket p.
Proof.
  intros Hst Ht. unfold handlePacket.
  destruct (running_known s token) as [p ->]; [by rewrite Hst|].
  destruct Ht as [-> | ->]; simpl.
  - unfold handleErrorPacket, extractPacket, doDeserialize. rewrite Hst.
    destruct (getInt UInt8 data) as [e data']. destruct (getString data') as [m data2].
    by do 2 eexists.
  - unfold handleFinishedPacket, extractPacket, doDeserialize. rewrite Hst.
    destruct (getString data) as [? d1]. destruct (getByteArray d1) as [? d2].
    destruct (getByteArray d2) as [? d3]. destruct (getInt UInt8 d3) as [? d4].
    destruct (getInt UInt8 d4) as [? d5]. destruct (getInt Int32 d5) as [? d6].
    by do 2 eexists.
Qed.

Lemma connected_report fs rs ds f pb s token g x :
  connected [] fs rs (f :: ds) s → frameToken f = token →
  (∀ p, m_state (g p) = NotRunning) →
  incoming pb.1 (pb.2 ++ toClient s) ds →
  connected [] fs rs ds (emit token x (updProcess token g (on_clientInput (λ _, pb) s))).
Proof.
  intros Hc Ht Hg I. set (s' := emit token x _).
  assert (∀ t, m_state (processOf s' t) = if decide (token = t) then NotRunning else m_state (processOf s t)) as Hs.
  { intros t. change (processOf s' t) with (processOf (updProcess token g (on_clientInput (λ _, pb) s)) t).
    rewrite processOf_upd. case_decide; [apply Hg|]. by destruct pb. }
  pose proof (co_count _ _ _ _ _ Hc) as Hn. pose proof (co_started _ _ _ _ _ Hc) as Hst.
  destruct Hc. subst s'. destruct pb as [pp b]. split; try done.
  - by apply Forall_cons in co_reports as [_ ?].
  - intros t. specialize (Hn t). rewrite framesOf_cons in Hn. unfold believed in *. rewrite Hs.
    change (runs (emit _ _ _) t) with (runs s t).
    case_bool_decide as Hb; case_decide as Hd; try congruence; [|lia].
    destruct (m_state (processOf s t)); lia.
  - intros t. rewrite Hs. case_decide; [done|]. apply Hst.
Qed.

Lemma handleSocketDataAvailable_ok fuel fs rs ds s :
  startableProcesses s → connected [] fs rs ds s → length (client_bytes (client s)) < fuel →
  let s' := handleSocketDataAvailable fuel s in
  failures s' = failures s ∧ startableProcesses s' ∧ server s' = server s ∧
  m_socket (client s') = m_socket (client s) ∧ m_requests (client s') = m_requests (client s) ∧
  toServer s' = toServer s ∧ toClient s' = toClient s ∧
  ∃ ds', connected [] fs rs ds' s' ∧ (toClient s = [] → ds' = []).
Proof.
  revert ds s. induction fuel as [|fuel IH]; intros ds s Hsp Hc Hf; [lia|].
  cbn [handleSocketDataAvailable].
  pose proof (parse_incoming _ _ _ _ (co_down _ _ _ _ _ Hc)) as Hp.
  destruct (parse _ _) as [[[|]|x] [p' b']]; [| |done].
  - destruct Hp as (f & ds' & -> & Hpar & I & Hl). cbn [fst].
    assert (m_type p' = frameType f ∧ m_token p' = frameToken f) as [Hty Htk] by (unfold parsed in Hpar; by subst f).
    rewrite Hty, Htk. pose proof (co_reports _ _ _ _ _ Hc) as [Hr _]%Forall_cons.
    assert (m_state (processOf s (frameToken f)) = Running) as Hrun.
    { pose proof (co_count _ _ _ _ _ Hc (frameToken f)) as Hn. rewrite framesOf_cons in Hn.
      rewrite bool_decide_eq_true_2 in Hn by done. unfold believed in Hn.
      destruct (m_state (processOf s (frameToken f))); [lia..|done]. }
    set (s1 := on_clientInput (λ _, (p', b')) s).
    destruct (handlePacket_report (frameType f) (frameToken f) (m_packetData p') s1 Hrun Hr) as (g & x & Hh & Hg).
    assert ((frameType f =? packetTypeCode ProcessError)%Z || (frameType f =? packetTypeCode ProcessFinished)%Z = true) as ->.
    { destruct Hr as [-> | ->]; done. }
    cbv zeta. rewrite Hh.
    destruct (IH ds' (emit (frameToken f) x (updProcess (frameToken f) g s1)))
      as (? & ? & ? & ? & ? & ? & ? & ?); [| |simpl; lia|by split_and!].
    + apply (startableProcesses_upd (frameToken f) g s1 (λ p, proj2 (Hg p))); [|done].
      apply running_known. change (m_state (processOf s (frameToken f)) ≠ NotRunning). by rewrite Hrun.
    + apply (connected_report _ _ _ f); try done. intros p. apply Hg.
  - destruct Hp as [I Hr]. split_and!; try done. exists ds. split; [|done].
    destruct Hc. by split.
Qed.

(** ** Changes of the server *)

(** The processes of the server and what it has written have changed, and the server
    may have taken requests. *)
Lemma connected_server todo fs fs' rs ds gs s s' :
  client s' = client s → serving (server s') = true →
  incoming (server_packetParser (server s')) (server_bytes (server s') ++ toServer s') fs' →
  toClient s' = toClient s ++ concat (map encode gs) → Forall wf_frame gs → Forall isReport gs →
  (∀ f, f ∈ fs' → f ∈ fs) →
  (∀ t, startsOf t fs' + runs s' t + framesOf t gs = startsOf t fs + runs s t) →
  (∀ t p, m_processes (server s') !! t = Some p → stopping p) →
  connected todo fs rs ds s → connected todo fs' rs (ds ++ gs) s'.
Proof.
  intros Hcl Hsv Hin Htc Hw Hg Hf Hn Hst []. split; rewrite ?Hcl, ?Htc; try done.
  - rewrite app_assoc. by apply incoming_concat.
  - apply Forall_app in co_requests as [Hq ?]. apply Forall_app. split; [|done].
    apply Forall_forall. intros f Hf'. by apply (proj1 (Forall_forall _ _) Hq), Hf.
  - by apply Forall_app.
  - intros t. specialize (Hn t). specialize (co_count t).
    assert (believed s' t = believed s t) as -> by (unfold believed, processOf; by rewrite Hcl).
    rewrite framesOf_app, startsOf_app in *. lia.
  - intros t. unfold processOf. rewrite Hcl. apply co_started.
Qed.

Lemma serverState_insert token p s t :
  serverState (on_serverProcesses (insert token p) s) t =
    if decide (token = t) then process_state p else serverState s t.
Proof.
  unfold serverState. simpl. case_decide as Ht; [subst t; by rewrite lookup_insert_eq|].
  by rewrite lookup_insert_ne.
Qed.

Lemma serverState_alter token g s t :
  serverState (on_serverProcesses (alter g token) s) t =
    if decide (token = t)
    then match m_processes (server s) !! t with Some p => process_state (g p) | None => NotRunning end
    else serverState s t.
Proof.
  unfold serverState. simpl. case_decide as Ht; [|by rewrite lookup_alter_ne].
  subst t. rewrite lookup_alter_eq. by destruct (_ !! token).
Qed.

Lemma runs_state s s' t : serverState s' t = serverState s t → runs s' t = runs s t.
Proof. unfold runs. by intros ->. Qed.

Lemma running_process s token :
  serverState s token ≠ NotRunning → ∃ p, m_processes (server s) !! token = Some p ∧ process_state p = serverState s token.
Proof. unfold serverState. destruct (_ !! token) as [p|]; [by exists p|done]. Qed.

Lemma stopping_running p : process_state p ≠ NotRunning → stopping p.
Proof. by intros ? ?. Qed.

(** What a step of the server does not change. *)
Definition serverStep (s s' : Launcher) : Prop :=
  client s' = client s ∧ failures s' = failures s ∧ toServer s' = toServer s ∧
  serving (server s') = serving (server s) ∧
  server_packetParser (server s') = server_packetParser (server s) ∧
  server_bytes (server s') = server_bytes (server s).

(** The frames [gs] have been written to qbs. *)
Definition written (gs : list Frame) (s s' : Launcher) : Prop :=
  toClient s' = toClient s ++ concat (map encode gs).

Lemma written_nil s s' : toClient s' = toClient s → written [] s s'.
Proof. intros H. unfold written. by rewrite H, app_nil_r. Qed.

Lemma written_silent gs ds s s' :
  written gs s s' → (toClient s = [] → ds = []) → toClient s' = [] → ds ++ gs = [].
Proof.
  unfold written. intros -> Hd [H1 H2]%app_eq_nil. by rewrite Hd, (encode_concat_nil gs).
Qed.

(** The server's processes change and it reports what has ended. *)
Lemma connected_step fs rs ds gs s s' :
  connected [] fs rs ds s → serverStep s s' → written gs s s' →
  Forall wf_frame gs → Forall isReport gs →
  (∀ t, runs s' t + framesOf t gs = runs s t) →
  (∀ t p, m_processes (server s') !! t = Some p → stopping p) →
  connected [] fs rs (ds ++ gs) s'.
Proof.
  intros Hc (Hcl & _ & Hts & Hsv & Hp & Hb) Hw Hg Hr Hn Hst.
  apply (connected_server [] fs fs rs ds gs s s'); try done.
  - rewrite Hsv. apply Hc.
  - rewrite Hp, Hb, Hts. apply Hc.
  - intros t. specialize (Hn t). lia.
Qed.

Lemma stopping_insert token p s :
  stopping p → (∀ t q, m_processes (server s) !! t = Some q → stopping q) →
  ∀ t q, m_processes (server (on_serverProcesses (insert token p) s)) !! t = Some q → stopping q.
Proof.
  intros Hp Hs t q. simpl. destruct (decide (token = t)) as [->|Hne].
  - rewrite lookup_insert_eq. by intros [= <-].
  - rewrite lookup_insert_ne by done. apply Hs.
Qed.

Lemma framesOf_single t f : framesOf t [f] = if decide (frameToken f = t) then 1 else 0.
Proof. rewrite framesOf_cons. case_bool_decide; case_decide; done. Qed.

(** [cancelProcess], of a process that runs: it is signalled, or forgotten and reported. *)
Lemma cancelProcess_ok fs rs ds s token out err :
  connected [] fs rs ds s → serverState s token ≠ NotRunning →
  reportable token Crashed [] (-1) CrashExit err out →
  let s' := cancelProcess token out err s in
  serverStep s s' ∧ ∃ gs, written gs s s' ∧ connected [] fs rs (ds ++ gs) s'.
Proof.
  intros Hc Hrun [Hwp Hwf]. unfold cancelProcess.
  destruct (running_process s token Hrun) as (p & Hp & Hps). rewrite Hp.
  assert (process_state p ≠ NotRunning) as Hr by by rewrite Hps.
  assert (∀ x, let s' := on_serverProcesses (insert token (mkProcess (process_state p) x true)) s in
    serverStep s s' ∧ ∃ gs, written gs s s' ∧ connected [] fs rs (ds ++ gs) s') as Hsig.
  { intros x s'. split; [done|]. exists []. split; [by apply written_nil|].
    apply (connected_step fs rs ds [] s s'); try done; [by apply written_nil|..].
    - intros t. unfold framesOf. simpl. rewrite Nat.add_0_r. apply runs_state.
      unfold s'. rewrite serverState_insert. case_decide as Ht; [subst t; done|done].
    - apply stopping_insert; [by apply stopping_running|apply Hc]. }
  destruct (m_stopState p); [apply Hsig..|]. cbv zeta. split; [done|].
  set (rep := ProcessFinishedPacket [] out err CrashExit Crashed (-1)).
  exists [frameOf token rep]. unfold handleStopFailure. split.
  { unfold written. simpl. rewrite app_nil_r. by rewrite (serialize_encode token rep). }
  apply (connected_step fs rs ds _ s); try done.
  - unfold written. simpl. rewrite app_nil_r. by rewrite (serialize_encode token rep).
  - by constructor.
  - constructor; [by right|done].
  - intros t. rewrite framesOf_single. simpl. unfold runs. unfold serverState at 1. simpl.
    case_decide as Ht.
    + subst t. rewrite lookup_delete_eq. by destruct (serverState s token).
    + rewrite lookup_delete_ne, lookup_insert_ne, Nat.add_0_r by done. done.
  - intros t q. simpl. destruct (decide (token = t)) as [->|Hne]; [by rewrite lookup_delete_eq|].
    rewrite lookup_delete_ne, lookup_insert_ne by done. apply Hc.
Qed.

(** ** Requests arrive *)

Lemma handleStopPacket_ok fs rs ds s token out err :
  connected [] fs rs ds s → reportable token Crashed [] (-1) CrashExit err out →
  let s' := handleStopPacket token out err s in
  serverStep s s' ∧ ∃ gs, written gs s s' ∧ connected [] fs rs (ds ++ gs) s'.
Proof.
  intros Hc Hrep. unfold handleStopPacket. destruct (_ !! token) as [p|] eqn:E.
  1: destruct (process_state p) eqn:Hps.
  2, 3: apply cancelProcess_ok; try done; unfold serverState; by rewrite E, Hps.
  all: (split; [done|]); exists []; rewrite app_nil_r; (split; [by apply written_nil|done]).
Qed.

Lemma handleStartPacket_ok fs s f :
  runs s (frameToken f) = 0 → frameType f = packetTypeCode StartProcess →
  (∀ t p, m_processes (server s) !! t = Some p → stopping p) →
  let s' := handleStartPacket (frameToken f) s in
  serverStep s s' ∧ written [] s s' ∧
  (∀ t, startsOf t fs + runs s' t = startsOf t (f :: fs) + runs s t) ∧
  (∀ t p, m_processes (server s') !! t = Some p → stopping p).
Proof.
  intros Hr Ht Hst. unfold handleStartPacket. set (p := default setupProcess _).
  assert (process_state p = NotRunning) as Hp.
  { unfold runs, serverState in Hr. unfold p. destruct (_ !! frameToken f) as [q|]; [|done].
    simpl. by destruct (process_state q). }
  rewrite Hp. cbv zeta. split; [done|]. split; [by apply written_nil|]. split.
  - intros t. rewrite startsOf_cons. unfold runs. rewrite !serverState_insert. simpl.
    unfold runs in Hr. case_decide as Htk.
    + subst t. rewrite bool_decide_eq_true_2 by done. rewrite Hr. lia.
    + rewrite bool_decide_eq_false_2 by (by intros [_ ?]). done.
  - apply stopping_insert; [by apply stopping_running|]. simpl.
    intros t q. destruct (decide (frameToken f = t)) as [<-|Hne].
    + rewrite lookup_insert_eq. intros [= <-]. unfold p.
      destruct (m_processes (server s) !! frameToken f) as [q|] eqn:E; [by apply (Hst _ _ E)|].
      intros [H|H]; done.
    + rewrite lookup_insert_ne by done. apply Hst.
Qed.

Definition reportable_all (w : Z → str * str) : Prop :=
  ∀ token, fits UInt64 token = true → reportable token Crashed [] (-1) CrashExit (w token).2 (w token).1.

(** The first request is taken from the stream. *)
Lemma connected_taken fs rs ds s f p' b' :
  connected [] (f :: fs) rs ds s → incoming p' (b' ++ toServer s) fs →
  frameType f ≠ packetTypeCode StartProcess →
  connected [] fs rs ds (on_serverInput (λ _, (p', b')) s).
Proof.
  intros Hc I Ht. rewrite <-(app_nil_r ds).
  apply (connected_server [] (f :: fs) fs rs ds [] s); try done.
  - apply Hc.
  - simpl. by rewrite app_nil_r.
  - intros g Hg. by right.
  - intros t. rewrite startsOf_cons, bool_decide_eq_false_2 by (by intros [? _]).
    unfold framesOf. simpl. change (runs (on_serverInput _ _) t) with (runs s t). lia.
  - apply Hc.
Qed.

Lemma connected_startTaken fs rs ds s f p' b' :
  connected [] (f :: fs) rs ds s → incoming p' (b' ++ toServer s) fs →
  frameType f = packetTypeCode StartProcess →
  let s1 := on_serverInput (λ _, (p', b')) s in
  let s' := handleStartPacket (frameToken f) s1 in
  serverStep s1 s' ∧ written [] s1 s' ∧ connected [] fs rs ds s'.
Proof.
  intros Hc I Ht s1 s'.
  assert (runs s1 (frameToken f) = 0) as Hr.
  { change (runs s (frameToken f) = 0). pose proof (co_count _ _ _ _ _ Hc (frameToken f)) as Hn.
    simpl in Hn. rewrite startsOf_cons, bool_decide_eq_true_2 in Hn by done.
    pose proof (believed_le s (frameToken f)). lia. }
  destruct (handleStartPacket_ok fs s1 f Hr Ht (co_stopping _ _ _ _ _ Hc)) as (Hs & Hw & Hn & Hst).
  split; [done|]. split; [done|]. rewrite <-(app_nil_r ds).
  pose proof Hs as (Hcl & _ & Hts & Hsv & Hp & Hb).
  apply (connected_server [] (f :: fs) fs rs ds [] s s'); try done.
  - unfold s'. rewrite Hsv. apply Hc.
  - unfold s'. rewrite Hp, Hb, Hts. done.
  - intros g Hg. by right.
  - intros t. specialize (Hn t). change (runs s1 t) with (runs s t) in Hn.
    unfold framesOf. simpl. fold s1 s' in Hn. lia.
Qed.

Lemma handleSocketData_ok fuel w fs rs ds s :
  connected [] fs rs ds s → reportable_all w → length (server_bytes (server s)) < fuel →
  let s' := handleSocketData fuel w s in
  client s' = client s ∧ failures s' = failures s ∧ toServer s' = toServer s ∧
  ∃ fs' gs, written gs s s' ∧ connected [] fs' rs (ds ++ gs) s' ∧ (toServer s = [] → fs' = []).
Proof.
  intros Hc Hw. revert fs ds s Hc. induction fuel as [|fuel IH]; intros fs ds s Hc Hf; [lia|].
  cbn [handleSocketData]. pose proof (co_up _ _ _ _ _ Hc) as I.
  pose proof (parse_incoming _ _ _ _ I) as Hp. destruct I as [Hwf _].
  destruct (parse _ _) as [[[|]|x] [p' b']]; [| |done].
  - destruct Hp as (f & fs' & -> & Hpar & I & Hl). cbn [fst]. set (s1 := on_serverInput (λ _, (p', b')) s).
    assert (m_type p' = frameType f ∧ m_token p' = frameToken f) as [Hty Htk]
      by (unfold parsed in Hpar; by subst f).
    rewrite Hty, Htk. apply Forall_cons in Hwf as [(_ & Hfit & _) _].
    assert (∀ gs s2, serverStep s1 s2 → written gs s1 s2 → connected [] fs' rs (ds ++ gs) s2 →
      let s' := handleSocketData fuel w s2 in
      client s' = client s ∧ failures s' = failures s ∧ toServer s' = toServer s ∧
      ∃ fs' gs, written gs s s' ∧ connected [] fs' rs (ds ++ gs) s' ∧ (toServer s = [] → fs' = [])) as Hrest.
    { intros gs s2 (H1 & H2 & H3 & _ & _ & H4) Hws Hc2.
      destruct (IH fs' (ds ++ gs) s2 Hc2) as (G1 & G2 & G3 & fs2 & gs2 & Hw2 & Hc' & Ht');
        [rewrite H4; simpl; lia|].
      split; [by rewrite G1, H1|]. split; [by rewrite G2, H2|]. split; [by rewrite G3, H3|].
      exists fs2, (gs ++ gs2). rewrite H3 in Ht'. split; [|by rewrite app_assoc].
      unfold written in *. rewrite Hw2, Hws, map_app, concat_app, app_assoc. done. }
    pose proof (co_requests _ _ _ _ _ Hc) as [Hr _]%Forall_cons. destruct Hr as [Hr|Hr].
    + destruct (connected_startTaken fs' rs ds s f p' b' Hc I Hr) as (Hs & Hws & Hc2).
      rewrite Hr. simpl. apply (Hrest []); [done..|]. by rewrite app_nil_r.
    + rewrite Hr. simpl.
      destruct (handleStopPacket_ok fs' rs ds s1 (frameToken f) (w (frameToken f)).1 (w (frameToken f)).2)
        as (Hs & gs & Hws & Hc2); [|by apply Hw|by apply (Hrest gs)].
      apply (connected_taken _ _ _ _ f); [done..|]. by rewrite Hr.
  - destruct Hp as [I Hr]. split_and!; try done. exists fs, []. rewrite app_nil_r.
    split; [by apply written_nil|]. split; [|done]. rewrite <-(app_nil_r ds).
    apply (connected_server [] fs fs rs ds [] s); try done; try apply Hc.
    simpl. by rewrite app_nil_r.
Qed.

(** ** The events of the server *)

Lemma cancelProcess_client token out err s : client (cancelProcess token out err s) = client s.
Proof. unfold cancelProcess. destruct (_ !! token) as [p|]; [|done]. by destruct (m_stopState p). Qed.

Lemma handleSocketData_client fuel w s : client (handleSocketData fuel w s) = client s.
Proof.
  revert s. induction fuel as [|fuel IH]; intros s; [done|]. cbn [handleSocketData].
  destruct (parse _ _) as [[[|]|x] pb]; destruct pb as [p b]; [|done..].
  destruct (m_type (p, b).1 =? packetTypeCode StartProcess)%Z.
  { rewrite IH. unfold handleStartPacket. by destruct (process_state _). }
  destruct (m_type (p, b).1 =? packetTypeCode StopProcess)%Z.
  { rewrite IH. unfold handleStopPacket. destruct (_ !! _) as [q|]; [|done].
    destruct (process_state q); [done|by rewrite cancelProcess_client..]. }
  by destruct (_ =? _)%Z.
Qed.

(** After an event of the server qbs has not changed, and when it is connected the two
    still agree. *)
Lemma serverEvent_ok s s' :
  launcher_ok s → client s' = client s →
  (∀ fs rs ds, connected [] fs rs ds s → (toServer s = [] → fs = []) →
    failures s' = failures s ∧
    ∃ fs' gs, written gs s s' ∧ connected [] fs' rs (ds ++ gs) s' ∧ (toServer s' = [] → fs' = [])) →
  launcher_ok s' ∧ (m_socket (client s) = true → failures s' = failures s).
Proof.
  intros Hok Hcl Hc. split; [split|].
  - intros t p. rewrite Hcl. apply Hok.
  - rewrite Hcl. intros E. destruct (lo_connected _ Hok E) as (fs & rs & ds & Hco & Hup & Hdn).
    destruct (Hc fs rs ds Hco Hup) as (_ & fs' & gs & Hw & Hco' & Hup').
    exists fs', rs, (ds ++ gs). split; [done|]. split; [done|]. by apply (written_silent gs ds s).
  - rewrite Hcl. intros E t. unfold processOf. rewrite Hcl. by apply (lo_unconnected _ Hok E).
  - intros E. destruct (lo_connected _ Hok E) as (fs & rs & ds & Hco & Hup & Hdn).
    by apply (Hc fs rs ds Hco Hup).
Qed.

Lemma serverStep_ok s s' :
  launcher_ok s → serverStep s s' →
  (∀ fs rs ds, connected [] fs rs ds s → ∃ gs, written gs s s' ∧ connected [] fs rs (ds ++ gs) s') →
  launcher_ok s' ∧ (m_socket (client s) = true → failures s' = failures s).
Proof.
  intros Hok Hs Hc. pose proof Hs as (Hcl & Hf & Hts & _). apply serverEvent_ok; [done..|].
  intros fs rs ds Hco Hup. split; [done|]. destruct (Hc fs rs ds Hco) as (gs & Hw & Hco').
  exists fs, gs. by rewrite Hts.
Qed.

(** A process that has ended is reported. *)
Lemma ended_ok token rep s :
  launcher_ok s → serverState s token ≠ NotRunning → sendable (token, rep) → isReport (frameOf token rep) →
  let s' := sendToClient token rep
              (on_serverProcesses (alter stopStopProcedure token) (setProcessState token NotRunning s)) in
  launcher_ok s' ∧ (m_socket (client s) = true → failures s' = failures s).
Proof.
  intros Hok Hrun [Hwp Hwf] Hr. apply serverStep_ok; [done..|]. intros fs rs ds Hc.
  exists [frameOf token rep].
  assert (∀ s0, written [frameOf token rep] s0 (sendToClient token rep s0)) as Hw.
  { intros s0. unfold written. simpl. rewrite app_nil_r. by rewrite (serialize_encode token rep). }
  split; [exact (Hw s)|]. apply (connected_step fs rs ds _ s); try done; [exact (Hw s)|by constructor..| |].
  - intros t. rewrite framesOf_single. simpl. unfold runs. unfold serverState at 1. simpl.
    case_decide as Ht.
    + subst t. rewrite !lookup_alter_eq. destruct (running_process s token Hrun) as (p & -> & _).
      simpl. by destruct (serverState s token).
    + by rewrite !lookup_alter_ne, Nat.add_0_r.
  - intros t q. simpl. destruct (decide (token = t)) as [->|Hne].
    + rewrite !lookup_alter_eq. destruct (_ !! t) as [p|]; [|done]. simpl. intros [= <-] [H|H]; done.
    + rewrite !lookup_alter_ne by done. apply Hc.
Qed.

Lemma processStarted_ok token s :
  launcher_ok s → enabled (EventProcessStarted token) s →
  let s' := handleEvent (EventProcessStarted token) s in
  launcher_ok s' ∧ (m_socket (client s) = true → failures s' = failures s).
Proof.
  intros Hok [_ Hst]. apply serverStep_ok; [done..|]. intros fs rs ds Hc. exists [].
  split; [by apply written_nil|]. apply (connected_step fs rs ds [] s); try done; [by apply written_nil|..].
  - intros t. unfold framesOf, runs. simpl. unfold setProcessState. rewrite serverState_alter.
    case_decide as Ht; [|lia]. subst t. rewrite Hst.
    destruct (running_process s token) as (p & -> & _); [by rewrite Hst|]. done.
  - intros t q. simpl. destruct (decide (token = t)) as [->|Hne].
    + rewrite lookup_alter_eq. destruct (_ !! t) as [p|]; [|done]. intros [= <-]. by intros _.
    + rewrite lookup_alter_ne by done. apply Hc.
Qed.

Lemma stopTimer_ok token out err s :
  launcher_ok s → enabled (EventStopTimer token out err) s →
  let s' := handleEvent (EventStopTimer token out err) s in
  launcher_ok s' ∧ (m_socket (client s) = true → failures s' = failures s).
Proof.
  intros Hok (_ & Ht & Hrep). simpl. set (s1 := on_serverProcesses _ s).
  apply fmap_Some in Ht as (p & Hp & Ht).
  apply serverEvent_ok; [done|by rewrite cancelProcess_client|]. intros fs rs ds Hc Hup.
  assert (process_state p ≠ NotRunning) as Hr by (apply (co_stopping _ _ _ _ _ Hc token p Hp); auto).
  assert (∀ t, serverState s1 t = serverState s t) as Hs1.
  { intros t. unfold s1. rewrite serverState_alter. case_decide as Htk; [|done]. subst t.
    unfold serverState. by rewrite Hp. }
  assert (connected [] fs rs ds s1) as Hc1.
  { rewrite <-(app_nil_r ds). apply (connected_step fs rs ds [] s); try done; [by apply written_nil|..].
    - intros t. unfold framesOf. simpl. rewrite Nat.add_0_r. apply runs_state, Hs1.
    - intros t q. unfold s1. simpl. destruct (decide (token = t)) as [->|Hne].
      + rewrite lookup_alter_eq, Hp. intros [= <-]. by apply stopping_running.
      + rewrite lookup_alter_ne by done. apply Hc. }
  destruct (cancelProcess_ok fs rs ds s1 token out err Hc1) as (Hs & gs & Hw & Hc2); [|done|].
  { rewrite Hs1. unfold serverState. by rewrite Hp. }
  destruct Hs as (_ & Hf & Hts & _). split; [done|]. exists fs, gs. split; [done|]. by rewrite Hts.
Qed.

Lemma serverData_ok n w s :
  launcher_ok s → enabled (EventServerData n w) s →
  let s' := handleEvent (EventServerData n w) s in
  launcher_ok s' ∧ (m_socket (client s) = true → failures s' = failures s).
Proof.
  intros Hok (_ & _ & Hw). cbn [handleEvent]. set (s1 := on_serverInput _ _).
  apply serverEvent_ok; [done|by rewrite handleSocketData_client|]. intros fs rs ds Hc Hup.
  assert (connected [] fs rs ds s1) as Hc1.
  { destruct Hc. split; try done. simpl. by rewrite <-app_assoc, take_drop. }
  destruct (handleSocketData_ok (S (length (server_bytes (server s1)))) w fs rs ds s1 Hc1 Hw)
    as (_ & Hf & Hts & fs' & gs & Hws & Hc' & Ht); [lia|].
  split; [done|]. exists fs', gs. split; [done|]. split; [done|]. by rewrite Hts.
Qed.

Lemma clientData_ok n s :
  launcher_ok s → enabled (EventClientData n) s →
  let s' := handleEvent (EventClientData n) s in
  launcher_ok s' ∧ failures s' = failures s ∧ m_socket (client s') = true ∧
  server s' = server s ∧ m_requests (client s') = m_requests (client s) ∧
  toServer s' = toServer s ∧ toClient s' = drop n (toClient s).
Proof.
  intros Hok [Hs _]. cbn [handleEvent]. set (s1 := on_clientInput _ _).
  destruct (lo_connected _ Hok Hs) as (fs & rs & ds & Hc & Hup & Hdn).
  assert (connected [] fs rs ds s1) as Hc1.
  { destruct Hc. split; try done. simpl. by rewrite <-app_assoc, take_drop. }
  destruct (handleSocketDataAvailable_ok (S (length (client_bytes (client s1)))) fs rs ds s1)
    as (Hf & Hsp & Hsv & Hso & Hrq & Hts & Htc & ds' & Hc' & Hd); [apply Hok|done|lia|].
  set (s' := handleSocketDataAvailable _ s1) in *.
  assert (m_socket (client s') = true) as Hs' by (rewrite Hso; apply Hs).
  split_and!; try done. split; [done| |by rewrite Hs'].
  intros _. exists fs, rs, ds'. rewrite Hts, Htc. done.
Qed.

(** ** The reachable states *)

Lemma shutdown_ok s :
  launcher_ok s → enabled EventShutdown s →
  launcher_ok (shutdown s) ∧ (m_socket (client s) = true → failures (shutdown s) = failures s).
Proof.
  intros Hok He. unfold shutdown. destruct (negb (isReady s)); [done|]. split; [|done].
  split; [apply Hok|done|]. intros _ t. change (m_state (processOf s t) ≠ Running). by rewrite (He t).
Qed.

Lemma event_ok ev s :
  launcher_ok s → enabled ev s →
  launcher_ok (handleEvent ev s) ∧ (m_socket (client s) = true → failures (handleEvent ev s) = failures s).
Proof.
  intros Hok He. destruct ev as [token env dir|token command arguments|token| | |n|msg| |n w|token
    |token error errorString|token error errorString exitCode exitStatus err out|token out err|].
  - split; [by apply newProcess_ok|done].
  - destruct (start_ok token command arguments s Hok He). done.
  - destruct (cancel_ok token s Hok He). done.
  - split; [by apply setSocket_ok|]. destruct He as [-> _]. done.
  - by apply handleRequests_ok.
  - destruct (clientData_ok n s Hok He) as (? & ? & _). done.
  - destruct (handleError_ok msg s Hok). done.
  - by apply shutdown_ok.
  - by apply serverData_ok.
  - by apply processStarted_ok.
  - destruct He as (_ & Hst & Hsd). cbn [handleEvent]. unfold handleProcessError.
    destruct (Z.eqb_spec error FailedToStart) as [->|Hne]; cbn [negb]; [|done].
    apply ended_ok; [done|by rewrite Hst|done|by left].
  - destruct He as (_ & Hst & Hsd). apply ended_ok; [done|by rewrite Hst|done|by right].
  - by apply stopTimer_ok.
  - destruct He as [Hs _]. split; [|by rewrite Hs].
    split; [apply Hok|cbn; by rewrite Hs|]. intros _. by apply (lo_unconnected _ Hok).
Qed.

Lemma reachable_ok s : reachable s → launcher_ok s.
Proof.
  induction 1 as [|ev s _ IH He|s _ IH Hs].
  - by split.
  - by apply event_ok.
  - split; [apply IH|done|]. intros _. by apply (lo_unconnected _ IH).
Qed.


(** What qbs waits for: the timer of [handleRequests], data that arrives, and a process
    that starts and finishes. *)
Definition awaited (ev : Event) : bool :=
  match ev with
  | EventRequests | EventClientData _ | EventServerData _ _ | EventProcessStarted _
  | EventProcessFinished _ _ _ _ _ _ _ => true
  | _ => false
  end.

Fixpoint runEvents (evs : list Event) (s : Launcher) : Launcher :=
  match evs with [] => s | ev :: evs => runEvents evs (handleEvent ev s) end.

Fixpoint allEnabled (evs : list Event) (s : Launcher) : Prop :=
  match evs with [] => True | ev :: evs => enabled ev s ∧ allEnabled evs (handleEvent ev s) end.

(** [evs] are awaited and happen one after the other. *)
Definition awaitedRun (evs : list Event) (s s' : Launcher) : Prop :=
  forallb awaited evs = true ∧ allEnabled evs s ∧ runEvents evs s = s'.

Lemma awaitedRun_app evs evs' s s1 s2 :
  awaitedRun evs s s1 → awaitedRun evs' s1 s2 → awaitedRun (evs ++ evs') s s2.
Proof.
  intros (H1 & H2 & <-) (H3 & H4 & <-). split; [by rewrite forallb_app, H1, H3|]. clear H1 H3.
  revert s H2 H4. induction evs as [|ev evs IH]; intros s; simpl; [done|].
  intros [? H2] H4. destruct (IH _ H2 H4). done.
Qed.

Lemma awaitedRun_single ev s : awaited ev = true → enabled ev s → awaitedRun [ev] s (handleEvent ev s).
Proof. intros Ha He. split; [simpl; by rewrite Ha|]. done. Qed.

Lemma awaitedRun_nil s : awaitedRun [] s s.
Proof. done. Qed.

(** The waiting requests are sent. *)
Lemma run_requests s :
  launcher_ok s → m_socket (client s) = true →
  ∃ evs s', awaitedRun evs s s' ∧ launcher_ok s' ∧ m_socket (client s') = true ∧
    m_requests (client s') = [] ∧ processes (client s') = processes (client s).
Proof.
  intros Hok Hs. destruct (m_requests (client s)) as [|r l] eqn:E.
  - exists [], s. split; [apply awaitedRun_nil|done].
  - destruct (lo_connected _ Hok Hs) as (fs & rs & ds & Hc & _).
    assert (enabled EventRequests s) as He by (apply (co_posted _ _ _ _ _ Hc); by rewrite E).
    exists [EventRequests], (handleEvent EventRequests s).
    split; [by apply awaitedRun_single|]. split; [by apply event_ok|].
    cbn [handleEvent]. unfold handleRequests, isReady. simpl. by rewrite Hs.
Qed.

(** The reports of processes that have written nothing are not too large. *)
Definition emptyReports : Prop := ∀ token, fits UInt64 token = true →
  reportable token UnknownError [] 0 0 [] [] ∧ reportable token Crashed [] (-1) CrashExit [] [].

(** The server reads all requests. *)
Lemma run_server s :
  emptyReports → launcher_ok s → m_socket (client s) = true →
  ∃ evs s', awaitedRun evs s s' ∧ launcher_ok s' ∧ client s' = client s ∧ toServer s' = [].
Proof.
  intros Hrep Hok Hs. destruct (lo_connected _ Hok Hs) as (fs & rs & ds & Hc & _).
  destruct (decide (toServer s = [])) as [E|E].
  { exists [], s. by split; [apply awaitedRun_nil|]. }
  set (ev := EventServerData (length (toServer s)) (λ _, ([], []))).
  assert (reportable_all (λ _, ([], []))) as Hw by (intros t Ht; by apply Hrep).
  assert (enabled ev s) as He.
  { split; [apply Hc|]. split; [|done]. split; [|done]. by destruct (toServer s); [|simpl; lia]. }
  exists [ev], (handleEvent ev s). split; [by apply awaitedRun_single|].
  split; [by apply event_ok|]. unfold ev. cbn [handleEvent]. set (s1 := on_serverInput _ _).
  assert (connected [] fs rs ds s1) as Hc1.
  { destruct Hc. split; try done. simpl. by rewrite <-app_assoc, take_drop. }
  destruct (handleSocketData_ok (S (length (server_bytes (server s1)))) _ fs rs ds s1 Hc1 Hw)
    as (-> & _ & -> & _); [lia|]. split; [done|]. simpl. by rewrite drop_all.
Qed.

(** The process of the server, if there is one, ends. *)
Lemma run_process s token :
  emptyReports → fits UInt64 token = true → launcher_ok s → m_socket (client s) = true →
  ∃ evs s', awaitedRun evs s s' ∧ launcher_ok s' ∧ client s' = client s ∧
    toServer s' = toServer s ∧ serverState s' token = NotRunning.
Proof.
  intros Hrep Hfit Hok Hs.
  assert (∀ s, launcher_ok s → m_socket (client s) = true → serving (server s) = true) as Hsv.
  { intros s0 Hok0 Hs0. destruct (lo_connected _ Hok0 Hs0) as (? & ? & ? & Hc & _). apply Hc. }
  assert (∀ s, launcher_ok s → m_socket (client s) = true → serverState s token = Running →
    ∃ evs s', awaitedRun evs s s' ∧ launcher_ok s' ∧ client s' = client s ∧
      toServer s' = toServer s ∧ serverState s' token = NotRunning) as Hfin.
  { clear s Hok Hs. intros s Hok Hs Hst.
    set (ev := EventProcessFinished token UnknownError [] 0 0 [] []).
    assert (enabled ev s) as He by (split; [by apply Hsv|]; split; [done|by apply Hrep]).
    exists [ev], (handleEvent ev s). split; [by apply awaitedRun_single|].
    split; [by apply event_ok|]. split; [done|]. split; [done|].
    unfold serverState. simpl. rewrite !lookup_alter_eq. by destruct (_ !! token). }
  destruct (serverState s token) eqn:Hst; [| |by apply Hfin].
  { exists [], s. by split; [apply awaitedRun_nil|]. }
  assert (enabled (EventProcessStarted token) s) as He by (split; [by apply Hsv|done]).
  pose proof (awaitedRun_single (EventProcessStarted token) s eq_refl He) as Hrun. destruct (event_ok _ s Hok He) as [Hok1 _].
  set (s1 := handleEvent (EventProcessStarted token) s) in *.
  destruct (Hfin s1 Hok1 Hs) as (evs & s2 & Hr2 & Hok2 & Hcl & Hts & Hst2).
  { destruct (running_process s token) as (p & Hp & _); [by rewrite Hst|].
    unfold serverState. simpl. by rewrite lookup_alter_eq, Hp. }
  exists ([EventProcessStarted token] ++ evs), s2. split; [by eapply awaitedRun_app|]. done.
Qed.

(** qbs reads all reports. *)
Lemma run_client s :
  launcher_ok s → m_socket (client s) = true →
  ∃ evs s', awaitedRun evs s s' ∧ launcher_ok s' ∧ m_socket (client s') = true ∧
    server s' = server s ∧ m_requests (client s') = m_requests (client s) ∧
    toServer s' = toServer s ∧ toClient s' = [].
Proof.
  intros Hok Hs. destruct (decide (toClient s = [])) as [E|E].
  { exists [], s. by split; [apply awaitedRun_nil|]. }
  set (ev := EventClientData (length (toClient s))).
  assert (enabled ev s) as He.
  { split; [done|]. split; [|done]. by destruct (toClient s); [|simpl; lia]. }
  destruct (clientData_ok _ s Hok He) as (Hok' & _ & Hs' & Hsv & Hrq & Hts & Htc).
  exists [ev], (handleEvent ev s). split; [by apply awaitedRun_single|].
  rewrite drop_all in Htc. done.
Qed.

(** Nothing goes wrong meanwhile. *)
Lemma run_failures evs s s' :
  awaitedRun evs s s' → launcher_ok s → m_socket (client s) = true → failures s' = failures s.
Proof.
  intros (Ha & He & <-). revert s Ha He. induction evs as [|ev evs IH]; intros s; [done|].
  cbn [forallb allEnabled runEvents]. intros [Ha Ha']%andb_prop [He He'] Hok Hs.
  destruct (event_ok ev s Hok He) as [Hok' Hf]. rewrite <-Hf by done.
  apply IH; try done. destruct ev; try done.
  - cbn [handleEvent]. unfold handleRequests, isReady. simpl. by rewrite Hs.
  - by destruct (clientData_ok n s Hok He) as (_ & _ & ? & _).
  - cbn [handleEvent]. by rewrite handleSocketData_client.
Qed.


End Invariant.

Module Example.
#[local] Existing Instances BigEndian.stream BigEndian.stream_laws.

(** A compiler is started while the connection is made, and is known to the server when
    part of the request has arrived. *)
Definition events : list Event :=
  [EventNewProcess 7 [] (lit "/tmp"); EventStart 7 (lit "cc") [lit "-c"; lit "a.c"]; EventConnected;
   EventRequests; EventServerData 11 (λ _, ([], []))].
Definition state : Launcher := runEvents events initial.

Lemma reachable_events evs s : reachable s → allEnabled evs s → reachable (runEvents evs s).
Proof.
  revert s. induction evs as [|ev evs IH]; intros s Hs; [done|]. intros [He H].
  apply IH; [by apply reachable_event|done].
Qed.

Lemma emptyReports_BigEndian : emptyReports.
Proof.
  intros token Hf. split; (split; [reflexivity|]); (split; [reflexivity|]); (split; [exact Hf|]); vm_compute; reflexivity.
Qed.

Lemma events_enabled : allEnabled events initial.
Proof.
  unfold events. cbn [allEnabled].
  split; [split; [reflexivity|repeat split; vm_compute; reflexivity]|].
  split; [eexists; repeat split; vm_compute; reflexivity|].
  split; [repeat split; vm_compute; reflexivity|].
  split; [apply Nat.ltb_lt; vm_compute; reflexivity|].
  split; [|exact I]. split; [vm_compute; reflexivity|]. split; [|intros t Ht; by apply emptyReports_BigEndian].
  split; [lia|]. apply Nat.leb_le. vm_compute. reflexivity.
Qed.

Lemma state_reachable : reachable state.
Proof. apply reachable_events; [constructor|exact events_enabled]. Qed.



(** What happens when the socket is lost before the requests are sent: the timer of
    [handleRequests] finds no socket, which the code asserts never to be the case, and
    the requests stay. *)
Lemma requests_without_socket :
  let s := runEvents [EventNewProcess 7 [] []; EventConnected; EventStart 7 (lit "cc") [];
                      EventDisconnected (lit "broken pipe"); EventRequests] initial in
  failures s = [AssertFailed] ∧ length (m_requests (client s)) = 1.
Proof. vm_compute. split; reflexivity. Qed.

(** A process that is created after the socket was lost does not know about the error:
    it is left in the state [Starting] without any signal. *)
Lemma started_after_socket_error :
  let s := runEvents [EventConnected; EventDisconnected (lit "broken pipe"); EventNewProcess 7 [] [];
                      EventStart 7 (lit "cc") []] initial in
  m_state (processOf s 7) = Starting ∧ signals (client s) = [] ∧ m_socket (client s) = false.
Proof. vm_compute. repeat split; reflexivity. Qed.
End Example.
