(* ===== verification/Persistence.v ===== *)
(** * Storing and loading of objects ([tools/persistence.h], [tools/persistence.cpp])

    [PersistentPool] writes the objects of a project to a file and creates them again
    from it.  What the templates [PPHelper] do for a type is a function of a value that
    describes the type; the members of a class in the order of its [serializationOp] are
    such a description, too.  An object that is pointed to is written once, where it is
    first met, and has an id from then on; the same holds for strings, lists of strings
    and environments. *)

From S2P Require Import Prelude StateMonad DataStream.
#[local] Set Warnings "-register-all".

Definition Addr := Z.

(** [QVariant]; the last case is for all types that only Qt knows. *)
Inductive QVariant (Variant : Type) :=
  | VString (s : str)
  | VStringList (l : list str)
  | VList (l : list (QVariant Variant))
  | VMap (l : list (str * QVariant Variant))
  | VOther (v : Variant).
Arguments VString {_}. Arguments VStringList {_}. Arguments VList {_}.
Arguments VMap {_}. Arguments VOther {_}.

(** [QMetaType::Type] *)
Definition typeVariantMap : Z := 8.
Definition typeVariantList : Z := 9.
Definition typeString : Z := 10.
Definition typeStringList : Z := 11.

(** [BuildGraphNode::Type] *)
Inductive NodeType := ArtifactNodeType | RuleNodeType.
Definition nodeTypeCode (t : NodeType) : Z := match t with ArtifactNodeType => 0 | RuleNodeType => 1 end.

(** ** Types

    The types for which there is a [PPHelper].  Enumerations and flags are integers,
    pairs, tuples and the lists of members are nested pairs; all keys are strings.  A
    pointer is a shared one, or a raw or unique one, depending on its class. *)
Inductive SType (Class : Type) :=
  | SInt (t : IntType)
  | SString
  | SStringList
  | SEnvironment
  | SVariant
  | SFileTag
  | SUnit
  | SPair (t u : SType Class)
  | SContainer (t : SType Class)
  | SKeyValue (t : SType Class)
  | SUnorderedMap (t : SType Class)
  | SSet (t : SType Class)
  | SPointer (c : Class)
  | SNodePointer.
Arguments SInt {_}. Arguments SString {_}. Arguments SStringList {_}. Arguments SEnvironment {_}.
Arguments SVariant {_}. Arguments SFileTag {_}. Arguments SUnit {_}. Arguments SPair {_}.
Arguments SContainer {_}. Arguments SKeyValue {_}. Arguments SUnorderedMap {_}. Arguments SSet {_}.
Arguments SPointer {_}. Arguments SNodePointer {_}.

(** The values of a type; a [FileTag] is its name. *)
Fixpoint denote {Class : Type} (Variant : Type) (t : SType Class) : Type :=
  match t with
  | SInt _ => Z
  | SString | SFileTag => str
  | SStringList => list str
  | SEnvironment => gmap str str
  | SVariant => QVariant Variant
  | SUnit => unit
  | SPair t u => denote Variant t * denote Variant u
  | SContainer t | SSet t => list (denote Variant t)
  | SKeyValue t | SUnorderedMap t => gmap str (denote Variant t)
  | SPointer _ => option Addr
  | SNodePointer => NodeType * Addr
  end.

(** [helper::SortAfterLoad] and its specialisation for [FileTag] *)
Definition sortAfterLoadRequired {Class} (t : SType Class) : bool :=
  match t with SPointer _ | SNodePointer | SFileTag => true | _ => false end.

(** ** The pool *)

(** The members for one type of values that are written once: [idMap], [lastStoredId]
    and [idStorage]. *)
Record Storage (T : Type) `{Countable T} := mkStorage {
  idMap : gmap T Z;
  lastStoredId : Z;
  idStorage : list T
}.
Arguments mkStorage {_ _ _}. Arguments idMap {_ _ _}. Arguments lastStoredId {_ _ _}.
Arguments idStorage {_ _ _}.

(** The members of [PersistentPool].  [m_stream] is what has been written, or what is
    still to be read; [m_objects] lists the objects that have been created by loading, in
    the order in which that was finished, with what was loaded into them. *)
Record PersistentPool (Object : Type) := mkPool {
  m_stream : str;
  m_loadedRaw : list (option Addr);
  m_loaded : list (option Addr);
  m_storageIndices : gmap Addr Z;
  m_lastStoredObjectId : Z;
  m_strings : Storage str;
  m_stringLists : Storage (list str);
  m_envs : Storage (gmap str str);
  m_newAddress : Addr;
  m_objects : list (Addr * Object)
}.
Arguments mkPool {_}. Arguments m_stream {_}. Arguments m_loadedRaw {_}. Arguments m_loaded {_}.
Arguments m_storageIndices {_}. Arguments m_lastStoredObjectId {_}. Arguments m_strings {_}.
Arguments m_stringLists {_}. Arguments m_envs {_}. Arguments m_newAddress {_}. Arguments m_objects {_}.

(** What is thrown: a failed [QBS_CHECK], and the errors about the file. *)
Inductive PersistenceError :=
  | OutOfFuel
  | CheckFailed
  | NoBuildGraphError
  | CouldNotOpen
  | IncompatibleFormat (magic : str)
  | CannotCreateDirectory
  | CannotRemoveOldFile
  | CannotOpenForWriting
  | FailureSerializing.

Definition EmptyValueId : Z := -2.
Definition ValueNotFoundId : Z := -1.

Section Pool.
Context {Object : Type}.
Notation Pool := (PersistentPool Object).

Definition on_stream (f : str → str) (p : Pool) : Pool :=
  mkPool (f (m_stream p)) (m_loadedRaw p) (m_loaded p) (m_storageIndices p) (m_lastStoredObjectId p)
    (m_strings p) (m_stringLists p) (m_envs p) (m_newAddress p) (m_objects p).
Definition on_loadedRaw (f : list (option Addr) → list (option Addr)) (p : Pool) : Pool :=
  mkPool (m_stream p) (f (m_loadedRaw p)) (m_loaded p) (m_storageIndices p) (m_lastStoredObjectId p)
    (m_strings p) (m_stringLists p) (m_envs p) (m_newAddress p) (m_objects p).
Definition on_loaded (f : list (option Addr) → list (option Addr)) (p : Pool) : Pool :=
  mkPool (m_stream p) (m_loadedRaw p) (f (m_loaded p)) (m_storageIndices p) (m_lastStoredObjectId p)
    (m_strings p) (m_stringLists p) (m_envs p) (m_newAddress p) (m_objects p).
Definition on_indices (f : gmap Addr Z → gmap Addr Z) (g : Z → Z) (p : Pool) : Pool :=
  mkPool (m_stream p) (m_loadedRaw p) (m_loaded p) (f (m_storageIndices p)) (g (m_lastStoredObjectId p))
    (m_strings p) (m_stringLists p) (m_envs p) (m_newAddress p) (m_objects p).
Definition on_strings (f : Storage str → Storage str) (p : Pool) : Pool :=
  mkPool (m_stream p) (m_loadedRaw p) (m_loaded p) (m_storageIndices p) (m_lastStoredObjectId p)
    (f (m_strings p)) (m_stringLists p) (m_envs p) (m_newAddress p) (m_objects p).
Definition on_stringLists (f : Storage (list str) → Storage (list str)) (p : Pool) : Pool :=
  mkPool (m_stream p) (m_loadedRaw p) (m_loaded p) (m_storageIndices p) (m_lastStoredObjectId p)
    (m_strings p) (f (m_stringLists p)) (m_envs p) (m_newAddress p) (m_objects p).
Definition on_envs (f : Storage (gmap str str) → Storage (gmap str str)) (p : Pool) : Pool :=
  mkPool (m_stream p) (m_loadedRaw p) (m_loaded p) (m_storageIndices p) (m_lastStoredObjectId p)
    (m_strings p) (m_stringLists p) (f (m_envs p)) (m_newAddress p) (m_objects p).
Definition on_objects (f : list (Addr * Object) → list (Addr * Object)) (g : Addr → Addr) (p : Pool) : Pool :=
  mkPool (m_stream p) (m_loadedRaw p) (m_loaded p) (m_storageIndices p) (m_lastStoredObjectId p)
    (m_strings p) (m_stringLists p) (m_envs p) (g (m_newAddress p)) (f (m_objects p)).

Definition newStorage {T} `{Countable T} : Storage T := mkStorage ∅ 0%Z [].

(** A pool that has just been constructed. *)
Definition newPool : Pool :=
  mkPool [] [] [] ∅ 0%Z newStorage newStorage newStorage 0%Z [].
End Pool.

Section Persistence.
Context {Variant : Type} `{D : QDataStream Variant}.
Context (userType : Variant → Z).
Context {Class : Type} (fields : Class → SType Class) (shared : Class → bool)
  (nodeClass : NodeType → Class).
Context (lessThan : ∀ t : SType Class, denote Variant t → denote Variant t → bool).

(** An object with the values of its members. *)
Definition Object : Type := { c : Class & denote Variant (fields c) }.
Notation Pool := (PersistentPool Object).
Notation PM := (st Pool PersistenceError).

Definition write (s : str) : PM unit := modify (on_stream (λ o, o ++ s)).
Definition writeInt (t : IntType) (z : Z) : PM unit := write (putInt t z).
Definition readInt (t : IntType) : PM Z := λ p,
  let '(z, rest) := getInt t (m_stream p) in (Ok z, on_stream (λ _, rest) p).
Definition readString : PM str := λ p,
  let '(s, rest) := getString (m_stream p) in (Ok s, on_stream (λ _, rest) p).
Definition readVariant : PM Variant := λ p,
  let '(v, rest) := getVariant (m_stream p) in (Ok v, on_stream (λ _, rest) p).

(** ** Values that are written once *)

(** [idStoreValue] and [idLoadValue], for the storage that [get] and [upd] access. *)
Definition idStoreValue {T} `{Countable T} (isEmpty : T → bool) (get : Pool → Storage T)
    (upd : (Storage T → Storage T) → Pool → Pool) (doStoreValue : T → PM unit) (value : T) : PM unit :=
  if isEmpty value then writeInt Int32 EmptyValueId
  else
    id ← gets (λ p, default ValueNotFoundId (idMap (get p) !! value));
    if (id <? 0)%Z then
      id ← gets (λ p, lastStoredId (get p));
      _ ← modify (upd (λ s, mkStorage (<[value := id]> (idMap s)) (lastStoredId s + 1) (idStorage s)));
      _ ← writeInt Int32 id;
      doStoreValue value
    else writeInt Int32 id.

(** [resize] fills the vector with empty values. *)
Definition idLoadValue {T} `{Countable T} (empty : T) (get : Pool → Storage T)
    (upd : (Storage T → Storage T) → Pool → Pool) (doLoadValue : PM T) : PM T :=
  id ← readInt Int32;
  if (id =? EmptyValueId)%Z then mret empty
  else if (id <? 0)%Z then throw CheckFailed
  else
    storage ← gets (λ p, idStorage (get p));
    match storage !! Z.to_nat id with
    | None =>
        value ← doLoadValue;
        _ ← modify (upd (λ s, mkStorage (idMap s) (lastStoredId s)
              (<[Z.to_nat id := value]> (resize (S (Z.to_nat id)) empty (idStorage s)))));
        mret value
    | Some value => mret value
    end.

Fixpoint replicateM {A} (n : nat) (m : PM A) : PM (list A) :=
  match n with
  | 0 => mret []
  | S n => x ← m; l ← replicateM n m; mret (x :: l)
  end.

Definition storeString : str → PM unit :=
  idStoreValue is_nil m_strings on_strings (λ s, write (putString s)).
Definition loadString : PM str := idLoadValue [] m_strings on_strings readString.

Definition storeStringList : list str → PM unit :=
  idStoreValue is_nil m_stringLists on_stringLists
    (λ l, _ ← writeInt Int32 (Z.of_nat (length l)); forM l storeString).
Definition loadStringList : PM (list str) :=
  idLoadValue [] m_stringLists on_stringLists
    (size ← readInt Int32; replicateM (Z.to_nat size) loadString).

(** [QProcessEnvironment::keys] *)
Definition keys (env : gmap str str) : list str := (map_to_list env).*1.

Definition storeEnvironment : gmap str str → PM unit :=
  idStoreValue (λ env, bool_decide (env = ∅)) m_envs on_envs
    (λ env, _ ← storeStringList (keys env);
            forM (keys env) (λ key, storeString (default [] (env !! key)))).
Definition loadEnvironment : PM (gmap str str) :=
  idLoadValue ∅ m_envs on_envs
    (keys ← loadStringList;
     foldM (λ env key, value ← loadString; mret (<[key := value]> env)) keys ∅).

(** ** Variants *)

Definition variantType (v : QVariant Variant) : Z :=
  match v with
  | VString _ => typeString
  | VStringList _ => typeStringList
  | VList _ => typeVariantList
  | VMap _ => typeVariantMap
  | VOther v => userType v
  end.

Fixpoint storeVariant (v : QVariant Variant) : PM unit :=
  _ ← writeInt UInt32 (variantType v);
  match v with
  | VString s => storeString s
  | VStringList l => storeStringList l
  | VList l =>
      _ ← writeInt Int32 (Z.of_nat (length l));
      forM l storeVariant
  | VMap l =>
      _ ← writeInt Int32 (Z.of_nat (length l));
      forM l (λ kx, _ ← storeString kx.1; storeVariant kx.2)
  | VOther v => write (putVariant v)
  end.

(** [QMap::insert]; the order is the one of the first insertions. *)
Fixpoint mapInsert {A} (k : str) (x : A) (l : list (str * A)) : list (str * A) :=
  match l with
  | [] => [(k, x)]
  | (k', x') :: l => if bool_decide (k = k') then (k, x) :: l else (k', x') :: mapInsert k x l
  end.

(** [fuel] bounds how deep the variant is nested. *)
Fixpoint loadVariantFuel (fuel : nat) : PM (QVariant Variant) :=
  match fuel with
  | 0 => throw OutOfFuel
  | S fuel =>
      type ← readInt UInt32;
      if (type =? typeString)%Z then s ← loadString; mret (VString s)
      else if (type =? typeStringList)%Z then l ← loadStringList; mret (VStringList l)
      else if (type =? typeVariantList)%Z then
        count ← readInt Int32;
        l ← replicateM (Z.to_nat count) (loadVariantFuel fuel);
        mret (VList l)
      else if (type =? typeVariantMap)%Z then
        count ← readInt Int32;
        l ← replicateM (Z.to_nat count) (k ← loadString; x ← loadVariantFuel fuel; mret (k, x));
        mret (VMap (foldl (λ m kx, mapInsert kx.1 kx.2 m) [] l))
      else v ← readVariant; mret (VOther v)
  end.

(** Each level takes at least one byte of the stream. *)
Definition loadVariant : PM (QVariant Variant) := λ p,
  loadVariantFuel (S (length (m_stream p))) p.

(** ** Objects *)

(** [storeSharedObject]; [storeObject] stores the members of an object. *)
Definition storeSharedObject (storeObject : Class → Addr → PM unit) (c : Class) (object : option Addr) :
    PM unit :=
  match object with
  | None => writeInt Int32 (-1)
  | Some addr =>
      found ← gets (λ p, m_storageIndices p !! addr);
      match found with
      | None =>
          id ← gets m_lastStoredObjectId;
          _ ← modify (on_indices (<[addr := id]>) (λ n, n + 1)%Z);
          _ ← writeInt Int32 id;
          storeObject c addr
      | Some id => writeInt Int32 id
      end
  end.

(** [idLoad] and [idLoadS], for the vector that [get] and [upd] access; the new object is
    registered before its members are loaded. *)
Definition idLoadFrom (get : Pool → list (option Addr))
    (upd : (list (option Addr) → list (option Addr)) → Pool → Pool)
    (loadObject : ∀ c, PM (denote Variant (fields c))) (c : Class) : PM (option Addr) :=
  id ← readInt Int32;
  if (id <? 0)%Z then mret None
  else
    loaded ← gets get;
    match loaded !! Z.to_nat id with
    | Some t => mret t
    | None =>
        t ← gets m_newAddress;
        _ ← modify (on_objects (Object := Object) (λ l, l) (λ n, n + 1)%Z);
        _ ← modify (upd (λ l, <[Z.to_nat id := Some t]> (resize (S (Z.to_nat id)) None l)));
        members ← loadObject c;
        _ ← modify (on_objects (Object := Object) (λ l, l ++ [(t, existT c members)]) (λ n, n));
        mret (Some t)
    end.

Definition idLoad := idLoadFrom m_loadedRaw on_loadedRaw.
Definition idLoadS := idLoadFrom m_loaded on_loaded.

Definition loadPointer (loadObject : ∀ c, PM (denote Variant (fields c))) (c : Class) : PM (option Addr) :=
  if shared c then idLoadS loadObject c else idLoad loadObject c.

Definition loadBuildGraphNode (loadObject : ∀ c, PM (denote Variant (fields c))) : PM (NodeType * Addr) :=
  t ← readInt UInt8;
  let load nodeType :=
    node ← loadPointer loadObject (nodeClass nodeType);
    match node with Some node => mret (nodeType, node) | None => throw CheckFailed end in
  if (t =? nodeTypeCode ArtifactNodeType)%Z then load ArtifactNodeType
  else if (t =? nodeTypeCode RuleNodeType)%Z then load RuleNodeType
  else throw CheckFailed.

(** ** Values of any type *)

Fixpoint store (storeObject : Class → Addr → PM unit) (t : SType Class) : denote Variant t → PM unit :=
  match t with
  | SInt i => writeInt i
  | SString | SFileTag => storeString
  | SStringList => storeStringList
  | SEnvironment => storeEnvironment
  | SVariant => storeVariant
  | SUnit => λ _, mret tt
  | SPair t u => λ xy, _ ← store storeObject t xy.1; store storeObject u xy.2
  | SContainer t | SSet t => λ l,
      _ ← writeInt Int32 (Z.of_nat (length l)); forM l (store storeObject t)
  | SKeyValue t => λ m,
      _ ← writeInt Int32 (Z.of_nat (size m));
      forM (map_to_list m) (λ kx, _ ← storeString kx.1; store storeObject t kx.2)
  | SUnorderedMap t => λ m,
      _ ← writeInt UInt32 (Z.of_nat (size m));
      forM (map_to_list m) (λ kx, _ ← storeString kx.1; store storeObject t kx.2)
  | SPointer c => storeSharedObject storeObject c
  | SNodePointer => λ node,
      _ ← writeInt UInt8 (nodeTypeCode node.1);
      storeSharedObject storeObject (nodeClass node.1) (Some node.2)
  end.

(** [std::unordered_map::insert] keeps what is there. *)
Definition insertNew {A} (k : str) (x : A) (m : gmap str A) : gmap str A :=
  match m !! k with Some _ => m | None => <[k := x]> m end.

Definition loadMap {A} (countType : IntType) (insertPair : str → A → gmap str A → gmap str A)
    (loadValue : PM A) : PM (gmap str A) :=
  count ← readInt countType;
  l ← replicateM (Z.to_nat count) (k ← loadString; x ← loadValue; mret (k, x));
  mret (foldl (λ m kx, insertPair kx.1 kx.2 m) ∅ l).

Fixpoint load (loadObject : ∀ c, PM (denote Variant (fields c))) (t : SType Class) : PM (denote Variant t) :=
  match t with
  | SInt i => readInt i
  | SString | SFileTag => loadString
  | SStringList => loadStringList
  | SEnvironment => loadEnvironment
  | SVariant => loadVariant
  | SUnit => mret tt
  | SPair t u => x ← load loadObject t; y ← load loadObject u; mret (x, y)
  | SContainer t =>
      count ← readInt Int32; replicateM (Z.to_nat count) (load loadObject t)
  | SSet t =>
      count ← readInt Int32;
      l ← replicateM (Z.to_nat count) (load loadObject t);
      mret (if sortAfterLoadRequired t then std_sort (lessThan t) l else l)
  | SKeyValue t => loadMap Int32 insert (load loadObject t)
  | SUnorderedMap t => loadMap UInt32 insertNew (load loadObject t)
  | SPointer c => loadPointer loadObject c
  | SNodePointer => loadBuildGraphNode loadObject
  end.

(** The members of the objects are stored and loaded in the same way; [fuel] bounds how
    many objects contain each other. *)
Section Members.
Context (contents : ∀ c, Addr → denote Variant (fields c)).

Fixpoint storeObject (fuel : nat) (c : Class) (addr : Addr) : PM unit :=
  match fuel with
  | 0 => throw OutOfFuel
  | S fuel => store (storeObject fuel) (fields c) (contents c addr)
  end.
End Members.

Fixpoint loadObject (fuel : nat) (c : Class) : PM (denote Variant (fields c)) :=
  match fuel with
  | 0 => throw OutOfFuel
  | S fuel => load (loadObject fuel) (fields c)
  end.

(** ** Files

    [Config] is the [projectConfig] of the head data, which Qt writes and reads. *)
Section Files.
Context {Config : Type} (putConfig : Config → str) (getConfig : str → Config * str).

Definition QBS_PERSISTENCE_MAGIC : str := lit "QBSPERSISTENCE-130".

Definition on_storageIds (p : Pool) : Pool :=
  on_envs (λ s, mkStorage (idMap s) 0%Z (idStorage s))
    (on_stringLists (λ s, mkStorage (idMap s) 0%Z (idStorage s))
      (on_strings (λ s, mkStorage (idMap s) 0%Z (idStorage s))
        (on_indices (λ m, m) (λ _, 0%Z) p))).

(** What the file system does when a file is to be written. *)
Record WriteResults := mkWriteResults {
  dirExistsOrMade : bool;
  absentOrRemoved : bool;
  openedForWriting : bool
}.

(** The magic word is only written when everything else has been. *)
Definition setupWriteStream (fs : WriteResults) (projectConfig : Config) : PM unit :=
  if negb (dirExistsOrMade fs) then throw CannotCreateDirectory
  else if negb (absentOrRemoved fs) then throw CannotRemoveOldFile
  else if negb (openedForWriting fs) then throw CannotOpenForWriting
  else
    _ ← modify (on_stream (λ _, []));
    _ ← write (putByteArray (replicate (length QBS_PERSISTENCE_MAGIC) NUL) ++ putConfig projectConfig);
    modify on_storageIds.

(** [statusOk] is the state of the stream; [seek(0)] and writing overwrite the first
    bytes. *)
Definition finalizeWriteStream (statusOk flushed : bool) : PM unit :=
  if negb statusOk then throw FailureSerializing
  else
    _ ← modify (on_stream (λ o, let magic := putByteArray QBS_PERSISTENCE_MAGIC in
                                magic ++ drop (length magic) o));
    if negb flushed then throw FailureSerializing else mret tt.

(** A file: whether it exists and can be opened, and its bytes. *)
Inductive File := NoFile | UnreadableFile | ReadableFile (bytes : str).

(** [load(const QString &)]; the storages of the strings are cleared, the other ones are
    not. *)
Definition loadFile (file : File) : PM Config :=
  match file with
  | NoFile => throw NoBuildGraphError
  | UnreadableFile => throw CouldNotOpen
  | ReadableFile bytes =>
      let '(magic, rest) := getByteArray bytes in
      if bool_decide (magic = QBS_PERSISTENCE_MAGIC) then
        let '(projectConfig, rest) := getConfig rest in
        _ ← modify (on_stream (λ _, rest));
        _ ← modify (on_loadedRaw (λ _, []));
        _ ← modify (on_loaded (λ _, []));
        _ ← modify (on_indices (λ _, ∅) (λ n, n));
        _ ← modify (on_strings (λ s, mkStorage ∅ (lastStoredId s) []));
        mret projectConfig
      else
        _ ← modify (on_stream (λ _, []));
        throw (IncompatibleFormat magic)
  end.

(** [clear] *)
Definition clear : PM unit :=
  _ ← modify (on_loaded (λ _, []));
  _ ← modify (on_indices (λ _, ∅) (λ n, n));
  modify (on_strings (λ s, mkStorage ∅ (lastStoredId s) [])).
End Files.
End Persistence.
