(* ===== verification/PersistenceCorrect.v ===== *)
(** * What is stored can be loaded again

    Storing and loading go through the same steps: [faithful] relates a function that
    stores to the one that loads, from two pools that know the same objects and values. *)

From S2P Require Import Prelude StateMonad DataStream Persistence.

(** ** The part of the pool that storing uses *)

(** The ids that have been given are below [lastStoredId]. *)
Definition storage_ok {T} `{Countable T} (s : Storage T) : Prop :=
  (0 <= lastStoredId s)%Z ∧ ∀ v id, idMap s !! v = Some id → (0 <= id < lastStoredId s)%Z.

Record pool_ok {Object} (p : PersistentPool Object) : Prop := {
  po_strings : storage_ok (m_strings p);
  po_stringLists : storage_ok (m_stringLists p);
  po_envs : storage_ok (m_envs p);
  po_last : (0 <= m_lastStoredObjectId p)%Z;
  po_indices a id : m_storageIndices p !! a = Some id → (0 <= id < m_lastStoredObjectId p)%Z;
  po_inj a b id : m_storageIndices p !! a = Some id → m_storageIndices p !! b = Some id → a = b
}.

(** The ids fit an [int]. *)
Definition bounded {Object} (p : PersistentPool Object) : Prop :=
  (m_lastStoredObjectId p <= 2 ^ 31)%Z ∧ (lastStoredId (m_strings p) <= 2 ^ 31)%Z ∧
  (lastStoredId (m_stringLists p) <= 2 ^ 31)%Z ∧ (lastStoredId (m_envs p) <= 2 ^ 31)%Z.

(** Ids are added and never change, what is written stays. *)
Record grows {Object} (p q : PersistentPool Object) : Prop := {
  gr_ok : pool_ok p → pool_ok q;
  gr_last : (m_lastStoredObjectId p <= m_lastStoredObjectId q)%Z;
  gr_strings : (lastStoredId (m_strings p) <= lastStoredId (m_strings q))%Z;
  gr_stringLists : (lastStoredId (m_stringLists p) <= lastStoredId (m_stringLists q))%Z;
  gr_envs : (lastStoredId (m_envs p) <= lastStoredId (m_envs q))%Z;
  gr_indices : m_storageIndices p ⊆ m_storageIndices q;
  gr_stream : m_stream p `prefix_of` m_stream q
}.

#[export] Instance grows_preorder {Object} : PreOrder (@grows Object).
Proof.
  split.
  - intros p. by split.
  - intros p q r [] []. split; [auto|lia..| |]; by etrans.
Qed.

Lemma grows_bounded {Object} (p q : PersistentPool Object) : grows p q → bounded q → bounded p.
Proof. intros [] (? & ? & ? & ?). unfold bounded. lia. Qed.

(** Nothing that storing uses has changed. *)
Lemma grows_same {Object} (p q : PersistentPool Object) :
  m_strings q = m_strings p → m_stringLists q = m_stringLists p → m_envs q = m_envs p →
  m_storageIndices q = m_storageIndices p → m_lastStoredObjectId q = m_lastStoredObjectId p →
  m_stream p `prefix_of` m_stream q → grows p q.
Proof.
  intros H1 H2 H3 H4 H5 H6. split; rewrite ?H1, ?H2, ?H3, ?H4, ?H5; try done.
  intros []. split; rewrite ?H1, ?H2, ?H3, ?H4, ?H5; done.
Qed.

Lemma storage_ok_new {T} `{Countable T} (s : Storage T) v :
  storage_ok s → storage_ok (mkStorage (<[v := lastStoredId s]> (idMap s)) (lastStoredId s + 1) (idStorage s)).
Proof.
  intros [H0 Hs]. split; cbn [lastStoredId idMap]; [lia|]. intros v' id.
  destruct (decide (v = v')) as [->|Hne].
  - rewrite lookup_insert_eq. intros [= <-]. lia.
  - rewrite lookup_insert_ne by done. intros Hv. specialize (Hs _ _ Hv). lia.
Qed.

(** ** Storing adds ids *)

Section Growing.
Context {Variant : Type} `{D : QDataStream Variant}.
Context (userType : Variant → Z).
Context {Class : Type} (fields : Class → SType Class) (shared : Class → bool)
  (nodeClass : NodeType → Class).

Notation Pool := (PersistentPool (Object (Variant := Variant) fields)).
Notation PM := (st Pool PersistenceError).
Implicit Types p q : Pool.

Definition growing (m : PM unit) : Prop := moves grows m.

Lemma growing_write s : growing (write fields s).
Proof. apply moves_modify. intros p. apply grows_same; try done. by apply prefix_app_r. Qed.

Lemma growing_writeInt t z : growing (writeInt fields t z).
Proof. apply growing_write. Qed.

(** A storage of the pool. *)
Definition adds_ids {T} `{Countable T} (get : Pool → Storage T) (upd : (Storage T → Storage T) → Pool → Pool) : Prop :=
  ∀ p v, grows p (upd (λ s, mkStorage (<[v := lastStoredId (get p)]> (idMap s)) (lastStoredId s + 1) (idStorage s)) p).

Lemma growing_idStoreValue {T} `{Countable T} isEmpty (get : Pool → Storage T) upd doStoreValue value :
  adds_ids get upd → growing (doStoreValue value) →
  growing (idStoreValue fields isEmpty get upd doStoreValue value).
Proof.
  intros Ha Hd. unfold growing, idStoreValue. destruct (isEmpty value); [apply growing_writeInt|].
  intros p. unfold mbind, st_bind, gets. destruct (_ <? 0)%Z; [|apply growing_writeInt].
  unfold modify. etrans; [apply Ha|].
  apply (moves_bind grows (writeInt fields Int32 (lastStoredId (get p))) (λ _, doStoreValue value));
    [apply growing_writeInt|by intros _].
Qed.

Lemma adds_strings : adds_ids m_strings on_strings.
Proof.
  intros p v. split; try done; [|cbn; lia]. intros []. split; try done. by apply storage_ok_new.
Qed.
Lemma adds_stringLists : adds_ids m_stringLists on_stringLists.
Proof.
  intros p v. split; try done; [|cbn; lia]. intros []. split; try done. by apply storage_ok_new.
Qed.
Lemma adds_envs : adds_ids m_envs on_envs.
Proof.
  intros p v. split; try done; [|cbn; lia]. intros []. split; try done. by apply storage_ok_new.
Qed.

Lemma growing_storeString s : growing (storeString fields s).
Proof. apply growing_idStoreValue; [exact adds_strings|apply growing_write]. Qed.

Lemma growing_forM {A} (f : A → PM unit) l : (∀ x, growing (f x)) → growing (forM l f).
Proof. intros Hf. apply moves_forM; [apply _|]. intros x _. apply Hf. Qed.

Lemma growing_bind (m m' : PM unit) : growing m → growing m' → growing (_ ← m; m').
Proof. intros H H'. apply moves_bind; [apply _|done|]. by intros _. Qed.

Lemma growing_storeStringList l : growing (storeStringList fields l).
Proof.
  apply growing_idStoreValue; [exact adds_stringLists|].
  apply growing_bind; [apply growing_writeInt|]. apply growing_forM, growing_storeString.
Qed.

Lemma growing_storeEnvironment env : growing (storeEnvironment fields env).
Proof.
  apply growing_idStoreValue; [exact adds_envs|].
  apply growing_bind; [apply growing_storeStringList|]. apply growing_forM. intros k.
  apply growing_storeString.
Qed.

(** Induction over variants. *)
Lemma QVariant_rect' (P : QVariant Variant → Prop) :
  (∀ s, P (VString s)) → (∀ l, P (VStringList l)) → (∀ l, Forall P l → P (VList l)) →
  (∀ l, Forall (λ kx, P kx.2) l → P (VMap l)) → (∀ v, P (VOther v)) → ∀ v, P v.
Proof.
  intros H1 H2 H3 H4 H5. fix IH 1. intros [s|l|l|l|v]; [apply H1|apply H2| | |apply H5].
  - apply H3. induction l as [|x l IHl]; constructor; [apply IH|apply IHl].
  - apply H4. induction l as [|[k x] l IHl]; constructor; [apply IH|apply IHl].
Qed.

Lemma growing_forM_in {A} (f : A → PM unit) l : Forall (λ x, growing (f x)) l → growing (forM l f).
Proof.
  intros Hf. apply moves_forM; [apply _|]. intros x Hx. by apply (proj1 (Forall_forall _ _) Hf).
Qed.

Lemma growing_storeVariant v : growing (storeVariant userType fields v).
Proof.
  induction v as [s|l|l IH|l IH|v] using QVariant_rect'; cbn [storeVariant];
    (apply growing_bind; [apply growing_writeInt|]).
  - apply growing_storeString.
  - apply growing_storeStringList.
  - apply growing_bind; [apply growing_writeInt|by apply growing_forM_in].
  - apply growing_bind; [apply growing_writeInt|]. apply growing_forM_in.
    eapply Forall_impl; [exact IH|]. intros kx Hx.
    apply growing_bind; [apply growing_storeString|done].
  - apply growing_write.
Qed.

Lemma grows_newIndex p a :
  m_storageIndices p !! a = None →
  grows p (on_indices (<[a := m_lastStoredObjectId p]>) (λ n, n + 1)%Z p).
Proof.
  intros Ha. split; try done; cbn [m_lastStoredObjectId m_storageIndices on_indices]; [|lia|by apply insert_subseteq].
  intros []. split; try done; cbn; [lia|..].
  - intros b id. destruct (decide (a = b)) as [->|Hne].
    + rewrite lookup_insert_eq. intros [= <-]. lia.
    + rewrite lookup_insert_ne by done. intros Hb. specialize (po_indices0 _ _ Hb). lia.
  - intros b c id. destruct (decide (a = b)) as [<-|Hb], (decide (a = c)) as [<-|Hc]; [done|..].
    + rewrite lookup_insert_eq, lookup_insert_ne by done. intros [= <-] Hi.
      specialize (po_indices0 _ _ Hi). lia.
    + rewrite lookup_insert_eq, lookup_insert_ne by done. intros Hi [= <-].
      specialize (po_indices0 _ _ Hi). lia.
    + rewrite !lookup_insert_ne by done. apply po_inj0.
Qed.

Section Objects.
Context (storeObj : Class → Addr → PM unit) (Hobj : ∀ c a, growing (storeObj c a)).

Lemma growing_storeSharedObject c object : growing (storeSharedObject fields storeObj c object).
Proof.
  destruct object as [a|]; [|apply growing_writeInt]. intros p.
  unfold storeSharedObject, mbind, st_bind, gets.
  destruct (m_storageIndices p !! a) as [id|] eqn:E; [apply growing_writeInt|].
  unfold modify. etrans; [by apply (grows_newIndex p a)|].
  apply (growing_bind (writeInt fields Int32 (m_lastStoredObjectId p)) (storeObj c a));
    [apply growing_writeInt|apply Hobj].
Qed.

Lemma growing_store t v : growing (store userType fields nodeClass storeObj t v).
Proof.
  induction t as [i| | | | | | |t IHt u IHu|t IH|t IH|t IH|t IH|c|]; cbn [store].
  - apply growing_writeInt.
  - apply growing_storeString.
  - apply growing_storeStringList.
  - apply growing_storeEnvironment.
  - apply growing_storeVariant.
  - apply growing_storeString.
  - apply moves_ret, _.
  - by apply growing_bind.
  - apply growing_bind; [apply growing_writeInt|by apply growing_forM].
  - apply growing_bind; [apply growing_writeInt|]. apply growing_forM. intros kx.
    apply growing_bind; [apply growing_storeString|apply IH].
  - apply growing_bind; [apply growing_writeInt|]. apply growing_forM. intros kx.
    apply growing_bind; [apply growing_storeString|apply IH].
  - apply growing_bind; [apply growing_writeInt|by apply growing_forM].
  - apply growing_storeSharedObject.
  - apply growing_bind; [apply growing_writeInt|apply growing_storeSharedObject].
Qed.
End Objects.

Lemma growing_storeObject contents fuel c a :
  growing (storeObject userType fields nodeClass contents fuel c a).
Proof.
  revert c a. induction fuel as [|fuel IH]; intros c a; cbn [storeObject]; [apply moves_throw, _|].
  apply growing_store. apply IH.
Qed.
End Growing.

(** ** What loading creates *)

Section Renamed.
Context {Variant : Type} {Class : Type}.
Context (lessThan : ∀ t : SType Class, denote Variant t → denote Variant t → bool).

(** The value [y] is the value [x] with the objects renamed by [ρ], the map from the
    objects that were stored to those that were created; sets of pointers and of tags
    are sorted again. *)
Fixpoint renamed (ρ : gmap Addr Z) (t : SType Class) : denote Variant t → denote Variant t → Prop :=
  match t with
  | SInt _ | SString | SStringList | SEnvironment | SVariant | SFileTag | SUnit => eq
  | SPair t u => λ x y, renamed ρ t x.1 y.1 ∧ renamed ρ u x.2 y.2
  | SContainer t => Forall2 (renamed ρ t)
  | SKeyValue t | SUnorderedMap t => λ x y, ∀ k, option_Forall2 (renamed ρ t) (x !! k) (y !! k)
  | SSet t => λ x y, ∃ l, Forall2 (renamed ρ t) x l ∧
      y = if sortAfterLoadRequired t then std_sort (lessThan t) l else l
  | SPointer c => λ x y,
      match x, y with
      | None, None => True
      | Some a, Some b => ρ !! a = Some b
      | _, _ => False
      end
  | SNodePointer => λ x y, x.1 = y.1 ∧ ρ !! x.2 = Some y.2
  end.
End Renamed.

Section Faithful.
Context {Variant : Type} `{D : QDataStream Variant, !QDataStreamLaws D}.
Context {Class : Type} {fields : Class → SType Class} {shared : Class → bool}.
Context {lessThan : ∀ t : SType Class, denote Variant t → denote Variant t → bool}.
Context {contents : ∀ c, Addr → denote Variant (fields c)} {classOf : Addr → Class}.
Notation Pool := (PersistentPool (Object (Variant := Variant) fields)).
Notation PM := (st Pool PersistenceError).
Implicit Types p q S L : Pool.

(** The pools of the storing and the loading side know the same values. *)
Definition storages_match {T} `{Countable T} (s l : Storage T) : Prop :=
  Z.of_nat (length (idStorage l)) = lastStoredId s ∧
  ∀ v id, idMap s !! v = Some id → idStorage l !! Z.to_nat id = Some v.

(** They know the same objects; a new object has the next id as its address. *)
Record objects_match S L : Prop := {
  om_address : m_newAddress L = m_lastStoredObjectId S;
  om_loaded : (Z.of_nat (length (m_loaded L)) <= m_lastStoredObjectId S)%Z;
  om_loadedRaw : (Z.of_nat (length (m_loadedRaw L)) <= m_lastStoredObjectId S)%Z;
  om_known a id : m_storageIndices S !! a = Some id →
    (if shared (classOf a) then m_loaded L else m_loadedRaw L) !! Z.to_nat id = Some (Some (id : Addr))
}.

(** Strings, lists of strings, environments and objects are four levels; a function of
    one level uses the levels up to its own and leaves the others alone. *)
Definition matchesUpto (n : nat) S L : Prop :=
  (1 ≤ n → storages_match (m_strings S) (m_strings L)) ∧
  (2 ≤ n → storages_match (m_stringLists S) (m_stringLists L)) ∧
  (3 ≤ n → storages_match (m_envs S) (m_envs L)) ∧
  (4 ≤ n → objects_match S L).

Definition sameObjects p q : Prop :=
  m_loadedRaw q = m_loadedRaw p ∧ m_loaded q = m_loaded p ∧ m_storageIndices q = m_storageIndices p ∧
  m_lastStoredObjectId q = m_lastStoredObjectId p ∧ m_newAddress q = m_newAddress p.

Definition keeps (n : nat) p q : Prop :=
  (n < 1 → m_strings q = m_strings p) ∧ (n < 2 → m_stringLists q = m_stringLists p) ∧ (n < 3 → m_envs q = m_envs p) ∧
  (n < 4 → sameObjects p q).

#[export] Instance keeps_preorder n : PreOrder (keeps n).
Proof.
  split.
  - intros p. by split.
  - intros p q r (H0 & H1 & H2 & H3) (G0 & G1 & G2 & G3). split; [|split; [|split]]; intros Hn.
    + by rewrite G0, H0.
    + by rewrite G1, H1.
    + by rewrite G2, H2.
    + destruct (H3 Hn) as (? & ? & ? & ? & ?), (G3 Hn) as (? & ? & ? & ? & ?). split_and!; congruence.
Qed.

(** An object that has been loaded. *)
Definition entry_ok (ρ : gmap Addr Z) (x : Addr * Object fields) : Prop :=
  ∃ a, ρ !! a = Some x.1 ∧ classOf a = projT1 x.2 ∧
    renamed lessThan ρ (fields (projT1 x.2)) (contents (projT1 x.2) a) (projT2 x.2).

(** What [m] stores, [l] loads: it takes exactly these bytes, creates the objects whose
    ids are new, and returns a value that is [good]. *)
Definition faithful (n : nat) {A} (m : PM unit) (l : PM A) (good : gmap Addr Z → A → Prop) : Prop :=
  ∀ S S' L w rest, pool_ok S → bounded S' → m S = (Ok tt, S') → m_stream S' = m_stream S ++ w →
  matchesUpto n S L → m_stream L = w ++ rest →
  ∃ a L' new, l L = (Ok a, L') ∧ m_stream L' = rest ∧ keeps n L L' ∧ matchesUpto n S' L' ∧
    m_objects L' = m_objects L ++ new ∧
    new.*1 ≡ₚ seqZ (m_lastStoredObjectId S) (m_lastStoredObjectId S' - m_lastStoredObjectId S) ∧
    ∀ ρ, m_storageIndices S' ⊆ ρ → good ρ a ∧ Forall (entry_ok ρ) new.

Lemma faithful_ret n {A} (a : A) good : (∀ ρ, good ρ a) → faithful n (mret tt) (mret a) good.
Proof.
  intros Hg S S' L w rest HS HB [= <-] Hw HM Hr.
  assert (w = []) as -> by (apply (app_inv_head (m_stream S)); by rewrite app_nil_r).
  exists a, L, []. rewrite app_nil_r, Z.sub_diag. by split_and!.
Qed.

Lemma faithful_conseq n {A} (m : PM unit) (l : PM A) (good good' : gmap Addr Z → A → Prop) :
  (∀ ρ a, good ρ a → good' ρ a) → faithful n m l good → faithful n m l good'.
Proof.
  intros Hg H S S' L w rest HS HB E Hw HM Hr.
  destruct (H S S' L w rest HS HB E Hw HM Hr) as (a & L' & new & H1 & H2 & H3 & H4 & H5 & H6 & H7).
  exists a, L', new. split_and!; try done. intros ρ Hρ. destruct (H7 ρ Hρ). auto.
Qed.

Lemma seqZ_split a b c : (a <= b <= c)%Z → seqZ a (b - a) ++ seqZ b (c - b) = seqZ a (c - a).
Proof.
  intros [H1 H2]. replace (c - a)%Z with ((b - a) + (c - b))%Z by lia.
  rewrite seqZ_app by lia. by replace (a + (b - a))%Z with b by lia.
Qed.

Lemma faithful_bind n {A B} (m m' : PM unit) (l : PM A) (k : A → PM B) good good' :
  growing fields m → growing fields m' → faithful n m l good →
  (∀ ρ a, good ρ a → faithful n m' (k a) (good' a)) →
  faithful n (_ ← m; m') (a ← l; k a) (λ ρ b, ∃ a, good ρ a ∧ good' a ρ b).
Proof.
  intros G G' H H' S S' L w rest HS HB E Hw HM Hr. unfold mbind, st_bind in E |- *.
  destruct (m S) as [[[]|e] S1] eqn:E1; [|done].
  pose proof (G S) as Gr. rewrite E1 in Gr. pose proof (G' S1) as Gr'. rewrite E in Gr'. simpl in Gr, Gr'.
  pose proof (gr_ok _ _ Gr HS) as HS1. pose proof (grows_bounded _ _ Gr' HB) as HB1.
  destruct (gr_stream _ _ Gr) as [w1 Hw1], (gr_stream _ _ Gr') as [w2 Hw2].
  assert (w = w1 ++ w2) as ->.
  { apply (app_inv_head (m_stream S)). by rewrite <-Hw, Hw2, Hw1, app_assoc. }
  rewrite <-app_assoc in Hr.
  destruct (H S S1 L w1 (w2 ++ rest) HS HB1 E1 Hw1 HM Hr)
    as (a & L1 & new1 & -> & Hr1 & K1 & HM1 & O1 & P1 & R1).
  destruct (R1 _ (reflexivity _)) as [Ha _].
  destruct (H' _ a Ha S1 S' L1 w2 rest HS1 HB E Hw2 HM1 Hr1)
    as (b & L' & new2 & -> & Hr2 & K2 & HM2 & O2 & P2 & R2).
  exists b, L', (new1 ++ new2). split; [done|]. split; [done|]. split; [by etrans|]. split; [done|].
  split; [by rewrite O2, O1, app_assoc|]. split.
  - rewrite fmap_app, P1, P2, seqZ_split; [done|]. split; [apply Gr|apply Gr'].
  - intros ρ Hρ. destruct (R2 ρ Hρ) as [Hb F2]. destruct (R1 ρ) as [Ha' F1]; [by rewrite (gr_indices _ _ Gr')|].
    split; [by exists a|]. by apply Forall_app.
Qed.

(** What is done with the value while nothing is loaded. *)
Lemma faithful_then n {A B} (m : PM unit) (l : PM A) (k : A → PM B) good good' :
  faithful n m l good →
  (∀ ρ a, good ρ a → ∃ b, (∀ L, k a L = (Ok b, L)) ∧ ∀ ρ', good ρ' a → good' ρ' b) →
  faithful n m (a ← l; k a) good'.
Proof.
  intros H Hk S S' L w rest HS HB E Hw HM Hr.
  destruct (H S S' L w rest HS HB E Hw HM Hr) as (a & L' & new & H1 & H2 & H3 & H4 & H5 & H6 & H7).
  unfold mbind, st_bind. rewrite H1. destruct (H7 _ (reflexivity _)) as [Ha _].
  destruct (Hk _ a Ha) as (b & -> & Hb). exists b, L', new. split_and!; try done.
  intros ρ Hρ. destruct (H7 ρ Hρ) as [Ha' F]. split; [by apply Hb|done].
Qed.

Lemma faithful_map n {A B} (m : PM unit) (l : PM A) (f : A → B) good :
  faithful n m l good → faithful n m (a ← l; mret (f a)) (λ ρ b, ∃ a, b = f a ∧ good ρ a).
Proof.
  intros H. apply (faithful_then n m l (λ a, mret (f a)) good); [done|].
  intros ρ a _. exists (f a). split; [done|]. intros ρ' Ha. by exists a.
Qed.

(** A function of a lower level. *)
Lemma faithful_weaken n n' {A} (m : PM unit) (l : PM A) good :
  n ≤ n' → moves (keeps n) m → faithful n m l good → faithful n' m l good.
Proof.
  intros Hn K H S S' L w rest HS HB E Hw (M1 & M2 & M3 & M4) Hr.
  destruct (H S S' L w rest HS HB E Hw) as (a & L' & new & H1 & H2 & (K0 & K1 & K2 & K3) & (N1 & N2 & N3 & N4) & H5 & H6 & H7);
    [split_and!; auto with lia|done|].
  specialize (K S). rewrite E in K. destruct K as (G0 & G1 & G2 & G3). simpl in G0, G1, G2, G3.
  exists a, L', new. split; [done|]. split; [done|]. split; [split_and!; auto with lia|].
  split; [|done]. split; [|split; [|split]].
  - intros Hn2. destruct (decide (1 ≤ n)) as [?|Hlt]; [by apply N1|].
    rewrite K0, G0 by lia. by apply M1.
  - intros Hn2. destruct (decide (2 ≤ n)) as [?|Hlt]; [by apply N2|].
    rewrite K1, G1 by lia. by apply M2.
  - intros Hn2. destruct (decide (3 ≤ n)) as [?|Hlt]; [by apply N3|].
    rewrite K2, G2 by lia. by apply M3.
  - intros Hn2. destruct (decide (4 ≤ n)) as [?|Hlt]; [by apply N4|].
    destruct K3 as (R1 & R2 & R3 & R4 & R5); [lia|]. destruct G3 as (T1 & T2 & T3 & T4 & T5); [lia|].
    destruct (M4 Hn2). split; [congruence..|]. intros b id. rewrite R1, R2, T3. auto.
Qed.

Lemma faithful_ext n {A} (m m' : PM unit) (l : PM A) good :
  (∀ S, m' S = m S) → faithful n m l good → faithful n m' l good.
Proof. intros Hm H S S' L w rest HS HB E. rewrite Hm in E. by apply H. Qed.

Lemma forM_cons {A} (f : A → PM unit) x l S : forM (x :: l) f S = (_ ← f x; forM l f) S.
Proof.
  unfold forM. cbn [foldM]. unfold mbind, st_bind. by destruct (f x S) as [[[]|e] S1].
Qed.

Lemma faithful_forM n {A B} (f : A → PM unit) (ld : PM B) (R : gmap Addr Z → A → B → Prop) l :
  Forall (λ x, growing fields (f x)) l → Forall (λ x, faithful n (f x) ld (λ ρ y, R ρ x y)) l →
  faithful n (forM l f) (replicateM fields (length l) ld) (λ ρ ys, Forall2 (R ρ) l ys).
Proof.
  induction l as [|x l IH]; intros HG HF; cbn [length replicateM].
  { apply faithful_ret. by intros ρ. }
  apply Forall_cons in HG as [Gx HG], HF as [Fx HF]. eapply faithful_ext; [apply forM_cons|].
  eapply faithful_conseq; [|apply (faithful_bind n (f x) (forM l f) ld _ (λ ρ y, R ρ x y)
    (λ y ρ ys, ∃ l', ys = y :: l' ∧ Forall2 (R ρ) l l'))].
  - intros ρ ys (y & Hy & l' & -> & Hl). by constructor.
  - done.
  - by apply (growing_forM_in fields f l).
  - done.
  - intros ρ y _. apply faithful_map, IH; done.
Qed.

(** *** Integers and strings *)

Lemma keeps_stream n p f : keeps n p (on_stream f p).
Proof. by split_and!. Qed.

Lemma matchesUpto_stream n S L f g : matchesUpto n S L → matchesUpto n (on_stream f S) (on_stream g L).
Proof. intros (H1 & H2 & H3 & H4). split_and!; try done. intros Hn. by destruct (H4 Hn). Qed.

Lemma faithful_write n {A} s (rd : PM A) x :
  (∀ p rest, m_stream p = s ++ rest → rd p = (Ok x, on_stream (λ _, rest) p)) →
  faithful n (write fields s) rd (λ _ a, a = x).
Proof.
  intros Hrd S S' L w rest HS HB [= <-] Hw HM Hr. apply app_inv_head in Hw as <-.
  rewrite (Hrd L rest Hr). exists x, (on_stream (λ _, rest) L), [].
  split; [done|]. split; [done|]. split; [apply keeps_stream|].
  split; [by apply matchesUpto_stream|]. rewrite app_nil_r, Z.sub_diag. done.
Qed.

Lemma faithful_writeInt n t z :
  fits t z = true → faithful n (writeInt fields t z) (readInt fields t) (λ _ a, a = z).
Proof.
  intros Hf. apply faithful_write. intros p rest Hp. unfold readInt. by rewrite Hp, getInt_put.
Qed.

(** A number that says how to go on. *)
Lemma faithful_tagged n t z {A} (m : PM unit) (k : Z → PM A) good :
  fits t z = true → growing fields m → faithful n m (k z) good →
  faithful n (_ ← writeInt fields t z; m) (a ← readInt fields t; k a) good.
Proof.
  intros Hf Hg Hm. eapply faithful_conseq; [|apply (faithful_bind n _ _ _ _ (λ _ a, a = z) (λ _, good))].
  - by intros ρ b (a & _ & ?).
  - apply growing_writeInt.
  - done.
  - by apply faithful_writeInt.
  - by intros ρ a ->.
Qed.

Lemma writeInt_eq t z p : writeInt fields t z p = (Ok tt, on_stream (λ o, o ++ putInt t z) p).
Proof. done. Qed.

Lemma faithful_writeString n s :
  shortEnough s = true → faithful n (write fields (putString s)) (readString fields) (λ _ a, a = s).
Proof.
  intros Hs. apply faithful_write. intros p rest Hp. unfold readString. by rewrite Hp, getString_put.
Qed.

Lemma faithful_writeVariant n v :
  faithful n (write fields (putVariant v)) (readVariant fields) (λ _ a, a = v).
Proof. apply faithful_write. intros p rest Hp. unfold readVariant. by rewrite Hp, getVariant_put. Qed.

Lemma keeping_write n s : moves (keeps n) (write fields s).
Proof. intros p. apply keeps_stream. Qed.

(** *** Values that are written once *)

(** The storage that [get] and [upd] access is the one of level [S n]. *)
Class StorageLevel {T} `{Countable T} (n : nat) (get : Pool → Storage T)
    (upd : (Storage T → Storage T) → Pool → Pool) : Prop := {
  sl_adds : adds_ids fields get upd;
  sl_get f p : get (upd f p) = f (get p);
  sl_get_stream f p : get (on_stream f p) = get p;
  sl_stream f p : m_stream (upd f p) = m_stream p;
  sl_objects f p : m_objects (upd f p) = m_objects p;
  sl_indices f p : m_storageIndices (upd f p) = m_storageIndices p;
  sl_last f p : m_lastStoredObjectId (upd f p) = m_lastStoredObjectId p;
  sl_keeps f p : keeps (1 + n) p (upd f p);
  sl_kept p q : keeps n p q → get q = get p;
  sl_matches f g S L : matchesUpto n S L → matchesUpto n (upd f S) (upd g L);
  sl_matches_store f S L : matchesUpto n S L → matchesUpto n (upd f S) L;
  sl_matches_load f S L : matchesUpto n S L → matchesUpto n S (upd f L);
  sl_level S L : matchesUpto (1 + n) S L ↔ matchesUpto n S L ∧ storages_match (get S) (get L);
  sl_ok p : pool_ok p → storage_ok (get p);
  sl_bounded p : bounded p → (lastStoredId (get p) <= 2 ^ 31)%Z
}.

Lemma keeps_mono n n' p q : n ≤ n' → keeps n p q → keeps n' p q.
Proof. intros Hn (H0 & H1 & H2 & H3). split_and!; auto with lia. Qed.

Lemma storages_match_new {T} `{Countable T} (s l : Storage T) value empty :
  storage_ok s → storages_match s l → idMap s !! value = None →
  storages_match
    (mkStorage (<[value := lastStoredId s]> (idMap s)) (lastStoredId s + 1) (idStorage s))
    (mkStorage (idMap l) (lastStoredId l)
       (<[Z.to_nat (lastStoredId s) := value]>
          (resize (S (Z.to_nat (lastStoredId s))) empty (idStorage l)))).
Proof.
  intros [H0 Hs] [Hl Hm] Hv.
  assert (Z.to_nat (lastStoredId s) = length (idStorage l)) as -> by lia.
  rewrite resize_ge by lia. replace (S _ - _) with 1 by lia. cbn [replicate].
  split; cbn [idStorage idMap lastStoredId].
  - rewrite length_insert, length_app. simpl. lia.
  - intros v id. destruct (decide (value = v)) as [->|Hne].
    + rewrite lookup_insert_eq. intros [= <-]. rewrite <-Hl, Nat2Z.id.
      rewrite list_lookup_insert_eq; [done|]. rewrite length_app. simpl. lia.
    + rewrite lookup_insert_ne by done. intros Hi. specialize (Hs _ _ Hi).
      rewrite list_lookup_insert_ne by lia. rewrite lookup_app_l by lia. by apply Hm.
Qed.

Section Once.
Context {T} `{Countable T} (n : nat) (get : Pool → Storage T)
  (upd : (Storage T → Storage T) → Pool → Pool) `{!StorageLevel n get upd}.
Context (isEmpty : T → bool) (empty : T) (doStore : T → PM unit) (doLoad : PM T).

Lemma fits_id (id : Z) : (0 <= id < 2 ^ 31)%Z → fits Int32 id = true.
Proof.
  intros Hi. unfold fits. cbn [isSigned]. change (modulus Int32 / 2)%Z with (2 ^ 31)%Z.
  rewrite andb_true_iff, Z.leb_le, Z.ltb_lt. lia.
Qed.

Lemma faithful_idStoreValue value :
  (isEmpty value = true → value = empty) →
  growing fields (doStore value) → moves (keeps n) (doStore value) →
  faithful n (doStore value) doLoad (λ _ a, a = value) →
  faithful (1 + n) (idStoreValue fields isEmpty get upd doStore value) (idLoadValue fields empty get upd doLoad)
    (λ _ a, a = value).
Proof.
  intros Hem Gd Kd Fd. unfold idStoreValue, idLoadValue. destruct (isEmpty value).
  { rewrite (Hem eq_refl).
    apply (faithful_then (1 + n) _ _ _ (λ _ a, a = EmptyValueId)); [by apply faithful_writeInt|].
    intros ρ a ->. by exists empty. }
  intros S S' L w rest HS HB E Hw HM Hr. unfold mbind, st_bind, gets in E |- *.
  apply sl_level in HM as [HM Hs]. pose proof (sl_ok S HS) as Hok.
  destruct (idMap (get S) !! value) as [id|] eqn:Ev.
  - pose proof (proj2 Hok _ _ Ev) as Hid.
    change (default ValueNotFoundId (Some id)) with id in E.
    destruct (id <? 0)%Z eqn:Hneg; [apply Z.ltb_lt in Hneg; lia|].
    rewrite writeInt_eq in E. injection E as <-. apply app_inv_head in Hw as <-.
    assert (fits Int32 id = true) as Hf.
    { apply fits_id. pose proof (sl_bounded _ HB) as Hb. rewrite sl_get_stream in Hb. lia. }
    unfold readInt. rewrite Hr, getInt_put by done.
    destruct (id =? EmptyValueId)%Z eqn:Hee; [apply Z.eqb_eq in Hee; unfold EmptyValueId in Hee; lia|].
    rewrite Hneg, sl_get_stream, (proj2 Hs _ _ Ev).
    exists value, (on_stream (λ _, rest) L), []. split; [done|]. split; [done|].
    split; [apply keeps_stream|]. split.
    { apply sl_level. rewrite !sl_get_stream. split; [by apply matchesUpto_stream|done]. }
    rewrite app_nil_r, Z.sub_diag. done.
  - change (default ValueNotFoundId None <? 0)%Z with true in E. cbv iota in E. unfold modify in E.
    set (id := lastStoredId (get S)) in *.
    set (S1 := upd _ S) in E. rewrite writeInt_eq in E. set (S2 := on_stream _ S1) in E.
    assert (grows S S2) as Gr.
    { etrans; [apply sl_adds|]. apply grows_same; try done. by apply prefix_app_r. }
    assert (grows S2 S') as Gr' by (specialize (Gd S2); by rewrite E in Gd).
    assert (keeps n S2 S') as Kr by (specialize (Kd S2); by rewrite E in Kd).
    pose proof (gr_ok _ _ Gr HS) as HS2.
    destruct (gr_stream _ _ Gr') as [w2 Hw2].
    assert (m_stream S2 = m_stream S ++ putInt Int32 id) as HS2s.
    { unfold S2, S1. simpl. by rewrite sl_stream. }
    assert (w = putInt Int32 id ++ w2) as ->.
    { apply (app_inv_head (m_stream S)). by rewrite <-Hw, Hw2, HS2s, app_assoc. }
    rewrite <-app_assoc in Hr.
    assert (get S' = mkStorage (<[value := id]> (idMap (get S))) (id + 1) (idStorage (get S))) as HgS.
    { rewrite (sl_kept (get := get) S2 S' Kr). unfold S2, S1. by rewrite sl_get_stream, sl_get. }
    assert (fits Int32 id = true) as Hf.
    { apply fits_id. pose proof (sl_bounded _ HB) as Hb. rewrite HgS in Hb. simpl in Hb.
      destruct Hok as [H0 _]. unfold id. lia. }
    unfold readInt. rewrite Hr, getInt_put by done. destruct Hok as [H0 Hlt]. fold id in H0.
    destruct (id =? EmptyValueId)%Z eqn:Hee; [apply Z.eqb_eq in Hee; unfold EmptyValueId in Hee; lia|].
    destruct (id <? 0)%Z eqn:Hneg; [apply Z.ltb_lt in Hneg; lia|].
    set (L1 := on_stream (λ _, w2 ++ rest) L).
    assert (get L1 = get L) as HgL1 by apply sl_get_stream. rewrite HgL1.
    destruct Hs as [Hlen Hmap]. fold id in Hlen.
    rewrite (lookup_ge_None_2 (idStorage (get L)) (Z.to_nat id)) by lia.
    assert (matchesUpto n S2 L1) as HM1 by (apply matchesUpto_stream, sl_matches_store, HM).
    destruct (Fd S2 S' L1 w2 rest HS2 HB E Hw2 HM1 eq_refl)
      as (a & L2 & new & -> & Hr2 & K2 & HM2 & O2 & P2 & R2).
    destruct (R2 _ (reflexivity _)) as [-> _]. unfold modify. cbv beta iota.
    set (L3 := upd _ L2). exists value, L3, new. split; [done|].
    split; [unfold L3; by rewrite sl_stream|]. split.
    { transitivity L1; [apply keeps_stream|]. transitivity L2; [|apply sl_keeps].
      apply (keeps_mono n); [lia|done]. }
    split.
    { apply sl_level. split; [by apply sl_matches_load|].
      unfold L3. rewrite (sl_get (get := get)), HgS, (sl_kept (get := get) L1 L2 K2), HgL1. by apply (storages_match_new (get S) (get L)). }
    split; [unfold L3; by rewrite sl_objects|].
    assert (m_lastStoredObjectId S2 = m_lastStoredObjectId S) as <- by (unfold S2, S1; simpl; apply sl_last).
    split; [done|]. done.
Qed.
End Once.

Lemma keeping_bind n (m m' : PM unit) :
  moves (keeps n) m → moves (keeps n) m' → moves (keeps n) (_ ← m; m').
Proof. intros H H'. apply moves_bind; [apply _|done|]. by intros _. Qed.

Lemma keeping_mono n n' (m : PM unit) : n ≤ n' → moves (keeps n) m → moves (keeps n') m.
Proof. intros Hn H p. eapply keeps_mono; [exact Hn|apply H]. Qed.

Lemma keeping_forM n {A} (f : A → PM unit) l : (∀ x, moves (keeps n) (f x)) → moves (keeps n) (forM l f).
Proof. intros Hf. apply moves_forM; [apply _|]. intros x _. apply Hf. Qed.

Lemma keeping_idStoreValue {T} `{Countable T} n get upd isEmpty doStore value :
  (∀ f p, keeps (1 + n) p (upd f p)) →
  moves (keeps n) (doStore value) →
  moves (keeps (1 + n)) (idStoreValue (T := T) fields isEmpty get upd doStore value).
Proof.
  intros Hu Hd. unfold idStoreValue. destruct (isEmpty value); [apply keeping_write|].
  apply moves_bind; [apply _|apply moves_gets, _|]. intros id.
  destruct (_ <? 0)%Z; [|apply keeping_write].
  apply moves_bind; [apply _|apply moves_gets, _|]. intros id'.
  apply moves_bind; [apply _| |intros _].
  { apply moves_modify. intros p. apply Hu. }
  apply keeping_bind; [apply keeping_write|]. apply (keeping_mono n); [lia|done].
Qed.

#[export] Instance strings_level : StorageLevel 0 m_strings on_strings.
Proof.
  split; try done.
  - apply adds_strings.
  - intros f p. by split_and!; [lia|..].
  - intros p q (Hk & _). apply Hk. lia.
  - intros f g S L (H1 & H2 & H3 & H4). split_and!; lia.
  - intros f S L (H1 & H2 & H3 & H4). split_and!; lia.
  - intros f S L (H1 & H2 & H3 & H4). split_and!; lia.
  - intros S L. split; intros Hm.
    + split; [by split_and!; lia|]. apply Hm. lia.
    + destruct Hm as [_ Hm]. by split_and!; [|lia..].
  - by intros p [].
  - intros p (? & ? & ? & ?). done.
Qed.

#[export] Instance stringLists_level : StorageLevel 1 m_stringLists on_stringLists.
Proof.
  split; try done.
  - apply adds_stringLists.
  - intros f p. by split_and!; [|lia|..].
  - intros p q (_ & Hk & _). apply Hk. lia.
  - intros f g S L (H1 & H2 & H3 & H4). split_and!; [exact H1|lia..].
  - intros f S L (H1 & H2 & H3 & H4). split_and!; [exact H1|lia..].
  - intros f S L (H1 & H2 & H3 & H4). split_and!; [exact H1|lia..].
  - intros S L. split; intros Hm.
    + destruct Hm as (H1 & H2 & _). split; [split_and!; [intros _; apply H1; lia|lia..]|]. apply H2. lia.
    + destruct Hm as [(H1 & _) Hm]. split_and!; [intros _; apply H1; lia|done|lia..].
  - by intros p [].
  - intros p (? & ? & ? & ?). done.
Qed.

#[export] Instance envs_level : StorageLevel 2 m_envs on_envs.
Proof.
  split; try done.
  - apply adds_envs.
  - intros f p. by split_and!; [|..|lia|].
  - intros p q (_ & _ & Hk & _). apply Hk. lia.
  - intros f g S L (H1 & H2 & H3 & H4). split_and!; [exact H1|exact H2|lia..].
  - intros f S L (H1 & H2 & H3 & H4). split_and!; [exact H1|exact H2|lia..].
  - intros f S L (H1 & H2 & H3 & H4). split_and!; [exact H1|exact H2|lia..].
  - intros S L. split; intros Hm.
    + destruct Hm as (H1 & H2 & H3 & _). split; [split_and!; [intros _; apply H1; lia|intros _; apply H2; lia|lia..]|]. apply H3. lia.
    + destruct Hm as [(H1 & H2 & _) Hm]. split_and!; [intros _; apply H1; lia|intros _; apply H2; lia|done|lia].
  - by intros p [].
  - intros p (? & ? & ? & ?). done.
Qed.

Lemma keeping_storeString s : moves (keeps 1) (storeString fields s).
Proof. apply (keeping_idStoreValue 0 m_strings on_strings); [|apply keeping_write].
  intros f p. by split_and!; [lia|..]. Qed.

Lemma keeping_storeStringList l : moves (keeps 2) (storeStringList fields l).
Proof.
  apply (keeping_idStoreValue 1 m_stringLists on_stringLists).
  { intros f p. by split_and!; [|lia|..]. }
  apply keeping_bind; [apply keeping_write|].
  apply keeping_forM, keeping_storeString.
Qed.

Lemma keeping_storeEnvironment env : moves (keeps 3) (storeEnvironment fields env).
Proof.
  apply (keeping_idStoreValue 2 m_envs on_envs).
  { intros f p. by split_and!; [|..|lia|]. }
  apply keeping_bind; [apply keeping_storeStringList|].
  apply keeping_forM. intros k. apply (keeping_mono 1); [lia|apply keeping_storeString].
Qed.

Lemma faithful_storeString s :
  shortEnough s = true → faithful 1 (storeString fields s) (loadString fields) (λ _ a, a = s).
Proof.
  intros Hs. apply (faithful_idStoreValue 0 m_strings on_strings).
  - by destruct s.
  - apply growing_write.
  - apply keeping_write.
  - by apply faithful_writeString.
Qed.

Lemma fits_length {A} (l : list A) : shortEnough l = true → fits Int32 (Z.of_nat (length l)) = true.
Proof.
  unfold shortEnough. rewrite Z.ltb_lt. intros Hl. apply fits_id. lia.
Qed.

(** A count, and then the elements. *)
Lemma faithful_counted n t {A B} (f : A → PM unit) (ld : PM B) R (l : list A) :
  fits t (Z.of_nat (length l)) = true → (∀ x, growing fields (f x)) →
  Forall (λ x, faithful n (f x) ld (λ ρ y, R ρ x y)) l →
  faithful n (_ ← writeInt fields t (Z.of_nat (length l)); forM l f)
    (count ← readInt fields t; replicateM fields (Z.to_nat count) ld) (λ ρ ys, Forall2 (R ρ) l ys).
Proof.
  intros Hf Hg HF. apply faithful_tagged; [done|by apply growing_forM|].
  rewrite Nat2Z.id. apply faithful_forM; [|done]. apply Forall_forall. auto.
Qed.

Lemma Forall2_eq {A} (l k : list A) : Forall2 (λ x y, y = x) l k → k = l.
Proof. induction 1; congruence. Qed.

Definition storableStrings (l : list str) : Prop :=
  shortEnough l = true ∧ Forall (λ s, shortEnough s = true) l.

Lemma faithful_storeStringList l :
  storableStrings l → faithful 2 (storeStringList fields l) (loadStringList fields) (λ _ a, a = l).
Proof.
  intros [Hl Hs]. apply (faithful_idStoreValue 1 m_stringLists on_stringLists).
  - by destruct l.
  - apply growing_bind; [apply growing_writeInt|]. apply growing_forM, growing_storeString.
  - apply keeping_bind; [apply keeping_write|]. apply keeping_forM, keeping_storeString.
  - eapply faithful_conseq; [|apply (faithful_counted 1 Int32 _ _ (λ _ x y, y = x))].
    + intros ρ k Hk. by apply Forall2_eq.
    + by apply fits_length.
    + apply growing_storeString.
    + eapply Forall_impl; [exact Hs|]. intros s. apply faithful_storeString.
Qed.

(** The environment with the [ks] first keys. *)
Definition firstKeys (env : gmap str str) (acc : gmap str str) (ks : list str) : gmap str str :=
  foldl (λ m k, <[k := default [] (env !! k)]> m) acc ks.

Lemma faithful_environmentValues env ks acc :
  Forall (λ k, shortEnough (default [] (env !! k)) = true) ks →
  faithful 2 (forM ks (λ k, storeString fields (default [] (env !! k))))
    (foldM (λ m k, x ← loadString fields; mret (<[k := x]> m)) ks acc) (λ _ m, m = firstKeys env acc ks).
Proof.
  revert acc. induction ks as [|k ks IH]; intros acc Hs; cbn [foldM].
  { by apply faithful_ret. }
  apply Forall_cons in Hs as [Hk Hs]. eapply faithful_ext; [apply forM_cons|].
  eapply faithful_conseq; [|apply (faithful_bind 2 _ _ _ _
    (λ _ m, m = <[k := default [] (env !! k)]> acc) (λ _ _ m, m = firstKeys env (<[k := default [] (env !! k)]> acc) ks))].
  - by intros ρ m (? & _ & ->).
  - apply growing_storeString.
  - apply growing_forM. intros k'. apply growing_storeString.
  - apply (faithful_then 2 _ _ _ (λ _ x, x = default [] (env !! k))).
    + apply (faithful_weaken 1); [lia|apply keeping_storeString|by apply faithful_storeString].
    + intros ρ x ->. by eexists.
  - intros ρ m ->. by apply IH.
Qed.

Lemma firstKeys_lookup env acc ks k :
  Forall (λ k, is_Some (env !! k)) ks →
  firstKeys env acc ks !! k = if decide (k ∈ ks) then env !! k else acc !! k.
Proof.
  intros Hks. revert acc. induction ks as [|k' ks IH]; intros acc; [done|].
  apply Forall_cons in Hks as [[x Hx] Hks]. unfold firstKeys. cbn [foldl]. fold (firstKeys env).
  change (firstKeys env (<[k' := default [] (env !! k')]> acc) ks !! k =
    if decide (k ∈ k' :: ks) then env !! k else acc !! k).
  rewrite (IH Hks). destruct (decide (k ∈ ks)) as [Hin|Hni].
  - rewrite decide_True by (by right). done.
  - destruct (decide (k = k')) as [->|Hne].
    + rewrite lookup_insert_eq, decide_True by left. by rewrite Hx.
    + rewrite lookup_insert_ne, decide_False by done || (by intros [?|?]%elem_of_cons). done.
Qed.

Lemma firstKeys_keys env : firstKeys env ∅ (keys env) = env.
Proof.
  apply map_eq. intros k. assert (∀ k, k ∈ keys env ↔ is_Some (env !! k)) as Hk.
  { intros k'. unfold keys. rewrite list_elem_of_fmap. split.
    - intros ([k2 x] & -> & Hin%elem_of_map_to_list). by exists x.
    - intros [x Hx]. exists (k', x). split; [done|]. by apply elem_of_map_to_list. }
  rewrite firstKeys_lookup by (apply Forall_forall; intros k'; apply Hk).
  case_decide as Hin; [done|]. rewrite lookup_empty. symmetry. apply eq_None_not_Some. by rewrite <-Hk.
Qed.

Definition storableEnvironment (env : gmap str str) : Prop :=
  storableStrings (keys env) ∧ map_Forall (λ _ s, shortEnough s = true) env.

Lemma faithful_storeEnvironment env :
  storableEnvironment env → faithful 3 (storeEnvironment fields env) (loadEnvironment fields) (λ _ a, a = env).
Proof.
  intros [Hk Hs]. apply (faithful_idStoreValue 2 m_envs on_envs).
  - by intros ?%bool_decide_eq_true.
  - apply growing_bind; [apply growing_storeStringList|]. apply growing_forM. intros k. apply growing_storeString.
  - apply keeping_bind; [apply keeping_storeStringList|]. apply keeping_forM. intros k.
    apply (keeping_mono 1); [lia|apply keeping_storeString].
  - eapply faithful_conseq; [|apply (faithful_bind 2 _ _ _ _ (λ _ ks, ks = keys env) (λ _ _ m, m = env))].
    + by intros ρ m (? & _ & ->).
    + apply growing_storeStringList.
    + apply growing_forM. intros k. apply growing_storeString.
    + by apply faithful_storeStringList.
    + intros ρ ks ->. eapply faithful_conseq; [|apply faithful_environmentValues].
      { intros ρ' m ->. apply firstKeys_keys. }
      apply Forall_forall. intros k _. destruct (env !! k) as [x|] eqn:E; [by apply (Hs k)|done].
Qed.
End Faithful.
Arguments renamed {_ _} lessThan ρ t _ _.
Arguments objects_match {_ _} fields shared classOf S L.
Arguments matchesUpto {_ _} fields shared classOf n S L.
Arguments entry_ok {_ _} fields lessThan contents classOf ρ x.
Arguments faithful {_ _} fields shared lessThan contents classOf n {_} m l good.
