(* ===== verification/PersistenceObjects.v ===== *)
(** * Variants and objects

    The object graph that is loaded is the one that was stored: the same objects with the
    same members and the same pointers between them. *)

From S2P Require Import Prelude StateMonad DataStream Persistence PersistenceCorrect.

Section Objects.
Context {Variant : Type} `{D : QDataStream Variant, !QDataStreamLaws D}.
Context (userType : Variant → Z).
Context {Class : Type} (fields : Class → SType Class) (shared : Class → bool)
  (nodeClass : NodeType → Class).
Context (lessThan : ∀ t : SType Class, denote Variant t → denote Variant t → bool).
Context (contents : ∀ c, Addr → denote Variant (fields c)) (classOf : Addr → Class).
Notation Pool := (PersistentPool (Object (Variant := Variant) fields)).
Notation PM := (st Pool PersistenceError).
Notation faithful := (faithful fields shared lessThan contents classOf).
Implicit Types p q S L : Pool.

(** ** Variants *)

(** Strings and lists are not too long, the keys of a map differ, and the types that only
    Qt knows are none of the types that the pool knows. *)
Fixpoint storableVariant (v : QVariant Variant) : Prop :=
  match v with
  | VString s => shortEnough s = true
  | VStringList l => storableStrings l
  | VList l => shortEnough l = true ∧ foldr (λ x P, storableVariant x ∧ P) True l
  | VMap l => shortEnough l = true ∧ NoDup l.*1 ∧
      foldr (λ kx P, (shortEnough kx.1 = true ∧ storableVariant kx.2) ∧ P) True l
  | VOther v => fits UInt32 (userType v) = true ∧
      userType v ∉ [typeString; typeStringList; typeVariantList; typeVariantMap]
  end.

Fixpoint depth (v : QVariant Variant) : nat :=
  match v with
  | VList l => S (foldr (λ x n, max (depth x) n) 0 l)
  | VMap l => S (foldr (λ kx n, max (depth kx.2) n) 0 l)
  | _ => 1
  end.

Lemma foldr_and {A} (P : A → Prop) l : foldr (λ x Q, P x ∧ Q) True l ↔ Forall P l.
Proof. induction l as [|x l IH]; simpl; [by split|]. by rewrite IH, Forall_cons. Qed.

Lemma foldr_max {A} (f : A → nat) l n : foldr (λ x n, max (f x) n) 0 l ≤ n ↔ Forall (λ x, f x ≤ n) l.
Proof.
  induction l as [|x l IH]; simpl; [split; [done|lia]|]. rewrite Forall_cons, <-IH. lia.
Qed.

Lemma mapInsert_new {A} k (x : A) l : k ∉ l.*1 → mapInsert k x l = l ++ [(k, x)].
Proof.
  induction l as [|[k' x'] l IH]; [done|]. cbn [mapInsert fmap list_fmap fst app].
  intros [Hne Hni]%not_elem_of_cons. rewrite bool_decide_eq_false_2 by done. by rewrite IH.
Qed.

Lemma mapInsert_all {A} (l acc : list (str * A)) :
  NoDup (acc ++ l).*1 → foldl (λ m kx, mapInsert kx.1 kx.2 m) acc l = acc ++ l.
Proof.
  revert acc. induction l as [|[k x] l IH]; intros acc Hn; cbn [foldl]; [by rewrite app_nil_r|].
  assert (k ∉ acc.*1) as Hk.
  { rewrite fmap_app in Hn. cbn [fmap list_fmap fst] in Hn. apply NoDup_app in Hn as (_ & Hd & _).
    intros Hin. by apply (Hd k Hin), list_elem_of_here. }
  cbn [fst snd]. rewrite mapInsert_new by done. rewrite IH; rewrite <-app_assoc; [done|exact Hn].
Qed.

(** The elements, and then what is made of them. *)
Lemma faithful_list n t {A B C} (f : A → PM unit) (ld : PM B) (R : gmap Addr Z → A → B → Prop) (l : list A)
    (g : list B → C) good :
  fits t (Z.of_nat (length l)) = true → (∀ x, growing fields (f x)) →
  Forall (λ x, faithful n (f x) ld (λ ρ y, R ρ x y)) l →
  (∀ ρ ys, Forall2 (R ρ) l ys → good ρ (g ys)) →
  faithful n (_ ← writeInt fields t (Z.of_nat (length l)); forM l f)
    (count ← readInt fields t; ys ← replicateM fields (Z.to_nat count) ld; mret (g ys)) good.
Proof.
  intros Hf Hg HF Hgood. apply faithful_tagged; [done|by apply growing_forM|]. rewrite Nat2Z.id.
  apply (faithful_then n _ _ _ (λ ρ ys, Forall2 (R ρ) l ys)).
  - apply faithful_forM; [|done]. apply Forall_forall. auto.
  - intros ρ ys _. exists (g ys). split; [done|]. auto.
Qed.

Lemma fits_variantType v : storableVariant v → fits UInt32 (variantType userType v) = true.
Proof. destruct v; simpl; try done. by intros [? _]. Qed.

Lemma faithful_pair {A} (m : PM unit) (l : PM A) k x :
  shortEnough k = true → growing fields m → faithful 2 m l (λ _ a, a = x) →
  faithful 2 (_ ← storeString fields k; m) (k' ← loadString fields; a ← l; mret (k', a))
    (λ _ kx, kx = (k, x)).
Proof.
  intros Hk Hg Hm. eapply faithful_conseq; [|apply (faithful_bind 2 _ _ _ _
    (λ _ a, a = k) (λ k' _ b, b = (k', x)))].
  - by intros ρ b (a & -> & ->).
  - apply growing_storeString.
  - done.
  - apply (faithful_weaken 1); [lia|apply keeping_storeString|by apply faithful_storeString].
  - intros ρ a ->. apply (faithful_then 2 _ _ _ (λ _ a, a = x)); [done|].
    intros ρ' a ->. by eexists.
Qed.

Lemma faithful_storeVariant v fuel :
  storableVariant v → depth v ≤ fuel →
  faithful 2 (storeVariant userType fields v) (loadVariantFuel fields fuel) (λ _ a, a = v).
Proof.
  revert fuel. induction v as [s|l|l IH|l IH|v] using QVariant_rect'; intros [|fuel] Hs Hd;
    try (simpl in Hd; lia); cbn [storeVariant loadVariantFuel];
    (apply faithful_tagged; [exact (fits_variantType _ Hs)| |cbn [variantType]]).
  - apply growing_storeString.
  - apply (faithful_then 2 _ _ _ (λ _ a, a = s)); [|intros ρ a ->; by eexists].
    apply (faithful_weaken 1); [lia|apply keeping_storeString|by apply faithful_storeString].
  - apply growing_storeStringList.
  - apply (faithful_then 2 _ _ _ (λ _ a, a = l)); [|intros ρ a ->; by eexists].
    by apply faithful_storeStringList.
  - apply growing_bind; [apply growing_writeInt|]. apply growing_forM, growing_storeVariant.
  - cbn [depth] in Hd. apply le_S_n, foldr_max in Hd. destruct Hs as [Hl Hs%foldr_and].
    apply (faithful_list 2 Int32 _ _ (λ _ x y, y = x)).
    + by apply fits_length.
    + apply growing_storeVariant.
    + apply Forall_forall. intros x Hx. rewrite Forall_forall in IH, Hs, Hd. by apply IH; auto.
    + intros ρ ys Hys. by rewrite (Forall2_eq l ys).
  - apply growing_bind; [apply growing_writeInt|]. apply growing_forM. intros kx.
    apply growing_bind; [apply growing_storeString|apply growing_storeVariant].
  - cbn [depth] in Hd. apply le_S_n, foldr_max in Hd. destruct Hs as (Hl & Hn & Hs%foldr_and).
    apply (faithful_list 2 Int32 _ _ (λ _ x y, y = x)).
    + by apply fits_length.
    + intros kx. apply growing_bind; [apply growing_storeString|apply growing_storeVariant].
    + apply Forall_forall. intros [k x] Hx. rewrite Forall_forall in IH, Hs, Hd.
      specialize (IH _ Hx fuel). destruct (Hs _ Hx) as [Hk Hv]. cbn [fst snd] in *.
      apply faithful_pair; [done|apply growing_storeVariant|]. apply IH; [done|]. by apply (Hd (k, x)).
    + intros ρ ys Hys. rewrite (Forall2_eq l ys) by done. by rewrite mapInsert_all.
  - apply growing_write.
  - destruct Hs as [_ Hn]. repeat (apply not_elem_of_cons in Hn as [? Hn]).
    rewrite !(proj2 (Z.eqb_neq _ _)) by done.
    apply (faithful_then 2 _ _ _ (λ _ a, a = v)); [apply faithful_writeVariant|].
    intros ρ a ->. by eexists.
Qed.

(** Each level of a variant takes bytes, so that the fuel of [loadVariant] is enough. *)
Definition writes (k : nat) (m : PM unit) : Prop :=
  ∀ S S', m S = (Ok tt, S') → length (m_stream S) + k ≤ length (m_stream S').

Lemma writes_growing m : growing fields m → writes 0 m.
Proof.
  intros Hg S S' E. specialize (Hg S). rewrite E in Hg.
  apply gr_stream, prefix_length in Hg. simpl in Hg. lia.
Qed.

Lemma writes_bind a b m m' : writes a m → writes b m' → writes (a + b) (_ ← m; m').
Proof.
  intros H H' S S' E. unfold mbind, st_bind in E. destruct (m S) as [[[]|e] S1] eqn:E1; [|done].
  apply H in E1. apply H' in E. lia.
Qed.

Lemma writes_writeInt z : writes 1 (writeInt fields UInt32 z).
Proof. intros S S' [= <-]. simpl. rewrite length_app, length_putInt. simpl. lia. Qed.

Lemma writes_forM {A} (f : A → PM unit) (k : A → nat) l :
  (∀ x, growing fields (f x)) → Forall (λ x, writes (k x) (f x)) l →
  writes (foldr (λ x n, max (k x) n) 0 l) (forM l f).
Proof.
  intros Hg. induction 1 as [|x l Hx Hl IH]; [intros S S' [= <-]; simpl; lia|].
  intros S S' E. rewrite forM_cons in E. cbn [foldr].
  pose proof (writes_bind _ _ _ _ Hx (writes_growing _ (growing_forM fields f l Hg)) S S' E) as H1.
  pose proof (writes_bind _ _ _ _ (writes_growing _ (Hg x)) IH S S' E) as H2. lia.
Qed.

Lemma writes_storeVariant v : writes (depth v) (storeVariant userType fields v).
Proof.
  induction v as [s|l|l IH|l IH|v] using QVariant_rect'; cbn [storeVariant depth].
  - apply (writes_bind 1 0); [apply writes_writeInt|apply writes_growing, growing_storeString].
  - apply (writes_bind 1 0); [apply writes_writeInt|apply writes_growing, growing_storeStringList].
  - apply (writes_bind 1); [apply writes_writeInt|].
    apply (writes_bind 0); [apply writes_growing, growing_writeInt|].
    apply writes_forM; [apply growing_storeVariant|done].
  - apply (writes_bind 1); [apply writes_writeInt|].
    apply (writes_bind 0); [apply writes_growing, growing_writeInt|].
    apply (writes_forM _ (λ kx, depth kx.2)).
    + intros kx. apply growing_bind; [apply growing_storeString|apply growing_storeVariant].
    + eapply Forall_impl; [exact IH|]. intros kx Hx.
      by apply (writes_bind 0); [apply writes_growing, growing_storeString|].
  - apply (writes_bind 1 0); [apply writes_writeInt|apply writes_growing, growing_write].
Qed.

Lemma faithful_loadVariant v :
  storableVariant v → faithful 2 (storeVariant userType fields v) (loadVariant fields) (λ _ a, a = v).
Proof.
  intros Hs S S' L w rest HS HB E Hw HM Hr. unfold loadVariant.
  pose proof (writes_storeVariant v S S' E) as Hl. rewrite Hw, length_app in Hl.
  assert (depth v ≤ Datatypes.S (length (m_stream L))) as Hd by (rewrite Hr, length_app; lia).
  exact (faithful_storeVariant v _ Hs Hd S S' L w rest HS HB E Hw HM Hr).
Qed.

Lemma keeping_storeVariant v : moves (keeps 2) (storeVariant userType fields v).
Proof.
  induction v as [s|l|l IH|l IH|v] using QVariant_rect'; cbn [storeVariant];
    (apply keeping_bind; [apply keeping_write|]).
  - apply (keeping_mono 1); [lia|apply keeping_storeString].
  - apply keeping_storeStringList.
  - apply keeping_bind; [apply keeping_write|]. apply moves_forM; [apply _|].
    intros x Hx. by apply (proj1 (Forall_forall _ _) IH).
  - apply keeping_bind; [apply keeping_write|]. apply moves_forM; [apply _|]. intros kx Hx.
    apply keeping_bind; [apply (keeping_mono 1); [lia|apply keeping_storeString]|].
    by apply (proj1 (Forall_forall _ _) IH).
  - apply keeping_write.
Qed.

(** ** Objects *)

(** The objects that can be reached, each of one class, and values that fit the stream. *)
Context (live : gset Addr).

Definition object_of (c : Class) (a : Addr) : Prop := a ∈ live ∧ classOf a = c.

Fixpoint storable (t : SType Class) : denote Variant t → Prop :=
  match t return denote Variant t → Prop with
  | SInt i => λ z : Z, fits i z = true
  | SString | SFileTag => λ s, shortEnough s = true
  | SStringList => storableStrings
  | SEnvironment => storableEnvironment
  | SVariant => storableVariant
  | SUnit => λ _, True
  | SPair t u => λ x, storable t x.1 ∧ storable u x.2
  | SContainer t | SSet t => λ l, shortEnough l = true ∧ Forall (storable t) l
  | SKeyValue t | SUnorderedMap t => λ m,
      (Z.of_nat (size m) < 2 ^ 30)%Z ∧ map_Forall (λ k x, shortEnough k = true ∧ storable t x) m
  | SPointer c => λ o : option Addr, match o with Some a => object_of c a | None => True end
  | SNodePointer => λ n, object_of (nodeClass n.1) n.2
  end.

Definition heap_ok : Prop := ∀ c a, object_of c a → storable (fields c) (contents c a).

(** The members of all objects are stored and loaded faithfully. *)
Section Members.
Context (so : Class → Addr → PM unit) (lo : ∀ c, PM (denote Variant (fields c))).
Hypothesis so_growing : ∀ c a, growing fields (so c a).
Hypothesis so_faithful : ∀ c a, object_of c a →
  faithful 4 (so c a) (lo c) (λ ρ x, renamed lessThan ρ (fields c) (contents c a) x).

(** A pointer to an object that is known, or not. *)
Definition getLoaded (c : Class) (p : Pool) : list (option Addr) :=
  if shared c then m_loaded p else m_loadedRaw p.
Definition onLoaded (c : Class) (f : list (option Addr) → list (option Addr)) : Pool → Pool :=
  if shared c then on_loaded f else on_loadedRaw f.

Lemma loadPointer_eq c L :
  loadPointer fields shared lo c L = idLoadFrom fields (getLoaded c) (onLoaded c) lo c L.
Proof. unfold loadPointer, getLoaded, onLoaded. by destruct (shared c). Qed.

Lemma objects_match_stream S L f g :
  objects_match fields shared classOf S L → objects_match fields shared classOf (on_stream f S) (on_stream g L).
Proof. by intros []. Qed.

(** The state after a new object has been registered on both sides. *)
Lemma objects_match_new S L c a :
  pool_ok S → m_storageIndices S !! a = None → classOf a = c → objects_match fields shared classOf S L →
  let id := m_lastStoredObjectId S in
  objects_match fields shared classOf (on_indices (<[a := id]>) (λ n, n + 1)%Z S)
    (onLoaded c (λ l, <[Z.to_nat id := Some (m_newAddress L)]> (resize (1 + Z.to_nat id) None l))
       (on_objects (λ l, l) (λ n, n + 1)%Z L)).
Proof.
  intros HS Ha Hc [H1 H2 H3 H4] id. pose proof (po_last _ HS) as H0. fold id in H0, H1, H2, H3.
  assert (∀ l x : list (option Addr), length (<[Z.to_nat id := Some (m_newAddress L)]> (resize (1 + Z.to_nat id) None l))
    = 1 + Z.to_nat id) as Hlen by (intros l _; by rewrite length_insert, length_resize).
  split; unfold onLoaded; cbn [m_lastStoredObjectId on_indices m_storageIndices].
  - by destruct (shared c); simpl; rewrite H1.
  - destruct (shared c); cbn [m_loaded on_loaded on_loadedRaw on_objects]; [rewrite (Hlen _ [])|]; fold id; lia.
  - destruct (shared c); cbn [m_loadedRaw on_loaded on_loadedRaw on_objects]; [|rewrite (Hlen _ [])]; fold id; lia.
  - intros b i. destruct (decide (a = b)) as [<-|Hne].
    + rewrite lookup_insert_eq. intros [= <-]. rewrite Hc, H1. fold id.
      destruct (shared c); cbn [m_loaded m_loadedRaw on_loaded on_loadedRaw on_objects];
        (rewrite list_lookup_insert_eq; [done|rewrite length_resize; lia]).
    + rewrite lookup_insert_ne by done. intros Hb. pose proof (po_indices _ HS b i Hb) as Hi. fold id in Hi.
      specialize (H4 b i Hb).
      assert (∀ l : list (option Addr), l !! Z.to_nat i = Some (Some (i : Addr)) →
        <[Z.to_nat id := Some (m_newAddress L)]> (resize (1 + Z.to_nat id) None l) !! Z.to_nat i = Some (Some (i : Addr))) as Hl.
      { intros l Hl. rewrite list_lookup_insert_ne by lia. rewrite lookup_resize; [done|lia|by eapply lookup_lt_Some]. }
      destruct (shared c), (shared (classOf b)); cbn; auto.
Qed.

Lemma matchesUpto_4 S L :
  matchesUpto fields shared classOf 4 S L ↔
  storages_match (m_strings S) (m_strings L) ∧ storages_match (m_stringLists S) (m_stringLists L) ∧
  storages_match (m_envs S) (m_envs L) ∧ objects_match fields shared classOf S L.
Proof. unfold matchesUpto. split; [intros (H1 & H2 & H3 & H4); split_and!; auto with lia|tauto]. Qed.

Lemma pool_ok_stream f p : pool_ok p → pool_ok (on_stream f p).
Proof. by intros []. Qed.

Lemma keeps_4 p q : keeps 4 p q.
Proof. split_and!; lia. Qed.

Lemma readInt_put t z p rest :
  fits t z = true → m_stream p = putInt t z ++ rest →
  readInt fields t p = (Ok z, on_stream (λ _, rest) p).
Proof. intros Hf Hp. unfold readInt. by rewrite Hp, getInt_put. Qed.

Definition pointerRenamed (ρ : gmap Addr Z) (x y : option Addr) : Prop :=
  match x, y with None, None => True | Some a, Some b => ρ !! a = Some b | _, _ => False end.

(** The object is known. *)
Lemma faithful_known c a S L id rest :
  pool_ok S → bounded S → m_storageIndices S !! a = Some id → classOf a = c →
  matchesUpto fields shared classOf 4 S L → m_stream L = putInt Int32 id ++ rest →
  loadPointer fields shared lo c L = (Ok (Some id), on_stream (λ _, rest) L).
Proof.
  intros HS HB Ha Hc HM Hr. pose proof (po_indices _ HS a id Ha) as Hid.
  assert (fits Int32 id = true) as Hf by (apply fits_id; destruct HB as [HB _]; lia).
  rewrite loadPointer_eq. unfold idLoadFrom, mbind, st_bind, gets.
  rewrite (readInt_put Int32 id L rest) by done.
  rewrite (proj2 (Z.ltb_ge id 0)) by lia.
  apply matchesUpto_4 in HM as (_ & _ & _ & HM). pose proof (om_known _ _ HM a id Ha) as Hk.
  rewrite Hc in Hk. unfold getLoaded. destruct (shared c); cbn [m_loaded m_loadedRaw on_stream]; by rewrite Hk.
Qed.

Lemma faithful_storeSharedObject c o :
  (∀ a, o = Some a → object_of c a) →
  faithful 4 (storeSharedObject fields so c o) (loadPointer fields shared lo c) (λ ρ x, pointerRenamed ρ o x).
Proof.
  intros Ho S S' L w rest HS HB E Hw HM Hr. destruct o as [a|]; cbn [storeSharedObject] in E.
  2: { injection E as <-. apply app_inv_head in Hw as <-. rewrite loadPointer_eq.
    unfold idLoadFrom, mbind, st_bind. rewrite (readInt_put Int32 (-1) L rest) by done.
    exists None, (on_stream (λ _, rest) L), []. rewrite app_nil_r, Z.sub_diag.
    split_and!; try done; [apply keeps_4..|by apply matchesUpto_stream]. }
  destruct (Ho a eq_refl) as [Hlive Hc]. unfold mbind, st_bind, gets in E.
  destruct (m_storageIndices S !! a) as [id|] eqn:Ea.
  - rewrite writeInt_eq in E. injection E as <-. apply app_inv_head in Hw as <-.
    rewrite (faithful_known c a S L id rest) by done.
    exists (Some id), (on_stream (λ _, rest) L), []. rewrite app_nil_r, Z.sub_diag.
    split_and!; try done; [by apply matchesUpto_stream|]. intros ρ Hρ. split; [|done].
    simpl. by eapply lookup_weaken.
  - unfold modify in E. rewrite writeInt_eq in E. set (id := m_lastStoredObjectId S) in *.
    set (S1 := on_indices (<[a := id]>) (λ n, n + 1)%Z S) in *.
    set (S2 := on_stream (λ o, o ++ putInt Int32 id) S1) in E.
    assert (grows S S2) as Gr.
    { etrans; [by apply (grows_newIndex fields S a)|]. apply grows_same; try done. by apply prefix_app_r. }
    assert (grows S2 S') as Gr' by (specialize (so_growing c a S2); by rewrite E in so_growing).
    pose proof (gr_ok _ _ Gr HS) as HS2. destruct (gr_stream _ _ Gr') as [w2 Hw2].
    assert (w = putInt Int32 id ++ w2) as ->.
    { apply (app_inv_head (m_stream S)). rewrite <-Hw, Hw2. simpl. by rewrite <-app_assoc. }
    rewrite <-app_assoc in Hr. pose proof (po_last _ HS) as H0. fold id in H0.
    assert (id < 2 ^ 31)%Z as Hid.
    { pose proof (gr_last _ _ Gr') as Hle. simpl in Hle. fold id in Hle. destruct HB as [HB _]. lia. }
    rewrite loadPointer_eq. unfold idLoadFrom, mbind, st_bind, gets, modify.
    rewrite (readInt_put Int32 id L (w2 ++ rest)) by (done || (apply fits_id; lia)).
    rewrite (proj2 (Z.ltb_ge id 0)) by lia.
    apply matchesUpto_4 in HM as (M1 & M2 & M3 & M4). pose proof M4 as [Hadr Hld Hraw Hkn]. fold id in Hadr, Hld, Hraw.
    assert (getLoaded c (on_stream (λ _, w2 ++ rest) L) !! Z.to_nat id = None) as ->.
    { apply lookup_ge_None_2. unfold getLoaded. destruct (shared c); simpl; lia. }
    change (m_newAddress (on_stream (λ _, w2 ++ rest) L)) with (m_newAddress L).
    set (L1 := onLoaded c _ _).
    assert (m_stream L1 = w2 ++ rest ∧ m_objects L1 = m_objects L ∧ m_strings L1 = m_strings L ∧
      m_stringLists L1 = m_stringLists L ∧ m_envs L1 = m_envs L) as (Ls & Lo & Lst & Lli & Len)
      by (unfold L1, onLoaded; by destruct (shared c)).
    assert (matchesUpto fields shared classOf 4 S2 L1) as HM1.
    { apply matchesUpto_4. rewrite Lst, Lli, Len. split_and!; try done.
      exact (objects_match_new (on_stream (λ o, o ++ putInt Int32 id) S) (on_stream (λ _, w2 ++ rest) L) c a
        (pool_ok_stream _ _ HS) Ea Hc (objects_match_stream _ _ _ _ M4)). }
    destruct (so_faithful c a (Ho a eq_refl) S2 S' L1 w2 rest HS2 HB E Hw2 HM1 Ls)
      as (x & L2 & new & -> & Hr2 & _ & HM2 & O2 & P2 & R2).
    eexists (Some (m_newAddress L)), _, (new ++ [(id, existT c x)]).
    split; [reflexivity|]. split; [done|]. split; [apply keeps_4|]. split.
    { apply matchesUpto_4 in HM2 as (? & ? & ? & []). apply matchesUpto_4. split_and!; done. }
    split; [simpl; rewrite O2, Lo, Hadr; simpl; by rewrite <-app_assoc|].
    split.
    { rewrite fmap_app, P2. cbn [fmap list_fmap fst]. simpl. fold id.
      rewrite Permutation_app_comm. rewrite <-(seqZ_split id (id + 1) (m_lastStoredObjectId S')).
      - by replace (id + 1 - id)%Z with 1%Z by lia.
      - pose proof (gr_last _ _ Gr') as Hle. simpl in Hle. fold id in Hle. lia. }
    intros ρ Hρ. destruct (R2 ρ Hρ) as [Hx Hnew].
    assert (ρ !! a = Some id) as Hρa.
    { eapply lookup_weaken; [|exact Hρ]. eapply lookup_weaken; [|apply (gr_indices _ _ Gr')].
      simpl. by rewrite lookup_insert_eq. }
    split; [by rewrite Hadr|]. apply Forall_app. split; [done|]. constructor; [|done].
    by exists a.
Qed.

(** ** Values of any type *)

Lemma growing_store' t v : growing fields (store userType fields nodeClass so t v).
Proof. apply growing_store, so_growing. Qed.

Lemma weaken_4 n {A} (m : PM unit) (l : PM A) good :
  n ≤ 4 → moves (keeps n) m → faithful n m l good → faithful 4 m l good.
Proof. apply faithful_weaken. Qed.

Lemma faithful_4_string s :
  shortEnough s = true → faithful 4 (storeString fields s) (loadString fields) (λ _ x, s = x).
Proof.
  intros Hs. eapply faithful_conseq; [|apply (weaken_4 1); [lia|apply keeping_storeString|by apply faithful_storeString]].
  by intros ρ a ->.
Qed.


(** Inserting what was listed gives the map, with other values. *)
Lemma foldl_insert {A} (ins : str → A → gmap str A → gmap str A) (l : list (str * A)) (acc : gmap str A) :
  (∀ k x m, m !! k = None → ins k x m = <[k := x]> m) →
  NoDup l.*1 → (∀ k, k ∈ l.*1 → acc !! k = None) →
  ∀ k, foldl (λ m kx, ins kx.1 kx.2 m) acc l !! k =
    match list_to_map (M := gmap str A) l !! k with Some x => Some x | None => acc !! k end.
Proof.
  intros Hins. revert acc. induction l as [|[k' x'] l IH]; intros acc Hn Hacc k; cbn [foldl fst snd list_to_map foldr].
  { by rewrite lookup_empty. }
  apply NoDup_cons in Hn as [Hni Hn]. cbn [fst] in Hni.
  rewrite Hins by (apply Hacc; left).
  rewrite IH; [|done|].
  - cbn [list_to_map foldr uncurry]. destruct (decide (k' = k)) as [<-|Hne].
    + rewrite lookup_insert_eq. rewrite not_elem_of_list_to_map_1 by done. by rewrite lookup_insert_eq.
    + by rewrite !lookup_insert_ne by done.
  - intros k2 Hk2. rewrite lookup_insert_ne; [apply Hacc; by right|]. intros ->. done.
Qed.

Lemma foldl_insert_map {A B : Type} (ins : str → B → gmap str B → gmap str B) (R : A → B → Prop) (m : gmap str A) ys :
  (∀ k x m, m !! k = None → ins k x m = <[k := x]> m) →
  Forall2 (λ kx ky, kx.1 = ky.1 ∧ R kx.2 ky.2) (map_to_list m) ys →
  ∀ k, option_Forall2 R (m !! k) (foldl (λ m kx, ins kx.1 kx.2 m) ∅ ys !! k).
Proof.
  intros Hins Hys k.
  assert (ys.*1 = (map_to_list m).*1) as Hk.
  { clear Hins. induction Hys as [|[? ?] [? ?] l l' [Hk _] _ IH]; [done|]. simpl in *. by f_equal. }
  assert (NoDup ys.*1) as Hn by (rewrite Hk; apply NoDup_fst_map_to_list).
  rewrite (foldl_insert ins) by (done || (intros; apply lookup_empty)).
  rewrite lookup_empty.
  assert (∀ o : option B, match o with Some x => Some x | None => None end = o) as -> by (by intros []).
  assert (m !! k = list_to_map (M := gmap str A) (map_to_list m) !! k) as -> by (by rewrite list_to_map_to_list).
  pose proof (NoDup_fst_map_to_list m) as Hn'. revert Hn Hn' Hk. induction Hys as [|[k1 x1] [k2 x2] l l' [Hkk Hx] _ IH]; intros Hn Hn' Hk.
  - cbn [list_to_map foldr]. rewrite !lookup_empty. constructor.
  - cbn in Hkk, Hx. subst k2. cbn [list_to_map foldr uncurry]. destruct (decide (k1 = k)) as [<-|Hne].
    + rewrite !lookup_insert_eq. by constructor.
    + rewrite !lookup_insert_ne by done. cbn in Hn, Hn', Hk. apply NoDup_cons in Hn as [_ ?], Hn' as [_ ?].
      injection Hk as Hk. by apply IH.
Qed.

Lemma faithful_map_values t (ct : IntType) (ins : str → denote Variant t → gmap str (denote Variant t) → gmap str (denote Variant t)) m :
  (∀ v, storable t v → faithful 4 (store userType fields nodeClass so t v)
     (load fields shared nodeClass lessThan lo t) (λ ρ x, renamed lessThan ρ t v x)) →
  (∀ k x m, m !! k = None → ins k x m = <[k := x]> m) →
  fits ct (Z.of_nat (size m)) = true → map_Forall (λ k x, shortEnough k = true ∧ storable t x) m →
  faithful 4
    (_ ← writeInt fields ct (Z.of_nat (size m));
     forM (map_to_list m) (λ kx, _ ← storeString fields kx.1; store userType fields nodeClass so t kx.2))
    (loadMap fields ct ins (load fields shared nodeClass lessThan lo t))
    (λ ρ x, ∀ k, option_Forall2 (renamed lessThan ρ t) (m !! k) (x !! k)).
Proof.
  intros IH Hins Hf Hm. unfold loadMap. rewrite <-length_map_to_list.
  apply (faithful_list 4 ct _ _ (λ ρ kx ky, kx.1 = ky.1 ∧ renamed lessThan ρ t kx.2 ky.2)).
  - by rewrite length_map_to_list.
  - intros kx. apply growing_bind; [apply growing_storeString|apply growing_store'].
  - apply Forall_forall. intros [k x] Hin%elem_of_map_to_list. destruct (Hm k x Hin) as [Hk Hx]. cbn [fst snd].
    eapply faithful_conseq; [|apply (faithful_bind 4 _ _ _ _ (λ _ k', k = k')
      (λ k' ρ ky, ∃ y, ky = (k', y) ∧ renamed lessThan ρ t x y))].
    + intros ρ ky (k' & <- & y & -> & Hy). done.
    + apply growing_storeString.
    + apply growing_store'.
    + by apply faithful_4_string.
    + intros ρ k' <-. by apply faithful_map, IH.
  - intros ρ ys Hys. by apply (foldl_insert_map ins (renamed lessThan ρ t)).
Qed.

Lemma fits_size ct n :
  (ct = Int32 ∨ ct = UInt32) → (Z.of_nat n < 2 ^ 30)%Z → fits ct (Z.of_nat n) = true.
Proof.
  intros [-> | ->] Hn; unfold fits; cbn [isSigned]; rewrite andb_true_iff, Z.leb_le, Z.ltb_lt.
  - change (modulus Int32 / 2)%Z with (2 ^ 31)%Z. lia.
  - change (modulus UInt32)%Z with (2 ^ 32)%Z. lia.
Qed.

Lemma faithful_store t v :
  storable t v → faithful 4 (store userType fields nodeClass so t v) (load fields shared nodeClass lessThan lo t)
    (λ ρ x, renamed lessThan ρ t v x).
Proof.
  induction t as [i| | | | | | |t IHt u IHu|t IH|t IH|t IH|t IH|c|]; intros Hv; cbn [store load renamed].
  - eapply faithful_conseq; [|by apply faithful_writeInt]. by intros ρ a ->.
  - by apply faithful_4_string.
  - eapply faithful_conseq; [|apply (weaken_4 2); [lia|apply keeping_storeStringList|by apply faithful_storeStringList]].
    by intros ρ a ->.
  - eapply faithful_conseq; [|apply (weaken_4 3); [lia|apply keeping_storeEnvironment|by apply faithful_storeEnvironment]].
    by intros ρ a ->.
  - eapply faithful_conseq; [|apply (weaken_4 2); [lia|apply keeping_storeVariant|by apply faithful_loadVariant]].
    by intros ρ a ->.
  - by apply faithful_4_string.
  - apply faithful_ret. by destruct v.
  - destruct v as [x y], Hv as [Hx Hy]. cbn [fst snd].
    eapply faithful_conseq; [|apply (faithful_bind 4 _ _ _ _ (λ ρ x', renamed lessThan ρ t x x')
      (λ x' ρ xy, ∃ y', xy = (x', y') ∧ renamed lessThan ρ u y y'))].
    + intros ρ xy (x' & Hx' & y' & -> & Hy'). done.
    + apply growing_store'.
    + apply growing_store'.
    + by apply IHt.
    + intros ρ x' _. by apply faithful_map, IHu.
  - destruct Hv as [Hl Hs]. apply (faithful_counted 4 Int32 _ _ (λ ρ x y, renamed lessThan ρ t x y)).
    + by apply fits_length.
    + apply growing_store'.
    + eapply Forall_impl; [exact Hs|]. intros x Hx. by apply IH.
  - destruct Hv as [Hn Hm]. apply faithful_map_values; try done. apply fits_size; auto.
  - destruct Hv as [Hn Hm]. apply faithful_map_values; try done.
    + intros k x m. unfold insertNew. by intros ->.
    + apply fits_size; auto.
  - destruct Hv as [Hl Hs]. apply (faithful_list 4 Int32 _ _ (λ ρ x y, renamed lessThan ρ t x y)).
    + by apply fits_length.
    + apply growing_store'.
    + eapply Forall_impl; [exact Hs|]. intros x Hx. by apply IH.
    + intros ρ ys Hys. by exists ys.
  - apply faithful_storeSharedObject. by intros a ->.
  - destruct v as [nt a]. cbn [fst snd] in *. unfold loadBuildGraphNode.
    apply faithful_tagged; [by destruct nt|apply growing_storeSharedObject, so_growing|].
    assert (∀ nt, object_of (nodeClass nt) a → faithful 4 (storeSharedObject fields so (nodeClass nt) (Some a))
      (node ← loadPointer fields shared lo (nodeClass nt);
       match node with Some node => mret (nt, node) | None => throw CheckFailed end)
      (λ ρ x, nt = x.1 ∧ ρ !! a = Some x.2)) as Hn.
    { clear nt Hv. intros nt Hv.
      apply (faithful_then 4 _ _ _ (λ ρ x, pointerRenamed ρ (Some a) x)).
      - apply faithful_storeSharedObject. by intros a' [= <-].
      - intros ρ [b|]; [|done]. intros _. exists (nt, b). split; [done|]. intros ρ' Hb. done. }
    destruct nt; by apply Hn.
Qed.
End Members.

(** ** All objects *)

Notation storeObjects := (storeObject userType fields nodeClass contents).
Notation loadObjects := (loadObject fields shared nodeClass lessThan).

Lemma faithful_storeObject fuel fuel' c a :
  heap_ok → fuel ≤ fuel' → object_of c a →
  faithful 4 (storeObjects fuel c a) (loadObjects fuel' c)
    (λ ρ x, renamed lessThan ρ (fields c) (contents c a) x).
Proof.
  intros Hh. revert fuel' c a. induction fuel as [|fuel IH]; intros [|fuel'] c a Hf Ha; try lia; cbn [storeObject loadObject].
  - intros S S' L w rest HS HB E. done.
  - intros S S' L w rest HS HB E. done.
  - apply faithful_store.
    + intros c' a'. apply growing_storeObject.
    + intros c' a' Ha'. apply IH; [lia|done].
    + by apply Hh.
Qed.

(** *** Storing ends *)

(** The objects that have no id yet. *)
Definition todo (p : Pool) : nat := size (live ∖ dom (D := gset Addr) (m_storageIndices p)).

(** [m] returns when at most [k] objects are left. *)
Definition returns (k : nat) (m : PM unit) : Prop := ∀ S, todo S ≤ k → ∃ S', m S = (Ok tt, S').

Lemma todo_grows p q : grows p q → todo q ≤ todo p.
Proof.
  intros G. unfold todo. apply (subseteq_size (C := gset Addr)).
  pose proof (subseteq_dom (D := gset Addr) _ _ (gr_indices _ _ G)). set_solver.
Qed.

Lemma returns_write k s : returns k (write fields s).
Proof. intros S _. by eexists. Qed.

Lemma returns_bind k m m' : growing fields m → returns k m → returns k m' → returns k (_ ← m; m').
Proof.
  intros G H H' S Hk. destruct (H S Hk) as [S1 E1]. unfold mbind, st_bind. rewrite E1.
  apply H'. specialize (G S). rewrite E1 in G. apply todo_grows in G. simpl in G. lia.
Qed.

Lemma returns_forM k {A} (f : A → PM unit) l :
  (∀ x, growing fields (f x)) → Forall (λ x, returns k (f x)) l → returns k (forM l f).
Proof.
  intros G. induction 1 as [|x l Hx _ IH]; [intros S _; by eexists|].
  intros S Hk. rewrite forM_cons. by apply (returns_bind k (f x) (forM l f)).
Qed.

Lemma returns_forM' k {A} (f : A → PM unit) l :
  (∀ x, growing fields (f x)) → (∀ x, returns k (f x)) → returns k (forM l f).
Proof. intros G H. apply returns_forM; [done|]. by apply Forall_true. Qed.

Lemma returns_idStoreValue k {T} `{Countable T} isEmpty get upd doStore value :
  adds_ids fields get upd → returns k (doStore value) →
  returns k (idStoreValue (T := T) fields isEmpty get upd doStore value).
Proof.
  intros Ha Hd S Hk. unfold idStoreValue. destruct (isEmpty value); [by eexists|].
  unfold mbind, st_bind, gets. destruct (_ <? 0)%Z; [|by eexists].
  unfold modify. rewrite writeInt_eq. apply Hd.
  pose proof (todo_grows _ _ (Ha S value)) as Ht. etrans; [exact Ht|done].
Qed.

Lemma returns_storeString k s : returns k (storeString fields s).
Proof. apply returns_idStoreValue; [apply adds_strings|apply returns_write]. Qed.

Lemma returns_storeStringList k l : returns k (storeStringList fields l).
Proof.
  apply returns_idStoreValue; [apply adds_stringLists|].
  apply returns_bind; [apply growing_writeInt|apply returns_write|].
  apply returns_forM'; [apply growing_storeString|apply returns_storeString].
Qed.

Lemma returns_storeEnvironment k env : returns k (storeEnvironment fields env).
Proof.
  apply returns_idStoreValue; [apply adds_envs|].
  apply returns_bind; [apply growing_storeStringList|apply returns_storeStringList|].
  apply returns_forM'; intros x; [apply growing_storeString|apply returns_storeString].
Qed.

Lemma returns_storeVariant k v : returns k (storeVariant userType fields v).
Proof.
  induction v as [s|l|l IH|l IH|v] using QVariant_rect'; cbn [storeVariant];
    (apply returns_bind; [apply growing_writeInt|apply returns_write|]).
  - apply returns_storeString.
  - apply returns_storeStringList.
  - apply returns_bind; [apply growing_writeInt|apply returns_write|].
    apply returns_forM; [apply growing_storeVariant|done].
  - apply returns_bind; [apply growing_writeInt|apply returns_write|]. apply returns_forM.
    + intros kx. apply growing_bind; [apply growing_storeString|apply growing_storeVariant].
    + eapply Forall_impl; [exact IH|]. intros kx Hx.
      apply returns_bind; [apply growing_storeString|apply returns_storeString|done].
  - apply returns_write.
Qed.

Section Returns.
Context (k : nat) (so : Class → Addr → PM unit).
Hypothesis so_growing : ∀ c a, growing fields (so c a).
Hypothesis so_returns : ∀ j c a, j < k → object_of c a → returns j (so c a).

Lemma returns_storeSharedObject c o :
  (∀ a, o = Some a → object_of c a) → returns k (storeSharedObject fields so c o).
Proof.
  intros Ho S Hk. destruct o as [a|]; [|by eexists]. pose proof (Ho a eq_refl) as Ha.
  unfold storeSharedObject, mbind, st_bind, gets.
  destruct (m_storageIndices S !! a) as [id|] eqn:Ea; [by eexists|].
  unfold modify. rewrite writeInt_eq. set (S2 := on_stream _ _).
  assert (todo S2 < todo S) as Ht.
  { unfold todo. apply (subset_size (C := gset Addr)). cbn [S2 m_storageIndices on_stream on_indices].
    destruct Ha as [Hl _]. apply (not_elem_of_dom (D := gset Addr)) in Ea.
    rewrite (dom_insert_L (D := gset Addr)). set_solver. }
  apply (so_returns (todo S2)); [lia|done|lia].
Qed.

Lemma returns_values t ct m :
  (∀ v, storable t v → returns k (store userType fields nodeClass so t v)) →
  map_Forall (λ key x, shortEnough key = true ∧ storable t x) m →
  returns k (_ ← writeInt fields ct (Z.of_nat (size m));
    forM (map_to_list m) (λ kx, _ ← storeString fields kx.1; store userType fields nodeClass so t kx.2)).
Proof.
  intros IH Hm. apply returns_bind; [apply growing_writeInt|apply returns_write|]. apply returns_forM.
  - intros kx. apply growing_bind; [apply growing_storeString|by apply growing_store].
  - apply Forall_forall. intros [key x] Hin%elem_of_map_to_list. destruct (Hm key x Hin) as [_ Hx].
    apply returns_bind; [apply growing_storeString|apply returns_storeString|by apply IH].
Qed.

Lemma returns_store t v : storable t v → returns k (store userType fields nodeClass so t v).
Proof.
  assert (∀ t v, growing fields (store userType fields nodeClass so t v)) as G
    by (intros; by apply growing_store).
  induction t as [i| | | | | | |t IHt u IHu|t IH|t IH|t IH|t IH|c|]; intros Hv; cbn [store].
  - apply returns_write.
  - apply returns_storeString.
  - apply returns_storeStringList.
  - apply returns_storeEnvironment.
  - apply returns_storeVariant.
  - apply returns_storeString.
  - intros S _. by eexists.
  - destruct Hv. apply returns_bind; [done|by apply IHt|by apply IHu].
  - destruct Hv as [_ Hs]. apply returns_bind; [apply growing_writeInt|apply returns_write|].
    apply returns_forM; [done|]. eapply Forall_impl; [exact Hs|]. intros x Hx. by apply IH.
  - destruct Hv as [_ Hm]. by apply returns_values.
  - destruct Hv as [_ Hm]. by apply returns_values.
  - destruct Hv as [_ Hs]. apply returns_bind; [apply growing_writeInt|apply returns_write|].
    apply returns_forM; [done|]. eapply Forall_impl; [exact Hs|]. intros x Hx. by apply IH.
  - apply returns_storeSharedObject. by intros a ->.
  - apply returns_bind; [apply growing_writeInt|apply returns_write|].
    apply returns_storeSharedObject. by intros a [= <-].
Qed.
End Returns.

Lemma returns_storeObject n j c a :
  heap_ok → j < n → object_of c a → returns j (storeObjects n c a).
Proof.
  intros Hh. revert j c a. induction n as [|n IH]; intros j c a Hj Ha; [lia|]. cbn [storeObject].
  apply returns_store.
  - intros c' a'. apply growing_storeObject.
  - intros j' c' a' Hj' Ha'. apply IH; [lia|done].
  - by apply Hh.
Qed.
End Objects.
