(* ===== verification/PersistenceFile.v ===== *)
(** * Build graph files

    A project that has been stored in a file and loaded from it has the same objects with
    the same values and the same pointers between them; a file whose writing was
    interrupted is not loaded. *)

From S2P Require Import Prelude StateMonad DataStream Persistence PersistenceCorrect PersistenceObjects.

Section File.
Context {Variant : Type} `{D : QDataStream Variant, !QDataStreamLaws D}.
Context (userType : Variant → Z).
Context {Class : Type} (fields : Class → SType Class) (shared : Class → bool)
  (nodeClass : NodeType → Class).
Context (lessThan : ∀ t : SType Class, denote Variant t → denote Variant t → bool).
Context (contents : ∀ c, Addr → denote Variant (fields c)) (classOf : Addr → Class) (live : gset Addr).
Context {Config : Type} (putConfig : Config → str) (getConfig : str → Config * str).
Notation Pool := (PersistentPool (Object (Variant := Variant) fields)).
Notation PM := (st Pool PersistenceError).
Notation storable := (storable userType nodeClass classOf live).
Notation heap_ok := (heap_ok userType fields nodeClass contents classOf live).
Notation matchesUpto := (matchesUpto fields shared classOf).
Implicit Types p q S L : Pool.

(** What is reached from a value of the type [t] is stored, and loaded. *)
Definition storeRoot (t : SType Class) (v : denote Variant t) : PM unit :=
  store userType fields nodeClass (storeObject userType fields nodeClass contents (size live)) t v.
Definition loadRoot (fuel : nat) (t : SType Class) : PM (denote Variant t) :=
  load fields shared nodeClass lessThan (loadObject fields shared nodeClass lessThan fuel) t.

(** The loaded value [x] and the loaded objects are the stored value and the stored
    objects: [ρ] is an isomorphism of the object graphs. *)
Record sameGraph (ρ : gmap Addr Z) (t : SType Class) (v x : denote Variant t)
    (objects : list (Addr * Object fields)) : Prop := {
  sg_root : renamed lessThan ρ t v x;
  sg_once : NoDup objects.*1;
  sg_injective a b id : ρ !! a = Some id → ρ !! b = Some id → a = b;
  sg_all a id : ρ !! a = Some id → ∃ y, (id, existT (classOf a) y) ∈ objects ∧
    renamed lessThan ρ (fields (classOf a)) (contents (classOf a) a) y;
  sg_only id o : (id, o) ∈ objects → ∃ a, ρ !! a = Some id
}.

(** Storing into a pool without objects, and loading into one. *)
Lemma roundtrip_from S L t v fuel rest :
  heap_ok → storable t v → size live ≤ fuel →
  pool_ok S → m_storageIndices S = ∅ → m_lastStoredObjectId S = 0%Z → matchesUpto 4 S L → m_objects L = [] →
  ∃ S' w, storeRoot t v S = (Ok tt, S') ∧ m_stream S' = m_stream S ++ w ∧
    (bounded S' → ∃ x L', loadRoot fuel t (on_stream (λ _, w ++ rest) L) = (Ok x, L') ∧
       m_stream L' = rest ∧ sameGraph (m_storageIndices S') t v x (m_objects L')).
Proof.
  intros Hh Hv Hf HS Hi Hl HM HL.
  assert (∀ n c a, growing fields (storeObject userType fields nodeClass contents n c a)) as G
    by (intros; apply growing_storeObject).
  destruct (returns_store userType fields shared nodeClass classOf live (size live)
    (storeObject userType fields nodeClass contents (size live)) (G _)) with (t := t) (v := v) (S := S)
    as [S' E]; [|done| |].
  { intros j c a Hj Ha. by apply (returns_storeObject userType fields shared nodeClass contents classOf live (size live)). }
  { unfold todo. apply (subseteq_size (C := gset Addr)). set_solver. }
  assert (grows S S') as Gr.
  { pose proof (growing_store userType fields nodeClass _ (G (size live)) t v S) as Gr. unfold storeRoot in E. by rewrite E in Gr. }
  destruct (gr_stream _ _ Gr) as [w Hw]. exists S', w. split; [done|]. split; [done|]. intros HB.
  destruct (faithful_store userType fields shared nodeClass lessThan contents classOf live
    (storeObject userType fields nodeClass contents (size live)) (loadObject fields shared nodeClass lessThan fuel)
    (G _)) with (t := t) (v := v) (S := S) (S' := S') (L := on_stream (λ _, w ++ rest) L) (w := w) (rest := rest)
    as (x & L' & new & E' & Hr & _ & _ & Ho & Hp & Hg); try done.
  { intros c a Ha. by apply (faithful_storeObject userType fields shared nodeClass lessThan contents classOf live). }
  { destruct HM as (M1 & M2 & M3 & M4). split_and!; try done. intros Hn. by destruct (M4 Hn). }
  exists x, L'. split; [done|]. split; [done|]. simpl in Ho. rewrite HL in Ho. simpl in Ho. rewrite Ho.
  rewrite Hl, Z.sub_0_r in Hp. destruct (Hg _ (reflexivity _)) as [Hx Hall].
  pose proof (gr_ok _ _ Gr HS) as HS'. split; [done| | | |].
  - rewrite Hp. apply NoDup_seqZ.
  - apply HS'.
  - intros a id Ha. assert (id ∈ new.*1) as Hin.
    { rewrite Hp. apply elem_of_seqZ. pose proof (po_indices _ HS' a id Ha). lia. }
    apply list_elem_of_fmap in Hin as ([id' [c y]] & -> & Hin).
    rewrite Forall_forall in Hall. destruct (Hall _ Hin) as (b & Hb & Hc & Hy). cbn [fst snd projT1 projT2] in *.
    assert (b = a) as -> by by apply (po_inj _ HS' b a id').
    subst c. by exists y.
  - intros id o Hin. rewrite Forall_forall in Hall. destruct (Hall _ Hin) as (a & Ha & _). by exists a.
Qed.

(** ** Files *)

Hypothesis getConfig_put : ∀ c rest, getConfig (putConfig c ++ rest) = (c, rest).

Definition allOk : WriteResults := mkWriteResults true true true.
Definition placeholder : str := putByteArray (replicate (length QBS_PERSISTENCE_MAGIC) NUL).

Lemma placeholder_not_magic : replicate (length QBS_PERSISTENCE_MAGIC) NUL ≠ QBS_PERSISTENCE_MAGIC.
Proof. vm_compute. discriminate. Qed.

Lemma magic_short (s : str) : length s = length QBS_PERSISTENCE_MAGIC → shortEnough s = true.
Proof. unfold shortEnough. intros ->. reflexivity. Qed.

Lemma setupWriteStream_ok config p :
  setupWriteStream fields putConfig allOk config p =
  (Ok tt, on_storageIds (Variant := Variant) fields (on_stream (λ _, placeholder ++ putConfig config) p)).
Proof. done. Qed.

(** The whole of what is done to write a file. *)
Definition writeFile (config : Config) (t : SType Class) (v : denote Variant t) : PM unit :=
  _ ← setupWriteStream fields putConfig allOk config;
  _ ← storeRoot t v;
  finalizeWriteStream fields true true.

Definition readFile (fuel : nat) (t : SType Class) (bytes : str) : PM (Config * denote Variant t) :=
  config ← loadFile fields getConfig (ReadableFile bytes);
  x ← loadRoot fuel t;
  mret (config, x).

Lemma newPool_ok : pool_ok (newPool : Pool).
Proof. by split. Qed.

Lemma objects_match_empty S L :
  m_storageIndices S = ∅ → m_lastStoredObjectId S = 0%Z → m_newAddress L = 0%Z → m_loaded L = [] → m_loadedRaw L = [] →
  objects_match fields shared classOf S L.
Proof.
  intros H1 H2 H3 H4 H5. split; rewrite ?H1, ?H2, ?H3, ?H4, ?H5; try done.
Qed.

(** C21: a project that is written to a file and read from it has the same objects: the
    values are the same, two pointers are equal after loading exactly when they were
    equal before, also in cycles, every object is created once, and the whole file is
    read; storing always ends, and so does loading with fuel for as many nested objects
    as there are objects. *)
Theorem file_roundtrip config t v :
  heap_ok → storable t v →
  ∃ S', writeFile config t v newPool = (Ok tt, S') ∧
    (bounded S' → ∀ fuel, size live ≤ fuel →
     ∃ x L', readFile fuel t (m_stream S') newPool = (Ok (config, x), L') ∧ m_stream L' = [] ∧
       sameGraph (m_storageIndices S') t v x (m_objects L')).
Proof.
  intros Hh Hv. set (S0 := on_storageIds (Variant := Variant) fields (on_stream (λ _, placeholder ++ putConfig config) newPool)).
  assert (pool_ok S0) as HS0 by by split.
  assert (∀ fuel L, size live ≤ fuel → matchesUpto 4 S0 L → m_objects L = [] →
    ∃ S' w, storeRoot t v S0 = (Ok tt, S') ∧ m_stream S' = m_stream S0 ++ w ∧
    (bounded S' → ∃ x L', loadRoot fuel t (on_stream (λ _, w ++ []) L) = (Ok x, L') ∧
       m_stream L' = [] ∧ sameGraph (m_storageIndices S') t v x (m_objects L'))) as Hrt.
  { intros fuel L Hf HM HL. by apply roundtrip_from. }
  assert (∀ rest, let L := on_strings (λ s, mkStorage ∅ (lastStoredId s) [])
    (on_indices (λ _, ∅) (λ n, n) (on_loaded (λ _, []) (on_loadedRaw (λ _, []) (on_stream (λ _, rest) newPool)))) in
    matchesUpto 4 S0 L ∧ m_objects L = []) as HL.
  { intros rest L. split; [|done]. split_and!; done. }
  destruct (HL []) as [HM0 HL0]. destruct (Hrt (size live) _ (le_n _) HM0 HL0) as (S' & w & E & Hw & _).
  set (magic := putByteArray QBS_PERSISTENCE_MAGIC).
  assert (m_stream S' = placeholder ++ putConfig config ++ w) as Hw' by by rewrite Hw, app_assoc.
  exists (on_stream (λ o, magic ++ drop (length magic) o) S'). split.
  { unfold writeFile, mbind, st_bind. rewrite setupWriteStream_ok. fold S0. by rewrite E. }
  intros HB fuel Hf. simpl. rewrite Hw', drop_app_length'.
  2: { unfold placeholder, magic. by rewrite !length_putByteArray, length_replicate. }
  unfold readFile, loadFile, magic. rewrite getByteArray_put by by apply magic_short.
  rewrite bool_decide_eq_true_2, getConfig_put by done. destruct (HL w) as [HM HLo].
  destruct (Hrt fuel _ Hf HM HLo) as (S2 & w2 & E2 & Hw2 & Hx). rewrite E in E2. injection E2 as <-.
  rewrite Hw in Hw2. apply app_inv_head in Hw2 as <-. rewrite app_nil_r in Hx.
  destruct (Hx HB) as (x & L' & E' & Hr & Hg). exists x, L'. split; [|done].
  unfold mbind, st_bind, modify, mret, st_ret. cbv beta iota.
  lazymatch type of E' with loadRoot _ _ ?A = _ =>
    lazymatch goal with |- context [loadRoot fuel t ?B] => change B with A end end.
  by rewrite E'.
Qed.

(** C26: a file whose writing was interrupted is not taken for a build graph: as long as
    [finalizeWriteStream] has not succeeded, loading throws, whatever has been stored. *)
Theorem incomplete_file_rejected config t v p q :
  let bytes := m_stream ((_ ← setupWriteStream fields putConfig allOk config; storeRoot t v) p).2 in
  (loadFile fields getConfig (ReadableFile bytes) q).1 =
    Throw (IncompatibleFormat (replicate (length QBS_PERSISTENCE_MAGIC) NUL)).
Proof.
  cbv zeta. unfold mbind, st_bind. rewrite setupWriteStream_ok.
  set (S0 := on_storageIds fields _).
  pose proof (growing_store userType fields nodeClass _ (growing_storeObject userType fields nodeClass contents (size live)) t v S0) as Gr.
  destruct (gr_stream _ _ Gr) as [w Hw]. unfold storeRoot. rewrite Hw.
  unfold S0 at 1. cbn [m_stream on_storageIds on_envs on_stringLists on_strings on_indices on_stream].
  unfold loadFile, placeholder. rewrite <-!app_assoc.
  rewrite getByteArray_put by (apply magic_short; by rewrite length_replicate).
  by rewrite bool_decide_eq_false_2 by exact placeholder_not_magic.
Qed.
End File.

Module Example.
#[local] Existing Instances BigEndian.stream BigEndian.stream_laws.

(** A small project: an object file that is made from a source file by a transformer,
    which knows its output. *)
Inductive Class := CArtifact | CTransformer.

Definition fields (c : Class) : SType Class :=
  match c with
  | CArtifact => SPair SString (SPair (SSet SNodePointer) (SPointer CTransformer))
  | CTransformer => SPair (SSet (SPointer CArtifact)) (SPair SStringList SVariant)
  end.
Definition shared (c : Class) : bool := match c with CArtifact => false | CTransformer => true end.
Definition nodeClass (t : NodeType) : Class := CArtifact.

Definition lessThan (t : SType Class) : denote bool t → denote bool t → bool :=
  match t return denote bool t → denote bool t → bool with
  | SPointer _ => λ x y : option Addr, (default 0 x <? default 0 y)%Z
  | SNodePointer => λ x y : NodeType * Addr, (x.2 <? y.2)%Z
  | _ => λ _ _, false
  end.

Definition contents (c : Class) : Addr → denote bool (fields c) :=
  match c return Addr → denote bool (fields c) with
  | CArtifact => λ a : Addr,
      if (a =? 100)%Z then (lit "main.o", ([(ArtifactNodeType, 101%Z)], Some 200%Z))
      else (lit "main.cpp", ([], None))
  | CTransformer => λ _, ([Some 100%Z], ([lit "-c"; []], VMap [(lit "debug", VOther true)]))
  end.

Definition classOf (a : Addr) : Class := if (a =? 200)%Z then CTransformer else CArtifact.
Definition live : gset Addr := {[ 100; 101; 200 ]}%Z.
Definition userType (b : bool) : Z := 1.

(** The root holds the object file twice. *)
Definition rootType : SType Class := SContainer (SPointer CArtifact).
Definition root : denote bool rootType := [Some 100; Some 100; None]%Z.

Lemma heap_is_ok : heap_ok userType fields nodeClass contents classOf live.
Proof.
  assert (100 ∈ live ∧ 101 ∈ live ∧ 200 ∈ live)%Z as (H1 & H2 & H3) by (unfold live; set_solver).
  intros c a [Ha Hc]. unfold live in Ha. rewrite !elem_of_union, !elem_of_singleton in Ha.
  destruct Ha as [[-> | ->]| ->]; unfold classOf in Hc; simpl in Hc; subst c.
  - split; [reflexivity|]. split; [split; [reflexivity|]|by split]. constructor; [by split|constructor].
  - split; [reflexivity|]. split; [|done]. split; [reflexivity|constructor].
  - split; [split; [reflexivity|]|].
    + constructor; [by split|constructor].
    + split; [split; [reflexivity|]; repeat constructor|]. cbn. split; [reflexivity|].
      split; [apply NoDup_singleton|]. split; [|exact I]. split; [reflexivity|]. split; [reflexivity|].
      vm_compute. intros H. repeat (apply elem_of_cons in H as [?|H]; [discriminate|]).
      by apply elem_of_nil in H.
Qed.

Definition writeProject := writeFile userType fields nodeClass contents live putVariant true rootType root.

Lemma file_roundtrip_witness :
  ∃ S', writeProject newPool = (Ok tt, S') ∧ size (m_storageIndices S') = 3 ∧
    ∃ x L', readFile fields shared nodeClass lessThan getVariant 3 rootType (m_stream S') newPool =
        (Ok (true, x), L') ∧ m_stream L' = [] ∧ length (m_objects L') = 3 ∧
      sameGraph fields lessThan contents classOf (m_storageIndices S') rootType root x (m_objects L').
Proof.
  destruct (file_roundtrip userType fields shared nodeClass lessThan contents classOf live putVariant getVariant
    getVariant_put true rootType root heap_is_ok) as (S' & E & H).
  { split; [reflexivity|]. assert (100 ∈ live)%Z by (unfold live; set_solver). repeat constructor; done. }
  exists S'. split; [exact E|].
  pose proof (f_equal snd E) as E2. cbn [snd] in E2. subst S'. split; [vm_compute; reflexivity|].
  destruct H with (fuel := 3) as (x & L' & E' & Hr & Hg).
  - unfold bounded. vm_compute. repeat split; discriminate.
  - vm_compute. lia.
  - exists x, L'. split; [exact E'|]. split; [exact Hr|]. split; [|exact Hg].
    pose proof (f_equal (λ r, length (m_objects r.2)) E') as El. cbn [snd] in El. rewrite <-El.
    vm_compute. reflexivity.
Defined.

Lemma incomplete_file_rejected_witness :
  let bytes := m_stream ((_ ← setupWriteStream fields putVariant allOk true;
    storeRoot userType fields nodeClass contents live rootType root) newPool).2 in
  length bytes = 146 ∧
  (loadFile fields getVariant (ReadableFile bytes) newPool).1 =
    Throw (IncompatibleFormat (replicate (length QBS_PERSISTENCE_MAGIC) NUL)).
Proof.
  split; [vm_compute; reflexivity|].
  apply (incomplete_file_rejected userType fields nodeClass contents live putVariant getVariant true rootType root newPool newPool).
Defined.

(** The bytes of a file with one list of strings. *)
Definition listFile (l : list str) : str :=
  m_stream (writeFile userType fields nodeClass contents live putVariant true SStringList l newPool).2.

(** A pool that has loaded a file keeps the lists of strings of that file, and what it
    loads next is not what is stored. *)
Lemma second_load_is_stale :
  let read l p := readFile fields shared nodeClass lessThan getVariant 0 SStringList (listFile l) p in
  let first := read [lit "a"] newPool in
  first.1 = Ok (true, [lit "a"]) ∧ (read [lit "b"] first.2).1 = Ok (true, [lit "a"]).
Proof. vm_compute. split; reflexivity. Qed.
End Example.
