(* ===== verification/ChangeTracking.v ===== *)
(** * Change tracking ([buildgraph/transformerchangetracking.cpp])

    What a prepare script or a command has read of the project is recorded with
    the transformer: properties, artifacts maps, dependencies, exported modules and
    imported files.  In a later session [TrafoChangeTracker] compares the record
    with the project as it is then, and decides whether the script or the
    commands have to run again.  The tracker remembers the product and the artifact
    it looked up last; these two members are the state of its functions.

    The values of properties are [QVariant]s, a class of Qt: the functions of it
    that the code uses are a class here.  A [QVariantMap], a [QHash] and an
    [unordered_map] are finite maps. *)

From S2P Require Import Prelude FlatSet BuildGraph StateMonad.

(** ** Values *)

(** [operator==], [toMap()], [toStringList()], [userType() == QVariantMap], a
    variant of a string list, the invalid variant, and what becomes of a variant
    that was turned into a script value and back
    ([toScriptValue(v).toVariant()]). *)
Class QtVariant (V : Type) := {
  invalid : V;
  variant_eqb : V → V → bool;
  toMap : V → gmap str V;
  toStringList : V → list str;
  isMap : V → bool;
  ofStringList : list str → V;
  throughScript : V → V
}.

Section Values.
Context {V : Type} {Q : QtVariant V}.

(** [QVariantMap::value] *)
Definition mapValue (m : gmap str V) (key : str) : V := default invalid (m !! key).

(** [operator==] of [QVariantMap] *)
Definition map_eqb (m1 m2 : gmap str V) : bool :=
  bool_decide (size m1 = size m2) &&
  forallb (λ kv, match m2 !! kv.1 with Some v => variant_eqb kv.2 v | None => false end)
    (map_to_list m1).

(** [moduleProperty] of [propertymapinternal.cpp] *)
Definition moduleProperty (properties : gmap str V) (moduleName key : str) : V :=
  match properties !! moduleName with
  | None => invalid
  | Some m =>
      match toMap m !! key with
      | None => invalid
      | Some v => v
      end
  end.
End Values.

(** [QString::split], [QString::indexOf]; [left] and [mid] with the index that
    [indexOf] returned, [None] being -1. *)
Fixpoint split (sep : ascii) (s : str) : list str :=
  match s with
  | [] => [[]]
  | c :: s' =>
      if c =c sep then [] :: split sep s'
      else match split sep s' with
           | [] => [[c]]
           | part :: parts => (c :: part) :: parts
           end
  end.

Fixpoint indexOf (c : ascii) (s : str) : option nat :=
  match s with
  | [] => None
  | x :: s' => if x =c c then Some 0 else S <$> indexOf c s'
  end.

Definition left (s : str) (i : option nat) : str :=
  match i with Some i => take i s | None => s end.
Definition midAfter (s : str) (i : option nat) : str :=
  match i with Some i => drop (S i) s | None => s end.

(** [QualifiedId::fromString], [QualifiedId::toString] *)
Definition QualifiedId_fromString (s : str) : list str := split "." s.

Fixpoint join (sep : ascii) (parts : list str) : str :=
  match parts with
  | [] => []
  | [part] => part
  | part :: parts' => part ++ sep :: join sep parts'
  end.
Definition QualifiedId_toString (parts : list str) : str := join "." parts.

(** ** Properties ([language/property.h]) *)

Inductive Kind :=
  | PropertyInModule
  | PropertyInProduct
  | PropertyInProject
  | PropertyInParameters
  | PropertyInArtifact.

#[export] Instance Kind_eq_dec : EqDecision Kind.
Proof. solve_decision. Defined.

Record Property (V : Type) := mkProperty {
  productName : str;    (* that of the project for [PropertyInProject] *)
  moduleName : str;
  propertyName : str;
  value : V;
  kind : Kind
}.
Arguments mkProperty {V} _ _ _ _ _.
Arguments productName {V} _.
Arguments moduleName {V} _.
Arguments propertyName {V} _.
Arguments value {V} _.
Arguments kind {V} _.

Abbreviation Key := (str * str * str)%type.

(** What [operator<] compares; the kind and the value do not count. *)
Definition property_key {V} (p : Property V) : Key :=
  (productName p, moduleName p, propertyName p).

Definition key_ltb (k1 k2 : Key) : bool :=
  let '(p1, m1, n1) := k1 in
  let '(p2, m2, n2) := k2 in
  if str_ltb p1 p2 then true
  else if str_ltb p2 p1 then false
  else if str_ltb m1 m2 then true
  else if str_ltb m2 m1 then false
  else str_ltb n1 n2.

Definition property_ltb {V} (p1 p2 : Property V) : bool :=
  key_ltb (property_key p1) (property_key p2).

(** [PropertySet], a sorted vector, and [PropertyHash] *)
Abbreviation PropertySet V := (list (Property V)).
Abbreviation PropertyHash V := (gmap (list ascii) (list (Property V))).

Definition addProperty {V} (s : PropertySet V) (p : Property V) : PropertySet V :=
  (set_insert property_ltb s p).1.

(** ** Exported modules ([language/language.h]) *)

Record ExportedProperty := mkExportedProperty {
  fullName : str;
  type : nat;
  sourceCode : str;
  isBuiltin : bool
}.

#[export] Instance ExportedProperty_eq_dec : EqDecision ExportedProperty.
Proof. solve_decision. Defined.

(** [std::equal] on vectors of the same length *)
Section All2.
Context {A : Type} (f : A → A → bool).

Fixpoint all2 (l1 l2 : list A) : bool :=
  match l1, l2 with
  | [], [] => true
  | x :: l1', y :: l2' => f x y && all2 l1' l2'
  | _, _ => false
  end.
End All2.

#[warnings="-register-all"]
Inductive ExportedItem := mkExportedItem
  (itemName : str) (itemProperties : list ExportedProperty) (itemChildren : list ExportedItem).

(** [operator==] of [ExportedItem], and [equals] for vectors of items *)
Fixpoint item_eqb (i1 i2 : ExportedItem) : bool :=
  match i1, i2 with
  | mkExportedItem n1 p1 c1, mkExportedItem n2 p2 c2 =>
      bool_decide (n1 = n2) && bool_decide (p1 = p2) &&
      all2 item_eqb c1 c2
  end.

Definition items_eqb : list ExportedItem → list ExportedItem → bool := all2 item_eqb.

Record ExportedModule (V : Type) := mkExportedModule {
  propertyValues : gmap str V;
  modulePropertyValues : gmap str V;
  exportedChildren : list ExportedItem;
  productDependencies : list str;
  moduleDependencies : list (str * gmap str V);
  m_properties : list ExportedProperty;
  (* a [QMap] from pointers to products: its entries in the order of the
     addresses, each with the name of the product *)
  exportedDependencyParameters : list (str * gmap str V);
  importStatements : list str
}.
Arguments mkExportedModule {V} _ _ _ _ _ _ _ _.
Arguments propertyValues {V} _.
Arguments modulePropertyValues {V} _.
Arguments exportedChildren {V} _.
Arguments productDependencies {V} _.
Arguments moduleDependencies {V} _.
Arguments m_properties {V} _.
Arguments exportedDependencyParameters {V} _.
Arguments importStatements {V} _.

Definition depMapsEqual {V} {Q : QtVariant V} : list (str * gmap str V) →
    list (str * gmap str V) → bool :=
  all2 (λ d1 d2, bool_decide (d1.1 = d2.1) && map_eqb d1.2 d2.2).

(** [operator==] of [ExportedModule]; it does not look at [moduleDependencies]. *)
Definition exportedModule_eqb {V} {Q : QtVariant V} (m1 m2 : ExportedModule V) : bool :=
  map_eqb (propertyValues m1) (propertyValues m2) &&
  map_eqb (modulePropertyValues m1) (modulePropertyValues m2) &&
  items_eqb (exportedChildren m1) (exportedChildren m2) &&
  bool_decide (m_properties m1 = m_properties m2) &&
  bool_decide (importStatements m1 = importStatements m2) &&
  bool_decide (productDependencies m1 = productDependencies m2) &&
  depMapsEqual (exportedDependencyParameters m1) (exportedDependencyParameters m2).

(** ** The project as a session has it *)

(** What the scripts can read of a product besides the build graph.  The
    dependency parameters are in the order of iteration of their [QHash], each
    with the product or the module it is for. *)
Record ProductData (V : Type) := mkProductData {
  name : str;
  moduleProperties : gmap str V;
  productProperties : gmap str V;
  dependencyParameters : list (nat * gmap str V);
  moduleParameters : list (str * gmap str V);
  modules : list (str * bool);     (* [name], [isProduct] *)
  exportedModule : ExportedModule V;
  buildEnvironment : gmap str str
}.
Arguments mkProductData {V} _ _ _ _ _ _ _ _.
Arguments name {V} _.
Arguments moduleProperties {V} _.
Arguments productProperties {V} _.
Arguments dependencyParameters {V} _.
Arguments moduleParameters {V} _.
Arguments modules {V} _.
Arguments exportedModule {V} _.
Arguments buildEnvironment {V} _.

(** A project: its name and its [projectProperties()]. *)
Record ProjectData (V : Type) := mkProjectData {
  projectName : str;
  projectProperties : gmap str V
}.
Arguments mkProjectData {V} _ _.
Arguments projectName {V} _.
Arguments projectProperties {V} _.

(** The build graph, the products and projects, the property maps the artifacts
    refer to, the tables the executor hands to the tracker, the time stamps of
    the files that exist, and the strings of the file tags. *)
Record Session (V : Type) := mkSession {
  heap : Heap;
  productData : gmap nat (ProductData V);
  projectData : gmap nat (ProjectData V);
  propertyMaps : gmap nat (gmap str V);
  allProducts : list nat;
  productsByName : gmap str nat;
  projectsByName : gmap str nat;
  files : gmap str Z;
  tagString : nat → str
}.
Arguments mkSession {V} _ _ _ _ _ _ _ _ _.
Arguments heap {V} _.
Arguments productData {V} _.
Arguments projectData {V} _.
Arguments propertyMaps {V} _.
Arguments allProducts {V} _.
Arguments productsByName {V} _.
Arguments projectsByName {V} _.
Arguments files {V} _.
Arguments tagString {V} _.

Definition emptyExportedModule {V} : ExportedModule V := mkExportedModule ∅ ∅ [] [] [] [] [] [].

Definition dataOf {V} (s : Session V) (p : nat) : ProductData V :=
  default (mkProductData [] ∅ ∅ [] [] [] emptyExportedModule ∅) (productData s !! p).
Definition projectOf {V} (s : Session V) (q : nat) : ProjectData V :=
  default (mkProjectData [] ∅) (projectData s !! q).
Definition uniqueNameOf {V} (s : Session V) (p : nat) : str :=
  default [] (uniqueName <$> products (heap s) !! p).
Definition dependenciesOf {V} (s : Session V) (p : nat) : list nat :=
  default [] (dependencies <$> products (heap s) !! p).
Definition projectOfProduct {V} (s : Session V) (p : nat) : nat :=
  default 0 (product_project <$> products (heap s) !! p).
Definition valueOfMap {V} (s : Session V) (a : nat) : gmap str V :=
  default ∅ (propertyMaps s !! properties (artifactOf (heap s) a)).

(** [sorted(artifact->fileTags().toStringList())] *)
Definition sortedFileTags {V} (s : Session V) (a : nat) : list str :=
  std_sort str_ltb (tagString s <$> fileTags (heap s) a).

(** ** Requested dependencies ([requesteddependencies.cpp]) *)

Abbreviation RequestedDependencies := (gmap (list ascii) (gset (list ascii))).

Definition depNamesForProduct {V} (s : Session V) (p : nat) : gset str :=
  list_to_set (uniqueNameOf s <$> dependenciesOf s p) ∪
  list_to_set (fst <$> List.filter (λ m, negb m.2) (modules (dataOf s p))).

(** [add] and [set] *)
Definition addDependencies {V} (s : Session V) (ps : NodeSet) (r : RequestedDependencies) :
    RequestedDependencies :=
  foldl (λ r p, <[uniqueNameOf s p := depNamesForProduct s p]> r) r ps.
Definition setDependencies {V} (s : Session V) (ps : NodeSet) : RequestedDependencies :=
  addDependencies s ps ∅.

Definition dependencies_isUpToDate {V} (s : Session V) (r : RequestedDependencies) : bool :=
  if bool_decide (r = ∅) then true
  else
    forallb (λ p, match r !! uniqueNameOf s p with
                  | None => true
                  | Some names => bool_decide (depNamesForProduct s p = names)
                  end) (allProducts s).

(** ** Requested artifacts ([requestedartifacts.cpp]) *)

Definition noRequests : RequestedArtifactsPerProduct := mkRequestedArtifactsPerProduct ∅ ∅ false.

(** [for (const Artifact *a : artifactsByFileTag().value(tag)) filePaths.insert(a->filePath())] *)
Definition filePathsForTag (h : Heap) (b : ProductBuildData) (tag : nat) : gset str :=
  list_to_set ((λ a, filePath (artifactOf h a)) <$> default [] (m_artifactsByFileTag b !! tag)).

Definition perProduct_isUpToDate (h : Heap) (p : nat) (ra : RequestedArtifactsPerProduct) : bool :=
  match buildDataOf h p with
  | None => false
  | Some b =>
      if negb (artifactsEnumerated ra) && bool_decide (requestedTags ra = ∅) then true
      else if negb (forallb (λ kv, bool_decide (filePathsForTag h b kv.1 = kv.2))
                      (map_to_list (requestedTags ra))) then false
      else if negb (artifactsEnumerated ra) then true
      else bool_decide (dom (m_artifactsByFileTag b) = allTags ra)
  end.

Definition artifacts_isUpToDate {V} (s : Session V) (r : RequestedArtifacts) : bool :=
  forallb (λ kv,
    match List.find (λ p, bool_decide (uniqueNameOf s p = kv.1)) (allProducts s) with
    | None => false
    | Some p => perProduct_isUpToDate (heap s) p kv.2
    end) (map_to_list r).

(** [m_requestedArtifactsPerProduct[product->uniqueName()]], changed by [f] *)
Definition requestedOf {V} (s : Session V) (p : nat) (r : RequestedArtifacts) :
    RequestedArtifactsPerProduct :=
  default noRequests (r !! uniqueNameOf s p).

Definition setAllArtifactTags {V} (s : Session V) (p : nat) (forceUpdate : bool)
    (r : RequestedArtifacts) : exn BGError RequestedArtifacts :=
  let ra := requestedOf s p r in
  if negb (bool_decide (allTags ra = ∅)) && negb forceUpdate
  then Ok (<[uniqueNameOf s p := ra]> r)
  else
    match buildDataOf (heap s) p with
    | None => Throw NullPointer
    | Some b =>
        Ok (<[uniqueNameOf s p := mkRequestedArtifactsPerProduct (dom (m_artifactsByFileTag b))
                (requestedTags ra) (artifactsEnumerated ra)]> r)
    end.

Definition setArtifactsForTag {V} (s : Session V) (p tag : nat) (r : RequestedArtifacts) :
    exn BGError RequestedArtifacts :=
  let ra := requestedOf s p r in
  match buildDataOf (heap s) p with
  | None => Throw NullPointer
  | Some b =>
      Ok (<[uniqueNameOf s p := mkRequestedArtifactsPerProduct (allTags ra)
              (<[tag := default ∅ (requestedTags ra !! tag) ∪ filePathsForTag (heap s) b tag]>
                 (requestedTags ra)) (artifactsEnumerated ra)]> r)
  end.

Definition setNonExistingTagRequested {V} (s : Session V) (p tag : nat) (r : RequestedArtifacts) :
    exn BGError RequestedArtifacts :=
  let ra := requestedOf s p r in
  let filePaths := default ∅ (requestedTags ra !! tag) in
  let* _ := QBS_CHECK (bool_decide (filePaths = ∅)) in
  Ok (<[uniqueNameOf s p := mkRequestedArtifactsPerProduct (allTags ra)
          (<[tag := filePaths]> (requestedTags ra)) (artifactsEnumerated ra)]> r).

Definition setArtifactsEnumerated {V} (s : Session V) (p : nat) (r : RequestedArtifacts) :
    RequestedArtifacts :=
  let ra := requestedOf s p r in
  <[uniqueNameOf s p := mkRequestedArtifactsPerProduct (allTags ra) (requestedTags ra) true]> r.

Definition perProduct_unite (ra other : RequestedArtifactsPerProduct) :
    RequestedArtifactsPerProduct :=
  if bool_decide (allTags ra = ∅) then other
  else mkRequestedArtifactsPerProduct (allTags other) (requestedTags other ∪ requestedTags ra)
         (artifactsEnumerated ra).

Definition requestedArtifacts_unite (r other : RequestedArtifacts) : RequestedArtifacts :=
  union_with (λ ra ra', Some (perProduct_unite ra ra')) r other.

(** ** What the script engine records ([language/scriptengine.h]) *)

(** The requests of the script that runs, and what the engine keeps from script
    to script: of each import its file paths, and of each product the object that
    [product.artifacts] returned last, which has a property for each file tag,
    with the array of its artifacts once that has been created. *)
Record ScriptEngine (V : Type) := mkScriptEngine {
  m_propertiesRequestedInScript : PropertySet V;
  m_propertiesRequestedFromArtifact : PropertyHash V;
  m_importsRequestedInScript : list nat;
  m_productsWithRequestedDependencies : NodeSet;
  m_requestedArtifacts : RequestedArtifacts;
  m_requestedExports : NodeSet;
  m_filePathsPerImport : gmap nat (list str);
  artifactsObjects : gmap nat (gmap nat (option (list nat)))
}.
Arguments mkScriptEngine {V} _ _ _ _ _ _ _ _.
Arguments m_propertiesRequestedInScript {V} _.
Arguments m_propertiesRequestedFromArtifact {V} _.
Arguments m_importsRequestedInScript {V} _.
Arguments m_productsWithRequestedDependencies {V} _.
Arguments m_requestedArtifacts {V} _.
Arguments m_requestedExports {V} _.
Arguments m_filePathsPerImport {V} _.
Arguments artifactsObjects {V} _.

Section Observing.
Context {V : Type} {Q : QtVariant V}.

(** A function of the engine, which works on the project too. *)
Definition M : Type → Type := st (ScriptEngine V * Session V) BGError.

Definition onEngine (f : Session V → ScriptEngine V → ScriptEngine V) : M unit :=
  modify (λ es, (f es.2 es.1, es.2)).
Definition set_heap (f : Heap → Heap) (s : Session V) : Session V :=
  mkSession (f (heap s)) (productData s) (projectData s) (propertyMaps s) (allProducts s)
    (productsByName s) (projectsByName s) (files s) (tagString s).

Definition addPropertyRequestedInScript (p : Property V) : M unit :=
  onEngine (λ _ e, mkScriptEngine (addProperty (m_propertiesRequestedInScript e) p)
    (m_propertiesRequestedFromArtifact e) (m_importsRequestedInScript e)
    (m_productsWithRequestedDependencies e) (m_requestedArtifacts e) (m_requestedExports e)
    (m_filePathsPerImport e) (artifactsObjects e)).

Definition addPropertyRequestedFromArtifact (a : nat) (p : Property V) : M unit :=
  onEngine (λ s e, mkScriptEngine (m_propertiesRequestedInScript e)
    (partial_alter (λ ps, Some (addProperty (default [] ps) p)) (filePath (artifactOf (heap s) a))
       (m_propertiesRequestedFromArtifact e))
    (m_importsRequestedInScript e)
    (m_productsWithRequestedDependencies e) (m_requestedArtifacts e) (m_requestedExports e)
    (m_filePathsPerImport e) (artifactsObjects e)).

Definition addImportRequestedInScript (i : nat) : M unit :=
  onEngine (λ _ e, mkScriptEngine (m_propertiesRequestedInScript e)
    (m_propertiesRequestedFromArtifact e)
    (if bool_decide (i ∈ m_importsRequestedInScript e) then m_importsRequestedInScript e
     else m_importsRequestedInScript e ++ [i])
    (m_productsWithRequestedDependencies e) (m_requestedArtifacts e) (m_requestedExports e)
    (m_filePathsPerImport e) (artifactsObjects e)).

Definition addDependenciesArrayRequested (p : nat) : M unit :=
  onEngine (λ _ e, mkScriptEngine (m_propertiesRequestedInScript e)
    (m_propertiesRequestedFromArtifact e) (m_importsRequestedInScript e)
    (ins (m_productsWithRequestedDependencies e) p) (m_requestedArtifacts e) (m_requestedExports e)
    (m_filePathsPerImport e) (artifactsObjects e)).

Definition addRequestedExport (p : nat) : M unit :=
  onEngine (λ _ e, mkScriptEngine (m_propertiesRequestedInScript e)
    (m_propertiesRequestedFromArtifact e) (m_importsRequestedInScript e)
    (m_productsWithRequestedDependencies e) (m_requestedArtifacts e) (ins (m_requestedExports e) p)
    (m_filePathsPerImport e) (artifactsObjects e)).

Definition requestArtifacts (f : Session V → RequestedArtifacts → exn BGError RequestedArtifacts) :
    M unit :=
  es ← gets id;
  r ← lift (f es.2 (m_requestedArtifacts es.1));
  onEngine (λ _ e, mkScriptEngine (m_propertiesRequestedInScript e)
    (m_propertiesRequestedFromArtifact e) (m_importsRequestedInScript e)
    (m_productsWithRequestedDependencies e) r (m_requestedExports e)
    (m_filePathsPerImport e) (artifactsObjects e)).

Definition setArtifactsObject (p : nat) (o : gmap nat (option (list nat))) : M unit :=
  onEngine (λ _ e, mkScriptEngine (m_propertiesRequestedInScript e)
    (m_propertiesRequestedFromArtifact e) (m_importsRequestedInScript e)
    (m_productsWithRequestedDependencies e) (m_requestedArtifacts e) (m_requestedExports e)
    (m_filePathsPerImport e) (<[p := o]> (artifactsObjects e))).

Definition clearRequestedProperties (e : ScriptEngine V) : ScriptEngine V :=
  mkScriptEngine [] ∅ [] [] ∅ [] (m_filePathsPerImport e) (artifactsObjects e).

(** The file paths of the imports, each once. *)
Definition addFiles (fs fps : list str) : list str :=
  foldl (λ fs fp, if bool_decide (fp ∈ fs) then fs else fs ++ [fp]) fs fps.

Definition importedFilesUsedInScript (e : ScriptEngine V) : exn BGError (list str) :=
  for_each (λ i fs,
    match m_filePathsPerImport e !! i with
    | None => Throw CheckFailed
    | Some fps => Ok (addFiles fs fps)
    end) (m_importsRequestedInScript e) [].

(** ** The [artifacts] map of a product ([buildgraph/artifactsscriptvalue.cpp]) *)

Definition isRelevantArtifact (h : Heap) (a : nat) : bool :=
  bool_decide (targetOfModule (artifactOf h a) = []).

Definition artifactsByFileTag (p : nat) : M (gmap nat (list nat)) :=
  es ← gets id;
  match buildDataOf (heap es.2) p with
  | None => throw NullPointer
  | Some b => mret (m_artifactsByFileTag b)
  end.

Definition checkAndSetArtifactsMapUpToDateFlag (p : nat) : M bool :=
  es ← gets id;
  match buildDataOf (heap es.2) p with
  | None => throw NullPointer
  | Some b =>
      let '(upToDate, b) := checkAndSetJsArtifactsMapUpToDateFlag b in
      _ ← modify (λ es, (es.1, set_heap (upd_buildData (λ _, b) p) es.2));
      mret upToDate
  end.

(** A new object, with a property for each tag that has a relevant artifact. *)
Definition createArtifactsObject (p : nat) : M (gmap nat (option (list nat))) :=
  _ ← requestArtifacts (λ s, setAllArtifactTags s p true);
  map ← artifactsByFileTag p;
  es ← gets id;
  let o := (λ _, None) <$>
    filter (λ kv, existsb (isRelevantArtifact (heap es.2)) kv.2 = true) map in
  _ ← setArtifactsObject p o;
  mret o.

Definition js_artifacts (p : nat) : M (gmap nat (option (list nat))) :=
  es ← gets id;
  match artifactsObjects es.1 !! p with
  | None => createArtifactsObject p
  | Some o =>
      upToDate ← checkAndSetArtifactsMapUpToDateFlag p;
      if upToDate : bool
      then _ ← requestArtifacts (λ s, setAllArtifactTags s p false); mret o
      else createArtifactsObject p
  end.

Definition js_artifactsForFileTag (p tag : nat) (o : gmap nat (option (list nat))) :
    M (list nat) :=
  _ ← requestArtifacts (λ s, setArtifactsForTag s p tag);
  match o !! tag with
  | Some (Some result) => mret result
  | _ =>
      map ← artifactsByFileTag p;
      es ← gets id;
      let result := List.filter (isRelevantArtifact (heap es.2)) (default [] (map !! tag)) in
      _ ← setArtifactsObject p (<[tag := Some result]> o);
      mret result
  end.

(** [product.artifacts[tag]]: an array, or undefined where the object has no such
    property ([ArtifactsScriptClass::queryProperty]). *)
Definition readArtifactsForTag (p tag : nat) : M (option (list nat)) :=
  o ← js_artifacts p;
  match o !! tag with
  | Some _ => result ← js_artifactsForFileTag p tag o; mret (Some result)
  | None => _ ← requestArtifacts (λ s, setNonExistingTagRequested s p tag); mret None
  end.

(** [for (tag in product.artifacts)] ([ArtifactsScriptClass::newIterator]) *)
Definition enumerateArtifacts (p : nat) : M (gset nat) :=
  o ← js_artifacts p;
  _ ← requestArtifacts (λ s r, Ok (setArtifactsEnumerated s p r));
  mret (dom o).

(** ** Properties that scripts read *)

(** [ProductPropertyScriptClass::queryProperty]: unknown names are rejected. *)
Definition readProductProperty (p : nat) (n : str) : M unit :=
  es ← gets id;
  match productProperties (dataOf es.2 p) !! n with
  | None => mret tt
  | Some v => addPropertyRequestedInScript (mkProperty (uniqueNameOf es.2 p) [] n v PropertyInProduct)
  end.

(** [getModuleProperty] *)
Definition readModuleProperty (p : nat) (m n : str) : M unit :=
  es ← gets id;
  addPropertyRequestedInScript
    (mkProperty (uniqueNameOf es.2 p) m n (moduleProperty (moduleProperties (dataOf es.2 p)) m n)
       PropertyInModule).

Definition readArtifactModuleProperty (a : nat) (m n : str) : M unit :=
  es ← gets id;
  match productOf (heap es.2) a with
  | None => throw NullPointer
  | Some p =>
      addPropertyRequestedFromArtifact a
        (mkProperty (uniqueNameOf es.2 p) m n (moduleProperty (valueOfMap es.2 a) m n)
           PropertyInModule)
  end.

(** [PrepareScriptObserver::onPropertyRead], for the properties of a project, *)
Definition readProjectProperty (q : nat) (n : str) : M unit :=
  es ← gets id;
  match projectProperties (projectOf es.2 q) !! n with
  | None => mret tt
  | Some v =>
      addPropertyRequestedInScript
        (mkProperty (projectName (projectOf es.2 q)) [] n (throughScript v) PropertyInProject)
  end.

(** the file tags of an artifact, whose script value is set up by
    [Transformer::translateFileConfig], *)
Definition readFileTags (a : nat) : M unit :=
  es ← gets id;
  match productOf (heap es.2) a with
  | None => throw NullPointer
  | Some p =>
      addPropertyRequestedFromArtifact a
        (mkProperty (uniqueNameOf es.2 p) [] "fileTags"
           (throughScript (ofStringList (sortedFileTags es.2 a))) PropertyInArtifact)
  end.

(** and the parameters of a dependency, an object within an object for each part
    of [path] ([dependencyParametersValue]). *)
Definition parametersOf (s : Session V) (p : nat) (dep : nat + str) : str * gmap str V :=
  match dep with
  | inl q =>
      (name (dataOf s q),
       default ∅ (snd <$> List.find (λ e, e.1 =? q) (dependencyParameters (dataOf s p))))
  | inr m =>
      (m, default ∅ (snd <$> List.find (λ e, bool_decide (e.1 = m)) (moduleParameters (dataOf s p))))
  end.

Fixpoint walk (m : gmap str V) (path : list str) : option (gmap str V) :=
  match path with
  | [] => Some m
  | key :: path' =>
      match m !! key with
      | Some v => if isMap v then walk (toMap v) path' else None
      | None => None
      end
  end.

Definition readParameter (p : nat) (dep : nat + str) (path : list str) (n : str) : M unit :=
  es ← gets id;
  let '(depName, params) := parametersOf es.2 p dep in
  match walk params path with
  | None => mret tt
  | Some m =>
      match m !! n with
      | None => mret tt
      | Some v =>
          when (negb (isMap v))
            (addPropertyRequestedInScript
               (mkProperty (uniqueNameOf es.2 p) (depName ++ ":"%char :: QualifiedId_toString path) n
                  (throughScript v) PropertyInParameters))
      end
  end.

(** What a script reads. *)
Inductive Read :=
  | ReadModuleProperty (p : nat) (m n : str)
  | ReadProductProperty (p : nat) (n : str)
  | ReadProjectProperty (q : nat) (n : str)
  | ReadParameter (p : nat) (dep : nat + str) (path : list str) (n : str)
  | ReadArtifactModuleProperty (a : nat) (m n : str)
  | ReadFileTags (a : nat)
  | ReadDependencies (p : nat)
  | ReadExports (p : nat)
  | ReadArtifactsForTag (p tag : nat)
  | EnumerateArtifacts (p : nat)
  | UseImport (i : nat).

Definition runRead (r : Read) : M unit :=
  match r with
  | ReadModuleProperty p m n => readModuleProperty p m n
  | ReadProductProperty p n => readProductProperty p n
  | ReadProjectProperty q n => readProjectProperty q n
  | ReadParameter p dep path n => readParameter p dep path n
  | ReadArtifactModuleProperty a m n => readArtifactModuleProperty a m n
  | ReadFileTags a => readFileTags a
  | ReadDependencies p => addDependenciesArrayRequested p
  | ReadExports p => addRequestedExport p
  | ReadArtifactsForTag p tag => _ ← readArtifactsForTag p tag; mret tt
  | EnumerateArtifacts p => _ ← enumerateArtifacts p; mret tt
  | UseImport i => addImportRequestedInScript i
  end.

Definition runScript (reads : list Read) : M unit := forM reads runRead.
End Observing.

(** ** What a transformer keeps ([buildgraph/transformer.h]) *)

(** The record of the prepare script, and that of the commands: the members
    whose names end in [InPrepareScript] and in [InCommands]. *)
Record Requests (V : Type) := mkRequests {
  propertiesRequested : PropertySet V;
  propertiesRequestedFromArtifact : PropertyHash V;
  importedFilesUsed : list str;
  depsRequested : RequestedDependencies;
  artifactsMapRequested : RequestedArtifacts;
  exportedModulesAccessed : gmap str (ExportedModule V);
  lastExecutionTime : Z
}.
Arguments mkRequests {V} _ _ _ _ _ _ _.
Arguments propertiesRequested {V} _.
Arguments propertiesRequestedFromArtifact {V} _.
Arguments importedFilesUsed {V} _.
Arguments depsRequested {V} _.
Arguments artifactsMapRequested {V} _.
Arguments exportedModulesAccessed {V} _.
Arguments lastExecutionTime {V} _.

Inductive Command :=
  | ProcessCommand (m_relevantEnvVars : list str) (programIsAbsolute : bool)
      (m_relevantEnvValues : gmap str str)
  | JavaScriptCommand.

(** [relevantEnvVars()] *)
Definition relevantEnvVars (m_relevantEnvVars : list str) (programIsAbsolute : bool) : list str :=
  if programIsAbsolute then m_relevantEnvVars else m_relevantEnvVars ++ [lit "PATH"].

Record Tracked (V : Type) := mkTracked {
  inPrepareScript : Requests V;
  inCommands : Requests V;
  commands : list Command;
  prepareScriptNeedsChangeTracking : bool;
  commandsNeedChangeTracking : bool
}.
Arguments mkTracked {V} _ _ _ _ _.
Arguments inPrepareScript {V} _.
Arguments inCommands {V} _.
Arguments commands {V} _.
Arguments prepareScriptNeedsChangeTracking {V} _.
Arguments commandsNeedChangeTracking {V} _.

(** [unordered_map::insert]: an entry that is there stays. *)
Definition addExports {V} (s : Session V) (ps : NodeSet) (m : gmap str (ExportedModule V)) :
    gmap str (ExportedModule V) :=
  foldl (λ m p, if bool_decide (is_Some (m !! uniqueNameOf s p)) then m
                else <[uniqueNameOf s p := exportedModule (dataOf s p)]> m) m ps.

(** The requests of a prepare script that ended at the time [now], after which
    those of the engine are cleared ([Transformer::createCommands]). *)
Definition prepareScriptRequests {V} (s : Session V) (e : ScriptEngine V) (now : Z)
    (r : Requests V) : exn BGError (Requests V) :=
  let* importedFiles := importedFilesUsedInScript e in
  Ok (mkRequests (m_propertiesRequestedInScript e) (m_propertiesRequestedFromArtifact e)
        importedFiles (setDependencies s (m_productsWithRequestedDependencies e))
        (m_requestedArtifacts e)
        (addExports s (m_requestedExports e) (exportedModulesAccessed r)) now).

(** [ExecutorJob::run], before the first command *)
Definition clearCommandRequests {V} (now : Z) : Requests V :=
  mkRequests [] ∅ [] ∅ ∅ ∅ now.

(** After a JavaScript command ([JsCommandExecutorThreadObject::doStart]);
    [QHash::insert] of another hash replaces the entries of the same key. *)
Definition commandRequests {V} (s : Session V) (e : ScriptEngine V) (r : Requests V) :
    exn BGError (Requests V) :=
  let* importedFiles := importedFilesUsedInScript e in
  Ok (mkRequests
        (set_unite property_ltb (propertiesRequested r) (m_propertiesRequestedInScript e))
        (m_propertiesRequestedFromArtifact e ∪ propertiesRequestedFromArtifact r)
        (importedFilesUsed r ++ importedFiles)
        (addDependencies s (m_productsWithRequestedDependencies e) (depsRequested r))
        (requestedArtifacts_unite (artifactsMapRequested r) (m_requestedArtifacts e))
        (addExports s (m_requestedExports e) (exportedModulesAccessed r))
        (lastExecutionTime r)).

(** ** The tracker *)

Record TrafoChangeTracker := mkTrafoChangeTracker {
  m_lastProduct : option nat;
  m_lastArtifact : option nat
}.

Definition newTracker : TrafoChangeTracker := mkTrafoChangeTracker None None.

Definition T : Type → Type := st TrafoChangeTracker BGError.

Section Tracker.
Context {V : Type} {Q : QtVariant V} (s : Session V) (m_product : nat).

Definition setLastProduct (p : nat) : T unit :=
  modify (λ c, mkTrafoChangeTracker (Some p) (m_lastArtifact c)).
Definition setLastArtifact (a : nat) : T unit :=
  modify (λ c, mkTrafoChangeTracker (m_lastProduct c) (Some a)).

Definition findProduct (n : str) : T (option nat) :=
  if bool_decide (n = uniqueNameOf s m_product)
  then _ ← setLastProduct m_product; mret (Some m_product)
  else
    match productsByName s !! n with
    | Some p => _ ← setLastProduct p; mret (Some p)
    | None => mret None
    end.

Definition getProduct (n : str) : T (option nat) :=
  c ← gets id;
  match m_lastProduct c with
  | Some p => if bool_decide (n = uniqueNameOf s p) then mret (Some p) else findProduct n
  | None => findProduct n
  end.

(** The first artifact of the product [p] among the candidates. *)
Definition candidateOf (p : nat) : list nat → option nat :=
  List.find (λ a, isArtifact (heap s) a && bool_decide (productOf (heap s) a = Some p)).

Definition findArtifactOf (path n : str) : T (option nat) :=
  product ← getProduct n;
  match product with
  | None => mret None
  | Some p =>
      match candidateOf p (lookupFilesByPath (heap s) path) with
      | Some a => _ ← setLastArtifact a; mret (Some a)
      | None => mret None
      end
  end.

Definition getArtifact (path n : str) : T (option nat) :=
  c ← gets id;
  match m_lastArtifact c with
  | None => findArtifactOf path n
  | Some a =>
      if bool_decide (filePath (artifactOf (heap s) a) = path)
      then match productOf (heap s) a with
           | None => throw NullPointer
           | Some p =>
               if bool_decide (uniqueNameOf s p = n) then mret (Some a) else findArtifactOf path n
           end
      else findArtifactOf path n
  end.

(** [getParameterValue]: the parameters of the first entry of that name *)
Definition getParameterValue (parameters : list (str * gmap str V)) (depName : str) : gmap str V :=
  default ∅ (snd <$> List.find (λ e, bool_decide (e.1 = depName)) parameters).

Definition parametersByName (p : nat) (depName : str) : gmap str V :=
  let v := getParameterValue
    ((λ e, (name (dataOf s e.1), e.2)) <$> dependencyParameters (dataOf s p)) depName in
  if bool_decide (v ≠ ∅) then v
  else getParameterValue (moduleParameters (dataOf s p)) depName.

Definition propertyMapByKind (property : Property V) : T (gmap str V) :=
  match kind property with
  | PropertyInModule =>
      p ← getProduct (productName property);
      mret (match p with Some p => moduleProperties (dataOf s p) | None => ∅ end)
  | PropertyInProduct =>
      p ← getProduct (productName property);
      mret (match p with Some p => productProperties (dataOf s p) | None => ∅ end)
  | PropertyInProject =>
      let project := projectOf s (projectOfProduct s m_product) in
      mret (if bool_decide (productName property = projectName project)
            then projectProperties project
            else match projectsByName s !! productName property with
                 | Some q => projectProperties (projectOf s q)
                 | None => ∅
                 end)
  | PropertyInParameters =>
      let depName := left (moduleName property) (indexOf ":" (moduleName property)) in
      p ← getProduct (productName property);
      mret (match p with Some p => parametersByName p depName | None => ∅ end)
  | PropertyInArtifact => throw CheckFailed
  end.

(** [map = map.value(moduleName.takeFirst()).toMap()], for each part *)
Definition descend (m : gmap str V) (path : list str) : gmap str V :=
  foldl (λ m key, toMap (mapValue m key)) m path.

Definition checkForPropertyChange (restoredProperty : Property V) (newProperties : gmap str V) :
    exn BGError bool :=
  let* v :=
    match kind restoredProperty with
    | PropertyInProduct | PropertyInProject =>
        Ok (mapValue newProperties (propertyName restoredProperty))
    | PropertyInModule =>
        Ok (moduleProperty newProperties (moduleName restoredProperty)
              (propertyName restoredProperty))
    | PropertyInParameters =>
        let path := QualifiedId_fromString
          (midAfter (moduleName restoredProperty) (indexOf ":" (moduleName restoredProperty))) in
        Ok (mapValue (descend newProperties path) (propertyName restoredProperty))
    | PropertyInArtifact => Throw CheckFailed
    end in
  Ok (negb (variant_eqb (value restoredProperty) v)).

Definition checkForImportFileChange (importedFiles : list str) (referenceTime : Z) : bool :=
  existsb (λ f, match files s !! f with None => true | Some t => (referenceTime <? t)%Z end)
    importedFiles.

Definition isExportedModuleUpToDate (n : str) (module : ExportedModule V) : T bool :=
  product ← getProduct n;
  mret (match product with
        | None => false
        | Some p => exportedModule_eqb (exportedModule (dataOf s p)) module
        end).

Definition areExportedModulesUpToDate (m : gmap str (ExportedModule V)) : T bool :=
  allM (λ kv, isExportedModuleUpToDate kv.1 kv.2) (map_to_list m).

(** The loops over the recorded properties. *)
Definition propertyChanged (property : Property V) : T bool :=
  m ← propertyMapByKind property;
  lift (checkForPropertyChange property m).

Definition artifactPropertyChanged (path : str) (property : Property V) : T bool :=
  artifact ← getArtifact path (productName property);
  match artifact with
  | None => mret true
  | Some a =>
      if bool_decide (kind property = PropertyInArtifact)
      then mret (negb (bool_decide (sortedFileTags s a = toStringList (value property))))
      else lift (checkForPropertyChange property (valueOfMap s a))
  end.

Definition artifactPropertiesChanged (m : PropertyHash V) : T bool :=
  anyM (λ kv, anyM (artifactPropertyChanged kv.1) kv.2) (map_to_list m).

(** A sequence of checks, each of which ends the function with [true]. *)
Fixpoint anyOf (checks : list (T bool)) : T bool :=
  match checks with
  | [] => mret false
  | check :: checks' => b ← check; if b : bool then mret true else anyOf checks'
  end.

(** The members [prepareScriptNeedsRerun] and [commandsNeedRerun]. *)
Definition prepareScriptChanged (t : Tracked V) : T bool :=
  let r := inPrepareScript t in
  anyOf
    [ anyM propertyChanged (propertiesRequested r);
      mret (checkForImportFileChange (importedFilesUsed r) (lastExecutionTime r));
      artifactPropertiesChanged (propertiesRequestedFromArtifact r);
      mret (negb (dependencies_isUpToDate s (depsRequested r)));
      mret (negb (artifacts_isUpToDate s (artifactsMapRequested r)));
      b ← areExportedModulesUpToDate (exportedModulesAccessed r); mret (negb b) ].

Definition environmentChanged (c : Command) : bool :=
  match c with
  | JavaScriptCommand => false
  | ProcessCommand vars isAbsolute values =>
      existsb (λ var, negb (bool_decide (default [] (values !! var) =
                                         default [] (buildEnvironment (dataOf s m_product) !! var))))
        (relevantEnvVars vars isAbsolute)
  end.

Definition commandsChanged (t : Tracked V) : T bool :=
  let r := inCommands t in
  anyOf
    [ anyM propertyChanged (propertiesRequested r);
      artifactPropertiesChanged (propertiesRequestedFromArtifact r);
      mret (checkForImportFileChange (importedFilesUsed r) (lastExecutionTime r));
      mret (negb (dependencies_isUpToDate s (depsRequested r)));
      mret (negb (artifacts_isUpToDate s (artifactsMapRequested r)));
      b ← areExportedModulesUpToDate (exportedModulesAccessed r); mret (negb b);
      mret (existsb environmentChanged (commands t)) ].

(** The functions the executor calls. *)
Definition prepareScriptNeedsRerun (t : Tracked V) : exn BGError bool * Tracked V :=
  if negb (prepareScriptNeedsChangeTracking t) then (Ok false, t)
  else
    let t := mkTracked (inPrepareScript t) (inCommands t) (commands t) false
               (commandsNeedChangeTracking t) in
    ((prepareScriptChanged t newTracker).1, t).

Definition commandsNeedRerun (t : Tracked V) : exn BGError bool * Tracked V :=
  if negb (commandsNeedChangeTracking t) then (Ok false, t)
  else
    let t := mkTracked (inPrepareScript t) (inCommands t) (commands t)
               (prepareScriptNeedsChangeTracking t) false in
    ((commandsChanged t newTracker).1, t).
End Tracker.

(** ** Data that changes owner *)

(** [Transformer::rescueChangeTrackingData]; the commands are not part of it. *)
Definition rescueChangeTrackingData {V} (t : Tracked V) (other : option (Tracked V)) : Tracked V :=
  match other with
  | None => t
  | Some other =>
      mkTracked (inPrepareScript other) (inCommands other) (commands t)
        (prepareScriptNeedsChangeTracking other) (commandsNeedChangeTracking other)
  end.

(** [BuildGraphLoader::markTransformersForChangeTracking], for one transformer *)
Definition markForChangeTracking {V} (t : Tracked V) : Tracked V :=
  mkTracked (inPrepareScript t) (inCommands t) (commands t) true true.
