(* ===== verification/ChangeTrackingCorrect.v ===== *)
(** * Correctness of the change tracking

    The product and the artifact that the tracker remembers never change what it
    finds, and it answers that nothing has to run again exactly when all that was
    recorded still holds. *)

From S2P Require Import Prelude FlatSet BuildGraph StateMonad ChangeTracking.

(** What a session guarantees: products are listed under their names, and the
    artifacts of an entry of the lookup table have its path. *)
Record session_ok {V} (s : Session V) : Prop := {
  so_products n p : productsByName s !! n = Some p → uniqueNameOf s p = n;
  so_lookup key l a x : lookupTable (heap s) !! key = Some l → a ∈ l →
    as_artifact (heap s) a = Some x → key = lookupKey (filePath x)
}.

Section Tracker.
Context {V : Type} {Q : QtVariant V} (s : Session V) (m_product : nat).

(** ** What the tracker looks for, without a memory *)

Definition productNamed (n : str) : option nat :=
  if bool_decide (n = uniqueNameOf s m_product) then Some m_product else productsByName s !! n.

Definition artifactNamed (path n : str) : option nat :=
  p ← productNamed n; candidateOf s p (lookupFilesByPath (heap s) path).

Definition projectNamed (n : str) : option nat :=
  let q := projectOfProduct s m_product in
  if bool_decide (n = projectName (projectOf s q)) then Some q else projectsByName s !! n.

(** The value of a property as the project has it now; [m] is the property map
    of the artifact for a property that was read from an artifact. *)
Definition valueIn (k : Kind) (m : gmap str V) (mn n : str) : V :=
  match k with
  | PropertyInModule => moduleProperty m mn n
  | PropertyInProduct | PropertyInProject | PropertyInArtifact => mapValue m n
  | PropertyInParameters =>
      mapValue (descend m (QualifiedId_fromString (midAfter mn (indexOf ":" mn)))) n
  end.

Definition mapNamed (k : Kind) (pn mn : str) : gmap str V :=
  match k with
  | PropertyInModule => from_option (λ p, moduleProperties (dataOf s p)) ∅ (productNamed pn)
  | PropertyInProduct => from_option (λ p, productProperties (dataOf s p)) ∅ (productNamed pn)
  | PropertyInProject => from_option (λ q, projectProperties (projectOf s q)) ∅ (projectNamed pn)
  | PropertyInParameters =>
      from_option (λ p, parametersByName s p (left mn (indexOf ":" mn))) ∅ (productNamed pn)
  | PropertyInArtifact => ∅
  end.

Definition currentValue (p : Property V) : V :=
  valueIn (kind p) (mapNamed (kind p) (productName p) (moduleName p)) (moduleName p)
    (propertyName p).

(** ** What was recorded still holds *)

Definition artifactProperty_holds (path : str) (p : Property V) : Prop :=
  ∃ a, artifactNamed path (productName p) = Some a ∧
    if bool_decide (kind p = PropertyInArtifact)
    then sortedFileTags s a = toStringList (value p)
    else variant_eqb (value p) (valueIn (kind p) (valueOfMap s a) (moduleName p) (propertyName p))
         = true.

Definition import_holds (referenceTime : Z) (f : str) : Prop :=
  ∃ t, files s !! f = Some t ∧ (t <= referenceTime)%Z.

(** The first product of that name. *)
Definition firstNamed (n : str) : option nat :=
  List.find (λ p, bool_decide (uniqueNameOf s p = n)) (allProducts s).

Definition tags_hold (b : ProductBuildData) (ra : RequestedArtifactsPerProduct) : Prop :=
  (∀ tag paths, requestedTags ra !! tag = Some paths → filePathsForTag (heap s) b tag = paths) ∧
  (artifactsEnumerated ra = true → dom (m_artifactsByFileTag b) = allTags ra).

Definition artifacts_hold (r : RequestedArtifacts) : Prop :=
  ∀ n ra, r !! n = Some ra →
    ∃ p b, firstNamed n = Some p ∧ buildDataOf (heap s) p = Some b ∧ tags_hold b ra.

Record requests_hold (r : Requests V) : Prop := {
  rh_properties p : p ∈ propertiesRequested r → variant_eqb (value p) (currentValue p) = true;
  rh_fromArtifact path ps p : propertiesRequestedFromArtifact r !! path = Some ps → p ∈ ps →
    artifactProperty_holds path p;
  rh_imports f : f ∈ importedFilesUsed r → import_holds (lastExecutionTime r) f;
  rh_deps p names : p ∈ allProducts s → depsRequested r !! uniqueNameOf s p = Some names →
    depNamesForProduct s p = names;
  rh_artifacts : artifacts_hold (artifactsMapRequested r);
  rh_exports n m : exportedModulesAccessed r !! n = Some m →
    ∃ p, productNamed n = Some p ∧ exportedModule_eqb (exportedModule (dataOf s p)) m = true
}.

(** The variables that processes have asked for have the same values. *)
Definition environment_holds (l : list Command) : Prop :=
  ∀ vars isAbsolute values var, ProcessCommand vars isAbsolute values ∈ l →
    var ∈ relevantEnvVars vars isAbsolute →
    default [] (values !! var) = default [] (buildEnvironment (dataOf s m_product) !! var).

(** The properties that do not belong to an artifact are of the other kinds. *)
Definition kinds_ok (r : Requests V) : Prop :=
  ∀ p, p ∈ propertiesRequested r → kind p ≠ PropertyInArtifact.

(** ** The members of the tracker are transparent *)

Definition tracker_ok (c : TrafoChangeTracker) : Prop :=
  (∀ p, m_lastProduct c = Some p → productNamed (uniqueNameOf s p) = Some p) ∧
  (∀ a, m_lastArtifact c = Some a → ∃ p, productOf (heap s) a = Some p ∧
     artifactNamed (filePath (artifactOf (heap s) a)) (uniqueNameOf s p) = Some a).

(** [m] returns [x] whatever the tracker remembers. *)
Definition returns {A} (m : T A) (x : A) : Prop :=
  ∀ c, tracker_ok c → ∃ c', m c = (Ok x, c') ∧ tracker_ok c'.

Lemma returns_ret {A} (x : A) : returns (mret x) x.
Proof. intros c Hc. by exists c. Qed.

Lemma returns_seq {A B} (m : T A) (k : A → T B) x y :
  returns m x → returns (k x) y → returns (m ≫= k) y.
Proof.
  intros Hm Hk c Hc. destruct (Hm c Hc) as (c1 & E & H1). unfold mbind, st_bind. rewrite E. auto.
Qed.

Lemma returns_lift {A} (m : exn BGError A) x : m = Ok x → returns (lift m) x.
Proof. intros -> c Hc. by exists c. Qed.

Lemma returns_anyM {A} (f : A → T bool) g l :
  (∀ x, x ∈ l → returns (f x) (g x)) → returns (anyM f l) (existsb g l).
Proof.
  induction l as [|x l IH]; intros H; simpl; [apply returns_ret|].
  eapply returns_seq; [apply H; left|]. destruct (g x); simpl; [apply returns_ret|].
  apply IH. intros y Hy. apply H. by right.
Qed.

Lemma returns_allM {A} (f : A → T bool) g l :
  (∀ x, x ∈ l → returns (f x) (g x)) → returns (allM f l) (forallb g l).
Proof.
  induction l as [|x l IH]; intros H; simpl; [apply returns_ret|].
  eapply returns_seq; [apply H; left|]. destruct (g x); simpl; [|apply returns_ret].
  apply IH. intros y Hy. apply H. by right.
Qed.

Lemma returns_anyOf checks bs :
  Forall2 returns checks bs → returns (anyOf checks) (existsb id bs).
Proof.
  induction 1 as [|m b checks bs Hm _ IH]; simpl; [apply returns_ret|].
  eapply returns_seq; [exact Hm|]. destruct b; simpl; [apply returns_ret|done].
Qed.

Lemma returns_from {A} (m : T A) x c :
  returns m x → tracker_ok c → (m c).1 = Ok x.
Proof. intros Hm Hc. by destruct (Hm c Hc) as (c' & -> & _). Qed.

Hypothesis Hs : session_ok s.

Lemma newTracker_ok : tracker_ok newTracker.
Proof. by split. Qed.

Lemma productNamed_name n p : productNamed n = Some p → uniqueNameOf s p = n.
Proof.
  unfold productNamed. case_bool_decide; [|by apply so_products]. by intros [= <-].
Qed.

Lemma setLastProduct_ok p c :
  productNamed (uniqueNameOf s p) = Some p → tracker_ok c →
  tracker_ok (mkTrafoChangeTracker (Some p) (m_lastArtifact c)).
Proof. intros Hp [H1 H2]. split; simpl; [|done]. by intros ? [= <-]. Qed.

Lemma findProduct_returns n : returns (findProduct s m_product n) (productNamed n).
Proof.
  intros c Hc. unfold findProduct.
  assert (∀ p, productNamed n = Some p → productNamed (uniqueNameOf s p) = Some p) as Hn.
  { intros p Hp. by rewrite (productNamed_name _ _ Hp). }
  unfold productNamed in *. case_bool_decide as E.
  - eexists. split; [reflexivity|]. apply setLastProduct_ok; [by apply Hn|done].
  - destruct (productsByName s !! n) as [p|] eqn:Ep; [|by exists c].
    eexists. split; [reflexivity|]. apply setLastProduct_ok; [by apply Hn|done].
Qed.

Lemma getProduct_returns n : returns (getProduct s m_product n) (productNamed n).
Proof.
  intros c Hc. unfold getProduct, mbind, st_bind, gets, id.
  destruct (m_lastProduct c) as [p|] eqn:E; [|by apply findProduct_returns].
  case_bool_decide as En; [|by apply findProduct_returns].
  exists c. split; [|done]. rewrite En. by rewrite (proj1 Hc p E).
Qed.

Lemma candidateOf_spec p l a :
  candidateOf s p l = Some a →
  a ∈ l ∧ productOf (heap s) a = Some p ∧ ∃ x, as_artifact (heap s) a = Some x.
Proof.
  intros H. apply find_some in H as [Hin H]. apply andb_true_iff in H as [H1 H2].
  apply bool_decide_eq_true in H2. split_and!; [by apply list_elem_of_In|done|].
  unfold isArtifact in H1. destruct (as_artifact _ a); [by eexists|done].
Qed.

(** An artifact is found under its own path where it is found at all. *)
Lemma artifactNamed_own path n a :
  artifactNamed path n = Some a →
  ∃ p, productOf (heap s) a = Some p ∧
    artifactNamed (filePath (artifactOf (heap s) a)) (uniqueNameOf s p) = Some a.
Proof.
  unfold artifactNamed. intros H. destruct (productNamed n) as [p|] eqn:Ep; [|done]. simpl in H.
  destruct (candidateOf_spec _ _ _ H) as (Hin & Hp & x & Hx). exists p. split; [done|].
  rewrite (productNamed_name _ _ Ep), Ep. simpl. rewrite <-H. f_equal.
  unfold lookupFilesByPath, lookupFiles in *.
  destruct (lookupTable (heap s) !! (fileName path, dirPath path)) as [l|] eqn:El;
    [|by apply elem_of_nil in Hin].
  pose proof (so_lookup _ Hs _ _ _ _ El Hin Hx) as Hk. unfold lookupKey in Hk.
  unfold artifactOf. rewrite Hx. simpl. by rewrite <-Hk, El.
Qed.

Lemma findArtifactOf_returns path n :
  returns (findArtifactOf s m_product path n) (artifactNamed path n).
Proof.
  unfold findArtifactOf. eapply returns_seq; [apply getProduct_returns|].
  unfold artifactNamed at 1. destruct (productNamed n) as [p|] eqn:Ep; simpl; [|apply returns_ret].
  destruct (candidateOf s p _) as [a|] eqn:Ea; [|apply returns_ret].
  intros c [H1 H2]. eexists. split; [reflexivity|]. split; simpl; [done|].
  intros ? [= <-]. apply (artifactNamed_own path n). unfold artifactNamed. by rewrite Ep.
Qed.

Lemma getArtifact_returns path n :
  returns (getArtifact s m_product path n) (artifactNamed path n).
Proof.
  intros c Hc. unfold getArtifact, mbind, st_bind, gets, id.
  destruct (m_lastArtifact c) as [a|] eqn:E; [|by apply findArtifactOf_returns].
  case_bool_decide as Ef; [|by apply findArtifactOf_returns].
  destruct (proj2 Hc a E) as (p & Hp & Ha). rewrite Hp.
  case_bool_decide as En; [|by apply findArtifactOf_returns].
  exists c. split; [|done]. by rewrite <-Ef, <-En, Ha.
Qed.

(** ** The checks *)

Lemma checkForPropertyChange_ok p m :
  kind p ≠ PropertyInArtifact →
  checkForPropertyChange p m =
    Ok (negb (variant_eqb (value p) (valueIn (kind p) m (moduleName p) (propertyName p)))).
Proof. intros Hk. unfold checkForPropertyChange, valueIn. by destruct (kind p). Qed.

Lemma propertyMapByKind_returns p :
  kind p ≠ PropertyInArtifact →
  returns (propertyMapByKind s m_product p) (mapNamed (kind p) (productName p) (moduleName p)).
Proof.
  intros Hk. unfold propertyMapByKind, mapNamed, projectNamed. destruct (kind p); try done.
  - eapply returns_seq; [apply getProduct_returns|]. destruct (productNamed _); apply returns_ret.
  - eapply returns_seq; [apply getProduct_returns|]. destruct (productNamed _); apply returns_ret.
  - case_bool_decide; [apply returns_ret|].
    destruct (projectsByName s !! _); apply returns_ret.
  - eapply returns_seq; [apply getProduct_returns|]. destruct (productNamed _); apply returns_ret.
Qed.

Definition propertyChanged_spec (p : Property V) : bool :=
  negb (variant_eqb (value p) (currentValue p)).

Lemma propertyChanged_returns p :
  kind p ≠ PropertyInArtifact →
  returns (propertyChanged s m_product p) (propertyChanged_spec p).
Proof.
  intros Hk. unfold propertyChanged. eapply returns_seq; [by apply propertyMapByKind_returns|].
  apply returns_lift. by rewrite checkForPropertyChange_ok.
Qed.

Definition artifactPropertyChanged_spec (path : str) (p : Property V) : bool :=
  match artifactNamed path (productName p) with
  | None => true
  | Some a =>
      if bool_decide (kind p = PropertyInArtifact)
      then negb (bool_decide (sortedFileTags s a = toStringList (value p)))
      else negb (variant_eqb (value p)
                   (valueIn (kind p) (valueOfMap s a) (moduleName p) (propertyName p)))
  end.

Lemma artifactPropertyChanged_returns path p :
  returns (artifactPropertyChanged s m_product path p) (artifactPropertyChanged_spec path p).
Proof.
  unfold artifactPropertyChanged, artifactPropertyChanged_spec.
  eapply returns_seq; [apply getArtifact_returns|].
  destruct (artifactNamed path (productName p)) as [a|]; [|apply returns_ret].
  case_bool_decide as Hk; [apply returns_ret|]. apply returns_lift.
  by rewrite checkForPropertyChange_ok.
Qed.

Lemma artifactPropertyChanged_spec_false path p :
  artifactPropertyChanged_spec path p = false ↔ artifactProperty_holds path p.
Proof.
  unfold artifactPropertyChanged_spec, artifactProperty_holds.
  destruct (artifactNamed path (productName p)) as [a|]; [|by split; [|intros (? & ? & _)]].
  split.
  - intros H. exists a. split; [done|]. case_bool_decide; apply negb_false_iff in H; [|done].
    by apply bool_decide_eq_true in H.
  - intros (? & [= <-] & H). case_bool_decide; apply negb_false_iff; [|done].
    by apply bool_decide_eq_true.
Qed.

Definition exportedModuleChanged_spec (n : str) (m : ExportedModule V) : bool :=
  match productNamed n with
  | None => true
  | Some p => negb (exportedModule_eqb (exportedModule (dataOf s p)) m)
  end.

Lemma areExportedModulesUpToDate_returns (m : gmap str (ExportedModule V)) :
  returns (areExportedModulesUpToDate s m_product m)
    (forallb (λ kv, negb (exportedModuleChanged_spec kv.1 kv.2)) (map_to_list m)).
Proof.
  apply returns_allM. intros [n e] _. unfold isExportedModuleUpToDate. simpl.
  eapply returns_seq; [apply getProduct_returns|]. unfold exportedModuleChanged_spec.
  destruct (productNamed n); [rewrite negb_involutive|]; apply returns_ret.
Qed.

(** A loop over the entries of a map. *)
Lemma forallb_map_to_list {K A} `{Countable K} (f : K * A → bool) (m : gmap K A) :
  forallb f (map_to_list m) = true ↔ ∀ k x, m !! k = Some x → f (k, x) = true.
Proof.
  rewrite forallb_forall. split.
  - intros Hf k x Hk. apply Hf, list_elem_of_In. by apply elem_of_map_to_list.
  - intros Hf [k x] Hk%list_elem_of_In. apply Hf. by apply elem_of_map_to_list.
Qed.

Definition artifactsChanged_spec (m : PropertyHash V) : bool :=
  existsb (λ kv, existsb (artifactPropertyChanged_spec kv.1) kv.2) (map_to_list m).

Lemma artifactPropertiesChanged_returns m :
  returns (artifactPropertiesChanged s m_product m) (artifactsChanged_spec m).
Proof.
  apply returns_anyM. intros [path ps] _. simpl. apply returns_anyM. intros p _.
  apply artifactPropertyChanged_returns.
Qed.

Lemma artifactsChanged_spec_false m :
  artifactsChanged_spec m = false ↔
  ∀ path ps p, m !! path = Some ps → p ∈ ps → artifactProperty_holds path p.
Proof.
  unfold artifactsChanged_spec. rewrite existsb_false. split.
  - intros H path ps p Hm Hp. apply artifactPropertyChanged_spec_false.
    apply elem_of_map_to_list, H in Hm. simpl in Hm. rewrite existsb_false in Hm. by apply Hm.
  - intros H [path ps] Hm%elem_of_map_to_list. simpl. apply existsb_false. intros p Hp.
    apply artifactPropertyChanged_spec_false. by eapply H.
Qed.

Lemma checkForImportFileChange_false fs ref :
  checkForImportFileChange s fs ref = false ↔ ∀ f, f ∈ fs → import_holds ref f.
Proof.
  unfold checkForImportFileChange. rewrite existsb_false. unfold import_holds.
  split; intros H f Hf; specialize (H f Hf); destruct (files s !! f) as [t|].
  - exists t. split; [done|]. by apply Z.ltb_ge.
  - done.
  - destruct H as (? & [= <-] & ?). by apply Z.ltb_ge.
  - by destruct H as (? & ? & _).
Qed.

Lemma dependencies_isUpToDate_true r :
  dependencies_isUpToDate s r = true ↔
  ∀ p names, p ∈ allProducts s → r !! uniqueNameOf s p = Some names →
    depNamesForProduct s p = names.
Proof.
  unfold dependencies_isUpToDate. case_bool_decide as E.
  { subst r. split; [|done]. intros _ p names _ Hn. by rewrite lookup_empty in Hn. }
  rewrite forallb_forall. setoid_rewrite <-list_elem_of_In. split.
  - intros H p names Hp Hn. specialize (H p Hp). rewrite Hn in H.
    by apply bool_decide_eq_true in H.
  - intros H p Hp. destruct (r !! uniqueNameOf s p) as [names|] eqn:En; [|done].
    apply bool_decide_eq_true. by apply H.
Qed.

Lemma perProduct_isUpToDate_true p ra :
  perProduct_isUpToDate (heap s) p ra = true ↔
  ∃ b, buildDataOf (heap s) p = Some b ∧ tags_hold b ra.
Proof.
  unfold perProduct_isUpToDate, tags_hold.
  destruct (buildDataOf (heap s) p) as [b|]; [|by split; [|intros (? & ? & _)]].
  set (A := forallb _ _).
  assert (A = true ↔ ∀ tag paths, requestedTags ra !! tag = Some paths →
            filePathsForTag (heap s) b tag = paths) as HA.
  { unfold A. rewrite forallb_map_to_list. by setoid_rewrite bool_decide_eq_true. }
  clearbody A. split.
  - intros H. exists b. split; [done|]. rewrite <-HA.
    destruct (artifactsEnumerated ra); simpl in H.
    + destruct A; simpl in H; [|done]. by rewrite bool_decide_eq_true in H.
    + case_bool_decide as E; [|by destruct A]. split; [|done].
      apply HA. intros tag paths Ht. by rewrite E, lookup_empty in Ht.
  - intros (? & [= <-] & Ht & He). rewrite <-HA in Ht. rewrite Ht. simpl.
    destruct (artifactsEnumerated ra); simpl; [by apply bool_decide_eq_true, He|].
    by case_bool_decide.
Qed.

Lemma artifacts_isUpToDate_true r : artifacts_isUpToDate s r = true ↔ artifacts_hold r.
Proof.
  unfold artifacts_isUpToDate, artifacts_hold. rewrite forallb_map_to_list. simpl.
  apply forall_proper. intros n. apply forall_proper. intros ra. fold (firstNamed n).
  split; intros H Hr; specialize (H Hr).
  - destruct (firstNamed n) as [p|]; [|done].
    apply perProduct_isUpToDate_true in H as (b & Hb & Ht). by exists p, b.
  - destruct H as (p & b & -> & Hb & Ht). apply perProduct_isUpToDate_true. by exists b.
Qed.

(** ** The two questions *)

Definition requestsChanged_spec (r : Requests V) : bool :=
  existsb propertyChanged_spec (propertiesRequested r) ||
  (artifactsChanged_spec (propertiesRequestedFromArtifact r) ||
  (checkForImportFileChange s (importedFilesUsed r) (lastExecutionTime r) ||
  (negb (dependencies_isUpToDate s (depsRequested r)) ||
  (negb (artifacts_isUpToDate s (artifactsMapRequested r)) ||
   negb (forallb (λ kv, negb (exportedModuleChanged_spec kv.1 kv.2))
           (map_to_list (exportedModulesAccessed r))))))).

Lemma requestsChanged_spec_false r : requestsChanged_spec r = false ↔ requests_hold r.
Proof.
  unfold requestsChanged_spec. rewrite !orb_false_iff, !negb_false_iff.
  rewrite existsb_false, artifactsChanged_spec_false, checkForImportFileChange_false,
    dependencies_isUpToDate_true, artifacts_isUpToDate_true, forallb_map_to_list. simpl.
  assert (∀ n m, negb (exportedModuleChanged_spec n m) = true ↔
            ∃ p, productNamed n = Some p ∧ exportedModule_eqb (exportedModule (dataOf s p)) m = true)
    as He.
  { intros n m. unfold exportedModuleChanged_spec. destruct (productNamed n) as [p|].
    - rewrite negb_involutive. split; [eauto|]. by intros (? & [= <-] & ?).
    - by split; [|intros (? & ? & _)]. }
  setoid_rewrite He. unfold propertyChanged_spec. setoid_rewrite negb_false_iff. split.
  - intros (H1 & H2 & H3 & H4 & H5 & H6). by split.
  - intros []. by split_and!.
Qed.

Lemma properties_returns r :
  kinds_ok r →
  returns (anyM (propertyChanged s m_product) (propertiesRequested r))
    (existsb propertyChanged_spec (propertiesRequested r)).
Proof. intros Hk. apply returns_anyM. intros p Hp. by apply propertyChanged_returns, Hk. Qed.

Lemma exports_returns (m : gmap str (ExportedModule V)) :
  returns (b ← areExportedModulesUpToDate s m_product m; mret (negb b))
    (negb (forallb (λ kv, negb (exportedModuleChanged_spec kv.1 kv.2)) (map_to_list m))).
Proof. eapply returns_seq; [apply areExportedModulesUpToDate_returns|apply returns_ret]. Qed.

Lemma environmentChanged_false l :
  existsb (environmentChanged s m_product) l = false ↔ environment_holds l.
Proof.
  rewrite existsb_false. unfold environment_holds. split.
  - intros H vars ab values var Hc Hv. specialize (H _ Hc). simpl in H.
    rewrite existsb_false in H. specialize (H _ Hv). apply negb_false_iff in H.
    by apply bool_decide_eq_true in H.
  - intros H [vars ab values|] Hc; [|done]. simpl. apply existsb_false. intros var Hv.
    apply negb_false_iff, bool_decide_eq_true. by eapply H.
Qed.

Lemma prepareScriptChanged_returns t :
  kinds_ok (inPrepareScript t) →
  ∃ b, returns (prepareScriptChanged s m_product t) b ∧
    (b = false ↔ requests_hold (inPrepareScript t)).
Proof.
  intros Hk. eexists. split.
  - apply returns_anyOf. repeat constructor; [by apply properties_returns|apply returns_ret| |
      apply returns_ret|apply returns_ret|apply exports_returns].
    apply artifactPropertiesChanged_returns.
  - rewrite <-requestsChanged_spec_false. unfold requestsChanged_spec. simpl. unfold id.
    rewrite !orb_false_iff. tauto.
Qed.

Lemma commandsChanged_returns t :
  kinds_ok (inCommands t) →
  ∃ b, returns (commandsChanged s m_product t) b ∧
    (b = false ↔ requests_hold (inCommands t) ∧ environment_holds (commands t)).
Proof.
  intros Hk. eexists. split.
  - apply returns_anyOf. repeat constructor; [by apply properties_returns| |apply returns_ret|
      apply returns_ret|apply returns_ret|apply exports_returns|apply returns_ret].
    apply artifactPropertiesChanged_returns.
  - rewrite <-requestsChanged_spec_false, <-environmentChanged_false.
    unfold requestsChanged_spec. simpl. unfold id. rewrite !orb_false_iff. tauto.
Qed.
End Tracker.

(** C8: the change tracking asks the project only when a transformer is marked
    for it, takes the mark away, and answers that the commands need not run again
    exactly when everything that was recorded for them still holds: the values of
    the properties, the file tags, the imported files, the dependencies, the
    artifacts maps, the exported modules and the relevant environment variables.
    The product and the artifact that it remembers from the last look-up make no
    difference, and the same holds for the prepare script. *)
Theorem change_tracking_correct {V} {Q : QtVariant V} (s : Session V) p (t : Tracked V) :
  session_ok s → kinds_ok (inPrepareScript t) → kinds_ok (inCommands t) →
  (∃ b, commandsNeedRerun s p t =
      (Ok b, mkTracked (inPrepareScript t) (inCommands t) (commands t)
               (prepareScriptNeedsChangeTracking t) false) ∧
    (b = false ↔ commandsNeedChangeTracking t = false ∨
       requests_hold s p (inCommands t) ∧ environment_holds s p (commands t))) ∧
  (∃ b, prepareScriptNeedsRerun s p t =
      (Ok b, mkTracked (inPrepareScript t) (inCommands t) (commands t) false
               (commandsNeedChangeTracking t)) ∧
    (b = false ↔ prepareScriptNeedsChangeTracking t = false ∨
       requests_hold s p (inPrepareScript t))).
Proof.
  intros Hs Hp Hc. destruct t as [rp rc cs [|] [|]]; simpl in *; split;
    try (exists false; split; [done|tauto]).
  all: match goal with
    | |- context [commandsNeedRerun _ _ ?t] =>
        destruct (commandsChanged_returns s p Hs
          (mkTracked (inPrepareScript t) (inCommands t) (commands t)
             (prepareScriptNeedsChangeTracking t) false) Hc) as (b & Hb & E)
    | |- context [prepareScriptNeedsRerun _ _ ?t] =>
        destruct (prepareScriptChanged_returns s p Hs
          (mkTracked (inPrepareScript t) (inCommands t) (commands t) false
             (commandsNeedChangeTracking t)) Hp) as (b & Hb & E)
    end.
  all: exists b; split; [|simpl in E; rewrite E; naive_solver].
  all: unfold commandsNeedRerun, prepareScriptNeedsRerun; simpl.
  all: apply (returns_from _ _ _ _ newTracker) in Hb; [|by apply newTracker_ok].
  all: simpl in Hb; by rewrite Hb.
Qed.
