(* ===== verification/ChangeRecording.v ===== *)
(** * What is recorded is what was read

    A script reads the project through the script engine, which records the
    requests; the transformer takes them over when the script has ended.  In a
    later session nothing has to run again exactly when each of these reads would
    give the same. *)

From S2P Require Import Prelude FlatSet BuildGraph StateMonad ChangeTracking ChangeTrackingCorrect.

(** What the reads rely on of [QVariant] and of script values: a value that
    passed through the engine compares as before, and a list of strings is
    still that list. *)
Class QtVariantLaws {V} (Q : QtVariant V) : Prop := {
  throughScript_eqb v w : variant_eqb (throughScript v) w = variant_eqb v w;
  throughScript_strings l : toStringList (throughScript (ofStringList l)) = l
}.

(** ** Sets of properties *)

#[export] Instance key_ltb_order : StrictOrderB key_ltb.
Proof.
  split; unfold key_ltb.
  - intros [[p m] n]. by rewrite !(ltb_irrefl (ltb := str_ltb)).
  - intros [[p1 m1] n1] [[p2 m2] n2] [[p3 m3] n3].
    destruct (ltbP (ltb := str_ltb) p1 p2) as [Hp| ->|],
      (ltbP (ltb := str_ltb) p2 p3) as [Hp'| ->|]; try done.
    all: rewrite ?(ltb_trans _ _ _ Hp Hp'), ?Hp, ?Hp', ?(ltb_irrefl (ltb := str_ltb)); try done.
    destruct (ltbP (ltb := str_ltb) m1 m2) as [Hm| ->|],
      (ltbP (ltb := str_ltb) m2 m3) as [Hm'| ->|]; try done.
    all: rewrite ?(ltb_trans _ _ _ Hm Hm'), ?Hm, ?Hm', ?(ltb_irrefl (ltb := str_ltb)); try done.
    apply ltb_trans.
  - intros [[p1 m1] n1] [[p2 m2] n2].
    destruct (ltbP (ltb := str_ltb) p1 p2) as [| ->|]; try done.
    destruct (ltbP (ltb := str_ltb) m1 m2) as [| ->|]; try done.
    intros H1 H2. by rewrite (ltb_total _ _ H1 H2).
Qed.

Section Properties.
Context {V : Type}.
Implicit Types (p q : Property V) (ps : PropertySet V).

(** A property is added unless there is another one with its names. *)
Lemma elem_of_addProperty ps p q :
  (∀ x, x ∈ ps → property_key x = property_key p → x = p) →
  q ∈ addProperty ps p ↔ q ∈ ps ∨ q = p.
Proof.
  intros Hu. unfold addProperty, set_insert.
  rewrite lookup_lower_bound, take_lower_bound, drop_lower_bound.
  assert (q ∈ take_while (λ x, property_ltb x p) ps ++ p :: drop_while (λ x, property_ltb x p) ps ↔
          q ∈ ps ∨ q = p) as Hins.
  { rewrite elem_of_app, elem_of_cons, (elem_of_take_drop_while (λ x, property_ltb x p) ps).
    tauto. }
  destruct (drop_while _ ps) as [|z ps'] eqn:E; simpl; [done|].
  pose proof (drop_while_head _ _ _ _ E) as Hz. simpl in Hz.
  destruct (property_ltb p z) eqn:Ez; simpl; [done|].
  assert (z = p) as ->.
  { apply Hu; [|by apply (ltb_total (ltb := key_ltb))].
    apply (elem_of_take_drop_while (λ x, property_ltb x p)). rewrite E. right. left. }
  assert (p ∈ ps) as Hp.
  { apply (elem_of_take_drop_while (λ x, property_ltb x p)). rewrite E. right. left. }
  naive_solver.
Qed.
End Properties.

(** ** Sessions that differ in the flags of the artifacts maps only *)

Record same_project {V} (s0 s : Session V) : Prop := {
  sp_nodes : nodes (heap s) = nodes (heap s0);
  sp_product p : (λ rp, (uniqueName rp, dependencies rp)) <$> products (heap s) !! p =
                 (λ rp, (uniqueName rp, dependencies rp)) <$> products (heap s0) !! p;
  sp_build p : m_artifactsByFileTag <$> buildDataOf (heap s) p =
               m_artifactsByFileTag <$> buildDataOf (heap s0) p;
  sp_data : productData s = productData s0;
  sp_projects : projectData s = projectData s0;
  sp_maps : propertyMaps s = propertyMaps s0;
  sp_tags : tagString s = tagString s0
}.

Section Same.
Context {V : Type} (s0 s : Session V).
Hypothesis Hs : same_project s0 s.

Lemma same_uniqueNameOf p : uniqueNameOf s p = uniqueNameOf s0 p.
Proof.
  unfold uniqueNameOf. pose proof (sp_product _ _ Hs p) as E.
  destruct (products (heap s) !! p), (products (heap s0) !! p); simpl in *; congruence.
Qed.

Lemma same_dependenciesOf p : dependenciesOf s p = dependenciesOf s0 p.
Proof.
  unfold dependenciesOf. pose proof (sp_product _ _ Hs p) as E.
  destruct (products (heap s) !! p), (products (heap s0) !! p); simpl in *; congruence.
Qed.

Lemma same_dataOf p : dataOf s p = dataOf s0 p.
Proof. unfold dataOf. by rewrite (sp_data _ _ Hs). Qed.

Lemma same_projectOf q : projectOf s q = projectOf s0 q.
Proof. unfold projectOf. by rewrite (sp_projects _ _ Hs). Qed.

Lemma same_artifactOf a : artifactOf (heap s) a = artifactOf (heap s0) a.
Proof. unfold artifactOf, as_artifact. by rewrite (sp_nodes _ _ Hs). Qed.

Lemma same_productOf a : productOf (heap s) a = productOf (heap s0) a.
Proof. unfold productOf, node. by rewrite (sp_nodes _ _ Hs). Qed.

Lemma same_valueOfMap a : valueOfMap s a = valueOfMap s0 a.
Proof. unfold valueOfMap. by rewrite same_artifactOf, (sp_maps _ _ Hs). Qed.

Lemma same_sortedFileTags a : sortedFileTags s a = sortedFileTags s0 a.
Proof.
  unfold sortedFileTags, fileTags, as_artifact. by rewrite (sp_nodes _ _ Hs), (sp_tags _ _ Hs).
Qed.

Lemma same_depNames p : depNamesForProduct s p = depNamesForProduct s0 p.
Proof.
  unfold depNamesForProduct. rewrite same_dependenciesOf, same_dataOf. do 2 f_equal.
  apply list_fmap_ext. intros. apply same_uniqueNameOf.
Qed.

Lemma same_parametersOf p dep : parametersOf s p dep = parametersOf s0 p dep.
Proof. unfold parametersOf. by destruct dep; rewrite !same_dataOf. Qed.

Lemma same_build p b0 :
  buildDataOf (heap s0) p = Some b0 →
  ∃ b, buildDataOf (heap s) p = Some b ∧ m_artifactsByFileTag b = m_artifactsByFileTag b0.
Proof.
  intros E. pose proof (sp_build _ _ Hs p) as Eb. rewrite E in Eb.
  destruct (buildDataOf (heap s) p) as [b|]; [|done]. exists b. split; [done|]. by injection Eb.
Qed.

Lemma same_filePathsForTag b b0 tag :
  m_artifactsByFileTag b = m_artifactsByFileTag b0 →
  filePathsForTag (heap s) b tag = filePathsForTag (heap s0) b0 tag.
Proof.
  intros E. unfold filePathsForTag. rewrite E. f_equal. apply list_fmap_ext. intros.
  by rewrite same_artifactOf.
Qed.

Lemma same_relevant a : isRelevantArtifact (heap s) a = isRelevantArtifact (heap s0) a.
Proof. unfold isRelevantArtifact. by rewrite same_artifactOf. Qed.
End Same.

Lemma same_project_refl {V} (s : Session V) : same_project s s.
Proof. by split. Qed.

Lemma buildDataOf_upd_buildData f p q h :
  buildDataOf (upd_buildData f p h) q =
    if decide (p = q) then f <$> buildDataOf h q else buildDataOf h q.
Proof.
  unfold buildDataOf, upd_buildData. simpl. case_decide as E.
  - subst. rewrite lookup_alter_eq. by destruct (products h !! q).
  - by rewrite lookup_alter_ne.
Qed.

Lemma same_project_flag {V} (s0 s : Session V) p b b' :
  same_project s0 s → buildDataOf (heap s) p = Some b →
  m_artifactsByFileTag b' = m_artifactsByFileTag b →
  same_project s0 (set_heap (upd_buildData (λ _, b') p) s).
Proof.
  intros [H1 H2 H3 H4 H5 H6 H7] Eb E. split; try done.
  - intros q. rewrite <-H2. simpl. destruct (decide (p = q)) as [->|Hne].
    + rewrite lookup_alter_eq. by destruct (products (heap s) !! q).
    + by rewrite lookup_alter_ne.
  - intros q. rewrite <-H3. simpl. rewrite buildDataOf_upd_buildData. case_decide as Hd; [|done].
    subst q. rewrite Eb. simpl. by rewrite E.
Qed.

(** ** The [artifacts] maps *)

Section Maps.
Context {V : Type} {Q : QtVariant V} (s0 : Session V).
Implicit Types (e : ScriptEngine V) (s : Session V).

(** [e] with these requested artifacts and these objects for [product.artifacts]. *)
Definition with_artifacts e (r : RequestedArtifacts)
    (os : gmap nat (gmap nat (option (list nat)))) : ScriptEngine V :=
  mkScriptEngine (m_propertiesRequestedInScript e) (m_propertiesRequestedFromArtifact e)
    (m_importsRequestedInScript e) (m_productsWithRequestedDependencies e) r
    (m_requestedExports e) (m_filePathsPerImport e) os.

Lemma requestArtifacts_eq (f : Session V → RequestedArtifacts → exn BGError RequestedArtifacts)
    e s r :
  f s (m_requestedArtifacts e) = Ok r →
  requestArtifacts f (e, s) = (Ok tt, (with_artifacts e r (artifactsObjects e), s)).
Proof.
  intros E. unfold requestArtifacts, mbind, st_bind, gets, lift, id. simpl. by rewrite E.
Qed.

(** The tags with a relevant artifact. *)
Definition relevantTags (h : Heap) (b : ProductBuildData) : gset nat :=
  dom (filter (λ kv : nat * list nat, existsb (isRelevantArtifact h) kv.2 = true)
         (m_artifactsByFileTag b)).

(** The objects of the maps that are marked as up to date are. *)
Definition objects_ok (os : gmap nat (gmap nat (option (list nat)))) s : Prop :=
  ∀ p b o, buildDataOf (heap s) p = Some b → os !! p = Some o →
    m_jsArtifactsMapUpToDate b = true → dom o = relevantTags (heap s) b.

Lemma same_relevantTags s b b0 :
  same_project s0 s → m_artifactsByFileTag b = m_artifactsByFileTag b0 →
  relevantTags (heap s) b = relevantTags (heap s0) b0.
Proof.
  intros Hs E. unfold relevantTags. rewrite E. f_equal. apply map_filter_ext. intros tag l _.
  simpl. enough (existsb (isRelevantArtifact (heap s)) l = existsb (isRelevantArtifact (heap s0)) l)
    as -> by done.
  induction l as [|a l IH]; simpl; [done|]. by rewrite IH, (same_relevant _ _ Hs).
Qed.

Context (p : nat) (b0 : ProductBuildData).
Hypothesis Hb0 : buildDataOf (heap s0) p = Some b0.

(** The request of all tags leaves the rest of what is recorded of the product. *)
Definition allTagsNoted (ra : RequestedArtifactsPerProduct) : RequestedArtifactsPerProduct :=
  mkRequestedArtifactsPerProduct (dom (m_artifactsByFileTag b0)) (requestedTags ra)
    (artifactsEnumerated ra).

Lemma setAllArtifactTags_ok s force r :
  same_project s0 s →
  allTags (requestedOf s0 p r) = ∅ ∨ allTags (requestedOf s0 p r) = dom (m_artifactsByFileTag b0) →
  setAllArtifactTags s p force r = Ok (<[uniqueNameOf s0 p := allTagsNoted (requestedOf s0 p r)]> r).
Proof.
  intros Hs Ha. destruct (same_build _ _ Hs _ _ Hb0) as (b & Hb & Eb).
  assert (requestedOf s p r = requestedOf s0 p r) as Er
    by by unfold requestedOf; rewrite (same_uniqueNameOf _ _ Hs).
  unfold setAllArtifactTags. rewrite Er, Hb, (same_uniqueNameOf _ _ Hs), Eb.
  set (ra := requestedOf s0 p r) in *. case_bool_decide as E; simpl; [done|].
  destruct force; simpl; [done|]. unfold allTagsNoted. destruct Ha as [Ha|<-]; [done|].
  by destruct ra.
Qed.

Lemma createArtifactsObject_ok e s :
  same_project s0 s → objects_ok (delete p (artifactsObjects e)) s →
  let ra := requestedOf s0 p (m_requestedArtifacts e) in
  allTags ra = ∅ ∨ allTags ra = dom (m_artifactsByFileTag b0) →
  ∃ o os, createArtifactsObject p (e, s) =
      (Ok o, (with_artifacts e (<[uniqueNameOf s0 p := allTagsNoted ra]> (m_requestedArtifacts e)) os,
              s)) ∧
    objects_ok os s ∧ dom o = relevantTags (heap s0) b0.
Proof.
  intros Hs Ho ra Ha. destruct (same_build _ _ Hs _ _ Hb0) as (b & Hb & Eb).
  unfold createArtifactsObject, mbind, st_bind.
  rewrite (requestArtifacts_eq _ _ _ _ (setAllArtifactTags_ok s true _ Hs Ha)).
  unfold artifactsByFileTag, mbind, st_bind, gets, id. simpl. rewrite Hb. simpl.
  eexists _, _. split; [reflexivity|].
  assert (dom ((λ _ : list nat, @None (list nat)) <$>
            filter (λ kv, existsb (isRelevantArtifact (heap s)) kv.2 = true)
              (m_artifactsByFileTag b)) = relevantTags (heap s) b) as Ed by apply dom_fmap_L.
  split; [|by rewrite Ed; apply same_relevantTags].
  intros q b1 o1 Hq Ho1 Hf. destruct (decide (p = q)) as [<-|Hne].
  - rewrite lookup_insert_eq in Ho1. injection Ho1 as <-. rewrite Hb in Hq. by injection Hq as <-.
  - rewrite lookup_insert_ne in Ho1 by done. eapply Ho; try done. by rewrite lookup_delete_ne.
Qed.

Lemma js_artifacts_ok e s :
  same_project s0 s → objects_ok (artifactsObjects e) s →
  let ra := requestedOf s0 p (m_requestedArtifacts e) in
  allTags ra = ∅ ∨ allTags ra = dom (m_artifactsByFileTag b0) →
  ∃ o os s', js_artifacts p (e, s) =
      (Ok o, (with_artifacts e (<[uniqueNameOf s0 p := allTagsNoted ra]> (m_requestedArtifacts e)) os,
              s')) ∧
    same_project s0 s' ∧ objects_ok os s' ∧ dom o = relevantTags (heap s0) b0.
Proof.
  intros Hs Ho ra Ha. destruct (same_build _ _ Hs _ _ Hb0) as (b & Hb & Eb).
  unfold js_artifacts, mbind, st_bind, gets, id. simpl.
  destruct (artifactsObjects e !! p) as [o|] eqn:Eo.
  2:{ destruct (createArtifactsObject_ok e s Hs) with (2 := Ha) as (o & os & -> & ? & ?).
      - by rewrite delete_id.
      - by exists o, os, s. }
  unfold checkAndSetArtifactsMapUpToDateFlag, mbind, st_bind, gets, id. simpl. rewrite Hb.
  unfold checkAndSetJsArtifactsMapUpToDateFlag.
  destruct (m_jsArtifactsMapUpToDate b) eqn:Ef; simpl.
  - set (s' := set_heap _ s).
    assert (same_project s0 s') as Hs' by by eapply same_project_flag.
    rewrite (requestArtifacts_eq _ _ _ _ (setAllArtifactTags_ok s' false _ Hs' Ha)). simpl.
    exists o, (artifactsObjects e), s'. split; [done|]. split; [done|]. split.
    + intros q b1 o1 Hq Ho1 Hf. unfold s' in Hq. simpl in Hq. rewrite buildDataOf_upd_buildData in Hq.
      case_decide as Hd; [|by eapply Ho]. subst q. rewrite Hb in Hq. injection Hq as <-.
      by eapply Ho.
    + rewrite (Ho p b o) by done. by apply same_relevantTags.
  - set (b1 := mkProductBuildData _ _ _ true). set (s' := set_heap _ s).
    assert (same_project s0 s') as Hs' by by eapply same_project_flag.
    destruct (createArtifactsObject_ok e s' Hs') with (2 := Ha) as (o' & os & -> & ? & ?).
    { intros q b2 o2 Hq Ho2 Hf. apply lookup_delete_Some in Ho2 as [Hne Ho2].
      unfold s' in *. simpl in *. rewrite buildDataOf_upd_buildData, decide_False in Hq by done.
      by eapply Ho. }
    by exists o', os, s'.
Qed.

(** What is recorded of the product after the files of a tag were asked for, and
    after the tags were enumerated. *)
Definition tagNoted (tag : nat) (ra : RequestedArtifactsPerProduct) :
    RequestedArtifactsPerProduct :=
  mkRequestedArtifactsPerProduct (dom (m_artifactsByFileTag b0))
    (<[tag := filePathsForTag (heap s0) b0 tag]> (requestedTags ra)) (artifactsEnumerated ra).
Definition tagsNoted (ra : RequestedArtifactsPerProduct) : RequestedArtifactsPerProduct :=
  mkRequestedArtifactsPerProduct (dom (m_artifactsByFileTag b0)) (requestedTags ra) true.

Lemma requestedOf_insert s r ra :
  same_project s0 s → requestedOf s p (<[uniqueNameOf s0 p := ra]> r) = ra.
Proof. intros Hs. unfold requestedOf. by rewrite (same_uniqueNameOf _ _ Hs), lookup_insert_eq. Qed.

Lemma enumerateArtifacts_ok e s :
  same_project s0 s → objects_ok (artifactsObjects e) s →
  let ra := requestedOf s0 p (m_requestedArtifacts e) in
  allTags ra = ∅ ∨ allTags ra = dom (m_artifactsByFileTag b0) →
  ∃ x os s', enumerateArtifacts p (e, s) =
      (Ok x, (with_artifacts e (<[uniqueNameOf s0 p := tagsNoted ra]> (m_requestedArtifacts e)) os,
              s')) ∧
    same_project s0 s' ∧ objects_ok os s'.
Proof.
  intros Hs Ho ra Ha. destruct (js_artifacts_ok e s Hs Ho Ha) as (o & os & s' & E & Hs' & Ho' & _).
  unfold enumerateArtifacts, mbind, st_bind. rewrite E.
  erewrite requestArtifacts_eq by reflexivity. simpl.
  eexists _, _, _. split; [|by split]. unfold setArtifactsEnumerated.
  rewrite requestedOf_insert by done. rewrite (same_uniqueNameOf _ _ Hs'), insert_insert_eq.
  reflexivity.
Qed.

Lemma setArtifactsForTag_ok s r ra tag :
  same_project s0 s →
  default ∅ (requestedTags ra !! tag) ⊆ filePathsForTag (heap s0) b0 tag →
  setArtifactsForTag s p tag (<[uniqueNameOf s0 p := allTagsNoted ra]> r) =
    Ok (<[uniqueNameOf s0 p := tagNoted tag ra]> r).
Proof.
  intros Hs Hd. destruct (same_build _ _ Hs _ _ Hb0) as (b & Hb & Eb).
  unfold setArtifactsForTag. rewrite Hb, requestedOf_insert by done.
  rewrite (same_uniqueNameOf _ _ Hs), insert_insert_eq, (same_filePathsForTag _ _ Hs _ _ _ Eb).
  simpl. by rewrite subseteq_union_1_L.
Qed.

Lemma setNonExistingTagRequested_ok s r ra tag :
  same_project s0 s → m_artifactsByFileTag b0 !! tag = None →
  default ∅ (requestedTags ra !! tag) ⊆ filePathsForTag (heap s0) b0 tag →
  setNonExistingTagRequested s p tag (<[uniqueNameOf s0 p := allTagsNoted ra]> r) =
    Ok (<[uniqueNameOf s0 p := tagNoted tag ra]> r).
Proof.
  intros Hs Hn Hd.
  assert (filePathsForTag (heap s0) b0 tag = ∅) as E0 by by unfold filePathsForTag; rewrite Hn.
  rewrite E0 in Hd. apply equiv_empty_L in Hd. unfold setNonExistingTagRequested, QBS_CHECK.
  rewrite requestedOf_insert by done. simpl. rewrite Hd. simpl.
  rewrite (same_uniqueNameOf _ _ Hs), insert_insert_eq. unfold tagNoted. by rewrite E0.
Qed.

Lemma readArtifactsForTag_ok e s tag :
  same_project s0 s → objects_ok (artifactsObjects e) s →
  let ra := requestedOf s0 p (m_requestedArtifacts e) in
  allTags ra = ∅ ∨ allTags ra = dom (m_artifactsByFileTag b0) →
  tag ∈ relevantTags (heap s0) b0 ∨ m_artifactsByFileTag b0 !! tag = None →
  default ∅ (requestedTags ra !! tag) ⊆ filePathsForTag (heap s0) b0 tag →
  ∃ x os s', readArtifactsForTag p tag (e, s) =
      (Ok x, (with_artifacts e (<[uniqueNameOf s0 p := tagNoted tag ra]> (m_requestedArtifacts e)) os,
              s')) ∧
    same_project s0 s' ∧ objects_ok os s'.
Proof.
  intros Hs Ho ra Ha Ht Hd.
  destruct (js_artifacts_ok e s Hs Ho Ha) as (o & os & s' & E & Hs' & Ho' & Hdom).
  unfold readArtifactsForTag, mbind, st_bind. rewrite E.
  destruct (o !! tag) as [cached|] eqn:Eo.
  - unfold js_artifactsForFileTag, mbind, st_bind.
    erewrite requestArtifacts_eq by (by apply setArtifactsForTag_ok). rewrite Eo. simpl.
    destruct cached as [result|]; [by eexists _, _, _|].
    destruct (same_build _ _ Hs' _ _ Hb0) as (b & Hb & Eb).
    unfold artifactsByFileTag, mbind, st_bind, gets, id. simpl. rewrite Hb. simpl.
    eexists _, _, _. split; [reflexivity|]. split; [done|].
    intros q b1 o1 Hq Ho1 Hf. destruct (decide (p = q)) as [<-|Hne].
    + rewrite lookup_insert_eq in Ho1. injection Ho1 as <-. rewrite Hb in Hq. injection Hq as <-.
      rewrite dom_insert_lookup_L by by eexists.
      by rewrite Hdom, (same_relevantTags _ _ _ Hs' Eb).
    + rewrite lookup_insert_ne in Ho1 by done. by eapply Ho'.
  - assert (m_artifactsByFileTag b0 !! tag = None) as Hn.
    { destruct Ht as [Ht|]; [|done]. rewrite <-Hdom, elem_of_dom, Eo in Ht. by destruct Ht. }
    erewrite requestArtifacts_eq by (by apply setNonExistingTagRequested_ok). simpl.
    by eexists _, _, _.
Qed.
End Maps.

(** ** The record of a script *)

Section Recording.
Context {V : Type} {Q : QtVariant V} (s0 : Session V).
Implicit Types (e : ScriptEngine V) (s : Session V) (L : list Read).

(** The property that a read records, and that of an artifact with its path. *)
Definition propertyRead (r : Read) : option (Property V) :=
  match r with
  | ReadModuleProperty p m n =>
      Some (mkProperty (uniqueNameOf s0 p) m n
              (moduleProperty (moduleProperties (dataOf s0 p)) m n) PropertyInModule)
  | ReadProductProperty p n =>
      (λ v, mkProperty (uniqueNameOf s0 p) [] n v PropertyInProduct) <$>
        productProperties (dataOf s0 p) !! n
  | ReadProjectProperty q n =>
      (λ v, mkProperty (projectName (projectOf s0 q)) [] n (throughScript v) PropertyInProject) <$>
        projectProperties (projectOf s0 q) !! n
  | ReadParameter p dep path n =>
      let '(depName, params) := parametersOf s0 p dep in
      m ← walk params path;
      v ← m !! n;
      if isMap v then None
      else Some (mkProperty (uniqueNameOf s0 p) (depName ++ ":"%char :: QualifiedId_toString path) n
                   (throughScript v) PropertyInParameters)
  | _ => None
  end.

Definition artifactPropertyRead (r : Read) : option (str * Property V) :=
  match r with
  | ReadArtifactModuleProperty a m n =>
      p ← productOf (heap s0) a;
      Some (filePath (artifactOf (heap s0) a),
            mkProperty (uniqueNameOf s0 p) m n (moduleProperty (valueOfMap s0 a) m n)
              PropertyInModule)
  | ReadFileTags a =>
      p ← productOf (heap s0) a;
      Some (filePath (artifactOf (heap s0) a),
            mkProperty (uniqueNameOf s0 p) [] "fileTags"
              (throughScript (ofStringList (sortedFileTags s0 a))) PropertyInArtifact)
  | _ => None
  end.

Definition readsArtifacts (r : Read) (p : nat) : Prop :=
  (∃ tag, r = ReadArtifactsForTag p tag) ∨ r = EnumerateArtifacts p.

(** What [product.artifacts] is recorded as, after the reads [L]. *)
Record noted L (p : nat) (b : ProductBuildData) (ra : RequestedArtifactsPerProduct) : Prop := {
  no_allTags : allTags ra = dom (m_artifactsByFileTag b);
  no_enumerated : artifactsEnumerated ra = true ↔ EnumerateArtifacts p ∈ L;
  no_tags tag paths : requestedTags ra !! tag = Some paths ↔
    ReadArtifactsForTag p tag ∈ L ∧ paths = filePathsForTag (heap s0) b tag
}.

Record artifacts_recorded L (r : RequestedArtifacts) : Prop := {
  ar_some n ra : r !! n = Some ra →
    ∃ p b x, uniqueNameOf s0 p = n ∧ x ∈ L ∧ readsArtifacts x p ∧
      buildDataOf (heap s0) p = Some b ∧ noted L p b ra;
  ar_none x p : x ∈ L → readsArtifacts x p → is_Some (r !! uniqueNameOf s0 p)
}.

(** [X] holds of what one of the reads [L] gives by [P]. *)
Definition tracks {A} L (X : A → Prop) (P : Read → A → Prop) : Prop :=
  ∀ x, X x ↔ ∃ r, r ∈ L ∧ P r x.

Lemma tracks_step {A} L r (X X' : A → Prop) P :
  tracks L X P → (∀ x, X' x ↔ X x ∨ P r x) → tracks (L ++ [r]) X' P.
Proof.
  intros H H' x. rewrite H', (H x). setoid_rewrite elem_of_app.
  setoid_rewrite list_elem_of_singleton. naive_solver.
Qed.

Lemma tracks_nil {A} (X : A → Prop) P : (∀ x, ¬ X x) → tracks [] X P.
Proof. intros H x. split; [intros Hx; by destruct (H x)|]. by intros (? & ?%elem_of_nil & _). Qed.

Lemma tracks_same {A} L r (X : A → Prop) P :
  tracks L X P → (∀ x, ¬ P r x) → tracks (L ++ [r]) X P.
Proof. intros H Hr. apply (tracks_step _ _ X); [done|]. intros x. specialize (Hr x). tauto. Qed.

Record recorded (imports : gmap nat (list str)) L e : Prop := {
  rc_properties : tracks L (λ q, q ∈ m_propertiesRequestedInScript e)
    (λ r q, propertyRead r = Some q);
  rc_fromArtifact : tracks L
    (λ x, x.2 ∈ default [] (m_propertiesRequestedFromArtifact e !! x.1))
    (λ r x, artifactPropertyRead r = Some x);
  rc_imports : tracks L (λ i, i ∈ m_importsRequestedInScript e) (λ r i, r = UseImport i);
  rc_deps : tracks L (λ p, p ∈ m_productsWithRequestedDependencies e)
    (λ r p, r = ReadDependencies p);
  rc_exports : tracks L (λ p, p ∈ m_requestedExports e) (λ r p, r = ReadExports p);
  rc_sets : wf_set (m_productsWithRequestedDependencies e) ∧ wf_set (m_requestedExports e);
  rc_artifacts : artifacts_recorded L (m_requestedArtifacts e);
  rc_files : m_filePathsPerImport e = imports
}.

(** The reads that can be followed: artifacts have products, maps are read of
    products with build data, and a tag that has artifacts has one that is not the
    target of a module. *)
Definition trackable (imports : gmap nat (list str)) (r : Read) : Prop :=
  match r with
  | ReadArtifactModuleProperty a _ _ | ReadFileTags a => is_Some (productOf (heap s0) a)
  | ReadArtifactsForTag p tag =>
      ∃ b, buildDataOf (heap s0) p = Some b ∧
        (tag ∈ relevantTags (heap s0) b ∨ m_artifactsByFileTag b !! tag = None)
  | EnumerateArtifacts p => is_Some (buildDataOf (heap s0) p)
  | UseImport i => is_Some (imports !! i)
  | _ => True
  end.

Definition readProduct (r : Read) (p : nat) : Prop :=
  readsArtifacts r p ∨ r = ReadDependencies p ∨ r = ReadExports p.

(** The names by which requests are kept tell them apart. *)
Record readable (imports : gmap nat (list str)) L : Prop := {
  rd_trackable r : r ∈ L → trackable imports r;
  rd_properties r1 r2 p1 p2 : r1 ∈ L → r2 ∈ L →
    propertyRead r1 = Some p1 → propertyRead r2 = Some p2 →
    property_key p1 = property_key p2 → p1 = p2;
  rd_fromArtifact r1 r2 path p1 p2 : r1 ∈ L → r2 ∈ L →
    artifactPropertyRead r1 = Some (path, p1) → artifactPropertyRead r2 = Some (path, p2) →
    property_key p1 = property_key p2 → p1 = p2;
  rd_products r1 r2 p1 p2 : r1 ∈ L → r2 ∈ L → readProduct r1 p1 → readProduct r2 p2 →
    uniqueNameOf s0 p1 = uniqueNameOf s0 p2 → p1 = p2
}.

Lemma readsArtifacts_fun r p q : readsArtifacts r p → readsArtifacts r q → p = q.
Proof. intros [[? ->]| ->] [[? E]|E]; by inversion E. Qed.

Lemma noted_other L r p b ra : noted L p b ra → ¬ readsArtifacts r p → noted (L ++ [r]) p b ra.
Proof.
  intros [N1 N2 N3] Hr.
  assert (∀ z, readsArtifacts z p → z ∈ L ++ [r] ↔ z ∈ L) as Hz.
  { intros z Hz. rewrite elem_of_app, list_elem_of_singleton. split; [|by left].
    by intros [?| ->]. }
  split; [done| |].
  - rewrite N2, Hz; [done|by right].
  - intros tag paths. rewrite N3, Hz; [done|]. left. by eexists.
Qed.

Lemma artifacts_recorded_other L r ra :
  artifacts_recorded L ra → (∀ p, ¬ readsArtifacts r p) → artifacts_recorded (L ++ [r]) ra.
Proof.
  intros [H1 H2] Hr. split.
  - intros n x Hn. destruct (H1 n x Hn) as (p & b & y & <- & Hy & Hyp & Hb & Hno).
    exists p, b, y. split_and!; try done; [by apply elem_of_app; left|]. by apply noted_other.
  - intros y p [Hy| ->%list_elem_of_singleton]%elem_of_app Hyp; [by eapply H2|].
    by destruct (Hr p).
Qed.

(** A read of the artifacts of [p], which changes what is recorded of [p]. *)
Section Artifacts.
Context (L : list Read) (r : Read) (ra : RequestedArtifacts) (p : nat) (b : ProductBuildData).
Hypotheses (HL : artifacts_recorded L ra) (Hr : readsArtifacts r p)
  (Hb : buildDataOf (heap s0) p = Some b)
  (Hn : ∀ r' p', r' ∈ L → readsArtifacts r' p' → uniqueNameOf s0 p' = uniqueNameOf s0 p → p' = p).

Lemma requested_before :
  let old := requestedOf s0 p ra in
  (allTags old = ∅ ∨ allTags old = dom (m_artifactsByFileTag b)) ∧
  (artifactsEnumerated old = true ↔ EnumerateArtifacts p ∈ L) ∧
  ∀ tag paths, requestedTags old !! tag = Some paths ↔
    ReadArtifactsForTag p tag ∈ L ∧ paths = filePathsForTag (heap s0) b tag.
Proof.
  unfold requestedOf. destruct (ra !! uniqueNameOf s0 p) as [x|] eqn:E; simpl.
  - destruct (ar_some _ _ HL _ _ E) as (p' & b' & y & Hp & Hy & Hyp & Hb' & []).
    rewrite (Hn _ _ Hy Hyp Hp), Hb in *. injection Hb' as <-. auto.
  - assert (∀ y, readsArtifacts y p → y ∉ L) as Hno.
    { intros y Hyp Hy. destruct (ar_none _ _ HL y p Hy Hyp) as [? ?]. congruence. }
    split_and!; [by left| |].
    + split; [done|]. intros H. by destruct (Hno _ (or_intror eq_refl)).
    + intros tag paths. split; [by rewrite lookup_empty|]. intros [H _].
      by destruct (Hno (ReadArtifactsForTag p tag)); [left; eexists|].
Qed.

Lemma artifacts_recorded_step x :
  noted (L ++ [r]) p b x → artifacts_recorded (L ++ [r]) (<[uniqueNameOf s0 p := x]> ra).
Proof.
  intros Hx. destruct HL as [H1 H2]. split.
  - intros n y. destruct (decide (uniqueNameOf s0 p = n)) as [<-|Hne].
    + rewrite lookup_insert_eq. intros [= <-]. exists p, b, r. split_and!; try done.
      apply elem_of_app. right. by left.
    + rewrite lookup_insert_ne by done. intros Hy.
      destruct (H1 _ _ Hy) as (p' & b' & z & <- & Hz & Hzp & Hb' & Hno).
      exists p', b', z. split_and!; try done; [by apply elem_of_app; left|].
      apply noted_other; [done|]. intros Hr'. by rewrite (readsArtifacts_fun _ _ _ Hr Hr') in Hne.
  - intros y q Hy Hq. destruct (decide (uniqueNameOf s0 p = uniqueNameOf s0 q)) as [->|Hne].
    + rewrite lookup_insert_eq. by eexists.
    + rewrite lookup_insert_ne by done.
      apply elem_of_app in Hy as [Hy| ->%list_elem_of_singleton]; [by eapply H2|].
      by rewrite (readsArtifacts_fun _ _ _ Hr Hq) in Hne.
Qed.
End Artifacts.

Lemma tagNoted_noted L p b ra tag :
  buildDataOf (heap s0) p = Some b → artifacts_recorded L ra →
  (∀ r' p', r' ∈ L → readsArtifacts r' p' → uniqueNameOf s0 p' = uniqueNameOf s0 p → p' = p) →
  noted (L ++ [ReadArtifactsForTag p tag]) p b (tagNoted s0 b tag (requestedOf s0 p ra)).
Proof.
  intros Hb HL Hn. destruct (requested_before L ra p b HL Hb Hn) as (_ & H2 & H3).
  split; simpl; [done| |].
  - rewrite H2, elem_of_app, list_elem_of_singleton. naive_solver.
  - intros t paths. rewrite elem_of_app, list_elem_of_singleton.
    destruct (decide (tag = t)) as [<-|Hne].
    + rewrite lookup_insert_eq. naive_solver.
    + rewrite lookup_insert_ne by done. rewrite H3. naive_solver.
Qed.

Lemma tagsNoted_noted L p b ra :
  buildDataOf (heap s0) p = Some b → artifacts_recorded L ra →
  (∀ r' p', r' ∈ L → readsArtifacts r' p' → uniqueNameOf s0 p' = uniqueNameOf s0 p → p' = p) →
  noted (L ++ [EnumerateArtifacts p]) p b (tagsNoted b (requestedOf s0 p ra)).
Proof.
  intros Hb HL Hn. destruct (requested_before L ra p b HL Hb Hn) as (_ & H2 & H3).
  split; simpl; [done| |].
  - rewrite elem_of_app, list_elem_of_singleton. naive_solver.
  - intros t paths. rewrite elem_of_app, list_elem_of_singleton, H3. naive_solver.
Qed.

(** *** One read *)

Context (imports : gmap nat (list str)) (reads : list Read).
Hypothesis Hreads : readable imports reads.

(** [m] records the read [r] besides [L]. *)
Definition records L (r : Read) (m : M unit) : Prop :=
  ∀ e s, same_project s0 s → objects_ok (artifactsObjects e) s → recorded imports L e →
    ∃ e' s', m (e, s) = (Ok tt, (e', s')) ∧ same_project s0 s' ∧
      objects_ok (artifactsObjects e') s' ∧ recorded imports (L ++ [r]) e'.

(** The reads that record something other than a property. *)
Definition recordsElse (r : Read) : Prop :=
  (∃ p, r = ReadDependencies p) ∨ (∃ p, r = ReadExports p) ∨ (∃ i, r = UseImport i) ∨
  (∃ p, readsArtifacts r p).

Lemma rest_tracked L r :
  ¬ recordsElse r → ∀ e e', recorded imports L e →
  m_importsRequestedInScript e' = m_importsRequestedInScript e →
  m_productsWithRequestedDependencies e' = m_productsWithRequestedDependencies e →
  m_requestedExports e' = m_requestedExports e →
  m_requestedArtifacts e' = m_requestedArtifacts e →
  m_filePathsPerImport e' = m_filePathsPerImport e →
  tracks (L ++ [r]) (λ q, q ∈ m_propertiesRequestedInScript e') (λ r q, propertyRead r = Some q) →
  tracks (L ++ [r]) (λ x, x.2 ∈ default [] (m_propertiesRequestedFromArtifact e' !! x.1))
    (λ r x, artifactPropertyRead r = Some x) →
  recorded imports (L ++ [r]) e'.
Proof.
  intros Hr e e' [] E1 E2 E3 E4 E5 T1 T2. unfold recordsElse in Hr.
  split; rewrite ?E1, ?E2, ?E3, ?E4, ?E5; try done.
  - apply tracks_same; [done|]. naive_solver.
  - apply tracks_same; [done|]. naive_solver.
  - apply tracks_same; [done|]. naive_solver.
  - apply artifacts_recorded_other; [done|]. naive_solver.
Qed.

Lemma records_nothing L r :
  propertyRead r = None → artifactPropertyRead r = None → ¬ recordsElse r →
  records L r (mret tt).
Proof.
  intros Hp Ha Hr e s Hs Ho Hrec. exists e, s. split_and!; try done.
  eapply rest_tracked; try done; apply tracks_same; try apply Hrec; intros x; congruence.
Qed.

Lemma records_property L r q :
  r ∈ reads → (∀ x, x ∈ L → x ∈ reads) →
  propertyRead r = Some q → artifactPropertyRead r = None → ¬ recordsElse r →
  records L r (addPropertyRequestedInScript q).
Proof.
  intros Hr HL Hq Ha Hn e s Hs Ho Hrec.
  eexists _, _. split; [reflexivity|]. split; [done|]. split; [done|].
  eapply rest_tracked; try done; simpl.
  - eapply tracks_step; [apply Hrec|]. intros x. simpl.
    rewrite Hq, elem_of_addProperty; [naive_solver|].
    intros y Hy Hk. apply (rc_properties _ _ _ Hrec) in Hy as (r' & Hr' & Hy).
    eapply (rd_properties _ _ Hreads r' r); eauto.
  - apply tracks_same; [apply Hrec|]. intros x. by rewrite Ha.
Qed.

Lemma records_artifactProperty L r a q :
  r ∈ reads → (∀ x, x ∈ L → x ∈ reads) →
  propertyRead r = None → artifactPropertyRead r = Some (filePath (artifactOf (heap s0) a), q) →
  ¬ recordsElse r → records L r (addPropertyRequestedFromArtifact a q).
Proof.
  intros Hr HL Hq Ha Hn e s Hs Ho Hrec.
  eexists _, _. split; [reflexivity|]. split; [done|]. split; [done|].
  eapply rest_tracked; try done; simpl.
  - apply tracks_same; [apply Hrec|]. intros x. by rewrite Hq.
  - eapply tracks_step; [apply Hrec|]. intros [path x]. simpl. rewrite Ha.
    rewrite (same_artifactOf _ _ Hs). set (path0 := filePath _).
    destruct (decide (path0 = path)) as [<-|Hne].
    + rewrite lookup_partial_alter_eq. simpl. rewrite elem_of_addProperty; [naive_solver|].
      intros y Hy Hk.
      apply (rc_fromArtifact _ _ _ Hrec (path0, y)) in Hy as (r' & Hr' & Hy).
      eapply (rd_fromArtifact _ _ Hreads r' r); eauto.
    + rewrite lookup_partial_alter_ne by done. naive_solver.
Qed.

Lemma records_dependencies L p :
  records L (ReadDependencies p) (addDependenciesArrayRequested p).
Proof.
  intros e s Hs Ho [? ? ? ? ? [W1 W2] ? ?].
  eexists _, _. split; [reflexivity|]. split; [done|]. split; [done|]. split; simpl; try done.
  1-3,5: by apply tracks_same.
  - eapply tracks_step; [done|]. intros x. simpl. unfold ins. rewrite elem_of_set_insert by done.
    naive_solver.
  - split; [by apply set_insert_sorted|done].
  - apply artifacts_recorded_other; [done|]. by intros ? [[? ?]|?].
Qed.

Lemma records_exports L p : records L (ReadExports p) (addRequestedExport p).
Proof.
  intros e s Hs Ho [? ? ? ? ? [W1 W2] ? ?].
  eexists _, _. split; [reflexivity|]. split; [done|]. split; [done|]. split; simpl; try done.
  1-4: by apply tracks_same.
  - eapply tracks_step; [done|]. intros x. simpl. unfold ins. rewrite elem_of_set_insert by done.
    naive_solver.
  - split; [done|by apply set_insert_sorted].
  - apply artifacts_recorded_other; [done|]. by intros ? [[? ?]|?].
Qed.

Lemma records_import L i : records L (UseImport i) (addImportRequestedInScript i).
Proof.
  intros e s Hs Ho [].
  eexists _, _. split; [reflexivity|]. split; [done|]. split; [done|]. split; simpl; try done.
  1,2,4,5: by apply tracks_same.
  - eapply tracks_step; [done|]. intros x. simpl. case_bool_decide; [naive_solver|].
    rewrite elem_of_app, list_elem_of_singleton. naive_solver.
  - apply artifacts_recorded_other; [done|]. by intros ? [[? ?]|?].
Qed.

(** A read of an artifacts map, after which [x] is recorded of the product [p]. *)
Lemma records_artifacts L r p b (x : RequestedArtifactsPerProduct) e os :
  readsArtifacts r p → buildDataOf (heap s0) p = Some b → recorded imports L e →
  noted (L ++ [r]) p b x →
  recorded imports (L ++ [r])
    (with_artifacts e (<[uniqueNameOf s0 p := x]> (m_requestedArtifacts e)) os).
Proof.
  intros Hr Hb [] Hx.
  assert (∀ A (X : A → Prop) P, tracks L X P → (∀ x, ¬ P r x) → tracks (L ++ [r]) X P) as T
    by (intros; by apply tracks_same).
  split; simpl; try done.
  1-5: apply T; [done|]; intros ?; destruct Hr as [[? ->]| ->]; done.
  by apply (artifacts_recorded_step _ _ _ _ b).
Qed.

Lemma names_before L r p :
  r ∈ reads → (∀ x, x ∈ L → x ∈ reads) → readsArtifacts r p →
  ∀ r' p', r' ∈ L → readsArtifacts r' p' → uniqueNameOf s0 p' = uniqueNameOf s0 p → p' = p.
Proof.
  intros Hr HL Hp r' p' Hr' Hp'. eapply (rd_products _ _ Hreads r' r); eauto; by left.
Qed.

Lemma records_tag L p tag :
  ReadArtifactsForTag p tag ∈ reads → (∀ x, x ∈ L → x ∈ reads) →
  records L (ReadArtifactsForTag p tag) (_ ← readArtifactsForTag p tag; mret tt).
Proof.
  intros Hr HL e s Hs Ho Hrec.
  destruct (rd_trackable _ _ Hreads _ Hr) as (b & Hb & Ht).
  assert (readsArtifacts (ReadArtifactsForTag p tag) p) as Hp by by left; eexists.
  pose proof (names_before _ _ _ Hr HL Hp) as Hn.
  destruct (requested_before _ _ _ _ (rc_artifacts _ _ _ Hrec) Hb Hn) as (H1 & _ & H3).
  destruct (readArtifactsForTag_ok s0 p b Hb e s tag Hs Ho H1 Ht) as (x & os & s' & E & Hs' & Ho').
  { destruct (requestedTags _ !! tag) as [paths|] eqn:E; simpl; [|set_solver].
    apply H3 in E as [_ ->]. done. }
  unfold mbind, st_bind. rewrite E. eexists _, _. split; [reflexivity|]. split_and!; try done.
  eapply records_artifacts; try done. by apply tagNoted_noted; [|apply Hrec|].
Qed.

Lemma records_enumerate L p :
  EnumerateArtifacts p ∈ reads → (∀ x, x ∈ L → x ∈ reads) →
  records L (EnumerateArtifacts p) (_ ← enumerateArtifacts p; mret tt).
Proof.
  intros Hr HL e s Hs Ho Hrec.
  destruct (rd_trackable _ _ Hreads _ Hr) as (b & Hb).
  assert (readsArtifacts (EnumerateArtifacts p) p) as Hp by by right.
  pose proof (names_before _ _ _ Hr HL Hp) as Hn.
  destruct (requested_before _ _ _ _ (rc_artifacts _ _ _ Hrec) Hb Hn) as (H1 & _ & _).
  destruct (enumerateArtifacts_ok s0 p b Hb e s Hs Ho H1) as (x & os & s' & E & Hs' & Ho').
  unfold mbind, st_bind. rewrite E. eexists _, _. split; [reflexivity|]. split_and!; try done.
  eapply records_artifacts; try done. by apply tagsNoted_noted; [|apply Hrec|].
Qed.

Lemma records_ext L r (m m' : M unit) :
  (∀ e s, same_project s0 s → m (e, s) = m' (e, s)) → records L r m' → records L r m.
Proof. intros Hm Hr e s Hs. rewrite Hm by done. by apply Hr. Qed.

Lemma not_recordsElse r :
  match r with
  | ReadDependencies _ | ReadExports _ | UseImport _ | ReadArtifactsForTag _ _
  | EnumerateArtifacts _ => True
  | _ => ¬ recordsElse r
  end.
Proof.
  destruct r; try done.
  all: intros [[? ?]|[[? ?]|[[? ?]|(? & [[? ?]|?])]]]; done.
Qed.

Lemma runRead_records L r :
  r ∈ reads → (∀ x, x ∈ L → x ∈ reads) → records L r (runRead r).
Proof.
  intros Hr HL. pose proof (not_recordsElse r) as Hn.
  destruct r as [p m n|p n|q n|p dep path n|a m n|a|p|p|p tag|p|i].
  - eapply records_ext; [|by eapply records_property]. intros e s Hs.
    unfold runRead, readModuleProperty, mbind, st_bind, gets, id. cbn beta iota zeta.
    cbn [fst snd]. by rewrite (same_dataOf _ _ Hs), (same_uniqueNameOf _ _ Hs).
  - destruct (productProperties (dataOf s0 p) !! n) as [v|] eqn:Ev.
    + eapply records_ext; [|eapply records_property; try done; simpl; by rewrite Ev].
      intros e s Hs. unfold runRead, readProductProperty, mbind, st_bind, gets, id. cbn [fst snd].
      by rewrite (same_dataOf _ _ Hs), (same_uniqueNameOf _ _ Hs), Ev.
    + eapply records_ext; [|eapply records_nothing; try done; simpl; by rewrite Ev].
      intros e s Hs. unfold runRead, readProductProperty, mbind, st_bind, gets, id. cbn [fst snd].
      by rewrite (same_dataOf _ _ Hs), Ev.
  - destruct (projectProperties (projectOf s0 q) !! n) as [v|] eqn:Ev.
    + eapply records_ext; [|eapply records_property; try done; simpl; by rewrite Ev].
      intros e s Hs. unfold runRead, readProjectProperty, mbind, st_bind, gets, id. cbn [fst snd].
      by rewrite (same_projectOf _ _ Hs), Ev.
    + eapply records_ext; [|eapply records_nothing; try done; simpl; by rewrite Ev].
      intros e s Hs. unfold runRead, readProjectProperty, mbind, st_bind, gets, id. cbn [fst snd].
      by rewrite (same_projectOf _ _ Hs), Ev.
  - assert (∀ e s, same_project s0 s → runRead (ReadParameter p dep path n) (e, s) =
              match propertyRead (ReadParameter p dep path n) with
              | Some q => addPropertyRequestedInScript q (e, s)
              | None => (Ok tt, (e, s))
              end) as E.
    { intros e s Hs. unfold runRead, readParameter, mbind, st_bind, gets, id. cbn [fst snd].
      rewrite (same_parametersOf _ _ Hs), (same_uniqueNameOf _ _ Hs). simpl.
      destruct (parametersOf s0 p dep) as [depName params].
      destruct (walk params path) as [mp|]; simpl; [|done].
      destruct (mp !! n) as [v|]; simpl; [|done]. by destruct (isMap v). }
    destruct (propertyRead (ReadParameter p dep path n)) as [q|] eqn:Eq.
    + eapply records_ext; [exact E|]. by apply records_property.
    + eapply records_ext; [exact E|]. by apply records_nothing.
  - destruct (rd_trackable _ _ Hreads _ Hr) as (p & Hp).
    eapply records_ext; [|eapply records_artifactProperty; try done; simpl; by rewrite Hp].
    intros e s Hs. unfold runRead, readArtifactModuleProperty, mbind, st_bind, gets, id.
    cbn [fst snd]. rewrite (same_productOf _ _ Hs), Hp.
    by rewrite (same_valueOfMap _ _ Hs), (same_uniqueNameOf _ _ Hs).
  - destruct (rd_trackable _ _ Hreads _ Hr) as (p & Hp).
    eapply records_ext; [|eapply records_artifactProperty; try done; simpl; by rewrite Hp].
    intros e s Hs. unfold runRead, readFileTags, mbind, st_bind, gets, id.
    cbn [fst snd]. rewrite (same_productOf _ _ Hs), Hp.
    by rewrite (same_sortedFileTags _ _ Hs), (same_uniqueNameOf _ _ Hs).
  - apply records_dependencies.
  - apply records_exports.
  - by apply records_tag.
  - by apply records_enumerate.
  - apply records_import.
Qed.

Lemma runScript_records l L e s :
  (∀ x, x ∈ L ++ l → x ∈ reads) →
  same_project s0 s → objects_ok (artifactsObjects e) s → recorded imports L e →
  ∃ e' s', runScript l (e, s) = (Ok tt, (e', s')) ∧ same_project s0 s' ∧
    objects_ok (artifactsObjects e') s' ∧ recorded imports (L ++ l) e'.
Proof.
  revert L e s. unfold runScript, forM.
  induction l as [|r l IH]; intros L e s HL Hs Ho Hr; simpl.
  - exists e, s. by rewrite app_nil_r.
  - assert (r ∈ reads ∧ ∀ x, x ∈ L → x ∈ reads) as [H1 H2].
    { split; [|intros x Hx]; apply HL, elem_of_app; [right; left|by left]. }
    destruct (runRead_records L r H1 H2 e s Hs Ho Hr) as (e1 & s1 & E & Hs1 & Ho1 & Hr1).
    unfold mbind, st_bind. rewrite E.
    destruct (IH (L ++ [r]) e1 s1) as (e2 & s2 & E2 & H); try done.
    { intros x. rewrite <-app_assoc. apply HL. }
    exists e2, s2. by rewrite <-app_assoc in H.
Qed.

(** An engine whose requests were cleared has recorded nothing. *)
Lemma recorded_nil e :
  m_filePathsPerImport e = imports → recorded imports [] (clearRequestedProperties e).
Proof.
  intros E. split; simpl; try done.
  1,3-5: apply tracks_nil; intros x; apply not_elem_of_nil.
  - apply tracks_nil. intros x. rewrite lookup_empty. apply not_elem_of_nil.
  - split; apply ssorted_nil.
  - split; [|by intros ? ? ?%elem_of_nil].
    intros n ra Hn. by rewrite lookup_empty in Hn.
Qed.
End Recording.
