(* ===== verification/ChangeTrackingExact.v ===== *)
(** * The change tracking is exact

    A prepare script is run, its reads are recorded, and in a later session the
    tracker is asked whether the script has to run again: it has to exactly when
    one of the reads would give something else. *)

From S2P Require Import Prelude FlatSet BuildGraph StateMonad ChangeTracking ChangeTrackingCorrect ChangeRecording.

(** ** Names of parameters *)

Lemma indexOf_app c (s1 s2 : str) : c ∉ s1 → indexOf c (s1 ++ c :: s2) = Some (length s1).
Proof.
  induction s1 as [|x s1 IH]; intros Hc; simpl.
  - by rewrite Ascii.eqb_refl.
  - destruct (Ascii.eqb_spec x c) as [->|]; [by destruct Hc; left|].
    rewrite IH; [done|]. intros H. apply Hc. by right.
Qed.

Lemma left_app c (s1 s2 : str) : c ∉ s1 → left (s1 ++ c :: s2) (indexOf c (s1 ++ c :: s2)) = s1.
Proof. intros Hc. rewrite indexOf_app by done. apply take_app_length. Qed.

Lemma midAfter_app c (s1 s2 : str) :
  c ∉ s1 → midAfter (s1 ++ c :: s2) (indexOf c (s1 ++ c :: s2)) = s2.
Proof.
  intros Hc. rewrite indexOf_app by done. simpl.
  replace (s1 ++ c :: s2) with ((s1 ++ [c]) ++ s2) by by rewrite <-app_assoc.
  rewrite drop_app_length'; [done|]. rewrite length_app. simpl. lia.
Qed.

Lemma split_clean sep (s : str) : sep ∉ s → split sep s = [s].
Proof.
  induction s as [|c s IH]; intros Hc; simpl; [done|].
  destruct (Ascii.eqb_spec c sep) as [->|]; [by destruct Hc; left|].
  rewrite IH; [done|]. intros H. apply Hc. by right.
Qed.

Lemma split_app sep (s1 s2 : str) : sep ∉ s1 → split sep (s1 ++ sep :: s2) = s1 :: split sep s2.
Proof.
  induction s1 as [|c s IH]; intros Hc; simpl.
  - by rewrite Ascii.eqb_refl.
  - destruct (Ascii.eqb_spec c sep) as [->|]; [by destruct Hc; left|].
    rewrite IH; [done|]. intros H. apply Hc. by right.
Qed.

(** The parts of a qualified name are found again in its string. *)
Lemma split_join sep parts :
  parts ≠ [] → (∀ part, part ∈ parts → sep ∉ part) → split sep (join sep parts) = parts.
Proof.
  intros Hne Hp. induction parts as [|part parts IH]; [done|].
  destruct parts as [|part' parts]; simpl; [by apply split_clean, Hp; left|].
  rewrite split_app by (apply Hp; left). f_equal. apply IH; [done|]. intros x Hx. apply Hp.
  by right.
Qed.

(** ** Tables filled by name *)

Section Tables.
Context {A : Type} (key : nat → str) (val : nat → A).

Lemma lookup_foldl_insert (ps : list nat) (m : gmap str A) (n : str) (x : A) :
  foldl (λ m p, <[key p := val p]> m) m ps !! n = Some x →
  m !! n = Some x ∨ ∃ p, p ∈ ps ∧ key p = n ∧ x = val p.
Proof.
  revert m. induction ps as [|p ps IH]; intros m; simpl; [by left|]. intros H.
  destruct (IH _ H) as [Hm|(q & Hq & Hqn & ->)].
  - apply lookup_insert_Some in Hm as [[<- <-]|[_ Hm]]; [|by left]. right. exists p.
    split; [left|done].
  - right. exists q. split; [by right|done].
Qed.

Lemma foldl_insert_is_Some (ps : list nat) (m : gmap str A) p :
  p ∈ ps ∨ is_Some (m !! key p) →
  is_Some (foldl (λ m p, <[key p := val p]> m) m ps !! key p).
Proof.
  revert m. induction ps as [|q ps IH]; intros m; simpl.
  - by intros [?%elem_of_nil|].
  - intros H. apply IH. destruct (decide (key q = key p)) as [->|Hne].
    + right. rewrite lookup_insert_eq. by eexists.
    + rewrite lookup_insert_ne by done. destruct H as [[->|Hp]%elem_of_cons|]; [done|by left|by right].
Qed.

Definition insertNew (m : gmap str A) (p : nat) : gmap str A :=
  if bool_decide (is_Some (m !! key p)) then m else <[key p := val p]> m.

Lemma lookup_foldl_new (ps : list nat) (m : gmap str A) (n : str) (x : A) :
  foldl insertNew m ps !! n = Some x →
  m !! n = Some x ∨ ∃ p, p ∈ ps ∧ key p = n ∧ x = val p.
Proof.
  revert m. induction ps as [|p ps IH]; intros m; simpl; [by left|]. intros H.
  destruct (IH _ H) as [Hm|(q & Hq & Hqn & ->)].
  - unfold insertNew in Hm. case_bool_decide; [by left|].
    apply lookup_insert_Some in Hm as [[<- <-]|[_ Hm]]; [|by left]. right. exists p.
    split; [left|done].
  - right. exists q. split; [by right|done].
Qed.

Lemma foldl_new_is_Some (ps : list nat) (m : gmap str A) p :
  p ∈ ps ∨ is_Some (m !! key p) → is_Some (foldl insertNew m ps !! key p).
Proof.
  revert m. induction ps as [|q ps IH]; intros m; simpl.
  - by intros [?%elem_of_nil|].
  - intros H. apply IH. unfold insertNew. case_bool_decide as Hq.
    + destruct H as [[->|Hp]%elem_of_cons|]; [by right|by left|by right].
    + destruct (decide (key q = key p)) as [->|Hne].
      * right. rewrite lookup_insert_eq. by eexists.
      * rewrite lookup_insert_ne by done.
        destruct H as [[->|Hp]%elem_of_cons|]; [done|by left|by right].
Qed.
End Tables.

(** ** Imported files *)

Lemma elem_of_addFiles fs fps f : f ∈ addFiles fs fps ↔ f ∈ fs ∨ f ∈ fps.
Proof.
  unfold addFiles. revert fs. induction fps as [|fp fps IH]; intros fs; simpl.
  - rewrite elem_of_nil. tauto.
  - rewrite IH, elem_of_cons. case_bool_decide; [naive_solver|].
    rewrite elem_of_app, list_elem_of_singleton. tauto.
Qed.

Lemma importedFiles_spec {V} (e : ScriptEngine V) :
  (∀ i, i ∈ m_importsRequestedInScript e → is_Some (m_filePathsPerImport e !! i)) →
  ∃ fs, importedFilesUsedInScript e = Ok fs ∧
    ∀ f, f ∈ fs ↔ ∃ i, i ∈ m_importsRequestedInScript e ∧
                    f ∈ default [] (m_filePathsPerImport e !! i).
Proof.
  unfold importedFilesUsedInScript. intros H.
  assert (∀ l fs0, (∀ i, i ∈ l → is_Some (m_filePathsPerImport e !! i)) →
    ∃ fs, for_each (λ i fs, match m_filePathsPerImport e !! i with
                            | None => Throw CheckFailed
                            | Some fps => Ok (addFiles fs fps)
                            end) l fs0 = Ok fs ∧
      ∀ f, f ∈ fs ↔ f ∈ fs0 ∨ ∃ i, i ∈ l ∧ f ∈ default [] (m_filePathsPerImport e !! i)) as G.
  { induction l as [|i l IH]; intros fs0 Hl; simpl.
    - exists fs0. split; [done|]. intros f. split; [by left|].
      intros [?|(? & ?%elem_of_nil & _)]; done.
    - destruct (Hl i) as [fps Hi]; [left|]. rewrite Hi. simpl.
      destruct (IH (addFiles fs0 fps)) as (fs & E & Hf); [intros j Hj; apply Hl; by right|].
      exists fs. split; [done|]. intros f. rewrite Hf, elem_of_addFiles.
      setoid_rewrite elem_of_cons. split.
      + intros [[?|Hp]|(j & ? & ?)]; [by left| |right; exists j; auto].
        right. exists i. rewrite Hi. auto.
      + intros [?|(j & [->|?] & Hj)]; [auto| |right; by exists j].
        rewrite Hi in Hj. auto. }
  destruct (G _ [] H) as (fs & E & Hf). exists fs. split; [done|]. intros f. rewrite Hf.
  rewrite elem_of_nil. tauto.
Qed.

(** ** What a read would give in a later session *)

Section Exact.
Context {V : Type} {Q : QtVariant V} `{!QtVariantLaws Q}.

(** [s0] is the session in which the script ran at the time [now], [s] the later
    one, in which its product is [p]; products are identified by their names. *)
Definition unchanged (s0 s : Session V) (p : nat) (now : Z)
    (imports : gmap nat (list str)) (r : Read) : Prop :=
  match r with
  | ReadModuleProperty q m n =>
      variant_eqb (moduleProperty (moduleProperties (dataOf s0 q)) m n)
        (moduleProperty (from_option (λ q', moduleProperties (dataOf s q')) ∅
                           (productNamed s p (uniqueNameOf s0 q))) m n) = true
  | ReadProductProperty q n =>
      ∀ v, productProperties (dataOf s0 q) !! n = Some v →
        variant_eqb v (mapValue (from_option (λ q', productProperties (dataOf s q')) ∅
                                   (productNamed s p (uniqueNameOf s0 q))) n) = true
  | ReadProjectProperty q n =>
      ∀ v, projectProperties (projectOf s0 q) !! n = Some v →
        variant_eqb v (mapValue (from_option (λ q', projectProperties (projectOf s q')) ∅
                                   (projectNamed s p (projectName (projectOf s0 q)))) n) = true
  | ReadParameter q dep path n =>
      ∀ m v, walk (parametersOf s0 q dep).2 path = Some m → m !! n = Some v → isMap v = false →
        variant_eqb v
          (mapValue (descend (from_option (λ q', parametersByName s q' (parametersOf s0 q dep).1) ∅
                                (productNamed s p (uniqueNameOf s0 q))) path) n) = true
  | ReadArtifactModuleProperty a m n =>
      ∀ q, productOf (heap s0) a = Some q →
        ∃ a', artifactNamed s p (filePath (artifactOf (heap s0) a)) (uniqueNameOf s0 q) = Some a' ∧
          variant_eqb (moduleProperty (valueOfMap s0 a) m n) (moduleProperty (valueOfMap s a') m n)
          = true
  | ReadFileTags a =>
      ∀ q, productOf (heap s0) a = Some q →
        ∃ a', artifactNamed s p (filePath (artifactOf (heap s0) a)) (uniqueNameOf s0 q) = Some a' ∧
          sortedFileTags s a' = sortedFileTags s0 a
  | ReadDependencies q =>
      ∀ q', q' ∈ allProducts s → uniqueNameOf s q' = uniqueNameOf s0 q →
        depNamesForProduct s q' = depNamesForProduct s0 q
  | ReadExports q =>
      ∃ q', productNamed s p (uniqueNameOf s0 q) = Some q' ∧
        exportedModule_eqb (exportedModule (dataOf s q')) (exportedModule (dataOf s0 q)) = true
  | ReadArtifactsForTag q tag =>
      ∃ q' b b', firstNamed s (uniqueNameOf s0 q) = Some q' ∧
        buildDataOf (heap s0) q = Some b ∧ buildDataOf (heap s) q' = Some b' ∧
        filePathsForTag (heap s) b' tag = filePathsForTag (heap s0) b tag
  | EnumerateArtifacts q =>
      ∃ q' b b', firstNamed s (uniqueNameOf s0 q) = Some q' ∧
        buildDataOf (heap s0) q = Some b ∧ buildDataOf (heap s) q' = Some b' ∧
        dom (m_artifactsByFileTag b') = dom (m_artifactsByFileTag b)
  | UseImport i => ∀ f, f ∈ default [] (imports !! i) → import_holds s now f
  end.

(** The names of dependencies and the parts of parameter names hold no
    separators. *)
Definition parameters_ok (s0 : Session V) (L : list Read) : Prop :=
  ∀ q dep path n, ReadParameter q dep path n ∈ L →
    ":"%char ∉ (parametersOf s0 q dep).1 ∧ path ≠ [] ∧ ∀ part, part ∈ path → "."%char ∉ part.

Section Sessions.
Context (s0 : Session V) (imports : gmap nat (list str)) (reads : list Read).
Hypotheses (Hreads : readable s0 imports reads) (Hparams : parameters_ok s0 reads).

Context (s : Session V) (p : nat) (now : Z).

(** A property that was read has its value still. *)
Lemma property_unchanged r :
  r ∈ reads →
  (match r with
  | ReadModuleProperty _ _ _ | ReadProductProperty _ _ | ReadProjectProperty _ _
  | ReadParameter _ _ _ _ =>
      unchanged s0 s p now imports r ↔
        ∀ q, propertyRead s0 r = Some q → variant_eqb (value q) (currentValue s p q) = true
  | _ => True
  end).
Proof.
  intros Hr. destruct r as [q m n|q n|q n|q dep path n| | | | | | |]; try done; simpl.
  - split; [by intros H ? [= <-]|]. intros H. by apply (H _ eq_refl).
  - split.
    + intros H y Hy. apply fmap_Some in Hy as (v & Hv & ->). by apply H.
    + intros H v Hv. rewrite Hv in H. by apply (H _ eq_refl).
  - split.
    + intros H y Hy. apply fmap_Some in Hy as (v & Hv & ->). simpl.
      rewrite throughScript_eqb. by apply H.
    + intros H v Hv. rewrite Hv in H. specialize (H _ eq_refl). simpl in H.
      by rewrite throughScript_eqb in H.
  - destruct (Hparams q dep path n Hr) as (Hc & Hne & Hd).
    destruct (parametersOf s0 q dep) as [depName params]. simpl in *.
    assert (∀ v, currentValue s p (mkProperty (uniqueNameOf s0 q)
        (depName ++ ":"%char :: QualifiedId_toString path) n v PropertyInParameters) =
      mapValue (descend (from_option (λ q', parametersByName s q' depName) ∅
                           (productNamed s p (uniqueNameOf s0 q))) path) n) as E.
    { intros v. unfold currentValue. simpl. rewrite left_app, midAfter_app by done.
      unfold QualifiedId_fromString, QualifiedId_toString. by rewrite split_join. }
    split.
    + intros H y Hy. destruct (walk params path) as [m|]; simpl in Hy; [|done].
      destruct (m !! n) as [v|] eqn:Ev; simpl in Hy; [|done].
      destruct (isMap v) eqn:Em; [done|]. injection Hy as <-.
      rewrite E. simpl. rewrite throughScript_eqb. by eapply H.
    + intros H m v Hw Hv Hm. rewrite Hw in H. simpl in H. rewrite Hv in H. simpl in H.
      rewrite Hm in H. specialize (H _ eq_refl). rewrite E in H. simpl in H.
      by rewrite throughScript_eqb in H.
Qed.

Lemma artifactProperty_unchanged r :
  match r with
  | ReadArtifactModuleProperty _ _ _ | ReadFileTags _ =>
      unchanged s0 s p now imports r ↔
        ∀ path q, artifactPropertyRead s0 r = Some (path, q) → artifactProperty_holds s p path q
  | _ => True
  end.
Proof.
  destruct r as [| | | |a m n|a| | | | |]; try done; simpl; split.
  - intros H path q Hq. destruct (productOf (heap s0) a) as [q0|] eqn:E0; [|done].
    injection Hq as <- <-. exact (H _ eq_refl).
  - intros H q Hq. rewrite Hq in H. exact (H _ _ eq_refl).
  - intros H path q Hq. destruct (productOf (heap s0) a) as [q0|] eqn:E0; [|done].
    injection Hq as <- <-. destruct (H _ eq_refl) as (a' & Ha & Et). exists a'. split; [done|].
    simpl. by rewrite throughScript_strings.
  - intros H q Hq. rewrite Hq in H. destruct (H _ _ eq_refl) as (a' & Ha & Et). exists a'.
    split; [done|]. simpl in Et. by rewrite throughScript_strings in Et.
Qed.

Lemma propertyRead_kind r q : propertyRead s0 r = Some q → kind q ≠ PropertyInArtifact.
Proof.
  destruct r as [? ? ?|? ?|? ?|q0 dep path n| | | | | | |]; simpl; try done; intros Hq.
  - by injection Hq as <-.
  - by apply fmap_Some in Hq as (? & _ & ->).
  - by apply fmap_Some in Hq as (? & _ & ->).
  - destruct (parametersOf s0 q0 dep). destruct (walk _ _) as [m|]; [|done]. simpl in Hq.
    destruct (m !! n) as [v|]; [|done]. simpl in Hq. destruct (isMap v); [done|].
    by injection Hq as <-.
Qed.

(** The state of the engine and the project when the script has ended. *)
Context (e : ScriptEngine V) (s1 : Session V).
Hypotheses (Hrec : recorded s0 imports reads e) (Hs1 : same_project s0 s1).

Lemma deps_unchanged q :
  (∀ q' names, q' ∈ allProducts s →
     setDependencies s1 (m_productsWithRequestedDependencies e) !! uniqueNameOf s q' = Some names →
     depNamesForProduct s q' = names) →
  ReadDependencies q ∈ reads → unchanged s0 s p now imports (ReadDependencies q).
Proof.
  intros H Hq q' Hq' En.
  destruct (foldl_insert_is_Some (uniqueNameOf s1) (depNamesForProduct s1)
    (m_productsWithRequestedDependencies e) ∅ q) as [names E].
  { left. apply (rc_deps _ _ _ _ Hrec). by exists (ReadDependencies q). }
  destruct (lookup_foldl_insert _ _ _ _ _ _ E) as [E'|(q2 & Hq2 & En2 & ->)];
    [by rewrite lookup_empty in E'|].
  apply (rc_deps _ _ _ _ Hrec) in Hq2 as (? & Hq2 & ->).
  rewrite !(same_uniqueNameOf _ _ Hs1) in En2.
  assert (q2 = q) as ->.
  { eapply (rd_products _ _ _ Hreads _ _ _ _ Hq2 Hq); [by right; left..|done]. }
  rewrite (same_uniqueNameOf _ _ Hs1), <-En in E.
  rewrite (H _ _ Hq' E). apply (same_depNames _ _ Hs1).
Qed.

Lemma exports_unchanged q :
  (∀ n m, addExports s1 (m_requestedExports e) ∅ !! n = Some m →
     ∃ q', productNamed s p n = Some q' ∧ exportedModule_eqb (exportedModule (dataOf s q')) m = true) →
  ReadExports q ∈ reads → unchanged s0 s p now imports (ReadExports q).
Proof.
  intros H Hq.
  destruct (foldl_new_is_Some (uniqueNameOf s1) (λ q, exportedModule (dataOf s1 q))
    (m_requestedExports e) ∅ q) as [m E].
  { left. apply (rc_exports _ _ _ _ Hrec). by exists (ReadExports q). }
  destruct (lookup_foldl_new _ _ _ _ _ _ E) as [E'|(q2 & Hq2 & En2 & ->)];
    [by rewrite lookup_empty in E'|].
  apply (rc_exports _ _ _ _ Hrec) in Hq2 as (? & Hq2 & ->).
  rewrite !(same_uniqueNameOf _ _ Hs1) in En2.
  assert (q2 = q) as ->.
  { eapply (rd_products _ _ _ Hreads _ _ _ _ Hq2 Hq); [by right; right..|done]. }
  destruct (H _ _ E) as (q' & Hn & He).
  rewrite (same_uniqueNameOf _ _ Hs1) in Hn. rewrite (same_dataOf _ _ Hs1) in He. by exists q'.
Qed.

Lemma artifactsMap_unchanged r q :
  artifacts_hold s (m_requestedArtifacts e) → r ∈ reads → readsArtifacts r q →
  unchanged s0 s p now imports r.
Proof.
  intros H Hr Hq. pose proof (rc_artifacts _ _ _ _ Hrec) as Ha.
  destruct (ar_none _ _ _ Ha _ _ Hr Hq) as [ra Era].
  destruct (ar_some _ _ _ Ha _ _ Era) as (q2 & b & x & En & Hx & Hxq & Hb & [N1 N2 N3]).
  assert (q2 = q) as ->.
  { eapply (rd_products _ _ _ Hreads _ _ _ _ Hx Hr); [by left..|done]. }
  destruct (H _ _ Era) as (q' & b' & Hf & Hb' & Ht & He).
  destruct Hq as [[tag ->]| ->]; exists q', b, b'; split_and!; try done.
  - apply Ht, N3. by split.
  - rewrite <-N1. by apply He, N2.
Qed.

Lemma artifactsMap_holds :
  (∀ r, r ∈ reads → unchanged s0 s p now imports r) → artifacts_hold s (m_requestedArtifacts e).
Proof.
  intros H n ra Era. pose proof (rc_artifacts _ _ _ _ Hrec) as Ha.
  destruct (ar_some _ _ _ Ha _ _ Era) as (q & b & x & <- & Hx & Hxq & Hb & [N1 N2 N3]).
  assert (∃ q' b', firstNamed s (uniqueNameOf s0 q) = Some q' ∧ buildDataOf (heap s) q' = Some b')
    as (q' & b' & Hf & Hb').
  { specialize (H x Hx). destruct Hxq as [[tag ->]| ->];
      destruct H as (q' & ? & b' & ? & _ & ? & _); eauto. }
  exists q', b'. split_and!; try done. split.
  - intros tag paths [Ht ->]%N3. destruct (H _ Ht) as (q2 & b2 & b3 & Hf2 & Hb2 & Hb3 & E).
    rewrite Hf in Hf2. injection Hf2 as <-. rewrite Hb in Hb2. injection Hb2 as <-.
    rewrite Hb' in Hb3. by injection Hb3 as <-.
  - intros He. apply N2 in He. destruct (H _ He) as (q2 & b2 & b3 & Hf2 & Hb2 & Hb3 & E).
    rewrite Hf in Hf2. injection Hf2 as <-. rewrite Hb in Hb2. injection Hb2 as <-.
    rewrite Hb' in Hb3. injection Hb3 as <-. by rewrite N1.
Qed.

(** What is recorded holds iff the reads are unchanged. *)
Context (files : list str).
Hypothesis Hfiles : ∀ f, f ∈ files ↔
  ∃ i, i ∈ m_importsRequestedInScript e ∧ f ∈ default [] (imports !! i).

Definition requestsOf : Requests V :=
  mkRequests (m_propertiesRequestedInScript e) (m_propertiesRequestedFromArtifact e) files
    (setDependencies s1 (m_productsWithRequestedDependencies e)) (m_requestedArtifacts e)
    (addExports s1 (m_requestedExports e) ∅) now.

Lemma requestsOf_kinds : kinds_ok requestsOf.
Proof.
  intros q Hq. apply (rc_properties _ _ _ _ Hrec) in Hq as (r & _ & Hq).
  by eapply propertyRead_kind.
Qed.

Lemma requestsOf_unchanged r :
  requests_hold s p requestsOf → r ∈ reads → unchanged s0 s p now imports r.
Proof.
  intros [H1 H2 H3 H4 H5 H6] Hr. simpl in *.
  pose proof (property_unchanged r Hr) as Hprop. pose proof (artifactProperty_unchanged r) as Hart.
  assert (∀ q, propertyRead s0 r = Some q → variant_eqb (value q) (currentValue s p q) = true) as P1.
  { intros q Hq. apply H1, (rc_properties _ _ _ _ Hrec). by exists r. }
  assert (∀ path q, artifactPropertyRead s0 r = Some (path, q) → artifactProperty_holds s p path q)
    as P2.
  { intros path q Hq. assert (∃ r, r ∈ reads ∧ artifactPropertyRead s0 r = Some (path, q)) as Hx
      by eauto.
    apply (rc_fromArtifact _ _ _ _ Hrec (path, q)) in Hx. simpl in Hx.
    destruct (m_propertiesRequestedFromArtifact e !! path) as [ps|] eqn:E;
      [by eapply H2|by apply elem_of_nil in Hx]. }
  destruct r as [q m n|q n|q n|q dep path n|a m n|a|q|q|q tag|q|i];
    try (by apply Hprop); try (by apply Hart).
  - by apply deps_unchanged.
  - by apply exports_unchanged.
  - eapply artifactsMap_unchanged; try done. left. by eexists.
  - eapply artifactsMap_unchanged; try done. by right.
  - intros f Hf. apply H3, Hfiles. exists i. split; [|done].
    apply (rc_imports _ _ _ _ Hrec). by exists (UseImport i).
Qed.

Lemma requestsOf_hold :
  (∀ r, r ∈ reads → unchanged s0 s p now imports r) → requests_hold s p requestsOf.
Proof.
  intros H. split; simpl.
  - intros q Hq. apply (rc_properties _ _ _ _ Hrec) in Hq as (r & Hr & Hq).
    pose proof (property_unchanged r Hr) as Hprop. specialize (H r Hr).
    by destruct r; try done; apply Hprop.
  - intros path ps q Hps Hq.
    assert (q ∈ default [] (m_propertiesRequestedFromArtifact e !! path)) as Hx by by rewrite Hps.
    apply (rc_fromArtifact _ _ _ _ Hrec (path, q)) in Hx as (r & Hr & Hx).
    pose proof (artifactProperty_unchanged r) as Hart. specialize (H r Hr).
    by destruct r; try done; apply Hart.
  - intros f Hf. apply Hfiles in Hf as (i & Hi & Hf).
    apply (rc_imports _ _ _ _ Hrec) in Hi as (r & Hr & ->). by apply (H _ Hr).
  - intros q' names Hq' Hn.
    destruct (lookup_foldl_insert _ _ _ _ _ _ Hn) as [E|(q & Hq & En & ->)];
      [by rewrite lookup_empty in E|].
    apply (rc_deps _ _ _ _ Hrec) in Hq as (? & Hr & ->).
    rewrite (same_depNames _ _ Hs1). apply (H _ Hr); [done|].
    by rewrite <-(same_uniqueNameOf _ _ Hs1).
  - by apply artifactsMap_holds.
  - intros n m Hm.
    destruct (lookup_foldl_new _ _ _ _ _ _ Hm) as [E|(q & Hq & <- & ->)];
      [by rewrite lookup_empty in E|].
    apply (rc_exports _ _ _ _ Hrec) in Hq as (? & Hr & ->).
    rewrite (same_uniqueNameOf _ _ Hs1), (same_dataOf _ _ Hs1). apply (H _ Hr).
Qed.
End Sessions.

End Exact.
