(* ===== verification/ChangeTrackingExamples.v ===== *)
(** * The change tracking on examples

    A concrete kind of values, a project with two products, and the cases in which
    the record does not hold what the scripts read. *)

From S2P Require Import Prelude FlatSet BuildGraph StateMonad ChangeTracking ChangeTrackingCorrect ChangeRecording ChangeTrackingExact.

Module Example.

(** ** Values: nothing, lists of strings, and maps *)

#[warnings="-register-all"]
Inductive Value :=
  | Invalid
  | Strings (l : list str)
  | Map (l : list (str * Value)).

Fixpoint value_eqb (v w : Value) : bool :=
  match v, w with
  | Invalid, Invalid => true
  | Strings l1, Strings l2 => bool_decide (l1 = l2)
  | Map l1, Map l2 =>
      all2 (λ kv1 kv2, bool_decide (kv1.1 = kv2.1) && value_eqb kv1.2 kv2.2) l1 l2
  | _, _ => false
  end.

#[local] Instance value_variant : QtVariant Value := {
  invalid := Invalid;
  variant_eqb := value_eqb;
  toMap v := match v with Map l => list_to_map l | _ => ∅ end;
  toStringList v := match v with Strings l => l | _ => [] end;
  isMap v := match v with Map _ => true | _ => false end;
  ofStringList := Strings;
  throughScript v := v
}.

#[local] Instance value_variant_laws : QtVariantLaws value_variant.
Proof. by split. Qed.

(** ** A project

    The product 10, [app], is in the project 20 and has the object file 1; it
    depends on the module [lib]. *)

Definition objectFile (path : str) : Node :=
  mkNode [] [] (Some 10) (ArtifactNodeType (mkArtifact path 0 Generated [1] [] [] None [] 0)).

Definition graph (paths : list (nat * str)) (tags : gmap nat (list nat)) (deps : list nat) : Heap :=
  mkHeap (list_to_map ((λ x, (x.1, objectFile x.2)) <$> paths)) ∅ ∅
    {[ 10 := mkResolvedProduct "app" true [] deps [] 20 []
               (Some (mkProductBuildData (fst <$> paths) [] tags false));
       11 := mkResolvedProduct "tool" true [] [] [] 20 [] None ]}
    ∅ (list_to_map ((λ x, (lookupKey x.2, [x.1])) <$> paths)) true.

Definition cpp (defines : list str) : gmap str Value :=
  {[ lit "cpp" := Map [(lit "defines", Strings defines)] ]}.

Definition session (h : Heap) (defines : list str) (projectName_ : str)
    (productProps projectProps : gmap str Value) (m : ExportedModule Value) : Session Value :=
  mkSession h
    {[ 10 := mkProductData "app" (cpp defines) productProps []
               [(lit "lib", {[ lit "lib" := Map [(lit "link", Strings [lit "static"])] ]})]
               [(lit "lib", false)] m ∅ ]}
    {[ 20 := mkProjectData projectName_ projectProps ]} {[ 0 := cpp defines ]} [10; 11]
    {[ lit "app" := 10; lit "tool" := 11 ]} ∅ {[ lit "helper.js" := 5%Z ]} (λ _, lit "obj").

Definition engine : ScriptEngine Value := mkScriptEngine [] ∅ [] [] ∅ [] {[ 7 := [lit "helper.js"] ]} ∅.

Definition before : Session Value :=
  session (graph [(1, lit "/b/a.o")] {[ 1 := [1] ]} []) [lit "NDEBUG"] "top" ∅ ∅ emptyExportedModule.

Definition noRequests_ : Requests Value := mkRequests [] ∅ [] ∅ ∅ ∅ 0.

(** The script of the example. *)
Definition reads : list Read :=
  [ReadModuleProperty 10 "cpp" "defines"; ReadFileTags 1; ReadDependencies 10;
   ReadParameter 10 (inr (lit "lib")) [lit "lib"] "link"; ReadArtifactsForTag 10 1;
   EnumerateArtifacts 10; UseImport 7].

#[local] Ltac each_read H :=
  repeat (apply elem_of_cons in H as [->|H]); [.. | by apply elem_of_nil in H].

Lemma reads_readable : readable before (m_filePathsPerImport engine) reads.
Proof.
  split.
  - intros r Hr. each_read Hr; simpl; try done; try (by eexists).
    eexists. split; [reflexivity|]. left. apply (bool_decide_eq_true_1 _). by vm_compute.
  - intros r1 r2 p1 p2 H1 H2 E1 E2 Hk. each_read H1; simpl in E1; try done;
      each_read H2; simpl in E2; try done; vm_compute in E1, E2; simplify_eq; done.
  - intros r1 r2 path p1 p2 H1 H2 E1 E2 Hk. each_read H1; simpl in E1; try done;
      each_read H2; simpl in E2; try done; vm_compute in E1, E2; by simplify_eq.
  - intros r1 r2 p1 p2 H1 H2 E1 E2 _.
    assert (∀ r p, r ∈ reads → readProduct r p → p = 10) as Hp.
    { intros r p Hr. each_read Hr; intros [[[? ?]|?]|[?|?]]; by simplify_eq. }
    by rewrite (Hp r1 p1), (Hp r2 p2).
Qed.

Lemma reads_parameters : parameters_ok before reads.
Proof.
  intros q dep path n H. unfold reads in H. set_unfold in H. destruct_or! H; try done.
  injection H as -> -> -> ->. simpl. split_and!; [|done|].
  - apply (bool_decide_eq_true_1 _). by vm_compute.
  - intros part ->%list_elem_of_singleton. apply (bool_decide_eq_true_1 _). by vm_compute.
Qed.

Lemma before_ok : session_ok before.
Proof.
  split.
  - intros n p. unfold before, session. simpl. intros [[<- <-]|[? [<- <-]%lookup_singleton_Some]]%lookup_insert_Some;
      by vm_compute.
  - intros key l a x. simpl. intros [<- <-]%lookup_singleton_Some ->%list_elem_of_singleton Hx.
    vm_compute in Hx. injection Hx as <-. by vm_compute.
Qed.

(** A record with a property, a file and an exported module. *)
Definition recorded_ : Requests Value :=
  mkRequests [mkProperty "app" "cpp" "defines" (Strings [lit "NDEBUG"]) PropertyInModule] ∅
    [lit "helper.js"] ∅ ∅ {[ lit "app" := emptyExportedModule ]} 9.

Lemma change_tracking_correct_witness :
  (∃ b, commandsNeedRerun before 10 (mkTracked noRequests_ recorded_ [] true true) =
      (Ok b, mkTracked noRequests_ recorded_ [] true false) ∧
    (b = false ↔ true = false ∨
       requests_hold before 10 recorded_ ∧ environment_holds before 10 [])) ∧
  (∃ b, prepareScriptNeedsRerun before 10 (mkTracked noRequests_ recorded_ [] true true) =
      (Ok b, mkTracked noRequests_ recorded_ [] false true) ∧
    (b = false ↔ true = false ∨ requests_hold before 10 noRequests_)).
Proof.
  apply (change_tracking_correct before 10 (mkTracked noRequests_ recorded_ [] true true)).
  - exact before_ok.
  - by intros q ?%elem_of_nil.
  - by intros q ->%list_elem_of_singleton.
Defined.


(** ** Recording and asking *)

Definition prepare (s : Session Value) (e : ScriptEngine Value) (l : list Read)
    (r : Requests Value) : exn BGError (Requests Value) :=
  match runScript l (clearRequestedProperties e, s) with
  | (Ok _, (e', s')) => prepareScriptRequests s' e' 9 r
  | (Throw x, _) => Throw x
  end.

(** JavaScript commands that run one after the other *)
Fixpoint runCommands (s : Session Value) (e : ScriptEngine Value) (scripts : list (list Read))
    (r : Requests Value) : exn BGError (Requests Value) :=
  match scripts with
  | [] => Ok r
  | l :: scripts' =>
      match runScript l (clearRequestedProperties e, s) with
      | (Ok _, (e', s')) => let* r := commandRequests s' e' r in runCommands s' e' scripts' r
      | (Throw x, _) => Throw x
      end
  end.

Definition askPrepare (s : Session Value) (r : exn BGError (Requests Value)) : exn BGError bool :=
  let* r := r in (prepareScriptNeedsRerun s 10 (mkTracked r noRequests_ [] true true)).1.
Definition askCommands (s : Session Value) (r : exn BGError (Requests Value)) : exn BGError bool :=
  let* r := r in (commandsNeedRerun s 10 (mkTracked noRequests_ r [JavaScriptCommand] true true)).1.

Example nothing_changed : askPrepare before (prepare before engine reads noRequests_) = Ok false.
Proof. by vm_compute. Qed.

Definition newTag : Session Value :=
  session (graph [(1, lit "/b/a.o"); (2, lit "/b/b.o")] {[ 1 := [1]; 2 := [2] ]} [])
    [lit "NDEBUG"] "top" ∅ ∅ emptyExportedModule.
Definition newDefine : Session Value :=
  session (graph [(1, lit "/b/a.o")] {[ 1 := [1] ]} []) [lit "DEBUG"] "top" ∅ ∅ emptyExportedModule.

Example changes_are_noticed :
  askPrepare newTag (prepare before engine reads noRequests_) = Ok true ∧
  askPrepare newDefine (prepare before engine reads noRequests_) = Ok true.
Proof. by vm_compute. Qed.

(** ** Where the record is not what was read *)

(** The second of two commands enumerates the artifacts, which [unite] forgets:
    a new file tag goes unnoticed. *)
Example enumeration_is_forgotten :
  askCommands newTag
    (runCommands before engine [[ReadArtifactsForTag 10 1]; [EnumerateArtifacts 10]] noRequests_)
    = Ok false ∧
  askCommands newTag
    (runCommands before engine [[ReadArtifactsForTag 10 1; EnumerateArtifacts 10]] noRequests_)
    = Ok true.
Proof. by vm_compute. Qed.

(** The second of two commands reads another property of the same artifact, and
    the properties that the first has read are dropped. *)
Example artifact_properties_are_replaced :
  askCommands newDefine
    (runCommands before engine [[ReadArtifactModuleProperty 1 "cpp" "defines"]; [ReadFileTags 1]]
       noRequests_) = Ok false ∧
  askCommands newDefine
    (runCommands before engine [[ReadArtifactModuleProperty 1 "cpp" "defines"; ReadFileTags 1]]
       noRequests_) = Ok true.
Proof. by vm_compute. Qed.

(** A product and its project have the same name, and both have a property [x]:
    only the one that was read first is recorded. *)
Definition sameNames (x : str) : Session Value :=
  session (graph [] ∅ []) [] "app" {[ lit "x" := Strings [lit "1"] ]} {[ lit "x" := Strings [x] ]}
    emptyExportedModule.

Example kinds_collide :
  askPrepare (sameNames "3")
    (prepare (sameNames "2") engine [ReadProductProperty 10 "x"; ReadProjectProperty 20 "x"]
       noRequests_) = Ok false ∧
  askPrepare (sameNames "3")
    (prepare (sameNames "2") engine [ReadProjectProperty 20 "x"] noRequests_) = Ok true.
Proof. by vm_compute. Qed.

(** A prepare script that ran again because an exported module has changed: the
    record that the new transformer took over keeps the old module, and the script
    is out of date at once. *)
Definition exporting (deps : list (str * gmap str Value)) (imports : list str) : Session Value :=
  session (graph [] ∅ []) [] "top" ∅ ∅ (mkExportedModule ∅ ∅ [] [] deps [] [] imports).

Example old_export_stays :
  let rescued := prepare (exporting [] [lit "Old"]) engine [ReadExports 10] noRequests_ in
  askPrepare (exporting [] [lit "New"]) rescued = Ok true ∧
  askPrepare (exporting [] [lit "New"])
    (let* r := rescued in prepare (exporting [] [lit "New"]) engine [ReadExports 10] r) = Ok true.
Proof. by vm_compute. Qed.

(** The modules that an exported module depends on are not compared. *)
Lemma moduleDependencies_ignored (m : ExportedModule Value) deps :
  exportedModule_eqb
    (mkExportedModule (propertyValues m) (modulePropertyValues m) (exportedChildren m)
       (productDependencies m) deps (m_properties m) (exportedDependencyParameters m)
       (importStatements m)) m = exportedModule_eqb m m.
Proof. reflexivity. Qed.

Example moduleDependencies_change_unnoticed :
  askPrepare (exporting [(lit "cpp", ∅)] [])
    (prepare (exporting [] []) engine [ReadExports 10] noRequests_) = Ok false.
Proof. by vm_compute. Qed.

(** A product whose dependencies were read is gone. *)
Definition withoutTool : Session Value :=
  let s := before in
  mkSession (heap s) (productData s) (projectData s) (propertyMaps s) [10] {[ lit "app" := 10 ]}
    (projectsByName s) (files s) (tagString s).

Example removed_product_unnoticed :
  askPrepare withoutTool (prepare before engine [ReadDependencies 11] noRequests_) = Ok false.
Proof. by vm_compute. Qed.

(** The flag of an artifacts map belongs to the product, the object that it is
    about to each engine: a second engine that brings its own object up to date
    makes the first one take its old object for a current one.  The new tag 2 is
    read as undefined. *)
Definition afterOther (l : list Read) (s : Session Value) : Session Value :=
  (runScript l (engine, s)).2.2.

Example other_engine_hides_change :
  let e1 := (runScript [ReadArtifactsForTag 10 1] (engine, before)).2.1 in
  (readArtifactsForTag 10 2 (e1, newTag)).1 = Ok (Some [2]) ∧
  (readArtifactsForTag 10 2
     (e1, afterOther [ReadArtifactsForTag 10 1; ReadArtifactsForTag 10 1] newTag)).1 = Ok None.
Proof. by vm_compute. Qed.
End Example.
