(* ===== verification/BuildGraphLoader.v ===== *)
(** * Loading a project ([buildgraph/buildgraphloader.cpp])

    A project that was restored from the build graph file is compared with what
    the project files say now.  Products that have changed get new build data, and
    so do the products that depend on them; the build data of the others is moved
    over to the newly resolved project.  Resolving itself is the work of the module
    loader: the newly resolved products are an argument here.

    Products are addresses; those of the restored and of the newly resolved project
    live side by side.  The values of properties are those of [ChangeTracking.v],
    property maps are never null. *)

From stdpp Require Import gmultiset.
From S2P Require Import Prelude FlatSet BuildGraph StateMonad ChangeTracking.

(** ** Comparing lists ([language/language.cpp]) *)

Section Lists.
Context {A : Type} (keyFromElem : A → str) (equals : A → A → bool).

(** [QMap::insert] replaces the value of a key that is there. *)
Definition listToMap (l : list A) : gmap str A :=
  foldl (λ m x, <[keyFromElem x := x]> m) ∅ l.

Definition listsAreEqual (l1 l2 : list A) : bool :=
  if negb (length l1 =? length l2) then false
  else
    let map1 := listToMap l1 in
    let map2 := listToMap l2 in
    forallb (λ kv, match map2 !! kv.1 with
                   | None => false
                   | Some value2 => equals kv.2 value2
                   end) (map_to_list map1).
End Lists.

(** ** What belongs to a product ([language/language.h]) *)

(** The file context of a script is only compared. *)
Record ScriptFunction := mkScriptFunction {
  scriptSource : str;
  scriptFile : str;
  scriptLine : Z;
  scriptColumn : Z;
  scriptContext : nat
}.

#[export] Instance ScriptFunction_eq_dec : EqDecision ScriptFunction.
Proof. solve_decision. Defined.

Definition scriptIsValid (f : ScriptFunction) : bool := negb (scriptLine f =? -1)%Z.

Record RuleArtifact := mkRuleArtifact {
  artifactPath : str;
  artifactTags : gset str;
  alwaysUpdated : bool;
  bindings : list (str * list str)    (* [code], [name] *)
}.

(** The bindings are sorted by name, code and location, and compared by name and
    code. *)
Definition ruleArtifact_eqb (a1 a2 : RuleArtifact) : bool :=
  bool_decide (artifactPath a1 = artifactPath a2) &&
  bool_decide (artifactTags a1 = artifactTags a2) &&
  Bool.eqb (alwaysUpdated a1) (alwaysUpdated a2) &&
  bool_decide ((list_to_set_disj (bindings a1) : gmultiset _) = list_to_set_disj (bindings a2)).

(** The members of [Rule] that are compared. *)
Record RuleContent := mkRuleContent {
  artifacts : list RuleArtifact;
  ruleModule : str;
  prepareScript : ScriptFunction;
  outputArtifactsScript : ScriptFunction;
  ruleInputs : gset str;
  outputFileTags : gset str;
  ruleAuxiliaryInputs : gset str;
  ruleExcludedInputs : gset str;
  ruleInputsFromDependencies : gset str;
  ruleExplicitlyDependsOn : gset str;
  ruleExplicitlyDependsOnFromDependencies : gset str;
  ruleMultiplex : bool;
  ruleRequiresInputs : bool;
  alwaysRun : bool
}.

Definition rule_eqb (r1 r2 : RuleContent) : bool :=
  all2 ruleArtifact_eqb (artifacts r1) (artifacts r2) &&
  bool_decide (ruleModule r1 = ruleModule r2) &&
  bool_decide (prepareScript r1 = prepareScript r2) &&
  bool_decide (outputArtifactsScript r1 = outputArtifactsScript r2) &&
  bool_decide (ruleInputs r1 = ruleInputs r2) &&
  bool_decide (outputFileTags r1 = outputFileTags r2) &&
  bool_decide (ruleAuxiliaryInputs r1 = ruleAuxiliaryInputs r2) &&
  bool_decide (ruleExcludedInputs r1 = ruleExcludedInputs r2) &&
  bool_decide (ruleInputsFromDependencies r1 = ruleInputsFromDependencies r2) &&
  bool_decide (ruleExplicitlyDependsOn r1 = ruleExplicitlyDependsOn r2) &&
  bool_decide (ruleExplicitlyDependsOnFromDependencies r1 =
               ruleExplicitlyDependsOnFromDependencies r2) &&
  Bool.eqb (ruleMultiplex r1) (ruleMultiplex r2) &&
  Bool.eqb (ruleRequiresInputs r1) (ruleRequiresInputs r2) &&
  Bool.eqb (alwaysRun r1) (alwaysRun r2).

Record ArtifactProperties (V : Type) := mkArtifactProperties {
  fileTagsFilter : gset str;
  extraFileTags : gset str;
  propertyMap : gmap str V
}.
Arguments mkArtifactProperties {V} _ _ _.
Arguments fileTagsFilter {V} _.
Arguments extraFileTags {V} _.
Arguments propertyMap {V} _.

Record SourceFile (V : Type) := mkSourceFile {
  absoluteFilePath : str;
  sourceTags : gset str;
  overrideFileTags : bool;
  sourceTargetOfModule : str;
  sourceProperties : gmap str V
}.
Arguments mkSourceFile {V} _ _ _ _ _.
Arguments absoluteFilePath {V} _.
Arguments sourceTags {V} _.
Arguments overrideFileTags {V} _.
Arguments sourceTargetOfModule {V} _.
Arguments sourceProperties {V} _.

(** The wildcards of a group: the time stamps of the directories, the files that
    were found, and those that [expandPatterns] finds now. *)
Record SourceWildCards := mkSourceWildCards {
  dirTimeStamps : list (str * Z);
  wildcardFiles : list str;
  expandedFiles : gset str
}.

(** A node of the build data, with the product it points to: a rule node with its
    rule, a source artifact, or a generated artifact with its transformer. *)
Inductive LoadedNode :=
  | LoadedRuleNode (owner rule : nat)
  | LoadedSource (owner : nat)
  | LoadedGenerated (owner : nat) (transformer : option nat).

(** A product.  [moduleProperties] is a pointer with the map it points to, the
    rules are addresses. *)
Record Product (V : Type) := mkProduct {
  loadedName : str;     (* [uniqueName()] *)
  loadedEnabled : bool;
  loadedDependencies : list nat;
  loadedTags : gset str;
  loadedRules : list nat;
  artifactProperties : list (ArtifactProperties V);
  allEnabledFiles : list (SourceFile V);
  loadedModuleProperties : nat * gmap str V;
  projectFile : str;    (* [location.filePath()] *)
  missingSourceFiles : list str;
  groupWildcards : list SourceWildCards;
  hasProbes : bool;
  loadedBuildData : option (list LoadedNode)
}.
Arguments mkProduct {V} _ _ _ _ _ _ _ _ _ _ _ _ _.
Arguments loadedName {V} _.
Arguments loadedEnabled {V} _.
Arguments loadedDependencies {V} _.
Arguments loadedTags {V} _.
Arguments loadedRules {V} _.
Arguments artifactProperties {V} _.
Arguments allEnabledFiles {V} _.
Arguments loadedModuleProperties {V} _.
Arguments projectFile {V} _.
Arguments missingSourceFiles {V} _.
Arguments groupWildcards {V} _.
Arguments hasProbes {V} _.
Arguments loadedBuildData {V} _.

(** The objects of both projects; [transformerRules] is the rule of each
    transformer. *)
Record Projects (V : Type) := mkProjects {
  loadedProducts : gmap nat (Product V);
  ruleContents : gmap nat RuleContent;
  transformerRules : gmap nat nat
}.
Arguments mkProjects {V} _ _ _.
Arguments loadedProducts {V} _.
Arguments ruleContents {V} _.
Arguments transformerRules {V} _.

Section Loader.
Context {V : Type} {Q : QtVariant V}.
Implicit Types (o : Projects V) (p q : nat).

Definition emptyProduct : Product V :=
  mkProduct [] false [] ∅ [] [] [] (0, ∅) [] [] [] false None.
Definition productAt o p : Product V := default emptyProduct (loadedProducts o !! p).
Definition noScript : ScriptFunction := mkScriptFunction [] [] (-1) (-1) 0.
Definition ruleContentIn (contents : gmap nat RuleContent) (r : nat) : RuleContent :=
  default (mkRuleContent [] [] noScript noScript ∅ ∅ ∅ ∅ ∅ ∅ ∅ false false false)
    (contents !! r).
Definition ruleContentAt o (r : nat) : RuleContent := ruleContentIn (ruleContents o) r.

(** ** Keys and comparisons *)

Definition staticOutputFileTags (r : RuleContent) : gset str := ⋃ (artifactTags <$> artifacts r).

Definition collectedOutputFileTags (aps : list (ArtifactProperties V)) (r : RuleContent) : gset str :=
  foldl (λ result ap, if bool_decide (fileTagsFilter ap ## result) then result
                      else result ∪ extraFileTags ap)
    (if bool_decide (outputFileTags r = ∅) then staticOutputFileTags r else outputFileTags r) aps.

Definition sortedTags (tags : gset str) : str := join "," (std_sort str_ltb (elements tags)).

(** [Rule::toString] *)
Definition rule_toString (aps : list (ArtifactProperties V)) (r : RuleContent) : str :=
  lit "[" ++ sortedTags (collectedOutputFileTags aps r) ++ lit "][" ++
  sortedTags (ruleInputs r ∪ ruleInputsFromDependencies r) ++ lit "]".

(** [keyFromElem] of a rule, whose product has the artifact properties [aps] *)
Definition rule_key (x : list (ArtifactProperties V) * RuleContent) : str :=
  let '(aps, r) := x in
  rule_toString aps r ++ scriptSource (prepareScript r) ++
  (if scriptIsValid (outputArtifactsScript r) then scriptSource (outputArtifactsScript r) else []) ++
  concat (artifactPath <$> artifacts r).

Definition rulesOf o p : list (list (ArtifactProperties V) * RuleContent) :=
  (λ r, (artifactProperties (productAt o p), ruleContentAt o r)) <$> loadedRules (productAt o p).

Definition ruleListsAreEqual o p q : bool :=
  listsAreEqual rule_key (λ x y, rule_eqb x.2 y.2) (rulesOf o p) (rulesOf o q).

Definition artifactProperties_key (ap : ArtifactProperties V) : str := sortedTags (fileTagsFilter ap).

Definition artifactProperties_eqb (ap1 ap2 : ArtifactProperties V) : bool :=
  bool_decide (fileTagsFilter ap1 = fileTagsFilter ap2) &&
  bool_decide (extraFileTags ap1 = extraFileTags ap2) &&
  map_eqb (propertyMap ap1) (propertyMap ap2).

Definition artifactPropertyListsAreEqual : list (ArtifactProperties V) →
    list (ArtifactProperties V) → bool :=
  listsAreEqual artifactProperties_key artifactProperties_eqb.

Definition sourceFile_eqb (s1 s2 : SourceFile V) : bool :=
  bool_decide (absoluteFilePath s1 = absoluteFilePath s2) &&
  bool_decide (sourceTags s1 = sourceTags s2) &&
  Bool.eqb (overrideFileTags s1) (overrideFileTags s2) &&
  bool_decide (sourceTargetOfModule s1 = sourceTargetOfModule s2) &&
  map_eqb (sourceProperties s1) (sourceProperties s2).

(** ** Changes in the products *)

(** What the comparisons leave to be done: the changed source files by product,
    and the products whose generated artifacts are to be updated. *)
Record Pending := mkPending {
  m_changedSourcesByProduct : gmap str (list (SourceFile V));
  m_productsWhoseArtifactsNeedUpdate : gset str
}.

Definition dependenciesAreEqual o p q : bool :=
  let d1 := loadedDependencies (productAt o p) in
  let d2 := loadedDependencies (productAt o q) in
  if negb (length d1 =? length d2) then false
  else bool_decide ((list_to_set ((λ d, loadedName (productAt o d)) <$> d1) : gset str) =
                    list_to_set ((λ d, loadedName (productAt o d)) <$> d2)).

Definition qbsPropertyValue (m : gmap str V) (key : str) : V := moduleProperty m "qbs" key.

Definition checkProductForInstallInfoChanges o p q : bool :=
  existsb (λ key,
    negb (variant_eqb (qbsPropertyValue (loadedModuleProperties (productAt o p)).2 key)
                      (qbsPropertyValue (loadedModuleProperties (productAt o q)).2 key)))
    [lit "install"; lit "installDir"; lit "installPrefix"; lit "installRoot"].

Definition needsUpdate (n : str) (s : Pending) : Pending :=
  mkPending (m_changedSourcesByProduct s) ({[ n ]} ∪ m_productsWhoseArtifactsNeedUpdate s).

(** The pointers to the property maps are compared, not the maps. *)
Definition checkForPropertyChanges o p q (s : Pending) : bool * Pending :=
  let rp := productAt o p in
  let np := productAt o q in
  match loadedBuildData rp with
  | None => (false, s)
  | Some _ =>
      if negb (bool_decide (loadedTags rp = loadedTags np)) then (true, s)
      else if checkProductForInstallInfoChanges o p q then (true, s)
      else
        let s := if artifactPropertyListsAreEqual (artifactProperties rp) (artifactProperties np)
                 then s else needsUpdate (loadedName rp) s in
        let s := if negb ((loadedModuleProperties rp).1 =? (loadedModuleProperties np).1)
                 then needsUpdate (loadedName rp) s else s in
        (false, s)
  end.

Definition checkProductForChanges o p q (s : Pending) : bool * Pending :=
  let '(changed, s) := checkForPropertyChanges o p q s in
  if changed then (true, s)
  else if negb (ruleListsAreEqual o p q) then (true, s)
  else if negb (dependenciesAreEqual o p q) then (true, s)
  else (false, s).

(** The two lists, sorted by path, are compared in step; [None]: the paths
    differ. *)
Fixpoint changedSourceFiles (l1 l2 : list (SourceFile V)) : option (list (SourceFile V)) :=
  match l1, l2 with
  | oldFile :: l1', newFile :: l2' =>
      if negb (bool_decide (absoluteFilePath oldFile = absoluteFilePath newFile)) then None
      else
        rest ← changedSourceFiles l1' l2';
        Some (if sourceFile_eqb oldFile newFile then rest else newFile :: rest)
  | _, _ => Some []
  end.

Definition path_ltb (s1 s2 : SourceFile V) : bool :=
  str_ltb (absoluteFilePath s1) (absoluteFilePath s2).

Definition checkProductForChangesInSourceFiles o p q (s : Pending) : bool * Pending :=
  let oldFiles := allEnabledFiles (productAt o p) in
  let newFiles := allEnabledFiles (productAt o q) in
  if negb (length oldFiles =? length newFiles) then (true, s)
  else
    match changedSourceFiles (std_sort path_ltb oldFiles) (std_sort path_ltb newFiles) with
    | None => (true, s)
    | Some [] => (false, s)
    | Some changedFiles =>
        let n := loadedName (productAt o p) in
        (false,
         if bool_decide (is_Some (m_changedSourcesByProduct s !! n)) then s
         else mkPending (<[n := changedFiles]> (m_changedSourcesByProduct s))
                (m_productsWhoseArtifactsNeedUpdate s))
    end.

Definition addChanged (p : nat) (changed : list nat) : list nat :=
  if bool_decide (p ∈ changed) then changed else changed ++ [p].

(** One round of [checkAllProductsForChanges]. *)
Definition checkProduct o (fresh : gmap str nat) p (cs : list nat * Pending) :
    list nat * Pending :=
  let '(changed, s) := cs in
  match fresh !! loadedName (productAt o p) with
  | None => (changed, s)
  | Some q =>
      if negb (Bool.eqb (loadedEnabled (productAt o q)) (loadedEnabled (productAt o p)))
      then (addChanged p changed, s)
      else
        let '(b, s) := checkProductForChanges o p q s in
        if b then (addChanged p changed, s)
        else
          let '(b, s) := checkProductForChangesInSourceFiles o p q s in
          if b then (addChanged p changed, s) else (changed, s)
  end.

Definition checkAllProductsForChanges o (fresh : gmap str nat) (restored changed : list nat)
    (s : Pending) : list nat * Pending :=
  foldl (λ cs p, checkProduct o fresh p cs) (changed, s) restored.

(** ** Products that depend on changed products *)

(** The first dependency that has changed ends the loop; the state is
    [changedProducts] and [seenProducts]. *)
Fixpoint anyChanged (f : nat → list nat * gset nat → exn BGError (bool * (list nat * gset nat)))
    (l : list nat) (st : list nat * gset nat) : exn BGError (bool * (list nat * gset nat)) :=
  match l with
  | [] => Ok (false, st)
  | d :: l' =>
      let* (b, st) := f d st in
      if b : bool then Ok (true, st) else anyChanged f l' st
  end.

Fixpoint checkProductForChangedDependency (fuel : nat) o p (st : list nat * gset nat) :
    exn BGError (bool * (list nat * gset nat)) :=
  match fuel with
  | 0 => Throw OutOfFuel
  | S fuel =>
      let '(changed, seen) := st in
      if bool_decide (p ∈ seen) then Ok (false, st)
      else if bool_decide (p ∈ changed) then Ok (true, st)
      else
        let* (b, (changed, seen)) :=
          anyChanged (checkProductForChangedDependency fuel o)
            (loadedDependencies (productAt o p)) st in
        if b : bool then Ok (true, (changed ++ [p], seen))
        else Ok (false, (changed, {[ p ]} ∪ seen))
  end.

(** No chain of dependencies is longer than the number of products. *)
Definition dependencyFuel o : nat := S (S (size (loadedProducts o))).

Definition makeChangedProductsListComplete o (changed allRestored : list nat) :
    exn BGError (list nat) :=
  let* (changed, _) :=
    for_each (λ p st,
      let* (_, st) := checkProductForChangedDependency (dependencyFuel o) o p st in Ok st)
      allRestored (changed, ∅) in
  Ok changed.

(** ** Does the project have to be resolved again?

    The file system, and what the restored project recorded of it. *)
Record FileSystem := mkFileSystem {
  existsNow : str → bool;
  lastModifiedNow : str → Z;
  canonicalFilePathNow : str → str;
  entryListNow : str * Z → list str
}.

Record RestoredProject := mkRestoredProject {
  allProducts : list nat;
  lastStartResolveTime : Z;
  lastEndResolveTime : Z;
  buildSystemFiles : gset str;
  providerDirs : list str;    (* the output directories of the module providers *)
  projectHasProbes : bool;
  environment : gmap str str;
  canonicalFilePathResults : gmap str str;
  fileExistsResults : gmap str bool;
  directoryEntriesResults : gmap (str * Z) (list str);
  fileLastModifiedResults : gmap str Z;
  profile : str;
  overriddenValues : gmap str V;
  buildConfiguration : gmap str V;
  profileConfigs : gmap str V
}.

(** The parameters of the session.  [expandedConfig] is the configuration that the
    settings give for a profile now. *)
Record SetupProjectParameters := mkSetupProjectParameters {
  overrideBuildGraphData : bool;
  forceProbeExecution : bool;
  topLevelProfile : str;
  newOverriddenValues : gmap str V;
  adjustedEnvironment : gmap str str;
  finalBuildConfigurationTree : gmap str V;
  expandedConfig : str → V
}.

(** The exceptions of [checkConfigCompatibility]. *)
Inductive LoadError := PropertyValuesDiffer | ProfileDiffers.

Definition checkConfigCompatibility (params : SetupProjectParameters) (rp : RestoredProject) :
    exn LoadError bool :=
  let prof := if is_nil (topLevelProfile params) then profile rp else topLevelProfile params in
  if negb (overrideBuildGraphData params) then
    if negb (bool_decide (newOverriddenValues params = ∅)) &&
       negb (map_eqb (newOverriddenValues params) (overriddenValues rp))
    then Throw PropertyValuesDiffer
    else if negb (bool_decide (prof = profile rp)) then Throw ProfileDiffers
    else Ok true
  else if negb (map_eqb (finalBuildConfigurationTree params) (buildConfiguration rp)) then Ok false
  else Ok (forallb (λ kv, variant_eqb (expandedConfig params kv.1) kv.2)
             (map_to_list (profileConfigs rp))).

Section Tracking.
Context (fs : FileSystem) (params : SetupProjectParameters) (rp : RestoredProject).

Definition probeExecutionForced o : bool :=
  if negb (forceProbeExecution params) then false
  else if projectHasProbes rp then true
  else existsb (λ p, hasProbes (productAt o p)) (allProducts rp).

Definition hasEnvironmentChanged : bool :=
  if negb (overrideBuildGraphData params) then false
  else negb (bool_decide (delete (lit "LD_PRELOAD") (environment rp) =
                          delete (lit "LD_PRELOAD") (adjustedEnvironment params))).

Definition hasCanonicalFilePathResultChanged : bool :=
  existsb (λ kv, negb (bool_decide (canonicalFilePathNow fs kv.1 = kv.2)))
    (map_to_list (canonicalFilePathResults rp)).

Definition hasFileExistsResultChanged : bool :=
  existsb (λ kv, negb (Bool.eqb (existsNow fs kv.1) kv.2)) (map_to_list (fileExistsResults rp)).

Definition hasDirectoryEntriesResultChanged : bool :=
  existsb (λ kv, negb (bool_decide (entryListNow fs kv.1 = kv.2)))
    (map_to_list (directoryEntriesResults rp)).

Definition hasFileLastModifiedResultChanged : bool :=
  existsb (λ kv, negb (lastModifiedNow fs kv.1 =? kv.2)%Z)
    (map_to_list (fileLastModifiedResults rp)).

(** Does a group with wildcards find other files than before?  Its patterns are
    expanded only if one of the directories has changed. *)
Definition wildcardsChanged (w : SourceWildCards) : bool :=
  existsb (λ '(dir, stamp), (lastModifiedNow fs dir >? stamp)%Z) (dirTimeStamps w) &&
  negb (bool_decide (expandedFiles w = list_to_set (wildcardFiles w))).

(** One round of [hasProductFileChanged]: [remainingBuildSystemFiles],
    [changedProducts] and [hasChanged]. *)
Definition productFileStep o (st : gset str * list nat * bool) (p : nat) :
    gset str * list nat * bool :=
  let '(files, changed, hasChanged) := st in
  let rpr := productAt o p in
  let filePath := projectFile rpr in
  let files := files ∖ {[ filePath ]} in
  if negb (existsNow fs filePath) then (files, changed, true)
  else if (lastStartResolveTime rp <? lastModifiedNow fs filePath)%Z then (files, changed, true)
  else if bool_decide (p ∈ changed) then (files, changed, hasChanged)
  else if existsb (existsNow fs) (missingSourceFiles rpr) then (files, changed ++ [p], true)
  else if existsb wildcardsChanged (groupWildcards rpr) then (files, changed ++ [p], true)
  else (files, changed, hasChanged).

Definition hasProductFileChanged o (files : gset str) (changed : list nat) :
    gset str * list nat * bool :=
  foldl (productFileStep o) (files, changed, false) (allProducts rp).

Definition buildSystemFileChanged (file : str) : bool :=
  if negb (existsNow fs file) then true
  else
    let fileWasCreatedByModuleProvider :=
      existsb (λ dir, bool_decide (take (length dir) file = dir)) (providerDirs rp) in
    let referenceTime := if fileWasCreatedByModuleProvider then lastEndResolveTime rp
                         else lastStartResolveTime rp in
    (referenceTime <? lastModifiedNow fs file)%Z.

Definition hasBuildSystemFileChanged (files : gset str) : bool :=
  existsb buildSystemFileChanged (elements files).

(** The first part of [trackProjectChanges]: is resolving necessary, and the
    products that have changed already. *)
Definition reResolvingNecessary o : exn LoadError (bool * list nat) :=
  let* compatible := checkConfigCompatibility params rp in
  let '(files, changed, fileChanged) := hasProductFileChanged o (buildSystemFiles rp) [] in
  Ok (negb compatible || fileChanged ||
      (probeExecutionForced o || hasBuildSystemFileChanged files || hasEnvironmentChanged ||
       hasCanonicalFilePathResultChanged || hasFileExistsResultChanged ||
       hasDirectoryEntriesResultChanged || hasFileLastModifiedResultChanged), changed).
End Tracking.

(** ** Moving the build data over *)

(** The nodes of the build data, the map from old to new rules and the rules of the
    transformers. *)
Definition findNewRule (contents : gmap nat RuleContent) (newRules : list nat)
    (oldRule : nat) (ruleMap : gmap nat nat) : exn BGError (nat * gmap nat nat) :=
  match ruleMap !! oldRule with
  | Some r => Ok (r, ruleMap)
  | None =>
      match list_find (λ r, rule_eqb (ruleContentIn contents r) (ruleContentIn contents oldRule) = true)
              newRules with
      | Some (_, r) => Ok (r, <[oldRule := r]> ruleMap)
      | None => Throw CheckFailed
      end
  end.

(** One round of the loop; the nodes that have been visited are kept in reverse. *)
Definition updateNode (contents : gmap nat RuleContent) (newRules : list nat) (q : nat)
    (n : LoadedNode) (st : list LoadedNode * gmap nat nat * gmap nat nat) :
    exn BGError (list LoadedNode * gmap nat nat * gmap nat nat) :=
  let '(visited, ruleMap, trs) := st in
  match n with
  | LoadedRuleNode _ r =>
      let* (r', ruleMap) := findNewRule contents newRules r ruleMap in
      Ok (LoadedRuleNode q r' :: visited, ruleMap, trs)
  | LoadedSource _ => Ok (LoadedSource q :: visited, ruleMap, trs)
  | LoadedGenerated _ None => Throw CheckFailed
  | LoadedGenerated _ (Some t) =>
      let* (r', ruleMap) := findNewRule contents newRules (default 0 (trs !! t)) ruleMap in
      Ok (LoadedGenerated q (Some t) :: visited, ruleMap, <[t := r']> trs)
  end.

Definition setBuildData (b : option (list LoadedNode)) (p : Product V) : Product V :=
  mkProduct (loadedName p) (loadedEnabled p) (loadedDependencies p) (loadedTags p)
    (loadedRules p) (artifactProperties p) (allEnabledFiles p) (loadedModuleProperties p)
    (projectFile p) (missingSourceFiles p) (groupWildcards p) (hasProbes p) b.

Definition updProduct (f : Product V → Product V) p o : Projects V :=
  mkProjects (alter f p (loadedProducts o)) (ruleContents o) (transformerRules o).

Definition updateProductAndRulePointers o q : exn BGError (Projects V) :=
  let np := productAt o q in
  let* (visited, _, trs) :=
    for_each (updateNode (ruleContents o) (loadedRules np) q) (default [] (loadedBuildData np))
      ([], ∅, transformerRules o) in
  let o := updProduct (setBuildData (Some (rev visited))) q o in
  Ok (mkProjects (loadedProducts o) (ruleContents o) trs).

(** [newlyResolvedProduct->buildData.swap(restoredProduct->buildData)] *)
Definition swapBuildData o q p : Projects V :=
  let bq := loadedBuildData (productAt o q) in
  let bp := loadedBuildData (productAt o p) in
  updProduct (setBuildData bq) p (updProduct (setBuildData bp) q o).

(** The loop over the newly resolved products.  A product that still needs build
    data stays in the list, but the iterator is not advanced when it has been
    matched with a restored product: it is looked up once more.  The result is the
    list that is left and the restored products that are left. *)
Fixpoint moveBuildData (fuel : nat) o (fresh restored : list nat) :
    exn BGError (Projects V * list nat * list nat) :=
  match fuel with
  | 0 => Throw OutOfFuel
  | S fuel =>
      match fresh with
      | [] => Ok (o, [], restored)
      | q :: fresh' =>
          match list_find (λ p, loadedName (productAt o q) = loadedName (productAt o p))
                  restored with
          | None =>
              let* (o, left, restored) := moveBuildData fuel o fresh' restored in
              Ok (o, q :: left, restored)
          | Some (k, p) =>
              let enabled := loadedEnabled (productAt o q) in
              let o := if enabled then swapBuildData o q p else o in
              let hasBuildData := bool_decide (is_Some (loadedBuildData (productAt o q))) in
              let* o := if hasBuildData then updateProductAndRulePointers o q else Ok o in
              moveBuildData fuel o (if negb enabled || hasBuildData then fresh' else fresh)
                (delete k restored)
          end
      end
  end.

(** ** [trackProjectChanges] after the newly resolved project is there

    What the loader calls for the artifacts, in the order of the calls. *)
Inductive Action :=
  | OnProductRemoved (p : nat) (removeArtifactsFromDisk : bool)
  | ResolveProductBuildData (freshProducts : list nat)
  | UpdateArtifactFromSourceArtifact (q : nat) (sa : SourceFile V)
  | UpdateGeneratedArtifacts (q : nat)
  | RescueOldBuildData (p q : nat).

Definition freshProductsByName o (fresh : list nat) : gmap str nat :=
  foldl (λ m q, <[loadedName (productAt o q) := q]> m) ∅ fresh.

(** [m_freshProductsByName.value(name)], which must not be null *)
Definition freshProduct (byName : gmap str nat) (name : str) : exn BGError nat :=
  match byName !! name with Some q => Ok q | None => Throw CheckFailed end.

Definition forgetPending (n : str) (s : Pending) : Pending :=
  mkPending (delete n (m_changedSourcesByProduct s)) (m_productsWhoseArtifactsNeedUpdate s ∖ {[ n ]}).

(** One round of the loop over the changed products. *)
Definition removeChanged o (byName : gmap str nat)
    (st : Pending * list nat * list Action) (p : nat) : Pending * list nat * list Action :=
  let '(s, restored, actions) := st in
  let name := loadedName (productAt o p) in
  let s := forgetPending name s in
  match byName !! name with
  | None => (s, restored, actions)
  | Some _ => (s, removeOne restored p, actions ++ [OnProductRemoved p false])
  end.

Definition sourceUpdates (byName : gmap str nat) (kv : str * list (SourceFile V))
    (actions : list Action) : exn BGError (list Action) :=
  let* q := freshProduct byName kv.1 in
  Ok (actions ++ (UpdateArtifactFromSourceArtifact q <$> kv.2)).

Definition generatedUpdates (byName : gmap str nat) (name : str) (actions : list Action) :
    exn BGError (list Action) :=
  let* q := freshProduct byName name in Ok (actions ++ [UpdateGeneratedArtifacts q]).

(** [rescueOldBuildData] requires the new product. *)
Definition rescues o (byName : gmap str nat) (p : nat) (actions : list Action) :
    exn BGError (list Action) :=
  let* q := freshProduct byName (loadedName (productAt o p)) in
  Ok (actions ++ [RescueOldBuildData p q]).

Definition noPending : Pending := mkPending ∅ ∅.

Definition trackProducts o (fresh restored changed : list nat) :
    exn BGError (Projects V * list Action) :=
  let byName := freshProductsByName o fresh in
  let '(changed, s) := checkAllProductsForChanges o byName restored changed noPending in
  let* changed := makeChangedProductsListComplete o changed restored in
  let '(s, restored, actions) := foldl (removeChanged o byName) (s, restored, []) changed in
  let* (o, toResolve, removed) :=
    moveBuildData (S (length fresh + length restored)) o fresh restored in
  let changed := foldl removeOne changed removed in
  let actions := actions ++ ((λ p, OnProductRemoved p true) <$> removed) in
  let actions := actions ++ (if is_nil toResolve then [] else [ResolveProductBuildData toResolve]) in
  let* actions := for_each (sourceUpdates byName) (map_to_list (m_changedSourcesByProduct s)) actions in
  let* actions := for_each (generatedUpdates byName)
                    (elements (m_productsWhoseArtifactsNeedUpdate s)) actions in
  let* actions := for_each (rescues o byName) changed actions in
  Ok (o, actions).
End Loader.
Arguments Pending V : clear implicits.
Arguments Action V : clear implicits.
