(* ===== verification/BuildGraphLoaderCorrect.v ===== *)
(** * What the build graph loader keeps

    [makeChangedProductsListComplete] computes exactly the products that depend on a
    changed product, the comparison of rule lists guarantees that every rule is found
    again in the new product, and [trackProducts] gives the old build data to exactly
    the products that have not changed and depend on no changed product. *)

From stdpp Require Import gmultiset.
From S2P Require Import Prelude FlatSet BuildGraph StateMonad ChangeTracking BuildGraphLoader.

(** ** Comparing lists *)

Section Lists.
Context {A : Type} (key : A → str).

Lemma listToMap_snoc l x : listToMap key (l ++ [x]) = <[key x := x]> (listToMap key l).
Proof. unfold listToMap. by rewrite foldl_app. Qed.

(** The map has the last element with a key. *)
Lemma listToMap_Some l k x : listToMap key l !! k = Some x → x ∈ l ∧ key x = k.
Proof.
  induction l as [|y l IH] using rev_ind; [done|]. rewrite listToMap_snoc.
  destruct (decide (key y = k)) as [<-|Hk].
  - rewrite lookup_insert_eq. intros [= ->]. set_solver.
  - rewrite lookup_insert_ne by done. intros [? ?]%IH. set_solver.
Qed.

Lemma listToMap_NoDup l x : NoDup (key <$> l) → x ∈ l → listToMap key l !! key x = Some x.
Proof.
  induction l as [|y l IH] using rev_ind; [by intros _ ?%not_elem_of_nil|].
  rewrite listToMap_snoc, fmap_app, NoDup_app. intros (N & D & _) [Hx|Hx]%elem_of_app.
  - rewrite lookup_insert_ne; [by apply IH|]. intros E. apply (D (key x)).
    + by apply list_elem_of_fmap_2.
    + rewrite <- E. set_solver.
  - apply list_elem_of_singleton in Hx as ->. by rewrite lookup_insert_eq.
Qed.

Context (equals : A → A → bool).

(** Lists with distinct keys are equal if they have equal elements for equal keys;
    of lists with other keys only the last element for each key is compared. *)
Lemma listsAreEqual_spec l1 l2 :
  listsAreEqual key equals l1 l2 = true ↔
  length l1 = length l2 ∧
  ∀ k x, listToMap key l1 !! k = Some x →
    ∃ y, listToMap key l2 !! k = Some y ∧ equals x y = true.
Proof.
  unfold listsAreEqual. destruct (length l1 =? length l2) eqn:E; simpl.
  - apply Nat.eqb_eq in E. rewrite forallb_forall. split.
    + intros H. split; [done|]. intros k x Hx.
      specialize (H (k, x)). rewrite <- list_elem_of_In, elem_of_map_to_list in H.
      specialize (H Hx). simpl in H. destruct (listToMap key l2 !! k); [eauto|done].
    + intros [_ H] [k x] Hk. rewrite <- list_elem_of_In, elem_of_map_to_list in Hk.
      simpl. destruct (H k x Hk) as (y & -> & ?). done.
  - apply Nat.eqb_neq in E. naive_solver.
Qed.

Lemma listsAreEqual_elem l1 l2 x :
  NoDup (key <$> l1) → listsAreEqual key equals l1 l2 = true → x ∈ l1 →
  ∃ y, y ∈ l2 ∧ equals x y = true.
Proof.
  intros N [_ H]%listsAreEqual_spec Hx.
  destruct (H _ _ (listToMap_NoDup l1 x N Hx)) as (y & [Hy _]%listToMap_Some & ?). eauto.
Qed.
End Lists.

(** ** Products that depend on changed products *)

Section Closure.
Context {V : Type} {Q : QtVariant V} (o : Projects V).

Definition dependsOn (p d : nat) : Prop := d ∈ loadedDependencies (productAt o p).

Definition acyclicProducts : Prop := ∀ p, ¬ tc dependsOn p p.

(** Depends on an element of the list, or is one. *)
Definition dependsOnOneOf (l : list nat) (p : nat) : Prop := ∃ c, c ∈ l ∧ rtc dependsOn p c.

Hypothesis acyclic_o : acyclicProducts.
Hypothesis closed_o : ∀ p d, p ∈ dom (loadedProducts o) → dependsOn p d → d ∈ dom (loadedProducts o).
Variable changed0 : list nat.

(** The state of the search: the products that were added, and those that are known
    not to depend on a changed product. *)
Record searched (st : list nat * gset nat) : Prop := mkSearched {
  se_changed : ∀ x, x ∈ st.1 → dependsOnOneOf changed0 x;
  se_initial : changed0 `prefix_of` st.1;
  se_nodup : NoDup st.1;
  se_seen : ∀ x, x ∈ st.2 → ¬ dependsOnOneOf changed0 x
}.

(** What visiting [p] adds is reachable from [p]. *)
Definition extends (p : nat) (st st' : list nat * gset nat) : Prop :=
  st.1 `prefix_of` st'.1 ∧ ∀ x, x ∈ st'.1 → x ∈ st.1 ∨ rtc dependsOn p x.

Lemma dependsOnOneOf_step p :
  dependsOnOneOf changed0 p ↔ p ∈ changed0 ∨ ∃ d, dependsOn p d ∧ dependsOnOneOf changed0 d.
Proof.
  split.
  - intros (c & Hc & Hr). apply rtc_inv in Hr as [->|(d & Hd & Hr)]; [by left|].
    right. exists d. split; [done|]. by exists c.
  - intros [Hp|(d & Hd & c & Hc & Hr)]; [by exists p|]. exists c. split; [done|].
    by apply rtc_l with d.
Qed.

Definition visits (f : nat → list nat * gset nat → exn BGError (bool * (list nat * gset nat)))
    (p : nat) : Prop :=
  ∀ st, searched st → ∃ b st', f p st = Ok (b, st') ∧ searched st' ∧ extends p st st' ∧
    (b = true → p ∈ st'.1) ∧ (b = true ↔ dependsOnOneOf changed0 p).

Lemma anyChanged_spec f p ds st :
  (∀ d, d ∈ ds → dependsOn p d ∧ visits f d) → searched st →
  ∃ b st', anyChanged f ds st = Ok (b, st') ∧ searched st' ∧
    st.1 `prefix_of` st'.1 ∧ (∀ x, x ∈ st'.1 → x ∈ st.1 ∨ tc dependsOn p x) ∧
    (b = true ↔ ∃ d, d ∈ ds ∧ dependsOnOneOf changed0 d).
Proof.
  revert st. induction ds as [|d ds IH]; intros st Hf S; simpl.
  { exists false, st. split; [done|]. split; [done|]. split; [done|]. split; [auto|].
    split; [done|]. by intros (d & ?%not_elem_of_nil & _). }
  destruct (Hf d) as [Hd Hv]; [left|].
  destruct (Hv st S) as (b & st' & -> & S' & [P R] & _ & Hb). simpl.
  assert (∀ x, x ∈ st'.1 → x ∈ st.1 ∨ tc dependsOn p x) as R'.
  { intros x [?|Hx]%R; [by left|]. right. by apply tc_rtc_r with d; [apply tc_once|]. }
  destruct b.
  { exists true, st'. split; [done|]. split; [done|]. split; [done|]. split; [done|].
    split; [|done]. intros _. exists d. split; [left|]. by apply Hb. }
  destruct (IH st') as (b & st'' & -> & S'' & P2 & R2 & Hb2); [|done|].
  { intros d' Hd'. apply Hf. by right. }
  exists b, st''. split; [done|]. split; [done|]. split; [by etrans|]. split.
  { intros x [Hx|]%R2; [|by right]. by apply R'. }
  rewrite Hb2. split; [intros (d' & ? & ?); exists d'; split; [by right|done]|].
  intros (d' & Hd' & Hc). apply elem_of_cons in Hd' as [->|?]; [|by exists d'].
  by apply Hb in Hc.
Qed.

Lemma checkProductForChangedDependency_visits fuel anc p :
  p ∈ dom (loadedProducts o) → anc ⊆ dom (loadedProducts o) → (∀ a, a ∈ anc → tc dependsOn a p) →
  size (dom (loadedProducts o) ∖ anc) < fuel →
  visits (checkProductForChangedDependency fuel o) p.
Proof.
  revert anc p. induction fuel as [|fuel IH]; intros anc p Hp Hanc Htc Hsz [changed seen] S; [lia|].
  simpl. case_bool_decide as Hseen.
  { exists false, (changed, seen). split; [done|]. split; [done|].
    split; [split; [done|auto]|]. split; [done|]. split; [done|].
    intros ?. by destruct (se_seen _ S p Hseen). }
  case_bool_decide as Hch.
  { exists true, (changed, seen). split; [done|]. split; [done|].
    split; [split; [done|auto]|]. split; [done|]. split; [|done]. intros _.
    by apply (se_changed _ S). }
  destruct (anyChanged_spec (checkProductForChangedDependency fuel o) p
    (loadedDependencies (productAt o p)) (changed, seen))
    as (b & [changed' seen'] & -> & S' & P & R & Hb); [|done|].
  { intros d Hd. split; [done|]. apply (IH (anc ∪ {[ p ]})).
    - by apply (closed_o p).
    - set_solver.
    - intros a [Ha| ->%elem_of_singleton]%elem_of_union; [|by apply tc_once].
      eapply tc_r; [by apply Htc|exact Hd].
    - assert (p ∉ anc) by (intros Ha%Htc; by apply (acyclic_o p)).
      assert (dom (loadedProducts o) ∖ (anc ∪ {[ p ]}) ⊂ dom (loadedProducts o) ∖ anc)
        as ?%subset_size by set_solver. lia. }
  simpl. simpl in P, R. assert (p ∉ changed') as Hp'.
  { intros [?|?%acyclic_o]%R; done. }
  assert (p ∉ changed0) as Hp0.
  { intros ?. apply Hp'. by apply (elem_of_prefix changed0); [|apply (se_initial _ S')]. }
  destruct b.
  - exists true, (changed' ++ [p], seen').
    assert (dependsOnOneOf changed0 p) as Hdep.
    { apply dependsOnOneOf_step. right. by apply Hb. }
    split; [done|]. split; [split; simpl|split; [split; simpl|]].
    + intros x [Hx| ->%list_elem_of_singleton]%elem_of_app; [by apply (se_changed _ S')|done].
    + apply prefix_app_r, (se_initial _ S').
    + apply NoDup_app. split; [apply (se_nodup _ S')|]. split; [|apply NoDup_singleton].
      intros x Hx ->%list_elem_of_singleton. done.
    + apply (se_seen _ S').
    + by apply prefix_app_r.
    + intros x [Hx| ->%list_elem_of_singleton]%elem_of_app; [|by right].
      apply R in Hx as [?|?]; [by left|]. right. by apply tc_rtc.
    + split; [set_solver|]. done.
  - assert (¬ dependsOnOneOf changed0 p) as Hdep.
    { rewrite dependsOnOneOf_step. intros [?|(d & Hd)]; [done|].
      assert (false = true); [|done]. apply Hb. by exists d. }
    exists false, (changed', {[ p ]} ∪ seen').
    split; [done|]. split; [split; simpl|split; [split; simpl|]]; try apply S'; try done.
    + intros x [->%elem_of_singleton|Hx]%elem_of_union; [done|]. by apply (se_seen _ S').
    + intros x [?|?]%R; [by left|]. right. by apply tc_rtc.
Qed.

Lemma makeChangedProductsListComplete_spec restored :
  NoDup changed0 → changed0 ⊆ restored → (∀ p, p ∈ restored → p ∈ dom (loadedProducts o)) →
  (∀ p d, p ∈ restored → dependsOn p d → d ∈ restored) →
  ∃ changed, makeChangedProductsListComplete o changed0 restored = Ok changed ∧
    NoDup changed ∧ changed0 `prefix_of` changed ∧
    ∀ x, x ∈ changed ↔ x ∈ restored ∧ dependsOnOneOf changed0 x.
Proof.
  intros N Hsub Hdom Hcl. unfold makeChangedProductsListComplete.
  set (f := λ p st, _ : exn BGError (list nat * gset nat)).
  assert (∀ l st, l ⊆ restored → searched st →
    ∃ st', for_each f l st = Ok st' ∧ searched st' ∧ st.1 `prefix_of` st'.1 ∧
      (∀ x, x ∈ st'.1 → x ∈ st.1 ∨ x ∈ restored) ∧
      (∀ x, x ∈ l → dependsOnOneOf changed0 x → x ∈ st'.1)) as Hloop.
  { assert (∀ p x, rtc dependsOn p x → p ∈ restored → x ∈ restored) as Hrtc.
    { intros p x Hr. induction Hr; [done|]. eauto. }
    intros l. induction l as [|p l IH]; intros st Hl S; simpl.
    { exists st. split; [done|]. split; [done|]. split; [done|]. split; [auto|].
      by intros x ?%not_elem_of_nil. }
    assert (p ∈ restored) as Hp by (apply Hl; left).
    destruct (checkProductForChangedDependency_visits (dependencyFuel o) ∅ p) with st
      as (b & st1 & E & S1 & [P1 R1] & B1 & B2); [by apply Hdom|set_solver|set_solver| |done|].
    { rewrite difference_empty_L, size_dom. unfold dependencyFuel. lia. }
    unfold f at 1. rewrite E. simpl.
    destruct (IH st1) as (st2 & -> & S2 & P2 & R2 & C2); [set_solver|done|].
    exists st2. split; [done|]. split; [done|]. split; [by etrans|]. split.
    - intros x [[?|?]%R1|?]%R2; [by left| |by right]. right. by apply (Hrtc p).
    - intros x [->|Hx]%elem_of_cons Hc; [|by apply C2].
      apply (elem_of_prefix st1.1); [|done]. apply B1. by apply B2. }
  destruct (Hloop restored (changed0, ∅)) as ([changed seen] & -> & S & P & R & C); [done| |].
  { split; simpl; [|done|done|set_solver]. intros x Hx. by exists x. }
  exists changed. split; [done|]. split; [apply S|]. split; [done|]. simpl in *.
  intros x. split; [|naive_solver]. intros Hx. split; [|by apply (se_changed _ S)].
  destruct (R x Hx); [by apply Hsub|done].
Qed.
End Closure.

(** ** Rules that are found again *)

(** What [rule_eqb] compares, with the bindings as multisets. *)
Definition artifactContent (a : RuleArtifact) :=
  (artifactPath a, artifactTags a, alwaysUpdated a, list_to_set_disj (C := gmultiset (str * list str)) (bindings a)).

Definition comparedContent (r : RuleContent) :=
  (artifactContent <$> artifacts r, ruleModule r, prepareScript r, outputArtifactsScript r,
   (ruleInputs r, outputFileTags r, ruleAuxiliaryInputs r, ruleExcludedInputs r,
    ruleInputsFromDependencies r, ruleExplicitlyDependsOn r,
    ruleExplicitlyDependsOnFromDependencies r),
   (ruleMultiplex r, ruleRequiresInputs r, alwaysRun r)).

Lemma ruleArtifact_eqb_spec a1 a2 :
  ruleArtifact_eqb a1 a2 = true ↔ artifactContent a1 = artifactContent a2.
Proof.
  unfold ruleArtifact_eqb, artifactContent.
  rewrite !andb_true_iff, !bool_decide_eq_true, Bool.eqb_true_iff.
  split; [intros; destruct_and!; congruence|by intros [= -> -> -> ->]].
Qed.

Lemma all2_spec {A B} (f : A → A → bool) (g : A → B) l1 l2 :
  (∀ x y, f x y = true ↔ g x = g y) → all2 f l1 l2 = true ↔ g <$> l1 = g <$> l2.
Proof.
  intros Hf. revert l2. induction l1 as [|x l1 IH]; intros [|y l2]; simpl; [done|done|done|].
  rewrite andb_true_iff, Hf, IH. split; [by intros [? ?]; f_equal|]. by intros [= ? ?].
Qed.

Lemma rule_eqb_spec r1 r2 : rule_eqb r1 r2 = true ↔ comparedContent r1 = comparedContent r2.
Proof.
  unfold rule_eqb, comparedContent.
  rewrite !andb_true_iff, !bool_decide_eq_true, !Bool.eqb_true_iff,
    (all2_spec _ artifactContent) by apply ruleArtifact_eqb_spec.
  split; [intros; destruct_and!; congruence|]. intros [=]. by repeat split.
Qed.

Section Rules.
Context {V : Type} {Q : QtVariant V}.
Implicit Types (o : Projects V) (p q : nat).

Definition contentOf (contents : gmap nat RuleContent) (r : nat) :=
  comparedContent (ruleContentIn contents r).

(** The new product has a rule with the content of [r]. *)
Definition hasRule (contents : gmap nat RuleContent) (newRules : list nat) (r : nat) : Prop :=
  ∃ r', r' ∈ newRules ∧ contentOf contents r' = contentOf contents r.

Definition ruleOfTransformer (trs : gmap nat nat) (t : nat) : nat := default 0 (trs !! t).

(** The rules of the node, directly or through its transformer, are found again. *)
Definition nodeOk (contents : gmap nat RuleContent) (trs : gmap nat nat) (newRules : list nat)
    (n : LoadedNode) : Prop :=
  match n with
  | LoadedRuleNode _ r => hasRule contents newRules r
  | LoadedSource _ => True
  | LoadedGenerated _ None => False
  | LoadedGenerated _ (Some t) => hasRule contents newRules (ruleOfTransformer trs t)
  end.

(** The node points to the new product [q] and its rules. *)
Definition nodeMoved (contents : gmap nat RuleContent) (newRules : list nat) q
    (n n' : LoadedNode) : Prop :=
  match n, n' with
  | LoadedRuleNode _ r, LoadedRuleNode q' r' =>
      q' = q ∧ r' ∈ newRules ∧ contentOf contents r' = contentOf contents r
  | LoadedSource _, LoadedSource q' => q' = q
  | LoadedGenerated _ t, LoadedGenerated q' t' => q' = q ∧ t' = t
  | _, _ => False
  end.

(** The transformers still have rules with the same content. *)
Definition sameTransformers (contents : gmap nat RuleContent) (trs trs' : gmap nat nat) : Prop :=
  ∀ t, contentOf contents (ruleOfTransformer trs' t) = contentOf contents (ruleOfTransformer trs t).

#[local] Instance sameTransformers_preorder contents : PreOrder (sameTransformers contents).
Proof. split; [done|]. intros t1 t2 t3 H1 H2 t. by rewrite H2. Qed.

Lemma hasRule_content contents newRules r1 r2 :
  contentOf contents r1 = contentOf contents r2 →
  hasRule contents newRules r1 → hasRule contents newRules r2.
Proof. intros E (r' & ? & E'). exists r'. split; [done|]. by rewrite E'. Qed.

Lemma nodeOk_mono contents trs trs' newRules n :
  sameTransformers contents trs trs' → nodeOk contents trs newRules n → nodeOk contents trs' newRules n.
Proof.
  intros S. destruct n as [? r|?|? [t|]]; simpl; try done.
  intros H. eapply hasRule_content; [|exact H]. symmetry. apply S.
Qed.

Definition goodRuleMap (contents : gmap nat RuleContent) (newRules : list nat)
    (ruleMap : gmap nat nat) : Prop :=
  ∀ r r', ruleMap !! r = Some r' → r' ∈ newRules ∧ contentOf contents r' = contentOf contents r.

Lemma findNewRule_spec contents newRules r ruleMap :
  goodRuleMap contents newRules ruleMap → hasRule contents newRules r →
  ∃ r' ruleMap', findNewRule contents newRules r ruleMap = Ok (r', ruleMap') ∧
    goodRuleMap contents newRules ruleMap' ∧ r' ∈ newRules ∧
    contentOf contents r' = contentOf contents r.
Proof.
  intros G (r0 & Hr0 & E0). unfold findNewRule. destruct (ruleMap !! r) as [r'|] eqn:Er.
  { exists r', ruleMap. split; [done|]. split; [done|]. by apply G. }
  destruct (list_find _ newRules) as [[i r']|] eqn:F.
  - apply list_find_Some in F as (Hi & Heq%rule_eqb_spec & _).
    assert (r' ∈ newRules) by by apply list_elem_of_lookup_2 with i.
    exists r', (<[r := r']> ruleMap). split; [done|]. split; [|done].
    intros r1 r1'. destruct (decide (r1 = r)) as [->|].
    + rewrite lookup_insert_eq. by intros [= <-].
    + rewrite lookup_insert_ne by done. apply G.
  - apply list_find_None in F. rewrite Forall_forall in F. destruct (F r0 Hr0).
    by apply rule_eqb_spec.
Qed.

Lemma updateNode_spec contents newRules q n visited ruleMap trs :
  goodRuleMap contents newRules ruleMap → nodeOk contents trs newRules n →
  ∃ n' ruleMap' trs',
    updateNode contents newRules q n (visited, ruleMap, trs) = Ok (n' :: visited, ruleMap', trs') ∧
    goodRuleMap contents newRules ruleMap' ∧ nodeMoved contents newRules q n n' ∧
    sameTransformers contents trs trs' ∧
    (∀ t, trs' !! t = trs !! t ∨
          ruleOfTransformer trs' t ∈ newRules ∧ ∃ p, n = LoadedGenerated p (Some t)) ∧
    (∀ p t, n = LoadedGenerated p (Some t) → ruleOfTransformer trs' t ∈ newRules).
Proof.
  intros G Hn. destruct n as [p r|p|p [t|]]; simpl in *; [| |..|done].
  - destruct (findNewRule_spec _ _ _ _ G Hn) as (r' & rm' & -> & G' & ? & ?). simpl.
    eexists _, _, _. split; [done|]. split; [done|]. split; [done|]. split; [done|].
    split; [by left|done].
  - eexists _, _, _. split; [done|]. split; [done|]. split; [done|]. split; [done|].
    split; [by left|done].
  - destruct (findNewRule_spec _ _ _ _ G Hn) as (r' & rm' & E & G' & ? & ?).
    unfold ruleOfTransformer in E. rewrite E. simpl.
    eexists _, _, _. split; [done|]. split; [done|]. split; [done|]. split; [|split].
    + intros t1. unfold ruleOfTransformer. destruct (decide (t1 = t)) as [->|].
      * by rewrite lookup_insert_eq.
      * by rewrite lookup_insert_ne by done.
    + intros t1. unfold ruleOfTransformer. destruct (decide (t1 = t)) as [->|].
      * right. rewrite lookup_insert_eq. eauto.
      * left. by rewrite lookup_insert_ne by done.
    + intros p' t1 [= _ ->]. unfold ruleOfTransformer. by rewrite lookup_insert_eq.
Qed.

Lemma updateNodes_spec contents newRules q ns visited ruleMap trs :
  goodRuleMap contents newRules ruleMap → Forall (nodeOk contents trs newRules) ns →
  ∃ ns' ruleMap' trs',
    for_each (updateNode contents newRules q) ns (visited, ruleMap, trs) =
      Ok (rev ns' ++ visited, ruleMap', trs') ∧
    Forall2 (nodeMoved contents newRules q) ns ns' ∧
    sameTransformers contents trs trs' ∧
    (∀ t, trs' !! t = trs !! t ∨
          ruleOfTransformer trs' t ∈ newRules ∧ ∃ p, LoadedGenerated p (Some t) ∈ ns) ∧
    (∀ p t, LoadedGenerated p (Some t) ∈ ns → ruleOfTransformer trs' t ∈ newRules).
Proof.
  revert visited ruleMap trs. induction ns as [|n ns IH]; intros visited ruleMap trs G Hns; cbn [for_each].
  { eexists [], _, _. split; [done|]. split; [done|]. split; [done|]. split; [by left|].
    by intros ? ? ?%not_elem_of_nil. }
  apply Forall_cons in Hns as [Hn Hns].
  destruct (updateNode_spec contents newRules q n visited ruleMap trs G Hn)
    as (n' & rm1 & trs1 & -> & G1 & M1 & S1 & C1 & T1). cbn [exn_bind].
  destruct (IH (n' :: visited) rm1 trs1 G1) as (ns' & rm2 & trs2 & -> & M2 & S2 & C2 & T2).
  { eapply Forall_impl; [exact Hns|]. intros x. by apply nodeOk_mono. }
  assert (∀ t, ruleOfTransformer trs1 t ∈ newRules → ruleOfTransformer trs2 t ∈ newRules) as Keep.
  { intros t Ht. destruct (C2 t) as [E|[? _]]; [|done]. unfold ruleOfTransformer. by rewrite E. }
  exists (n' :: ns'), rm2, trs2. split; [simpl; by rewrite <- app_assoc|].
  split; [by constructor|]. split; [by etrans|]. split.
  - intros t. destruct (C2 t) as [E2|(? & p & ?)]; [|right; split; [done|]; exists p; by right].
    destruct (C1 t) as [E1|(? & p & ->)]; [left; by rewrite E2|].
    right. split; [by apply Keep|]. exists p. left.
  - intros p t [E|Hin]%elem_of_cons; [|by eapply T2]. apply Keep. by eapply T1.
Qed.

(** ** Moving the build data of one product *)

Definition nameOf o p : str := loadedName (productAt o p).
Definition enabledOf o p : bool := loadedEnabled (productAt o p).
Definition dataOfProduct o p : option (list LoadedNode) := loadedBuildData (productAt o p).

(** Only build data and the rules of transformers are different. *)
Record sameProducts o o' : Prop := mkSameProducts {
  sp_dom : dom (loadedProducts o') = dom (loadedProducts o);
  sp_product x : setBuildData None (productAt o' x) = setBuildData None (productAt o x);
  sp_contents : ruleContents o' = ruleContents o;
  sp_transformers : sameTransformers (ruleContents o) (transformerRules o) (transformerRules o')
}.

#[local] Instance sameProducts_preorder : PreOrder sameProducts.
Proof.
  split; [done|]. intros o1 o2 o3 [D1 P1 C1 T1] [D2 P2 C2 T2]. split.
  - by rewrite D2.
  - intros x. by rewrite P2.
  - by rewrite C2.
  - rewrite C1 in T2. by etrans.
Qed.

Lemma same_name o o' x : sameProducts o o' → nameOf o' x = nameOf o x.
Proof. intros S. exact (f_equal loadedName (sp_product _ _ S x)). Qed.
Lemma same_enabled o o' x : sameProducts o o' → enabledOf o' x = enabledOf o x.
Proof. intros S. exact (f_equal loadedEnabled (sp_product _ _ S x)). Qed.
Lemma same_rules o o' x :
  sameProducts o o' → loadedRules (productAt o' x) = loadedRules (productAt o x).
Proof. intros S. exact (f_equal loadedRules (sp_product _ _ S x)). Qed.

Lemma productAt_upd_eq f p o :
  p ∈ dom (loadedProducts o) → productAt (updProduct f p o) p = f (productAt o p).
Proof.
  intros [x Hx]%elem_of_dom. unfold productAt, updProduct. simpl.
  by rewrite lookup_alter_eq, Hx.
Qed.

Lemma productAt_upd_ne f p x o : x ≠ p → productAt (updProduct f p o) x = productAt o x.
Proof. intros H. unfold productAt, updProduct. simpl. by rewrite lookup_alter_ne. Qed.

Lemma updProduct_same b p o : sameProducts o (updProduct (setBuildData b) p o).
Proof.
  split; simpl; [apply dom_alter_L| |done|done]. intros x.
  destruct (decide (x = p)) as [->|]; [|by rewrite productAt_upd_ne].
  unfold productAt, updProduct. simpl. rewrite lookup_alter_eq.
  by destruct (loadedProducts o !! p).
Qed.

Lemma swapBuildData_spec o q p :
  q ∈ dom (loadedProducts o) → p ∈ dom (loadedProducts o) → q ≠ p →
  sameProducts o (swapBuildData o q p) ∧ transformerRules (swapBuildData o q p) = transformerRules o ∧
  dataOfProduct (swapBuildData o q p) q = dataOfProduct o p ∧
  dataOfProduct (swapBuildData o q p) p = dataOfProduct o q ∧
  ∀ x, x ≠ q → x ≠ p → dataOfProduct (swapBuildData o q p) x = dataOfProduct o x.
Proof.
  intros Hq Hp Hne. unfold swapBuildData, dataOfProduct.
  split; [etrans; apply updProduct_same|]. split; [done|]. split; [|split].
  - by rewrite productAt_upd_ne, productAt_upd_eq by done.
  - rewrite productAt_upd_eq; [done|]. simpl. by rewrite dom_alter_L.
  - intros x ? ?. by rewrite !productAt_upd_ne by done.
Qed.

(** All generated artifacts have a transformer whose rule is one of [newRules]. *)
Definition transformersUpdated (trs : gmap nat nat) (newRules : list nat) (ns : list LoadedNode) :
    Prop :=
  ∀ p t, LoadedGenerated p (Some t) ∈ ns → ruleOfTransformer trs t ∈ newRules.

(** [q] has the nodes [ns] of another product now, pointing to [q] and its rules. *)
Definition movedTo o q (ns : list LoadedNode) : Prop :=
  ∃ ns', dataOfProduct o q = Some ns' ∧
    Forall2 (nodeMoved (ruleContents o) (loadedRules (productAt o q)) q) ns ns' ∧
    transformersUpdated (transformerRules o) (loadedRules (productAt o q)) ns.

(** The transformers of other nodes than [ns] are as they were. *)
Definition onlyTransformersOf (P : list LoadedNode → Prop) (trs trs' : gmap nat nat) : Prop :=
  ∀ t, trs' !! t = trs !! t ∨ ∃ ns p, P ns ∧ LoadedGenerated p (Some t) ∈ ns.

Lemma updateProductAndRulePointers_spec o q ns :
  q ∈ dom (loadedProducts o) → dataOfProduct o q = Some ns →
  Forall (nodeOk (ruleContents o) (transformerRules o) (loadedRules (productAt o q))) ns →
  ∃ o', updateProductAndRulePointers o q = Ok o' ∧ sameProducts o o' ∧ movedTo o' q ns ∧
    onlyTransformersOf (eq ns) (transformerRules o) (transformerRules o') ∧
    ∀ x, x ≠ q → dataOfProduct o' x = dataOfProduct o x.
Proof.
  intros Hq Hd Hok. unfold updateProductAndRulePointers. unfold dataOfProduct in Hd. rewrite Hd.
  destruct (updateNodes_spec (ruleContents o) (loadedRules (productAt o q)) q ns [] ∅
    (transformerRules o)) as (ns' & rm & trs & E & M & S & C & T); [done|done|].
  simpl default. rewrite E. cbn [exn_bind]. eexists. split; [done|].
  rewrite app_nil_r, rev_involutive.
  set (o1 := updProduct (setBuildData (Some ns')) q o).
  assert (sameProducts o o1) as S1 by apply updProduct_same.
  assert (∀ x, productAt (mkProjects (loadedProducts o1) (ruleContents o1) trs) x = productAt o1 x)
    as Hat by done.
  split; [|split; [|split]].
  - split; simpl; [apply S1|apply S1|done|done].
  - exists ns'. unfold dataOfProduct. rewrite Hat. unfold o1 at 1.
    rewrite productAt_upd_eq by done. split; [done|]. rewrite (same_rules o o1 q S1).
    split; [exact M|exact T].
  - intros t. destruct (C t) as [?|(_ & p & ?)]; [by left|]. right. eauto.
  - intros x Hx. unfold dataOfProduct. rewrite Hat. unfold o1. by rewrite productAt_upd_ne.
Qed.

(** ** The loop over the new products *)

Lemma fmap_sublist {A B} (f : A → B) l l' : l `sublist_of` l' → (f <$> l) `sublist_of` (f <$> l').
Proof. induction 1; simpl; by constructor. Qed.

Record movable o (fresh restored : list nat) : Prop := mkMovable {
  mv_distinct : NoDup (fresh ++ restored);
  mv_dom : fresh ++ restored ⊆ elements (dom (loadedProducts o));
  mv_fresh_names : NoDup (nameOf o <$> fresh);
  mv_restored_names : NoDup (nameOf o <$> restored);
  mv_fresh_data q : q ∈ fresh → dataOfProduct o q = None;
  mv_nodes q p ns : q ∈ fresh → p ∈ restored → nameOf o q = nameOf o p → dataOfProduct o p = Some ns →
    Forall (nodeOk (ruleContents o) (transformerRules o) (loadedRules (productAt o q))) ns;
  mv_transformers p1 p2 ns1 ns2 x1 x2 t : p1 ∈ restored → p2 ∈ restored →
    dataOfProduct o p1 = Some ns1 → dataOfProduct o p2 = Some ns2 →
    LoadedGenerated x1 (Some t) ∈ ns1 → LoadedGenerated x2 (Some t) ∈ ns2 → p1 = p2
}.

(** [q] takes over the nodes [ns] of the restored product [p]. *)
Definition takesOver o (restored : list nat) q p (ns : list LoadedNode) : Prop :=
  p ∈ restored ∧ nameOf o q = nameOf o p ∧ enabledOf o q = true ∧ dataOfProduct o p = Some ns.

Definition nodesOf o (l : list nat) (ns : list LoadedNode) : Prop :=
  ∃ p, p ∈ l ∧ dataOfProduct o p = Some ns.

Lemma nameOf_inj o l x y : NoDup (nameOf o <$> l) → x ∈ l → y ∈ l → nameOf o x = nameOf o y → x = y.
Proof.
  induction l as [|z l IH]; [by intros _ ?%not_elem_of_nil|]. rewrite fmap_cons, NoDup_cons.
  intros [Hz N] [->|Hx]%elem_of_cons [->|Hy]%elem_of_cons E; [done| | |by apply IH].
  - destruct Hz. rewrite E. by apply list_elem_of_fmap_2.
  - destruct Hz. rewrite <- E. by apply list_elem_of_fmap_2.
Qed.

Lemma movable_dom o fresh restored x :
  movable o fresh restored → x ∈ fresh ∨ x ∈ restored → x ∈ dom (loadedProducts o).
Proof. intros M H. apply elem_of_elements, (mv_dom _ _ _ M). set_solver. Qed.

(** What [takesOver] needs to carry over from one state of the projects to another. *)
Lemma movable_weaken o o' fresh fresh' restored restored' :
  movable o fresh restored → sameProducts o o' →
  sublist fresh' fresh → sublist restored' restored →
  (∀ x, x ∈ restored' ∨ x ∈ fresh' → dataOfProduct o' x = dataOfProduct o x) →
  movable o' fresh' restored'.
Proof.
  intros M S Hf Hr Hd.
  assert (∀ x, x ∈ fresh' → x ∈ fresh) as Sf
    by (intros x Hx; by eapply elem_of_sublist).
  assert (∀ x, x ∈ restored' → x ∈ restored) as Sr
    by (intros x Hx; by eapply elem_of_sublist).
  assert (∀ l : list nat, nameOf o' <$> l = nameOf o <$> l) as Hn.
  { intros l. apply list_fmap_ext. intros. by apply same_name. }
  split.
  - eapply sublist_NoDup; [apply (mv_distinct _ _ _ M)|]. by apply sublist_app.
  - rewrite (sp_dom _ _ S). intros x Hx. apply (mv_dom _ _ _ M). set_solver.
  - rewrite Hn. eapply sublist_NoDup; [apply (mv_fresh_names _ _ _ M)|]. by apply fmap_sublist.
  - rewrite Hn. eapply sublist_NoDup; [apply (mv_restored_names _ _ _ M)|]. by apply fmap_sublist.
  - intros q Hq. rewrite Hd by by right. apply (mv_fresh_data _ _ _ M). by apply Sf.
  - intros q p ns Hq Hp. rewrite !(same_name o o') by done. rewrite Hd by by left.
    intros En Ed. pose proof (mv_nodes _ _ _ M q p ns (Sf _ Hq) (Sr _ Hp) En Ed) as H.
    rewrite (same_rules o o'), (sp_contents _ _ S) by done.
    eapply Forall_impl; [exact H|]. intros n. apply nodeOk_mono, (sp_transformers _ _ S).
  - intros p1 p2 ns1 ns2 x1 x2 t H1 H2. rewrite !Hd by by left.
    apply (mv_transformers _ _ _ M); by apply Sr.
Qed.

(** One step of the loop, for a new product [q] and the restored product [p] with its
    name. *)
Lemma moveOne_spec o fresh restored q p k :
  movable o (q :: fresh) restored → restored !! k = Some p → nameOf o q = nameOf o p →
  let o1 := if enabledOf o q then swapBuildData o q p else o in
  let hasBuildData := bool_decide (is_Some (dataOfProduct o1 q)) in
  ∃ o2, (if hasBuildData then updateProductAndRulePointers o1 q else Ok o1) = Ok o2 ∧
    sameProducts o o2 ∧ (∀ x, x ≠ q → x ≠ p → dataOfProduct o2 x = dataOfProduct o x) ∧
    onlyTransformersOf (λ ns, dataOfProduct o p = Some ns) (transformerRules o)
      (transformerRules o2) ∧
    if hasBuildData then ∃ ns, takesOver o restored q p ns ∧ movedTo o2 q ns
    else dataOfProduct o2 q = None ∧ (enabledOf o q = true → dataOfProduct o p = None).
Proof.
  intros M Hk En o1 hasBuildData.
  assert (p ∈ restored) as Hp by by apply list_elem_of_lookup_2 with k.
  assert (q ≠ p) as Hne.
  { pose proof (mv_distinct _ _ _ M) as (_ & D & _)%NoDup_app. intros ->. apply (D p); [left|done]. }
  assert (q ∈ dom (loadedProducts o)) as Hqd by (apply (movable_dom _ _ _ _ M); left; left).
  assert (p ∈ dom (loadedProducts o)) as Hpd by (apply (movable_dom _ _ _ _ M); by right).
  assert (dataOfProduct o q = None) as Hq0 by (apply (mv_fresh_data _ _ _ M); left).
  assert (sameProducts o o1 ∧ transformerRules o1 = transformerRules o ∧
    dataOfProduct o1 q = (if enabledOf o q then dataOfProduct o p else None) ∧
    ∀ x, x ≠ q → x ≠ p → dataOfProduct o1 x = dataOfProduct o x) as (S1 & T1 & D1 & X1).
  { unfold o1. destruct (enabledOf o q) eqn:E; [|by split].
    destruct (swapBuildData_spec o q p) as (? & ? & ? & _ & ?); done. }
  unfold hasBuildData. destruct (dataOfProduct o1 q) as [ns|] eqn:Hd.
  - rewrite bool_decide_true by eauto.
    destruct (enabledOf o q) eqn:E; [|done]. symmetry in D1.
    destruct (updateProductAndRulePointers_spec o1 q ns) as (o2 & -> & S2 & Mv & T2 & X2).
    { by rewrite (sp_dom _ _ S1). }
    { done. }
    { rewrite (sp_contents _ _ S1), T1, (same_rules o o1 q S1).
      apply (mv_nodes _ _ _ M q p); [left|done..]. }
    exists o2. split; [done|]. split; [by etrans|]. split.
    { intros x ? ?. rewrite X2 by done. by apply X1. }
    split; [|by exists ns].
    rewrite <- T1. intros t. destruct (T2 t) as [?|(ns' & x & <- & ?)]; [by left|right; eauto].
  - rewrite bool_decide_false by (by intros [? ?]).
    exists o1. split; [done|]. split; [done|]. split; [done|]. split; [|split; [done|]].
    + intros t. left. by rewrite T1.
    + intros E. by rewrite E in D1.
Qed.

(** The result of the loop. *)
Record moved o (fresh restored : list nat) (o' : Projects V) (left rest : list nat) : Prop :=
    mkMoved {
  md_same : sameProducts o o';
  md_left_sub : sublist left fresh;
  md_left q : q ∈ left ↔ q ∈ fresh ∧ ∀ p, p ∈ restored → nameOf o q = nameOf o p →
    enabledOf o q = true ∧ dataOfProduct o p = None;
  md_rest_sub : sublist rest restored;
  md_rest p : p ∈ rest ↔ p ∈ restored ∧ ∀ q, q ∈ fresh → nameOf o q ≠ nameOf o p;
  md_others x : x ∉ fresh → x ∉ restored → dataOfProduct o' x = dataOfProduct o x;
  md_transformers : onlyTransformersOf (nodesOf o restored) (transformerRules o) (transformerRules o');
  md_data q p ns : q ∈ fresh → takesOver o restored q p ns → movedTo o' q ns;
  md_no_data q : q ∈ fresh → (∀ p ns, ¬ takesOver o restored q p ns) → dataOfProduct o' q = None
}.

Lemma movedTo_mono o o' q ns (P : list LoadedNode → Prop) :
  sameProducts o o' → dataOfProduct o' q = dataOfProduct o q →
  onlyTransformersOf P (transformerRules o) (transformerRules o') →
  (∀ ns' x x' t, P ns' → LoadedGenerated x' (Some t) ∈ ns' → LoadedGenerated x (Some t) ∈ ns → False) →
  movedTo o q ns → movedTo o' q ns.
Proof.
  intros S D T H (ns' & Hd & F & U). exists ns'.
  rewrite D, (sp_contents _ _ S), (same_rules o o' q S). split; [done|]. split; [done|].
  intros x t Hx. destruct (T t) as [E|(ns2 & x' & HP & Hx')].
  - unfold ruleOfTransformer. rewrite E. by eapply U.
  - by destruct (H ns2 x x' t).
Qed.

(** No restored product has the name of [q]: it stays in the list. *)
Lemma moved_skip o q fresh restored o' left rest :
  movable o (q :: fresh) restored → (∀ p, p ∈ restored → nameOf o q ≠ nameOf o p) →
  moved o fresh restored o' left rest → moved o (q :: fresh) restored o' (q :: left) rest.
Proof.
  intros M Hnone R.
  pose proof (mv_distinct _ _ _ M) as [[Hq _]%not_elem_of_app _]%NoDup_cons. split.
  - apply R.
  - constructor. apply R.
  - intros q'. rewrite !elem_of_cons, (md_left _ _ _ _ _ _ R). split; [|naive_solver].
    intros [->|[? ?]]; [|naive_solver]. split; [by left|]. intros p Hp E. by destruct (Hnone p).
  - apply R.
  - intros p. rewrite (md_rest _ _ _ _ _ _ R). setoid_rewrite elem_of_cons. naive_solver.
  - intros x Hx. apply not_elem_of_cons in Hx as [_ Hx]. by apply (md_others _ _ _ _ _ _ R).
  - apply R.
  - intros q' p ns [->|Hq']%elem_of_cons Ht; [|by eapply (md_data _ _ _ _ _ _ R)].
    destruct Ht as (Hp & E & _). by destruct (Hnone p).
  - intros q' [->|Hq']%elem_of_cons Ht; [|by apply (md_no_data _ _ _ _ _ _ R)].
    rewrite (md_others _ _ _ _ _ _ R); [apply (mv_fresh_data _ _ _ M); left|done|].
    intros Hr. by destruct (Hnone q).
Qed.

Lemma elem_of_delete_NoDup {A} (l : list A) k x y :
  NoDup l → l !! k = Some x → y ∈ delete k l ↔ y ∈ l ∧ y ≠ x.
Proof.
  intros N H. pose proof (list_elem_of_split_length _ _ _ H) as (l1 & l2 & -> & ->).
  rewrite delete_middle. apply NoDup_app in N as (_ & D & [Hx _]%NoDup_cons).
  rewrite !elem_of_app, elem_of_cons. split.
  - intros [Hy|Hy]; (split; [by auto|]); [|by intros ->].
    intros ->. apply (D x); [done|left].
  - naive_solver.
Qed.

(** [p] has been dealt with: the rest of the loop, seen from the state before. *)
Lemma moved_step o o2 q p k fresh restored o' left rest (b : bool) :
  movable o (q :: fresh) restored → restored !! k = Some p → nameOf o q = nameOf o p →
  sameProducts o o2 → (∀ x, x ≠ q → x ≠ p → dataOfProduct o2 x = dataOfProduct o x) →
  onlyTransformersOf (λ ns, dataOfProduct o p = Some ns) (transformerRules o) (transformerRules o2) →
  (if b then ∃ ns, takesOver o restored q p ns ∧ movedTo o2 q ns
   else dataOfProduct o2 q = None ∧ (enabledOf o q = true → dataOfProduct o p = None)) →
  moved o2 (if negb (enabledOf o q) || b then fresh else q :: fresh) (delete k restored) o' left rest →
  moved o (q :: fresh) restored o' left rest.
Proof.
  intros M Hk En S D T B R.
  assert (p ∈ restored) as Hp by by apply list_elem_of_lookup_2 with k.
  pose proof (mv_distinct _ _ _ M) as HN. rewrite <- app_comm_cons, NoDup_cons in HN.
  destruct HN as [[Hqf Hqr]%not_elem_of_app (Nf & Dfr & Nr)%NoDup_app].
  assert (∀ x, x ∈ delete k restored ↔ x ∈ restored ∧ x ≠ p) as Hdel
    by (intros x; by apply elem_of_delete_NoDup).
  assert (∀ p', p' ∈ restored → nameOf o q = nameOf o p' → p' = p) as Huniq.
  { intros p' Hp' E. eapply nameOf_inj; [apply (mv_restored_names _ _ _ M)|done..|congruence]. }
  assert (∀ q', q' ∈ fresh → nameOf o q' ≠ nameOf o q) as Hfresh.
  { intros q' Hq' E. assert (q' = q) as ->; [|done].
    eapply nameOf_inj; [apply (mv_fresh_names _ _ _ M)|by right|left|done]. }
  set (fresh2 := if negb (enabledOf o q) || b then fresh else q :: fresh) in R.
  assert (∀ q', q' ∈ fresh2 ↔ q' ∈ fresh ∨ q' = q ∧ enabledOf o q = true ∧ b = false) as Hf2.
  { intros q'. unfold fresh2. destruct (enabledOf o q), b; simpl; rewrite ?elem_of_cons; naive_solver. }
  assert (∀ q' p' ns, takesOver o2 (delete k restored) q' p' ns ↔
            takesOver o restored q' p' ns ∧ p' ≠ p) as Htake.
  { intros q' p' ns. unfold takesOver. rewrite Hdel, !(same_name o o2), (same_enabled o o2) by done.
    split; [intros ([? ?] & ? & ? & Hd)|intros ((? & ? & ? & Hd) & ?)];
      [rewrite D in Hd|rewrite <- D in Hd]; try done; congruence. }
  pose proof (md_same _ _ _ _ _ _ R) as S2. split.
  - by etrans.
  - etrans; [apply R|]. unfold fresh2. destruct (_ || _); [by apply sublist_cons|done].
  - intros q'. rewrite (md_left _ _ _ _ _ _ R), Hf2, elem_of_cons.
    setoid_rewrite Hdel. setoid_rewrite (same_name o o2); [|done..].
    setoid_rewrite (same_enabled o o2); [|done]. split.
    + intros [[Hq'|(-> & E & ->)] H]; (split; [by auto|]); intros p' Hp' E'.
      * assert (p' ≠ p) by (intros ->; apply (Hfresh q'); congruence).
        rewrite <- D; [by apply H| |done]. by intros ->.
      * apply Huniq in E' as ->; [|done]. split; [done|]. by apply B.
    + intros [[->|Hq'] H].
      * destruct (H p) as [E1 E2]; [done..|]. split.
        { right. split; [done|]. split; [done|]. destruct b; [|done].
          destruct B as (ns & (_ & _ & _ & ?) & _). congruence. }
        intros p' [Hp' Hne] E'. by destruct Hne; apply Huniq.
      * split; [by left|]. intros p' [Hp' Hne] E'. rewrite D; [by apply H| |done]. by intros ->.
  - etrans; [apply R|]. apply sublist_delete.
  - intros p'. rewrite (md_rest _ _ _ _ _ _ R), Hdel. setoid_rewrite Hf2.
    setoid_rewrite (same_name o o2); [|done..]. setoid_rewrite elem_of_cons. split.
    + intros [[Hp' Hne] H]. split; [done|]. intros q' [->|Hq']; [|by apply H; left].
      intros E. by destruct Hne; apply Huniq.
    + intros [Hp' H]. split; [split; [done|]|naive_solver]. intros ->. apply (H q); [by left|done].
  - intros x Hx Hx'. apply not_elem_of_cons in Hx as [Hx1 Hx2].
    rewrite (md_others _ _ _ _ _ _ R).
    + apply D; [done|]. by intros ->.
    + rewrite Hf2. naive_solver.
    + rewrite Hdel. naive_solver.
  - intros t. destruct (md_transformers _ _ _ _ _ _ R t) as [E|(ns & x & (p' & Hp' & Hd) & Hx)].
    + destruct (T t) as [E'|(ns & x & Hd & Hx)]; [left; by rewrite E|]. right.
      exists ns, x. split; [by exists p|done].
    + right. exists ns, x. split; [|done]. apply Hdel in Hp' as [Hp' Hne]. exists p'.
      split; [done|]. rewrite <- D; [done| |done]. by intros ->.
  - intros q' p' ns Hq' Ht. apply elem_of_cons in Hq' as [->|Hq'].
    + assert (p' = p) as -> by (apply Huniq; apply Ht).
      destruct Ht as (_ & _ & E & Hd). destruct b.
      2:{ destruct B as [_ B]. rewrite B in Hd by done. done. }
      destruct B as (ns2 & (_ & _ & _ & Hd2) & Mv). rewrite Hd in Hd2. injection Hd2 as <-.
      apply (movedTo_mono o2 o' q ns (nodesOf o2 (delete k restored))); [done| |apply R| |done].
      * apply (md_others _ _ _ _ _ _ R); rewrite ?Hf2, ?Hdel; naive_solver.
      * intros ns' x x' t (p' & [Hp' Hne]%Hdel & Hd') Hx' Hx. apply Hne.
        rewrite D in Hd'; [|by intros ->|done].
        by apply (mv_transformers _ _ _ M p' p ns' ns x' x t).
    + apply (md_data _ _ _ _ _ _ R q' p' ns); [apply Hf2; by left|]. apply Htake. split; [done|].
      intros ->. destruct Ht as (_ & E & _). apply (Hfresh q'); congruence.
  - intros q' Hq' Ht. apply elem_of_cons in Hq' as [->|Hq'].
    + destruct (decide (q ∈ fresh2)) as [Hin|Hin].
      { apply (md_no_data _ _ _ _ _ _ R); [done|]. intros p' ns [H _]%Htake. by eapply Ht. }
      rewrite (md_others _ _ _ _ _ _ R); [|done|rewrite Hdel; naive_solver].
      destruct b; [|by apply B]. destruct B as (ns & Hns & _). by destruct (Ht p ns).
    + apply (md_no_data _ _ _ _ _ _ R); [apply Hf2; by left|]. intros p' ns [H _]%Htake.
      by eapply Ht.
Qed.

Lemma moveBuildData_spec fuel o fresh restored :
  movable o fresh restored → length fresh + length restored < fuel →
  ∃ o' left rest, moveBuildData fuel o fresh restored = Ok (o', left, rest) ∧
    moved o fresh restored o' left rest.
Proof.
  revert o fresh restored. induction fuel as [|fuel IH]; intros o fresh restored M Hf; [lia|].
  destruct fresh as [|q fresh].
  { exists o, [], restored. split; [done|]. split; try done; try by intros ? ? ?%not_elem_of_nil.
    - intros q. split; [by intros ?%not_elem_of_nil|]. by intros [?%not_elem_of_nil _].
    - intros p. split; [|by intros []]. intros Hp. split; [done|]. by intros q ?%not_elem_of_nil.
    - intros t. by left.
    - by intros ? ? ? ?%not_elem_of_nil.
    - by intros ? ?%not_elem_of_nil. }
  cbn [moveBuildData].
  destruct (list_find _ restored) as [[k p]|] eqn:F.
  - apply list_find_Some in F as (Hk & En & _).
    destruct (moveOne_spec o fresh restored q p k M Hk En) as (o2 & E & S & D & T & B).
    unfold dataOfProduct, enabledOf in E, B. rewrite E. cbn [exn_bind].
    set (b := bool_decide _) in *.
    pose proof (lookup_lt_Some _ _ _ Hk) as Hlen.
    assert (movable o2 (if negb (enabledOf o q) || b then fresh else q :: fresh)
      (delete k restored)) as M2.
    { pose proof (mv_distinct _ _ _ M) as HN. rewrite <- app_comm_cons, NoDup_cons in HN.
      destruct HN as [[Hqf Hqr]%not_elem_of_app (Nf & Dfr & Nr)%NoDup_app].
      assert (p ∈ restored) as Hp by by apply list_elem_of_lookup_2 with k.
      apply (movable_weaken o o2 (q :: fresh) _ restored); [done|done| | |].
      - destruct (_ || _); [by apply sublist_cons|done].
      - apply sublist_delete.
      - intros x Hx.
        destruct (decide (x = q)) as [->|Hxq].
        + destruct b eqn:Eb.
          * rewrite orb_true_r in Hx. destruct Hx as [Hx|Hx]; [|done].
            by apply elem_of_delete_NoDup with (x := p) in Hx as [??].
          * destruct B as [B _]. unfold dataOfProduct. rewrite B. symmetry.
            apply (mv_fresh_data _ _ _ M). left.
        + apply D; [done|]. intros ->. destruct Hx as [Hx|Hx].
          * by apply elem_of_delete_NoDup with (x := p) in Hx as [??].
          * apply (Dfr p); [|done]. destruct (_ || _); [done|].
            apply elem_of_cons in Hx as [?|?]; done. }
    destruct (IH _ _ _ M2) as (o' & left & rest & E' & R).
    { rewrite length_delete by done. destruct (_ || _); simpl in *; lia. }
    unfold enabledOf in E'. exists o', left, rest. split; [exact E'|].
    by apply (moved_step o o2 q p k fresh restored o' left rest b).
  - apply list_find_None in F. rewrite Forall_forall in F.
    destruct (IH o fresh restored) as (o' & left & rest & -> & R).
    { apply (movable_weaken o o (q :: fresh) _ restored); try done. by apply sublist_cons. }
    { simpl in Hf. lia. }
    exists o', (q :: left), rest. split; [done|]. by apply moved_skip.
Qed.
End Rules.
