(* ===== verification/ProductTracking.v ===== *)
(** * Which products keep their build data

    The comparisons of [BuildGraphLoader.v] are given their meaning, and the loops of
    [trackProducts] are put together: a new product takes over the build data of the
    restored product with its name if and only if that product has not changed and
    depends on no product that has. *)

From S2P Require Import Prelude FlatSet BuildGraph StateMonad ChangeTracking BuildGraphLoader BuildGraphLoaderCorrect.

(** ** Source files *)

Lemma std_sort_map {A B} (f : A → B) (ltb : B → B → bool) l :
  f <$> std_sort (λ x y, ltb (f x) (f y)) l = std_sort ltb (f <$> l).
Proof.
  induction l as [|x l IH]; [done|]. rewrite fmap_cons. unfold std_sort in *. cbn [foldr].
  rewrite <- IH. generalize (foldr (insort (λ x y, ltb (f x) (f y))) [] l) as l'. intros l'.
  induction l' as [|y l' IH']; [done|]. simpl. destruct (ltb (f y) (f x)); [|done].
  by rewrite fmap_cons, IH'.
Qed.

(** Sorted lists with the same elements are the same. *)
Lemma sorted_unique {A} (ltb : A → A → bool) `{!StrictOrderB ltb} l1 l2 :
  StronglySorted (λ x y, ltb y x = false) l1 → StronglySorted (λ x y, ltb y x = false) l2 →
  l1 ≡ₚ l2 → l1 = l2.
Proof.
  intros S1. revert l2. induction S1 as [|x l1 S1 IH H1]; intros l2 S2 P.
  - by apply Permutation_nil_l in P as ->.
  - destruct S2 as [|y l2 S2 H2]; [by apply Permutation_nil_r in P|].
    rewrite Forall_forall in H1, H2. assert (x = y) as ->.
    { assert (x ∈ y :: l2) as [->|Hx]%elem_of_cons by (rewrite <- P; left); [done|].
      assert (y ∈ x :: l1) as [->|Hy]%elem_of_cons by (rewrite P; left); [done|].
      apply (ltb_total (ltb := ltb)); [by apply H2|by apply H1]. }
    f_equal. apply IH; [done|]. by apply Permutation_cons_inv in P.
Qed.

Lemma std_sort_eq {A} (ltb : A → A → bool) `{!StrictOrderB ltb} l1 l2 :
  std_sort ltb l1 = std_sort ltb l2 ↔ l1 ≡ₚ l2.
Proof.
  split.
  - intros E. rewrite <- (std_sort_perm ltb l1), E. apply std_sort_perm.
  - intros P. apply (sorted_unique ltb); [apply std_sort_sorted; apply _..|].
    by rewrite !std_sort_perm.
Qed.

Section Sources.
Context {V : Type} {Q : QtVariant V}.
Implicit Types l : list (SourceFile V).

Lemma changedSourceFiles_None l1 l2 :
  length l1 = length l2 →
  changedSourceFiles l1 l2 = None ↔ absoluteFilePath <$> l1 ≠ absoluteFilePath <$> l2.
Proof.
  revert l2. induction l1 as [|x l1 IH]; intros [|y l2] Hl; try done.
  cbn [changedSourceFiles]. rewrite !fmap_cons. case_bool_decide as E; simpl.
  - rewrite E. specialize (IH l2). simpl in Hl.
    destruct (changedSourceFiles l1 l2) as [rest|]; simpl.
    + split; [by destruct (sourceFile_eqb x y)|]. intros H. exfalso. apply H. f_equal.
      destruct (decide (absoluteFilePath <$> l1 = absoluteFilePath <$> l2)); [done|].
      assert (Some rest = None); [apply IH; [lia|done]|done].
    + split; [|done]. intros _ [= E2]. assert (absoluteFilePath <$> l1 ≠ absoluteFilePath <$> l2)
        as H by (apply IH; [lia|done]). by apply H.
  - split; [|done]. intros _ [= ? ?]. done.
Qed.

(** With distinct paths, the files that are reported are those that differ from the
    old file with their path. *)
Lemma changedSourceFiles_elem l1 l2 files sa :
  NoDup (absoluteFilePath <$> l2) → length l1 = length l2 →
  changedSourceFiles l1 l2 = Some files →
  sa ∈ files ↔ ∃ old, old ∈ l1 ∧ sa ∈ l2 ∧ absoluteFilePath old = absoluteFilePath sa ∧
    sourceFile_eqb old sa = false.
Proof.
  revert l2 files. induction l1 as [|x l1 IH]; intros [|y l2] files N Hl; try done.
  { intros [= <-]. split; [by intros ?%not_elem_of_nil|]. by intros (? & ?%not_elem_of_nil & _). }
  cbn [changedSourceFiles]. case_bool_decide as E; [|done]. simpl.
  rewrite fmap_cons in N. apply NoDup_cons in N as [Hy N].
  destruct (changedSourceFiles l1 l2) as [rest|] eqn:R; [|done]. simpl. intros [= <-].
  assert (absoluteFilePath <$> l1 = absoluteFilePath <$> l2) as Ep.
  { destruct (decide (absoluteFilePath <$> l1 = absoluteFilePath <$> l2)) as [|Hne]; [done|].
    apply changedSourceFiles_None in Hne; [congruence|]. simpl in Hl. lia. }
  assert (sa ∈ (if sourceFile_eqb x y then rest else y :: rest) ↔
    sa ∈ rest ∨ sa = y ∧ sourceFile_eqb x y = false) as ->.
  { destruct (sourceFile_eqb x y); rewrite ?elem_of_cons; naive_solver. }
  rewrite (IH l2 rest N) by (done || (simpl in Hl; lia)).
  setoid_rewrite elem_of_cons. split.
  - intros [(old & ? & ? & ? & ?)|[-> ?]]; [exists old|exists x]; split_and!; auto.
  - intros (old & [->|Hold] & [->|Hsa] & Epath & ?).
    + by right.
    + destruct Hy. rewrite <- E, Epath. by apply list_elem_of_fmap_2.
    + destruct Hy. rewrite <- Epath, <- Ep. by apply list_elem_of_fmap_2.
    + left. by exists old.
Qed.

Definition pathsOf (o : Projects V) (p : nat) : list str :=
  absoluteFilePath <$> allEnabledFiles (productAt o p).

Lemma path_sort_eq l1 l2 :
  absoluteFilePath <$> std_sort path_ltb l1 = absoluteFilePath <$> std_sort path_ltb l2 ↔
  absoluteFilePath <$> l1 ≡ₚ absoluteFilePath <$> l2.
Proof.
  unfold path_ltb. rewrite !(std_sort_map absoluteFilePath str_ltb).
  apply (std_sort_eq str_ltb).
Qed.

(** The source file [sa] of [q] differs from the one of [p] with its path. *)
Definition sourceChanged (o : Projects V) (p q : nat) (sa : SourceFile V) : Prop :=
  ∃ old, old ∈ allEnabledFiles (productAt o p) ∧ sa ∈ allEnabledFiles (productAt o q) ∧
    absoluteFilePath old = absoluteFilePath sa ∧ sourceFile_eqb old sa = false.

Definition changedFiles (o : Projects V) (p q : nat) : option (list (SourceFile V)) :=
  changedSourceFiles (std_sort path_ltb (allEnabledFiles (productAt o p)))
    (std_sort path_ltb (allEnabledFiles (productAt o q))).

Lemma length_sort {A} (ltb : A → A → bool) (l : list A) : length (std_sort ltb l) = length l.
Proof. by rewrite (std_sort_perm ltb l). Qed.

Lemma changedFiles_spec o p q :
  length (allEnabledFiles (productAt o p)) = length (allEnabledFiles (productAt o q)) →
  NoDup (pathsOf o q) →
  match changedFiles o p q with
  | None => ¬ pathsOf o p ≡ₚ pathsOf o q
  | Some files => pathsOf o p ≡ₚ pathsOf o q ∧ ∀ sa, sa ∈ files ↔ sourceChanged o p q sa
  end.
Proof.
  intros Hl N. destruct (changedFiles o p q) as [files|] eqn:E.
  - split.
    + apply path_sort_eq. apply dec_stable. intros H.
      apply changedSourceFiles_None in H; [|by rewrite !length_sort].
      unfold changedFiles in E. congruence.
    + intros sa. etrans; [eapply (changedSourceFiles_elem _ _ files sa); [| |exact E]|].
      * by rewrite (std_sort_perm path_ltb).
      * by rewrite !length_sort.
      * unfold sourceChanged. by setoid_rewrite (std_sort_perm path_ltb).
  - unfold changedFiles in E. apply changedSourceFiles_None in E; [|by rewrite !length_sort].
    unfold pathsOf. by rewrite <- path_sort_eq.
Qed.
End Sources.

(** ** What has changed in a product *)

Section Comparison.
Context {V : Type} {Q : QtVariant V} (o : Projects V).

Definition sourcesDiffer (p q : nat) : Prop := ¬ pathsOf o p ≡ₚ pathsOf o q.

(** The product needs new build data. *)
Definition productChanged (p q : nat) : Prop :=
  enabledOf o q ≠ enabledOf o p ∨
  dataOfProduct o p ≠ None ∧
    (loadedTags (productAt o p) ≠ loadedTags (productAt o q) ∨
     checkProductForInstallInfoChanges o p q = true) ∨
  ruleListsAreEqual o p q = false ∨
  dependenciesAreEqual o p q = false ∨
  sourcesDiffer p q.

(** The product keeps its build data, but the tags and properties of its generated
    artifacts have to be set again. *)
Definition artifactsNeedUpdate (p q : nat) : Prop :=
  dataOfProduct o p ≠ None ∧
  (artifactPropertyListsAreEqual (artifactProperties (productAt o p))
     (artifactProperties (productAt o q)) = false ∨
   (loadedModuleProperties (productAt o p)).1 ≠ (loadedModuleProperties (productAt o q)).1).

Definition sameButFor (n : str) (s s' : Pending V) : Prop :=
  ∀ m, m ≠ n → m_changedSourcesByProduct s' !! m = m_changedSourcesByProduct s !! m ∧
    (m ∈ m_productsWhoseArtifactsNeedUpdate s' ↔ m ∈ m_productsWhoseArtifactsNeedUpdate s).

Lemma checkForPropertyChanges_spec p q s b s' :
  checkForPropertyChanges o p q s = (b, s') →
  (b = true ↔ dataOfProduct o p ≠ None ∧
    (loadedTags (productAt o p) ≠ loadedTags (productAt o q) ∨
     checkProductForInstallInfoChanges o p q = true)) ∧
  m_changedSourcesByProduct s' = m_changedSourcesByProduct s ∧
  sameButFor (nameOf o p) s s' ∧
  (b = false → nameOf o p ∈ m_productsWhoseArtifactsNeedUpdate s' ↔
     nameOf o p ∈ m_productsWhoseArtifactsNeedUpdate s ∨ artifactsNeedUpdate p q).
Proof.
  unfold checkForPropertyChanges, artifactsNeedUpdate, dataOfProduct.
  destruct (loadedBuildData (productAt o p)) as [ns|].
  2:{ intros [= <- <-]. split; [by split; [|intros [? _]]|]. do 2 (split; [done|]).
      intros _. split; [by left|]. by intros [?|[? _]]. }
  case_bool_decide as Ht; simpl.
  2:{ intros [= <- <-]. split; [by split; [split; [|left]|]|]. by do 2 (split; [done|]). }
  destruct (checkProductForInstallInfoChanges o p q); simpl.
  { intros [= <- <-]. split; [by split; [split; [|right]|]|]. by do 2 (split; [done|]). }
  intros [= <- <-]. split; [split; [done|by intros [_ [?|?]]]|].
  destruct (artifactPropertyListsAreEqual _ _), (Nat.eqb_spec (loadedModuleProperties (productAt o p)).1
    (loadedModuleProperties (productAt o q)).1); simpl; (split; [done|]); unfold sameButFor, nameOf;
    simpl; set_solver.
Qed.

Lemma checkProductForChanges_spec p q s b s' :
  checkProductForChanges o p q s = (b, s') →
  (b = true ↔ dataOfProduct o p ≠ None ∧
    (loadedTags (productAt o p) ≠ loadedTags (productAt o q) ∨
     checkProductForInstallInfoChanges o p q = true) ∨
   ruleListsAreEqual o p q = false ∨ dependenciesAreEqual o p q = false) ∧
  m_changedSourcesByProduct s' = m_changedSourcesByProduct s ∧
  sameButFor (nameOf o p) s s' ∧
  (b = false → nameOf o p ∈ m_productsWhoseArtifactsNeedUpdate s' ↔
     nameOf o p ∈ m_productsWhoseArtifactsNeedUpdate s ∨ artifactsNeedUpdate p q).
Proof.
  unfold checkProductForChanges. destruct (checkForPropertyChanges o p q s) as [b1 s1] eqn:E.
  apply checkForPropertyChanges_spec in E as (B & S & F & U). intros H.
  destruct b1; [injection H as <- <-; naive_solver|].
  destruct (ruleListsAreEqual o p q) eqn:R; simpl in H; [|injection H as <- <-; naive_solver].
  destruct (dependenciesAreEqual o p q) eqn:D; simpl in H; injection H as <- <-; naive_solver.
Qed.

Lemma checkSources_spec p q s b s' :
  NoDup (pathsOf o q) → checkProductForChangesInSourceFiles o p q s = (b, s') →
  m_changedSourcesByProduct s !! nameOf o p = None →
  (b = true ↔ sourcesDiffer p q) ∧
  sameButFor (nameOf o p) s s' ∧
  m_productsWhoseArtifactsNeedUpdate s' = m_productsWhoseArtifactsNeedUpdate s ∧
  (b = false → ∀ sa, sourceChanged o p q sa ↔
     ∃ files, m_changedSourcesByProduct s' !! nameOf o p = Some files ∧ sa ∈ files).
Proof.
  intros N H H0. unfold checkProductForChangesInSourceFiles in H.
  destruct (Nat.eqb_spec (length (allEnabledFiles (productAt o p)))
    (length (allEnabledFiles (productAt o q)))) as [Hl|Hl]; simpl in H.
  2:{ injection H as <- <-. split; [|done]. split; [|done]. intros _ P. apply Hl.
      apply Permutation_length in P. unfold pathsOf in P. by rewrite !length_fmap in P. }
  pose proof (changedFiles_spec o p q Hl N) as HC. unfold changedFiles in HC.
  destruct (changedSourceFiles _ _) as [[|sa0 files]|].
  - injection H as <- <-. destruct HC as [P HC]. split; [naive_solver|]. split; [done|].
    split; [done|]. intros _ sa. rewrite <- HC. split; [by intros ?%not_elem_of_nil|].
    intros (? & ? & _). congruence.
  - destruct HC as [P HC]. fold (nameOf o p) in H. rewrite bool_decide_false in H.
    2:{ rewrite H0. by intros [? ?]. }
    injection H as <- <-. split; [naive_solver|]. split; [|split; [done|]].
    + intros m Hm. simpl. by rewrite lookup_insert_ne.
    + intros _ sa. simpl. rewrite lookup_insert_eq, <- HC. naive_solver.
  - injection H as <- <-. split; [by split|]. by do 2 (split; [done|]).
Qed.

(** One round of the comparisons. *)
Lemma checkProduct_spec byName p changed s changed' s' :
  checkProduct o byName p (changed, s) = (changed', s') →
  (∀ q, byName !! nameOf o p = Some q → NoDup (pathsOf o q)) →
  m_changedSourcesByProduct s !! nameOf o p = None →
  nameOf o p ∉ m_productsWhoseArtifactsNeedUpdate s →
  sameButFor (nameOf o p) s s' ∧
  match byName !! nameOf o p with
  | None => changed' = changed ∧ s' = s
  | Some q =>
      (productChanged p q ∧ changed' = addChanged p changed) ∨
      (¬ productChanged p q ∧ changed' = changed ∧
       (nameOf o p ∈ m_productsWhoseArtifactsNeedUpdate s' ↔ artifactsNeedUpdate p q) ∧
       ∀ sa, sourceChanged o p q sa ↔
         ∃ files, m_changedSourcesByProduct s' !! nameOf o p = Some files ∧ sa ∈ files)
  end.
Proof.
  intros H N Hs Hn. unfold checkProduct in H. fold (nameOf o p) in H.
  destruct (byName !! nameOf o p) as [q|]; [|by injection H as <- <-].
  specialize (N q eq_refl). unfold productChanged, enabledOf.
  destruct (Bool.eqb (loadedEnabled (productAt o q)) (loadedEnabled (productAt o p))) eqn:E;
    simpl in H.
  2:{ injection H as <- <-. split; [done|]. left. split; [|done]. left.
      by apply Bool.eqb_false_iff. }
  apply Bool.eqb_prop in E.
  destruct (checkProductForChanges o p q s) as [b1 s1] eqn:E1.
  apply checkProductForChanges_spec in E1 as (B1 & S1 & F1 & U1).
  destruct b1.
  { injection H as <- <-. split; [done|]. left. split; [|done]. right.
    destruct (proj1 B1 eq_refl) as [?|[?|?]]; auto. }
  destruct (checkProductForChangesInSourceFiles o p q s1) as [b2 s2] eqn:E2.
  apply checkSources_spec in E2 as (B2 & F2 & U2 & D2); [|done|by rewrite S1].
  assert (sameButFor (nameOf o p) s s2) as F.
  { intros m Hm. destruct (F1 m Hm), (F2 m Hm). split; [congruence|tauto]. }
  destruct b2; injection H as <- <-; (split; [done|]).
  - left. split; [|done]. do 4 right. by apply B2.
  - right. split; [|split; [done|split; [|by apply D2]]].
    + intros [?|[H|[H|[H|H]]]]; [congruence| | | |by apply B2 in H];
        (assert (false = true); [apply B1|done]); auto.
    + rewrite U2, U1 by done. split; [by intros [?|?]|by right].
Qed.
End Comparison.
