(* ===== verification/ProjectTracking.v ===== *)
(** * Tracking the changes of a project

    The loops of [trackProducts] and the theorem about all of it, then the decision
    whether the project has to be resolved again. *)

From S2P Require Import Prelude FlatSet BuildGraph StateMonad ChangeTracking BuildGraphLoader BuildGraphLoaderCorrect ProductTracking.

Lemma elem_of_removeOne l x y : NoDup l → y ∈ removeOne l x ↔ y ∈ l ∧ y ≠ x.
Proof.
  induction 1 as [|z l Hz N IH]; simpl; [split; [by intros ?%not_elem_of_nil|by intros [? _]]|].
  destruct (Nat.eqb_spec z x) as [->|Hne].
  - rewrite elem_of_cons. split; [|naive_solver]. intros Hy. split; [by right|]. by intros ->.
  - rewrite !elem_of_cons, IH. split; [|naive_solver]. intros [->|[? ?]]; auto.
Qed.

Lemma removeOne_sub l x : sublist (removeOne l x) l.
Proof.
  induction l as [|z l IH]; simpl; [done|]. destruct (z =? x); [by apply sublist_cons|].
  by apply sublist_skip.
Qed.

Lemma removeOnes l xs :
  NoDup l → NoDup (foldl removeOne l xs) ∧ ∀ y, y ∈ foldl removeOne l xs ↔ y ∈ l ∧ y ∉ xs.
Proof.
  revert l. induction xs as [|x xs IH]; intros l N; simpl.
  { split; [done|]. intros y. split; [intros ?; split; [done|apply not_elem_of_nil]|by intros [? _]]. }
  destruct (IH (removeOne l x)) as [N' H].
  { eapply sublist_NoDup; [exact N|apply removeOne_sub]. }
  split; [done|]. intros y. rewrite H, elem_of_removeOne, not_elem_of_cons by done. tauto.
Qed.

Section Tracking.
Context {V : Type} {Q : QtVariant V}.
Context (o : Projects V) (fresh restored changed0 : list nat).

(** The restored and the newly resolved project before the comparison. *)
Record loadable : Prop := mkLoadable {
  lo_distinct : NoDup (fresh ++ restored);
  lo_dom x : x ∈ fresh ++ restored → x ∈ dom (loadedProducts o);
  lo_fresh_names : NoDup (nameOf o <$> fresh);
  lo_restored_names : NoDup (nameOf o <$> restored);
  lo_fresh_data q : q ∈ fresh → dataOfProduct o q = None;
  lo_paths q : q ∈ fresh → NoDup (pathsOf o q);
  lo_acyclic : acyclicProducts o;
  lo_closed p d : p ∈ dom (loadedProducts o) → dependsOn o p d → d ∈ dom (loadedProducts o);
  lo_dependencies p d : p ∈ restored → dependsOn o p d → d ∈ restored;
  lo_changed : NoDup changed0 ∧ changed0 ⊆ restored;
  lo_rule_keys p : p ∈ restored → NoDup (rule_key <$> rulesOf o p);
  lo_rule_nodes p ns x r : p ∈ restored → dataOfProduct o p = Some ns →
    LoadedRuleNode x r ∈ ns → r ∈ loadedRules (productAt o p);
  lo_generated p ns x t : p ∈ restored → dataOfProduct o p = Some ns → LoadedGenerated x t ∈ ns →
    ∃ t', t = Some t' ∧ ruleOfTransformer (transformerRules o) t' ∈ loadedRules (productAt o p);
  lo_transformers p1 p2 ns1 ns2 x1 x2 t : p1 ∈ restored → p2 ∈ restored →
    dataOfProduct o p1 = Some ns1 → dataOfProduct o p2 = Some ns2 →
    LoadedGenerated x1 (Some t) ∈ ns1 → LoadedGenerated x2 (Some t) ∈ ns2 → p1 = p2
}.

(** The newly resolved product with the name of [p]. *)
Definition newOf (p q : nat) : Prop := q ∈ fresh ∧ nameOf o q = nameOf o p.

Definition changedItself (p : nat) : Prop :=
  p ∈ changed0 ∨ ∃ q, newOf p q ∧ productChanged o p q.

(** The product, or one it depends on, has changed. *)
Definition outdated (p : nat) : Prop := ∃ c, rtc (dependsOn o) p c ∧ changedItself c.

Hypothesis L : loadable.
Let byName := freshProductsByName o fresh.

Lemma byName_spec n q : byName !! n = Some q ↔ q ∈ fresh ∧ nameOf o q = n.
Proof.
  unfold byName. change (freshProductsByName o fresh) with (listToMap (nameOf o) fresh). split.
  - apply listToMap_Some.
  - intros [Hq <-]. apply listToMap_NoDup; [apply (lo_fresh_names L)|done].
Qed.

Lemma newOf_byName p q : newOf p q ↔ byName !! nameOf o p = Some q.
Proof. by rewrite byName_spec. Qed.

Lemma restored_inj p1 p2 : p1 ∈ restored → p2 ∈ restored → nameOf o p1 = nameOf o p2 → p1 = p2.
Proof. apply nameOf_inj, (lo_restored_names L). Qed.

(** ** The comparison of all products *)

Definition changedByComparison (p : nat) : Prop := ∃ q, newOf p q ∧ productChanged o p q.

(** What is known after the products of [l] were compared. *)
Record compared (l : list nat) (changed : list nat) (s : Pending V) : Prop := mkCompared {
  co_nodup : NoDup changed;
  co_changed x : x ∈ changed ↔ x ∈ changed0 ∨ x ∈ l ∧ changedByComparison x;
  co_pending n : is_Some (m_changedSourcesByProduct s !! n) ∨ n ∈ m_productsWhoseArtifactsNeedUpdate s →
    ∃ p q, p ∈ l ∧ newOf p q ∧ nameOf o p = n;
  co_update p q : p ∈ l → newOf p q → ¬ changedByComparison p →
    nameOf o p ∈ m_productsWhoseArtifactsNeedUpdate s ↔ artifactsNeedUpdate o p q;
  co_sources p q sa : p ∈ l → newOf p q → ¬ changedByComparison p →
    sourceChanged o p q sa ↔
    ∃ files, m_changedSourcesByProduct s !! nameOf o p = Some files ∧ sa ∈ files
}.

Lemma addChanged_spec p changed :
  NoDup changed → NoDup (addChanged p changed) ∧ ∀ x, x ∈ addChanged p changed ↔ x ∈ changed ∨ x = p.
Proof.
  intros N. unfold addChanged. case_bool_decide.
  - split; [done|]. naive_solver.
  - split.
    + apply NoDup_app. split; [done|]. split; [|apply NoDup_singleton].
      by intros x Hx ->%list_elem_of_singleton.
    + intros x. by rewrite elem_of_app, list_elem_of_singleton.
Qed.

Lemma newOf_unique p q q' : newOf p q → newOf p q' → q = q'.
Proof. rewrite !newOf_byName. congruence. Qed.

Lemma compared_step l p changed s changed' s' :
  l ++ [p] ⊆ restored → NoDup (l ++ [p]) → compared l changed s →
  checkProduct o byName p (changed, s) = (changed', s') → compared (l ++ [p]) changed' s'.
Proof.
  intros Hl [_ [Hp _]]%NoDup_app C E.
  assert (p ∈ restored) as Hpr by (apply Hl; set_solver).
  assert (∀ x, x ∈ l → nameOf o x ≠ nameOf o p) as Hn.
  { intros x Hx En. apply (Hp x Hx), list_elem_of_singleton.
    apply restored_inj; [apply Hl; set_solver|done..]. }
  assert (¬ (is_Some (m_changedSourcesByProduct s !! nameOf o p) ∨
    nameOf o p ∈ m_productsWhoseArtifactsNeedUpdate s)) as Hnone.
  { intros (x & q & Hx & _ & En)%(co_pending _ _ _ C). by apply (Hn x). }
  apply checkProduct_spec in E as [F M].
  2:{ intros q [Hq _]%byName_spec. by apply (lo_paths L). }
  2:{ apply eq_None_not_Some. tauto. }
  2:{ tauto. }
  assert (∀ x, x ∈ l ++ [p] ↔ x ∈ l ∨ x = p) as Happ
    by (intros x; by rewrite elem_of_app, list_elem_of_singleton).
  assert (NoDup changed' ∧ ∀ x, x ∈ changed' ↔ x ∈ changed ∨ x = p ∧ changedByComparison p) as [N Ch].
  { destruct (byName !! nameOf o p) as [q|] eqn:Eq.
    - assert (newOf p q) as Hq by by apply newOf_byName.
      destruct M as [[Hc ->]|(Hc & -> & _)].
      + destruct (addChanged_spec p changed (co_nodup _ _ _ C)) as [N H]. split; [done|].
        intros x. rewrite H. assert (changedByComparison p) by (exists q; done). naive_solver.
      + split; [apply C|]. assert (¬ changedByComparison p); [|naive_solver].
        intros (q' & Hq' & ?). by rewrite (newOf_unique p q q') in Hc.
    - destruct M as [-> _]. split; [apply C|]. assert (¬ changedByComparison p); [|naive_solver].
      intros (q' & Hq' & _). apply newOf_byName in Hq'. congruence. }
  split.
  - done.
  - intros x. rewrite Ch, (co_changed _ _ _ C), Happ. naive_solver.
  - intros n Hx. destruct (decide (n = nameOf o p)) as [->|Hne].
    + destruct (byName !! nameOf o p) as [q|] eqn:Eq.
      * exists p, q. split; [apply Happ; by right|]. split; [by apply newOf_byName|done].
      * destruct M as [_ ->]. tauto.
    + destruct (F n Hne) as [F1 F2]. rewrite F1, F2 in Hx.
      destruct (co_pending _ _ _ C n Hx) as (x & q & ? & ?). exists x, q. rewrite Happ. tauto.
  - intros x q Hx Hq Hu. apply Happ in Hx as [Hx| ->].
    + destruct (F _ (Hn x Hx)) as [_ ->]. by apply (co_update _ _ _ C).
    + apply newOf_byName in Hq as Eq. rewrite Eq in M. destruct M as [[Hc _]|(_ & _ & M & _)]; [|done].
      destruct Hu. by exists q.
  - intros x q sa Hx Hq Hu. apply Happ in Hx as [Hx| ->].
    + destruct (F _ (Hn x Hx)) as [-> _]. by apply (co_sources _ _ _ C).
    + apply newOf_byName in Hq as Eq. rewrite Eq in M. destruct M as [[Hc _]|(_ & _ & _ & M)]; [|done].
      destruct Hu. by exists q.
Qed.

Lemma checkAllProductsForChanges_spec changed s :
  checkAllProductsForChanges o byName restored changed0 noPending = (changed, s) →
  compared restored changed s.
Proof.
  unfold checkAllProductsForChanges. intros E.
  assert (∀ l2 l1 cs, restored = l1 ++ l2 → compared l1 cs.1 cs.2 →
    let r := foldl (λ cs p, checkProduct o byName p cs) cs l2 in
    compared restored r.1 r.2) as H.
  { intros l2. induction l2 as [|p l2 IH]; intros l1 cs El C; simpl.
    - rewrite app_nil_r in El. by subst l1.
    - pose proof (lo_distinct L) as (_ & _ & N)%NoDup_app.
      rewrite cons_middle, app_assoc in El. rewrite El in N. apply NoDup_app in N as [N _].
      destruct (checkProduct o byName p cs) as [ch' s'] eqn:Ec.
      apply (IH (l1 ++ [p])); [done|]. destruct cs as [ch s0].
      apply (compared_step l1 p ch s0 ch' s'); [rewrite El; set_solver|done|done|done]. }
  specialize (H restored [] (changed0, noPending) eq_refl). cbv zeta in H. rewrite E in H. apply H.
  split; simpl; try by intros ? ? ?%not_elem_of_nil.
  - apply (lo_changed L).
  - intros x. split; [by left|]. by intros [?|[?%not_elem_of_nil _]].
  - intros n. rewrite lookup_empty. intros [[? ?]|?]; [done|set_solver].
  - by intros ? ? ? ?%not_elem_of_nil.
Qed.

(** ** Removing the changed products *)

Definition hasNew (p : nat) : Prop := ∃ q, newOf p q.

Lemma hasNew_byName p : hasNew p ↔ is_Some (byName !! nameOf o p).
Proof. split; intros [q Hq]; exists q; by apply newOf_byName. Qed.

#[local] Instance hasNew_dec p : Decision (hasNew p).
Proof.
  destruct (byName !! nameOf o p) eqn:E.
  - left. apply hasNew_byName. by rewrite E.
  - right. intros [? H]%hasNew_byName. congruence.
Defined.

Lemma removeChanged_spec l s rs actions s' rs' actions' :
  NoDup rs → foldl (removeChanged o byName) (s, rs, actions) l = (s', rs', actions') →
  sublist rs' rs ∧ (∀ x, x ∈ rs' ↔ x ∈ rs ∧ ¬ (x ∈ l ∧ hasNew x)) ∧
  actions' = actions ++ ((λ p, OnProductRemoved p false) <$> filter hasNew l) ∧
  (∀ n, m_changedSourcesByProduct s' !! n =
     if decide (n ∈ nameOf o <$> l) then None else m_changedSourcesByProduct s !! n) ∧
  (∀ n, n ∈ m_productsWhoseArtifactsNeedUpdate s' ↔
     n ∈ m_productsWhoseArtifactsNeedUpdate s ∧ n ∉ nameOf o <$> l).
Proof.
  revert s rs actions. induction l as [|p l IH]; intros s rs actions N; simpl.
  { intros [= <- <- <-]. split; [done|]. split.
    { intros x. split; [|by intros [? _]]. intros Hx. split; [done|]. by intros [?%not_elem_of_nil _]. }
    split; [by rewrite app_nil_r|]. split; intros n.
    - done.
    - split; [|by intros [? _]]. intros Hn. split; [done|apply not_elem_of_nil]. }
  fold (nameOf o p). intros E.
  assert (∃ rs1 a1, foldl (removeChanged o byName)
      (forgetPending (nameOf o p) s, rs1, actions ++ a1) l = (s', rs', actions') ∧
      sublist rs1 rs ∧ (∀ x, x ∈ rs1 ↔ x ∈ rs ∧ ¬ (x = p ∧ hasNew p)) ∧
      a1 = (λ p, OnProductRemoved p false) <$> filter hasNew [p]) as (rs1 & a1 & E1 & S1 & M1 & ->).
  { rewrite filter_cons, filter_nil. destruct (byName !! nameOf o p) as [q|] eqn:Eb.
    - assert (hasNew p) as Hh by (apply hasNew_byName; by rewrite Eb).
      rewrite decide_True by done. eexists _, _. split; [exact E|]. split; [apply removeOne_sub|].
      split; [|done]. intros x. rewrite elem_of_removeOne by done. naive_solver.
    - assert (¬ hasNew p) as Hh by (intros [? H]%hasNew_byName; congruence).
      rewrite decide_False by done. exists rs, []. rewrite app_nil_r. split; [exact E|].
      split; [done|]. split; [|done]. naive_solver. }
  apply IH in E1 as (S2 & M2 & -> & P1 & P2); [|by eapply sublist_NoDup].
  split; [by etrans|]. split.
  { intros x. rewrite M2, M1, elem_of_cons. naive_solver. }
  split.
  { rewrite <- app_assoc, <- fmap_app. do 2 f_equal. by rewrite <- filter_app. }
  split; intros n.
  - rewrite P1. simpl. destruct (decide (n = nameOf o p)) as [->|Hne].
    + rewrite lookup_delete_eq, (decide_True _ _ (P := _ ∈ _ :: _)) by left. by destruct (decide _).
    + rewrite lookup_delete_ne by done. destruct (decide (n ∈ nameOf o <$> l)).
      * by rewrite decide_True by by right.
      * rewrite decide_False; [done|]. by rewrite not_elem_of_cons.
  - rewrite P2. simpl. rewrite not_elem_of_cons, elem_of_difference, not_elem_of_singleton. tauto.
Qed.

(** ** The restored products that are left can be moved *)

Lemma unchanged_movable restored' :
  sublist restored' restored →
  (∀ p q, p ∈ restored' → newOf p q → ¬ productChanged o p q) →
  movable o fresh restored'.
Proof.
  intros Hs Hu.
  assert (∀ x, x ∈ restored' → x ∈ restored) as Hi by (intros x Hx; by eapply elem_of_sublist).
  split.
  - eapply sublist_NoDup; [apply (lo_distinct L)|]. by apply sublist_app.
  - intros x Hx. apply elem_of_elements, (lo_dom L). rewrite elem_of_app in *. naive_solver.
  - apply (lo_fresh_names L).
  - eapply sublist_NoDup; [apply (lo_restored_names L)|]. by apply fmap_sublist.
  - apply (lo_fresh_data L).
  - intros q p ns Hq Hp En Ed. apply Forall_forall. intros n Hn.
    assert (ruleListsAreEqual o p q = true) as Hr.
    { apply not_false_iff_true. intros Hr. apply (Hu p q Hp); [done|]. right. right. by left. }
    assert (∀ r, r ∈ loadedRules (productAt o p) →
      hasRule (ruleContents o) (loadedRules (productAt o q)) r) as Hhas.
    { intros r Hin. unfold ruleListsAreEqual in Hr.
      destruct (listsAreEqual_elem rule_key (λ x y, rule_eqb x.2 y.2) (rulesOf o p) (rulesOf o q)
        (artifactProperties (productAt o p), ruleContentAt o r)) as ([aps c] & Hy & Hc%rule_eqb_spec).
      - apply (lo_rule_keys L). by apply Hi.
      - done.
      - unfold rulesOf. apply list_elem_of_fmap. by exists r.
      - unfold rulesOf in Hy. apply list_elem_of_fmap in Hy as (r' & [= _ ->] & Hr').
        exists r'. by split. }
    destruct n as [x r|x|x t]; simpl.
    + apply Hhas. by eapply (lo_rule_nodes L); [apply Hi| |].
    + done.
    + destruct (lo_generated L p ns x t) as (t' & -> & Ht); [by apply Hi|done..|].
      by apply Hhas.
  - intros p1 p2 ns1 ns2 x1 x2 t H1 H2. apply (lo_transformers L); by apply Hi.
Qed.

(** ** The loops that only call other functions *)

Lemma for_each_total {A B C} (f : A → list B → exn BGError (list B)) (φ : C → B) (h : A → list C)
    l acc :
  (∀ x acc, x ∈ l → f x acc = Ok (acc ++ (φ <$> h x))) →
  for_each f l acc = Ok (acc ++ (φ <$> (l ≫= h))).
Proof.
  revert acc. induction l as [|x l IH]; intros acc Hf; simpl; [by rewrite app_nil_r|].
  rewrite Hf by left. cbn [exn_bind]. rewrite IH, fmap_app; [by rewrite <- app_assoc|].
  intros y acc' Hy. apply Hf. by right.
Qed.

Definition newOr0 (n : str) : nat := default 0 (byName !! n).

Lemma newOr0_spec p q : newOf p q → newOr0 (nameOf o p) = q.
Proof. intros H%newOf_byName. unfold newOr0. by rewrite H. Qed.

(** What becomes of the projects, and what is called for the artifacts. *)
Record tracked (o' : Projects V) (actions : list (Action V)) : Prop := mkTracked {
  tr_same : sameProducts o o';
  tr_kept q p ns : p ∈ restored → newOf p q → ¬ outdated p → enabledOf o q = true →
    dataOfProduct o p = Some ns → movedTo o' q ns;
  tr_none q : q ∈ fresh →
    (∀ p ns, p ∈ restored → newOf p q → enabledOf o q = true → dataOfProduct o p = Some ns →
       outdated p) →
    dataOfProduct o' q = None;
  tr_actions : ∃ replaced gone unresolved sources generated rescued,
    actions = ((λ p, OnProductRemoved p false) <$> replaced) ++
              ((λ p, OnProductRemoved p true) <$> gone) ++
              (if is_nil unresolved then [] else [ResolveProductBuildData unresolved]) ++
              ((λ x, UpdateArtifactFromSourceArtifact x.1 x.2) <$> sources) ++
              (UpdateGeneratedArtifacts <$> generated) ++
              ((λ x, RescueOldBuildData x.1 x.2) <$> rescued) ∧
    (∀ p, p ∈ replaced ↔ p ∈ restored ∧ outdated p ∧ hasNew p) ∧
    (∀ p, p ∈ gone ↔ p ∈ restored ∧ ¬ hasNew p) ∧
    (∀ q, q ∈ unresolved ↔ q ∈ fresh ∧ ∀ p, p ∈ restored → newOf p q → ¬ outdated p →
       enabledOf o q = true ∧ dataOfProduct o p = None) ∧
    (∀ q sa, (q, sa) ∈ sources ↔ ∃ p, p ∈ restored ∧ newOf p q ∧ ¬ outdated p ∧
       sourceChanged o p q sa) ∧
    (∀ q, q ∈ generated ↔ ∃ p, p ∈ restored ∧ newOf p q ∧ ¬ outdated p ∧
       artifactsNeedUpdate o p q) ∧
    (∀ p q, (p, q) ∈ rescued ↔ p ∈ restored ∧ newOf p q ∧ outdated p)
}.

Lemma rtc_restored p c : p ∈ restored → rtc (dependsOn o) p c → c ∈ restored.
Proof. intros Hp H. induction H; [done|]. apply IHrtc. by eapply (lo_dependencies L). Qed.

Lemma outdated_changed changed s p :
  compared restored changed s → p ∈ restored → dependsOnOneOf o changed p ↔ outdated p.
Proof.
  intros C Hp. split.
  - intros (c & Hc & Hr). exists c. split; [done|].
    apply (co_changed _ _ _ C) in Hc as [?|[_ ?]]; [by left|by right].
  - intros (c & Hr & Hc). exists c. split; [|done]. apply (co_changed _ _ _ C).
    destruct Hc as [?|?]; [by left|]. right. split; [by apply (rtc_restored p)|done].
Qed.

Lemma outdated_productChanged p q : newOf p q → ¬ outdated p → ¬ productChanged o p q.
Proof. intros Hq Hp Hc. apply Hp. exists p. split; [done|]. right. by exists q. Qed.

(** What is pending after the changed products were removed. *)
Record settled (s : Pending V) : Prop := mkSettled {
  se_pending n : is_Some (m_changedSourcesByProduct s !! n) ∨ n ∈ m_productsWhoseArtifactsNeedUpdate s →
    ∃ p q, p ∈ restored ∧ newOf p q ∧ nameOf o p = n ∧ ¬ outdated p;
  se_update p q : p ∈ restored → newOf p q → ¬ outdated p →
    nameOf o p ∈ m_productsWhoseArtifactsNeedUpdate s ↔ artifactsNeedUpdate o p q;
  se_sources p q sa : p ∈ restored → newOf p q → ¬ outdated p →
    sourceChanged o p q sa ↔
    ∃ files, m_changedSourcesByProduct s !! nameOf o p = Some files ∧ sa ∈ files
}.

Lemma compared_settled changed s (l : list nat) s' :
  compared restored changed s → (∀ x, x ∈ l ↔ x ∈ restored ∧ outdated x) →
  (∀ n, m_changedSourcesByProduct s' !! n =
     if decide (n ∈ nameOf o <$> l) then None else m_changedSourcesByProduct s !! n) →
  (∀ n, n ∈ m_productsWhoseArtifactsNeedUpdate s' ↔
     n ∈ m_productsWhoseArtifactsNeedUpdate s ∧ n ∉ nameOf o <$> l) →
  settled s'.
Proof.
  intros C Hl H1 H2.
  assert (∀ p, p ∈ restored → ¬ outdated p → nameOf o p ∉ nameOf o <$> l) as Hn.
  { intros p Hp Hout (x & En & [Hx Hx']%Hl)%list_elem_of_fmap.
    by apply restored_inj in En as ->. }
  split.
  - intros n Hn'. assert (n ∉ nameOf o <$> l) as Hnl.
    { intros Hin. destruct Hn' as [[? Hx]|[_ ?]%H2]; [|done]. by rewrite H1, decide_True in Hx. }
    destruct (co_pending _ _ _ C n) as (p & q & Hp & Hq & En).
    { rewrite H1, decide_False, H2 in Hn' by done. tauto. }
    exists p, q. split; [done|]. split; [done|]. split; [done|]. intros Hout.
    apply Hnl. rewrite <- En. apply list_elem_of_fmap_2. by apply Hl.
  - intros p q Hp Hq Hout. rewrite H2, (co_update _ _ _ C p q); [|done|done|].
    + specialize (Hn p Hp Hout). tauto.
    + intros (q' & ? & ?). by destruct (outdated_productChanged p q').
  - intros p q sa Hp Hq Hout. rewrite H1, decide_False by by apply Hn.
    apply (co_sources _ _ _ C); [done|done|].
    intros (q' & ? & ?). by destruct (outdated_productChanged p q').
Qed.

(** The loops over what is pending. *)
Lemma pendingSources_spec s :
  settled s →
  ∃ sources, (∀ acc,
      for_each (sourceUpdates byName) (map_to_list (m_changedSourcesByProduct s)) acc =
      Ok (acc ++ ((λ x, UpdateArtifactFromSourceArtifact x.1 x.2) <$> sources))) ∧
    ∀ q sa, (q, sa) ∈ sources ↔ ∃ p, p ∈ restored ∧ newOf p q ∧ ¬ outdated p ∧ sourceChanged o p q sa.
Proof.
  intros S. set (h (kv : str * list (SourceFile V)) := (λ sa : SourceFile V, (newOr0 kv.1, sa)) <$> kv.2).
  exists (map_to_list (m_changedSourcesByProduct s) ≫= h). split.
  - intros acc. apply for_each_total. intros [n files] acc' Hin%elem_of_map_to_list.
    destruct (se_pending _ S n) as (p & q & _ & Hq & <- & _); [left; eauto|].
    unfold sourceUpdates, freshProduct, h. simpl. rewrite (newOr0_spec p q Hq).
    apply newOf_byName in Hq as ->. simpl. by rewrite <- list_fmap_compose.
  - intros q sa. rewrite list_elem_of_bind. split.
    + intros ([n files] & Hin & Hf%elem_of_map_to_list).
      unfold h in Hin. apply list_elem_of_fmap in Hin as (sa' & [= -> ->] & Hsa).
      destruct (se_pending _ S n) as (p & q & Hp & Hq & <- & Hout); [left; eauto|].
      exists p. simpl. rewrite (newOr0_spec p q Hq). split; [done|]. split; [done|].
      split; [done|]. apply (se_sources _ S); [done..|]. by exists files.
    + intros (p & Hp & Hq & Hout & (files & Hf & Hsa)%(se_sources _ S)); [|done..].
      exists (nameOf o p, files). split; [|by apply elem_of_map_to_list].
      unfold h. simpl. rewrite (newOr0_spec p q Hq). by apply list_elem_of_fmap_2.
Qed.

Lemma pendingUpdates_spec s :
  settled s →
  ∃ generated, (∀ acc,
      for_each (generatedUpdates byName) (elements (m_productsWhoseArtifactsNeedUpdate s)) acc =
      Ok (acc ++ (UpdateGeneratedArtifacts (V := V) <$> generated))) ∧
    ∀ q, q ∈ generated ↔ ∃ p, p ∈ restored ∧ newOf p q ∧ ¬ outdated p ∧ artifactsNeedUpdate o p q.
Proof.
  intros S. exists (elements (m_productsWhoseArtifactsNeedUpdate s) ≫= λ n, [newOr0 n]). split.
  - intros acc. apply for_each_total. intros n acc' Hin%elem_of_elements.
    destruct (se_pending _ S n) as (p & q & _ & Hq & <- & _); [by right|].
    unfold generatedUpdates, freshProduct. simpl. rewrite (newOr0_spec p q Hq).
    by apply newOf_byName in Hq as ->.
  - intros q. rewrite list_elem_of_bind. split.
    + intros (n & ->%list_elem_of_singleton & Hn%elem_of_elements).
      destruct (se_pending _ S n) as (p & q & Hp & Hq & <- & Hout); [by right|].
      exists p. rewrite (newOr0_spec p q Hq). split; [done|]. split; [done|]. split; [done|].
      by apply (se_update _ S).
    + intros (p & Hp & Hq & Hout & Hu%(se_update _ S)); [|done..].
      exists (nameOf o p). rewrite (newOr0_spec p q Hq), list_elem_of_singleton, elem_of_elements.
      done.
Qed.

Lemma rescues_spec o' l :
  sameProducts o o' → (∀ p, p ∈ l → hasNew p) →
  ∃ rescued, (∀ acc, for_each (rescues o' byName) l acc =
      Ok (acc ++ ((λ x, RescueOldBuildData (V := V) x.1 x.2) <$> rescued))) ∧
    ∀ p q, (p, q) ∈ rescued ↔ p ∈ l ∧ newOf p q.
Proof.
  intros Hs Hl. exists (l ≫= λ p, [(p, newOr0 (nameOf o p))]). split.
  - intros acc. apply for_each_total. intros p acc' [q Hq]%Hl. unfold rescues, freshProduct. simpl.
    rewrite (newOr0_spec p q Hq). fold (nameOf o' p).
    rewrite (same_name o o' p Hs). by apply newOf_byName in Hq as ->.
  - intros p q. rewrite list_elem_of_bind. split.
    + intros (p' & [= -> ->]%list_elem_of_singleton & Hp). split; [done|].
      destruct (Hl p' Hp) as [q Hq]. by rewrite (newOr0_spec p' q Hq).
    + intros [Hp Hq]. exists p. by rewrite (newOr0_spec p q Hq), list_elem_of_singleton.
Qed.

End Tracking.

(** ** Resolving again *)

Section Resolving.
Context {V : Type} {Q : QtVariant V}.
Context (fs : FileSystem) (params : SetupProjectParameters (V := V)) (rp : RestoredProject (V := V)).
Context (o : Projects V).

(** The patterns would find the files that they found, or no directory was changed. *)
Definition wildcardsUpToDate (w : SourceWildCards) : Prop :=
  (∀ d t, (d, t) ∈ dirTimeStamps w → (lastModifiedNow fs d ≤ t)%Z) ∨
  expandedFiles w = list_to_set (wildcardFiles w).

Definition createdByModuleProvider (file : str) : Prop :=
  ∃ dir, dir ∈ providerDirs rp ∧ dir `prefix_of` file.

(** Nothing that was recorded of the last resolving has changed. *)
Record upToDate : Prop := mkUpToDate {
  ud_config : checkConfigCompatibility params rp = Ok true;
  ud_product p : p ∈ allProducts rp →
    existsNow fs (projectFile (productAt o p)) = true ∧
    (lastModifiedNow fs (projectFile (productAt o p)) ≤ lastStartResolveTime rp)%Z ∧
    (∀ f, f ∈ missingSourceFiles (productAt o p) → existsNow fs f = false) ∧
    (∀ w, w ∈ groupWildcards (productAt o p) → wildcardsUpToDate w);
  ud_file f : f ∈ buildSystemFiles rp → (∀ p, p ∈ allProducts rp → projectFile (productAt o p) ≠ f) →
    existsNow fs f = true ∧
    (createdByModuleProvider f → (lastModifiedNow fs f ≤ lastEndResolveTime rp)%Z) ∧
    (¬ createdByModuleProvider f → (lastModifiedNow fs f ≤ lastStartResolveTime rp)%Z);
  ud_probes : forceProbeExecution params = true →
    projectHasProbes rp = false ∧ ∀ p, p ∈ allProducts rp → hasProbes (productAt o p) = false;
  ud_environment : overrideBuildGraphData params = true →
    ∀ x, x ≠ lit "LD_PRELOAD" → environment rp !! x = adjustedEnvironment params !! x;
  ud_canonical f r : canonicalFilePathResults rp !! f = Some r → canonicalFilePathNow fs f = r;
  ud_exists f r : fileExistsResults rp !! f = Some r → existsNow fs f = r;
  ud_entries d r : directoryEntriesResults rp !! d = Some r → entryListNow fs d = r;
  ud_modified f r : fileLastModifiedResults rp !! f = Some r → lastModifiedNow fs f = r
}.

(** The loops over recorded results. *)
Lemma existsb_map_false {K A} `{Countable K} (f : K * A → bool) (P : K → A → Prop) (m : gmap K A) :
  (∀ k x, f (k, x) = false ↔ P k x) →
  existsb f (map_to_list m) = false ↔ ∀ k x, m !! k = Some x → P k x.
Proof.
  intros Hf. rewrite existsb_false. split.
  - intros Hm k x Hk. apply Hf, Hm. by apply elem_of_map_to_list.
  - intros Hm [k x] Hk%elem_of_map_to_list. by apply Hf, Hm.
Qed.

Lemma negb_bool_decide_false {P : Prop} `{Decision P} : negb (bool_decide P) = false ↔ P.
Proof. by rewrite negb_false_iff, bool_decide_eq_true. Qed.

Lemma wildcardsChanged_false w : wildcardsChanged fs w = false ↔ wildcardsUpToDate w.
Proof.
  unfold wildcardsChanged, wildcardsUpToDate.
  rewrite andb_false_iff, existsb_false, negb_bool_decide_false. apply or_iff_compat_r. split.
  - intros H d t Hd. specialize (H _ Hd). simpl in H. lia.
  - intros H [d t] Hd. specialize (H _ _ Hd). lia.
Qed.

Definition productUpToDate (p : nat) : Prop :=
  existsNow fs (projectFile (productAt o p)) = true ∧
  (lastModifiedNow fs (projectFile (productAt o p)) ≤ lastStartResolveTime rp)%Z ∧
  (∀ f, f ∈ missingSourceFiles (productAt o p) → existsNow fs f = false) ∧
  (∀ w, w ∈ groupWildcards (productAt o p) → wildcardsUpToDate w).

Lemma productFileStep_true files changed p : (productFileStep fs rp o (files, changed, true) p).2 = true.
Proof. unfold productFileStep. by repeat case_match. Qed.

Lemma productFileStep_false files p files' changed' :
  productFileStep fs rp o (files, [], false) p = (files', changed', false) →
  files' = files ∖ {[ projectFile (productAt o p) ]} ∧ changed' = [] ∧ productUpToDate p.
Proof.
  unfold productFileStep, productUpToDate.
  destruct (existsNow fs (projectFile (productAt o p))); cbn [negb]; [|done].
  destruct (Z.ltb_spec (lastStartResolveTime rp) (lastModifiedNow fs (projectFile (productAt o p))));
    [done|].
  rewrite (bool_decide_false (p ∈ [])) by apply not_elem_of_nil.
  destruct (existsb (existsNow fs) _) eqn:E1; [done|].
  destruct (existsb (wildcardsChanged fs) _) eqn:E2; [done|].
  rewrite existsb_false in E1. rewrite existsb_false in E2. intros [= <- <-]. split; [done|]. split; [done|].
  split; [done|]. split; [done|]. split; [done|]. intros w Hw. by apply wildcardsChanged_false, E2.
Qed.

Lemma productFileStep_upToDate files p :
  productUpToDate p →
  productFileStep fs rp o (files, [], false) p = (files ∖ {[ projectFile (productAt o p) ]}, [], false).
Proof.
  intros (E & T & M & W). unfold productFileStep. rewrite E. cbn [negb].
  destruct (Z.ltb_spec (lastStartResolveTime rp) (lastModifiedNow fs (projectFile (productAt o p))));
    [lia|].
  rewrite (bool_decide_false (p ∈ [])) by apply not_elem_of_nil.
  rewrite (proj2 (existsb_false _ _) M).
  by rewrite (proj2 (existsb_false _ _) (λ w Hw, proj2 (wildcardsChanged_false w) (W w Hw))).
Qed.

Lemma productFileSteps_true l st : st.2 = true → (foldl (productFileStep fs rp o) st l).2 = true.
Proof.
  revert st. induction l as [|p l IH]; intros [[files changed] b] E; simpl in *; [done|].
  subst b. apply IH. exact (productFileStep_true files changed p).
Qed.

Definition withoutProductFiles (files : gset str) (l : list nat) : gset str :=
  files ∖ list_to_set ((λ p, projectFile (productAt o p)) <$> l).

Lemma productFileSteps_false l files files' changed' :
  foldl (productFileStep fs rp o) (files, [], false) l = (files', changed', false) ↔
  files' = withoutProductFiles files l ∧ changed' = [] ∧ ∀ p, p ∈ l → productUpToDate p.
Proof.
  revert files. induction l as [|p l IH]; intros files; cbn [foldl].
  { unfold withoutProductFiles. simpl. rewrite difference_empty_L. split.
    - intros [= <- <-]. split; [done|]. split; [done|]. by intros p ?%not_elem_of_nil.
    - by intros (-> & -> & _). }
  assert (withoutProductFiles files (p :: l) =
    withoutProductFiles (files ∖ {[ projectFile (productAt o p) ]}) l) as ->.
  { unfold withoutProductFiles. simpl. set_solver. }
  destruct (productFileStep fs rp o (files, [], false) p) as [[f1 c1] [|]] eqn:E.
  - split.
    + intros H. pose proof (productFileSteps_true l (f1, c1, true) eq_refl) as H'. by rewrite H in H'.
    + intros (_ & _ & H). rewrite productFileStep_upToDate in E; [done|]. apply H. left.
  - apply productFileStep_false in E as (-> & -> & Hp). rewrite IH.
    setoid_rewrite elem_of_cons. naive_solver.
Qed.

Lemma buildSystemFileChanged_false f :
  buildSystemFileChanged fs rp f = false ↔
  existsNow fs f = true ∧
  (createdByModuleProvider f → (lastModifiedNow fs f ≤ lastEndResolveTime rp)%Z) ∧
  (¬ createdByModuleProvider f → (lastModifiedNow fs f ≤ lastStartResolveTime rp)%Z).
Proof.
  unfold buildSystemFileChanged. destruct (existsNow fs f); cbn [negb]; [|naive_solver].
  assert (existsb (λ dir, bool_decide (take (length dir) f = dir)) (providerDirs rp) = true ↔
    createdByModuleProvider f) as Hc.
  { unfold createdByModuleProvider. rewrite existsb_exists. split.
    - intros (dir & Hd & E%bool_decide_eq_true). exists dir. split; [by apply list_elem_of_In|].
      rewrite <- E. apply prefix_take.
    - intros (dir & Hd & [k ->]). exists dir. split; [by apply list_elem_of_In|].
      by rewrite bool_decide_eq_true, take_app_length. }
  destruct (existsb _ _).
  - assert (createdByModuleProvider f) by by apply Hc. rewrite Z.ltb_ge. naive_solver.
  - assert (¬ createdByModuleProvider f) by by intros ?%Hc. rewrite Z.ltb_ge. naive_solver.
Qed.

Lemma environment_false :
  hasEnvironmentChanged params rp = false ↔
  (overrideBuildGraphData params = true →
   ∀ x, x ≠ lit "LD_PRELOAD" → environment rp !! x = adjustedEnvironment params !! x).
Proof.
  unfold hasEnvironmentChanged. destruct (overrideBuildGraphData params); cbn [negb]; [|by split].
  rewrite negb_bool_decide_false, map_eq_iff. split.
  - intros H _ x Hx. specialize (H x). by rewrite !lookup_delete_ne in H.
  - intros H x. destruct (decide (x = lit "LD_PRELOAD")) as [->|Hx].
    + by rewrite !lookup_delete_eq.
    + rewrite !lookup_delete_ne by done. by apply H.
Qed.

Lemma probes_false :
  probeExecutionForced params rp o = false ↔
  (forceProbeExecution params = true →
   projectHasProbes rp = false ∧ ∀ p, p ∈ allProducts rp → hasProbes (productAt o p) = false).
Proof.
  unfold probeExecutionForced. destruct (forceProbeExecution params); cbn [negb]; [|by split].
  destruct (projectHasProbes rp); [split; [done|]; intros H; by destruct (H eq_refl)|].
  rewrite existsb_false. naive_solver.
Qed.

Lemma recorded_false :
  (hasCanonicalFilePathResultChanged fs rp = false ↔
     ∀ f r, canonicalFilePathResults rp !! f = Some r → canonicalFilePathNow fs f = r) ∧
  (hasFileExistsResultChanged fs rp = false ↔
     ∀ f r, fileExistsResults rp !! f = Some r → existsNow fs f = r) ∧
  (hasDirectoryEntriesResultChanged fs rp = false ↔
     ∀ d r, directoryEntriesResults rp !! d = Some r → entryListNow fs d = r) ∧
  (hasFileLastModifiedResultChanged fs rp = false ↔
     ∀ f r, fileLastModifiedResults rp !! f = Some r → lastModifiedNow fs f = r).
Proof.
  split_and!; apply existsb_map_false; intros k x; simpl.
  - apply negb_bool_decide_false.
  - rewrite negb_false_iff. apply Bool.eqb_true_iff.
  - apply negb_bool_decide_false.
  - rewrite negb_false_iff. apply Z.eqb_eq.
Qed.

End Resolving.
