(* ===== verification/BuildGraphLoaderExamples.v ===== *)
(** * The build graph loader on examples

    A project in which one library has changed, and what happens when two rules have
    the same key. *)

From S2P Require Import Prelude FlatSet BuildGraph StateMonad ChangeTracking BuildGraphLoader BuildGraphLoaderCorrect ProductTracking ProjectTracking ChangeTrackingExamples.

(** Conditions on all products, checked on the list of products. *)
Lemma dependsOn_check {V} {Q : QtVariant V} (o : Projects V) (P : nat → nat → bool) :
  forallb (λ kv, forallb (P kv.1) (loadedDependencies kv.2)) (map_to_list (loadedProducts o)) = true →
  ∀ p d, dependsOn o p d → P p d = true.
Proof.
  intros H p d Hd. unfold dependsOn, productAt in Hd.
  destruct (loadedProducts o !! p) as [x|] eqn:E; simpl in Hd; [|by apply not_elem_of_nil in Hd].
  rewrite forallb_forall in H. specialize (H (p, x)). rewrite <- list_elem_of_In, elem_of_map_to_list in H.
  specialize (H E). rewrite forallb_forall in H. apply H. by apply list_elem_of_In.
Qed.

Lemma acyclic_check {V} {Q : QtVariant V} (o : Projects V) :
  forallb (λ kv, forallb (λ d, d <? kv.1) (loadedDependencies kv.2)) (map_to_list (loadedProducts o)) = true →
  acyclicProducts o.
Proof.
  intros H p Hp. assert (∀ x y, tc (dependsOn o) x y → y < x) as Hlt; [|by apply Hlt in Hp; lia].
  assert (∀ x y, dependsOn o x y → y < x) as H1.
  { intros x y Hd. apply Nat.ltb_lt. by apply (dependsOn_check o (λ x y, y <? x)) in Hd. }
  intros x y Ht. induction Ht as [x y Hd|x y z Hd _ IH]; [by apply H1|].
  apply H1 in Hd. lia.
Qed.

Module LoaderExample.
Import ChangeTrackingExamples.Example.
#[local] Existing Instance value_variant.

Definition script (code : string) : ScriptFunction := mkScriptFunction (lit code) (lit "a.qbs") 3 1 0.

Definition rule (code : string) (dependsOnTags : gset str) : RuleContent :=
  mkRuleContent [] (lit "cpp") (script code) noScript {[ lit "cpp" ]} {[ lit "obj" ]} ∅ ∅ ∅
    dependsOnTags ∅ false true false.

Definition file (path : string) (tags : gset str) : SourceFile Value :=
  mkSourceFile (lit path) tags false [] ∅.

Definition product (name : string) (deps rules : list nat) (files : list (SourceFile Value))
    (data : option (list LoadedNode)) : Product Value :=
  mkProduct (lit name) true deps ∅ rules [] files (0, ∅) (lit "a.qbs") [] [] false data.

(** The restored products are [lib], [app], which depends on it, [tool] and [old]; in
    the new project [lib] has another file, [old] is gone and [extra] is new. *)
Definition projects : Projects Value :=
  mkProjects
    (list_to_map
      [(1, product "lib" [] [] [file "lib.cpp" ∅] (Some [LoadedSource 1]));
       (2, product "app" [1] [] [file "app.cpp" ∅] (Some [LoadedSource 2]));
       (3, product "tool" [] [1] [file "tool.cpp" ∅]
             (Some [LoadedRuleNode 3 1; LoadedSource 3; LoadedGenerated 3 (Some 7)]));
       (4, product "old" [] [] [] (Some []));
       (11, product "lib" [] [] [file "lib.cpp" ∅; file "more.cpp" ∅] None);
       (12, product "app" [11] [] [file "app.cpp" ∅] None);
       (13, product "tool" [] [11] [file "tool.cpp" {[ lit "cpp" ]}] None);
       (15, product "extra" [] [] [] None)])
    {[ 1 := rule "compile" ∅; 11 := rule "compile" ∅ ]}
    {[ 7 := 1 ]}.

(** [lib] and [app] get new build data, [tool] keeps its own. *)
Example projects_tracked :
  option_map (λ r : Projects Value * list (Action Value),
      (dataOfProduct r.1 13, transformerRules r.1 !! 7, r.2))
    (match trackProducts projects [11; 12; 13; 15] [1; 2; 3; 4] [] with Ok r => Some r | Throw _ => None end) =
  Some (Some [LoadedRuleNode 13 11; LoadedSource 13; LoadedGenerated 13 (Some 7)], Some 11,
    [OnProductRemoved 1 false; OnProductRemoved 2 false; OnProductRemoved 4 true;
     ResolveProductBuildData [11; 12; 15];
     UpdateArtifactFromSourceArtifact 13 (file "tool.cpp" {[ lit "cpp" ]});
     RescueOldBuildData 1 11; RescueOldBuildData 2 12]).
Proof. vm_compute. reflexivity. Qed.

Lemma projects_loadable : loadable projects [11; 12; 13; 15] [1; 2; 3; 4] [].
Proof.
  split.
  - apply (bool_decide_eq_true_1 _). by vm_compute.
  - intros x Hx. set_unfold in Hx. apply elem_of_dom. destruct_or! Hx; subst; apply (bool_decide_eq_true_1 _); by vm_compute.
  - apply (bool_decide_eq_true_1 _). by vm_compute.
  - apply (bool_decide_eq_true_1 _). by vm_compute.
  - intros q Hq. set_unfold in Hq. destruct_or! Hq; subst; by vm_compute.
  - intros q Hq. set_unfold in Hq.
    destruct_or! Hq; subst; apply (bool_decide_eq_true_1 _); by vm_compute.
  - apply acyclic_check. by vm_compute.
  - intros p d _ Hd. apply elem_of_dom.
    apply (dependsOn_check projects (λ _ d, bool_decide (is_Some (loadedProducts projects !! d)))) in Hd;
      [by apply bool_decide_eq_true in Hd|by vm_compute].
  - intros p d Hp Hd. set_unfold in Hp. destruct_or! Hp; subst; vm_compute in Hd; set_solver.
  - split; [constructor|]. set_solver.
  - intros p Hp. set_unfold in Hp.
    destruct_or! Hp; subst; apply (bool_decide_eq_true_1 _); by vm_compute.
  - intros p ns x r Hp Hd Hn. set_unfold in Hp.
    destruct_or! Hp; subst; vm_compute in Hd; simplify_eq; set_unfold in Hn; destruct_or! Hn;
      simplify_eq; apply (bool_decide_eq_true_1 _); by vm_compute.
  - intros p ns x t Hp Hd Hn. set_unfold in Hp.
    destruct_or! Hp; subst; vm_compute in Hd; simplify_eq; set_unfold in Hn; destruct_or! Hn;
      simplify_eq. exists 7. split; [done|]. apply (bool_decide_eq_true_1 _); by vm_compute.
  - intros p1 p2 ns1 ns2 x1 x2 t H1 H2 D1 D2 N1 N2. set_unfold in H1. set_unfold in H2.
    destruct_or! H1; destruct_or! H2; subst; vm_compute in D1, D2; simplify_eq;
      set_unfold in N1; set_unfold in N2; destruct_or! N1; destruct_or! N2; simplify_eq; done.
Qed.


(** The two rules of the old product have the same key and differ in
    [explicitlyDependsOn]; both rules of the new product are like the second one.
    The lists are taken for equal, the product keeps its build data, and the first
    rule is not found again. *)
Definition twoRules : Projects Value :=
  mkProjects
    (list_to_map
      [(1, product "tool" [] [1; 2] [] (Some [LoadedRuleNode 1 1; LoadedRuleNode 1 2]));
       (11, product "tool" [] [11; 12] [] None)])
    {[ 1 := rule "run" {[ lit "txt" ]}; 2 := rule "run" ∅; 11 := rule "run" ∅; 12 := rule "run" ∅ ]}
    ∅.

Example equal_keys_hide_a_change :
  ruleListsAreEqual twoRules 1 11 = true ∧
  rule_eqb (ruleContentAt twoRules 1) (ruleContentAt twoRules 11) = false ∧
  trackProducts twoRules [11] [1] [] = Throw CheckFailed.
Proof. vm_compute. done. Qed.

(** The property maps of the old and the new product are different objects with the
    same content: all generated artifacts are updated. *)
Definition sameProperties : Projects Value :=
  mkProjects
    (list_to_map
      [(1, mkProduct (lit "a") true [] ∅ [] [] [] (1, ∅) (lit "a.qbs") [] [] false (Some []));
       (11, mkProduct (lit "a") true [] ∅ [] [] [] (2, ∅) (lit "a.qbs") [] [] false None)]) ∅ ∅.

Example equal_properties_are_updated :
  match trackProducts sameProperties [11] [1] [] with Ok (_, l) => Some l | Throw _ => None end =
  Some [UpdateGeneratedArtifacts 11].
Proof. vm_compute. reflexivity. Qed.
End LoaderExample.
