(* ===== verification/BuildDataRescue.v ===== *)
(** * Build data of changed and removed products ([buildgraph/buildgraphloader.cpp])

    A product that has changed gets new build data.  What is worth keeping of its
    old artifacts is recorded by path, before the rules of the new product create
    artifacts again; the executor takes it over for an artifact that has the same
    path, commands and children ([Executor.rescueOldBuildData]).  The old nodes are
    cut off from the graph by [onProductRemoved], so their children are recorded
    before it. *)

From S2P Require Import Prelude FlatSet BuildGraph StateMonad ExecutorState Executor.

(** ** The children of the restored artifacts *)

Record ChildrenInfo := mkChildrenInfo {
  infoChildren : NodeSet;
  infoAddedByScanner : NodeSet
}.

Abbreviation ChildListHash := (gmap nat ChildrenInfo).

Definition recordChildren (h : Heap) (childLists : ChildListHash) (a : nat) : ChildListHash :=
  <[a := mkChildrenInfo (artifacts_of h (children (node h a)))
           (childrenAddedByScanner (artifactOf h a))]> childLists.

Definition recordProduct (h : Heap) (childLists : ChildListHash) (p : nat) : ChildListHash :=
  match buildDataOf h p with
  | None => childLists
  | Some b => foldl (recordChildren h) childLists (artifacts_of h (m_nodes b))
  end.

(** Nothing is recorded when no product has changed. *)
Definition childListsOf (h : Heap) (changed restored : list nat) : ChildListHash :=
  if is_nil changed then ∅ else foldl (recordProduct h) ∅ restored.

(** ** Products that are removed *)

(** A node that is no artifact loses its parents and its children. *)
Definition isolateNode (u : nat) (h : Heap) : Heap :=
  let h := foldl (λ h p, upd_node (set_children (λ s, del s u)) p h) h (parents (node h u)) in
  let h := upd_node (set_parents (λ _, [])) u h in
  let h := foldl (λ h c, upd_node (set_parents (λ s, del s u)) c h) h (children (node h u)) in
  upd_node (set_children (λ _, [])) u h.

(** One round of the loop over the nodes; the second part of the state is
    [m_artifactsRemovedFromDisk]. *)
Definition removeProductNode (removeArtifactsFromDisk : bool) (u : nat) (st : Heap * list str) :
    exn BGError (Heap * list str) :=
  let '(h, removed) := st in
  match as_artifact h u with
  | None => Ok (isolateNode u h, removed)
  | Some x =>
      let* h := removeArtifact u false h in
      Ok (h, if removeArtifactsFromDisk && bool_decide (artifactType x = Generated)
             then removed ++ [filePath x] else removed)
  end.

(** [projectProducts] is [product->project->products]. *)
Definition onProductRemoved (p : nat) (removeArtifactsFromDisk : bool) (projectProducts : list nat)
    (h : Heap) : exn BGError (list nat * Heap * list str) :=
  let projectProducts := removeOne projectProducts p in
  match buildDataOf h p with
  | None => Ok (projectProducts, h, [])
  | Some b =>
      let* (h, removed) := for_each (removeProductNode removeArtifactsFromDisk) (m_nodes b) (h, []) in
      Ok (projectProducts, h, removed)
  end.

(** ** Rescuable data *)

(** [rescuableArtifactData()] of a product *)
Definition rescuableOf (g : Graph) (p : nat) : gmap str RescuableArtifactData :=
  default ∅ (map_curry (M1 := gmap nat) (M2 := gmap str) (rescuable g) !! p).

(** [new ProductBuildData] for a product that has none *)
Definition provideBuildData (q : nat) : Heap → Heap :=
  set_products (alter (λ rp,
    mkResolvedProduct (uniqueName rp) (enabled rp) (product_fileTags rp) (dependencies rp)
      (product_rules rp) (product_project rp) (product_modules rp)
      (Some (default (mkProductBuildData [] [] ∅ true) (buildData rp)))) q).

(** The body of the loop over the children of the old artifact [a]: the file
    dependencies are appended once for each child. *)
Definition recordChild (h : Heap) (a : nat) (childrenInfo : ChildrenInfo) (child : nat)
    (r : list ChildData * list str) : exn BGError (list ChildData * list str) :=
  match productOf h child with
  | None => Throw NullPointer
  | Some p =>
      Ok (r.1 ++ [mkChildData (default [] (uniqueName <$> products h !! p))
                    (filePath (artifactOf h child))
                    (contains (infoAddedByScanner childrenInfo) child)],
          r.2 ++ ((λ d, default [] (fileDependencies h !! d)) <$>
                    artifact_fileDependencies (artifactOf h a)))
  end.

Definition rescuableData (g : Graph) (childLists : ChildListHash) (a t : nat) :
    exn BGError RescuableArtifactData :=
  let childrenInfo := default (mkChildrenInfo [] []) (childLists !! a) in
  let* (cs, deps) := for_each (recordChild (heap g) a childrenInfo) (infoChildren childrenInfo)
                       ([], []) in
  let td := default newTransformerData (transformerData g !! t) in
  let tr := default emptyTransformer (transformers (heap g) !! t) in
  Ok (mkRescuableArtifactData (timestamp (artifactOf (heap g) a)) cs deps (commandsId td)
        (markedForRerun td) (artifactsMapRequestedInPrepareScript tr)
        (artifactsMapRequestedInCommands tr)).

(** The body of the loop over the old artifacts. *)
Definition rescueArtifact (q : nat) (childLists : ChildListHash) (a : nat) (g : Graph) :
    exn BGError Graph :=
  let x := artifactOf (heap g) a in
  match transformer x with
  | None => Ok g
  | Some t =>
      match lookupArtifactByPath (heap g) q (filePath x) false with
      | Some _ => Ok g
      | None =>
          let* rad := rescuableData g childLists a t in
          Ok (on_rescuable (insert (q, filePath x) rad) g)
      end
  end.

(** [BuildGraphLoader::rescueOldBuildData]: [p] is the restored, [q] the newly
    resolved product. *)
Definition rescueOldBuildData (p q : nat) (childLists : ChildListHash)
    (existingRad : gmap str RescuableArtifactData) (g : Graph) : exn BGError Graph :=
  match buildDataOf (heap g) p with
  | None => Ok g
  | Some b =>
      let g := on_heap (provideBuildData q) g in
      let* _ := QBS_CHECK (bool_decide (rescuableOf g q = ∅)) in
      let g := on_rescuable (λ m, kmap (pair q) existingRad ∪ m) g in
      for_each (rescueArtifact q childLists) (artifacts_of (heap g) (m_nodes b)) g
  end.
