(* ===== verification/ProductRemoval.v ===== *)
(** * Removing a product from the build graph

    [BuildGraphLoader::onProductRemoved]: its nodes lose exactly their edges, none of
    its artifacts can be looked up any more, and the graph of the other products
    stays as it is. *)

From S2P Require Import Prelude FlatSet BuildGraph BuildGraphCorrect ArtifactRemoval.
From S2P Require Import ArtifactLookup.
From S2P Require Import StateMonad ExecutorState Executor BuildDataRescue.

(** ** A single node *)

Lemma isolateNode_isolated u h : wf_graph h → isolated u h (isolateNode u h).
Proof.
  intros Hw. unfold isolateNode. set (h1 := foldl _ h (parents (node h u))).
  assert (children (node h1 u) = children (node h u)) as Hc1.
  { unfold h1. rewrite (foldl_upd_change children (λ s, del s u));
      [|by apply wf_set_NoDup, Hw|done|done].
    case_decide as E; [|done]. exfalso. apply (wf_edges h Hw) in E. by apply (wf_irrefl h Hw u). }
  apply isolated_sets; [done|..]; intros x.
  - rewrite (node_upd_change children (λ _, [])) by (done || by right).
    destruct (decide (u = x)) as [->|Hne]; [by rewrite decide_True|].
    rewrite (decide_False (P := x = u)) by congruence.
    rewrite (foldl_upd_field children), (node_upd_field children) by done. unfold h1.
    by rewrite (foldl_upd_change children (λ s, del s u)) by (done || by apply wf_set_NoDup, Hw).
  - rewrite !(node_upd_field children), (node_upd_field parents), Hc1 by done.
    rewrite (foldl_upd_change parents (λ s, del s u)) by (done || by apply wf_set_NoDup, Hw).
    rewrite (node_upd_change parents (λ _, [])) by (done || by right). unfold h1.
    rewrite (foldl_upd_field parents) by done.
    destruct (decide (u = x)) as [->|Hne]; [rewrite (decide_True (P := x = x)) by done|].
    + by case_decide.
    + rewrite (decide_False (P := x = u)) by congruence. done.
Qed.

Lemma isolateNode_frame u h : frame h (isolateNode u h).
Proof.
  unfold isolateNode. etrans; [|apply frame_set_children].
  etrans; [|apply frame_foldl; intros; apply frame_set_parents].
  etrans; [|apply frame_set_parents]. apply frame_foldl. intros. apply frame_set_children.
Qed.

Lemma foldl_upd_kept {B} (field : Heap → B) f (l : list nat) h :
  (∀ h x, field (upd_node f x h) = field h) →
  field (foldl (λ h p, upd_node f p h) h l) = field h.
Proof. intros Hf. revert h. induction l as [|x l IH]; intros h; simpl; [done|]. by rewrite IH. Qed.

Lemma isolateNode_kept {B} (field : Heap → B) u h :
  (∀ f h x, field (upd_node f x h) = field h) → field (isolateNode u h) = field h.
Proof. intros Hf. unfold isolateNode. by rewrite Hf, (foldl_upd_kept field), Hf, (foldl_upd_kept field). Qed.

Lemma for_each_kept {A B} (field : Heap → B) (f : A → Heap → exn BGError Heap) l h h' :
  (∀ x h h', f x h = Ok h' → field h' = field h) → for_each f l h = Ok h' → field h' = field h.
Proof.
  intros Hf. revert h. induction l as [|x l IH]; intros h H; simpl in H; [by simplify_eq|].
  destruct (f x h) as [h1|] eqn:E; simpl in H; [|done]. rewrite (IH _ H). by eapply Hf.
Qed.

(** The objects that [removeArtifact] does not touch. *)
Lemma removeArtifact_products a h h' : removeArtifact a false h = Ok h' → products h' = products h.
Proof.
  unfold removeArtifact. intros H.
  destruct (disconnectArtifact a _) as [h1|] eqn:E; simpl in H; [|done].
  assert (products h' = products h1) as -> by (repeat case_match; simplify_eq/=; done).
  unfold disconnectArtifact, disconnectArtifactParents in E.
  destruct (for_each _ _ _) as [h2|] eqn:E2; simpl in E; [|done]. simplify_eq. simpl.
  apply (for_each_kept products) in E2.
  - rewrite E2. unfold disconnectArtifactChildren. simpl. rewrite (foldl_upd_kept products) by done.
    unfold removeFromRuleNodes, removeOldInputArtifact. by rewrite (foldl_upd_kept products).
  - intros x h0 h3. unfold disconnectParent. destruct (as_artifact _ x) as [y|]; [|by intros [= <-]].
    destruct (transformer y); [by intros [= <-]|done].
Qed.

(** ** The loop over the nodes *)

Section Removal.
Variables (h : Heap) (removeArtifactsFromDisk : bool).
Hypothesis Hok : project_ok h.

(** The paths of the artifacts [l] whose files are removed. *)
Definition removedPaths (l : list nat) : list str :=
  if removeArtifactsFromDisk then
    (λ a, filePath (artifactOf h a)) <$>
      List.filter (λ a, bool_decide (artifactType (artifactOf h a) = Generated)) (artifacts_of h l)
  else [].

(** What the state [(h', paths)] has become when the nodes [D] have been visited. *)
Record removing_nodes (D : list nat) (h' : Heap) (paths : list str) : Prop := {
  rn_frame : frame h h';
  rn_products : products h' = products h;
  rn_graph : wf_graph h';
  rn_edges x y : edge h' x y ↔ edge h x y ∧ x ∉ D ∧ y ∉ D;
  rn_inputs : keeps_inputs (λ i, (i ∈ D) ∧ isArtifact h i = true) h h';
  rn_lookup a key : a ∈ D → isArtifact h a = true → a ∉ default [] (lookupTable h' !! key);
  rn_paths : paths = removedPaths D
}.

Lemma removing_nodes_start : removing_nodes [] h [].
Proof.
  split; [done|done|apply Hok|..].
  - intros x y. rewrite !elem_of_nil. tauto.
  - by apply keeps_inputs_eq.
  - by intros a key ?%elem_of_nil.
  - unfold removedPaths. by destruct removeArtifactsFromDisk.
Qed.

Lemma removedPaths_app D u :
  removedPaths (D ++ [u]) = removedPaths D ++
    (if removeArtifactsFromDisk && isArtifact h u &&
        bool_decide (artifactType (artifactOf h u) = Generated)
     then [filePath (artifactOf h u)] else []).
Proof.
  unfold removedPaths, artifacts_of. destruct removeArtifactsFromDisk; [|done]. simpl.
  rewrite !List.filter_app, fmap_app. f_equal. simpl.
  destruct (isArtifact h u); simpl; [|done]. by case_bool_decide.
Qed.

(** From the visited nodes [D] to [D ++ [u]]. *)
Lemma removing_nodes_step D u h1 h2 paths paths2 :
  removing_nodes D h1 paths → frame h1 h2 → products h2 = products h1 → isolated u h1 h2 →
  keeps_inputs (λ i, i = u ∧ isArtifact h u = true) h1 h2 →
  (isArtifact h u = true → ∀ key, u ∉ default [] (lookupTable h2 !! key)) →
  paths2 = paths ++ (if removeArtifactsFromDisk && isArtifact h u &&
                        bool_decide (artifactType (artifactOf h u) = Generated)
                     then [filePath (artifactOf h u)] else []) →
  removing_nodes (D ++ [u]) h2 paths2.
Proof.
  intros [F1 P1 G1 E1 I1 L1 D1] F2 P2 [G2 E2] I2 L2 ->. split.
  - by etrans.
  - congruence.
  - done.
  - intros x y. rewrite E2, E1, !not_elem_of_app, !not_elem_of_cons. pose proof (not_elem_of_nil x).
    pose proof (not_elem_of_nil y). tauto.
  - eapply keeps_inputs_trans; [..|exact I1|exact I2]; simpl; intros i;
      rewrite elem_of_app, list_elem_of_singleton; naive_solver.
  - intros a key [Ha|Ha%list_elem_of_singleton]%elem_of_app Hart.
    + intros Hin. apply (in_sublist _ _ _ (fr_lookup _ _ F2 key)) in Hin. by apply (L1 a key).
    + subst a. by apply L2.
  - by rewrite removedPaths_app, D1.
Qed.

Lemma artifactOf_frame h' a :
  frame h h' → isArtifact h a = true → ∃ x, as_artifact h' a = Some x ∧
    filePath x = filePath (artifactOf h a) ∧ artifactType x = artifactType (artifactOf h a).
Proof.
  intros F Ha. unfold isArtifact in Ha. unfold artifactOf.
  destruct (as_artifact h a) as [x|] eqn:E; [|done].
  destruct (frame_lookup _ _ _ _ F E) as (x' & -> & Hc). exists x'. by injection Hc as -> -> _ _.
Qed.

Lemma removeProductNode_ok D u h1 paths :
  (∀ p x, edge h p u → isArtifact h u = true → as_artifact h p = Some x → is_Some (transformer x)) →
  removing_nodes D h1 paths →
  ∃ h2 paths2, removeProductNode removeArtifactsFromDisk u (h1, paths) = Ok (h2, paths2) ∧
    removing_nodes (D ++ [u]) h2 paths2.
Proof.
  intros Ht HR. pose proof (rn_frame _ _ _ HR) as F1. unfold removeProductNode.
  destruct (isArtifact h u) eqn:Hu.
  - destruct (artifactOf_frame h1 u F1 Hu) as (x & Hx & Hf & Hty). rewrite Hx.
    destruct (removeArtifact_ok u false h1) as (h2 & E & F2 & Hiso & Hi & Hl & _ & _).
    + eapply project_ok_frame; [exact Hok|done|apply HR].
    + by rewrite (frame_isArtifact _ _ _ F1).
    + intros p x0 Hp Hx0. apply (rn_edges _ _ _ HR) in Hp as [Hp _].
      destruct (frame_sym_lookup _ _ _ _ F1 Hx0) as (x1 & Hx1 & Hc).
      injection Hc as _ _ _ <-. by apply (Ht p).
    + rewrite E. simpl. eexists _, _. split; [done|].
      eapply removing_nodes_step; [done|done|by eapply removeArtifact_products|done| |done|].
      * eapply keeps_inputs_trans; [..|exact Hi|by apply keeps_inputs_eq]; naive_solver.
      * rewrite Hu, Hf, Hty, andb_true_r. case_match; [done|by rewrite app_nil_r].
  - assert (as_artifact h1 u = None) as ->.
    { rewrite <-(frame_isArtifact _ _ _ F1) in Hu. unfold isArtifact in Hu. by destruct (as_artifact h1 u). }
    eexists _, _. split; [done|]. eapply removing_nodes_step; [done|apply isolateNode_frame|..].
    + by apply (isolateNode_kept products).
    + apply isolateNode_isolated, HR.
    + apply keeps_inputs_eq. by apply (isolateNode_kept transformers).
    + congruence.
    + by rewrite Hu, andb_false_r, app_nil_r.
Qed.

Lemma removeProductNodes_ok l D h1 paths :
  (∀ u p x, u ∈ l → edge h p u → isArtifact h u = true → as_artifact h p = Some x →
     is_Some (transformer x)) →
  removing_nodes D h1 paths →
  ∃ h2 paths2, for_each (removeProductNode removeArtifactsFromDisk) l (h1, paths) = Ok (h2, paths2) ∧
    removing_nodes (D ++ l) h2 paths2.
Proof.
  revert D h1 paths. induction l as [|u l IH]; intros D h1 paths Ht HR; cbn [for_each].
  { rewrite app_nil_r. eauto. }
  destruct (removeProductNode_ok D u h1 paths) as (h2 & paths2 & -> & HR2); [|done|].
  { intros p x. apply Ht. left. }
  cbn [exn_bind]. destruct (IH (D ++ [u]) h2 paths2) as (h3 & paths3 & E & HR3); [|done|].
  { intros v p x Hv. apply Ht. by right. }
  exists h3, paths3. split; [done|]. by rewrite <-app_assoc in HR3.
Qed.
End Removal.

(** ** The property *)

(** C16: a product can be removed from every consistent project.  Its nodes lose all
    their edges and no other edge is lost; none of its artifacts can be looked up;
    transformers lose no other input; the tables stay consistent, and the product is
    only taken off the list of its project.  The files reported as removed from disk
    are those of its generated artifacts, if they are to be removed at all. *)
Theorem onProductRemoved_correct p removeArtifactsFromDisk projectProducts h b :
  project_ok h → buildDataOf h p = Some b →
  (∀ u v x, v ∈ m_nodes b → edge h u v → isArtifact h v = true → as_artifact h u = Some x →
     is_Some (transformer x)) →
  ∃ h', onProductRemoved p removeArtifactsFromDisk projectProducts h =
          Ok (removeOne projectProducts p, h', removedPaths h removeArtifactsFromDisk (m_nodes b)) ∧
    project_ok h' ∧ products h' = products h ∧
    (∀ x y, edge h' x y ↔ edge h x y ∧ x ∉ m_nodes b ∧ y ∉ m_nodes b) ∧
    (∀ q path a, lookupArtifactByPath h' q path false = Some a → a ∉ m_nodes b) ∧
    keeps_inputs (λ i, i ∈ m_nodes b ∧ isArtifact h i = true) h h' ∧
    (∀ a, core <$> as_artifact h' a = core <$> as_artifact h a).
Proof.
  intros Hok Hb Ht. unfold onProductRemoved. rewrite Hb.
  destruct (removeProductNodes_ok h removeArtifactsFromDisk Hok (m_nodes b) [] h [])
    as (h' & paths & -> & [F P G E I L ->]); [by intros; eapply Ht|by apply removing_nodes_start|].
  exists h'. split; [done|]. split; [by eapply project_ok_frame|]. split; [done|].
  split; [done|]. split; [|split; [done|apply F]].
  intros q path a (Hl & [x Hx] & _)%findArtifact_Some Hin. eapply (L a); [exact Hin| |exact Hl].
  rewrite <-(frame_isArtifact _ _ _ F). unfold isArtifact. by rewrite Hx.
Qed.
