(* ===== verification/BuildDataRescueCorrect.v ===== *)
(** * Rescued data reach the new artifacts

    What the loader records of an old artifact is what the executor compares and
    takes over for the new artifact with the same path, and it does so exactly when
    nothing that matters has changed. *)

From S2P Require Import Prelude FlatSet BuildGraph BuildGraphCorrect ArtifactRemoval.
From S2P Require Import ArtifactLookup StateMonad ExecutorState Executor BuildDataRescue.

(** ** What the loader records *)

Section Recorded.
Variables (h0 : Heap) (g : Graph).

(** The child [c] of the old artifact [a], before the old product was removed. *)
Definition oldChild (a c : nat) : Prop := edge h0 a c ∧ isArtifact h0 c = true.
Definition foundByScanner (a c : nat) : bool :=
  contains (childrenAddedByScanner (artifactOf h0 a)) c.

Definition productName (h : Heap) (u : nat) : str :=
  default [] (uniqueName <$> (productOf h u ≫= λ p, products h !! p)).

Definition childData (a c : nat) : ChildData :=
  mkChildData (productName (heap g) c) (filePath (artifactOf (heap g) c)) (foundByScanner a c).

Definition dependencyPaths (a : nat) : list str :=
  (λ d, default [] (fileDependencies (heap g) !! d)) <$>
    artifact_fileDependencies (artifactOf (heap g) a).

Definition oldChildren (a : nat) : list nat := artifacts_of h0 (children (node h0 a)).

Lemma elem_of_oldChildren a c : c ∈ oldChildren a ↔ oldChild a c.
Proof. unfold oldChildren, oldChild. by rewrite elem_of_artifacts_of, <-isArtifact_Some. Qed.

Definition oldTransformer (t : nat) : Transformer :=
  default emptyTransformer (transformers (heap g) !! t).
Definition oldTransformerData (t : nat) : TransformerData :=
  default newTransformerData (transformerData g !! t).

(** The record for the artifact [a] with the transformer [t]. *)
Definition recordOf (a t : nat) : RescuableArtifactData :=
  mkRescuableArtifactData (timestamp (artifactOf (heap g) a))
    (childData a <$> oldChildren a) (concat ((λ _, dependencyPaths a) <$> oldChildren a))
    (commandsId (oldTransformerData t)) (markedForRerun (oldTransformerData t))
    (artifactsMapRequestedInPrepareScript (oldTransformer t))
    (artifactsMapRequestedInCommands (oldTransformer t)).

Lemma recordChildren_lookup l m a :
  foldl (recordChildren h0) m l !! a =
    if decide (a ∈ l) then Some (mkChildrenInfo (oldChildren a) (childrenAddedByScanner (artifactOf h0 a)))
    else m !! a.
Proof.
  revert m. induction l as [|x l IH]; intros m; cbn [foldl].
  { case_decide as E; [by apply elem_of_nil in E|done]. }
  rewrite IH. unfold recordChildren. case_decide as E; [by rewrite decide_True by by right|].
  destruct (decide (x = a)) as [->|Hne].
  - rewrite decide_True by left. by rewrite lookup_insert_eq.
  - rewrite decide_False by (rewrite elem_of_cons; naive_solver). by rewrite lookup_insert_ne.
Qed.

(** What is recorded for an artifact does not depend on how it was reached. *)
Lemma recordProduct_lookup l m a :
  (∀ info, m !! a = Some info →
     info = mkChildrenInfo (oldChildren a) (childrenAddedByScanner (artifactOf h0 a))) →
  (is_Some (m !! a) ∨ ∃ p b, p ∈ l ∧ buildDataOf h0 p = Some b ∧ a ∈ artifacts_of h0 (m_nodes b)) →
  foldl (recordProduct h0) m l !! a =
    Some (mkChildrenInfo (oldChildren a) (childrenAddedByScanner (artifactOf h0 a))).
Proof.
  revert m. induction l as [|p l IH]; intros m Hm Hin; cbn [foldl].
  { destruct Hin as [[info Hi]|(p & b & Hp & _)]; [|by apply elem_of_nil in Hp].
    by rewrite Hi, (Hm _ Hi). }
  apply IH; unfold recordProduct.
  - intros info Hi. destruct (buildDataOf h0 p); [|auto]. rewrite recordChildren_lookup in Hi.
    case_decide; [by simplify_eq|auto].
  - destruct Hin as [Hs|(p' & b & [->|Hp]%elem_of_cons & Hb & Ha)].
    + left. destruct (buildDataOf h0 p); [|done]. rewrite recordChildren_lookup. by case_decide.
    + left. rewrite Hb, recordChildren_lookup, decide_True by done. eauto.
    + right. eauto.
Qed.

Lemma childListsOf_lookup changed restored p b a :
  changed ≠ [] → p ∈ restored → buildDataOf h0 p = Some b → a ∈ m_nodes b →
  isArtifact h0 a = true →
  childListsOf h0 changed restored !! a =
    Some (mkChildrenInfo (oldChildren a) (childrenAddedByScanner (artifactOf h0 a))).
Proof.
  intros Hc Hp Hb Ha Hart. unfold childListsOf. rewrite (proj2 (is_nil_false changed)) by done.
  apply recordProduct_lookup; [by intros ? ?|]. right. exists p, b. split_and!; [done..|].
  apply elem_of_artifacts_of. by rewrite <-isArtifact_Some.
Qed.

Lemma recordChildData_ok a info l r :
  (∀ c, c ∈ l → is_Some (productOf (heap g) c)) →
  infoAddedByScanner info = childrenAddedByScanner (artifactOf h0 a) →
  for_each (recordChild (heap g) a info) l r =
    Ok (r.1 ++ (childData a <$> l), r.2 ++ concat ((λ _, dependencyPaths a) <$> l)).
Proof.
  intros Hp Hi. revert r. induction l as [|c l IH]; intros r; cbn [for_each].
  { by destruct r; rewrite !app_nil_r. }
  destruct (Hp c) as [p Hc]; [left|].
  assert (recordChild (heap g) a info c r = Ok (r.1 ++ [childData a c], r.2 ++ dependencyPaths a)) as ->.
  { unfold recordChild, childData, productName. by rewrite Hc, Hi. }
  cbn [exn_bind]. rewrite IH by (intros; apply Hp; by right). simpl. by rewrite <-!app_assoc.
Qed.

Variables (q : nat) (childLists : ChildListHash).

(** Every recorded child still has a product. *)
Definition childrenOwned : Prop :=
  ∀ a info c, childLists !! a = Some info → c ∈ infoChildren info → is_Some (productOf (heap g) c).
Hypothesis Hown : childrenOwned.

Lemma rescuableData_total g' a t : heap g' = heap g → ∃ rad, rescuableData g' childLists a t = Ok rad.
Proof.
  intros Hh. unfold rescuableData. rewrite Hh.
  assert (∀ l info r, (∀ c, c ∈ l → is_Some (productOf (heap g) c)) →
    ∃ r', for_each (recordChild (heap g) a info) l r = Ok r') as H.
  { induction l as [|c l IH]; intros info r Hl; cbn [for_each]; [eauto|].
    unfold recordChild at 1. destruct (Hl c) as [p ->]; [left|]. cbn [exn_bind].
    apply IH. intros. apply Hl. by right. }
  destruct (H (infoChildren (default (mkChildrenInfo [] []) (childLists !! a)))
              (default (mkChildrenInfo [] []) (childLists !! a)) ([], [])) as [[cs ds] ->]; [|eauto].
  intros c. destruct (childLists !! a) as [info|] eqn:E; simpl; [by eapply Hown|].
  by intros ?%elem_of_nil.
Qed.

Lemma rescuableData_ok g' a t :
  heap g' = heap g → transformerData g' = transformerData g →
  childLists !! a = Some (mkChildrenInfo (oldChildren a) (childrenAddedByScanner (artifactOf h0 a))) →
  rescuableData g' childLists a t = Ok (recordOf a t).
Proof.
  intros Hh Ht Ha. unfold rescuableData. rewrite Hh, Ht, Ha. simpl.
  rewrite recordChildData_ok by (done || by intros c; apply (Hown _ _ _ Ha)). done.
Qed.

(** The loop over the old artifacts changes only the rescuable data of [q]; the entry
    of an artifact whose path is not used twice is its record. *)
Lemma rescueArtifacts_ok l g' :
  heap g' = heap g → transformerData g' = transformerData g →
  ∃ g2, for_each (rescueArtifact q childLists) l g' = Ok g2 ∧
    heap g2 = heap g ∧ transformerData g2 = transformerData g ∧
    (∀ key, (∀ a, a ∈ l → is_Some (transformer (artifactOf (heap g) a)) →
                  key ≠ (q, filePath (artifactOf (heap g) a))) →
       rescuable g2 !! key = rescuable g' !! key).
Proof.
  revert g'. induction l as [|a l IH]; intros g' Hh Ht; cbn [for_each]; [by exists g'|].
  assert (∃ g1, rescueArtifact q childLists a g' = Ok g1 ∧ heap g1 = heap g ∧
    transformerData g1 = transformerData g ∧
    ∀ key, (is_Some (transformer (artifactOf (heap g) a)) →
            key ≠ (q, filePath (artifactOf (heap g) a))) →
      rescuable g1 !! key = rescuable g' !! key) as (g1 & -> & Hh1 & Ht1 & Hr1).
  { unfold rescueArtifact. rewrite Hh. destruct (transformer _) as [t|]; [|by exists g'].
    destruct (lookupArtifactByPath _ _ _ _); [by exists g'|].
    destruct (rescuableData_total g' a t Hh) as [rad ->]. eexists. split; [done|].
    split; [done|]. split; [done|]. intros key Hk. simpl. rewrite lookup_insert_ne; [done|].
    intros E. by apply Hk. }
  cbn [exn_bind]. destruct (IH g1 Hh1 Ht1) as (g2 & -> & ? & ? & Hr2). exists g2. split_and!; [done..|].
  intros key Hk. rewrite Hr2, Hr1; [done| |].
  - apply Hk. left.
  - intros a' Ha'. apply Hk. by right.
Qed.

Lemma rescueArtifacts_entry l a t g' :
  heap g' = heap g → transformerData g' = transformerData g → a ∈ l → NoDup l →
  transformer (artifactOf (heap g) a) = Some t →
  lookupArtifactByPath (heap g) q (filePath (artifactOf (heap g) a)) false = None →
  (∀ a', a' ∈ l → is_Some (transformer (artifactOf (heap g) a')) →
     filePath (artifactOf (heap g) a') = filePath (artifactOf (heap g) a) → a' = a) →
  childLists !! a = Some (mkChildrenInfo (oldChildren a) (childrenAddedByScanner (artifactOf h0 a))) →
  ∃ g2, for_each (rescueArtifact q childLists) l g' = Ok g2 ∧
    rescuable g2 !! (q, filePath (artifactOf (heap g) a)) = Some (recordOf a t).
Proof.
  intros Hh Ht Ha Hn Htr Hl Hu Hi. revert g' Hh Ht.
  induction Hn as [|x l Hx Hn IH]; intros g' Hh Ht; [by apply elem_of_nil in Ha|]. cbn [for_each].
  destruct (decide (x = a)) as [->|Hne].
  - unfold rescueArtifact at 1. rewrite Hh, Htr, Hl.
    rewrite (rescuableData_ok g' a t Hh Ht Hi). cbn [exn_bind].
    edestruct (rescueArtifacts_ok l) as (g2 & -> & _ & _ & Hr); [exact Hh|exact Ht|].
    exists g2. split; [done|]. rewrite Hr; [by simpl; rewrite lookup_insert_eq|].
    intros a' Ha' Hs [= E]. destruct Hx. rewrite <-(Hu a'); [done|by right|done|done].
  - destruct (rescueArtifacts_ok [x] g' Hh Ht) as (g1 & E & Hh1 & Ht1 & _).
    cbn [for_each] in E. destruct (rescueArtifact q childLists x g') as [g1'|]; [|done].
    simpl in E. injection E as ->. cbn [exn_bind].
    apply IH; [|by intros; apply Hu; [right|..]|done|done].
    apply elem_of_cons in Ha as [->|]; done.
Qed.
End Recorded.
