(* ===== verification/RescueDecision.v ===== *)
(** * When the executor takes old data over

    [Executor::rescueOldBuildData] up to its decision: how the recorded children and
    file dependencies are looked up, and that nothing the decision depends on is
    changed on the way. *)

From S2P Require Import Prelude FlatSet BuildGraph BuildGraphCorrect ArtifactRemoval.
From S2P Require Import StateMonad ExecutorState Executor.

(** ** What stays while the decision is made *)

Record untouched (e e' : Executor) : Prop := {
  un_edges : same_edges (heapOf e) (heapOf e');
  un_product u : productOf (heapOf e') u = productOf (heapOf e) u;
  un_isArtifact u : isArtifact (heapOf e') u = isArtifact (heapOf e) u;
  un_core u : core <$> as_artifact (heapOf e') u = core <$> as_artifact (heapOf e) u;
  un_time u : timeOf e' u = timeOf e u;
  un_transformers : transformers (heapOf e') = transformers (heapOf e);
  un_transformerData : transformerData (graph e') = transformerData (graph e);
  un_products : products (heapOf e') = products (heapOf e);
  un_fileDependencies : fileDependencies (heapOf e') = fileDependencies (heapOf e);
  un_lookup : lookupTable (heapOf e') = lookupTable (heapOf e);
  un_rescuable key : rescuable (graph e) !! key = None → rescuable (graph e') !! key = None
}.

#[export] Instance untouched_preorder : PreOrder untouched.
Proof.
  split; [by intros e; split|].
  intros e1 e2 e3 [E1 P1 A1 C1 T1 R1 D1 Q1 F1 L1 S1] [E2 P2 A2 C2 T2 R2 D2 Q2 F2 L2 S2].
  split; [by etrans|intros; by rewrite P2|intros; by rewrite A2|intros; by rewrite C2|intros; by rewrite T2|by rewrite R2|by rewrite D2|by rewrite Q2|by rewrite F2|by rewrite L2|auto].
Qed.

Lemma untouched_delete key e : untouched e (on_graph (on_rescuable (delete key)) e).
Proof.
  split; try done. simpl. intros key' Hk. destruct (decide (key = key')) as [->|Hne];
    [by rewrite lookup_delete_eq|by rewrite lookup_delete_ne].
Qed.

(** Another file dependency of the artifact [a] *)
Definition addFileDependency (d : nat) (x : Artifact) : Artifact :=
  mkArtifact (filePath x) (timestamp x) (artifactType x) (m_fileTags x)
    (childrenAddedByScanner x) (ins (artifact_fileDependencies x) d)
    (transformer x) (targetOfModule x) (properties x).

Lemma timestamp_upd_artifact f a h u :
  (∀ x, timestamp (f x) = timestamp x) →
  timestamp (artifactOf (upd_node (upd_artifact f) a h) u) = timestamp (artifactOf h u).
Proof.
  intros Hf. unfold artifactOf. rewrite as_artifact_upd. case_decide; [|done].
  destruct (as_artifact h u); simpl; [by rewrite Hf|done].
Qed.

Lemma untouched_addFileDependency a d e :
  untouched e (on_graph (on_heap (upd_node (upd_artifact (addFileDependency d)) a)) e).
Proof.
  assert (frame (heapOf e) (upd_node (upd_artifact (addFileDependency d)) a (heapOf e))) as F.
  { by apply frame_upd_artifact. }
  split; try done.
  - apply upd_artifact_same_edges.
  - apply F.
  - intros u. by apply frame_isArtifact.
  - apply F.
  - intros u. by apply timestamp_upd_artifact.
Qed.

Lemma untouched_updArtifactData a f e : untouched e (updArtifactData a f e).
Proof. by split. Qed.

Create HintDb untouched.
#[export] Hint Resolve untouched_delete untouched_addFileDependency untouched_updArtifactData : untouched.
#[export] Hint Extern 2 (moves untouched (modify _)) =>
  (apply moves_modify; intros; solve [auto with untouched]) : moves.

Lemma rescueChild_untouched a p cd r : moves untouched (rescueChild a p cd r).
Proof. unfold rescueChild. moves. Qed.

Lemma rescueFileDependencies_untouched a l : moves untouched (rescueFileDependencies a l).
Proof.
  induction l as [|path l IH]; cbn [rescueFileDependencies]; moves.
  apply moves_modify. intros e. apply untouched_addFileDependency.
Qed.
#[export] Hint Resolve rescueChild_untouched rescueFileDependencies_untouched : moves.

(** ** The children that are found again *)

Section Children.
Variables (h : Heap) (a : nat).

Definition childOf (cd : ChildData) : option nat :=
  lookupByProductName h (childProduct cd) (childFilePath cd).

(** [cd] is a child already, or a child that the scanner has to find again. *)
Definition childKept (cd : ChildData) : bool :=
  match childOf cd with
  | Some c => contains (children (node h a)) c || addedByScanner cd
  | None => false
  end.

Definition missingChildren (l : list ChildData) : list nat :=
  List.filter (λ c, negb (contains (children (node h a)) c)) (omap childOf l).

Definition hasFileDependency (path : str) : bool :=
  existsb (λ r, bool_decide (is_Some (fileDependencies h !! r))) (lookupFilesByPath h path).
End Children.

Lemma lookupByProductName_ext e e' name path :
  untouched e e' →
  lookupByProductName (heapOf e') name path = lookupByProductName (heapOf e) name path.
Proof.
  intros U. unfold lookupByProductName, lookupFilesByPath, lookupFiles.
  rewrite (un_lookup _ _ U), (un_products _ _ U). induction (default [] _) as [|r l IH]; simpl; [done|].
  by rewrite (un_isArtifact _ _ U), (un_product _ _ U), IH.
Qed.

Lemma rescueChild_run a p cd r e e1 :
  untouched e e1 →
  ∃ r' e2, rescueChild a p cd r e1 = (Ok r', e2) ∧ r'.1 = r.1 && childKept (heapOf e) a cd ∧
    (r'.1 = true → r'.2 = r.2 ++ missingChildren (heapOf e) a [cd]).
Proof.
  intros U. unfold rescueChild. destruct r as [canRescue l]. rewrite bind_gets.
  rewrite (lookupByProductName_ext e e1) by done. destruct (un_edges _ _ U a) as [-> _].
  unfold missingChildren, childKept. cbn [omap list_omap]. fold (childOf (heapOf e) cd).
  destruct (childOf (heapOf e) cd) as [c|]; cbn [List.filter fst snd].
  - destruct (contains _ c); cbn [negb orb].
    + eexists _, _. split; [done|]. by rewrite andb_true_r, app_nil_r.
    + rewrite bind_ret. destruct (canRescue && addedByScanner cd) eqn:E;
        (eexists _, _; by split_and!).
  - erewrite bind_run by reflexivity. cbn [andb].
    eexists _, _. split; [done|]. by rewrite andb_false_r.
Qed.

Lemma missingChildren_cons h a cd l :
  missingChildren h a (cd :: l) = missingChildren h a [cd] ++ missingChildren h a l.
Proof.
  unfold missingChildren. cbn [omap list_omap]. by destruct (childOf h cd); simpl; [case_match|].
Qed.

Lemma rescueChildren_run a p l r e e1 :
  untouched e e1 →
  ∃ r' e2, foldM (λ r cd, rescueChild a p cd r) l r e1 = (Ok r', e2) ∧ untouched e e2 ∧
    r'.1 = r.1 && forallb (childKept (heapOf e) a) l ∧
    (r'.1 = true → r'.2 = r.2 ++ missingChildren (heapOf e) a l).
Proof.
  revert r e1. induction l as [|cd l IH]; intros r e1 U; cbn [foldM].
  { exists r, e1. split_and!; [done..|by rewrite andb_true_r|by rewrite app_nil_r]. }
  destruct (rescueChild_run a p cd r e e1 U) as (r1 & e2 & E & H1 & L1).
  assert (untouched e e2) as U2.
  { etrans; [exact U|]. exact (moves_result _ _ _ _ _ (rescueChild_untouched a p cd r) E). }
  rewrite (bind_run _ _ _ _ _ E). destruct (IH r1 e2 U2) as (r' & e3 & -> & U3 & H2 & L2).
  exists r', e3. split; [done|]. split; [done|]. cbn [forallb].
  split; [by rewrite H2, H1, andb_assoc|]. intros Hr. rewrite (L2 Hr), L1, <-app_assoc.
  - by rewrite (missingChildren_cons _ _ cd l).
  - rewrite H2 in Hr. by apply andb_true_iff in Hr as [? _].
Qed.

(** ** File dependencies *)

Lemma find_existsb {A} (f : A → bool) l :
  match List.find f l with Some x => existsb f l = true | None => existsb f l = false end.
Proof. induction l as [|x l IH]; simpl; [done|]. by destruct (f x). Qed.

Lemma rescueFileDependencies_run a l e e1 :
  untouched e e1 →
  ∃ e2, rescueFileDependencies a l e1 = (Ok (forallb (hasFileDependency (heapOf e)) l), e2) ∧
    untouched e e2.
Proof.
  revert e1. induction l as [|path l IH]; intros e1 U; cbn [rescueFileDependencies forallb].
  { by exists e1. }
  rewrite bind_gets.
  assert (hasFileDependency (heapOf e1) path = hasFileDependency (heapOf e) path) as <-.
  { unfold hasFileDependency, lookupFilesByPath, lookupFiles.
    by rewrite (un_lookup _ _ U), (un_fileDependencies _ _ U). }
  unfold hasFileDependency at 1.
  pose proof (find_existsb (λ r, bool_decide (is_Some (fileDependencies (heapOf e1) !! r)))
                (lookupFilesByPath (heapOf e1) path)) as H.
  destruct (List.find _ _) as [d|]; rewrite H; [|by exists e1].
  rewrite bind_modify. apply IH. etrans; [exact U|]. apply untouched_addFileDependency.
Qed.

(** ** Counting the children *)

Lemma count_children (im C : list nat) :
  NoDup im → NoDup C →
  let K := filter (λ c, c ∉ C) im in
  length im ≤ length K + length C ∧ (length K + length C ≤ length im ↔ C ⊆ im).
Proof.
  intros Hi HC K. assert (filter (λ c, c ∈ C) im ++ K ≡ₚ im) as Hp by apply filter_app_complement.
  pose proof (Permutation_length Hp) as Hl. rewrite length_app in Hl.
  assert (filter (λ c, c ∈ C) im ⊆+ C) as Hs.
  { apply NoDup_submseteq; [by apply NoDup_filter|]. intros x. rewrite list_elem_of_filter. tauto. }
  pose proof (submseteq_length _ _ Hs). split; [lia|]. split.
  - intros Hle x Hx. assert (filter (λ c, c ∈ C) im ≡ₚ C) as HP.
    { apply submseteq_length_Permutation; [done|lia]. }
    rewrite <-HP in Hx. by apply list_elem_of_filter in Hx as [_ ?].
  - intros Hin. assert (C ⊆+ filter (λ c, c ∈ C) im) as Hs2.
    { apply NoDup_submseteq; [done|]. intros x Hx. apply list_elem_of_filter. auto. }
    pose proof (submseteq_length _ _ Hs2). lia.
Qed.
