(* ===== verification/RescueCorrect.v ===== *)
(** * Taking old data over

    The executor connects the children that the scanner had found before, unless that
    would close a cycle, and decides to take the old data over exactly when the
    artifact is what it was. *)

From S2P Require Import Prelude FlatSet BuildGraph BuildGraphCorrect ArtifactRemoval.
From S2P Require Import StateMonad ExecutorState Executor BuildDataRescue BuildDataRescueCorrect.
From S2P Require Import RescueDecision.

(** ** Connecting the children *)

Definition connectChild (a child : nat) : M unit :=
  connected ← connectSafely a child;
  when connected (modify (addScannedChild a child)).

(** What connecting does not change. *)
Record values_kept (e e' : Executor) : Prop := {
  vk_isArtifact u : isArtifact (heapOf e') u = isArtifact (heapOf e) u;
  vk_product u : productOf (heapOf e') u = productOf (heapOf e) u;
  vk_time u : timeOf e' u = timeOf e u;
  vk_transformers : transformers (heapOf e') = transformers (heapOf e);
  vk_transformerData : transformerData (graph e') = transformerData (graph e);
  vk_rescuable : rescuable (graph e') = rescuable (graph e)
}.

Lemma values_kept_refl e : values_kept e e.
Proof. by split. Qed.

Lemma values_kept_trans e1 e2 e3 : values_kept e1 e2 → values_kept e2 e3 → values_kept e1 e3.
Proof.
  intros [A1 P1 T1 R1 D1 S1] [A2 P2 T2 R2 D2 S2].
  split; intros; [by rewrite A2|by rewrite P2|by rewrite T2|congruence..].
Qed.

(** New edges out of [a] open no new way to [a]. *)
Lemma rtc_extra {A} (R R' : relation A) (P : A → Prop) a x :
  (∀ x y, R' x y ↔ R x y ∨ (x = a ∧ P y)) → rtc R' x a ↔ rtc R x a.
Proof.
  intros HR. split.
  - intros H. remember a as b eqn:Hb. rewrite Hb in HR. induction H as [x|x y z Hxy _ IH].
    + apply rtc_refl.
    + apply HR in Hxy as [Hxy|[-> _]]; [eapply rtc_l; [exact Hxy|by apply IH]|]. rewrite Hb. apply rtc_refl.
  - intros H. eapply rtc_subrel; [|exact H]. intros y z Hyz. apply HR. by left.
Qed.

Section Connecting.
Variables (e : Executor) (a : nat).
Hypothesis Hart : isArtifact (heapOf e) a = true.
Hypothesis Hprod : is_Some (productOf (heapOf e) a).

Record connecting (D : list nat) (e' : Executor) : Prop := {
  cn_graph : wf_graph (heapOf e');
  cn_acyclic : acyclic (heapOf e');
  cn_values : values_kept e e';
  cn_edges x y : edge (heapOf e') x y ↔
    edge (heapOf e) x y ∨ (x = a ∧ y ∈ D ∧ ¬ rtc (edge (heapOf e)) y a)
}.

Lemma isArtifact_present h u : isArtifact h u = true → present h u.
Proof. intros [x Hx]%isArtifact_Some. by eapply as_artifact_present. Qed.

Lemma connectSafely_run D k e1 :
  connecting D e1 → isArtifact (heapOf e) k = true → k ≠ a →
  match connectChild a k e1 with
  | (Ok _, e2) => connecting (D ++ [k]) e2
  | (Throw err, e2) => (∃ path, err = ChildConflict a path) ∧ values_kept e e2
  end.
Proof.
  intros [Hw Ha Hv He] Hk Hne.
  assert (∀ x, rtc (edge (heapOf e1)) x a ↔ rtc (edge (heapOf e)) x a) as Hr.
  { intros x. apply (rtc_extra _ _ (λ y, y ∈ D ∧ ¬ rtc (edge (heapOf e)) y a)). intros; apply He. }
  pose proof (safeConnect_spec a k (heapOf e1) Hw Ha) as H.
  rewrite (vk_product _ _ Hv) in H.
  specialize (H ltac:(apply isArtifact_present; by rewrite (vk_isArtifact _ _ Hv))
                ltac:(apply isArtifact_present; by rewrite (vk_isArtifact _ _ Hv)) Hprod (not_eq_sym Hne)).
  unfold connectChild, connectSafely, onGraph, mbind, st_bind. fold (heapOf e1).
  destruct (safeConnect a k (heapOf e1)) as [[b h2]|err] eqn:E; cbn [exn_bind].
  - pose proof (safeConnect_kept _ _ _ _ _ E) as (T2 & _ & _ & _ & A2 & P2).
    assert (values_kept e1 (on_graph (on_heap (λ _, h2)) e1)) as V2.
    { split; intros; try done; unfold heapOf, timeOf, isArtifact, artifactOf; simpl; by rewrite ?A2, ?P2. }
    assert (values_kept e (on_graph (on_heap (λ _, h2)) e1)) as V by by eapply values_kept_trans.
    destruct b; cbn [when].
    + destruct H as (Hn & Hw2 & Ha2 & He2). simpl.
      assert (same_edges h2 (upd_node (upd_artifact (set_childrenAddedByScanner (λ s, ins s k))) a h2)) as Hs.
      { apply upd_artifact_same_edges. }
      split.
      * by apply (wf_graph_proper h2).
      * apply (acyclic_mono h2); [|done]. intros x y. by rewrite (edge_proper _ _ Hs x x eq_refl y y eq_refl).
      * eapply values_kept_trans; [exact V|]. split; intros; try done.
        { by apply frame_isArtifact, frame_upd_artifact. }
        { by apply fr_product, frame_upd_artifact. }
        { by apply timestamp_upd_artifact. }
      * intros x y. unfold heapOf at 1. simpl. rewrite <-(edge_proper _ _ Hs x x eq_refl y y eq_refl), He2, He.
        rewrite elem_of_app, list_elem_of_singleton. rewrite Hr in Hn. naive_solver.
    + destruct H as [-> Hrk]. split; [done..|]. intros x y. unfold heapOf at 1. simpl.
      fold (heapOf e1). rewrite He, elem_of_app, list_elem_of_singleton. rewrite Hr in Hrk. naive_solver.
  - destruct H as (_ & child & path & -> & _). split; [by exists path|done].
Qed.

Lemma connectChildren_run l D e1 :
  connecting D e1 → (∀ k, k ∈ l → isArtifact (heapOf e) k = true ∧ k ≠ a) →
  match forM l (connectChild a) e1 with
  | (Ok _, e2) => connecting (D ++ l) e2
  | (Throw err, e2) => (∃ path, err = ChildConflict a path) ∧ values_kept e e2
  end.
Proof.
  revert D e1. induction l as [|k l IH]; intros D e1 HC Hl; unfold forM; cbn [foldM].
  { by rewrite app_nil_r. }
  destruct (Hl k) as [Hk Hne]; [left|]. pose proof (connectSafely_run D k e1 HC Hk Hne) as H.
  unfold mbind at 1, st_bind at 1. destruct (connectChild a k e1) as [[[]|err] e2]; [|done].
  specialize (IH (D ++ [k]) e2 H). rewrite <-(app_assoc D [k] l) in IH. apply IH.
  intros k' Hk'. apply Hl. by right.
Qed.
End Connecting.

(** ** The decision *)

Section Decision.
Variables (e : Executor) (a t q : nat) (rad : RescuableArtifactData).
Let h := heapOf e.

(** The children that are found again are different from each other. *)
Definition childKey (cd : ChildData) : str * (str * str) := (childProduct cd, lookupKey (childFilePath cd)).
Definition ownKey : str * (str * str) := (productName h a, lookupKey (pathOf e a)).

(** The test of the commands, the two loops and the comparison of the numbers of
    children. *)
Definition decideRescue : M (bool * list nat) :=
  if commandsId (transformerDataOf e t) =? rad_commandsId rad then
    r ← foldM (λ r cd, rescueChild a q cd r) (rad_children rad) (true, []);
    found ← rescueFileDependencies a (rad_fileDependencies rad);
    if r.1 && found then
      h ← gets heapOf;
      let newChildCount := length r.2 + length (artifacts_of h (children (node h a))) in
      _ ← check (length (rad_children rad) <=? newChildCount);
      mret (newChildCount <=? length (rad_children rad), r.2)
    else mret (false, r.2)
  else mret (false, []).

(** What the new artifact must have in common with the old one. *)
Record same_as_recorded : Prop := {
  sr_commands : commandsId (transformerDataOf e t) = rad_commandsId rad;
  sr_children cd : cd ∈ rad_children rad →
    ∃ c, childOf h cd = Some c ∧ (edge h a c ∨ addedByScanner cd = true);
  sr_dependencies path : path ∈ rad_fileDependencies rad → hasFileDependency h path = true;
  sr_new c : edge h a c → isArtifact h c = true →
    ∃ cd, cd ∈ rad_children rad ∧ childOf h cd = Some c
}.

Hypothesis Hok : project_ok h.
Hypothesis Hkeys : NoDup (ownKey :: (childKey <$> rad_children rad)).

Lemma childOf_Some cd c :
  childOf h cd = Some c →
  isArtifact h c = true ∧ (productName h c, lookupKey (pathOf e c)) = childKey cd.
Proof.
  unfold childOf, lookupByProductName. intros [Hin Hc]%List.find_some.
  apply andb_true_iff in Hc as [Ha Hp]. split; [done|].
  apply list_elem_of_In in Hin. unfold lookupFilesByPath, lookupFiles in Hin.
  destruct (lookupTable h !! _) as [l|] eqn:El; [|by apply elem_of_nil in Hin].
  destruct (po_lookup _ Hok _ _ El) as [_ Hl]. apply isArtifact_Some in Ha as [x Hx].
  specialize (Hl c x Hin Hx). unfold childKey, productName, pathOf, artifactOf. fold h.
  rewrite Hx. simpl. f_equal; [|by rewrite <-Hl].
  destruct (productOf h c); [|done]. simpl. by apply bool_decide_eq_true in Hp.
Qed.

Lemma childOf_inj cd1 cd2 c :
  childOf h cd1 = Some c → childOf h cd2 = Some c → childKey cd1 = childKey cd2.
Proof. intros [_ <-]%childOf_Some [_ <-]%childOf_Some. done. Qed.

Lemma foundChildren_NoDup l :
  NoDup (childKey <$> l) → NoDup (omap (childOf h) l).
Proof.
  induction l as [|cd l IH]; cbn [fmap list_fmap omap list_omap]; [by constructor|].
  intros [Hk Hn]%NoDup_cons. destruct (childOf h cd) as [c|] eqn:E; [|auto].
  constructor; [|auto]. intros (cd' & Hin & Hc)%list_elem_of_omap. apply Hk.
  rewrite (childOf_inj _ _ _ E Hc). by apply list_elem_of_fmap_2.
Qed.

Lemma childKept_spec l :
  forallb (childKept h a) l = true ↔
  ∀ cd, cd ∈ l → ∃ c, childOf h cd = Some c ∧ (edge h a c ∨ addedByScanner cd = true).
Proof.
  rewrite forallb_forall. setoid_rewrite <-list_elem_of_In. apply forall_proper. intros cd.
  unfold childKept, edge. destruct (childOf h cd) as [c|]; [|naive_solver].
  rewrite orb_true_iff, contains_spec by apply Hok. naive_solver.
Qed.

Lemma foundChildren_length l : forallb (childKept h a) l = true → length (omap (childOf h) l) = length l.
Proof.
  induction l as [|cd l IH]; cbn [forallb omap list_omap]; [done|].
  intros [Hk Hl]%andb_true_iff. unfold childKept in Hk.
  destruct (childOf h cd); [|done]. simpl. by rewrite IH.
Qed.

Lemma missingChildren_filter l :
  missingChildren h a l =
    filter (λ c, c ∉ artifacts_of h (children (node h a))) (omap (childOf h) l).
Proof.
  unfold missingChildren. assert (∀ c, c ∈ omap (childOf h) l → isArtifact h c = true) as Ha.
  { intros c (cd & _ & Hc)%list_elem_of_omap. by apply (childOf_Some cd). }
  induction (omap (childOf h) l) as [|c l' IH]; [done|]. cbn [List.filter].
  rewrite filter_cons, IH by (intros; apply Ha; by right).
  assert (c ∈ artifacts_of h (children (node h a)) ↔ contains (children (node h a)) c = true) as Hc.
  { rewrite contains_spec, elem_of_artifacts_of, <-isArtifact_Some by apply Hok.
    specialize (Ha c). rewrite elem_of_cons in Ha. naive_solver. }
  case_decide as E; destruct (contains _ c); naive_solver.
Qed.

(** The decision, and the children to connect. *)
Lemma decideRescue_run e1 :
  untouched e e1 →
  ∃ r e2, decideRescue e1 = (Ok r, e2) ∧ untouched e e2 ∧ (r.1 = true ↔ same_as_recorded) ∧
    (r.1 = true → r.2 = missingChildren h a (rad_children rad)).
Proof.
  intros U. unfold decideRescue.
  destruct (Nat.eqb_spec (commandsId (transformerDataOf e t)) (rad_commandsId rad)) as [Hc|Hc].
  2: { eexists _, _. split; [done|]. split; [done|]. split; [|done]. split; [done|]. by intros [? _ _ _]. }
  destruct (rescueChildren_run a q (rad_children rad) (true, []) e e1 U) as (r & e2 & E & U2 & H1 & L1).
  rewrite (bind_run _ _ _ _ _ E).
  destruct (rescueFileDependencies_run a (rad_fileDependencies rad) e e2 U2) as (e3 & E3 & U3).
  rewrite (bind_run _ _ _ _ _ E3). cbn [andb fst snd app] in H1, L1.
  assert (forallb (hasFileDependency (heapOf e)) (rad_fileDependencies rad) = true ↔
    ∀ path, path ∈ rad_fileDependencies rad → hasFileDependency h path = true) as Hd.
  { rewrite forallb_forall. by setoid_rewrite <-list_elem_of_In. }
  destruct (r.1 && _) eqn:Hb.
  - apply andb_true_iff in Hb as [Hr Hf]. rewrite (L1 Hr), bind_gets.
    destruct (un_edges _ _ U3 a) as [-> _].
    assert (artifacts_of (heapOf e3) (children (node (heapOf e) a)) =
      artifacts_of h (children (node h a))) as ->.
    { unfold artifacts_of. apply filter_ext. intros. apply un_isArtifact, U3. }
    rewrite H1 in Hr. rewrite missingChildren_filter, <-(foundChildren_length _ Hr).
    apply NoDup_cons in Hkeys as [_ Hk].
    destruct (count_children (omap (childOf h) (rad_children rad))
      (artifacts_of h (children (node h a)))) as [Hle Hiff].
    { by apply foundChildren_NoDup. }
    { apply artifacts_of_NoDup, wf_set_NoDup, Hok. }
    unfold check. apply Nat.leb_le in Hle. rewrite Hle. eexists _, _. split; [done|].
    split; [done|]. split; [|intros _; symmetry; apply missingChildren_filter]. cbn [fst]. rewrite Nat.leb_le, Hiff. split.
    + intros Hs. split; [done|by apply childKept_spec|by apply Hd|]. intros c Hec Ha.
      assert (c ∈ omap (childOf h) (rad_children rad)) as (cd & ? & ?)%list_elem_of_omap; [|eauto].
      apply Hs, elem_of_artifacts_of. by rewrite <-isArtifact_Some.
    + intros [_ _ _ Hn] c [Hec Ha%isArtifact_Some]%elem_of_artifacts_of.
      apply list_elem_of_omap. by apply Hn.
  - eexists _, _. split; [done|]. split; [done|]. split; [|done]. split; [done|].
    intros [_ Hs Hp _]. exfalso. apply childKept_spec in Hs. apply Hd in Hp.
    fold h in H1, Hb, Hp. rewrite Hs in H1. by rewrite H1, Hp in Hb.
Qed.
End Decision.

(** ** The whole function *)

Section Rescue.
Variables (e : Executor) (a t q : nat) (rad : RescuableArtifactData) (x : Artifact).

(** A generated artifact whose old data have not been looked at, and its record *)
Record awaiting : Prop := {
  aw_ok : project_ok (heapOf e);
  aw_acyclic : acyclic (heapOf e);
  aw_artifact : as_artifact (heapOf e) a = Some x;
  aw_generated : artifactType x = Generated;
  aw_transformer : transformer x = Some t;
  aw_present : is_Some (transformers (heapOf e) !! t);
  aw_product : productOf (heapOf e) a = Some q;
  aw_possible : oldDataPossiblyPresent (artifactDataOf e a) = true;
  aw_record : rescuable (graph e) !! (q, filePath x) = Some rad;
  aw_keys : NoDup (ownKey e a :: (childKey <$> rad_children rad))
}.
Hypothesis Haw : awaiting.

Definition finishRescue (r : bool * list nat) : M bool :=
  if negb r.1 then mret false
  else
    _ ← modify (takeOver a t rad);
    _ ← forM r.2 (connectChild a);
    mret (negb (is_nil r.2)).

Lemma artifactOf_awaiting : artifactOf (heapOf e) a = x.
Proof. unfold artifactOf. by rewrite (aw_artifact Haw). Qed.

Lemma rescueOldBuildData_unfold :
  Executor.rescueOldBuildData a e =
    (decideRescue e a t q rad ≫= finishRescue)
      (on_graph (on_rescuable (delete (q, filePath x)))
         (updArtifactData a (on_oldDataPossiblyPresent (λ _, false)) e)).
Proof.
  unfold Executor.rescueOldBuildData. rewrite bind_gets. unfold id. cbv beta zeta.
  rewrite (aw_possible Haw). cbn [negb]. rewrite bind_modify. cbv beta zeta.
  rewrite artifactOf_awaiting, (aw_generated Haw), (aw_product Haw), (aw_transformer Haw).
  rewrite bool_decide_eq_true_2 by done. cbn [negb]. rewrite (aw_record Haw), bind_modify. done.
Qed.

Definition untouched_but_entry (e' : Executor) : Prop :=
  untouched e e' ∧ rescuable (graph e') !! (q, filePath x) = None.

Lemma decision_awaiting :
  ∃ r e2, Executor.rescueOldBuildData a e = finishRescue r e2 ∧ untouched_but_entry e2 ∧
    (r.1 = true ↔ same_as_recorded e a t rad) ∧
    (r.1 = true → r.2 = missingChildren (heapOf e) a (rad_children rad)).
Proof.
  rewrite rescueOldBuildData_unfold. set (e1 := on_graph _ _).
  assert (untouched e e1) as U1.
  { unfold e1. etrans; [apply untouched_updArtifactData|apply untouched_delete]. }
  destruct (decideRescue_run e a t q rad (aw_ok Haw) (aw_keys Haw) e1 U1)
    as (r & e2 & E & U2 & H1 & H2).
  exists r, e2. rewrite (bind_run _ _ _ _ _ E). split; [done|]. split; [|done]. split; [done|].
  assert (moves untouched (decideRescue e a t q rad)) as Hm.
  { unfold decideRescue, check. moves. }
  apply (un_rescuable _ _ (moves_result _ _ _ _ _ Hm E)). unfold e1. simpl. by rewrite lookup_delete_eq.
Qed.

(** The data that the artifact and its transformer have after it. *)
Record taken_over (e' : Executor) : Prop := {
  to_time : timeOf e' a = rad_timeStamp rad;
  to_rerun : markedForRerun (transformerDataOf e' t) =
    markedForRerun (transformerDataOf e t) || rad_knownOutOfDate rad;
  to_prepareScript : artifactsMapRequestedInPrepareScript (transformerOf e' t) =
    rad_artifactsMapRequestedInPrepareScript rad;
  to_commands : artifactsMapRequestedInCommands (transformerOf e' t) =
    rad_artifactsMapRequestedInCommands rad
}.

Lemma takeOver_run e2 :
  untouched_but_entry e2 →
  let e3 := takeOver a t rad e2 in
  taken_over e3 ∧ same_edges (heapOf e) (heapOf e3) ∧
  (∀ u, isArtifact (heapOf e3) u = isArtifact (heapOf e) u) ∧
  (∀ u, productOf (heapOf e3) u = productOf (heapOf e) u) ∧
  rescuable (graph e3) !! (q, filePath x) = None.
Proof.
  intros [U Hn] e3.
  set (F := alter (M := gmap nat Transformer) (set_requestedMaps (rad_artifactsMapRequestedInPrepareScript rad)
                     (rad_artifactsMapRequestedInCommands rad)) t).
  set (h3 := set_transformers F (heapOf e2)).
  assert (heapOf e3 = upd_node (upd_artifact (set_timestamp (rad_timeStamp rad))) a h3) as Hh by done.
  assert (frame h3 (heapOf e3)) as F3 by (rewrite Hh; by apply frame_upd_artifact).
  split_and!.
  - destruct (aw_present Haw) as [tr Ht]. pose proof (un_transformers _ _ U) as HT. rewrite <-HT in Ht.
    split; unfold timeOf, transformerDataOf, transformerOf, artifactOf.
    + rewrite Hh, as_artifact_upd, decide_True by done. change (as_artifact h3 a) with (as_artifact (heapOf e2) a).
      pose proof (un_core _ _ U a) as Hc. rewrite (aw_artifact Haw) in Hc.
      by destruct (as_artifact (heapOf e2) a).
    + unfold e3, takeOver, updTransformerData. simpl.
      by rewrite lookup_partial_alter_eq, (un_transformerData _ _ U).
    + rewrite Hh. simpl. unfold F. by rewrite lookup_alter_eq, Ht.
    + rewrite Hh. simpl. unfold F. by rewrite lookup_alter_eq, Ht.
  - etrans; [apply U|]. rewrite Hh. transitivity h3; [by apply nodes_same_edges|].
    apply upd_artifact_same_edges.
  - intros u. rewrite <-(un_isArtifact _ _ U u). by rewrite (frame_isArtifact _ _ _ F3).
  - intros u. rewrite <-(un_product _ _ U u). by rewrite (fr_product _ _ F3).
  - done.
Qed.

(** The edges that are new: the artifact gets back the children it has lost, unless
    they depend on it now. *)
Definition reconnected (e' : Executor) : Prop :=
  ∀ u v, edge (heapOf e') u v ↔ edge (heapOf e) u v ∨
    (u = a ∧ ¬ rtc (edge (heapOf e)) v a ∧
     ∃ cd, cd ∈ rad_children rad ∧ childOf (heapOf e) cd = Some v).

Lemma taken_over_values e3 e' : taken_over e3 → values_kept e3 e' → taken_over e'.
Proof.
  intros [T R P C] [_ _ T' R' D' _]. split; [by rewrite T'|..];
    unfold transformerDataOf, transformerOf in *; by rewrite ?R', ?D'.
Qed.

Lemma elem_of_missingChildren v :
  v ∈ missingChildren (heapOf e) a (rad_children rad) ↔
    ¬ edge (heapOf e) a v ∧ ∃ cd, cd ∈ rad_children rad ∧ childOf (heapOf e) cd = Some v.
Proof.
  rewrite (missingChildren_filter e a (aw_ok Haw)), list_elem_of_filter, list_elem_of_omap.
  rewrite elem_of_artifacts_of, <-isArtifact_Some. unfold edge. split; [|naive_solver].
  intros [Hn (cd & Hcd & Hv)]. split; [|eauto]. intros Hin. apply Hn. split; [done|].
  by apply (childOf_Some e (aw_ok Haw) cd).
Qed.

Lemma missingChildren_other v :
  v ∈ missingChildren (heapOf e) a (rad_children rad) →
  isArtifact (heapOf e) v = true ∧ v ≠ a.
Proof.
  intros (_ & cd & Hcd & Hv)%elem_of_missingChildren.
  destruct (childOf_Some e (aw_ok Haw) cd v Hv) as [Ha Hk]. split; [done|]. intros ->.
  pose proof (aw_keys Haw) as [Hn _]%NoDup_cons. apply Hn. unfold ownKey. rewrite Hk.
  by apply list_elem_of_fmap_2.
Qed.

(** What the executor does with a record. *)
Lemma rescueOldBuildData_ok :
  let '(r, e') := Executor.rescueOldBuildData a e in
  rescuable (graph e') !! (q, filePath x) = None ∧
  ((same_as_recorded e a t rad ∧ taken_over e' ∧
    ((∃ added, r = Ok added ∧ reconnected e' ∧
        (added = true ↔ ∃ cd v, cd ∈ rad_children rad ∧ childOf (heapOf e) cd = Some v ∧
                                ¬ edge (heapOf e) a v)) ∨
     (∃ path, r = Throw (ChildConflict a path)))) ∨
   (¬ same_as_recorded e a t rad ∧ r = Ok false ∧ untouched e e')).
Proof.
  destruct decision_awaiting as (r & e2 & -> & U & H1 & H2). unfold finishRescue.
  destruct r.1; cbn [negb].
  2: { split; [apply U|]. right. split; [|split; [done|apply U]]. intros H. by apply H1 in H. }
  rewrite bind_modify. rewrite (H2 eq_refl). apply proj1 in H1.
  destruct (takeOver_run e2 U) as (T & Hs & HA & HP & Hn). set (e3 := takeOver a t rad e2) in *.
  set (K := missingChildren (heapOf e) a (rad_children rad)).
  assert (∀ u v, edge (heapOf e3) u v ↔ edge (heapOf e) u v) as He3.
  { intros u v. symmetry. by apply edge_proper. }
  assert (isArtifact (heapOf e) a = true) as Ha by (apply isArtifact_Some; rewrite (aw_artifact Haw); eauto).
  assert (∀ v, rtc (edge (heapOf e3)) v a ↔ rtc (edge (heapOf e)) v a) as Hr.
  { intros v. apply (rtc_extra _ _ (λ _, False)). intros; rewrite He3; tauto. }
  pose proof (connectChildren_run e3 a) as Hc. rewrite HA, HP in Hc.
  specialize (Hc Ha ltac:(rewrite (aw_product Haw); eauto) K [] e3).
  assert (connecting e3 a [] e3) as Hstart.
  { split; [by apply (wf_graph_proper _ _ Hs), (aw_ok Haw)| |apply values_kept_refl|].
    - eapply acyclic_mono; [|apply (aw_acyclic Haw)]. intros u v. by rewrite He3.
    - intros u v. rewrite elem_of_nil. tauto. }
  specialize (Hc Hstart ltac:(intros k Hk; rewrite HA; by apply missingChildren_other)).
  unfold mbind, st_bind. destruct (forM K (connectChild a) e3) as [[[]|err] e4]; cbn [app] in Hc.
  - destruct Hc as [_ _ V E4]. split; [by rewrite (vk_rescuable _ _ V)|]. left.
    split; [auto|]. split; [by eapply taken_over_values|]. left. eexists. split; [done|]. split.
    + intros u v. rewrite E4, He3, Hr. unfold K. rewrite elem_of_missingChildren.
      destruct (decide (edge (heapOf e) u v)); naive_solver.
    + rewrite negb_true_iff, is_nil_false. fold K. split.
      * intros HK. destruct K as [|v K'] eqn:EK; [done|].
        assert (v ∈ K) as (Hv & cd & ? & ?)%elem_of_missingChildren by (rewrite EK; left). eauto.
      * intros (cd & v & Hcd & Hv & Hn') HK. assert (v ∈ K) as Hin by (apply elem_of_missingChildren; eauto).
        rewrite HK in Hin. by apply elem_of_nil in Hin.
  - destruct Hc as [[path ->] V]. split; [by rewrite (vk_rescuable _ _ V)|]. left.
    split; [auto|]. split; [by eapply taken_over_values|]. eauto.
Qed.
End Rescue.
