(* ===== verification/RescueRoundtrip.v ===== *)
(** * From the old artifact to the new one

    The two functions that are called [rescueOldBuildData] put together: what the
    loader records before and after the removal of a changed product, and what the
    executor makes of it when a rule has created the artifact again. *)

From S2P Require Import Prelude FlatSet BuildGraph BuildGraphCorrect ArtifactRemoval ArtifactLookup.
From S2P Require Import StateMonad ExecutorState Executor BuildDataRescue BuildDataRescueCorrect.
From S2P Require Import RescueDecision RescueCorrect.

(** ** The loader's part *)

Lemma recordChildren_info h0 l m a info :
  (∀ i, m !! a = Some i → infoChildren i = oldChildren h0 a) →
  foldl (recordChildren h0) m l !! a = Some info → infoChildren info = oldChildren h0 a.
Proof. intros Hm. rewrite recordChildren_lookup. case_decide; [by intros [= <-]|auto]. Qed.

Lemma childListsOf_info h0 changed restored a info :
  childListsOf h0 changed restored !! a = Some info → infoChildren info = oldChildren h0 a.
Proof.
  unfold childListsOf. destruct (is_nil changed); [done|].
  assert (∀ i, (∅ : ChildListHash) !! a = Some i → infoChildren i = oldChildren h0 a) as Hm by done.
  revert Hm. generalize (∅ : ChildListHash). induction restored as [|p l IH]; intros m Hm; cbn [foldl].
  { apply Hm. }
  apply IH. unfold recordProduct. destruct (buildDataOf h0 p); [|done].
  intros i. by apply recordChildren_info.
Qed.

Lemma recordOf_ext h0 g g' a t :
  transformerData g' = transformerData g → nodes (heap g') = nodes (heap g) →
  transformers (heap g') = transformers (heap g) →
  fileDependencies (heap g') = fileDependencies (heap g) →
  (∀ p, uniqueName <$> products (heap g') !! p = uniqueName <$> products (heap g) !! p) →
  recordOf h0 g' a t = recordOf h0 g a t.
Proof.
  intros HD HN HT HF HP.
  assert (∀ u, artifactOf (heap g') u = artifactOf (heap g) u) as HA.
  { intros u. unfold artifactOf, as_artifact. by rewrite HN. }
  assert (∀ u, productName (heap g') u = productName (heap g) u) as HQ.
  { intros u. unfold productName, productOf, node. rewrite HN.
    destruct (product _) as [p|]; simpl; [by rewrite HP|done]. }
  unfold recordOf, childData, dependencyPaths, oldTransformer, oldTransformerData.
  rewrite HA, HD, HT, HF. f_equal. apply list_fmap_ext. intros i c _. by rewrite HA, HQ.
Qed.

(** An artifact [a] of the changed product [p], whose rules have not created an
    artifact of the new product [q] for its path: the graph [h0] is that before the
    removal of [p], [g] that of the newly resolved project. *)
Record replaced (h0 : Heap) (changed restored : list nat) (g : Graph) (p q : nat)
    (b : ProductBuildData) (a t : nat) : Prop := {
  rp_changed : changed ≠ [];
  rp_restored : p ∈ restored;
  rp_before : ∃ b0, buildDataOf h0 p = Some b0 ∧ a ∈ m_nodes b0 ∧ isArtifact h0 a = true;
  rp_buildData : buildDataOf (heap g) p = Some b;
  rp_nodes : wf_set (m_nodes b);
  rp_node : a ∈ m_nodes b ∧ isArtifact (heap g) a = true;
  rp_transformer : transformer (artifactOf (heap g) a) = Some t;
  rp_missing : lookupArtifactByPath (heap g) q (filePath (artifactOf (heap g) a)) false = None;
  rp_unique a' : a' ∈ m_nodes b → filePath (artifactOf (heap g) a') = filePath (artifactOf (heap g) a) →
    is_Some (transformer (artifactOf (heap g) a')) → a' = a;
  rp_owned a' c : oldChild h0 a' c → is_Some (productOf (heap g) c);
  rp_fresh : rescuableOf g q = ∅
}.

(** The record of the artifact is complete. *)
Lemma loader_records h0 changed restored existing g p q b a t :
  replaced h0 changed restored g p q b a t →
  ∃ g', rescueOldBuildData p q (childListsOf h0 changed restored) existing g = Ok g' ∧
    rescuable g' !! (q, filePath (artifactOf (heap g) a)) = Some (recordOf h0 g a t).
Proof.
  intros [Hc Hp (b0 & Hb0 & Ha0 & Hart0) Hb Hw [Ha Hart] Ht Hl Hu Ho Hf].
  unfold rescueOldBuildData. rewrite Hb. set (g1 := on_heap (provideBuildData q) g).
  assert (rescuableOf g1 q = ∅) as -> by exact Hf. rewrite bool_decide_eq_true_2 by done.
  cbn [QBS_CHECK exn_bind]. set (g2 := on_rescuable _ g1).
  rewrite <-(recordOf_ext h0 g g1); [|done..|].
  - apply (rescueArtifacts_entry h0 g1 q (childListsOf h0 changed restored)); try done.
    + intros a' info c Hi Hin. rewrite (childListsOf_info _ _ _ _ _ Hi) in Hin.
      apply (Ho a'). by apply elem_of_oldChildren.
    + apply elem_of_artifacts_of. split; [done|]. by apply isArtifact_Some.
    + apply artifacts_of_NoDup. by apply wf_set_NoDup.
    + etrans; [|exact Hl]. by apply lookupArtifactByPath_ext.
    + intros a' Ha' Hs Hpath. apply elem_of_artifacts_of in Ha' as [Ha' _]. by apply Hu.
    + by eapply childListsOf_lookup.
  - intros p'. unfold g1, provideBuildData. simpl. destruct (decide (q = p')) as [->|Hne].
    + rewrite lookup_alter_eq. by destruct (products (heap g) !! p').
    + by rewrite lookup_alter_ne.
Qed.

(** The file dependencies are recorded once for each child: several times for an
    artifact with several children, and not at all for one without children. *)
Lemma recorded_dependencies h0 g a t :
  rad_fileDependencies (recordOf h0 g a t) =
    concat (replicate (length (oldChildren h0 a)) (dependencyPaths g a)).
Proof.
  unfold recordOf. cbn [rad_fileDependencies]. f_equal. generalize (oldChildren h0 a). intros l.
  induction l as [|c l IH]; simpl; [done|]. by f_equal.
Qed.

(** ** The comparison, in terms of the old artifact *)

(** The artifact that has the path of the old child [c] now, in a product with the
    same name *)
Definition counterpart (g : Graph) (e : Executor) (c : nat) : option nat :=
  lookupByProductName (heapOf e) (productName (heap g) c) (filePath (artifactOf (heap g) c)).

(** The new artifact [a'] has the commands of the old artifact [a], no other children,
    and lacks only children that the scanner had added. *)
Record unchanged (h0 : Heap) (g : Graph) (a t : nat) (e : Executor) (a' t' : nat) : Prop := {
  uc_commands : commandsId (transformerDataOf e t') = commandsId (oldTransformerData g t);
  uc_children c : oldChild h0 a c →
    ∃ c', counterpart g e c = Some c' ∧ (edge (heapOf e) a' c' ∨ foundByScanner h0 a c = true);
  uc_dependencies c path : oldChild h0 a c → path ∈ dependencyPaths g a →
    ∃ d, d ∈ lookupFilesByPath (heapOf e) path ∧ is_Some (fileDependencies (heapOf e) !! d);
  uc_new c' : edge (heapOf e) a' c' → isArtifact (heapOf e) c' = true →
    ∃ c, oldChild h0 a c ∧ counterpart g e c = Some c'
}.

Lemma elem_of_recorded h0 g a t cd :
  cd ∈ rad_children (recordOf h0 g a t) ↔ ∃ c, oldChild h0 a c ∧ cd = childData h0 g a c.
Proof. simpl. rewrite list_elem_of_fmap. setoid_rewrite elem_of_oldChildren. naive_solver. Qed.

Lemma hasFileDependency_spec h path :
  hasFileDependency h path = true ↔
  ∃ d, d ∈ lookupFilesByPath h path ∧ is_Some (fileDependencies h !! d).
Proof.
  unfold hasFileDependency. rewrite existsb_exists. setoid_rewrite <-list_elem_of_In.
  by setoid_rewrite bool_decide_eq_true.
Qed.

Lemma same_as_recorded_unchanged h0 g a t e a' t' :
  same_as_recorded e a' t' (recordOf h0 g a t) ↔ unchanged h0 g a t e a' t'.
Proof.
  split; intros [HC HK HD HN]; split; [done|..].
  - intros c Hc. apply (HK (childData h0 g a c)). apply elem_of_recorded. eauto.
  - intros c path Hc Hp. apply hasFileDependency_spec, HD. simpl.
    apply list_elem_of_In, in_concat. exists (dependencyPaths g a). rewrite <-!list_elem_of_In. split; [|done].
    apply list_elem_of_fmap. exists c. split; [done|]. by apply elem_of_oldChildren.
  - intros c' He Ha. destruct (HN c' He Ha) as (cd & (c & Hc & ->)%elem_of_recorded & Hcd). by exists c.
  - done.
  - intros cd (c & Hc & ->)%elem_of_recorded. apply (HK c Hc).
  - simpl. intros path Hin. apply list_elem_of_In, in_concat in Hin as (l & Hl & Hp).
    rewrite <-!list_elem_of_In in *. apply list_elem_of_fmap in Hl as (c & -> & Hc).
    apply hasFileDependency_spec. apply (HD c); [by apply elem_of_oldChildren|done].
  - intros c' He Ha. destruct (HN c' He Ha) as (c & Hc & Hcd). exists (childData h0 g a c).
    split; [|done]. apply elem_of_recorded. eauto.
Qed.

(** ** The property *)

(** The artifact [a'] of the product [q], made by a rule for the path of [a], and the
    state [e] of the executor that looks at it for the first time *)
Record recreated (h0 : Heap) (g g' : Graph) (q a : nat) (e : Executor) (a' t' : nat) : Prop := {
  rc_ok : project_ok (heapOf e);
  rc_acyclic : acyclic (heapOf e);
  rc_artifact : ∃ x, as_artifact (heapOf e) a' = Some x ∧
    filePath x = filePath (artifactOf (heap g) a) ∧ artifactType x = Generated ∧ transformer x = Some t';
  rc_transformer : is_Some (transformers (heapOf e) !! t');
  rc_product : productOf (heapOf e) a' = Some q;
  rc_first : oldDataPossiblyPresent (artifactDataOf e a') = true;
  rc_record : rescuable (graph e) !! (q, filePath (artifactOf (heap g) a)) =
    rescuable g' !! (q, filePath (artifactOf (heap g) a));
  rc_paths : NoDup (ownKey e a' :: ((λ c, childKey (childData h0 g a c)) <$> oldChildren h0 a))
}.

