(* ===== verification/RescueExamples.v ===== *)
(** * Removing and rescuing at a concrete project

    The object file 2 is compiled from the source file 1; the scanner has found the
    header 3 and the system header 40.  The product 9 is resolved again as product 19,
    whose source files are 10 and 11, and a rule makes the object file 12. *)

From S2P Require Import Prelude FlatSet BuildGraph BuildGraphCorrect ArtifactRemoval ArtifactLookup.
From S2P Require Import StateMonad ExecutorState Executor BuildDataRescue ProductRemoval.
From S2P Require Import BuildDataRescueCorrect RescueDecision RescueCorrect RescueRoundtrip.

(** ** A decision procedure for [project_ok] *)

Definition check_project (h : Heap) : bool :=
  check_graph h &&
  forallb (λ '(key, l), bool_decide (NoDup l) && forallb (λ a,
      match as_artifact h a with
      | Some x => bool_decide (key = lookupKey (filePath x))
      | None => true
      end) l) (map_to_list (lookupTable h)) &&
  forallb (λ '(p, rp),
    match buildData rp with
    | Some b => bool_decide (Sorted Nat.lt (m_nodes b)) &&
                forallb (λ u, bool_decide (productOf h u = Some p)) (m_nodes b)
    | None => true
    end) (map_to_list (products h)) &&
  forallb (λ '(u, _), negb (isArtifact h u) ||
    match productOf h u with Some p => bool_decide (is_Some (buildDataOf h p)) | None => false end)
    (map_to_list (nodes h)) &&
  forallb (λ '(_, r), bool_decide (Sorted Nat.lt (transformer_inputs r))) (map_to_list (transformers h)).

Lemma check_project_ok h : check_project h = true → project_ok h.
Proof.
  unfold check_project. rewrite !andb_true_iff. intros ((((HG & HL) & HB) & HP) & HT). split.
  - by apply check_graph_ok.
  - intros key l Hk. apply elem_of_map_to_list in Hk. apply (forallb_elem _ _ _ HL) in Hk.
    apply andb_true_iff in Hk as [Hn%bool_decide_eq_true Ha]. split; [done|].
    intros a x Hin Hx. apply (forallb_elem _ _ _ Ha) in Hin. rewrite Hx in Hin.
    by apply bool_decide_eq_true in Hin.
  - intros p b Hb. unfold buildDataOf in Hb. destruct (products h !! p) as [rp|] eqn:E; [|done].
    apply elem_of_map_to_list in E. apply (forallb_elem _ _ _ HB) in E. simpl in E. rewrite Hb in E.
    apply andb_true_iff in E as [Hs Hu]. split; [by apply ssorted_nat_check|].
    intros u Hin. apply (forallb_elem _ _ _ Hu) in Hin. by apply bool_decide_eq_true in Hin.
  - intros a Ha. destruct (nodes h !! a) as [n|] eqn:E.
    2: { unfold isArtifact, as_artifact in Ha. by rewrite E in Ha. }
    apply elem_of_map_to_list in E. apply (forallb_elem _ _ _ HP) in E. simpl in E. rewrite Ha in E.
    destruct (productOf h a) as [p|]; [|done]. apply bool_decide_eq_true in E. eauto.
  - intros t r Hr. apply elem_of_map_to_list in Hr. apply (forallb_elem _ _ _ HT) in Hr.
    by apply ssorted_nat_check.
Qed.

(** ** The project *)

Module RescueExample.
Definition file (path : string) (p : nat) (ps cs : list nat) (ty : ArtifactType)
    (scanned deps : list nat) (t : option nat) : Node :=
  mkNode ps cs (Some p) (ArtifactNodeType (mkArtifact (lit path) 7 ty [] scanned deps t [] 0)).

Definition app (ns : list nat) : ResolvedProduct :=
  mkResolvedProduct (lit "app") true [] [] [] 0 [] (Some (mkProductBuildData ns [] ∅ true)).

(** The restored project *)
Definition before : Heap :=
  mkHeap
    (list_to_map
      [(1, file "/s/a.c" 9 [2] [] SourceFile [] [] None);
       (2, file "/b/a.o" 9 [] [1; 3] Generated [3] [40] (Some 20));
       (3, file "/s/a.h" 9 [2] [] SourceFile [] [] None)])
    {[20 := mkTransformer [1] [2] [] 6 ∅ ∅]} ∅ {[9 := app [1; 2; 3]]} {[40 := lit "/usr/stdio.h"]}
    (list_to_map
      [((lit "a.c", lit "/s"), [1]); ((lit "a.o", lit "/b"), [2]); ((lit "a.h", lit "/s"), [3]);
       ((lit "stdio.h", lit "/usr"), [40])]) true.

(** The object file is gone when the product has been removed. *)
Definition after : Heap :=
  match onProductRemoved 9 false [9] before with Ok (_, h, _) => h | Throw _ => emptyHeap end.

Definition listed (path : str) (r : nat) (h : Heap) : Heap :=
  set_lookupTable (insert (lookupKey path) [r]) h.

(** The newly resolved product with its source files *)
Definition resolved : Heap :=
  listed (lit "/s/a.c") 10 (listed (lit "/s/a.h") 11
    (set_products (insert 19 (app [10; 11]))
      (set_nodes (λ m, <[10 := file "/s/a.c" 19 [] [] SourceFile [] [] None]>
                         (<[11 := file "/s/a.h" 19 [] [] SourceFile [] [] None]> m)) after))).

Definition oldCommands : TransformerData := mkTransformerData false true [] 5.
Definition loaded : Graph := mkGraph resolved ∅ {[20 := oldCommands]} {[40 := 3%Z]} ∅.

Definition rescued : Graph :=
  match rescueOldBuildData 9 19 (childListsOf before [9] [9]) ∅ loaded with
  | Ok g => g
  | Throw _ => loaded
  end.

(** A rule has made the object file again, with the commands [id]. *)
Definition applied : Heap :=
  listed (lit "/b/a.o") 12
    (set_transformers (insert 21 (mkTransformer [10] [12] [] 6 ∅ ∅))
      (set_products (insert 19 (app [10; 11; 12]))
        (set_nodes (λ m, <[10 := file "/s/a.c" 19 [12] [] SourceFile [] [] None]>
                           (<[12 := file "/b/a.o" 19 [] [10] Generated [] [] (Some 21)]> m)) resolved))).

Definition files : FileSystem := mkFileSystem (λ _, 10%Z) (λ _, 10%Z) (λ _, true) (λ _, true) 20.

Definition building (id : nat) : Executor :=
  newExecutor (mkGraph applied ∅ {[20 := oldCommands; 21 := mkTransformerData false false [] id]}
                 {[40 := 3%Z]} (rescuable rescued)) files.
End RescueExample.
Import RescueExample.

Lemma restored_project_ok : project_ok before.
Proof. apply check_project_ok. by vm_compute. Qed.

Lemma applied_ok : project_ok applied.
Proof. apply check_project_ok. by vm_compute. Qed.

Lemma applied_acyclic : acyclic applied.
Proof. apply check_order_acyclic. by vm_compute. Qed.

(** With the same commands the header is connected again and the object file keeps its
    time stamp; with others it does not. *)
Lemma rescue_takes_effect :
  let '(r, e) := Executor.rescueOldBuildData 12 (building 5) in
  r = Ok true ∧ children (node (heapOf e) 12) = [10; 11] ∧ timeOf e 12 = 7%Z.
Proof. by vm_compute. Qed.

Lemma other_commands_are_not_rescued :
  let '(r, e) := Executor.rescueOldBuildData 12 (building 6) in
  r = Ok false ∧ children (node (heapOf e) 12) = [10].
Proof. by vm_compute. Qed.

(** ** The properties at the project *)

Lemma onProductRemoved_correct_witness :
  ∃ h', onProductRemoved 9 true [9] before = Ok ([], h', [lit "/b/a.o"]) ∧
    (∀ x y, edge h' x y ↔ edge before x y ∧ x ∉ [1; 2; 3] ∧ y ∉ [1; 2; 3]).
Proof.
  destruct (onProductRemoved_correct 9 true [9] before (mkProductBuildData [1; 2; 3] [] ∅ true))
    as (h' & E & _ & _ & He & _); [exact restored_project_ok|by vm_compute| |by exists h'].
  intros u v x Hin Hv _ Hx. apply (wf_edges _ (po_graph _ restored_project_ok)) in Hv.
  assert (u = 2) as ->; [|vm_compute in Hx; injection Hx as <-; by eexists].
  simpl in Hin. rewrite !elem_of_cons, elem_of_nil in Hin.
  destruct_or! Hin; subst; vm_compute in Hv;
    first [by apply list_elem_of_singleton in Hv|by apply elem_of_nil in Hv].
Defined.

Lemma before_replaced :
  replaced before [9] [9] loaded 9 19 (mkProductBuildData [1; 2; 3] [] ∅ true) 2 20.
Proof.
  assert (2 ∈ [1; 2; 3]) as Hin by (right; left).
  split; [done|left| |by vm_compute| | |by vm_compute|by vm_compute| | |by vm_compute].
  - exists (mkProductBuildData [1; 2; 3] [] ∅ true). by split_and!.
  - by apply ssorted_nat_check.
  - split; [exact Hin|by vm_compute].
  - intros a' Ha' _ Ht. simpl in Ha'. rewrite !elem_of_cons, elem_of_nil in Ha'.
    destruct_or! Ha'; subst; [by destruct Ht|done|by destruct Ht].
  - intros a' c [_ Hc]. apply isArtifact_Some in Hc as [x Hx].
    unfold as_artifact, before in Hx. cbn [nodes] in Hx. destruct (_ !! c) as [n|] eqn:Hn; [|done].
    apply elem_of_list_to_map_2 in Hn. rewrite !elem_of_cons, elem_of_nil in Hn.
    destruct_or! Hn; simplify_eq; vm_compute; eauto.
Qed.

Lemma applied_recreated : recreated before loaded rescued 19 2 (building 5) 12 21.
Proof.
  split.
  - exact applied_ok.
  - exact applied_acyclic.
  - eexists. split; [by vm_compute|]. by split_and!.
  - by eexists.
  - by vm_compute.
  - by vm_compute.
  - by vm_compute.
  - eapply bool_decide_eq_true_1. by vm_compute.
Qed.

