(* ===== verification/RuleApplication.v ===== *)
(** * Applying rules ([buildgraph/rulesapplicator.cpp], [RuleNode::apply])

    When a rule node is built, its rule is applied to the artifacts that are inputs
    for it: the prepare script is run, output artifacts are created or taken over,
    outputs that the rule no longer makes are removed, and the new transformer is
    given the commands.  Scripts and property maps are the class [RuleScripts]; what a
    property map contains is only compared, and whether a script must run again is the
    answer of the change tracking, which has its own file.  The data it needs is kept
    outside of the graph, except for the requested artifacts.  There is no cancelation,
    and the moc scanner, which belongs to the scripts, is left out. *)

From S2P Require Import Prelude FlatSet BuildGraph StateMonad.

(** ** What belongs to a rule ([Rule::artifacts]) *)

Record RuleArtifactItem := mkRuleArtifactItem {
  itemId : nat;              (* the expression [filePath] *)
  itemFileTags : FileTags;
  itemAlwaysUpdated : bool;
  itemHasBindings : bool
}.

(** An element of the array that [outputArtifacts] returns; [None] for the list:
    the result is no array, for an element: it is no object. *)
Record OutputObject := mkOutputObject {
  outputFilePath : list ascii;
  outputFileTags : FileTags;
  outputAlwaysUpdated : option bool;
  outputExplicitlyDependsOn : FileTags;
  outputBindings : option nat     (* of other properties, if there are any *)
}.

Inductive RuleError :=
  | GraphError (e : BGError)
  | ScriptError (message : nat)
  | AlreadyCreated (rule : nat) (path : list ascii)
  | UndeclaredTags (path : list ascii) (tags : FileTags)
  | ConflictingRules (artifact : nat) (rule other : nat)
  | ConflictingInstances (artifact : nat) (rule : nat)
  | NotAnArray
  | NotAnObject
  | EmptyFilePath (index : nat)
  | NoFileTags (index : nat) (path : list ascii)
  | NoCommands (rule : nat)
  | DanglingPointer (parent child : nat).

(** ** Scripts and items

    The static members of rules and products that the graph does not have, and what
    evaluating an expression or a script gives in a state of the graph. *)
Class RuleScripts := {
  itemsOf : nat → list RuleArtifactItem;               (* [Rule::artifacts] *)
  staticTags : nat → FileTags;                         (* [Rule::outputFileTags] *)
  ruleAlwaysRun : nat → bool;
  productModuleProperties : nat → nat;
  fileTagsForFileName : nat → list ascii → FileTags;
  artifactPropertiesOf : nat → list (FileTags * FileTags * nat);
  isInstalled : nat → bool;                            (* of a property map *)
  installableTag : nat;
  buildDirectory : nat → list ascii;                   (* of a product *)
  resolvePath : list ascii → list ascii → list ascii;
  cleanPath : list ascii → list ascii;
  projectBuildDirectory : list ascii;
  dummyOutput : nat → list (list ascii) → list ascii;  (* with the hash of rule and inputs *)
  evaluateFilePath : nat → nat → NodeSet → Heap → exn nat (list ascii);
  evaluateBindings : nat → nat → nat → Heap → exn nat nat;
  callOutputArtifacts : nat → NodeSet → Heap → exn nat (option (list (option OutputObject)));
  withBindings : nat → nat → nat;
  callPrepare : nat → nat → Heap → exn nat (nat * bool * RequestedArtifacts);
  commandsChanged : nat → Heap → bool;
  prepareScriptChanged : nat → Heap → bool;
  scriptsUseIo : nat → NodeSet → Heap → bool;
  applicationTime : Z
}.

(** ** State

    The graph with the members of artifacts and transformers that only rule
    application uses, and the members of [RulesApplicator]. *)
Record RuleState := mkRuleState {
  graphOf : Heap;
  pureFileTags : gmap nat FileTags;
  isAlwaysUpdated : gmap nat bool;
  isAlwaysRun : gmap nat bool;
  commandsOf : gmap nat nat;          (* of each transformer *)
  m_createdArtifacts : NodeSet;
  m_invalidatedArtifacts : NodeSet;
  m_removedArtifacts : list (list ascii);
  m_transformer : nat;
  m_oldTransformer : option nat;
  m_ruleUsesIo : bool
}.

Abbreviation RM := (st RuleState RuleError).

Definition on_graphOf (f : Heap → Heap) (s : RuleState) : RuleState :=
  mkRuleState (f (graphOf s)) (pureFileTags s) (isAlwaysUpdated s) (isAlwaysRun s) (commandsOf s)
    (m_createdArtifacts s) (m_invalidatedArtifacts s) (m_removedArtifacts s) (m_transformer s)
    (m_oldTransformer s) (m_ruleUsesIo s).
Definition setPureFileTags (a : nat) (tags : FileTags) (s : RuleState) : RuleState :=
  mkRuleState (graphOf s) (<[a := tags]> (pureFileTags s)) (isAlwaysUpdated s) (isAlwaysRun s)
    (commandsOf s) (m_createdArtifacts s) (m_invalidatedArtifacts s) (m_removedArtifacts s)
    (m_transformer s) (m_oldTransformer s) (m_ruleUsesIo s).
Definition setAlwaysUpdated (a : nat) (b : bool) (s : RuleState) : RuleState :=
  mkRuleState (graphOf s) (pureFileTags s) (<[a := b]> (isAlwaysUpdated s)) (isAlwaysRun s)
    (commandsOf s) (m_createdArtifacts s) (m_invalidatedArtifacts s) (m_removedArtifacts s)
    (m_transformer s) (m_oldTransformer s) (m_ruleUsesIo s).
Definition setCommands (t c : nat) (s : RuleState) : RuleState :=
  mkRuleState (graphOf s) (pureFileTags s) (isAlwaysUpdated s) (isAlwaysRun s)
    (<[t := c]> (commandsOf s)) (m_createdArtifacts s) (m_invalidatedArtifacts s)
    (m_removedArtifacts s) (m_transformer s) (m_oldTransformer s) (m_ruleUsesIo s).
Definition addCreated (a : nat) (s : RuleState) : RuleState :=
  mkRuleState (graphOf s) (pureFileTags s) (isAlwaysUpdated s) (isAlwaysRun s) (commandsOf s)
    (ins (m_createdArtifacts s) a) (m_invalidatedArtifacts s) (m_removedArtifacts s)
    (m_transformer s) (m_oldTransformer s) (m_ruleUsesIo s).
Definition addInvalidated (a : nat) (s : RuleState) : RuleState :=
  mkRuleState (graphOf s) (pureFileTags s) (isAlwaysUpdated s) (isAlwaysRun s) (commandsOf s)
    (m_createdArtifacts s) (ins (m_invalidatedArtifacts s) a) (m_removedArtifacts s)
    (m_transformer s) (m_oldTransformer s) (m_ruleUsesIo s).
Definition setRemoved (paths : list (list ascii)) (s : RuleState) : RuleState :=
  mkRuleState (graphOf s) (pureFileTags s) (isAlwaysUpdated s) (isAlwaysRun s) (commandsOf s)
    (m_createdArtifacts s) (m_invalidatedArtifacts s) paths (m_transformer s) (m_oldTransformer s)
    (m_ruleUsesIo s).
Definition setOldTransformer (t : option nat) (s : RuleState) : RuleState :=
  mkRuleState (graphOf s) (pureFileTags s) (isAlwaysUpdated s) (isAlwaysRun s) (commandsOf s)
    (m_createdArtifacts s) (m_invalidatedArtifacts s) (m_removedArtifacts s) (m_transformer s)
    t (m_ruleUsesIo s).
Definition startApplication (s : RuleState) : RuleState :=
  mkRuleState (graphOf s) (pureFileTags s) (isAlwaysUpdated s) (isAlwaysRun s) (commandsOf s)
    [] [] [] (m_transformer s) (m_oldTransformer s) (m_ruleUsesIo s).
Definition setRuleUsesIo (b : bool) (s : RuleState) : RuleState :=
  mkRuleState (graphOf s) (pureFileTags s) (isAlwaysUpdated s) (isAlwaysRun s) (commandsOf s)
    (m_createdArtifacts s) (m_invalidatedArtifacts s) (m_removedArtifacts s) (m_transformer s)
    (m_oldTransformer s) b.

(** A function of the build graph. *)
Definition onHeap (f : Heap → exn BGError Heap) : RM unit := λ s,
  match f (graphOf s) with
  | Ok h => (Ok tt, on_graphOf (λ _, h) s)
  | Throw e => (Throw (GraphError e), s)
  end.
Definition changeHeap (f : Heap → Heap) : RM unit := modify (on_graphOf f).
Definition checkThat (b : bool) : RM unit :=
  if b then mret tt else throw (GraphError CheckFailed).
Definition ofGraph {A} (f : Heap → exn BGError A) : RM A := λ s,
  match f (graphOf s) with
  | Ok a => (Ok a, s)
  | Throw e => (Throw (GraphError e), s)
  end.
Definition ofScript {A} (f : Heap → exn nat A) : RM A := λ s,
  match f (graphOf s) with
  | Ok a => (Ok a, s)
  | Throw e => (Throw (ScriptError e), s)
  end.

(** [connect] of nodes that there are.  Where the program would use a pointer to a node
    that it has deleted, the model stops. *)
Definition connectNodes (p c : nat) : RM unit :=
  h ← gets graphOf;
  if bool_decide (is_Some (nodes h !! p)) && bool_decide (is_Some (nodes h !! c))
  then onHeap (connect p c)
  else throw (DanglingPointer p c).

(** An address for a new object: one that no object has and no table names. *)
Definition above (l : list nat) : nat := S (foldr Nat.max 0 l).
Definition freshAddress {A} (m : gmap nat A) : nat := above (map_to_list m).*1.
Definition newResource (h : Heap) : nat :=
  above ((map_to_list (nodes h)).*1 ++ (map_to_list (fileDependencies h)).*1
         ++ concat (map_to_list (lookupTable h)).*2).

Section RuleApplication.
Context {RS : RuleScripts}.

Definition ruleAt (h : Heap) (r : nat) : Rule :=
  default (mkRule 0 [] [] [] [] [] [] [] false false false) (rules h !! r).
Definition transformerAt (h : Heap) (t : nat) : Transformer :=
  default (mkTransformer [] [] [] 0 ∅ ∅) (transformers h !! t).
Definition pathOf (h : Heap) (a : nat) : list ascii := filePath (artifactOf h a).
Definition propertiesOf (h : Heap) (a : nat) : nat := properties (artifactOf h a).
Definition isTargetOfModule (h : Heap) (a : nat) : bool :=
  negb (bool_decide (targetOfModule (artifactOf h a) = [])).

(** ** Additional inputs *)

Definition targetArtifacts (h : Heap) (p : nat) : exn BGError NodeSet :=
  match products h !! p with
  | None => Throw NullPointer
  | Some rp =>
      match buildData rp with
      | None => Throw CheckFailed
      | Some b =>
          for_each (λ a s,
            let* _ := QBS_CHECK (intersects (fileTags h a) (product_fileTags rp)) in
            Ok (ins s a)) (artifacts_of h (m_roots b)) []
      end
  end.

Definition dependenciesOf (h : Heap) (p : nat) : list nat :=
  match products h !! p with Some rp => dependencies rp | None => [] end.

Definition lookupByTag (h : Heap) (p tag : nat) : exn BGError NodeSet :=
  match buildDataOf h p with
  | None => Throw CheckFailed
  | Some b => Ok (lookupArtifactsByFileTag b tag)
  end.

(** The flags of [InputsSources]. *)
Record InputsSources := mkInputsSources { CurrentProduct : bool; Dependencies : bool }.

(** One tag of [collectAdditionalInputs]. *)
Definition collectForTag (h : Heap) (excluded : FileTags) (p : nat) (src : InputsSources)
    (tag : nat) (artifacts : NodeSet) : exn BGError NodeSet :=
  let* l := lookupByTag h p tag in
  let artifacts := foldl (λ s dependency,
    if intersects (fileTags h dependency) excluded then s
    else if (CurrentProduct src && negb (isTargetOfModule h dependency)) ||
            (Dependencies src && isTargetOfModule h dependency)
    then ins s dependency else s) artifacts l in
  if Dependencies src then
    for_each (λ depProduct s,
      let* tas := targetArtifacts h depProduct in
      Ok (foldl (λ s ta, if contains (fileTags h ta) tag && negb (intersects (fileTags h ta) excluded)
                         then ins s ta else s) s tas)) (dependenciesOf h p) artifacts
  else Ok artifacts.

Definition collectAdditionalInputs (h : Heap) (tags excluded : FileTags) (p : nat)
    (src : InputsSources) : exn BGError NodeSet :=
  for_each (collectForTag h excluded p src) tags [].

Definition collectAuxiliaryInputs (h : Heap) (r : Rule) (p : nat) : exn BGError NodeSet :=
  collectAdditionalInputs h (auxiliaryInputs r) (excludedInputs r) p (mkInputsSources true true).

Definition collectExplicitlyDependsOn (h : Heap) (r : Rule) (p : nat) : exn BGError NodeSet :=
  let* first := collectAdditionalInputs h (explicitlyDependsOn r) (excludedInputs r) p
                  (mkInputsSources true false) in
  let* second := collectAdditionalInputs h (explicitlyDependsOnFromDependencies r)
                   (excludedInputs r) p (mkInputsSources false true) in
  Ok (set_unite Nat.ltb first second).

(** ** Removed outputs *)

(** The paths of the removed artifacts are added to [removedArtifacts]. *)
Definition handleRemovedRuleOutputs (inputArtifacts outputArtifactsToRemove : NodeSet)
    (removedArtifacts : list (list ascii)) : RM (list (list ascii)) :=
  h ← gets graphOf;
  r ← ofGraph (λ h, for_each (λ a st,
        removeArtifactAndExclusiveDependents (graphFuel h) true a st)
        outputArtifactsToRemove (h, []));
  _ ← changeHeap (λ _, r.1);
  foldM (λ removedArtifacts a,
    _ ← checkThat (negb (contains inputArtifacts a));
    h ← gets graphOf;
    _ ← changeHeap (destroyArtifact a);
    mret (removedArtifacts ++ [pathOf h a])) (r.2 : NodeSet) removedArtifacts.

Definition collectOldOutputArtifacts (h : Heap) (r : nat) (inputArtifacts : NodeSet) :
    exn BGError NodeSet :=
  for_each (λ a s,
    for_each (λ p s,
      match transformer (artifactOf h p) with
      | None => Throw CheckFailed
      | Some t =>
          let tr := transformerAt h t in
          Ok (if (transformer_rule tr =? r) && contains (transformer_inputs tr) a
              then ins s p else s)
      end) (artifacts_of h (parents (node h a))) s) inputArtifacts [].

(** ** Output artifacts *)

Record OutputArtifactInfo := mkOutputArtifactInfo {
  outputArtifact : nat;
  newlyCreated : bool;
  oldFileTags : FileTags;
  oldProperties : nat
}.

Definition setProperties (m : nat) (a : Artifact) : Artifact :=
  mkArtifact (filePath a) (timestamp a) (artifactType a) (m_fileTags a) (childrenAddedByScanner a)
    (artifact_fileDependencies a) (transformer a) (targetOfModule a) m.
Definition setFilePath (path : list ascii) (a : Artifact) : Artifact :=
  mkArtifact path (timestamp a) (artifactType a) (m_fileTags a) (childrenAddedByScanner a)
    (artifact_fileDependencies a) (transformer a) (targetOfModule a) (properties a).
Definition setTransformer (t : nat) (a : Artifact) : Artifact :=
  mkArtifact (filePath a) (timestamp a) (artifactType a) (m_fileTags a) (childrenAddedByScanner a)
    (artifact_fileDependencies a) (Some t) (targetOfModule a) (properties a).
Definition updArtifact (f : Artifact → Artifact) (a : nat) : RM unit :=
  changeHeap (upd_node (upd_artifact f) a).

(** The first group of artifact properties that applies. *)
Fixpoint firstProperties (tags : FileTags) (l : list (FileTags * FileTags * nat)) :
    option (FileTags * nat) :=
  match l with
  | [] => None
  | (filter, extra, props) :: l' =>
      if intersects tags filter then Some (extra, props) else firstProperties tags l'
  end.

Definition provideFullFileTagsAndProperties (p a : nat) : RM unit :=
  s ← gets id;
  let pure := default [] (pureFileTags s !! a) in
  let allTags := if is_nil pure then fileTagsForFileName p (fileName (pathOf (graphOf s) a))
                 else pure in
  let '(allTags, props) :=
    match firstProperties allTags (artifactPropertiesOf p) with
    | Some (extra, props) => (set_unite Nat.ltb allTags extra, props)
    | None => (allTags, productModuleProperties p)
    end in
  _ ← updArtifact (setProperties props) a;
  _ ← changeHeap (setFileTags a allTags);
  when (isInstalled props) (changeHeap (addFileTag a installableTag)).

(** [outputPath.replace("..", "dotdot")] *)
Fixpoint replaceDotDot (path : list ascii) : list ascii :=
  match path with
  | c1 :: (c2 :: path') as rest =>
      if (c1 =c ".") && (c2 =c ".") then lit "dotdot" ++ replaceDotDot path'
      else c1 :: replaceDotDot rest
  | _ => path
  end.

Definition resolveOutPath (path : list ascii) : list ascii :=
  cleanPath (resolvePath projectBuildDirectory path).

Definition addOutput (a : nat) (t : Transformer) : Transformer :=
  mkTransformer (transformer_inputs t) (ins (transformer_outputs t) a)
    (transformer_explicitlyDependsOn t) (transformer_rule t)
    (artifactsMapRequestedInPrepareScript t) (artifactsMapRequestedInCommands t).

(** [m_transformer->rescueChangeTrackingData(old)], of the record in the graph. *)
Definition rescueRequests (old : Transformer) (t : Transformer) : Transformer :=
  mkTransformer (transformer_inputs t) (transformer_outputs t)
    (transformer_explicitlyDependsOn t) (transformer_rule t)
    (artifactsMapRequestedInPrepareScript old) (artifactsMapRequestedInCommands old).

Definition updTransformer (f : Transformer → Transformer) (t : nat) : RM unit :=
  changeHeap (set_transformers (alter f t)).

(** An artifact for the file is there: may this application of the rule [r] produce
    it? *)
Definition checkConflicts (h : Heap) (r a : nat) (inputArtifacts : NodeSet) : RM unit :=
  match transformer (artifactOf h a) with
  | None => mret tt
  | Some t =>
      let tr := transformerAt h t in
      if negb (transformer_rule tr =? r) then throw (ConflictingRules a r (transformer_rule tr))
      else if negb (multiplex (ruleAt h r)) && negb (bool_decide (transformer_inputs tr = inputArtifacts))
      then
        _ ← checkThat (length inputArtifacts =? 1);
        _ ← checkThat (length (transformer_inputs tr) =? 1);
        throw (ConflictingInstances a r)
      else mret tt
  end.

Definition takeOverOutput (a : nat) : RM OutputArtifactInfo :=
  s ← gets id;
  let h := graphOf s in
  let old := transformer (artifactOf h a) in
  _ ← match old with
      | Some t => updTransformer (rescueRequests (transformerAt h t)) (m_transformer s)
      | None => mret tt
      end;
  _ ← modify (setOldTransformer old);
  mret (mkOutputArtifactInfo a false (fileTags h a) (propertiesOf h a)).

(** A new artifact.  When [insertArtifact] throws, the [unique_ptr] deletes it. *)
Definition insertGenerated (p a : nat) (path : list ascii) (h : Heap) : exn BGError Heap :=
  insertArtifact p a
    (upd_node (upd_artifact (setFilePath path)) a (set_nodes (insert a (newArtifact Generated)) h)).

Definition createGenerated (p ruleNode : nat) (path : list ascii) : RM OutputArtifactInfo :=
  h ← gets graphOf;
  let a := newResource h in
  _ ← onHeap (insertGenerated p a path);
  _ ← modify (addCreated a);
  _ ← connectNodes a ruleNode;
  mret (mkOutputArtifactInfo a true [] 0).

(** The artifact for the file [outputPath]: the one that there is, or a new one. *)
Definition obtainOutput (p ruleNode r : nat) (outputPath : list ascii) (inputArtifacts : NodeSet) :
    RM OutputArtifactInfo :=
  h ← gets graphOf;
  match lookupArtifactByPath h p outputPath false with
  | Some a => _ ← checkConflicts h r a inputArtifacts; takeOverOutput a
  | None => createGenerated p ruleNode outputPath
  end.

(** The output becomes a child of the rule nodes above and a parent of the inputs. *)
Definition connectOutput (ruleNode : nat) (info : OutputArtifactInfo) (inputArtifacts : NodeSet) :
    RM unit :=
  let a := outputArtifact info in
  h ← gets graphOf;
  _ ← when (newlyCreated info || negb (bool_decide (oldFileTags info = fileTags h a)))
        (forM (ruleNodes_of h (parents (node h ruleNode))) (λ parentRule, connectNodes parentRule a));
  forM inputArtifacts (λ i, _ ← checkThat (negb (a =? i)); connectNodes a i).

Definition createOutputArtifact (p ruleNode r : nat) (filePath : list ascii) (tags : FileTags)
    (alwaysUpdated : bool) (inputArtifacts : NodeSet) : RM OutputArtifactInfo :=
  let outputPath := resolveOutPath (replaceDotDot filePath) in
  h ← gets graphOf;
  let undeclaredTags := set_minus Nat.ltb tags (outputTags (ruleAt h r)) in
  _ ← (if dynamic (ruleAt h r) && negb (is_nil undeclaredTags)
       then throw (UndeclaredTags outputPath undeclaredTags) else mret tt);
  info ← obtainOutput p ruleNode r outputPath inputArtifacts;
  let a := outputArtifact info in
  _ ← modify (setAlwaysUpdated a alwaysUpdated);
  _ ← modify (setPureFileTags a tags);
  _ ← provideFullFileTagsAndProperties p a;
  _ ← connectOutput ruleNode info inputArtifacts;
  t ← gets m_transformer;
  _ ← updArtifact (setTransformer t) a;
  _ ← updTransformer (addOutput a) t;
  h ← gets graphOf;
  _ ← checkThat (multiplex (ruleAt h r) || (length (transformer_inputs (transformerAt h t)) =? 1));
  mret info.

(** An artifact of the rule, or, with [None], the dummy output of a rule without
    artifacts.  The state of the loop are the paths of the outputs. *)
Definition createOutputArtifactFromRuleArtifact (p ruleNode r : nat) (ra : option RuleArtifactItem)
    (inputArtifacts : NodeSet) (outputFilePaths : gset (list ascii)) :
    RM (OutputArtifactInfo * gset (list ascii)) :=
  h ← gets graphOf;
  path ← match ra with
         | Some item => ofScript (evaluateFilePath r (itemId item) inputArtifacts)
         | None => mret (dummyOutput r (pathOf h <$> inputArtifacts))
         end;
  let outputPath := resolvePath (buildDirectory p) path in
  _ ← (if bool_decide (outputPath ∈ outputFilePaths) then throw (AlreadyCreated r outputPath)
       else mret tt);
  info ← createOutputArtifact p ruleNode r outputPath (from_option itemFileTags (staticTags r) ra)
           (from_option itemAlwaysUpdated false ra) inputArtifacts;
  mret (info, {[ outputPath ]} ∪ outputFilePaths).

Definition invalidateIfChanged (info : OutputArtifactInfo) : RM unit :=
  h ← gets graphOf;
  let a := outputArtifact info in
  when (negb (newlyCreated info) &&
        (negb (bool_decide (fileTags h a = oldFileTags info)) ||
         negb (bool_decide (propertiesOf h a = oldProperties info))))
    (changeHeap (invalidateArtifactAsRuleInputIfNecessary a)).

Definition createOutputArtifactFromScriptValue (p ruleNode r index : nat)
    (obj : option OutputObject) (inputArtifacts : NodeSet) : RM nat :=
  match obj with
  | None => throw NotAnObject
  | Some obj =>
      if is_nil (outputFilePath obj) then throw (EmptyFilePath index)
      else
        info ← createOutputArtifact p ruleNode r
                 (resolvePath (buildDirectory p) (outputFilePath obj)) (outputFileTags obj)
                 (default true (outputAlwaysUpdated obj)) inputArtifacts;
        let a := outputArtifact info in
        h ← gets graphOf;
        if is_nil (fileTags h a) then throw (NoFileTags index (outputFilePath obj))
        else
          _ ← forM (outputExplicitlyDependsOn obj) (λ tag,
                l ← ofGraph (λ h, lookupByTag h p tag);
                forM l (λ dependency, connectNodes a dependency));
          _ ← match outputBindings obj with
              | None => mret tt
              | Some bs => updArtifact (λ x, setProperties (withBindings bs (properties x)) x) a
              end;
          _ ← invalidateIfChanged info;
          mret a
  end.

Fixpoint createFromScriptValues (p ruleNode r index : nat) (l : list (option OutputObject))
    (inputArtifacts : NodeSet) : RM (list nat) :=
  match l with
  | [] => mret []
  | obj :: l' =>
      a ← createOutputArtifactFromScriptValue p ruleNode r index obj inputArtifacts;
      rest ← createFromScriptValues p ruleNode r (S index) l' inputArtifacts;
      mret (a :: rest)
  end.

Definition runOutputArtifactsScript (p ruleNode r : nat) (inputArtifacts : NodeSet) : RM (list nat) :=
  res ← ofScript (callOutputArtifacts r inputArtifacts);
  match res with
  | None => throw NotAnArray
  | Some l => createFromScriptValues p ruleNode r 0 l inputArtifacts
  end.

(** ** One application *)

(** [Transformer::create] with the members that [doApply] sets. *)
Definition newTransformer (r : nat) (inputArtifacts explicitly : NodeSet) (s : RuleState) :
    RuleState :=
  let t := freshAddress (transformers (graphOf s)) in
  mkRuleState
    (set_transformers (insert t (mkTransformer inputArtifacts [] explicitly r ∅ ∅)) (graphOf s))
    (pureFileTags s) (isAlwaysUpdated s) (<[t := ruleAlwaysRun r]> (isAlwaysRun s))
    (<[t := 0]> (commandsOf s)) (m_createdArtifacts s) (m_invalidatedArtifacts s)
    (m_removedArtifacts s) t None (m_ruleUsesIo s).

(** The outputs of a rule without [outputArtifacts] script, with their items. *)
Definition createFromRuleArtifacts (p ruleNode r : nat) (inputArtifacts : NodeSet) :
    RM (list (option RuleArtifactItem * OutputArtifactInfo)) :=
  let items := if is_nil (itemsOf r) then [None] else Some <$> itemsOf r in
  res ← foldM (λ acc item,
          x ← createOutputArtifactFromRuleArtifact p ruleNode r item inputArtifacts acc.2;
          mret (acc.1 ++ [(item, x.1)], x.2)) items ([], ∅);
  mret res.1.

Definition connectInput (ruleNode r input : nat) : RM unit :=
  h ← gets graphOf;
  if bool_decide (artifactType (artifactOf h input) = SourceFile)
     || negb (bool_decide (productOf h input = productOf h ruleNode))
  then connectNodes ruleNode input
  else
    pr ← ofGraph (λ h, producer h input);
    match pr with
    | None => throw (GraphError NullPointer)
    | Some pr =>
        if intersects (outputTags (ruleAt h (from_option m_rule 0 (as_ruleNode h pr))))
             (excludedInputs (ruleAt h r))
        then connectNodes ruleNode input
        else checkThat (contains (children (node h ruleNode)) input)
    end.

Definition applyBindings (r : nat) (x : option RuleArtifactItem * OutputArtifactInfo) : RM unit :=
  match x.1 with
  | Some item =>
      if itemHasBindings item then
        let a := outputArtifact x.2 in
        props ← ofScript (λ h, evaluateBindings r (itemId item) a h);
        _ ← updArtifact (setProperties props) a;
        invalidateIfChanged x.2
      else mret tt
  | None => mret tt
  end.

(** What [createCommands] takes over from the script engine, of the record in the
    graph. *)
Definition setRequests (m : RequestedArtifacts) (t : Transformer) : Transformer :=
  mkTransformer (transformer_inputs t) (transformer_outputs t)
    (transformer_explicitlyDependsOn t) (transformer_rule t) m (artifactsMapRequestedInCommands t).

(** Must the commands run again? *)
Definition outOfDate (s : RuleState) : bool :=
  let h := graphOf s in
  let t := m_transformer s in
  match m_oldTransformer s with
  | None => true
  | Some old =>
      negb (bool_decide (transformer_outputs (transformerAt h old) = transformer_outputs (transformerAt h t)))
      || negb (bool_decide (transformer_inputs (transformerAt h old) = transformer_inputs (transformerAt h t)))
      || negb (bool_decide (transformer_explicitlyDependsOn (transformerAt h old) =
                            transformer_explicitlyDependsOn (transformerAt h t)))
      || negb (bool_decide (default 0 (commandsOf s !! old) = default 0 (commandsOf s !! t)))
      || commandsChanged t h
  end.

Definition invalidateOutput (a : nat) : RM unit :=
  _ ← updArtifact clearTimestamp a;
  modify (addInvalidated a).

Definition doApply (p ruleNode r : nat) (completeInputSet explicitly inputArtifacts : NodeSet) :
    RM unit :=
  h ← gets graphOf;
  _ ← forM inputArtifacts (λ a,
        checkThat (negb (intersects (fileTags h a) (excludedInputs (ruleAt h r)))));
  _ ← modify (newTransformer r inputArtifacts explicitly);
  outputs ← (if dynamic (ruleAt h r)
             then l ← runOutputArtifactsScript p ruleNode r inputArtifacts;
                  mret ((λ a, (None, mkOutputArtifactInfo a true [] 0)) <$> l)
             else createFromRuleArtifacts p ruleNode r inputArtifacts);
  let outputArtifacts := (λ x : option RuleArtifactItem * OutputArtifactInfo, outputArtifact x.2) <$> outputs in
  oldOutputs ← ofGraph (λ h, collectOldOutputArtifacts h r inputArtifacts);
  s ← gets id;
  removed ← handleRemovedRuleOutputs completeInputSet
              (set_minus Nat.ltb oldOutputs (foldl ins [] outputArtifacts)) (m_removedArtifacts s);
  _ ← modify (setRemoved removed);
  _ ← forM inputArtifacts (connectInput ruleNode r);
  if is_nil outputArtifacts then mret tt
  else
    t ← gets m_transformer;
    h ← gets graphOf;
    _ ← forM outputArtifacts (λ a,
          forM (transformer_explicitlyDependsOn (transformerAt h t)) (λ d, connectNodes a d));
    _ ← forM (rev outputs) (applyBindings r);
    res ← ofScript (callPrepare r t);
    let '(commands, noCommands, requests) := res in
    _ ← modify (setCommands t commands);
    _ ← updTransformer (setRequests requests) t;
    _ ← (if noCommands : bool then throw (NoCommands r) else mret tt);
    s ← gets id;
    when (outOfDate s) (forM outputArtifacts invalidateOutput).

Definition applyRule (p ruleNode r : nat) (inputArtifacts explicitly : NodeSet) : RM unit :=
  h ← gets graphOf;
  let rule := ruleAt h r in
  _ ← checkThat (negb (is_nil inputArtifacts) || negb (declaresInputs rule) || negb (requiresInputs rule));
  _ ← changeHeap setDirty;
  _ ← modify startApplication;
  _ ← (if multiplex rule then doApply p ruleNode r inputArtifacts explicitly inputArtifacts
       else forM inputArtifacts (λ a, doApply p ruleNode r inputArtifacts explicitly [a]));
  s ← gets id;
  when (scriptsUseIo r inputArtifacts (graphOf s)) (modify (setRuleUsesIo true)).

(** ** [RuleNode::apply] *)

(** What the executor is told. *)
Record ApplicationResult := mkApplicationResult {
  createdArtifacts : NodeSet;
  invalidatedArtifacts : NodeSet;
  removedArtifacts : list (list ascii)
}.

Definition ruleOfTransformer (h : Heap) (t : nat) : nat := transformer_rule (transformerAt h t).

(** The first artifact in [l] that the rule [r] has made, with its transformer.
    [transformer->rule] of an artifact without transformer is undefined. *)
Fixpoint firstOutput (h : Heap) (r : nat) (l : list nat) : exn BGError (option nat) :=
  match l with
  | [] => Ok None
  | a :: l' =>
      match transformer (artifactOf h a) with
      | None => Throw NullPointer
      | Some t => if ruleOfTransformer h t =? r then Ok (Some t) else firstOutput h r l'
      end
  end.

(** The loop over the compatible inputs: the inputs whose outputs have a prepare script
    that must run again. *)
Fixpoint addChangedScripts (h : Heap) (r : nat) (multiplexed : bool) (l : list nat)
    (st : bool * NodeSet) : exn BGError (bool * NodeSet) :=
  match l with
  | [] => Ok st
  | input :: l' =>
      let* out := firstOutput h r (artifacts_of h (parents (node h input))) in
      let st := match out with
                | Some t => if prepareScriptChanged t h then (false, ins st.2 input) else st
                | None => st
                end in
      if multiplexed then Ok st else addChangedScripts h r multiplexed l' st
  end.

(** A rule without inputs: the loop over the outputs of the rule node. *)
Fixpoint outputsUpToDate (h : Heap) (r : nat) (multiplexed : bool) (l : list nat)
    (hasOutputs : bool) : exn BGError bool :=
  match l with
  | [] => Ok hasOutputs
  | a :: l' =>
      match transformer (artifactOf h a) with
      | None => Throw NullPointer
      | Some t =>
          if negb (ruleOfTransformer h t =? r) then outputsUpToDate h r multiplexed l' hasOutputs
          else if prepareScriptChanged t h then Ok false
          else if multiplexed then Ok true
          else outputsUpToDate h r multiplexed l' true
      end
  end.

(** What [apply] finds before it changes anything. *)
Record Findings := mkFindings {
  compatibleInputs : NodeSet;
  explicitDependencies : NodeSet;
  auxiliaries : NodeSet;
  removedInputs : NodeSet;
  applicableInputs : NodeSet;    (* [inputs] *)
  ruleIsUpToDate : bool
}.

Definition considerRule (h : Heap) (u : nat) (rn : RuleNode) (p : nat) : exn BGError Findings :=
  let r := m_rule rn in
  let rule := ruleAt h r in
  let* allCompatibleInputs := currentInputArtifacts h u in
  let* explicitly := collectExplicitlyDependsOn h rule p in
  let* auxiliary := collectAuxiliaryInputs h rule p in
  let addedInputs := set_minus Nat.ltb allCompatibleInputs (m_oldInputArtifacts rn) in
  let removedInputs := set_minus Nat.ltb (m_oldInputArtifacts rn) allCompatibleInputs in
  let changedInputs := changedInputArtifacts h rn allCompatibleInputs explicitly auxiliary in
  let upToDate := is_nil changedInputs && is_nil addedInputs && is_nil removedInputs in
  let inputs := if multiplex rule then allCompatibleInputs
                else set_unite Nat.ltb changedInputs addedInputs in
  let* (upToDate, inputs) :=
    addChangedScripts h r (multiplex rule) allCompatibleInputs (upToDate, inputs) in
  let* upToDate :=
    if upToDate && (negb (declaresInputs rule) || negb (requiresInputs rule)) && is_nil inputs
    then outputsUpToDate h r (multiplex rule) (artifacts_of h (parents (node h u))) false
    else Ok upToDate in
  Ok (mkFindings allCompatibleInputs explicitly auxiliary removedInputs inputs upToDate).

(** The loop over the removed inputs: the outputs to remove and the connections to
    break. *)
Definition removedInput (u r : nat) (forcesRemoval : bool) (artifact : nat)
    (st : NodeSet * list (nat * nat)) : RM (NodeSet * list (nat * nat)) :=
  if artifact =? 0 then mret st
  else
    h ← gets graphOf;
    res ← ofGraph (λ h, for_each (λ parent (st : NodeSet * list (nat * nat)),
            match transformer (artifactOf h parent) with
            | None => Throw NullPointer
            | Some t =>
                if negb (ruleOfTransformer h t =? r) then Ok st
                else
                  let* _ := QBS_CHECK (contains (transformer_inputs (transformerAt h t)) artifact) in
                  Ok (if forcesRemoval then (ins st.1 parent, st.2)
                      else (st.1, st.2 ++ [(parent, artifact)]))
            end) (artifacts_of h (parents (node h artifact))) st);
    _ ← changeHeap (disconnect u artifact);
    mret res.

Definition setRuleNode (f : RuleNode → RuleNode) (u : nat) : RM unit :=
  changeHeap (upd_node (upd_ruleNode f) u).

(** What the rule node remembers of an application. *)
Definition remember (f : Findings) (rn : RuleNode) : RuleNode :=
  mkRuleNode (m_rule rn) (compatibleInputs f) (explicitDependencies f) (auxiliaries f)
    (m_lastApplicationTime rn) (m_needsToConsiderChangedInputs rn).
Definition applied (usesIo : bool) (rn : RuleNode) : RuleNode :=
  mkRuleNode (m_rule rn) (m_oldInputArtifacts rn) (m_oldExplicitlyDependsOn rn)
    (m_oldAuxiliaryInputs rn) applicationTime (usesIo || m_needsToConsiderChangedInputs rn).

Definition mustApplyRule (rule : Rule) (f : Findings) : bool :=
  negb (is_nil (applicableInputs f)) || negb (declaresInputs rule) || negb (requiresInputs rule).

(** The part of [apply] for a rule that is not up to date. *)
Definition carryOut (p u : nat) (rn : RuleNode) (f : Findings) : RM ApplicationResult :=
  h ← gets graphOf;
  let r := m_rule rn in
  let rule := ruleAt h r in
  let must := mustApplyRule rule f in
  let forcesRemoval := negb (multiplex rule) || negb must in
  st ← foldM (λ st a, removedInput u r forcesRemoval a st) (removedInputs f) ([], []);
  _ ← forM st.2 (λ c, changeHeap (disconnect c.1 c.2));
  removed ← (if is_nil st.1 then mret []
             else handleRemovedRuleOutputs (applicableInputs f) st.1 []);
  if must then
    _ ← modify (setRuleUsesIo false);
    _ ← applyRule p u r (applicableInputs f) (explicitDependencies f);
    s ← gets id;
    _ ← setRuleNode (applied (m_ruleUsesIo s)) u;
    mret (mkApplicationResult (m_createdArtifacts s) (m_invalidatedArtifacts s) removed)
  else mret (mkApplicationResult [] [] removed).

Definition applyRuleNode (u : nat) : RM ApplicationResult :=
  h ← gets graphOf;
  match as_ruleNode h u, productOf h u with
  | Some rn, Some p =>
      f ← ofGraph (λ h, considerRule h u rn p);
      if ruleIsUpToDate f then mret (mkApplicationResult [] [] [])
      else
        res ← carryOut p u rn f;
        _ ← setRuleNode (remember f) u;
        _ ← changeHeap setDirty;
        mret res
  | _, _ => throw (GraphError NullPointer)
  end.
End RuleApplication.
