(* ===== verification/RuleApplicationGraph.v ===== *)
(** * The graph under the steps of rule application

    Two ways to change the graph that keep the tables of the project consistent:
    changes of the contents of nodes ([same_tables]) and new edges ([connected]); and
    what a new artifact and the removal of outputs do to it. *)

From S2P Require Import Prelude FlatSet BuildGraph BuildGraphCorrect ArtifactRemoval StateMonad RuleApplication.

(** ** Changes of the contents of nodes *)

Record same_tables (h h' : Heap) : Prop := {
  st_edges : same_edges h h';
  st_present x : present h' x ↔ present h x;
  st_product x : productOf h' x = productOf h x;
  st_path x : filePath <$> as_artifact h' x = filePath <$> as_artifact h x;
  st_rule x : m_rule <$> as_ruleNode h' x = m_rule <$> as_ruleNode h x;
  st_lookup : lookupTable h' = lookupTable h;
  st_nodes p : m_nodes <$> buildDataOf h' p = m_nodes <$> buildDataOf h p;
  st_inputs t : transformer_inputs <$> transformers h' !! t = transformer_inputs <$> transformers h !! t
}.

#[export] Instance same_tables_preorder : PreOrder same_tables.
Proof.
  split; [by split|]. intros h1 h2 h3 [E1 Q1 P1 A1 R1 L1 N1 T1] [E2 Q2 P2 A2 R2 L2 N2 T2].
  split; intros; [by trans h2|by rewrite Q2|..]; congruence.
Qed.

Lemma st_isArtifact h h' x : same_tables h h' → isArtifact h' x = isArtifact h x.
Proof.
  intros T. apply isArtifact_ext. rewrite <-!(fmap_is_Some filePath). by rewrite (st_path _ _ T).
Qed.

Lemma project_ok_tables h h' : project_ok h → same_tables h h' → project_ok h'.
Proof.
  intros [Hg Hl Hn Hp Hi] T. split.
  - by rewrite <-(st_edges _ _ T).
  - intros key l. rewrite (st_lookup _ _ T). intros Hk. destruct (Hl key l Hk) as [Hd Ha].
    split; [done|]. intros a x Hin Hx. pose proof (st_path _ _ T a) as Hpath. rewrite Hx in Hpath.
    destruct (as_artifact h a) as [x0|] eqn:E; simplify_eq/=. rewrite Hpath. by apply (Ha a).
  - intros p b Hb. pose proof (st_nodes _ _ T p) as Hs. rewrite Hb in Hs.
    destruct (buildDataOf h p) as [b0|] eqn:E; simplify_eq/=. rewrite Hs.
    destruct (Hn p b0 E) as [Hw Hu]. split; [done|]. intros u. rewrite (st_product _ _ T). apply Hu.
  - intros a. rewrite (st_isArtifact _ _ a T). intros Ha.
    destruct (Hp a Ha) as (p & Hpa & Hb). exists p. rewrite (st_product _ _ T). split; [done|].
    by rewrite <-(fmap_is_Some m_nodes), (st_nodes _ _ T), fmap_is_Some.
  - intros t r Hr. pose proof (st_inputs _ _ T t) as Hs. rewrite Hr in Hs.
    destruct (transformers h !! t) as [r0|] eqn:E; simplify_eq/=. rewrite Hs. by apply (Hi t).
Qed.

Lemma st_upd_node f u h :
  (∀ n, children (f n) = children n ∧ parents (f n) = parents n ∧ product (f n) = product n) →
  (∀ n, match node_data n with
        | ArtifactNodeType a => ∃ a', node_data (f n) = ArtifactNodeType a' ∧ filePath a' = filePath a
        | RuleNodeType r => ∃ r', node_data (f n) = RuleNodeType r' ∧ m_rule r' = m_rule r
        end) →
  same_tables h (upd_node f u h).
Proof.
  intros Hf Hd. split; intros; simpl; [|apply present_upd| | | |done..].
  - apply upd_other_same_edges; apply Hf.
  - unfold productOf. rewrite (node_upd_field product); [done|apply Hf].
  - unfold as_artifact, upd_node. simpl. destruct (decide (u = x)) as [->|Hne].
    + rewrite lookup_alter_eq. destruct (nodes h !! x) as [n|]; simpl; [|done].
      specialize (Hd n). destruct (node_data n); destruct Hd as (? & -> & Hq); [|done].
      simpl. by rewrite Hq.
    + by rewrite lookup_alter_ne.
  - unfold as_ruleNode, upd_node. simpl. destruct (decide (u = x)) as [->|Hne].
    + rewrite lookup_alter_eq. destruct (nodes h !! x) as [n|]; simpl; [|done].
      specialize (Hd n). destruct (node_data n); destruct Hd as (? & -> & Hq); [done|].
      simpl. by rewrite Hq.
    + by rewrite lookup_alter_ne.
Qed.

Lemma st_upd_artifact f u h :
  (∀ a, filePath (f a) = filePath a) → same_tables h (upd_node (upd_artifact f) u h).
Proof. intros Hf. apply st_upd_node; [done|]. intros n. simpl. destruct (node_data n); eauto. Qed.

Lemma st_upd_ruleNode f u h :
  (∀ r, m_rule (f r) = m_rule r) → same_tables h (upd_node (upd_ruleNode f) u h).
Proof. intros Hf. apply st_upd_node; [done|]. intros n. simpl. destruct (node_data n); eauto. Qed.

Lemma st_isDirty b h : same_tables h (set_isDirty b h).
Proof. by split. Qed.

Lemma st_transformers f t h :
  (∀ r, transformer_inputs (f r) = transformer_inputs r) →
  same_tables h (set_transformers (alter f t) h).
Proof.
  intros Hf. split; intros; simpl; [|done..|].
  - by apply nodes_same_edges.
  - destruct (decide (t = t0)) as [->|Hne]; [|by rewrite lookup_alter_ne].
    rewrite lookup_alter_eq. destruct (transformers h !! t0); simpl; [by rewrite Hf|done].
Qed.

Lemma st_upd_buildData f p h :
  (∀ b, m_nodes (f b) = m_nodes b) → same_tables h (upd_buildData f p h).
Proof.
  intros Hf. split; intros; simpl; [|done..| |done].
  - by apply nodes_same_edges.
  - rewrite buildDataOf_upd. case_decide; [|done]. destruct (buildDataOf h p0); simpl; [by rewrite Hf|done].
Qed.

Lemma st_foldl {B} (f : Heap → B → Heap) l h :
  (∀ h x, same_tables h (f h x)) → same_tables h (foldl f h l).
Proof.
  intros Hf. revert h. induction l as [|x l IH]; intros h; simpl; [reflexivity|].
  etrans; [apply Hf|apply IH].
Qed.

Create HintDb tables.
#[export] Hint Resolve st_isDirty : tables.
#[export] Hint Extern 1 (same_tables ?h ?h) => reflexivity : tables.
#[export] Hint Extern 2 (same_tables _ (upd_node (upd_artifact _) _ _)) => (by apply st_upd_artifact) : tables.
#[export] Hint Extern 2 (same_tables _ (upd_node (upd_ruleNode _) _ _)) => (by apply st_upd_ruleNode) : tables.
#[export] Hint Extern 2 (same_tables _ (set_transformers (alter _ _) _)) => (by apply st_transformers) : tables.

Lemma m_nodes_removeFromSetByFileTag a t b :
  m_nodes (removeArtifactFromSetByFileTag a t b) = m_nodes b.
Proof. unfold removeArtifactFromSetByFileTag. by case_match. Qed.

Lemma st_addFileTag a t h : same_tables h (addFileTag a t h).
Proof.
  unfold addFileTag. set (h1 := upd_node _ a h).
  assert (same_tables h h1) as T1 by by apply st_upd_artifact.
  case_match; [|done]. destruct p as [p rp].
  assert (same_tables h (upd_buildData (addFileTagToArtifact a t) p h1)) as T2.
  { etrans; [exact T1|]. by apply st_upd_buildData. }
  case_match; [|done]. etrans; [exact T2|]. by apply st_upd_buildData.
Qed.

Lemma st_removeFileTag a t h : same_tables h (removeFileTag a t h).
Proof.
  unfold removeFileTag. set (h1 := upd_node _ a h).
  assert (same_tables h h1) as T1 by by apply st_upd_artifact.
  case_match; [|done]. destruct p as [p rp].
  assert (same_tables h (upd_buildData (removeArtifactFromSetByFileTag a t) p h1)) as T2.
  { etrans; [exact T1|]. apply st_upd_buildData, m_nodes_removeFromSetByFileTag. }
  case_match; [|done]. etrans; [exact T2|]. by apply st_upd_buildData.
Qed.

Lemma st_setFileTags a tags h : same_tables h (setFileTags a tags h).
Proof.
  unfold setFileTags. case_match; [|auto with tables]. case_bool_decide; [done|].
  etrans; [apply (st_foldl (λ h t, addFileTag a t h)); intros; apply st_addFileTag|].
  apply (st_foldl (λ h t, removeFileTag a t h)). intros. apply st_removeFileTag.
Qed.

Lemma st_invalidate a h : same_tables h (invalidateArtifactAsRuleInputIfNecessary a h).
Proof.
  apply st_foldl. intros h0 r. repeat case_match; try done. by apply st_upd_ruleNode.
Qed.
#[export] Hint Resolve st_addFileTag st_setFileTags st_invalidate : tables.

(** ** New edges *)

(** From [h] to [h'], the edges of [E] have been added. *)
Record connected (E : nat → nat → Prop) (h h' : Heap) : Prop := {
  cn_wf : wf_graph h';
  cn_edges x y : edge h' x y ↔ edge h x y ∨ E x y;
  cn_present x : present h' x ↔ present h x;
  cn_product x : productOf h' x = productOf h x;
  cn_artifact x : as_artifact h' x = as_artifact h x;
  cn_ruleNode x : as_ruleNode h' x = as_ruleNode h x;
  cn_lookup : lookupTable h' = lookupTable h;
  cn_products : products h' = products h;
  cn_transformers : transformers h' = transformers h
}.

Lemma connected_refl h : wf_graph h → connected (λ _ _, False) h h.
Proof. intros Hw. split; [done|tauto|done..]. Qed.

Lemma connected_trans E1 E2 E h1 h2 h3 :
  connected E1 h1 h2 → connected E2 h2 h3 → (∀ x y, E x y ↔ E1 x y ∨ E2 x y) → connected E h1 h3.
Proof.
  intros [W1 G1 Q1 P1 A1 R1 L1 B1 T1] [W2 G2 Q2 P2 A2 R2 L2 B2 T2] HE.
  split; [done|intros; rewrite G2, G1, HE; tauto|by intros; rewrite Q2|intros; congruence..].
Qed.

Lemma connected_ext E E' h h' :
  (∀ x y, E x y ↔ E' x y) → connected E h h' → connected E' h h'.
Proof. intros HE [? G ???????]. split; try done. intros x y. by rewrite G, HE. Qed.

Lemma project_ok_connected E h h' : project_ok h → connected E h h' → project_ok h'.
Proof.
  intros [Hg Hl Hn Hp Hi] C. split.
  - apply C.
  - intros key l. rewrite (cn_lookup _ _ _ C). intros Hk. destruct (Hl key l Hk) as [Hd Ha].
    split; [done|]. intros a x. rewrite (cn_artifact _ _ _ C). apply Ha.
  - intros p b. unfold buildDataOf. rewrite (cn_products _ _ _ C). intros Hb.
    destruct (Hn p b Hb) as [Hw Hu]. split; [done|]. intros u. rewrite (cn_product _ _ _ C). apply Hu.
  - intros a Ha. rewrite (isArtifact_ext h h') in Ha by by rewrite (cn_artifact _ _ _ C).
    destruct (Hp a Ha) as (p & Hpa & Hb). exists p. rewrite (cn_product _ _ _ C). split; [done|].
    unfold buildDataOf. by rewrite (cn_products _ _ _ C).
  - intros t r. rewrite (cn_transformers _ _ _ C). apply Hi.
Qed.

Lemma addEdge_present p c h x : present (addEdge p c h) x ↔ present h x.
Proof. unfold addEdge. by rewrite !present_upd. Qed.

Lemma as_ruleNode_addEdge p c h x : as_ruleNode (addEdge p c h) x = as_ruleNode h x.
Proof. unfold addEdge. by rewrite !as_ruleNode_upd_other. Qed.

(** A member function that only adds the edges of [E], and may stop before it has
    added them all. *)
Definition connects {A} (E : nat → nat → Prop) (m : RM A) : Prop := ∀ s,
  wf_graph (graphOf s) →
  ∃ h', (m s).2 = on_graphOf (λ _, h') s ∧
    match (m s).1 with
    | Ok _ => connected E (graphOf s) h'
    | Throw e => (∃ E', connected E' (graphOf s) h' ∧ ∀ x y, E' x y → E x y) ∧
        match e with GraphError _ | DanglingPointer _ _ => True | _ => False end
    end.

Lemma on_graphOf_id s : on_graphOf (λ _, graphOf s) s = s.
Proof. by destruct s. Qed.

Lemma connects_throw {A} E e s (m : RM A) :
  wf_graph (graphOf s) → m s = (Throw e, s) →
  match e with GraphError _ | DanglingPointer _ _ => True | _ => False end →
  ∃ h', (m s).2 = on_graphOf (λ _, h') s ∧
    match (m s).1 with
    | Ok _ => connected E (graphOf s) h'
    | Throw e => (∃ E', connected E' (graphOf s) h' ∧ ∀ x y, E' x y → E x y) ∧
        match e with GraphError _ | DanglingPointer _ _ => True | _ => False end
    end.
Proof.
  intros Hw -> He. exists (graphOf s). rewrite on_graphOf_id. split; [done|].
  split; [|done]. exists (λ _ _, False). split; [by apply connected_refl|done].
Qed.

(** [connect] adds the edge, or finds that there is one. *)
Lemma connect_Ok p c h h' :
  connect p c h = Ok h' →
  p ≠ c ∧ ((h' = h ∧ edge h p c) ∨ h' = set_isDirty true (addEdge p c h)).
Proof.
  unfold connect, QBS_CHECK. destruct (Nat.eqb_spec p c) as [->|Hne]; [done|].
  cbn [negb exn_bind]. intros H. split; [done|]. revert H.
  destruct (as_artifact h c) as [a|] eqn:Ha; cbn [exn_bind].
  - pose proof (childConflicts_cases h p c a (artifacts_of h (children (node h p))) Ha) as H.
    destruct (childConflicts _ _ _ _ _) as [[]|e]; cbn [exn_bind]; [|case_match; naive_solver|done].
    destruct H as [[H _] _]; [by intros ? [_ ?]%elem_of_artifacts_of|].
    apply elem_of_artifacts_of in H as [H _]; [|done]. intros [= <-]. by left.
  - case_match; naive_solver.
Qed.

Lemma connected_addEdge p c h :
  wf_graph h → present h p → present h c → p ≠ c →
  connected (λ x y, x = p ∧ y = c) h (set_isDirty true (addEdge p c h)).
Proof.
  intros Hw Hp Hc Hne.
  assert (same_edges (addEdge p c h) (set_isDirty true (addEdge p c h))) as Hd by auto with graph.
  split; try done; intros; simpl.
  - eapply wf_graph_proper; [symmetry; exact Hd|]. by apply addEdge_wf.
  - rewrite <-edge_addEdge by done. symmetry. by apply edge_proper.
  - apply addEdge_present.
  - apply productOf_addEdge.
  - apply as_artifact_addEdge.
  - apply as_ruleNode_addEdge.
Qed.

Lemma connectNodes_eq p c s :
  connectNodes p c s =
    if bool_decide (present (graphOf s) p) && bool_decide (present (graphOf s) c)
    then match connect p c (graphOf s) with
         | Ok h => (Ok tt, on_graphOf (λ _, h) s)
         | Throw e => (Throw (GraphError e), s)
         end
    else (Throw (DanglingPointer p c), s).
Proof.
  unfold connectNodes, gets, mbind, st_bind, present. by destruct (_ && _).
Qed.

Lemma connects_connectNodes p c : connects (λ x y, x = p ∧ y = c) (connectNodes p c).
Proof.
  intros s Hw. pose proof (connectNodes_eq p c s) as Hm.
  destruct (_ && _) eqn:Hpres in Hm; [|by eapply connects_throw].
  destruct (connect p c (graphOf s)) as [h'|e] eqn:E; [|by eapply connects_throw].
  rewrite Hm. exists h'. split; [done|]. cbn [fst].
  apply andb_true_iff in Hpres as [Hp%bool_decide_eq_true_1 Hc%bool_decide_eq_true_1].
  destruct (connect_Ok _ _ _ _ E) as [Hne [[-> He]| ->]]; [|by apply connected_addEdge].
  split; [done| |done..]. intros x y. split; [by left|]. by intros [?|[-> ->]].
Qed.

Lemma connects_ret {A} (a : A) : connects (λ _ _, False) (mret a).
Proof.
  intros s Hw. exists (graphOf s). rewrite on_graphOf_id. split; [done|]. by apply connected_refl.
Qed.

Lemma connects_checkThat b : connects (λ _ _, False) (checkThat b).
Proof.
  destruct b; [apply connects_ret|]. intros s Hw. by eapply connects_throw.
Qed.

Lemma on_graphOf_twice h1 h2 s : on_graphOf (λ _, h2) (on_graphOf (λ _, h1) s) = on_graphOf (λ _, h2) s.
Proof. by destruct s. Qed.

Lemma connects_bind {A B} (E1 E2 E : nat → nat → Prop) (m : RM A) (k : A → RM B) :
  connects E1 m → (∀ a, connects E2 (k a)) → (∀ x y, E x y ↔ E1 x y ∨ E2 x y) →
  connects E (m ≫= k).
Proof.
  intros Hm Hk HE s Hw. destruct (Hm s Hw) as (h1 & Hs1 & H1). unfold mbind, st_bind.
  destruct (m s) as [[a|e] s1]; simpl in *; subst s1.
  - destruct (Hk a (on_graphOf (λ _, h1) s) (cn_wf _ _ _ H1)) as (h2 & -> & H2).
    exists h2. split; [apply on_graphOf_twice|].
    destruct (k a _) as [[b|e] s2]; simpl in *.
    + by eapply connected_trans.
    + destruct H2 as [(E' & H2 & Hsub) He]. split; [|done].
      exists (λ x y, E1 x y ∨ E' x y). split; [by eapply connected_trans|].
      intros x y. rewrite HE. naive_solver.
  - exists h1. split; [done|]. destruct H1 as [(E' & H1 & Hsub) He]. split; [|done].
    exists E'. split; [done|]. intros x y. rewrite HE. naive_solver.
Qed.

Lemma connects_forM {A} (E : A → nat → nat → Prop) (l : list A) (f : A → RM unit) :
  (∀ a, a ∈ l → connects (E a) (f a)) → connects (λ x y, ∃ a, a ∈ l ∧ E a x y) (forM l f).
Proof.
  intros Hf. unfold forM. generalize tt as u. induction l as [|a l IH]; intros u; cbn [foldM].
  - intros s Hw. destruct (connects_ret u s Hw) as (h' & Hs & H). exists h'. split; [done|].
    simpl in *. eapply connected_ext; [|done]. intros x y. split; [done|].
    by intros (? & ?%elem_of_nil & _).
  - eapply connects_bind; [apply Hf; left|intros u'; apply IH; intros; apply Hf; by right|].
    intros x y. simpl. split.
    + intros (b & [->|Hb]%elem_of_cons & H); eauto.
    + intros [H|(b & Hb & H)]; [exists a|exists b]; rewrite elem_of_cons; auto.
Qed.

Lemma connects_when E b m :
  (b = true → connects E m) → connects (λ x y, b = true ∧ E x y) (when b m).
Proof.
  intros Hm s Hw. destruct b; cbn [when].
  - destruct (Hm eq_refl s Hw) as (h' & Hs & H). exists h'. split; [done|].
    destruct (m s) as [[]]; simpl in *.
    + eapply connected_ext; [|done]. tauto.
    + destruct H as [(E' & H & Hsub) He]. split; [|done]. exists E'. split; [done|]. auto.
  - destruct (connects_ret tt s Hw) as (h' & Hs & H). exists h'. split; [done|]. simpl in *.
    eapply connected_ext; [|done]. intros x y. split; [done|]. by intros [? _].
Qed.

(** ** A new artifact *)

Lemma above_fresh l x : x ∈ l → x < above l.
Proof.
  unfold above. induction 1 as [y l|y z l _ IH]; simpl; lia.
Qed.

Lemma newResource_absent h : ¬ present h (newResource h).
Proof.
  intros [n Hn]. apply (Nat.lt_irrefl (newResource h)), above_fresh, elem_of_app. left.
  apply list_elem_of_fmap. exists (newResource h, n). split; [done|]. by apply elem_of_map_to_list.
Qed.

Lemma newResource_unlisted h key l : lookupTable h !! key = Some l → newResource h ∉ l.
Proof.
  intros Hk Hin. apply (Nat.lt_irrefl (newResource h)), above_fresh, elem_of_app. right.
  apply elem_of_app. right. apply list_elem_of_In, in_concat. exists l.
  split; apply list_elem_of_In; [|done].
  apply list_elem_of_fmap. exists (key, l). split; [done|]. by apply elem_of_map_to_list.
Qed.

Definition generatedArtifact (path : list ascii) : Artifact :=
  mkArtifact path 0 Generated [] [] [] None [] 0.

(** From [h] to [h'], the artifact [a] for the file [path] of the product [p] has
    been added. *)
Record created (p a : nat) (path : list ascii) (h h' : Heap) : Prop := {
  cr_absent : ¬ present h a;
  cr_edges : same_edges h h';
  cr_present x : present h' x ↔ present h x ∨ x = a;
  cr_product x : productOf h' x = if decide (x = a) then Some p else productOf h x;
  cr_artifact x : as_artifact h' x = if decide (x = a) then Some (generatedArtifact path) else as_artifact h x;
  cr_ruleNode x : as_ruleNode h' x = as_ruleNode h x;
  cr_transformers : transformers h' = transformers h;
  cr_lookup key : lookupTable h' !! key =
    if decide (key = lookupKey path) then Some (lookupFilesByPath h path ++ [a])
    else lookupTable h !! key;
  cr_nodes q : m_nodes <$> buildDataOf h' q =
    if decide (q = p) then (λ b, ins (m_nodes b) a) <$> buildDataOf h q else m_nodes <$> buildDataOf h q;
  cr_inProduct : is_Some (buildDataOf h p)
}.

Lemma addArtifactToSet_m_nodes tags a b : m_nodes (addArtifactToSet tags a b) = m_nodes b.
Proof. revert b. induction tags as [|t tags IH]; intros b; simpl; [done|]. by rewrite IH. Qed.

(** What [insertArtifact] changes for a new artifact. *)
Lemma insertGenerated_heap p path h h' :
  let a := newResource h in
  insertGenerated p a path h = Ok h' →
  nodes h' = <[a := mkNode [] [] (Some p) (ArtifactNodeType (generatedArtifact path))]> (nodes h) ∧
  lookupTable h' = <[lookupKey path := lookupFilesByPath h path ++ [a]]> (lookupTable h) ∧
  transformers h' = transformers h ∧
  ∃ b b', buildDataOf h p = Some b ∧ m_nodes b' = ins (m_nodes b) a ∧
    ∀ q, buildDataOf h' q = if decide (p = q) then Some b' else buildDataOf h q.
Proof.
  intros a. unfold insertGenerated. set (h1 := upd_node _ a _).
  assert (nodes h1 = <[a := mkNode [] [] None (ArtifactNodeType (generatedArtifact path))]> (nodes h)) as N1.
  { unfold h1, upd_node. simpl. by rewrite alter_insert_eq. }
  assert (lookupTable h1 = lookupTable h ∧ products h1 = products h ∧ transformers h1 = transformers h)
    as (L1 & B1 & T1) by done.
  clearbody h1. unfold insertArtifact, QBS_CHECK.
  case_bool_decide as Hp; cbn [exn_bind]; [|done]. case_bool_decide as Hr; cbn [negb exn_bind]; [done|].
  set (h2 := upd_node (set_product (Some p)) a h1).
  assert (nodes h2 = <[a := mkNode [] [] (Some p) (ArtifactNodeType (generatedArtifact path))]> (nodes h)) as N2.
  { unfold h2, upd_node. simpl. by rewrite N1, alter_insert_eq. }
  assert (as_artifact h2 a = Some (generatedArtifact path)) as A2.
  { unfold as_artifact. by rewrite N2, lookup_insert_eq. }
  unfold insertIntoLookupTable, resourcePath. rewrite A2.
  change (lookupTable h2) with (lookupTable h1). rewrite L1.
  change (artifactType (generatedArtifact path)) with Generated. rewrite bool_decide_eq_true_2 by done.
  change (filePath (generatedArtifact path)) with path.
  destruct (otherArtifact _ _); cbn [exn_bind]; [done|].
  unfold QBS_CHECK. case_match; cbn [exn_bind]; [|done].
  set (h3 := set_isDirty true _).
  assert (∀ q, buildDataOf h3 q = buildDataOf h q) as B3.
  { intros q. change (buildDataOf h3 q) with (buildDataOf h1 q). unfold buildDataOf. by rewrite B1. }
  rewrite B3. destruct (buildDataOf h p) as [b|] eqn:Hb; [|done].
  assert (fileTags h3 a = []) as ->.
  { unfold fileTags. change (as_artifact h3 a) with (as_artifact h2 a). by rewrite A2. }
  unfold addArtifact. destruct (set_insert Nat.ltb (m_nodes b) a) as [s [i inserted]] eqn:Es.
  unfold QBS_CHECK. destruct inserted; cbn [exn_bind addArtifactToSet]; [|done]. intros [= <-].
  split_and!; [exact N2|by simpl; rewrite L1|exact T1|]. exists b.
  exists (mkProductBuildData s (m_roots b) (m_artifactsByFileTag b) (m_jsArtifactsMapUpToDate b)).
  split; [done|]. split; [unfold ins; by rewrite Es|]. intros q. rewrite buildDataOf_upd, B3.
  destruct (decide (p = q)) as [<-|]; [by rewrite Hb|done].
Qed.

Lemma insertGenerated_created p path h h' :
  insertGenerated p (newResource h) path h = Ok h' → created p (newResource h) path h h'.
Proof.
  set (a := newResource h). pose proof (newResource_absent h : ¬ present h a) as Ha.
  intros (N & L & T & b & b' & Hb & Hn & B)%insertGenerated_heap. fold a in N, L, Hn.
  assert (nodes h !! a = None) as Hna.
  { destruct (nodes h !! a) eqn:E; [|done]. destruct Ha. by eexists. }
  assert (∀ x, nodes h' !! x = if decide (x = a)
    then Some (mkNode [] [] (Some p) (ArtifactNodeType (generatedArtifact path))) else nodes h !! x) as Nx.
  { intros x. rewrite N. case_decide as E; [rewrite E; apply lookup_insert_eq|by apply lookup_insert_ne]. }
  split; [done|..].
  - intros x. unfold node. rewrite Nx. case_decide as E; [|done]. by rewrite E, Hna.
  - intros x. unfold present. rewrite Nx. case_decide as E; [|naive_solver]. split; [by right|by eexists].
  - intros x. unfold productOf, node. rewrite Nx. by case_decide.
  - intros x. unfold as_artifact. rewrite Nx. by case_decide.
  - intros x. unfold as_ruleNode. rewrite Nx. case_decide as E; [|done]. by rewrite E, Hna.
  - done.
  - intros key. rewrite L. case_decide as E; [rewrite E; apply lookup_insert_eq|by apply lookup_insert_ne].
  - intros q. rewrite B. destruct (decide (p = q)) as [<-|Hne].
    + rewrite !decide_True, Hb by done. simpl. by rewrite Hn.
    + by rewrite !decide_False by congruence.
  - by rewrite Hb.
Qed.

Lemma project_ok_created p a path h h' :
  project_ok h → (∀ key l, lookupTable h !! key = Some l → a ∉ l) → created p a path h h' →
  project_ok h'.
Proof.
  intros [Hg Hl Hn Hp Hi] Hfresh C. split.
  - by rewrite <-(cr_edges _ _ _ _ _ C).
  - intros key l. rewrite (cr_lookup _ _ _ _ _ C). case_decide as E.
    + intros [= <-]. unfold lookupFilesByPath, lookupFiles.
      change (fileName path, dirPath path) with (lookupKey path). split.
      * apply NoDup_app. split; [|split; [|apply NoDup_singleton]];
          destruct (lookupTable h !! lookupKey path) as [l|] eqn:El; simpl.
        -- by apply (Hl _ _ El).
        -- constructor.
        -- intros x Hx ->%list_elem_of_singleton. by apply (Hfresh _ _ El).
        -- by intros x ?%elem_of_nil.
      * intros b x [Hb|Hb%list_elem_of_singleton]%elem_of_app;
          rewrite (cr_artifact _ _ _ _ _ C); [|subst; rewrite decide_True by done; by intros [= <-]].
        destruct (lookupTable h !! lookupKey path) as [l|] eqn:El; simpl in Hb; [|by apply elem_of_nil in Hb].
        case_decide as Eb; [by destruct (Hfresh _ _ El); rewrite <-Eb|]. rewrite E. by apply (Hl _ _ El).
    + intros Hk. destruct (Hl key l Hk) as [Hd Ha]. split; [done|]. intros b x Hb.
      rewrite (cr_artifact _ _ _ _ _ C). case_decide as Eb; [by destruct (Hfresh _ _ Hk); rewrite <-Eb|].
      by apply Ha.
  - intros q b Hb. pose proof (cr_nodes _ _ _ _ _ C q) as Hs. rewrite Hb in Hs.
    destruct (buildDataOf h q) as [b0|] eqn:E; [|by case_decide].
    destruct (Hn q b0 E) as [Hw Hu].
    assert (¬ present h a) as Ha by apply C.
    assert (a ∉ m_nodes b0) as Hab.
    { intros Hin. apply Ha. destruct (decide (present h a)); [done|].
      specialize (Hu a Hin). unfold productOf in Hu. by rewrite node_absent in Hu. }
    case_decide as Eq; simplify_eq/=; rewrite Hs.
    + split; [by apply ins_wf|]. intros u. rewrite elem_of_ins, (cr_product _ _ _ _ _ C) by done.
      intros [->|Hin]; [by rewrite decide_True|]. rewrite decide_False by (intros ->; done). by apply Hu.
    + split; [done|]. intros u Hin. rewrite (cr_product _ _ _ _ _ C), decide_False by (intros ->; done).
      by apply Hu.
  - intros x Hx. unfold isArtifact in Hx. rewrite (cr_artifact _ _ _ _ _ C) in Hx.
    rewrite (cr_product _ _ _ _ _ C).
    assert (∀ q, is_Some (buildDataOf h q) → is_Some (buildDataOf h' q)) as Hb.
    { intros q [b Hb]. pose proof (cr_nodes _ _ _ _ _ C q) as Hs. rewrite Hb in Hs.
      destruct (buildDataOf h' q); [by eexists|by case_decide]. }
    case_decide; [exists p; split; [done|]; apply Hb, C|].
    destruct (Hp x) as (q & Hq & ?); [done|]. exists q. auto.
  - intros t r. rewrite (cr_transformers _ _ _ _ _ C). apply Hi.
Qed.
