(* ===== verification/RuleApplicationRemoval.v ===== *)
(** * Removing the outputs that a rule no longer makes

    Whatever is removed, the tables of the project stay consistent and rule nodes stay
    what they are; no assumption on cycles is made here, so that the removal may also
    fail. *)

From S2P Require Import Prelude FlatSet BuildGraph BuildGraphCorrect ArtifactRemoval StateMonad RuleApplication RuleApplicationGraph.

Definition rules_kept (h h' : Heap) : Prop :=
  ∀ x, m_rule <$> as_ruleNode h' x = m_rule <$> as_ruleNode h x.

(** Nodes and edges are only removed. *)
Record shrinks (h h' : Heap) : Prop := {
  sh_frame : frame h h';
  sh_wf : wf_graph h → wf_graph h';
  sh_edges x y : wf_graph h → edge h' x y → edge h x y;
  sh_rules : rules_kept h h'
}.

#[export] Instance shrinks_preorder : PreOrder shrinks.
Proof.
  split; [by split|]. intros h1 h2 h3 [F1 W1 E1 R1] [F2 W2 E2 R2].
  split; [by etrans|auto|auto|]. intros x. by rewrite R2.
Qed.

Lemma project_ok_shrinks h h' : project_ok h → shrinks h h' → project_ok h'.
Proof. intros Hok S. eapply project_ok_frame; [done|apply S|apply S, Hok]. Qed.

Lemma as_ruleNode_disconnect u v h x : as_ruleNode (disconnect u v h) x = as_ruleNode h x.
Proof.
  unfold disconnect, onChildDisconnected.
  case_match; rewrite ?as_ruleNode_upd_artifact, !as_ruleNode_upd_other; done.
Qed.

Lemma disconnect_shrinks u v h : shrinks h (disconnect u v h).
Proof.
  split.
  - unfold disconnect, onChildDisconnected.
    assert (frame h (removeEdge u v h)) as F0 by (etrans; [apply frame_set_children|apply frame_set_parents]).
    fold (removeEdge u v h). case_match; [|done]. etrans; [exact F0|]. by apply frame_upd_artifact.
  - apply wf_disconnect.
  - intros x y Hw. rewrite edge_disconnect by done. tauto.
  - intros x. by rewrite as_ruleNode_disconnect.
Qed.

Lemma shrinks_tables h h' : frame h h' → same_tables h h' → shrinks h h'.
Proof.
  intros F T. pose proof (st_edges _ _ T) as Hs. split; [done| | |exact (st_rule _ _ T)].
  - by rewrite Hs.
  - intros x y _. by apply (edge_proper h h' Hs x x eq_refl y y eq_refl).
Qed.

Lemma upd_artifact_shrinks f u h :
  (∀ a, core (f a) = core a) → shrinks h (upd_node (upd_artifact f) u h).
Proof.
  intros Hf. apply shrinks_tables; [by apply frame_upd_artifact|].
  apply st_upd_artifact. intros a. by injection (Hf a).
Qed.

Lemma loseChild_shrinks a p h :
  wf_graph h → isArtifact h p = true →
  shrinks h (loseChild a p h).2 ∧ ¬ edge (loseChild a p h).2 p a.
Proof.
  intros Hw Hp. pose proof (loseChild_ok a p h Hw Hp) as H.
  assert (rules_kept h (loseChild a p h).2) as Hr.
  { intros x. f_equal. unfold loseChild. repeat case_match; simpl;
      change (as_ruleNode (set_transformers ?f ?h0) x) with (as_ruleNode h0 x);
      apply as_ruleNode_disconnect. }
  destruct (loseChild a p h) as [b h']. simpl in *. destruct H as (F & Hw' & He & _). split.
  - split; [done|done| |done]. intros x y _. rewrite He. tauto.
  - rewrite He. tauto.
Qed.

Lemma disconnectArtifact_frame a h h' : disconnectArtifact a h = Ok h' → frame h h'.
Proof.
  unfold disconnectArtifact, disconnectArtifactParents. set (h1 := disconnectArtifactChildren a h).
  assert (frame h h1) as F1.
  { unfold h1, disconnectArtifactChildren. etrans; [|by apply frame_upd_artifact].
    etrans; [|apply frame_set_children]. apply frame_foldl. intros. apply frame_set_parents. }
  clearbody h1. generalize (parents (node h1 a)) as l. intros l.
  destruct (for_each _ l h1) as [h2|e] eqn:E; cbn [exn_bind]; [|done]. intros [= <-].
  etrans; [exact F1|]. etrans; [|apply frame_set_parents]. clear F1. revert h1 E.
  induction l as [|p l IH]; intros h1; cbn [for_each]; [by intros [= <-]|].
  destruct (disconnectParent a p h1) as [h3|e] eqn:E; cbn [exn_bind]; [|done].
  intros F%IH. etrans; [|exact F]. unfold disconnectParent in E.
  repeat case_match; simplify_eq; [|apply frame_set_children].
  etrans; [apply frame_set_children|].
  etrans; [by apply (frame_upd_artifact (set_childrenAddedByScanner (λ s, del s a)) p)|].
  apply frame_transformers. intros r. apply sublist_del.
Qed.

Lemma removeArtifact_artifact a b h h' : removeArtifact a b h = Ok h' → isArtifact h a = true.
Proof.
  unfold removeArtifact. set (h1 := removeFromRuleNodes _ _).
  assert (frame h h1) as F1.
  { etrans; [apply frame_removeFromLookupTable|]. apply frame_foldl. intros. apply frame_upd_ruleNode. }
  clearbody h1. destruct (disconnectArtifact a h1) as [h2|e] eqn:E; cbn [exn_bind]; [|done].
  intros H. rewrite <-(frame_isArtifact h h2); [|etrans; [exact F1|by eapply disconnectArtifact_frame]].
  unfold isArtifact. by destruct (as_artifact h2 a).
Qed.

Lemma removeArtifact_shrinks a h h' :
  project_ok h → (∀ p, edge h p a → isArtifact h p = false) → removeArtifact a true h = Ok h' →
  isArtifact h a = true ∧ shrinks h h' ∧ gone true h' a.
Proof.
  intros Hok Hp H. pose proof (removeArtifact_artifact _ _ _ _ H) as Ha. split; [done|].
  destruct (removeArtifact_ok a true h Hok Ha) as (h2 & H2 & F & [Hw He] & _ & Hk & Hn & _).
  { intros p x Hpa Hx. specialize (Hp p Hpa). unfold isArtifact in Hp. by rewrite Hx in Hp. }
  rewrite H2 in H. injection H as <-. split; [|exact (conj Hk Hn)]. split; [done|done| |].
  - intros x y _. rewrite He. tauto.
  - intros x. rewrite (as_ruleNode_removeArtifact a true h h2 x (po_graph _ Hok) H2).
    case_decide; [|done]. by destruct (as_ruleNode h x).
Qed.

(** ** The artifact and its exclusive dependents *)

(** The artifacts that the calls have added to the set. *)
Definition removed_ok (h : Heap) (rem rem' : NodeSet) : Prop :=
  wf_set rem' ∧ ∀ x, x ∈ rem' → x ∈ rem ∨ (gone true h x ∧ isArtifact h x = true).

Lemma removed_ok_trans h1 h2 rem1 rem2 rem3 :
  removed_ok h1 rem1 rem2 → frame h1 h2 → removed_ok h2 rem2 rem3 → removed_ok h2 rem1 rem3.
Proof.
  intros [W1 H1] F [W2 H2]. split; [done|]. intros x [Hx|?]%H2; [|by right].
  destruct (H1 x Hx) as [?|[Hg Ha]]; [by left|right].
  split; [by eapply gone_frame|]. by rewrite (frame_isArtifact _ _ _ F).
Qed.

Definition removal_ok (f : nat → Heap * NodeSet → exn BGError (Heap * NodeSet)) : Prop :=
  ∀ a h rem h' rem', f a (h, rem) = Ok (h', rem') → project_ok h → wf_set rem →
    shrinks h h' ∧ removed_ok h' rem rem'.

Lemma exclusiveDependents_removal f a l h rem h' rem' :
  removal_ok f → exclusiveDependents f a l (h, rem) = Ok (h', rem') → project_ok h → wf_set rem →
  (∀ p, p ∈ l → isArtifact h p = true) →
  shrinks h h' ∧ removed_ok h' rem rem' ∧ ∀ p, p ∈ l → ¬ edge h' p a.
Proof.
  intros Hf. revert h rem. induction l as [|p l IH]; intros h rem; simpl.
  { intros [= <- <-] Hok Hrem _. split; [done|]. split; [by split; [done|left]|].
    by intros p ?%elem_of_nil. }
  intros H Hok Hrem Hl.
  destruct (loseChild_shrinks a p h (po_graph _ Hok)) as [S1 Hpa]; [apply Hl; left|].
  destruct (loseChild a p h) as [b h1]. simpl in S1, Hpa.
  pose proof (project_ok_shrinks _ _ Hok S1) as Hok1.
  set (m := if b then _ else _) in H. destruct m as [[h2 rem2]|e] eqn:E; cbn [exn_bind] in H; [|done].
  assert (shrinks h1 h2 ∧ removed_ok h2 rem rem2) as [S2 R2].
  { subst m. destruct b; [by eapply Hf|]. injection E as <- <-.
    split; [|by split; [done|left]].
    by apply upd_artifact_shrinks. }
  destruct (IH h2 rem2) as (S3 & R3 & Hn); [done|by eapply project_ok_shrinks|apply R2| |].
  { intros q Hq. rewrite (frame_isArtifact _ _ _ (sh_frame _ _ S2)), (frame_isArtifact _ _ _ (sh_frame _ _ S1)).
    apply Hl. by right. }
  split; [by etrans; [|etrans]|]. split; [by eapply removed_ok_trans; [|apply S3|]|].
  intros q [->|Hq]%elem_of_cons; [|by apply Hn]. intros He. apply Hpa.
  by apply (sh_edges _ _ S2), (sh_edges _ _ S3); [apply Hok1|apply S2, Hok1|].
Qed.

Lemma removal_fuel fuel : removal_ok (removeArtifactAndExclusiveDependents fuel true).
Proof.
  induction fuel as [|fuel IH]; intros a h rem h' rem'; simpl; [done|]. intros H Hok Hrem.
  destruct (exclusiveDependents _ a _ _) as [[h1 rem1]|e] eqn:E; cbn [exn_bind] in H; [|done].
  destruct (exclusiveDependents_removal _ _ _ _ _ _ _ IH E Hok) as (S1 & R1 & Hn);
    [by apply ins_wf|intros p [_ [x Hx]]%elem_of_artifacts_of; unfold isArtifact; by rewrite Hx|].
  destruct (removeArtifact a true h1) as [h2|e] eqn:E2; cbn [exn_bind] in H; simplify_eq.
  destruct (removeArtifact_shrinks a h1 h') as (Ha & S2 & Hg); [by eapply project_ok_shrinks| |done|].
  { intros p Hp. destruct (isArtifact h1 p) eqn:Hart; [|done]. destruct (Hn p); [|done].
    rewrite (frame_isArtifact _ _ _ (sh_frame _ _ S1)) in Hart. unfold isArtifact in Hart.
    apply elem_of_artifacts_of. split; [|by destruct (as_artifact h p)].
    apply (wf_edges h (po_graph _ Hok)). by eapply sh_edges; [|apply Hok|]. }
  split; [by etrans|]. destruct R1 as [W1 H1]. split; [done|].
  intros x Hx. destruct (H1 x Hx) as [Hin|[Hgx Hax]].
  - apply elem_of_ins in Hin as [->|?]; [right|by left|done]. split; [done|].
    by rewrite (frame_isArtifact _ _ _ (sh_frame _ _ S2)).
  - right. split; [by eapply gone_frame; [|apply S2]|].
    by rewrite (frame_isArtifact _ _ _ (sh_frame _ _ S2)).
Qed.

(** ** Deleting what has been removed *)

Lemma destroyArtifact_delete u h :
  ∃ h2, destroyArtifact u h = set_nodes (delete u) h2 ∧ frame h h2 ∧ rules_kept h h2.
Proof.
  unfold destroyArtifact, destroyNode. set (h1 := foldl _ h _).
  assert (frame h h1) as F1 by (apply frame_foldl; intros; by apply frame_upd_artifact).
  assert (∀ x, as_ruleNode h1 x = as_ruleNode h x) as R1.
  { intros x. apply as_ruleNode_foldl_same. intros. apply as_ruleNode_upd_artifact. }
  eexists. split; [done|]. split.
  - etrans; [exact F1|].
    etrans; [apply (frame_foldl (λ h p, upd_node (set_children (λ s, del s u)) p h))|
             apply (frame_foldl (λ h c, upd_node (set_parents (λ s, del s u)) c h))];
      intros; auto with frames.
  - intros x. rewrite <-R1. f_equal. rewrite as_ruleNode_foldl_same, as_ruleNode_foldl_same; [done|..];
      intros; by apply as_ruleNode_upd_other.
Qed.

Lemma as_artifact_delete u h x :
  as_artifact (set_nodes (delete u) h) x = if decide (x = u) then None else as_artifact h x.
Proof.
  unfold as_artifact. simpl. case_decide as E; [by rewrite E, lookup_delete_eq|].
  by rewrite lookup_delete_ne by congruence.
Qed.

Lemma productOf_delete u h x :
  x ≠ u → productOf (set_nodes (delete u) h) x = productOf h x.
Proof. intros Hne. unfold productOf. by rewrite node_delete, decide_False. Qed.

Lemma project_ok_delete u h h2 :
  project_ok h → frame h h2 → wf_graph (set_nodes (delete u) h2) → gone true h u →
  project_ok (set_nodes (delete u) h2).
Proof.
  intros [_ Hl Hn Hp Hi] F Hw Hg. pose proof (gone_frame _ _ _ _ Hg F) as [_ Hg2].
  split; [done| | | |].
  - intros key l Hk. pose proof (fr_lookup _ _ F key) as Hs. simpl in Hk. rewrite Hk in Hs. simpl in Hs.
    destruct (lookupTable h !! key) as [l0|] eqn:E; simpl in Hs.
    + destruct (Hl key l0 E) as [Hd Ha]. split; [by eapply sublist_NoDup|].
      intros a x Hin. rewrite as_artifact_delete. case_decide; [done|]. intros Hx.
      destruct (frame_sym_lookup _ _ _ _ F Hx) as (x' & Hx' & Hc).
      rewrite (Ha a x'); [by injection Hc as -> _ _ _|by eapply in_sublist|done].
    + apply sublist_nil_r in Hs as ->. split; [constructor|]. by intros a x ?%elem_of_nil.
  - intros p b Hb. change (buildDataOf h2 p = Some b) in Hb.
    pose proof (fr_build _ _ F p) as Hs. rewrite Hb in Hs.
    destruct (buildDataOf h p) as [b0|] eqn:E; simpl in Hs; [|done].
    destruct (Hn p b0 E) as [Hw0 Hu]. split; [by eapply ssorted_sublist|].
    intros x Hin. rewrite productOf_delete; [|intros ->; by eapply Hg2].
    rewrite (fr_product _ _ F). apply Hu. by eapply in_sublist.
  - intros a. unfold isArtifact. rewrite as_artifact_delete. case_decide; [done|]. intros Ha.
    change (isArtifact h2 a = true) in Ha. rewrite (frame_isArtifact _ _ _ F) in Ha.
    destruct (Hp a Ha) as (p & Hpa & Hb). exists p.
    rewrite productOf_delete, (fr_product _ _ F) by done. split; [done|].
    change (is_Some (buildDataOf h2 p)).
    pose proof (fr_build _ _ F p) as Hs. destruct Hb as [b Hb]. rewrite Hb in Hs.
    destruct (buildDataOf h2 p); simpl in Hs; [by eexists|done].
  - intros t r Hr. pose proof (fr_transformer _ _ F t) as Hs. simpl in Hr. rewrite Hr in Hs.
    destruct (transformers h !! t) as [r0|] eqn:E; simpl in Hs; [|done].
    by eapply ssorted_sublist; [|apply (Hi t r0)].
Qed.

Lemma as_ruleNode_artifact h x : isArtifact h x = true → as_ruleNode h x = None.
Proof.
  unfold isArtifact, as_artifact, as_ruleNode. destruct (nodes h !! x) as [n|]; [|done].
  by destruct (node_data n).
Qed.

Lemma destroyArtifact_ok u h :
  project_ok h → gone true h u → isArtifact h u = true →
  project_ok (destroyArtifact u h) ∧ rules_kept h (destroyArtifact u h) ∧
  ∀ x, gone true h x → isArtifact h x = true → x ≠ u →
    gone true (destroyArtifact u h) x ∧ isArtifact (destroyArtifact u h) x = true.
Proof.
  intros Hok Hg Ha. destruct (destroyArtifact_delete u h) as (h2 & E & F & R).
  assert (wf_graph (destroyArtifact u h)) as Hw.
  { unfold destroyArtifact. apply destroyNode_isolated.
    set (h1 := foldl _ h _). assert (same_edges h h1) as Hs; [|by rewrite <-Hs; apply Hok].
    intros x. unfold h1. by rewrite !foldl_upd_field. }
  rewrite E in *. split; [by eapply project_ok_delete|]. split.
  - intros x. rewrite <-R. unfold as_ruleNode at 1. simpl. destruct (decide (x = u)) as [->|Hne].
    + rewrite lookup_delete_eq, as_ruleNode_artifact; [done|]. by rewrite (frame_isArtifact _ _ _ F).
    + by rewrite lookup_delete_ne.
  - intros x Hgx Hax Hne. split; [exact (gone_frame _ _ _ _ Hgx F)|].
    unfold isArtifact. rewrite as_artifact_delete, decide_False by done.
    change (isArtifact h2 x = true). by rewrite (frame_isArtifact _ _ _ F).
Qed.

(** ** The invariant of rule application *)

Definition project_kept (s s' : RuleState) : Prop :=
  project_ok (graphOf s) → project_ok (graphOf s') ∧ rules_kept (graphOf s) (graphOf s').

#[export] Instance project_kept_preorder : PreOrder project_kept.
Proof.
  split; [by intros s H; split|]. intros s1 s2 s3 H1 H2 H.
  destruct (H1 H) as [H2' R1], (H2 H2') as [H3 R2]. split; [done|]. intros x. by rewrite R2.
Qed.

Lemma removeAll_ok outs h rem h' rem' :
  for_each (λ a st, removeArtifactAndExclusiveDependents (graphFuel h) true a st) outs (h, rem)
    = Ok (h', rem') →
  project_ok h → wf_set rem → shrinks h h' ∧ removed_ok h' rem rem'.
Proof.
  generalize (graphFuel h) as fuel. intros fuel. revert h rem.
  induction outs as [|a outs IH]; intros h rem; cbn [for_each].
  { intros [= <- <-] Hok Hrem. split; [done|]. by split; [done|left]. }
  destruct (removeArtifactAndExclusiveDependents fuel true a (h, rem)) as [[h1 rem1]|e] eqn:E;
    cbn [exn_bind]; [|done]. intros H Hok Hrem.
  destruct (removal_fuel fuel a h rem h1 rem1 E Hok Hrem) as [S1 R1].
  destruct (IH h1 rem1 H) as [S2 R2]; [by eapply project_ok_shrinks|apply R1|].
  split; [by etrans|]. by eapply removed_ok_trans; [|apply S2|].
Qed.

Lemma destroyAll_kept inputs rem removed s :
  (∀ x, x ∈ rem → gone true (graphOf s) x ∧ isArtifact (graphOf s) x = true) → NoDup rem →
  project_kept s (foldM (λ removedArtifacts a,
    _ ← checkThat (negb (contains inputs a));
    h ← gets graphOf;
    _ ← changeHeap (destroyArtifact a);
    mret (removedArtifacts ++ [pathOf h a])) rem removed s).2.
Proof.
  intros Hrem Hn. revert s removed Hrem. induction Hn as [|a rem Ha Hn IH]; intros s removed Hrem; [done|].
  cbn [foldM]. unfold mbind, st_bind, checkThat. destruct (contains inputs a); cbn [negb]; [done|].
  cbn [mret st_ret gets changeHeap modify]. intros Hok.
  destruct (Hrem a) as [Hg Hart]; [left|].
  destruct (destroyArtifact_ok a (graphOf s) Hok Hg Hart) as (Hok1 & R1 & Hk).
  destruct (IH (on_graphOf (destroyArtifact a) s) (removed ++ [pathOf (graphOf s) a])) as [Hok2 R2]; [|done|].
  { intros x Hx. destruct (Hrem x) as [Hgx Hax]; [by right|]. apply Hk; [done|done|]. by intros ->. }
  split; [done|]. intros x. by rewrite R2, <-R1.
Qed.

Lemma handleRemovedRuleOutputs_kept inputs outs removed :
  moves project_kept (handleRemovedRuleOutputs inputs outs removed).
Proof.
  intros s. unfold handleRemovedRuleOutputs, mbind, st_bind, gets, ofGraph. cbn [fst snd].
  destruct (for_each _ outs (graphOf s, [])) as [[h1 rem]|e] eqn:E; [|done].
  cbn [changeHeap modify fst snd]. intros Hok.
  destruct (removeAll_ok _ _ _ _ _ E Hok nil_wf) as [Sh [Hw Hrem]].
  destruct (destroyAll_kept inputs rem removed (on_graphOf (λ _, h1) s)) as [Hok2 R2].
  - intros x Hx. destruct (Hrem x Hx) as [?%elem_of_nil|?]; done.
  - by apply wf_set_NoDup.
  - by eapply project_ok_shrinks.
  - split; [done|]. intros x. by rewrite R2, <-(sh_rules _ _ Sh x).
Qed.
