(* ===== verification/RuleDecision.v ===== *)
(** * Whether a rule is applied, and to which inputs

    What [RuleNode::apply] finds before it changes anything ([considerRule]): the
    inputs of the rule, its further dependencies, and whether the rule is up to date. *)

From S2P Require Import Prelude FlatSet BuildGraph BuildGraphCorrect StateMonad RuleApplication.

(** A loop that collects elements. *)
Lemma foldl_ins_filter (P : nat → bool) (l : list nat) s :
  wf_set s →
  let s' := foldl (λ s a, if P a then ins s a else s) s l in
  wf_set s' ∧ ∀ a, a ∈ s' ↔ a ∈ s ∨ (a ∈ l ∧ P a = true).
Proof.
  simpl. revert s. induction l as [|x l IH]; intros s Hs; cbn [foldl].
  { split; [done|]. intros a. rewrite elem_of_nil. tauto. }
  destruct (P x) eqn:Hx.
  - destruct (IH (ins s x)) as [Hw Ha]; [by apply ins_wf|]. split; [done|]. intros a.
    rewrite Ha, elem_of_ins, elem_of_cons by done. naive_solver.
  - destruct (IH s Hs) as [Hw Ha]. split; [done|]. intros a. rewrite Ha, elem_of_cons.
    split; [tauto|]. intros [?|[[->|?] ?]]; [tauto|congruence|tauto].
Qed.

(** ** The inputs ([currentInputArtifacts]) *)

(** The artifact [x] is an input for the rule [r], of identity [rid]. *)
Definition accepts (h : Heap) (rid : nat) (r : Rule) (ofModule : bool) (x : Artifact) : Prop :=
  negb (bool_decide (targetOfModule x = [])) = ofModule ∧
  createdBy h rid x = false ∧ intersects (m_fileTags x) (excludedInputs r) = false.

Definition compatible (h : Heap) (rid : nat) (r : Rule) (rp : ResolvedProduct)
    (b : ProductBuildData) (a : nat) : Prop :=
  ∃ x, as_artifact h a = Some x ∧
    ((∃ t, t ∈ inputs r ∧ a ∈ lookupArtifactsByFileTag b t ∧ accepts h rid r false x) ∨
     (∃ t, t ∈ inputsFromDependencies r ∧ a ∈ lookupArtifactsByFileTag b t ∧
        accepts h rid r true x) ∨
     (∃ dep bd, dep ∈ dependencies rp ∧ buildDataOf h dep = Some bd ∧ a ∈ m_nodes bd ∧
        intersects (m_fileTags x) (inputsFromDependencies r) = true ∧
        intersects (m_fileTags x) (excludedInputs r) = false)).

Lemma elem_of_compatibleArtifacts h rid r wanted l s :
  wf_set s →
  let s' := compatibleArtifacts h rid r wanted l s in
  wf_set s' ∧ ∀ a, a ∈ s' ↔
    a ∈ s ∨ (a ∈ l ∧ ∃ x, as_artifact h a = Some x ∧ accepts h rid r wanted x).
Proof.
  simpl. revert s. induction l as [|y l IH]; intros s Hs; cbn [compatibleArtifacts].
  { split; [done|]. intros a. rewrite elem_of_nil. tauto. }
  assert (∀ (Q : nat → Prop), (Q y → False) →
    (wf_set (compatibleArtifacts h rid r wanted l s) ∧ ∀ a,
       a ∈ compatibleArtifacts h rid r wanted l s ↔ a ∈ s ∨ (a ∈ l ∧ Q a)) →
    wf_set (compatibleArtifacts h rid r wanted l s) ∧ ∀ a,
       a ∈ compatibleArtifacts h rid r wanted l s ↔ a ∈ s ∨ (a ∈ y :: l ∧ Q a)) as Hskip.
  { intros Q HQ [Hw Ha]. split; [done|]. intros a. rewrite Ha, elem_of_cons. naive_solver. }
  destruct (as_artifact h y) as [x|] eqn:Hx; [|apply Hskip; [naive_solver|by apply IH]].
  case_match eqn:E.
  - apply Hskip; [|by apply IH]. intros (x' & Hx' & H1 & H2 & H3). simplify_eq.
    by rewrite H2, H3, Bool.eqb_reflx in E.
  - destruct (IH (ins s y)) as [Hw Ha]; [by apply ins_wf|]. split; [done|]. intros a.
    rewrite Ha, elem_of_ins, elem_of_cons by done.
    apply orb_false_iff in E as [[E1%negb_false_iff%Bool.eqb_prop E2]%orb_false_iff E3].
    assert (accepts h rid r wanted x) by done. naive_solver.
Qed.

Lemma elem_of_compatibleByTags h rid r wanted b tags s :
  wf_set s →
  let s' := compatibleByTags h rid r wanted b tags s in
  wf_set s' ∧ ∀ a, a ∈ s' ↔
    a ∈ s ∨ ∃ t, t ∈ tags ∧ a ∈ lookupArtifactsByFileTag b t ∧
      ∃ x, as_artifact h a = Some x ∧ accepts h rid r wanted x.
Proof.
  simpl. revert s. induction tags as [|t tags IH]; intros s Hs; cbn [compatibleByTags].
  { split; [done|]. intros a. split; [tauto|]. by intros [?|(t & ?%elem_of_nil & _)]. }
  destruct (elem_of_compatibleArtifacts h rid r wanted (lookupArtifactsByFileTag b t) s Hs) as [Hw1 H1].
  destruct (IH _ Hw1) as [Hw Ha]. split; [done|]. intros a. rewrite Ha, H1. split.
  - intros [[?|[Hl Hx]]|(t' & Ht & H)]; [by left|right|right].
    + exists t. split; [left|done].
    + exists t'. split; [by right|done].
  - intros [?|(t' & [->|Ht]%elem_of_cons & Hl & Hx)]; [tauto|tauto|]. right. by exists t'.
Qed.

Lemma elem_of_compatibleOfDependencies h r deps s :
  wf_set s →
  let s' := compatibleOfDependencies h r deps s in
  wf_set s' ∧ ∀ a, a ∈ s' ↔
    a ∈ s ∨ ∃ x dep bd, as_artifact h a = Some x ∧ dep ∈ deps ∧ buildDataOf h dep = Some bd ∧
      a ∈ m_nodes bd ∧ intersects (m_fileTags x) (inputsFromDependencies r) = true ∧
      intersects (m_fileTags x) (excludedInputs r) = false.
Proof.
  simpl. revert s. induction deps as [|dep deps IH]; intros s Hs; cbn [compatibleOfDependencies].
  { split; [done|]. intros a. split; [tauto|]. by intros [?|(x & dep & bd & _ & ?%elem_of_nil & _)]. }
  destruct (buildDataOf h dep) as [bd|] eqn:Hbd.
  - assert (∀ l s, compatibleOfDependency h r l s = foldl (λ s a,
      if intersects (fileTags h a) (inputsFromDependencies r)
         && negb (intersects (fileTags h a) (excludedInputs r)) then ins s a else s) s l) as Hfold.
    { clear. intros l. induction l as [|a l IH]; intros s; simpl; [done|]. by rewrite IH. }
    rewrite Hfold. destruct (foldl_ins_filter (λ a, intersects (fileTags h a) (inputsFromDependencies r)
         && negb (intersects (fileTags h a) (excludedInputs r))) (artifacts_of h (m_nodes bd)) s Hs)
      as [Hw1 H1].
    destruct (IH _ Hw1) as [Hw Ha]. split; [done|]. intros a. rewrite Ha, H1.
    rewrite elem_of_artifacts_of, andb_true_iff, negb_true_iff. unfold fileTags. split.
    + intros [[?|[[Hn [x Hx]] [H2 H3]]]|(x & dep' & bd' & Hx & Hdep & H)]; [by left|right|right].
      * rewrite Hx in H2, H3. exists x, dep, bd. rewrite elem_of_cons. tauto.
      * exists x, dep', bd'. rewrite elem_of_cons. tauto.
    + intros [?|(x & dep' & bd' & Hx & [->|Hdep]%elem_of_cons & Hb & Hn & H2 & H3)]; [tauto| |].
      * simplify_eq. left. right. rewrite Hx. eauto.
      * right. by exists x, dep', bd'.
  - destruct (IH _ Hs) as [Hw Ha]. split; [done|]. intros a. rewrite Ha. split.
    + intros [?|(x & dep' & bd' & Hx & Hdep & H)]; [by left|right].
      exists x, dep', bd'. rewrite elem_of_cons. tauto.
    + intros [?|(x & dep' & bd' & Hx & [->|Hdep]%elem_of_cons & Hb & H)]; [tauto|congruence|].
      right. by exists x, dep', bd'.
Qed.

Lemma currentInputArtifacts_spec h u rn p s :
  as_ruleNode h u = Some rn → productOf h u = Some p → currentInputArtifacts h u = Ok s →
  wf_set s ∧ ∃ r rp b, rules h !! m_rule rn = Some r ∧ products h !! p = Some rp ∧
    buildData rp = Some b ∧ ∀ a, a ∈ s ↔ compatible h (m_rule rn) r rp b a.
Proof.
  unfold currentInputArtifacts. intros -> ->.
  destruct (rules h !! m_rule rn) as [r|] eqn:Hr; [|done].
  destruct (products h !! p) as [rp|] eqn:Hp; [|done].
  destruct (buildData rp) as [b|] eqn:Hb; [|done].
  destruct (elem_of_compatibleByTags h (m_rule rn) r false b (inputs r) [] nil_wf) as [Hw1 H1].
  case_bool_decide as Ht; intros [= <-].
  - split; [done|]. exists r, rp, b. split_and!; [done..|]. intros a. rewrite H1, elem_of_nil.
    unfold compatible. rewrite Ht. split.
    + intros [[]|(t & ? & ? & x & ? & ?)]. exists x. split; [done|]. left. eauto.
    + intros (x & Hx & [(t & ? & ? & ?)|[(t & ?%elem_of_nil & _)|(d & bd & _ & _ & _ & Hi & _)]]); [|done|].
      * right. eauto 10.
      * unfold intersects in Hi. by destruct (m_fileTags x).
  - destruct (elem_of_compatibleByTags h (m_rule rn) r true b (inputsFromDependencies r) _ Hw1) as [Hw2 H2].
    destruct (elem_of_compatibleOfDependencies h r (dependencies rp) _ Hw2) as [Hw3 H3].
    split; [done|]. exists r, rp, b. split_and!; [done..|]. intros a. rewrite H3, H2, H1, elem_of_nil.
    unfold compatible. split.
    + intros [[[[]|(t & ? & ? & x & ? & ?)]|(t & ? & ? & x & ? & ?)]|(x & d & bd & ? & ? & ? & ? & ? & ?)];
        exists x; (split; [done|]); eauto 12.
    + intros (x & Hx & [(t & ? & ? & ?)|[(t & ? & ? & ?)|(d & bd & ? & ? & ? & ? & ?)]]);
        [left; left; right|left; right|right]; eauto 12.
Qed.

Lemma currentInputArtifacts_wf h u s : currentInputArtifacts h u = Ok s → wf_set s.
Proof.
  intros H. destruct (as_ruleNode h u) as [rn|] eqn:Hrn; [|unfold currentInputArtifacts in H; by rewrite Hrn in H].
  destruct (productOf h u) as [p|] eqn:Hp; [|unfold currentInputArtifacts in H; by rewrite Hrn, Hp in H].
  by apply (currentInputArtifacts_spec h u rn p s).
Qed.

(** ** Further dependencies ([collectAdditionalInputs]) *)

(** [a] is collected for the tag [t]. *)
Definition additional (h : Heap) (excluded : FileTags) (p : nat) (src : InputsSources) (t a : nat) :
    Prop :=
  intersects (fileTags h a) excluded = false ∧
  ((∃ b, buildDataOf h p = Some b ∧ a ∈ lookupArtifactsByFileTag b t ∧
      (if isTargetOfModule h a then Dependencies src = true else CurrentProduct src = true)) ∨
   (Dependencies src = true ∧ contains (fileTags h a) t = true ∧
    ∃ dep b, dep ∈ dependenciesOf h p ∧ buildDataOf h dep = Some b ∧ a ∈ m_roots b ∧
      isArtifact h a = true)).

(** Collecting loops. *)
Lemma for_each_collects {A} (P : A → nat → Prop) (f : A → NodeSet → exn BGError NodeSet) l s s' :
  for_each f l s = Ok s' → wf_set s →
  (∀ x s s', x ∈ l → wf_set s → f x s = Ok s' →
     wf_set s' ∧ ∀ a, a ∈ s' ↔ a ∈ s ∨ P x a) →
  wf_set s' ∧ ∀ a, a ∈ s' ↔ a ∈ s ∨ ∃ x, x ∈ l ∧ P x a.
Proof.
  revert s. induction l as [|x l IH]; intros s; cbn [for_each].
  { intros [= <-] Hs _. split; [done|]. intros a. split; [tauto|]. by intros [?|(x & ?%elem_of_nil & _)]. }
  destruct (f x s) as [s1|e] eqn:E; cbn [exn_bind]; [|done]. intros H Hs Hf.
  destruct (Hf x s s1) as [Hw1 H1]; [left|done|done|].
  destruct (IH s1) as [Hw Ha]; [done|done|intros y ? ? Hy; apply Hf; by right|].
  split; [done|]. intros a. rewrite Ha, H1. split.
  - intros [[?|?]|(y & Hy & ?)]; [by left|right; exists x|right; exists y];
      rewrite elem_of_cons; tauto.
  - intros [?|(y & [->|Hy]%elem_of_cons & ?)]; [tauto..|]. right. by exists y.
Qed.

Lemma targetArtifacts_spec h p s :
  targetArtifacts h p = Ok s →
  wf_set s ∧ ∃ b, buildDataOf h p = Some b ∧ ∀ a, a ∈ s ↔ a ∈ m_roots b ∧ isArtifact h a = true.
Proof.
  unfold targetArtifacts, buildDataOf. destruct (products h !! p) as [rp|]; [|done].
  destruct (buildData rp) as [b|]; [|done]. intros H.
  destruct (for_each_collects (λ x a, a = x) _ _ _ _ H nil_wf) as [Hw Ha].
  - intros x s1 s2 _ Hs1. unfold QBS_CHECK. case_match; cbn [exn_bind]; [|done]. intros [= <-].
    split; [by apply ins_wf|]. intros a. rewrite elem_of_ins by done. tauto.
  - split; [done|]. exists b. split; [done|]. intros a. rewrite Ha, elem_of_nil. split.
    + intros [[]|(x & [Hx [y Hy]]%elem_of_artifacts_of & ->)]. split; [done|].
      unfold isArtifact. by rewrite Hy.
    + intros [Hr Hi]. right. exists a. split; [|done]. apply elem_of_artifacts_of.
      split; [done|]. unfold isArtifact in Hi. by destruct (as_artifact h a).
Qed.

Lemma collectForTag_spec h excluded p src t s s' :
  wf_set s → collectForTag h excluded p src t s = Ok s' →
  wf_set s' ∧ ∀ a, a ∈ s' ↔ a ∈ s ∨ additional h excluded p src t a.
Proof.
  intros Hs. unfold collectForTag, lookupByTag.
  destruct (buildDataOf h p) as [b|] eqn:Hb; cbn [exn_bind]; [|done].
  set (P := λ d, negb (intersects (fileTags h d) excluded) &&
    ((CurrentProduct src && negb (isTargetOfModule h d)) ||
     (Dependencies src && isTargetOfModule h d))).
  assert (∀ l s, foldl (λ s d, if intersects (fileTags h d) excluded then s
      else if (CurrentProduct src && negb (isTargetOfModule h d)) ||
              (Dependencies src && isTargetOfModule h d) then ins s d else s) s l =
    foldl (λ s d, if P d then ins s d else s) s l) as Hfold.
  { clear. intros l. induction l as [|d l IH]; intros s; simpl; [done|].
    rewrite IH. unfold P. by destruct (intersects _ _). }
  rewrite Hfold. destruct (foldl_ins_filter P (lookupArtifactsByFileTag b t) s Hs) as [Hw1 H1].
  assert (∀ a, P a = true ↔ intersects (fileTags h a) excluded = false ∧
    if isTargetOfModule h a then Dependencies src = true else CurrentProduct src = true) as HP.
  { intros a. unfold P. rewrite andb_true_iff, negb_true_iff, orb_true_iff, !andb_true_iff.
    destruct (isTargetOfModule h a); simpl; intuition congruence. }
  set (s1 := foldl _ s _) in *. destruct (Dependencies src) eqn:Hd.
  - intros H. destruct (for_each_collects (λ dep a, ∃ b', buildDataOf h dep = Some b' ∧
        a ∈ m_roots b' ∧ isArtifact h a = true ∧ contains (fileTags h a) t = true ∧
        intersects (fileTags h a) excluded = false) _ _ _ _ H Hw1) as [Hw Ha].
    + intros dep s2 s3 _ Hs2. destruct (targetArtifacts h dep) as [tas|] eqn:Et; cbn [exn_bind]; [|done].
      intros [= <-]. apply targetArtifacts_spec in Et as [_ (b' & Hb' & Htas)].
      destruct (foldl_ins_filter (λ ta, contains (fileTags h ta) t && negb (intersects (fileTags h ta) excluded))
        tas s2 Hs2) as [Hw3 H3].
      split; [done|]. intros a. rewrite H3, Htas, andb_true_iff, negb_true_iff. split.
      * intros [?|?]; [by left|right]. exists b'. tauto.
      * intros [?|(b'' & ? & ?)]; [by left|right]. simplify_eq. tauto.
    + split; [done|]. intros a. rewrite Ha, H1, HP. unfold additional. rewrite Hb, Hd. split.
      * intros [[?|[Hl [He Ht]]]|(dep & Hdep & b' & ? & ? & ? & ? & ?)]; [by left|right|right].
        -- split; [done|]. left. eauto.
        -- split; [done|]. right. split; [done|]. split; [done|]. exists dep, b'. done.
      * intros [?|[He [(b0 & [= <-] & Hl & Ht)|(_ & Hc & dep & b' & Hdep & ? & ? & ?)]]];
          [by left; left|left; right; done|right]. exists dep. split; [done|]. by exists b'.
  - intros [= <-]. split; [done|]. intros a. rewrite H1, HP. unfold additional. rewrite Hb, Hd. split.
    + intros [?|[Hl [He Ht]]]; [by left|right]. split; [done|]. left. eauto.
    + intros [?|[He [(b0 & [= <-] & Hl & Ht)|(? & _)]]]; [by left|by right|done].
Qed.

Lemma collectAdditionalInputs_spec h tags excluded p src s :
  collectAdditionalInputs h tags excluded p src = Ok s →
  wf_set s ∧ ∀ a, a ∈ s ↔ ∃ t, t ∈ tags ∧ additional h excluded p src t a.
Proof.
  intros H. destruct (for_each_collects (additional h excluded p src) _ _ _ _ H nil_wf)
    as [Hw Ha].
  - intros t s1 s2 _. apply collectForTag_spec.
  - split; [done|]. intros a. rewrite Ha, elem_of_nil. tauto.
Qed.

Definition auxiliaryInput (h : Heap) (r : Rule) (p a : nat) : Prop :=
  ∃ t, t ∈ auxiliaryInputs r ∧ additional h (excludedInputs r) p (mkInputsSources true true) t a.

Definition explicitDependency (h : Heap) (r : Rule) (p a : nat) : Prop :=
  (∃ t, t ∈ explicitlyDependsOn r ∧
     additional h (excludedInputs r) p (mkInputsSources true false) t a) ∨
  (∃ t, t ∈ explicitlyDependsOnFromDependencies r ∧
     additional h (excludedInputs r) p (mkInputsSources false true) t a).

Lemma collectExplicitlyDependsOn_spec h r p s :
  collectExplicitlyDependsOn h r p = Ok s →
  wf_set s ∧ ∀ a, a ∈ s ↔ explicitDependency h r p a.
Proof.
  unfold collectExplicitlyDependsOn.
  destruct (collectAdditionalInputs _ (explicitlyDependsOn r) _ _ _) as [s1|] eqn:E1;
    cbn [exn_bind]; [|done].
  destruct (collectAdditionalInputs _ (explicitlyDependsOnFromDependencies r) _ _ _) as [s2|] eqn:E2;
    cbn [exn_bind]; [|done].
  intros [= <-]. apply collectAdditionalInputs_spec in E1 as [W1 H1], E2 as [W2 H2].
  split; [by apply set_unite_sorted|]. intros a. rewrite elem_of_set_unite by done.
  by rewrite H1, H2.
Qed.

(** ** Inputs that have changed ([changedInputArtifacts]) *)

Definition inputChanged (h : Heap) (rn : RuleNode) (explicitly auxiliary : NodeSet) (a : nat) : Prop :=
  explicitly ≠ m_oldExplicitlyDependsOn rn ∨
  (m_needsToConsiderChangedInputs rn = true ∧
   (auxiliary ≠ m_oldAuxiliaryInputs rn ∨ ∃ b, b ∈ a :: explicitly ++ auxiliary ∧ newer h rn b = true)).

Lemma elem_of_changedInputArtifacts h rn all explicitly auxiliary :
  wf_set all →
  let s := changedInputArtifacts h rn all explicitly auxiliary in
  wf_set s ∧ ∀ a, a ∈ s ↔ a ∈ all ∧ inputChanged h rn explicitly auxiliary a.
Proof.
  intros Hw. simpl. unfold changedInputArtifacts.
  assert (∀ P : nat → Prop, (∀ a, P a) → wf_set all ∧ ∀ a, a ∈ all ↔ a ∈ all ∧ P a) as Hall.
  { intros P HP. split; [done|]. intros a. specialize (HP a). tauto. }
  assert (∀ l, existsb (newer h rn) l = true ↔ ∃ b, b ∈ l ∧ newer h rn b = true) as Hex.
  { intros l. rewrite existsb_exists. setoid_rewrite list_elem_of_In. done. }
  case_bool_decide as E1; cbn [negb]; [|apply Hall; by left].
  destruct (m_needsToConsiderChangedInputs rn) eqn:E2; cbn [negb].
  2: { split; [apply nil_wf|]. intros a. rewrite elem_of_nil. unfold inputChanged.
       rewrite E2. naive_solver. }
  destruct (existsb _ explicitly) eqn:E3.
  { apply Hall. intros a. right. split; [done|]. right. apply Hex in E3 as (b & Hb & ?).
    exists b. rewrite elem_of_cons, elem_of_app. tauto. }
  case_bool_decide as E4; cbn [negb]; [|apply Hall; right; auto].
  destruct (existsb _ auxiliary) eqn:E5.
  { apply Hall. intros a. right. split; [done|]. right. apply Hex in E5 as (b & Hb & ?).
    exists b. rewrite elem_of_cons, elem_of_app. tauto. }
  destruct (foldl_ins_filter (newer h rn) all [] nil_wf) as [Hwf Ha]. split; [done|]. intros a.
  rewrite Ha, elem_of_nil. unfold inputChanged. split.
  - intros [[]|[? ?]]. split; [done|]. right. split; [done|]. right. exists a. split; [left|done].
  - intros [Hin [?|[_ [?|(b & Hb & Hn)]]]]; [done..|]. right. split; [done|].
    apply elem_of_cons in Hb as [->|[Hb|Hb]%elem_of_app]; [done|exfalso..].
    + assert (existsb (newer h rn) explicitly = true) by (apply Hex; eauto). congruence.
    + assert (existsb (newer h rn) auxiliary = true) by (apply Hex; eauto). congruence.
Qed.

(** ** Prepare scripts *)

Section Decision.
Context {RS : RuleScripts}.

Definition madeBy (h : Heap) (r a : nat) : bool :=
  match transformer (artifactOf h a) with
  | Some t => ruleOfTransformer h t =? r
  | None => false
  end.

(** The artifacts above the node [x] that the rule [r] has made. *)
Definition outputsOf (h : Heap) (r x : nat) : list nat :=
  List.filter (madeBy h r) (artifacts_of h (parents (node h x))).

(** The prepare script of the transformer of [a] must run again. *)
Definition scriptChanged (h : Heap) (a : nat) : bool :=
  match transformer (artifactOf h a) with
  | Some t => prepareScriptChanged t h
  | None => false
  end.

(** Of a multiplex rule only the first transformer is asked. *)
Definition considered (multiplexed : bool) (l : list nat) : list nat :=
  if multiplexed then take 1 l else l.

(** The first output that was made from the input [i] has a changed script. *)
Definition inputScriptChanged (h : Heap) (r i : nat) : bool :=
  match outputsOf h r i with
  | a :: _ => scriptChanged h a
  | [] => false
  end.

Lemma firstOutput_spec h r l o :
  firstOutput h r l = Ok o →
  match o with
  | Some t => ∃ a l', List.filter (madeBy h r) l = a :: l' ∧ transformer (artifactOf h a) = Some t
  | None => List.filter (madeBy h r) l = []
  end.
Proof.
  revert o. induction l as [|a l IH]; intros o; cbn [firstOutput]; [by intros [= <-]|].
  destruct (transformer (artifactOf h a)) as [t|] eqn:Ht; [|done].
  assert (madeBy h r a = (ruleOfTransformer h t =? r)) as Hm by (unfold madeBy; by rewrite Ht).
  cbn [List.filter]. rewrite Hm. destruct (_ =? _); [|apply IH]. intros [= <-]. by exists a, (List.filter (madeBy h r) l).
Qed.

(** One round of the loop over the inputs. *)
Lemma firstOutput_changed h r i o :
  firstOutput h r (artifacts_of h (parents (node h i))) = Ok o →
  (if o is Some t then prepareScriptChanged t h else false) = inputScriptChanged h r i.
Proof.
  intros H%firstOutput_spec. unfold inputScriptChanged, outputsOf. destruct o as [t|].
  - destruct H as (a & l' & -> & Ha). unfold scriptChanged. by rewrite Ha.
  - by rewrite H.
Qed.

Lemma addChangedScripts_spec h r multiplexed l st upToDate s :
  addChangedScripts h r multiplexed l st = Ok (upToDate, s) → wf_set st.2 →
  wf_set s ∧
  (∀ a, a ∈ s ↔ a ∈ st.2 ∨ (a ∈ considered multiplexed l ∧ inputScriptChanged h r a = true)) ∧
  upToDate = st.1 && forallb (λ i, negb (inputScriptChanged h r i)) (considered multiplexed l).
Proof.
  revert st. induction l as [|i l IH]; intros [b s0]; cbn [addChangedScripts fst snd].
  { intros [= <- <-] Hw. split; [done|]. assert (considered multiplexed [] = []) as -> by by destruct multiplexed.
    simpl. rewrite andb_true_r. split; [|done]. intros a. rewrite elem_of_nil. tauto. }
  destruct (firstOutput _ _ _) as [o|e] eqn:E; cbn [exn_bind]; [|done]. intros H Hw.
  pose proof (firstOutput_changed h r i o E) as Ho.
  set (st1 := match o with Some t => _ | None => _ end) in H.
  assert (st1 = if inputScriptChanged h r i then (false, ins s0 i) else (b, s0)) as Hst1.
  { rewrite <-Ho. unfold st1. by destruct o as [t|]. }
  clearbody st1. subst st1.
  assert (wf_set (if inputScriptChanged h r i then (false, ins s0 i) else (b, s0)).2) as Hw1.
  { destruct (inputScriptChanged h r i); simpl; [by apply ins_wf|done]. }
  destruct multiplexed; cbn [considered] in *.
  - injection H as H. rewrite H in Hw1. split; [done|]. revert H. simpl.
    destruct (inputScriptChanged h r i) eqn:Hi; intros [= <- <-]; cbn [negb].
    + split; [|by rewrite andb_false_r]. intros a. rewrite elem_of_ins, list_elem_of_singleton by done.
      split; [intros [->|?]; [by right|by left]|intros [?|[-> _]]; [by right|by left]].
    + split; [|by rewrite andb_true_r]. intros a. rewrite list_elem_of_singleton.
      split; [tauto|]. intros [?|[-> ?]]; [done|congruence].
  - destruct (IH _ H Hw1) as (Hws & Ha & ->). split; [done|]. cbn [forallb].
    destruct (inputScriptChanged h r i) eqn:Hi; simpl in *.
    + split; [|by rewrite andb_false_r]. intros a. rewrite Ha, elem_of_ins, elem_of_cons by done.
      split; [intros [[->|?]|[? ?]]; [right|by left|right]; [by split; [left|]|by split; [right|]]|].
      intros [?|[[->|?] ?]]; [left; by right|left; by left|by right].
    + split; [|done]. intros a. rewrite Ha, elem_of_cons.
      split; [tauto|]. intros [?|[[->|?] ?]]; [tauto|congruence|tauto].
Qed.

Lemma outputsUpToDate_spec h r multiplexed l hasOutputs b :
  outputsUpToDate h r multiplexed l hasOutputs = Ok b →
  let own := List.filter (madeBy h r) l in
  b = (hasOutputs || negb (is_nil own)) &&
      forallb (λ a, negb (scriptChanged h a)) (considered multiplexed own).
Proof.
  simpl. revert hasOutputs. induction l as [|a l IH]; intros hasOutputs; cbn [outputsUpToDate].
  { intros [= <-]. destruct multiplexed; simpl; by rewrite orb_false_r, andb_true_r. }
  destruct (transformer (artifactOf h a)) as [t|] eqn:Ht; [|done].
  assert (madeBy h r a = (ruleOfTransformer h t =? r)) as Hm by (unfold madeBy; by rewrite Ht).
  assert (scriptChanged h a = prepareScriptChanged t h) as Hs by (unfold scriptChanged; by rewrite Ht).
  cbn [List.filter]. rewrite Hm. destruct (_ =? _); cbn [negb]; [|apply IH].
  rewrite <-Hs. cbn [is_nil negb]. rewrite orb_true_r. cbn [andb].
  destruct multiplexed; cbn [considered take forallb].
  - destruct (scriptChanged h a); by intros [= <-].
  - destruct (scriptChanged h a); [by intros [= <-]|]. intros ->%IH. done.
Qed.

(** ** The decision *)

(** The rule node [u], with what it remembers in [rn], need not be applied. *)
Definition upToDate (h : Heap) (u : nat) (rn : RuleNode) (f : Findings) : Prop :=
  let r := m_rule rn in
  let rule := ruleAt h r in
  m_oldInputArtifacts rn = compatibleInputs f ∧
  (∀ a, a ∈ compatibleInputs f →
     ¬ inputChanged h rn (explicitDependencies f) (auxiliaries f) a) ∧
  (∀ a, a ∈ considered (multiplex rule) (compatibleInputs f) → inputScriptChanged h r a = false) ∧
  (declaresInputs rule = false ∨ requiresInputs rule = false →
   (multiplex rule = true → compatibleInputs f = []) →
   outputsOf h r u ≠ [] ∧
   ∀ a, a ∈ considered (multiplex rule) (outputsOf h r u) → scriptChanged h a = false).

(** [a] must be an input of the application. *)
Definition applicable (h : Heap) (rn : RuleNode) (f : Findings) (a : nat) : Prop :=
  a ∈ compatibleInputs f ∧
  (multiplex (ruleAt h (m_rule rn)) = true ∨ a ∉ m_oldInputArtifacts rn ∨
   inputChanged h rn (explicitDependencies f) (auxiliaries f) a ∨
   inputScriptChanged h (m_rule rn) a = true).

Lemma considered_in multiplexed l a : a ∈ considered multiplexed l → a ∈ l.
Proof. destruct multiplexed; simpl; [|done]. destruct l; simpl; [done|]. rewrite list_elem_of_singleton. intros ->. left. Qed.

Lemma wf_set_ext (s t : NodeSet) : wf_set s → wf_set t → (∀ x, x ∈ s ↔ x ∈ t) → s = t.
Proof.
  intros Hs Ht He. apply (StronglySorted_unique_strong (λ x y, Nat.ltb x y = true)); [|done..|].
  - intros x y _ _ Hxy Hyx. apply Nat.ltb_lt in Hxy, Hyx. lia.
  - apply NoDup_Permutation; [by apply wf_set_NoDup..|done].
Qed.

Lemma sets_equal (s t : NodeSet) :
  wf_set s → wf_set t →
  is_nil (set_minus Nat.ltb s t) && is_nil (set_minus Nat.ltb t s) = true ↔ t = s.
Proof.
  intros Hs Ht. rewrite andb_true_iff, !is_nil_true. split; [|intros ->].
  - intros [H1 H2]. apply wf_set_ext; [done..|]. intros x.
    pose proof (elem_of_set_minus (ltb := Nat.ltb) s t x Hs Ht) as E1.
    pose proof (elem_of_set_minus (ltb := Nat.ltb) t s x Ht Hs) as E2.
    rewrite H1, elem_of_nil in E1. rewrite H2, elem_of_nil in E2.
    destruct (decide (x ∈ s)), (decide (x ∈ t)); tauto.
  - assert (set_minus Nat.ltb s s = []) as ->; [|done].
    apply elem_of_nil_inv. intros x. rewrite elem_of_set_minus by done. tauto.
Qed.

(** [considerRule] in parts. *)
Lemma considerRule_inv h u rn p f :
  considerRule h u rn p = Ok f →
  let r := m_rule rn in
  let rule := ruleAt h r in
  let all := compatibleInputs f in
  let changed := changedInputArtifacts h rn all (explicitDependencies f) (auxiliaries f) in
  let added := set_minus Nat.ltb all (m_oldInputArtifacts rn) in
  ∃ b,
    currentInputArtifacts h u = Ok all ∧
    collectExplicitlyDependsOn h rule p = Ok (explicitDependencies f) ∧
    collectAuxiliaryInputs h rule p = Ok (auxiliaries f) ∧
    removedInputs f = set_minus Nat.ltb (m_oldInputArtifacts rn) all ∧
    addChangedScripts h r (multiplex rule) all
      (is_nil changed && is_nil added && is_nil (removedInputs f),
       if multiplex rule then all else set_unite Nat.ltb changed added) = Ok (b, applicableInputs f) ∧
    (if b && (negb (declaresInputs rule) || negb (requiresInputs rule)) && is_nil (applicableInputs f)
     then outputsUpToDate h r (multiplex rule) (artifacts_of h (parents (node h u))) false
     else Ok b) = Ok (ruleIsUpToDate f).
Proof.
  unfold considerRule.
  destruct (currentInputArtifacts h u) as [all|] eqn:E1; cbn [exn_bind]; [|done].
  destruct (collectExplicitlyDependsOn _ _ _) as [ex|] eqn:E2; cbn [exn_bind]; [|done].
  destruct (collectAuxiliaryInputs _ _ _) as [aux|] eqn:E3; cbn [exn_bind]; [|done].
  destruct (addChangedScripts _ _ _ _ _) as [[b s]|] eqn:E4; cbn [exn_bind]; [|done].
  match goal with |- context [exn_bind ?m _] => destruct m as [up|] eqn:E5 end; cbn [exn_bind]; [|done].
  intros [= <-]. exists b. by split_and!.
Qed.

Lemma considerRule_wf h u rn p f :
  considerRule h u rn p = Ok f → wf_set (compatibleInputs f) ∧ wf_set (applicableInputs f).
Proof.
  intros H. apply considerRule_inv in H as (b & E1 & _ & _ & _ & E4 & _).
  pose proof (currentInputArtifacts_wf _ _ _ E1) as Hall. split; [done|].
  apply (addChangedScripts_spec _ _ _ _ _ _ _ E4). simpl. destruct (multiplex _); [done|].
  apply set_unite_sorted; [by apply elem_of_changedInputArtifacts|].
  by eapply ssorted_sublist; [apply set_minus_sublist|].
Qed.
End Decision.
