(* ===== verification/RuleApplicationInvariant.v ===== *)
(** * What a rule application keeps

    Every function of rule application keeps the tables of the project consistent and
    every rule node the node of its rule, also when it throws. *)

From S2P Require Import Prelude FlatSet BuildGraph BuildGraphCorrect ArtifactRemoval StateMonad RuleApplication RuleApplicationGraph RuleApplicationRemoval RuleDecision.

Section Invariant.
Context {RS : RuleScripts}.
Abbreviation kept := (moves (E := RuleError) project_kept).

(** ** The basic steps *)

Lemma kept_tables f : (∀ h, same_tables h (f h)) → kept (changeHeap f).
Proof.
  intros Hf s Hok. split; [by eapply project_ok_tables|]. exact (st_rule _ _ (Hf _)).
Qed.

Lemma kept_graph f : (∀ s, graphOf (f s) = graphOf s) → kept (modify f).
Proof.
  intros Hf s. unfold modify, project_kept. simpl. rewrite Hf. intros Hok. by split.
Qed.

Lemma kept_ofGraph {A} (f : Heap → exn BGError A) : kept (ofGraph f).
Proof. intros s. unfold ofGraph. by destruct (f (graphOf s)). Qed.

Lemma kept_ofScript {A} (f : Heap → exn nat A) : kept (ofScript f).
Proof. intros s. unfold ofScript. by destruct (f (graphOf s)). Qed.

Lemma kept_checkThat b : kept (checkThat b).
Proof. by destruct b. Qed.

Lemma kept_ofGraph_bind {A B} (f : Heap → exn BGError A) (k : A → RM B) :
  (∀ h a, f h = Ok a → kept (k a)) → kept (ofGraph f ≫= k).
Proof.
  intros Hk s. unfold mbind, st_bind, ofGraph. destruct (f (graphOf s)) as [a|e] eqn:E; [|done].
  by apply (Hk (graphOf s)).
Qed.

Lemma connects_kept {A} E (m : RM A) : connects E m → kept m.
Proof.
  intros Hm s Hok. destruct (Hm s (po_graph _ Hok)) as (h' & -> & H). simpl.
  destruct (m s).1 as [a|e]; [|destruct H as [(E' & H & _) _]];
    (split; [by eapply project_ok_connected|]); intros x; by rewrite (cn_ruleNode _ _ _ H).
Qed.

Lemma kept_connectNodes p c : kept (connectNodes p c).
Proof. eapply connects_kept, connects_connectNodes. Qed.

Lemma kept_updArtifact f a : (∀ x, filePath (f x) = filePath x) → kept (updArtifact f a).
Proof. intros Hf. apply kept_tables. intros h. by apply st_upd_artifact. Qed.

Lemma kept_updTransformer f t :
  (∀ r, transformer_inputs (f r) = transformer_inputs r) → kept (updTransformer f t).
Proof. intros Hf. apply kept_tables. intros h. by apply st_transformers. Qed.

Lemma kept_setRuleNode f u : (∀ r, m_rule (f r) = m_rule r) → kept (setRuleNode f u).
Proof. intros Hf. apply kept_tables. intros h. by apply st_upd_ruleNode. Qed.

Lemma kept_disconnect u v : kept (changeHeap (disconnect u v)).
Proof.
  intros s Hok. pose proof (disconnect_shrinks u v (graphOf s)) as S.
  split; [by eapply project_ok_shrinks|apply S].
Qed.

Hint Resolve kept_ofGraph kept_ofScript kept_checkThat kept_connectNodes kept_disconnect
  handleRemovedRuleOutputs_kept : moves.
Hint Extern 1 (moves project_kept (updArtifact _ _)) => (by apply kept_updArtifact) : moves.
Hint Extern 1 (moves project_kept (updTransformer _ _)) => (by apply kept_updTransformer) : moves.
Hint Extern 1 (moves project_kept (setRuleNode _ _)) => (by apply kept_setRuleNode) : moves.
Hint Extern 1 (moves project_kept (modify _)) => (by apply kept_graph) : moves.
Hint Extern 1 (moves project_kept (changeHeap _)) => (apply kept_tables; solve [auto with tables]) : moves.

(** ** Output artifacts *)

Lemma kept_createGenerated p u path : kept (createGenerated p u path).
Proof.
  intros s. unfold createGenerated. unfold mbind at 1, st_bind at 1, gets. cbn [fst snd].
  set (a := newResource (graphOf s)).
  revert s a. intros s. simpl.
  unfold mbind at 1, st_bind at 1, onHeap.
  destruct (insertGenerated p (newResource (graphOf s)) path (graphOf s)) as [h'|e] eqn:E; [|done].
  apply insertGenerated_created in E. cbn [fst snd].
  trans (on_graphOf (λ _, h') s).
  - intros Hok. split; [|intros x; by rewrite (cr_ruleNode _ _ _ _ _ E)].
    eapply project_ok_created; [done| |exact E]. apply newResource_unlisted.
  - revert s E. intros s E. generalize (on_graphOf (λ _, h') s). apply moves_bind; [apply _|..];
      [by apply kept_graph|]. intros _. moves.
Qed.

Lemma kept_provide p a : kept (provideFullFileTagsAndProperties p a).
Proof.
  unfold provideFullFileTagsAndProperties. moves.
Qed.

Lemma kept_checkConflicts h r a inputs : kept (checkConflicts h r a inputs).
Proof. unfold checkConflicts. moves. Qed.

Lemma kept_takeOverOutput a : kept (takeOverOutput a).
Proof. unfold takeOverOutput. moves. Qed.

Hint Resolve kept_createGenerated kept_provide kept_checkConflicts kept_takeOverOutput : moves.

Lemma kept_obtainOutput p u r path inputs : kept (obtainOutput p u r path inputs).
Proof. unfold obtainOutput. moves. Qed.

Lemma kept_connectOutput u info inputs : kept (connectOutput u info inputs).
Proof. unfold connectOutput. moves. Qed.
Hint Resolve kept_obtainOutput kept_connectOutput : moves.

Lemma kept_createOutputArtifact p u r path tags alwaysUpdated inputs :
  kept (createOutputArtifact p u r path tags alwaysUpdated inputs).
Proof. unfold createOutputArtifact. moves. Qed.
Hint Resolve kept_createOutputArtifact : moves.

Lemma kept_fromRuleArtifact p u r ra inputs paths :
  kept (createOutputArtifactFromRuleArtifact p u r ra inputs paths).
Proof. unfold createOutputArtifactFromRuleArtifact. moves. Qed.

Lemma kept_invalidateIfChanged info : kept (invalidateIfChanged info).
Proof. unfold invalidateIfChanged. moves. Qed.
Hint Resolve kept_fromRuleArtifact kept_invalidateIfChanged : moves.

Lemma kept_fromScriptValue p u r i obj inputs :
  kept (createOutputArtifactFromScriptValue p u r i obj inputs).
Proof. unfold createOutputArtifactFromScriptValue. moves. Qed.
Hint Resolve kept_fromScriptValue : moves.

Lemma kept_fromScriptValues p u r i l inputs : kept (createFromScriptValues p u r i l inputs).
Proof.
  revert i. induction l as [|obj l IH]; intros i; cbn [createFromScriptValues]; moves.
Qed.
Hint Resolve kept_fromScriptValues : moves.

Lemma kept_runScript p u r inputs : kept (runOutputArtifactsScript p u r inputs).
Proof. unfold runOutputArtifactsScript. moves. Qed.

Lemma kept_fromRuleArtifacts p u r inputs : kept (createFromRuleArtifacts p u r inputs).
Proof. unfold createFromRuleArtifacts. moves. Qed.

(** ** One application *)

Lemma kept_newTransformer r inputs explicitly :
  wf_set inputs → kept (modify (newTransformer r inputs explicitly)).
Proof.
  intros Hw s Hok. split; [|done]. destruct Hok as [Hg Hl Hn Hp Hi].
  split; [|done..|].
  { assert (same_edges (graphOf s) (graphOf (newTransformer r inputs explicitly s))) as Hs
      by by apply nodes_same_edges.
    exact (proj1 (wf_graph_proper _ _ Hs) Hg). }
  intros t tr. cbn [snd modify newTransformer graphOf set_transformers transformers].
  rewrite lookup_insert_Some. intros [[_ <-]|[_ Htr]]; [done|by apply (Hi t)].
Qed.

Lemma kept_connectInput u r i : kept (connectInput u r i).
Proof. unfold connectInput. moves. Qed.

Lemma kept_applyBindings r x : kept (applyBindings r x).
Proof. unfold applyBindings. moves. Qed.

Lemma kept_invalidateOutput a : kept (invalidateOutput a).
Proof. unfold invalidateOutput. moves. Qed.
Hint Resolve kept_runScript kept_fromRuleArtifacts kept_newTransformer kept_connectInput
  kept_applyBindings kept_invalidateOutput : moves.

Lemma kept_doApply p u r complete explicitly inputs :
  wf_set inputs → kept (doApply p u r complete explicitly inputs).
Proof. intros Hw. unfold doApply. moves. Qed.

Lemma kept_setDirty : kept (changeHeap setDirty).
Proof. apply kept_tables, st_isDirty. Qed.
Hint Resolve kept_doApply kept_setDirty : moves.

Lemma kept_applyRule p u r inputs explicitly :
  wf_set inputs → kept (applyRule p u r inputs explicitly).
Proof.
  intros Hw. assert (∀ a, wf_set [a]) as H1 by (intros a; by apply (ins_wf [] a), nil_wf).
  unfold applyRule. moves.
Qed.

Lemma kept_removedInput u r forces a st : kept (removedInput u r forces a st).
Proof. unfold removedInput. moves. Qed.
Hint Resolve kept_applyRule kept_removedInput : moves.

Lemma kept_carryOut p u rn f : wf_set (applicableInputs f) → kept (carryOut p u rn f).
Proof. intros Hw. unfold carryOut. moves. Qed.

Lemma kept_applyRuleNode u : kept (applyRuleNode u).
Proof.
  unfold applyRuleNode. apply moves_bind; [apply _|moves|]. intros h.
  destruct (as_ruleNode h u) as [rn|]; [|moves]. destruct (productOf h u) as [p|]; [|moves].
  apply kept_ofGraph_bind. intros h0 f H. apply considerRule_wf in H as [_ Hw].
  pose proof (kept_carryOut p u rn f Hw). moves.
Qed.
End Invariant.

#[export] Hint Resolve kept_disconnect handleRemovedRuleOutputs_kept kept_applyRule kept_removedInput
  kept_setDirty : moves.
#[export] Hint Extern 1 (moves project_kept (modify _)) => (by apply kept_graph) : moves.
