(* ===== verification/RuleOutputs.v ===== *)
(** * Output artifacts ([RulesApplicator::createOutputArtifact])

    What an output artifact is like after it has been created or taken over: its file
    tags and properties, its transformer, and the edges of the graph. *)

From S2P Require Import Prelude FlatSet BuildGraph BuildGraphCorrect ArtifactRemoval ArtifactLookup StateMonad RuleApplication RuleApplicationGraph RuleApplicationRemoval RuleApplicationInvariant RuleDecision.

(** ** File tags *)

Lemma as_artifact_nodes h h' x : nodes h' = nodes h → as_artifact h' x = as_artifact h x.
Proof. intros E. unfold as_artifact. by rewrite E. Qed.

Lemma as_artifact_addFileTag a t h x :
  as_artifact (addFileTag a t h) x =
    if decide (a = x) then (λ y, set_m_fileTags (ins (m_fileTags y) t) y) <$> as_artifact h x
    else as_artifact h x.
Proof.
  rewrite <-as_artifact_upd. apply as_artifact_nodes. unfold addFileTag. by repeat case_match.
Qed.

Lemma as_artifact_removeFileTag a t h x :
  as_artifact (removeFileTag a t h) x =
    if decide (a = x) then (λ y, set_m_fileTags (del (m_fileTags y) t) y) <$> as_artifact h x
    else as_artifact h x.
Proof.
  rewrite <-as_artifact_upd. apply as_artifact_nodes. unfold removeFileTag. by repeat case_match.
Qed.

(** A loop that changes the tags of [a] one by one. *)
Lemma as_artifact_foldTags (f : nat → nat → Heap → Heap) (g : FileTags → nat → FileTags) a l h x :
  (∀ t h x, as_artifact (f a t h) x =
     if decide (a = x) then (λ y, set_m_fileTags (g (m_fileTags y) t) y) <$> as_artifact h x
     else as_artifact h x) →
  as_artifact (foldl (λ h t, f a t h) h l) x =
    if decide (a = x) then (λ y, set_m_fileTags (foldl g (m_fileTags y) l) y) <$> as_artifact h x
    else as_artifact h x.
Proof.
  intros Hf. revert h. induction l as [|t l IH]; intros h; cbn [foldl].
  - case_decide; [|done]. destruct (as_artifact h x) as [y|]; simpl; [|done]. by destruct y.
  - rewrite IH, Hf. case_decide; [|done]. by destruct (as_artifact h x).
Qed.

Lemma foldl_ins_all l s x :
  wf_set s → wf_set (foldl ins s l) ∧ (x ∈ foldl ins s l ↔ x ∈ s ∨ x ∈ l).
Proof.
  revert s. induction l as [|y l IH]; intros s Hs; cbn [foldl].
  { split; [done|]. rewrite elem_of_nil. tauto. }
  destruct (IH (ins s y)) as [Hw ->]; [by apply ins_wf|]. split; [done|].
  rewrite elem_of_ins, elem_of_cons by done. tauto.
Qed.

Lemma foldl_del_all l s x :
  wf_set s → wf_set (foldl del s l) ∧ (x ∈ foldl del s l ↔ x ∈ s ∧ x ∉ l).
Proof.
  revert s. induction l as [|y l IH]; intros s Hs; cbn [foldl].
  { split; [done|]. rewrite elem_of_nil. tauto. }
  destruct (IH (del s y)) as [Hw ->]; [by apply del_wf|]. split; [done|].
  rewrite elem_of_del, elem_of_cons by done. tauto.
Qed.

(** Adding the new tags and removing the others gives the new tags. *)
Lemma change_tags old new :
  wf_set old → wf_set new →
  foldl del (foldl ins old (set_minus Nat.ltb new old))
    (set_minus Nat.ltb (foldl ins old (set_minus Nat.ltb new old)) new) = new.
Proof.
  intros Ho Hn. set (mid := foldl ins old _).
  assert (wf_set mid) as Hm by by apply (foldl_ins_all _ _ 0).
  apply wf_set_ext; [by apply (foldl_del_all _ _ 0)|done|]. intros x.
  destruct (foldl_del_all (set_minus Nat.ltb mid new) mid x Hm) as [_ ->].
  rewrite elem_of_set_minus by done.
  destruct (foldl_ins_all (set_minus Nat.ltb new old) old x Ho) as [_ Hin]. fold mid in Hin.
  rewrite Hin, elem_of_set_minus by done.
  destruct (decide (x ∈ old)), (decide (x ∈ new)); tauto.
Qed.

Lemma as_artifact_setFileTags a new h x :
  wf_set (fileTags h a) → wf_set new →
  as_artifact (setFileTags a new h) x =
    if decide (a = x) then set_m_fileTags new <$> as_artifact h x else as_artifact h x.
Proof.
  intros Ho Hn. unfold setFileTags. destruct (liveProduct h a); [|apply as_artifact_upd].
  case_bool_decide as E.
  { case_decide as Ex; [|done]. subst x. unfold fileTags in E.
    destruct (as_artifact h a) as [y|]; simpl; [|done]. rewrite <-E. by destruct y. }
  set (added := set_minus Nat.ltb new (fileTags h a)). set (h1 := foldl _ h added).
  assert (∀ x, as_artifact h1 x = if decide (a = x)
    then (λ y, set_m_fileTags (foldl ins (m_fileTags y) added) y) <$> as_artifact h x
    else as_artifact h x) as H1.
  { intros y. apply (as_artifact_foldTags addFileTag ins). intros. apply as_artifact_addFileTag. }
  rewrite (as_artifact_foldTags removeFileTag del) by (intros; apply as_artifact_removeFileTag).
  rewrite H1. case_decide as Ex; [|done]. subst x.
  assert (fileTags h1 a = foldl ins (fileTags h a) added ∨ as_artifact h a = None) as Hf.
  { unfold fileTags at 1 2. rewrite H1, decide_True by done. destruct (as_artifact h a); simpl; auto. }
  destruct (as_artifact h a) as [y|] eqn:Hy; simpl; [|done]. destruct Hf as [Hf|]; [|done].
  assert (fileTags h a = m_fileTags y) as Hfy by (unfold fileTags; by rewrite Hy).
  rewrite Hf. unfold added. rewrite <-Hfy, change_tags; [by destruct y|done..].
Qed.

(** ** What the product makes of the tags *)

Section Outputs.
Context {RS : RuleScripts}.

(** The file tags and the properties of an artifact of the product [p]. *)
Definition fullTags (p : nat) (name : list ascii) (pure : FileTags) : FileTags * nat :=
  let all := if is_nil pure then fileTagsForFileName p name else pure in
  let '(all, props) :=
    match firstProperties all (artifactPropertiesOf p) with
    | Some (extra, props) => (set_unite Nat.ltb all extra, props)
    | None => (all, productModuleProperties p)
    end in
  (if isInstalled props then ins all installableTag else all, props).

(** Sets of tags are sorted. *)
Record tags_ok (h : Heap) : Prop := {
  tags_artifact x : wf_set (fileTags h x);
  tags_fileName p name : wf_set (fileTagsForFileName p name);
  tags_extra p filter extra props : (filter, extra, props) ∈ artifactPropertiesOf p → wf_set extra
}.

Lemma firstProperties_in tags l extra props :
  firstProperties tags l = Some (extra, props) → ∃ filter, (filter, extra, props) ∈ l.
Proof.
  induction l as [|[[filter e] m] l IH]; cbn [firstProperties]; [done|].
  destruct (intersects tags filter); [intros [= -> ->]; exists filter; left|].
  intros [g Hg]%IH. exists g. by right.
Qed.

(** From [h] to [h'] only the tags and properties of [a] have changed. *)
Record retagged (a : nat) (tags : FileTags) (props : nat) (h h' : Heap) : Prop := {
  rt_tables : same_tables h h';
  rt_ruleNode x : as_ruleNode h' x = as_ruleNode h x;
  rt_transformers : transformers h' = transformers h;
  rt_other x : x ≠ a → as_artifact h' x = as_artifact h x;
  rt_self x : as_artifact h a = Some x → as_artifact h' a = Some (setProperties props (set_m_fileTags tags x))
}.

Lemma as_ruleNode_nodes h h' x : nodes h' = nodes h → as_ruleNode h' x = as_ruleNode h x.
Proof. intros E. unfold as_ruleNode. by rewrite E. Qed.

Lemma as_ruleNode_addFileTag a t h x : as_ruleNode (addFileTag a t h) x = as_ruleNode h x.
Proof.
  erewrite <-(as_ruleNode_upd_artifact _ a h x). apply as_ruleNode_nodes. unfold addFileTag. by repeat case_match.
Qed.

Lemma as_ruleNode_removeFileTag a t h x : as_ruleNode (removeFileTag a t h) x = as_ruleNode h x.
Proof.
  erewrite <-(as_ruleNode_upd_artifact _ a h x). apply as_ruleNode_nodes. unfold removeFileTag. by repeat case_match.
Qed.

Lemma as_ruleNode_setFileTags a tags h x : as_ruleNode (setFileTags a tags h) x = as_ruleNode h x.
Proof.
  unfold setFileTags. case_match; [|apply as_ruleNode_upd_artifact]. case_bool_decide; [done|].
  rewrite (as_ruleNode_foldl_same (λ h t, removeFileTag a t h)) by (intros; apply as_ruleNode_removeFileTag).
  apply (as_ruleNode_foldl_same (λ h t, addFileTag a t h)). intros. apply as_ruleNode_addFileTag.
Qed.

Lemma transformers_addFileTag a t h : transformers (addFileTag a t h) = transformers h.
Proof. unfold addFileTag. by repeat case_match. Qed.

Lemma transformers_removeFileTag a t h : transformers (removeFileTag a t h) = transformers h.
Proof. unfold removeFileTag. by repeat case_match. Qed.

Lemma transformers_setFileTags a tags h : transformers (setFileTags a tags h) = transformers h.
Proof.
  unfold setFileTags. case_match; [|done]. case_bool_decide; [done|].
  rewrite (foldl_transformers (λ h t, removeFileTag a t h)) by (intros; apply transformers_removeFileTag).
  apply (foldl_transformers (λ h t, addFileTag a t h)). intros. apply transformers_addFileTag.
Qed.

Lemma retag_heap p name pure a h h1 :
  tags_ok h → wf_set pure →
  let all := if is_nil pure then fileTagsForFileName p name else pure in
  h1 = upd_node (upd_artifact (setProperties (fullTags p name pure).2)) a h →
  let tags := match firstProperties all (artifactPropertiesOf p) with
              | Some (extra, _) => set_unite Nat.ltb all extra
              | None => all
              end in
  let h2 := setFileTags a tags h1 in
  retagged a (fullTags p name pure).1 (fullTags p name pure).2 h
    (if isInstalled (fullTags p name pure).2 then addFileTag a installableTag h2 else h2).
Proof.
  intros Hok Hpure all -> tags h2.
  set (h1 := upd_node _ a h) in *. set (props := (fullTags p name pure).2) in *.
  assert (wf_set all) as Hall by (unfold all; destruct (is_nil pure); [apply Hok|done]).
  assert (wf_set tags) as Htags.
  { unfold tags. destruct (firstProperties _ _) as [[extra m]|] eqn:E; [|done].
    apply set_unite_sorted; [done|]. apply firstProperties_in in E as [g E]. by eapply tags_extra. }
  assert (∀ x, as_artifact h1 x = if decide (a = x) then setProperties props <$> as_artifact h x
    else as_artifact h x) as A1 by (intros x; apply as_artifact_upd).
  assert (fileTags h1 a = fileTags h a) as F1.
  { unfold fileTags. rewrite A1, decide_True by done. by destruct (as_artifact h a). }
  assert (∀ x, as_artifact h2 x = if decide (a = x) then set_m_fileTags tags <$> as_artifact h1 x
    else as_artifact h1 x) as A2.
  { intros x. apply as_artifact_setFileTags; [|done]. rewrite F1. apply Hok. }
  assert (fullTags p name pure = (if isInstalled props then ins tags installableTag else tags, props)) as Hfull.
  { unfold props, fullTags, tags. fold all. by destruct (firstProperties all _) as [[extra m]|]. }
  rewrite Hfull. cbn [fst].
  assert (same_tables h h2) as T2.
  { etrans; [|apply st_setFileTags]. by apply st_upd_artifact. }
  assert (∀ x, as_ruleNode h2 x = as_ruleNode h x) as R2.
  { intros x. unfold h2. rewrite as_ruleNode_setFileTags. apply as_ruleNode_upd_artifact. }
  assert (transformers h2 = transformers h) as Tr2 by exact (transformers_setFileTags a tags h1).
  destruct (isInstalled props).
  - split.
    + etrans; [exact T2|apply st_addFileTag].
    + intros x. by rewrite as_ruleNode_addFileTag.
    + by rewrite transformers_addFileTag.
    + intros x Hx. by rewrite as_artifact_addFileTag, A2, A1, !decide_False by congruence.
    + intros x Hx. rewrite as_artifact_addFileTag, A2, A1, !decide_True, Hx by done. by destruct x.
  - split; [done..| |].
    + intros x Hx. by rewrite A2, A1, !decide_False by congruence.
    + intros x Hx. rewrite A2, A1, !decide_True, Hx by done. by destruct x.
Qed.

Lemma provide_spec p a s pure :
  pureFileTags s !! a = Some pure → tags_ok (graphOf s) → wf_set pure →
  ∃ h2, provideFullFileTagsAndProperties p a s = (Ok tt, on_graphOf (λ _, h2) s) ∧
    let name := fileName (pathOf (graphOf s) a) in
    retagged a (fullTags p name pure).1 (fullTags p name pure).2 (graphOf s) h2.
Proof.
  intros Hpure Hok Hw. pose proof (retag_heap p (fileName (pathOf (graphOf s) a)) pure a (graphOf s) _ Hok Hw eq_refl) as R.
  unfold provideFullFileTagsAndProperties, mbind, st_bind, gets, id. cbv beta iota. rewrite Hpure.
  cbn [default id]. set (name := fileName _) in *.
  set (all := if is_nil pure then _ else pure) in *.
  unfold fullTags in *. fold all in R.  fold all. unfold fullTags in R. fold all in R.
  destruct (firstProperties all (artifactPropertiesOf p)) as [[extra m]|]; cbn [fst snd] in *;
    (destruct (isInstalled _); eexists; (split; [|exact R]); by destruct s).
Qed.

(** ** A new artifact *)

Lemma lookup_created p a path h h' :
  (∀ key l, lookupTable h !! key = Some l → a ∉ l) → created p a path h h' →
  lookupArtifactByPath h p path false = None → lookupArtifactByPath h' p path false = Some a.
Proof.
  intros Hf C Hn. unfold lookupArtifactByPath, lookupArtifact in *.
  unfold lookupFiles at 1. change (fileName path, dirPath path) with (lookupKey path).
  rewrite (cr_lookup _ _ _ _ _ C), decide_True by done. cbn [default].
  apply findArtifact_snoc; [|by rewrite (cr_artifact _ _ _ _ _ C), decide_True
                            |by rewrite (cr_product _ _ _ _ _ C), decide_True].
  unfold lookupFilesByPath. rewrite <-Hn. apply findArtifact_ext. intros x Hx.
  assert (x ≠ a) as Hne.
  { intros ->. unfold lookupFiles in Hx. destruct (lookupTable h !! _) as [l|] eqn:E;
      [by apply (Hf _ _ E)|by apply elem_of_nil in Hx]. }
  unfold isArtifact. by rewrite (cr_artifact _ _ _ _ _ C), (cr_product _ _ _ _ _ C), !decide_False.
Qed.

(** ** The first part: finding or creating the artifact *)

Record obtained (p u : nat) (out : list ascii) (isNew : bool) (a : nat) (h h' : Heap) : Prop := {
  ob_ok : project_ok h';
  ob_tags : tags_ok h';
  ob_edges x y : edge h' x y ↔ edge h x y ∨ (isNew = true ∧ x = a ∧ y = u);
  ob_ruleNode x : as_ruleNode h' x = as_ruleNode h x;
  ob_found : lookupArtifactByPath h' p out false = Some a;
  ob_other x : x ≠ a → as_artifact h' x = as_artifact h x;
  ob_self : isNew = false → as_artifact h' a = as_artifact h a;
  ob_outputs t :
    transformer_outputs <$> transformers h' !! t = transformer_outputs <$> transformers h !! t
}.

(** The application of the rule [r] to [inputs] may produce the artifact [a]. *)
Definition mayProduce (h : Heap) (r a : nat) (inputs : NodeSet) : Prop :=
  ∀ t, transformer (artifactOf h a) = Some t →
    transformer_rule (transformerAt h t) = r ∧
    (multiplex (ruleAt h r) = true ∨ transformer_inputs (transformerAt h t) = inputs).

(** Why no output was made. *)
Definition output_error (h : Heap) (p r : nat) (out : list ascii) (tags : FileTags)
    (inputs : NodeSet) (e : RuleError) : Prop :=
  match e with
  | UndeclaredTags path undeclared =>
      path = out ∧ dynamic (ruleAt h r) = true ∧ undeclared ≠ [] ∧
      undeclared = set_minus Nat.ltb tags (outputTags (ruleAt h r))
  | ConflictingRules a r' other =>
      r' = r ∧ other ≠ r ∧ lookupArtifactByPath h p out false = Some a ∧
      ∃ t, transformer (artifactOf h a) = Some t ∧ transformer_rule (transformerAt h t) = other
  | ConflictingInstances a r' =>
      r' = r ∧ multiplex (ruleAt h r) = false ∧ lookupArtifactByPath h p out false = Some a ∧
      ∃ t, transformer (artifactOf h a) = Some t ∧ transformer_rule (transformerAt h t) = r ∧
        transformer_inputs (transformerAt h t) ≠ inputs
  | GraphError _ | DanglingPointer _ _ => True
  | _ => False
  end.

Lemma checkConflicts_spec h p r out tags a inputs s :
  lookupArtifactByPath h p out false = Some a →
  (checkConflicts h r a inputs s).2 = s ∧
  match (checkConflicts h r a inputs s).1 with
  | Ok _ => mayProduce h r a inputs
  | Throw e => output_error h p r out tags inputs e
  end.
Proof.
  intros Ha. unfold checkConflicts, mayProduce.
  destruct (transformer (artifactOf h a)) as [t|] eqn:Ht; [|done].
  destruct (Nat.eqb_spec (transformer_rule (transformerAt h t)) r) as [Hr|Hr]; cbn [negb].
  - destruct (multiplex (ruleAt h r)) eqn:Hm; cbn [negb andb].
    { split; [done|]. intros t' [= <-]. auto. }
    case_bool_decide as Hi; cbn [negb].
    { split; [done|]. intros t' [= <-]. auto. }
    unfold mbind, st_bind, checkThat.
    destruct (length inputs =? 1); [|done]. cbn [mret st_ret].
    destruct (length (transformer_inputs _) =? 1); [|done]. cbn [mret st_ret throw fst snd].
    split; [done|]. split_and!; [done..|]. by exists t.
  - split; [done|]. split_and!; [done..|]. by exists t.
Qed.

Lemma tags_ok_ext h h' : tags_ok h → (∀ x, wf_set (fileTags h' x)) → tags_ok h'.
Proof. intros [H1 H2 H3] H. by split. Qed.

Lemma fileTags_ext h h' x : as_artifact h' x = as_artifact h x → fileTags h' x = fileTags h x.
Proof. intros E. unfold fileTags. by rewrite E. Qed.

Lemma takeOverOutput_spec p u out a s :
  project_ok (graphOf s) → tags_ok (graphOf s) →
  lookupArtifactByPath (graphOf s) p out false = Some a →
  ∃ s1, takeOverOutput a s = (Ok (mkOutputArtifactInfo a false (fileTags (graphOf s) a) (propertiesOf (graphOf s) a)), s1) ∧
    m_transformer s1 = m_transformer s ∧ m_createdArtifacts s1 = m_createdArtifacts s ∧
    m_oldTransformer s1 = transformer (artifactOf (graphOf s) a) ∧
    obtained p u out false a (graphOf s) (graphOf s1).
Proof.
  intros Hok Htags Hl. unfold takeOverOutput, mbind, st_bind, gets, id. cbv beta iota.
  assert (∀ h', nodes h' = nodes (graphOf s) → lookupTable h' = lookupTable (graphOf s) → project_ok h' →
    (∀ t, transformer_outputs <$> transformers h' !! t = transformer_outputs <$> transformers (graphOf s) !! t) →
    obtained p u out false a (graphOf s) h') as Hob.
  { intros h' Hn Hlt Hok' Ht. split; [done| | | | | | |done].
    - apply (tags_ok_ext _ _ Htags). intros x. rewrite (fileTags_ext _ h') by by apply as_artifact_nodes.
      apply Htags.
    - intros x y. rewrite (edge_proper _ _ (nodes_same_edges _ _ Hn) x x eq_refl y y eq_refl).
      split; [by left|]. by intros [?|[? _]].
    - intros x. by apply as_ruleNode_nodes.
    - rewrite <-Hl. apply lookupArtifactByPath_ext; [done|..]; intros x.
      + unfold isArtifact. by rewrite (as_artifact_nodes _ _ x Hn).
      + unfold productOf, node. by rewrite Hn.
    - intros x _. by apply as_artifact_nodes.
    - intros _. by apply as_artifact_nodes. }
  destruct (transformer (artifactOf (graphOf s) a)) as [t|] eqn:Ht.
  - eexists. split; [done|]. split_and!; [done..|]. apply Hob; [done|done| |].
    + eapply project_ok_tables; [exact Hok|]. by apply st_transformers.
    + intros t'. simpl. destruct (decide (m_transformer s = t')) as [<-|Hne].
      * rewrite lookup_alter_eq. by destruct (transformers (graphOf s) !! m_transformer s).
      * by rewrite lookup_alter_ne.
  - eexists. split; [done|]. split_and!; [done..|]. by apply Hob.
Qed.

Lemma obtained_created p u out a h h1 h2 :
  project_ok h → tags_ok h → (∀ key l, lookupTable h !! key = Some l → a ∉ l) →
  lookupArtifactByPath h p out false = None →
  created p a out h h1 → connected (λ x y, x = a ∧ y = u) h1 h2 → obtained p u out true a h h2.
Proof.
  intros Hok Htags Hf Hl C N.
  assert (∀ x, as_artifact h2 x = if decide (x = a) then Some (generatedArtifact out) else as_artifact h x) as A.
  { intros x. by rewrite (cn_artifact _ _ _ N), (cr_artifact _ _ _ _ _ C). }
  split.
  - eapply project_ok_connected; [|exact N]. by eapply project_ok_created.
  - apply (tags_ok_ext _ _ Htags). intros x. unfold fileTags. rewrite A.
    case_decide; [apply nil_wf|]. apply Htags.
  - intros x y. rewrite (cn_edges _ _ _ N).
    rewrite (edge_proper _ _ (cr_edges _ _ _ _ _ C) x x eq_refl y y eq_refl). tauto.
  - intros x. by rewrite (cn_ruleNode _ _ _ N), (cr_ruleNode _ _ _ _ _ C).
  - rewrite <-(lookup_created p a out h h1 Hf C Hl). apply lookupArtifactByPath_ext.
    + apply N.
    + intros x. apply isArtifact_ext. by rewrite (cn_artifact _ _ _ N).
    + apply N.
  - intros x Hx. by rewrite A, decide_False.
  - done.
  - intros t. by rewrite (cn_transformers _ _ _ N), (cr_transformers _ _ _ _ _ C).
Qed.

Lemma createGenerated_eq p u out s :
  let a := newResource (graphOf s) in
  createGenerated p u out s =
    match insertGenerated p a out (graphOf s) with
    | Ok h1 =>
        match connectNodes a u (addCreated a (on_graphOf (λ _, h1) s)) with
        | (Ok _, s1) => (Ok (mkOutputArtifactInfo a true [] 0), s1)
        | (Throw e, s1) => (Throw e, s1)
        end
    | Throw e => (Throw (GraphError e), s)
    end.
Proof.
  unfold createGenerated, mbind, st_bind, gets, onHeap, modify. cbv beta iota zeta.
  by destruct (insertGenerated p (newResource (graphOf s)) out (graphOf s)).
Qed.

Lemma createGenerated_spec p u out s :
  project_ok (graphOf s) → tags_ok (graphOf s) →
  lookupArtifactByPath (graphOf s) p out false = None →
  match createGenerated p u out s with
  | (Ok info, s1) =>
      let a := outputArtifact info in
      info = mkOutputArtifactInfo a true [] 0 ∧ ¬ present (graphOf s) a ∧
      m_transformer s1 = m_transformer s ∧
      m_createdArtifacts s1 = ins (m_createdArtifacts s) a ∧
      obtained p u out true a (graphOf s) (graphOf s1)
  | (Throw e, _) => match e with GraphError _ | DanglingPointer _ _ => True | _ => False end
  end.
Proof.
  intros Hok Htags Hl. rewrite createGenerated_eq. set (a := newResource (graphOf s)).
  destruct (insertGenerated p a out (graphOf s)) as [h1|e] eqn:Ei; [|done].
  apply insertGenerated_created in Ei. fold a in Ei.
  pose proof (project_ok_created p a out _ _ Hok (newResource_unlisted _) Ei) as Hok1.
  destruct (connects_connectNodes a u (addCreated a (on_graphOf (λ _, h1) s)) (po_graph _ Hok1)) as (h2 & Hs & H).
  destruct (connectNodes _ _ _) as [[[]|e] s1]; cbn [fst snd] in Hs, H; [|apply H]. subst s1.
  cbn [outputArtifact]. split_and!; [done|apply Ei|done|done|].
  by apply (obtained_created p u out a _ h1 h2 Hok Htags (newResource_unlisted _)).
Qed.

Lemma obtainOutput_spec p u r out tags inputs s :
  project_ok (graphOf s) → tags_ok (graphOf s) →
  let found := lookupArtifactByPath (graphOf s) p out false in
  match obtainOutput p u r out inputs s with
  | (Ok info, s1) =>
      let a := outputArtifact info in
      m_transformer s1 = m_transformer s ∧
      obtained p u out (newlyCreated info) a (graphOf s) (graphOf s1) ∧
      if newlyCreated info
      then found = None ∧ ¬ present (graphOf s) a ∧ m_createdArtifacts s1 = ins (m_createdArtifacts s) a
      else found = Some a ∧ mayProduce (graphOf s) r a inputs ∧
        oldFileTags info = fileTags (graphOf s) a ∧
        oldProperties info = propertiesOf (graphOf s) a ∧
        m_oldTransformer s1 = transformer (artifactOf (graphOf s) a)
  | (Throw e, _) => output_error (graphOf s) p r out tags inputs e
  end.
Proof.
  intros Hok Htags found. unfold obtainOutput.
  unfold mbind at 1, st_bind at 1, gets. cbv beta iota. fold found.
  destruct found as [a|] eqn:Hf.
  - unfold mbind, st_bind. destruct (checkConflicts_spec (graphOf s) p r out tags a inputs s Hf) as [Hs Hc].
    destruct (checkConflicts _ _ _ _ _) as [[[]|e] s0]; cbn [fst snd] in Hs, Hc; [|done]. subst s0.
    destruct (takeOverOutput_spec p u out a s Hok Htags Hf) as (s1 & -> & Ht & _ & Ho & Hob).
    by cbn [outputArtifact newlyCreated oldFileTags oldProperties].
  - pose proof (createGenerated_spec p u out s Hok Htags Hf) as H.
    destruct (createGenerated p u out s) as [[info|e] s1]; [|by destruct e].
    destruct H as (Hi & Hp & Ht & Hc & Hob). rewrite Hi. by cbn [outputArtifact newlyCreated].
Qed.

(** ** The second part: edges *)

Definition outputEdges (h : Heap) (u : nat) (info : OutputArtifactInfo) (inputs : NodeSet) (x y : nat) :
    Prop :=
  let a := outputArtifact info in
  (x = a ∧ y ∈ inputs) ∨
  (y = a ∧ edge h x u ∧ isRuleNode h x = true ∧
   (newlyCreated info = true ∨ oldFileTags info ≠ fileTags h a)).

Lemma connectOutput_connects u info inputs s :
  wf_graph (graphOf s) →
  ∃ h', (connectOutput u info inputs s).2 = on_graphOf (λ _, h') s ∧
    match (connectOutput u info inputs s).1 with
    | Ok _ => connected (outputEdges (graphOf s) u info inputs) (graphOf s) h' ∧
        outputArtifact info ∉ inputs
    | Throw e => match e with GraphError _ | DanglingPointer _ _ => True | _ => False end
    end.
Proof.
  intros Hw. set (a := outputArtifact info).
  set (b := newlyCreated info || negb (bool_decide (oldFileTags info = fileTags (graphOf s) a))).
  set (l := ruleNodes_of (graphOf s) (parents (node (graphOf s) u))).
  set (m1 := when b (forM l (λ x, connectNodes x a))).
  set (m2 := forM inputs (λ i, _ ← checkThat (negb (a =? i)); connectNodes a i)).
  assert (connectOutput u info inputs s = (m1 ≫= λ _, m2) s) as -> by done.
  assert (connects (λ x y, b = true ∧ ∃ z, z ∈ l ∧ (x = z ∧ y = a)) m1) as H1.
  { apply connects_when. intros _. apply (connects_forM (λ z x y, x = z ∧ y = a)).
    intros z _. apply connects_connectNodes. }
  assert (connects (λ x y, ∃ i, i ∈ inputs ∧ (x = a ∧ y = i)) m2) as H2.
  { apply (connects_forM (λ i x y, x = a ∧ y = i)). intros i _.
    eapply connects_bind; [apply connects_checkThat|intros; apply connects_connectNodes|]. tauto. }
  destruct (connects_bind _ _ _ m1 (λ _, m2) H1 (λ _, H2) (λ x y, iff_refl _) s Hw) as (h' & Hs & H).
  exists h'. split; [done|]. destruct ((m1 ≫= λ _, m2) s) as [[[]|e] s'] eqn:E; [|apply H].
  cbn [fst] in *. split.
  - eapply connected_ext; [|exact H]. intros x y. unfold outputEdges, isRuleNode. fold a. split.
    + intros [(Hb & z & [Hz [rn Hrn]]%elem_of_ruleNodes_of & -> & ->)|(i & Hi & -> & ->)]; [right|by left].
      apply (wf_edges _ Hw) in Hz. rewrite Hrn. split_and!; [done..|].
      unfold b in Hb. apply orb_true_iff in Hb. by rewrite negb_true_iff, bool_decide_eq_false in Hb.
    + intros [[-> Hy]|(-> & He & Hr & Hb)]; [right; eauto|left]. split.
      * unfold b. apply orb_true_iff. by rewrite negb_true_iff, bool_decide_eq_false.
      * exists x. split; [|done]. apply elem_of_ruleNodes_of. split; [by apply (wf_edges _ Hw)|].
        by destruct (as_ruleNode (graphOf s) x).
  - apply bind_Ok in E as ([] & s1 & _ & E). revert s1 E. unfold m2, forM. generalize tt at 1 as v.
    clear. induction inputs as [|i l IH]; intros v s1; cbn [foldM]; [intros _; apply not_elem_of_nil|].
    intros ([] & s2 & H & E)%bind_Ok. apply not_elem_of_cons. split; [|by eapply IH].
    apply bind_Ok in H as ([] & s3 & H & _). intros ->. by rewrite Nat.eqb_refl in H.
Qed.

(** ** Both parts *)

(** What [createOutputArtifact] makes of the graph [h]: the artifact [a] for the path
    [out] is an output of the transformer [t]. *)
Record output_made (h : Heap) (p u r : nat) (out : list ascii) (tags : FileTags) (inputs : NodeSet)
    (t a : nat) (h' : Heap) : Prop := {
  om_found : lookupArtifactByPath h' p out false = Some a;
  om_declared : dynamic (ruleAt h r) = true → set_minus Nat.ltb tags (outputTags (ruleAt h r)) = [];
  om_artifact :
    match lookupArtifactByPath h p out false with
    | Some b => b = a ∧ mayProduce h r a inputs
    | None => ¬ present h a
    end;
  om_notInput : a ∉ inputs;
  om_tags : fileTags h' a = (fullTags p (fileName out) tags).1;
  om_properties : propertiesOf h' a = (fullTags p (fileName out) tags).2;
  om_transformer : transformer (artifactOf h' a) = Some t;
  om_output : transformer_outputs <$> transformers h' !! t =
    (λ tr, ins (transformer_outputs tr) a) <$> transformers h !! t;
  om_other x : x ≠ a → as_artifact h' x = as_artifact h x;
  om_edges x y : edge h' x y ↔ edge h x y ∨ (x = a ∧ y ∈ inputs) ∨
    (lookupArtifactByPath h p out false = None ∧ x = a ∧ y = u) ∨
    (y = a ∧ edge h x u ∧ isRuleNode h x = true ∧
     (lookupArtifactByPath h p out false = None ∨
      fileTags h a ≠ (fullTags p (fileName out) tags).1))
}.

Lemma isRuleNode_artifact h x : is_Some (as_artifact h x) → isRuleNode h x = false.
Proof.
  intros [y Hy]. unfold isRuleNode. rewrite as_ruleNode_artifact; [done|].
  unfold isArtifact. by rewrite Hy.
Qed.

(** The path leads to [a] after its tags, its edges and its transformer have changed. *)
Lemma lookup_made p u out inputs t a tags props info h1 h2 h3 :
  lookupArtifactByPath h1 p out false = Some a → retagged a tags props h1 h2 →
  connected (outputEdges h2 u info inputs) h2 h3 →
  lookupArtifactByPath (upd_node (upd_artifact (setTransformer t)) a h3) p out false = Some a.
Proof.
  intros <- R N. trans (lookupArtifactByPath h2 p out false).
  - apply lookupArtifactByPath_ext; [exact (cn_lookup _ _ _ N)|..]; intros x.
    + apply isArtifact_ext. rewrite as_artifact_upd, (cn_artifact _ _ _ N).
      case_decide; [by rewrite fmap_is_Some|done].
    + rewrite <-(cn_product _ _ _ N). unfold productOf. by rewrite (node_upd_field product).
  - apply lookupArtifactByPath_ext; [apply (rt_tables _ _ _ _ _ R)|..]; intros x;
      [apply st_isArtifact|]; apply (rt_tables _ _ _ _ _ R).
Qed.

(** The edges that have been added since [h]. *)
Lemma edges_made p u out inputs tags props info h h1 h2 h3 x y :
  let a := outputArtifact info in
  let new := newlyCreated info in
  obtained p u out new a h h1 → is_Some (as_artifact h1 a) → retagged a tags props h1 h2 →
  connected (outputEdges h2 u info inputs) h2 h3 → fileTags h2 a = tags →
  (new = false → oldFileTags info = fileTags h a) →
  edge h3 x y ↔ edge h x y ∨ (x = a ∧ y ∈ inputs) ∨ (new = true ∧ x = a ∧ y = u) ∨
    (y = a ∧ edge h x u ∧ isRuleNode h x = true ∧ (new = true ∨ fileTags h a ≠ tags)).
Proof.
  intros a new O Hart R N Ft Hold.
  assert (∀ x y, edge h2 x y ↔ edge h x y ∨ (new = true ∧ x = a ∧ y = u)) as E2.
  { intros v w. rewrite <-(ob_edges _ _ _ _ _ _ _ O). symmetry.
    apply edge_proper; [apply (rt_tables _ _ _ _ _ R)|done..]. }
  rewrite (cn_edges _ _ _ N), E2. unfold outputEdges. fold a new. rewrite E2, Ft.
  assert (∀ v, isRuleNode h2 v = isRuleNode h v) as Hr.
  { intros v. unfold isRuleNode. by rewrite (rt_ruleNode _ _ _ _ _ R), (ob_ruleNode _ _ _ _ _ _ _ O). }
  rewrite Hr.
  assert (isRuleNode h a = false) as Hra.
  { unfold isRuleNode. rewrite <-(ob_ruleNode _ _ _ _ _ _ _ O).
    apply (isRuleNode_artifact h1 a Hart). }
  destruct new.
  - split; [|tauto].
    intros [[?|(_ & -> & ->)]|[?|(-> & [?|(_ & -> & _)] & Hrx & _)]]; [tauto..|congruence].
  - rewrite Hold by done. split; [|intuition congruence].
    intros [[?|[? _]]|[?|(-> & [?|[? _]] & Hrx & [?|?])]]; [tauto|done|tauto|done|tauto|done..].
Qed.

(** The transformer is set. *)
Lemma output_made_end p u r out tags inputs t info h h1 h2 h3 x1 :
  let a := outputArtifact info in
  let found := lookupArtifactByPath h p out false in
  (dynamic (ruleAt h r) = true → set_minus Nat.ltb tags (outputTags (ruleAt h r)) = []) →
  obtained p u out (newlyCreated info) a h h1 →
  (if newlyCreated info then found = None ∧ ¬ present h a
   else found = Some a ∧ mayProduce h r a inputs ∧ oldFileTags info = fileTags h a) →
  as_artifact h1 a = Some x1 →
  retagged a (fullTags p (fileName out) tags).1 (fullTags p (fileName out) tags).2 h1 h2 →
  connected (outputEdges h2 u info inputs) h2 h3 → a ∉ inputs →
  output_made h p u r out tags inputs t a
    (set_transformers (alter (addOutput a) t) (upd_node (upd_artifact (setTransformer t)) a h3)).
Proof.
  intros a found Hdecl O Hcase Hx1 R N Hni. set (h4 := set_transformers _ _).
  assert (∀ x, as_artifact h4 x = if decide (a = x) then setTransformer t <$> as_artifact h3 x
    else as_artifact h3 x) as A4 by (intros x; apply (as_artifact_upd (setTransformer t) a h3 x)).
  pose proof (rt_self _ _ _ _ _ R x1 Hx1) as A2. set (full := fullTags p (fileName out) tags) in *.
  assert (as_artifact h4 a = Some (setTransformer t (setProperties full.2 (set_m_fileTags full.1 x1)))) as A4a.
  { by rewrite A4, decide_True, (cn_artifact _ _ _ N), A2. }
  assert (same_edges h3 h4) as S.
  { etrans; [apply (upd_artifact_same_edges (setTransformer t) a h3)|by apply nodes_same_edges]. }
  split; fold full found.
  - rewrite <-(lookup_made p u out inputs t a _ _ info h1 h2 h3 (ob_found _ _ _ _ _ _ _ O) R N).
    by apply lookupArtifactByPath_ext.
  - done.
  - destruct (newlyCreated info); destruct Hcase as [-> ?]; [done|by split; [|tauto]].
  - done.
  - unfold fileTags. by rewrite A4a.
  - unfold propertiesOf, artifactOf. by rewrite A4a.
  - unfold artifactOf. by rewrite A4a.
  - unfold h4. cbn [set_transformers transformers upd_node set_nodes]. rewrite lookup_alter_eq.
    rewrite (cn_transformers _ _ _ N), (rt_transformers _ _ _ _ _ R).
    pose proof (ob_outputs _ _ _ _ _ _ _ O t) as Ho.
    destruct (transformers h1 !! t), (transformers h !! t); simplify_eq/=; [|done].
    by rewrite Ho.
  - intros x Hx. rewrite A4, decide_False by done.
    by rewrite (cn_artifact _ _ _ N), (rt_other _ _ _ _ _ R), (ob_other _ _ _ _ _ _ _ O).
  - intros x y. rewrite <-(edge_proper _ _ S x x eq_refl y y eq_refl).
    rewrite (edges_made p u out inputs full.1 full.2 info h h1 h2 h3 x y O ltac:(by eexists) R N);
      [|unfold fileTags; fold a; by rewrite A2|intros E; rewrite E in Hcase; tauto].
    fold a. destruct (newlyCreated info); destruct Hcase as [-> _]; intuition congruence.
Qed.
End Outputs.
