(* ===== verification/RuleApplicationCorrect.v ===== *)
(** * The properties of rule application *)

From S2P Require Import Prelude FlatSet BuildGraph BuildGraphCorrect ArtifactRemoval ArtifactLookup StateMonad RuleApplication RuleApplicationGraph RuleApplicationRemoval RuleApplicationInvariant RuleDecision RuleOutputs.

Section Correct.
Context {RS : RuleScripts}.

(** ** The decision *)

Lemma considerRule_applicable h u rn p f :
  as_ruleNode h u = Some rn → productOf h u = Some p → wf_set (m_oldInputArtifacts rn) →
  considerRule h u rn p = Ok f →
  wf_set (compatibleInputs f) ∧ wf_set (applicableInputs f) ∧
  ∀ a, a ∈ applicableInputs f ↔ applicable h rn f a.
Proof.
  intros Hrn Hp Hold H. apply considerRule_inv in H as (b & E1 & _ & _ & _ & E4 & _).
  destruct (currentInputArtifacts_spec _ _ _ _ _ Hrn Hp E1) as [Hall _]. split; [done|].
  destruct (elem_of_changedInputArtifacts h rn (compatibleInputs f) (explicitDependencies f)
    (auxiliaries f) Hall) as [Hc Hci].
  set (changed := changedInputArtifacts _ _ _ _ _) in *. set (added := set_minus Nat.ltb (compatibleInputs f) (m_oldInputArtifacts rn)) in *.
  assert (wf_set added) as Ha by by eapply ssorted_sublist; [apply set_minus_sublist|].
  destruct (addChangedScripts_spec _ _ _ _ _ _ _ E4) as (Hw & Hin & _).
  { simpl. destruct (multiplex _); [done|]. by apply set_unite_sorted. }
  split; [done|]. intros a. rewrite Hin. cbn [snd]. unfold applicable. clear E4 Hin.
  destruct (multiplex _) eqn:Hm.
  - split; [intros [?|[?%considered_in _]]; split; auto|]. intros [? _]. by left.
  - rewrite elem_of_set_unite, Hci by done. unfold added. rewrite elem_of_set_minus by done.
    simpl. split; [intuition|]. intros [Hac [?|[?|[?|?]]]]; [done|tauto..].
Qed.

(** The first part of the decision: inputs and scripts. *)
Lemma inputsUpToDate h rn f b :
  let r := m_rule rn in
  let rule := ruleAt h r in
  let all := compatibleInputs f in
  let changed := changedInputArtifacts h rn all (explicitDependencies f) (auxiliaries f) in
  let added := set_minus Nat.ltb all (m_oldInputArtifacts rn) in
  wf_set all → wf_set (m_oldInputArtifacts rn) →
  addChangedScripts h r (multiplex rule) all
    (is_nil changed && is_nil added && is_nil (set_minus Nat.ltb (m_oldInputArtifacts rn) all),
     if multiplex rule then all else set_unite Nat.ltb changed added) = Ok (b, applicableInputs f) →
  b = true ↔ m_oldInputArtifacts rn = all ∧
    (∀ a, a ∈ all → ¬ inputChanged h rn (explicitDependencies f) (auxiliaries f) a) ∧
    ∀ a, a ∈ considered (multiplex rule) all → inputScriptChanged h r a = false.
Proof.
  intros r rule all changed added Hall Hold E.
  destruct (elem_of_changedInputArtifacts h rn all (explicitDependencies f) (auxiliaries f) Hall)
    as [Hc Hci]. fold changed in Hc, Hci.
  destruct (addChangedScripts_spec _ _ _ _ _ _ _ E) as (_ & _ & Hb).
  { simpl. destruct (multiplex _); [done|]. apply set_unite_sorted; [done|].
    by eapply ssorted_sublist; [apply set_minus_sublist|]. }
  cbn [fst] in Hb. pose proof (sets_equal _ _ Hall Hold) as Hs. fold added in Hs.
  rewrite andb_true_iff in Hs. rewrite Hb, !andb_true_iff, forallb_forall.
  setoid_rewrite negb_true_iff. setoid_rewrite <-list_elem_of_In.
  assert (is_nil changed = true ↔ ∀ a, a ∈ all →
    ¬ inputChanged h rn (explicitDependencies f) (auxiliaries f) a) as ->; [rewrite is_nil_true|tauto].
  split.
  - intros Hn a Hin Hch. assert (a ∈ changed) as Hx by by apply Hci. rewrite Hn in Hx.
    by apply elem_of_nil in Hx.
  - intros Hn. apply elem_of_nil_inv. intros a [Hin Hch]%Hci. by apply (Hn a).
Qed.

(** What is compared is the set of inputs, the times and dependencies, and the scripts. *)
Lemma considerRule_upToDate h u rn p f :
  as_ruleNode h u = Some rn → productOf h u = Some p → wf_set (m_oldInputArtifacts rn) →
  considerRule h u rn p = Ok f → ruleIsUpToDate f = true ↔ upToDate h u rn f.
Proof.
  intros Hrn Hp Hold H.
  pose proof (considerRule_applicable _ _ _ _ _ Hrn Hp Hold H) as (Hall & _ & Happ).
  apply considerRule_inv in H as (b & _ & _ & _ & E3 & E4 & E5). rewrite E3 in E4.
  pose proof (inputsUpToDate h rn f b Hall Hold E4) as Hbt. clear E4.
  unfold upToDate. set (rule := ruleAt h (m_rule rn)) in *. cbv zeta in Hbt.
  destruct b.
  2: { rewrite andb_false_l in E5. injection E5 as <-. split; [done|]. intros (H1 & H2 & H3 & _).
       apply Hbt. by split_and!. }
  destruct (proj1 Hbt eq_refl) as (Hold' & Hch & Hsc).
  assert (is_nil (applicableInputs f) = true ↔ (multiplex rule = true → compatibleInputs f = [])) as Hnil.
  { rewrite is_nil_true. split.
    - intros E Hm. apply elem_of_nil_inv. intros a Ha. assert (a ∈ applicableInputs f) as Hn.
      { apply Happ. split; [done|by left]. } rewrite E in Hn. by apply elem_of_nil in Hn.
    - intros Hm. apply elem_of_nil_inv. intros a (Ha & Hcase)%Happ. fold rule in Hcase.
      destruct (multiplex rule) eqn:Hmu.
      + rewrite Hm in Ha by done. by apply elem_of_nil in Ha.
      + destruct Hcase as [?|[Hn|[Hn|Hn]]]; [done|by rewrite Hold' in Hn|by apply (Hch a)|].
        rewrite (Hsc a) in Hn; [done|exact Ha]. }
  rewrite andb_true_l in E5.
  destruct ((negb (declaresInputs rule) || negb (requiresInputs rule)) && is_nil (applicableInputs f)) eqn:Hcond.
  - apply andb_true_iff in Hcond as [Hreq Hn]. pose proof (proj1 Hnil Hn) as Hn'.
    apply orb_true_iff in Hreq. rewrite !negb_true_iff in Hreq.
    apply outputsUpToDate_spec in E5. rewrite E5. cbn [orb].
    rewrite andb_true_iff, negb_true_iff, is_nil_false, forallb_forall.
    setoid_rewrite negb_true_iff. setoid_rewrite <-list_elem_of_In. fold (outputsOf h (m_rule rn) u).
    tauto.
  - injection E5 as <-. split; [|done]. intros _. split_and!; [done..|]. intros Hreq Hn.
    apply (proj2 Hnil) in Hn. exfalso. rewrite Hn, andb_true_r in Hcond. apply orb_false_iff in Hcond.
    rewrite !negb_false_iff in Hcond. destruct Hreq; destruct Hcond; congruence.
Qed.


(** ** Output artifacts *)

Lemma createOutputArtifact_run p u r path tags alwaysUpdated inputs s :
  let out := resolveOutPath (replaceDotDot path) in
  project_ok (graphOf s) → tags_ok (graphOf s) → wf_set tags →
  match createOutputArtifact p u r path tags alwaysUpdated inputs s with
  | (Ok info, s') => m_transformer s' = m_transformer s ∧
      output_made (graphOf s) p u r out tags inputs (m_transformer s) (outputArtifact info) (graphOf s')
  | (Throw e, s') => output_error (graphOf s) p r out tags inputs e
  end.
Proof.
  intros out Hok Htags Hw. unfold createOutputArtifact. fold out.
  rewrite bind_gets.
  destruct (dynamic (ruleAt (graphOf s) r) && _) eqn:Hd.
  { apply andb_true_iff in Hd as [Hd Hn%negb_true_iff%is_nil_false]. by split_and!. }
  rewrite bind_ret.
  assert (dynamic (ruleAt (graphOf s) r) = true →
    set_minus Nat.ltb tags (outputTags (ruleAt (graphOf s) r)) = []) as Hdecl.
  { intros E. rewrite E in Hd. by apply negb_false_iff, is_nil_true in Hd. }
  pose proof (obtainOutput_spec p u r out tags inputs s Hok Htags) as Ho.
  destruct (obtainOutput p u r out inputs s) as [[info|e] s1] eqn:Eo;
    [rewrite (bind_run _ _ _ _ _ Eo)|by rewrite (bind_stop _ _ _ _ _ Eo)].
  destruct Ho as (Ht1 & O & Hcase). set (a := outputArtifact info) in *.
  set (s2 := setPureFileTags a tags (setAlwaysUpdated a alwaysUpdated s1)).
  rewrite !bind_modify. fold s2.
  destruct (lookupArtifactByPath_Some _ _ _ _ (ob_ok _ _ _ _ _ _ _ O) (ob_found _ _ _ _ _ _ _ O))
    as (_ & x1 & Hx1 & Hname).
  destruct (provide_spec p a s2 tags) as (h2 & Ep & R); [apply lookup_insert_eq|apply O|done|].
  assert (fileName (pathOf (graphOf s2) a) = fileName out) as Hn.
  { unfold pathOf, artifactOf. change (graphOf s2) with (graphOf s1). by rewrite Hx1. }
  cbv zeta in R. rewrite Hn in R. rewrite (bind_run _ _ _ _ _ Ep).
  set (s3 := on_graphOf (λ _, h2) s2) in *.
  assert (wf_graph h2) as Hw2.
  { eapply po_graph, project_ok_tables; [apply O|apply (rt_tables _ _ _ _ _ R)]. }
  destruct (connectOutput_connects u info inputs s3 Hw2) as (h3 & Hs3 & Hc).
  destruct (connectOutput u info inputs s3) as [[[]|e] s4] eqn:Ec;
    [rewrite (bind_run _ _ _ _ _ Ec)|rewrite (bind_stop _ _ _ _ _ Ec); by destruct e].
  cbn [fst snd] in Hs3, Hc. subst s4. destruct Hc as [N Hni].
  rewrite bind_gets. unfold updArtifact, updTransformer, changeHeap. rewrite !bind_modify, bind_gets.
  change (m_transformer (on_graphOf (λ _, h3) s3)) with (m_transformer s1). rewrite Ht1.
  unfold checkThat. destruct (_ || _); [|done]. split; [exact Ht1|].
  apply (output_made_end p u r out tags inputs _ info _ (graphOf s1) h2 h3 x1);
    [done|done| |done|done|done|done].
  destruct (newlyCreated info); tauto.
Qed.


(** ** Carrying out an application *)

Lemma as_ruleNode_setRuleNode f u s :
  as_ruleNode (graphOf (setRuleNode f u s).2) u = f <$> as_ruleNode (graphOf s) u.
Proof. simpl. by rewrite as_ruleNode_upd, decide_True. Qed.

(** When the rule is applied, the rule node knows the time. *)
Lemma carryOut_applied p u rn f s res s' :
  project_ok (graphOf s) → is_Some (as_ruleNode (graphOf s) u) → wf_set (applicableInputs f) →
  carryOut p u rn f s = (Ok res, s') →
  if mustApplyRule (ruleAt (graphOf s) (m_rule rn)) f
  then ∃ rn', as_ruleNode (graphOf s') u = Some rn' ∧ m_lastApplicationTime rn' = applicationTime ∧
    (m_ruleUsesIo s' = true → m_needsToConsiderChangedInputs rn' = true)
  else createdArtifacts res = [] ∧ invalidatedArtifacts res = [].
Proof.
  intros Hok Hu Hw. unfold carryOut.
  intros (h & s0 & [= <- <-] & H)%bind_Ok.
  apply bind_Ok in H as (st & s1 & H1 & H). apply bind_Ok in H as ([] & s2 & H2 & H).
  apply bind_Ok in H as (removed & s3 & H3 & H).
  destruct (mustApplyRule _ f); [|by injection H as <- _].
  apply bind_Ok in H as ([] & s4 & H4 & H). apply bind_Ok in H as ([] & s5 & H5 & H).
  apply bind_Ok in H as (s6 & s7 & [= <- <-] & H). apply bind_Ok in H as ([] & s8 & H8 & H).
  injection H as _ <-.
  assert (project_kept s s5) as Hk.
  { apply (moves_result project_kept) in H1, H2, H3, H4, H5; [by etrans; [|etrans; [|etrans; [|etrans]]]|moves..]. }
  destruct (Hk Hok) as [_ Hr]. specialize (Hr u). destruct Hu as [rn0 Hrn0]. rewrite Hrn0 in Hr.
  destruct (as_ruleNode (graphOf s5) u) as [rn5|] eqn:Hrn5; [|done].
  pose proof (as_ruleNode_setRuleNode (applied (m_ruleUsesIo s5)) u s5) as Hset.
  rewrite H8, Hrn5 in Hset. exists (applied (m_ruleUsesIo s5) rn5). split; [done|]. split; [done|].
  injection H8 as <-. simpl. by intros ->.
Qed.

(** C9: applying a rule node keeps the project consistent, whatever happens: also
    when a script fails or an output conflicts, the edges and tables fit together, and
    every rule node is still there, for the same rule.  After a successful application
    the rule node remembers exactly the inputs and dependencies it found before, and
    the time when a rule was run; an application without an input that can be run
    creates and invalidates nothing. *)
Theorem applyRuleNode_correct u s :
  project_ok (graphOf s) →
  let '(r, s') := applyRuleNode u s in
  project_ok (graphOf s') ∧ rules_kept (graphOf s) (graphOf s') ∧
  match r with
  | Throw _ => True
  | Ok res => ∃ rn p f,
      as_ruleNode (graphOf s) u = Some rn ∧ productOf (graphOf s) u = Some p ∧
      considerRule (graphOf s) u rn p = Ok f ∧
      if ruleIsUpToDate f then s' = s
      else isDirty (graphOf s') = true ∧ ∃ rn',
        as_ruleNode (graphOf s') u = Some rn' ∧ m_rule rn' = m_rule rn ∧
        m_oldInputArtifacts rn' = compatibleInputs f ∧
        m_oldExplicitlyDependsOn rn' = explicitDependencies f ∧
        m_oldAuxiliaryInputs rn' = auxiliaries f ∧
        if mustApplyRule (ruleAt (graphOf s) (m_rule rn)) f
        then m_lastApplicationTime rn' = applicationTime ∧
          (m_ruleUsesIo s' = true → m_needsToConsiderChangedInputs rn' = true)
        else createdArtifacts res = [] ∧ invalidatedArtifacts res = []
  end.
Proof.
  intros Hok. pose proof (kept_applyRuleNode u s Hok) as [Hok' Hr].
  destruct (applyRuleNode u s) as [[res|e] s'] eqn:H; simpl in Hok', Hr; [|done].
  split; [done|]. split; [done|]. unfold applyRuleNode in H.
  apply bind_Ok in H as (h & s0 & [= <- <-] & H).
  destruct (as_ruleNode (graphOf s) u) as [rn|] eqn:Hrn; [|done].
  destruct (productOf (graphOf s) u) as [p|] eqn:Hp; [|done].
  apply bind_Ok in H as (f & s1 & H1 & H). unfold ofGraph in H1.
  destruct (considerRule (graphOf s) u rn p) as [f0|e] eqn:Hf; [|done]. injection H1 as -> <-.
  exists rn, p, f. split_and!; [done..|]. destruct (ruleIsUpToDate f); [by injection H|].
  apply bind_Ok in H as (res0 & s2 & H2 & H). apply bind_Ok in H as ([] & s3 & H3 & H).
  apply bind_Ok in H as ([] & s4 & [= <-] & H). injection H as <- <-. split; [done|].
  pose proof (considerRule_wf _ _ _ _ _ Hf) as [_ Hw].
  pose proof (carryOut_applied p u rn f s res0 s2 Hok ltac:(by eexists) Hw H2) as Happ.
  destruct (moves_result _ _ _ _ _ (kept_carryOut p u rn f Hw) H2 Hok) as [_ Hr2].
  specialize (Hr2 u). rewrite Hrn in Hr2.
  destruct (as_ruleNode (graphOf s2) u) as [rn2|] eqn:Hrn2; [|done]. injection Hr2 as Hrule.
  pose proof (as_ruleNode_setRuleNode (remember f) u s2) as Hset. rewrite H3, Hrn2 in Hset.
  exists (remember f rn2). split; [exact Hset|]. split_and!; [done..|].
  destruct (mustApplyRule _ _); [|done]. destruct Happ as (rn' & Hrn' & Ht & Hio).
  injection Hrn' as <-. injection H3 as <-. by split.
Qed.
End Correct.
