(* ===== verification/RuleApplicationExamples.v ===== *)
(** * Rule application at a concrete project

    A product with one source file and three rules: 6 makes an object file from each
    source file; 7 makes what its script says from all of them; 8 has no inputs, but
    its outputs depend explicitly on the source files. *)

From S2P Require Import Prelude FlatSet BuildGraph BuildGraphCorrect ArtifactRemoval StateMonad RuleApplication RuleApplicationGraph RuleApplicationRemoval RuleApplicationInvariant RuleDecision RuleOutputs RuleApplicationCorrect.

Module RuleExample.

(** [objects] is what [outputArtifacts] returns, [changed] whether prepare scripts must
    run again. *)
Definition scripts (objects : list (option OutputObject)) (changed : bool) : RuleScripts := {|
  itemsOf := λ r, if r =? 6 then [mkRuleArtifactItem 0 [60] false false] else [];
  staticTags := λ _, [60];
  ruleAlwaysRun := λ _, false;
  productModuleProperties := λ _, 0;
  fileTagsForFileName := λ _ _, [];
  artifactPropertiesOf := λ _, [];
  isInstalled := λ _, false;
  installableTag := 70;
  buildDirectory := λ _, lit "/b";
  resolvePath := λ dir path, match path with c :: _ => if c =c "/" then path else dir ++ lit "/" ++ path | [] => dir end;
  cleanPath := λ path, path;
  projectBuildDirectory := lit "/b";
  dummyOutput := λ _ _, lit "dummy";
  evaluateFilePath := λ _ _ inputs h,
    Ok (match inputs with a :: _ => fileName (filePath (artifactOf h a)) ++ lit ".o" | [] => lit "x" end);
  evaluateBindings := λ _ _ _ _, Ok 0;
  callOutputArtifacts := λ _ _ _, Ok (Some objects);
  withBindings := λ _ m, m;
  callPrepare := λ _ _ _, Ok (1, false, ∅);
  commandsChanged := λ _ _, false;
  prepareScriptChanged := λ _ _, changed;
  scriptsUseIo := λ _ _ _, false;
  applicationTime := 9
|}.

Definition output (path : string) : option OutputObject :=
  Some (mkOutputObject (lit path) [60] None [] None).

Definition sourceNode (path : string) (tags : FileTags) : Node :=
  mkNode [] [] (Some 9) (ArtifactNodeType (mkArtifact (lit path) 7 SourceFile tags [] [] None [] 0)).
Definition ruleNode (r : nat) : Node :=
  mkNode [] [] (Some 9) (RuleNodeType (mkRuleNode r [] [] [] 0 false)).

(** With the source files that have the tag 50. *)
Definition project (l : list (nat * Node)) : Heap :=
  mkHeap
    (list_to_map (l ++ [(3, ruleNode 6); (4, ruleNode 7); (5, ruleNode 8)]))
    ∅
    (list_to_map
      [(6, mkRule 9 [60] [50] [] [] [] [] [] false true false);
       (7, mkRule 9 [60] [50] [] [] [] [] [] true true true);
       (8, mkRule 9 [60] [] [] [] [] [50] [] true false true)])
    {[9 := mkResolvedProduct (lit "app") true [] [] [6; 7; 8] 0 []
             (Some (mkProductBuildData (l.*1 ++ [3; 4; 5]) [] {[50 := l.*1]} true))]}
    ∅ ∅ false.

Definition stateOf (h : Heap) : RuleState := mkRuleState h ∅ ∅ ∅ ∅ [] [] [] 0 None false.

Definition start : RuleState := stateOf (project [(1, sourceNode "/s/a.c" [50])]).
End RuleExample.
Import RuleExample.


(** ** The project is consistent *)

Lemma start_nodes u n :
  nodes (graphOf start) !! u = Some n →
  (u, n) ∈ [(1, sourceNode "/s/a.c" [50]); (3, ruleNode 6); (4, ruleNode 7); (5, ruleNode 8)].
Proof. apply elem_of_list_to_map_2. Qed.

Lemma start_artifact a x : as_artifact (graphOf start) a = Some x → a = 1 ∧ m_fileTags x = [50].
Proof.
  unfold as_artifact. destruct (nodes _ !! a) as [n|] eqn:Hn; [|done].
  apply start_nodes in Hn. rewrite !elem_of_cons, elem_of_nil in Hn.
  destruct_or! Hn; simplify_eq/=; [|done..]. intros [= <-]. done.
Qed.

Lemma project_start_ok : project_ok (graphOf start).
Proof.
  split.
  - apply check_graph_ok. by vm_compute.
  - intros key l Hk. unfold start, stateOf, project in Hk. cbn [graphOf lookupTable] in Hk.
    by rewrite lookup_empty in Hk.
  - intros p b. unfold buildDataOf, start, stateOf, project. cbn [graphOf products].
    case_match eqn:E; [|done]. apply lookup_singleton_Some in E as [<- <-]. intros [= <-].
    split; [by apply ssorted_nat_check|]. simpl. intros u. rewrite !elem_of_cons, elem_of_nil.
    intros. destruct_or!; subst; first [done|by vm_compute].
  - intros a Ha. exists 9. split; [|by eexists]. unfold isArtifact in Ha.
    destruct (as_artifact _ a) as [x|] eqn:Hx; [|done]. apply start_artifact in Hx as [-> _].
    by vm_compute.
  - intros t r Hr. unfold start, stateOf, project in Hr. cbn [graphOf transformers] in Hr.
    by rewrite lookup_empty in Hr.
Qed.

Lemma start_tags objects changed : @tags_ok (scripts objects changed) (graphOf start).
Proof.
  split.
  - intros x. unfold fileTags. destruct (as_artifact _ x) as [y|] eqn:Hx; [|apply nil_wf].
    apply start_artifact in Hx as [_ ->]. by apply ssorted_nat_check.
  - intros p name. apply nil_wf.
  - by intros p g e m ?%elem_of_nil.
Qed.

(** ** The properties at this project *)

(** The rule 7 makes two outputs, and needs not be applied again. *)
Definition scripts2 : RuleScripts := scripts [output "o1"; output "o2"] false.
Definition applied7 : RuleState := (@applyRuleNode scripts2 4 start).2.



Lemma applyRuleNode_correct_witness :
  ∃ res, (@applyRuleNode scripts2 4 start).1 = Ok res ∧ createdArtifacts res = [6; 7] ∧
    project_ok (graphOf applied7) ∧
    ∃ rn', as_ruleNode (graphOf applied7) 4 = Some rn' ∧ m_oldInputArtifacts rn' = [1].
Proof.
  pose proof (@applyRuleNode_correct scripts2 4 start project_start_ok) as H.
  exists (mkApplicationResult [6; 7] [6; 7] []).
  assert ((@applyRuleNode scripts2 4 start).1 = Ok (mkApplicationResult [6; 7] [6; 7] [])) as Hr
    by by vm_compute.
  split; [exact Hr|]. split; [done|]. unfold applied7.
  assert (@considerRule scripts2 (graphOf start) 4 (mkRuleNode 7 [] [] [] 0 false) 9 =
    Ok (mkFindings [1] [] [] [] [1] false)) as Hf0 by by vm_compute.
  assert (as_ruleNode (graphOf start) 4 = Some (mkRuleNode 7 [] [] [] 0 false)) as Hrn0 by by vm_compute.
  assert (productOf (graphOf start) 4 = Some 9) as Hp0 by by vm_compute.
  destruct (@applyRuleNode scripts2 4 start) as [r s']. cbn [fst snd] in *. subst r.
  destruct H as (Hok & _ & rn & p & f & Hrn & Hp & Hf & H). split; [done|].
  rewrite Hrn0 in Hrn. injection Hrn as <-. rewrite Hp0 in Hp. injection Hp as <-.
  rewrite Hf0 in Hf. injection Hf as <-.
  destruct H as (_ & rn' & Hrn' & _ & Hold & _). by exists rn'.
Defined.

(** ** What modelling showed *)

(** When a script makes fewer outputs than before, the other outputs are removed from
    the graph, but their paths are not in the result that the executor reads. *)
Example removed_outputs_not_reported :
  let '(res, s) := @applyRuleNode (scripts [output "o1"] true) 4 applied7 in
  lookupArtifactByPath (graphOf applied7) 9 (lit "/b/o2") false = Some 7 ∧
  lookupArtifactByPath (graphOf s) 9 (lit "/b/o2") false = None ∧
  m_removedArtifacts s = [lit "/b/o2"] ∧
  res = Ok (mkApplicationResult [] [] []).
Proof. vm_compute. done. Qed.

(** An output that a rule without inputs does not make any more stays, with its old
    transformer. *)
Example old_outputs_without_inputs_stay :
  let s := (@applyRuleNode scripts2 5 start).2 in
  let '(res, s') := @applyRuleNode (scripts [output "o1"] true) 5 s in
  lookupArtifactByPath (graphOf s') 9 (lit "/b/o2") false = Some 7 ∧
  transformer (artifactOf (graphOf s') 7) = Some 1 ∧
  transformer (artifactOf (graphOf s') 6) = Some 2 ∧
  (removedArtifacts <$> (if res is Ok r then Some r else None)) = Some [].
Proof. vm_compute. done. Qed.

(** A rule without inputs is up to date although its explicit dependencies are others:
    the outputs are not connected to the new source file. *)
Example new_dependency_without_inputs_missed :
  let s := (@applyRuleNode scripts2 5 start).2 in
  match createArtifact 9 12 (mkSourceArtifact (lit "/s/b.c") [50] [] 0) (graphOf s) with
  | Ok h =>
      match as_ruleNode h 5 with
      | Some rn =>
          m_oldExplicitlyDependsOn rn = [1] ∧
          match @considerRule scripts2 h 5 rn 9 with
          | Ok f => explicitDependencies f = [1; 12] ∧ ruleIsUpToDate f = true
          | Throw _ => False
          end
      | None => False
      end
  | Throw _ => False
  end.
Proof. vm_compute. done. Qed.
